(* ===== verification/_CoqProject ===== *)
-Q . S2P
Prelude.v
Bytes.v
Order.v
Store.v
Codec.v
Shard.v
ShardFacts.v
Track.v
Demo.v
LogStore.v
ShardSpec.v
Json.v
RoomTypes.v
RoomMachine.v
RoomDemo.v
RoomReplay.v
RoomRead.v
RoomAppend.v
RoomTimeline.v
TimelineSpec.v
RoomHistory.v
RoomReadSpec.v
UserTypes.v
UserMachine.v
UserKeys.v
UserQueues.v
UserApply.v
UserLog.v
UserDemo.v
UserSafety.v
UserTerminal.v
UserExternal.v
UserCells.v
UserMirror.v
CoreEvent.v
PowerLevels.v
Auth.v
AuthDemo.v
AuthSpec.v
PowerSpec.v
Acl.v
StateRes.v
ResGraph.v
ResOrder.v
ResMainline.v
ResRefine.v
ResolveSpec.v
Pdu.v
Pipeline.v
PipelineDemo.v
RoomCells.v
PipelineFacts.v
PipelineSpec.v
PipelineRoom.v
MetaGroup.v
Placement.v
ControlPlane.v
ControlPlaneSpec.v
Liveness.v
FedOut.v
Delivery.v
FedOutDemo.v
Outbox.v
Projection.v
ProjectionSpec.v
DeliverySpec.v
RoomServe.v
RoomJoin.v
RoomServeDemo.v
RoomServeSpec.v
RoomAccess.v
RoomImportSpec.v
RoomHeal.v
UserRead.v
UserFront.v
ClientToken.v
ClientRead.v
ClientReadSpec.v
ClientSync.v
FedIn.v
