(* ===== verification/Prelude.v ===== *)
(** * Saltator: a machine-checked model of the homeserver's core

    Saltator is a Matrix homeserver: rooms and users live in replicated state
    machines (Raft shard groups over an embedded key-value store), and rooms
    follow the Matrix event rules.  This library models the code that decides
    what the replicas hold: the store and the shard's apply path, the commands
    of the room and user applications, the authorisation rules, server ACLs and
    state resolution, the cluster's control plane with its failure detector,
    federation in both directions and what clients read of rooms; and it proves
    what that code promises.

    ** Parts of the program and where they are modelled

    All paths are under src/crates/.

    - The key-value store (saltator-store/src/lib.rs, rocks.rs): [Bytes] (byte
      order, big-endian integers, prefix bounds), [Store] (keyspaces, key
      layout, write batches, point reads and range scans).  The engine is a
      finite map read in byte order; RocksDB itself is not modelled.
    - The shard state machine (saltator-shard/src/app.rs, lib.rs, storage.rs):
      [Shard] ([ApplyCtx] with the batch it stages, [ReadCtx], the trait
      [ShardApp], [RaftStateMachine::apply] over a batch of entries, the
      migration command, snapshots; read.rs is in [UserRead]), [Codec]
      (serialisation as a class with its round-trip law, and a concrete
      instance), [ShardFacts] (what a scan returns; program logic for apply
      code), [Track] (a fact about one command carried to every batch and every
      run), [ShardSpec],
      [LogStore] (the Raft log store of storage.rs: vote, log entries, purge).
    - The room application (saltator-roomserver/src/types.rs, machine.rs):
      [Json], [RoomTypes], [RoomMachine] (every command), [RoomRead] (windows,
      state groups, members), with the properties in [RoomReplay],
      [RoomAppend], [RoomHistory], [RoomReadSpec],
      [TimelineSpec] (pages of the shard's timeline), [RoomTimeline] (the
      timeline only grows).
    - The user application (saltator-userserver/src/types.rs, machine.rs):
      [UserTypes], [UserMachine] (accounts, sessions, devices, membership),
      [UserKeys] (end-to-end keys), [UserQueues] (queues, backups, pushers),
      [UserApply] (passwords, lifecycle, tokens, aliases, media, and the
      dispatch of all 55 commands), [UserRead] (every typed read of
      [UserStore], its per-user half local or through a remote reader);
      [UserLog] (which rows a
      command can touch; induction over a log however it is batched);
      properties in [UserSafety], [UserTerminal], [UserExternal], [UserMirror].
    - The user server (saltator-userserver/src/lib.rs): [UserFront] has the
      request methods of [UserServer]: registration, the logins, refresh,
      authentication, and for every command what its caller makes of the
      answer.  A method reads through [UserRead] and proposes to [UserApply];
      what a request draws (clock, tokens, salt) and how Raft treats each
      proposal are arguments.
    - The membership projection (saltator-userserver/src/lib.rs): [Projection]
      is the task that reads a room shard's timeline from the user shard's
      cursor, with [RoomRead], and proposes what it finds to [UserApply];
      [ProjectionSpec] has the system it runs in (both shards, replicas of any
      age, proposals in flight) as a step relation, with the refinement and
      the termination of the catch-up loop.
    - The event rules (saltator-core/src): [CoreEvent] (chars, trim,
      integer parsing; room_version.rs and the accessors of event.rs),
      [PowerLevels] (power_levels.rs), [Auth] (auth.rs), [Acl] (acl.rs), [Pdu]
      (the typed event of event.rs and validation.rs); properties in [AuthSpec],
      [PowerSpec] and [Acl].
    - State resolution (saltator-core/src/state_res.rs): [Order] (lawful
      comparisons, sorting), [StateRes] (the whole algorithm, v2 and v2.1), [ResGraph]
      (auth chains, the conflicted subgraph), [ResOrder] (power ordering),
      [ResMainline] (mainline ordering and the iterative auth checks),
      [ResRefine] (the specification and the refinement), [ResolveSpec].
    - The event pipeline (saltator-roomserver/src/lib.rs): [Pipeline] is
      [RoomServer] from a raw event to the command it proposes: [classify],
      [process_inner] stage by stage (validation, cited events, both authority
      checks, state groups, extremities, redactions), local events and room
      creation.  It reads the room shard through [RoomRead], judges with [Auth]
      and [StateRes], and proposes to [RoomMachine].  [RoomCells] (what a
      state-group table means; what an append writes), [PipelineFacts] (stages
      and cases); properties in [PipelineSpec] and [PipelineRoom].
    - Serving and joining rooms (saltator-roomserver/src/lib.rs): [RoomServe]
      is what the server answers (auth chains, [walk_back] behind backfill and
      missing events, timestamps, members of servers, history visibility,
      server ACLs); [RoomJoin] is the decision on restricted joins, the
      membership templates and handshakes, which go through [Pipeline], the
      state before an event, and the three imports from raw events to the
      commands of [RoomMachine].  Loops that end when their data says so, with
      termination and work lists, are at the end of this file.  Properties in
      [RoomServeSpec] (walks against reachability), [RoomAccess] (visibility,
      restricted joins) and [RoomImportSpec] (segments, state before an event).
    - Healing (saltator-roomserver/src/heal.rs): [RoomHeal] is what the room
      server does about an event that cites what it lacks.  It asks an
      [EventFetcher], a record of functions that stand for the origin, and
      tries again through [Pipeline] and the segment import of [RoomJoin]; its
      properties are in the same file.
    - The cluster (saltator-cluster/src/types.rs, lib.rs, placement.rs,
      liveness.rs): [MetaGroup] (the metadata group's state machine),
      [Placement] (roster transitions, rendezvous ranking, [assign],
      [blob_replicas]), [ControlPlane] (the operations of [MetadataHandle] over
      the metadata group, with what Raft makes of each call), [Liveness] (the
      hysteresis tracker and one round of the detector, a client of
      [ControlPlane]); properties in [Placement], [ControlPlaneSpec],
      [Liveness].
    - Outbound federation (saltator-fedout/src/lib.rs,
      saltator-federation/src/delivery.rs): [FedOut] (the fed-out shard and its
      reads), [Delivery] (the worker: it reads room shards through [RoomRead],
      proposes to the fed-out shard and sends transactions); properties in
      [FedOut], [Outbox], [DeliverySpec].
    - Inbound federation (saltator-federation/src/transactions.rs, with the
      replay cache of lib.rs and the body of inbound.rs): [FedIn] is a
      transaction from its verified body to its answer.  PDUs go to [RoomHeal]
      on the shard of their room and, where the room is unknown, to the
      commands of [UserFront]; EDUs to [UserFront], to receipts of
      [RoomJoin], and to the typing and presence maps of [ClientSync].

    - Reading rooms as a client (saltator-cs-api/src: error.rs, room_util.rs,
      routes/rooms/reads.rs, and routes/sync.rs): [ClientToken] (sync
      and pagination tokens, type filters), [ClientRead] (the shard router of
      saltator-roomserver/src/shards.rs, events in the client format, who sees
      what, and the handlers of reads.rs, backfilling included; they read
      rooms through [RoomRead], import through [RoomJoin] and look users up
      through [UserRead]), [ClientSync] ([build_sync] of sync.rs with the rooms
      it is made of, the maps of typing.rs and presence.rs, the device list
      deltas of services/e2ee.rs and the unread counts of push_eval.rs;
      [build_sync] takes and returns the typing map, which a read prunes);
      properties in [ClientToken], [ClientReadSpec] and [ClientSync].

    The files named Demo hold concrete codecs, rooms and logs for the witnesses.

    ** How state and operations correspond

    Apply code is a function from the immutable environment (shard and engine
    at the start of the batch) and the staged state (write batch, next sequence
    number, records emitted) to a result and a new staged state: the monad
    [app] of [Shard].  Each command of the source is one definition, composed
    as the source composes them; a read goes through the overlay of staged
    writes where the source does ([ctx.get]) and to the engine alone where the
    source does ([ctx.range]).  Results are [result]; Rust integers are [N] or
    [Z] with their wrap-around written out; strings and byte vectors are both
    [string]; [BTreeMap]s and [BTreeSet]s are finite maps and sets read in byte
    order.  Pure code (the event rules, resolution, placement) is plain
    functions.  The control plane is a state monad ([ctl]) over the applied
    metadata, the voters, and a list that says how each Raft call to come will
    fare: done, refused, or committed behind an error.  The delivery worker's
    world is the fed-out engine, the penalties and the transactions accepted;
    a [Net] says which of them peers accept.

    ** What is assumed

    What the code takes from third-party crates is a class or a section
    variable: codecs with their round-trip law ([Codec], [UserTypes]),
    serde_json and lossy UTF-8 decoding ([UserTypes]), identifiers, canonical
    JSON and ed25519 of ruma ([CoreEvent], no law assumed), hashing, signature
    verification and redaction of events ([Pdu.EventCrypto], no law assumed).  State resolution
    takes [fetch]; its theorems assume what its documentation asks of it: the
    events form a finite set closed under auth events, without cycles
    ([ResGraph.auth_graph]).  The origin of an event is any record of functions:
    nothing is assumed of what it answers ([RoomHeal]).  The voters that the
    control plane reads from Raft's metrics are taken to be current.  Room, user, fed-out and metadata commands are assumed
    not to start with the byte that marks the runtime's own commands, which the
    source asserts of its encoding.  [ResolveSpec] proves that a store that only receives
    events citing what it holds has this property.

    ** What the theorems show

    - Shards: apply is independent of how committed entries are batched for
      code that reads through the overlay; snapshots transfer the state;
      migrations step by one; the log store reads as the map of entries it was
      given, without holes.
    - Rooms: replay of the change stream returns what was published; the effect
      of accepted and rejected events; history indices without holes, and none
      moves in another room; windows
      and state groups; transactions recorded; what is on the timeline keeps
      its number and its text.  Two lemmas exhibit the limits
      found: a prune that depends on batching, a redaction that is lost.
    - Users: tokens are single-use or limited, deactivation is terminal,
      external identities stay a bijection, token rows mirror accounts (and
      how a login staged in the same batch escapes).  A login that succeeds
      opens a session that authenticates until it expires, and one that may
      not succeed proposes nothing; where rows mirror accounts, authenticating
      from the token row alone answers as the account would.  Rows written
      before the mirror are exhibited to make refreshing fail, in apply too.
    - Projection: the membership index stands at a position of the timeline and
      shows the last membership event of every pair up to it, whatever is
      late, repeated or lost, and the catch-up loop ends at the end of the
      timeline.  Two examples show what it misses: a late batch reverts an
      invite recorded in between, and the members of an imported room.
    - Events: the membership rules as an inductive relation, who may act, no
      escalation by replacing power levels, creators of version 12, locality of the
      verdict in the auth events; glob matching and ACL decisions.
    - Resolution: it terminates without missing events on a closed acyclic
      graph, refines its specification, does not depend on the order of the
      states, never invents state.
    - Pipeline (not the imports of rooms and segments, which go past it): an
      event is accepted only when both authority checks accept it;
      the groups recorded stand for the state after it and for the room's
      state; group tables stay well formed and never change meaning; nothing is
      processed twice, also when a proposal's answer is lost; over any run of it,
      from any state, the forward extremities are the old ones and the accepted
      events that no accepted event cites.  Two theorems exhibit
      what it does wrong: a state event cannot merge a fork, and a second
      create event refounds a room.
    - Serving: an auth chain is exactly what is reachable, a backward walk gives
      the deepest events that its start reaches through accepted ones and all
      of them when it gives fewer than its limit, on any stored graph; a server sees redacted what its users
      were not there for; the server vouches only for joins that the
      authorisation rules let through; a segment's state holds exactly the
      entries with nothing missing behind them.  The state given as that before
      an event is exhibited to lose what the event does not cite.
    - Healing: it ends with a verdict whatever the origin answers, and leaves
      the room as verdicts on single events and segments on signed snapshots
      make it, under the keys trusted at that point.  The chain of such a
      segment is exhibited to be imported unsigned.
    - Cluster: a group's replicas are its best-ranked active nodes and a node
      that comes or goes displaces at most one; every control-plane call, under
      any failures, is a transition of an abstract roster and placement, so the
      cluster is never left without a placed node; the detector's verdicts
      are sound and complete for the failing and answering runs it saw, and it
      never touches operator intent.  A retry that does not heal a half-failed
      drain is exhibited.
    - Delivery: cursors end at the maximum reported however entries are ordered
      and batched; a destination's outbox is a queue; one pass splits what is
      due into what it sent, in order, and what its floor will read again; and
      where that promise ends: one peer that is down starves the others, and a
      takeover forgets destinations without a cursor.
    - Inbound transactions: the EDUs of an origin act for its own users only,
      and in rooms only where the ACL admits it; a transaction sent again is
      answered alike and does nothing.  A leave for an unknown room is
      exhibited to revoke an invite unsigned.
    - Clients: a token comes back as the position it was minted for; type
      patterns match exactly what their stars stand for; following the [end]
      tokens of [/messages] visits every readable row once and ends; a sync
      delivers what is new, or says that it does not and hands out the token
      under which [/messages] gives exactly the rest; unread counts split into
      the main timeline and threads.  The
      import of a segment is exhibited to give a backfilled event a second row,
      the guard that an event belongs to the room asked for is exhibited to be
      vacuous, and lazy loading to withhold members.

    ** Bounds and fuel

    Loops whose end depends on data take fuel: the glob matcher (a bound in the
    lengths, proved enough), state resolution (theorems give a fuel that
    depends on the event graph alone), state-group chains (the group id), the
    walks of [RoomServe] and the verdicts of a segment import (the theorems
    give a fuel for any store), the history loop of [/messages] (its budget is
    the source's limit on fetches), the projection's catch-up loop (one pass per
    entry left to read is enough).  The loop of healing has fuel for three
    rounds, which is proved enough; the rest goes to the segment import.
    Running out of fuel is a result of its own ([Diverges] or [None]), never a
    normal answer.

    ** Not modelled

    Consensus and the network; routing, caching, locks and change streams
    around the servers; the reconciler of Raft memberships; HTTP and federation
    transport, request signatures and the key cache; the federation endpoints
    other than [/send]; the client
    routes that write, the long poll around a sync, and the account, device,
    media and admin routes; media files; configuration and process start-up.
    These are I/O around the modelled decisions or third-party code. *)

From stdpp Require Export sorting base gmap strings list fin_maps countable.
From stdpp Require Import options.
From Stdlib Require Import Ascii.

(** ** Results

    [result E A] is Rust's [Result<A, E>].  [store_error] is
    [saltator_store::StoreError]: only the [Engine] variant is ever built by
    the modelled code, and of its message only the leading tag is kept (the
    rest is the text of a third-party error). *)

Inductive result (E A : Type) : Type :=
| Ok (a : A)
| Err (e : E).
Arguments Ok {E A} a.
Arguments Err {E A} e.

Inductive store_error : Type :=
| Engine (what : string).

#[export] Instance store_error_eq_dec : EqDecision store_error.
Proof. solve_decision. Defined.

(** The [?] operator: [let? x := r in k] returns the error of [r], or
    continues with its value. *)
Declare Scope saltator_scope.
Notation "'let?' x ':=' r 'in' k" :=
  (match r with Ok x => k | Err e => Err e end)
  (at level 10, x pattern, r at level 100, k at level 200) : saltator_scope.
#[global] Open Scope saltator_scope.

Definition is_ok {E A} (r : result E A) : bool :=
  match r with Ok _ => true | Err _ => false end.

(** [opt.ok_or(e)] *)
Definition ok_or {E A} (o : option A) (e : E) : result E A :=
  match o with Some a => Ok a | None => Err e end.

(** Early exit of a loop: [for x in l { body }] where the body may fail. *)
Fixpoint try_fold {E A B} (f : B → A → result E B) (b : B) (l : list A) : result E B :=
  match l with
  | [] => Ok b
  | a :: l => match f b a with Ok b' => try_fold f b' l | Err e => Err e end
  end.

(** The same for a loop whose body may leave the function with [None]. *)
Fixpoint opt_fold {A B} (f : B → A → option B) (b : B) (l : list A) : option B :=
  match l with
  | [] => Some b
  | a :: l => b' ← f b a; opt_fold f b' l
  end.

Definition is_some {A} (o : option A) : bool :=
  match o with Some _ => true | None => false end.

Lemma is_some_true {A} (o : option A) : is_some o = true ↔ is_Some o.
Proof. destruct o; simpl; split; intros H; try done; by destruct H. Qed.

(** ** Machine integers

    Unsigned Rust integers are [N], with the wrap-around of release builds
    ([overflow-checks] is off in the repository's profiles) written out. *)

Definition u64_modulus : N := 18446744073709551616.
Definition wrap64 (n : N) : N := n mod u64_modulus.
Definition u64_max : N := 18446744073709551615.
Definition add64 (a b : N) : N := wrap64 (a + b).
Definition add32 (a b : N) : N := (a + b) mod 4294967296.
Definition saturating_add64 (a b : N) : N := N.min (a + b) u64_max.
(** [N] subtraction is already truncated at zero. *)
Definition saturating_sub64 (a b : N) : N := a - b.

Lemma add64_small a b : (a + b < u64_modulus)%N → add64 a b = (a + b)%N.
Proof. intros H. unfold add64, wrap64. by rewrite N.mod_small. Qed.

Lemma wrap64_lt n : (wrap64 n < u64_modulus)%N.
Proof. apply N.mod_lt. done. Qed.

Lemma add64_lt a b : (add64 a b < u64_modulus)%N.
Proof. apply wrap64_lt. Qed.

Create HintDb saltator.
Create Rewrite HintDb saltator.
#[export] Hint Resolve wrap64_lt add64_lt : saltator.

(** ** Bytes and strings

    [Vec<u8>], [&[u8]], [String] and [&str] are all [string]: a list of
    8-bit characters.  A Rust [String] is its UTF-8 bytes, so [as_bytes] is
    the identity and [String::from_utf8] a validity test ([utf8_ok]).
    Byte order is [String.compare]. *)

Abbreviation bytes := string (only parsing).

Definition byte_of (n : N) : ascii := ascii_of_N (n mod 256).
Definition b0 : ascii := byte_of 0.
Definition b1 : ascii := byte_of 1.
Definition str1 (c : ascii) : string := String c EmptyString.

Lemma N_of_byte_of n : N_of_ascii (byte_of n) = (n mod 256)%N.
Proof. unfold byte_of. apply N_ascii_embedding. by apply N.mod_lt. Qed.

Lemma byte_of_N_of c : byte_of (N_of_ascii c) = c.
Proof.
  unfold byte_of. rewrite N.mod_small by apply N_ascii_bounded.
  apply ascii_N_embedding.
Qed.

Fixpoint str_existsb (f : ascii → bool) (s : string) : bool :=
  match s with
  | EmptyString => false
  | String c s => f c || str_existsb f s
  end.

(** A string free of NUL, the separator of composite keys. *)
Definition nul_free (s : string) : bool := negb (str_existsb (λ c, bool_decide (c = b0)) s).

(** [s.starts_with(p)] *)
Fixpoint starts_with (p s : string) : bool :=
  match p, s with
  | EmptyString, _ => true
  | String _ _, EmptyString => false
  | String a p, String b s => bool_decide (a = b) && starts_with p s
  end.

(** [&s[n..]] *)
Fixpoint str_drop (n : nat) (s : string) : string :=
  match n, s with
  | O, s => s
  | S _, EmptyString => EmptyString
  | S n, String _ s => str_drop n s
  end.

Fixpoint str_take (n : nat) (s : string) : string :=
  match n, s with
  | O, _ => EmptyString
  | S _, EmptyString => EmptyString
  | S n, String c s => String c (str_take n s)
  end.

(** [s.ends_with(p)] *)
Definition ends_with (p s : string) : bool :=
  bool_decide (String.length p ≤ String.length s)
  && bool_decide (str_drop (String.length s - String.length p) s = p).

(** [s.splitn(2, c)]: the text before the first [c], and the text after it
    when there is one. *)
Fixpoint split_once (c : ascii) (s : string) : string * option string :=
  match s with
  | EmptyString => (EmptyString, None)
  | String a s =>
      if bool_decide (a = c) then (EmptyString, Some s)
      else let '(l, r) := split_once c s in (String a l, r)
  end.

(** [s.as_bytes().iter().position(|&b| b == c)] *)
Fixpoint position (c : ascii) (s : string) : option nat :=
  match s with
  | EmptyString => None
  | String a s => if bool_decide (a = c) then Some 0 else S <$> position c s
  end.

Fixpoint str_forallb (f : ascii → bool) (s : string) : bool :=
  match s with
  | EmptyString => true
  | String c s => f c && str_forallb f s
  end.

(** [String::from_utf8]: the byte sequences the standard library accepts
    (RFC 3629: shortest form, no surrogates, at most U+10FFFF). *)
Definition in_range (lo hi : N) (c : ascii) : bool :=
  (lo <=? N_of_ascii c)%N && (N_of_ascii c <=? hi)%N.

Fixpoint utf8_ok (s : string) : bool :=
  match s with
  | EmptyString => true
  | String a s1 =>
      if in_range 0 127 a then utf8_ok s1
      else match s1 with
      | EmptyString => false
      | String b s2 =>
          if in_range 194 223 a then in_range 128 191 b && utf8_ok s2
          else match s2 with
          | EmptyString => false
          | String c s3 =>
              if in_range 224 239 a then
                (if in_range 224 224 a then in_range 160 191 b
                 else if in_range 237 237 a then in_range 128 159 b
                 else in_range 128 191 b)
                && in_range 128 191 c && utf8_ok s3
              else match s3 with
              | EmptyString => false
              | String d s4 =>
                  in_range 240 244 a
                  && (if in_range 240 240 a then in_range 144 191 b
                      else if in_range 244 244 a then in_range 128 143 b
                      else in_range 128 191 b)
                  && in_range 128 191 c && in_range 128 191 d && utf8_ok s4
              end
          end
      end
  end.

Definition from_utf8 (what : string) (s : bytes) : result store_error string :=
  if utf8_ok s then Ok s else Err (Engine what).

(** [String::from_utf8_lossy], which leaves valid text alone. *)
Class Utf8Lossy := {
  from_utf8_lossy : bytes → string;
  from_utf8_lossy_valid : ∀ s, utf8_ok s = true → from_utf8_lossy s = s;
}.

(** *** Lemmas on strings *)

#[global] Arguments String.app : simpl nomatch.

Lemma str_app_nil_r s : s +:+ EmptyString = s.
Proof. induction s as [|c s IH]; simpl; congruence. Qed.

Lemma str_app_assoc a b c : (a +:+ b) +:+ c = a +:+ (b +:+ c).
Proof. induction a as [|x a IH]; simpl; congruence. Qed.

Lemma str_length_app a b : String.length (a +:+ b) = String.length a + String.length b.
Proof. induction a as [|x a IH]; simpl; congruence. Qed.

Lemma str_app_inj_len a1 a2 x y :
  String.length a1 = String.length a2 → a1 +:+ x = a2 +:+ y → a1 = a2 ∧ x = y.
Proof.
  revert a2. induction a1 as [|c a1 IH]; intros [|d a2]; simpl; intros Hl He; try done.
  injection He as -> He. destruct (IH a2) as [-> ->]; auto.
Qed.

Lemma str_drop_app p s : str_drop (String.length p) (p +:+ s) = s.
Proof. induction p; simpl; auto. Qed.

Lemma str_take_app p s : str_take (String.length p) (p +:+ s) = p.
Proof. induction p; simpl; congruence. Qed.

Lemma starts_with_spec p s : starts_with p s = true ↔ ∃ t, s = p +:+ t.
Proof.
  revert s. induction p as [|a p IH]; intros s; simpl.
  - split; [by eexists|done].
  - destruct s as [|b s]; [split; [done|intros [t Ht]; done]|].
    rewrite andb_true_iff, bool_decide_eq_true, IH. split.
    + intros [-> [t ->]]. by exists t.
    + intros [t Ht]. injection Ht as -> ->. split; [done|by exists t].
Qed.

Lemma starts_with_app p s : starts_with p (p +:+ s) = true.
Proof. apply starts_with_spec. by eexists. Qed.

Lemma nul_free_cons c s : nul_free (String c s) = true ↔ c ≠ b0 ∧ nul_free s = true.
Proof.
  unfold nul_free; simpl. rewrite negb_orb, andb_true_iff, negb_true_iff.
  by rewrite bool_decide_eq_false.
Qed.

(** The first NUL is the separator: a composite key splits in one way. *)
Lemma split_once_nul a s : nul_free a = true → split_once b0 (a +:+ String b0 s) = (a, Some s).
Proof.
  induction a as [|c a IH]; simpl; intros Ha; [done|].
  apply nul_free_cons in Ha as [Hc Ha]. rewrite IH by done. by rewrite bool_decide_false.
Qed.

Lemma nul_split_inj a a' x y :
  nul_free a = true → nul_free a' = true →
  a +:+ String b0 x = a' +:+ String b0 y → a = a' ∧ x = y.
Proof.
  revert a'. induction a as [|c a IH]; intros [|c' a'] Ha Ha' He; simpl in He.
  - injection He as He. by subst.
  - assert (b0 = c') as <- by congruence.
    apply nul_free_cons in Ha' as [? _]. done.
  - assert (c = b0) as -> by congruence.
    apply nul_free_cons in Ha as [? _]. done.
  - assert (c = c') as -> by congruence.
    apply nul_free_cons in Ha as [_ Ha]. apply nul_free_cons in Ha' as [_ Ha'].
    destruct (IH a' Ha Ha') as [-> ->]; [congruence|done].
Qed.

Lemma position_nul_free a x :
  nul_free a = true → position b0 (a +:+ String b0 x) = Some (String.length a).
Proof.
  induction a as [|c a IH]; intros Ha; simpl.
  - done.
  - apply nul_free_cons in Ha as [Hc Ha]. rewrite bool_decide_false by done.
    by rewrite IH.
Qed.

(** ** Lists *)

Lemma list_filter_all {A} (P : A → Prop) `{!∀ x, Decision (P x)} (l : list A) :
  (∀ x, x ∈ l → P x) → filter P l = l.
Proof.
  induction l as [|x l IH]; intros HP; [done|]. rewrite filter_cons_True by (apply HP; by left).
  f_equal. apply IH. intros y Hy. apply HP. by right.
Qed.

Lemma sorted_filter {A} (R : relation A) (P : A → Prop) `{!∀ a, Decision (P a)} l :
  StronglySorted R l → StronglySorted R (filter P l).
Proof.
  induction 1 as [|a l Hs IH Hf]; [constructor|]. rewrite filter_cons.
  case_decide; [|done]. constructor; [done|]. apply list.Forall_forall.
  intros b [_ Hb]%list_elem_of_filter. rewrite list.Forall_forall in Hf. by apply Hf.
Qed.

Lemma filter_prefix {A} (P : A → Prop) `{!∀ x, Decision (P x)} (l k : list A) :
  l `prefix_of` k → filter P l `prefix_of` filter P k.
Proof. intros [t ->]. rewrite list.filter_app. by eexists. Qed.

Lemma prefix_take {A} (l k : list A) j :
  l `prefix_of` k → length l ≤ j → l `prefix_of` take j k.
Proof.
  intros [t ->] Hl. rewrite take_app_ge by done. by eexists.
Qed.

(** ** Ordered sets: [BTreeSet<String>] is a [gset], read in byte order. *)
Definition btree (s : gset string) : list string := merge_sort String.le (elements s).

Lemma elem_of_btree s x : x ∈ btree s ↔ x ∈ s.
Proof. unfold btree. by rewrite merge_sort_Permutation, elem_of_elements. Qed.

(** ** Loops that end when their data says so

    [while] and [while let] as iteration of a body that goes on with a new
    state or stops with a result; fuel bounds the iterations.  Invariants, and
    termination by a well-founded relation; work lists that explore what is
    reachable from a seed. *)

Section Loop.
Context {S R : Type} (body : S → S + R).

Fixpoint loop (fuel : nat) (s : S) : option R :=
  match fuel with
  | O => None
  | Datatypes.S fuel => match body s with inl s => loop fuel s | inr r => Some r end
  end.

Lemma loop_inv (I : S → Prop) (Q : R → Prop) fuel s r :
  (∀ s s', I s → body s = inl s' → I s') → (∀ s r, I s → body s = inr r → Q r) →
  I s → loop fuel s = Some r → Q r.
Proof.
  intros Hstep Hexit. revert s. induction fuel as [|fuel IH]; intros s Hs; [done|]. simpl.
  destruct (body s) as [s'|r'] eqn:Hb; [by apply IH; eapply Hstep|intros [= <-]; by eapply Hexit].
Qed.

Lemma loop_more fuel fuel' s r : loop fuel s = Some r → (fuel ≤ fuel')%nat → loop fuel' s = Some r.
Proof.
  revert fuel' s. induction fuel as [|fuel IH]; intros [|fuel'] s; try done; [lia|]. simpl.
  destruct (body s); [|done]. intros ? ?. apply IH; [done|lia].
Qed.

Lemma loop_total (lt : S → S → Prop) (I : S → Prop) s :
  well_founded lt → (∀ s s', I s → body s = inl s' → I s' ∧ lt s' s) → I s →
  ∃ n r, ∀ fuel, (n ≤ fuel)%nat → loop fuel s = Some r.
Proof.
  intros Hwf Hstep. induction (Hwf s) as [s _ IH]. intros Hs.
  destruct (body s) as [s'|r] eqn:Hb.
  - destruct (Hstep s s' Hs Hb) as [Hs' Hlt]. destruct (IH s' Hlt Hs') as (n & r & Hn).
    exists (Datatypes.S n), r. intros [|fuel] Hf; [lia|]. simpl. rewrite Hb. apply Hn. lia.
  - exists 1%nat, r. intros [|fuel] Hf; [lia|]. simpl. by rewrite Hb.
Qed.
End Loop.

(** Pairs of measures, the first one counting more. *)
Definition lex2 {S} (f g : S → nat) (a b : S) : Prop :=
  (f a < f b)%nat ∨ f a = f b ∧ (g a < g b)%nat.

Lemma lex2_wf {S} (f g : S → nat) : well_founded (lex2 f g).
Proof.
  intros a. remember (f a) as n eqn:Hn. revert a Hn.
  induction (lt_wf n) as [n _ IHn]. intros a Hn. remember (g a) as m eqn:Hm. revert a Hn Hm.
  induction (lt_wf m) as [m _ IHm]. intros a Hn Hm. constructor. intros b [Hb|[Hb Hg]].
  - by eapply IHn; [rewrite Hn; exact Hb|].
  - eapply IHm; [rewrite Hm; exact Hg| |done]. by rewrite Hb.
Qed.

(** ** Reachability and work lists *)

Lemma elem_of_rev {A} (l : list A) x : x ∈ rev l ↔ x ∈ l.
Proof. by rewrite !list_elem_of_In, <- in_rev. Qed.

Section Worklist.
Context (succ : string → list string).

Inductive reachable (seed : string → Prop) : string → Prop :=
  | reach_seed x : seed x → reachable seed x
  | reach_step x y : reachable seed x → y ∈ succ x → reachable seed y.

(** A work list: what was seen is reachable, and whatever it leads to was
    seen or waits. *)
Record exploring (seed : string → Prop) (seen : gset string) (pending : string → Prop) : Prop := {
  ex_seed : ∀ x, seed x → x ∈ seen ∨ pending x;
  ex_closed : ∀ x y, x ∈ seen → y ∈ succ x → y ∈ seen ∨ pending y;
  ex_seen : ∀ x, x ∈ seen → reachable seed x;
  ex_pending : ∀ x, pending x → reachable seed x;
}.

Lemma exploring_start (seed : string → Prop) : exploring seed ∅ seed.
Proof. split; [auto|set_solver|set_solver|]. intros. by constructor. Qed.

(** An element of the list is taken up. *)
Lemma exploring_visit seed seen (pending pending' : string → Prop) x :
  exploring seed seen pending → pending x →
  (∀ y, pending y → y = x ∨ pending' y) →
  (∀ y, pending' y → pending y ∨ y ∈ succ x) →
  (∀ y, y ∈ succ x → y ∈ ({[x]} ∪ seen) ∨ pending' y) →
  exploring seed ({[x]} ∪ seen) pending'.
Proof.
  intros [H1 H2 H3 H4] Hx Hold Hnew Hsucc. split.
  - intros y [Hy|Hy]%H1; [left; set_solver|]. destruct (Hold y Hy) as [->|?]; [left; set_solver|by right].
  - intros a b [->%elem_of_singleton|Ha]%elem_of_union Hb; [by apply Hsucc|].
    destruct (H2 a b Ha Hb) as [?|Hp]; [left; set_solver|].
    destruct (Hold b Hp) as [->|?]; [left; set_solver|by right].
  - intros a [->%elem_of_singleton|Ha]%elem_of_union; [by apply H4|by apply H3].
  - intros y [?|Hy]%Hnew; [by apply H4|]. eapply reach_step; [by apply H4|done].
Qed.

(** One already seen is dropped. *)
Lemma exploring_skip seed seen (pending pending' : string → Prop) x :
  exploring seed seen pending → x ∈ seen →
  (∀ y, pending y → y = x ∨ pending' y) → (∀ y, pending' y → pending y) →
  exploring seed seen pending'.
Proof.
  intros [H1 H2 H3 H4] Hx Hold Hnew. split; [| |done|auto].
  - intros y [Hy|Hy]%H1; [by left|]. destruct (Hold y Hy) as [->|?]; auto.
  - intros a b Ha Hb. destruct (H2 a b Ha Hb) as [?|Hp]; [by left|]. destruct (Hold b Hp) as [->|?]; auto.
Qed.

(** Nothing waits: what was seen is what can be reached. *)
Lemma exploring_done seed seen (pending : string → Prop) x :
  exploring seed seen pending → (∀ y, ¬ pending y) → x ∈ seen ↔ reachable seed x.
Proof.
  intros [H1 H2 H3 H4] Hnone. split; [by apply H3|]. induction 1 as [x Hx|x y _ IH Hy].
  - destruct (H1 x Hx) as [?|[]%Hnone]. done.
  - destruct (H2 x y IH Hy) as [?|[]%Hnone]. done.
Qed.

(** What can be reached and was not seen lies behind something that waits. *)
Lemma exploring_behind seed seen (pending : string → Prop) x :
  exploring seed seen pending → reachable seed x → x ∈ seen ∨ ∃ y, pending y ∧ reachable (eq y) x.
Proof.
  intros [H1 H2 H3 H4]. induction 1 as [x Hx|x y _ IH Hy].
  - destruct (H1 x Hx); [by left|right]. exists x. split; [done|]. by constructor.
  - destruct IH as [IH|(z & Hz & Hr)].
    + destruct (H2 x y IH Hy); [by left|right]. exists y. split; [done|]. by constructor.
    + right. exists z. split; [done|]. by eapply reach_step.
Qed.
End Worklist.
