(* ===== verification/Bytes.v ===== *)
(** * Byte order and big-endian keys

    The storage engine orders keys as byte strings and every composite key of
    the program ends in a big-endian integer, so scans run in numeric order.
    This file holds the order lemmas, [u64::to_be_bytes] and its inverse, and
    the prefix bound [prefix_end] (saltator-userserver/src/types.rs). *)

From Stdlib Require Import Ascii.
From S2P Require Import Prelude.
From stdpp Require Import options.

(** ** Lexicographic comparison *)

Lemma ascii_compare_refl c : Ascii.compare c c = Eq.
Proof. apply N.compare_refl. Qed.

Lemma ascii_compare_eq c d : Ascii.compare c d = Eq ↔ c = d.
Proof.
  unfold Ascii.compare. rewrite N.compare_eq_iff. split; [|by intros ->].
  intros H. by rewrite <- (byte_of_N_of c), H, byte_of_N_of.
Qed.

Lemma scompare_refl s : String.compare s s = Eq.
Proof. induction s as [|c s IH]; simpl; [done|]. by rewrite ascii_compare_refl. Qed.

Lemma scompare_app p a b : String.compare (p +:+ a) (p +:+ b) = String.compare a b.
Proof. induction p as [|c p IH]; simpl; [done|]. by rewrite ascii_compare_refl. Qed.

(** Two heads of equal length decide unless they are equal. *)
Lemma scompare_app_len x y a b :
  String.length x = String.length y →
  String.compare (x +:+ a) (y +:+ b) =
    match String.compare x y with Eq => String.compare a b | c => c end.
Proof.
  revert y. induction x as [|c x IH]; intros [|d y]; simpl; intros Hl; try done.
  destruct (Ascii.compare c d); [|done..]. apply IH. lia.
Qed.

Lemma sleb_iff a b : String.leb a b = true ↔ String.compare a b ≠ Gt.
Proof. unfold String.leb. destruct (String.compare a b); naive_solver. Qed.

Lemma sltb_iff a b : String.ltb a b = true ↔ String.compare a b = Lt.
Proof. unfold String.ltb. destruct (String.compare a b); naive_solver. Qed.

Lemma sltb_negb a b : String.ltb a b = negb (String.leb b a).
Proof.
  unfold String.ltb, String.leb. rewrite String.compare_antisym.
  by destruct (String.compare b a).
Qed.

Lemma sleb_refl a : String.leb a a = true.
Proof. apply sleb_iff. by rewrite scompare_refl. Qed.

Lemma sleb_le a b : String.leb a b = true ↔ String.le a b.
Proof. unfold String.le. by rewrite Is_true_true. Qed.

Lemma sleb_trans a b c : String.leb a b = true → String.leb b c = true → String.leb a c = true.
Proof. rewrite !sleb_le. intros. by etrans. Qed.

Lemma sltb_leb a b : String.ltb a b = true → String.leb a b = true.
Proof. unfold String.ltb, String.leb. by destruct (String.compare a b). Qed.

Lemma sltb_leb_trans a b c : String.ltb a b = true → String.leb b c = true → String.ltb a c = true.
Proof.
  rewrite !sltb_negb, !negb_true_iff. intros H1 H2.
  destruct (String.leb c a) eqn:E; [|done]. by rewrite (sleb_trans b c a) in H1.
Qed.

Lemma sleb_ltb_trans a b c : String.leb a b = true → String.ltb b c = true → String.ltb a c = true.
Proof.
  rewrite !sltb_negb, !negb_true_iff. intros H1 H2.
  destruct (String.leb c a) eqn:E; [|done]. by rewrite (sleb_trans c a b) in H2.
Qed.

Lemma sltb_irrefl a : String.ltb a a = false.
Proof. by rewrite sltb_negb, sleb_refl. Qed.

Lemma sleb_app p a b : String.leb (p +:+ a) (p +:+ b) = String.leb a b.
Proof. unfold String.leb. by rewrite scompare_app. Qed.

Lemma sltb_app p a b : String.ltb (p +:+ a) (p +:+ b) = String.ltb a b.
Proof. unfold String.ltb. by rewrite scompare_app. Qed.

Lemma sleb_nil s : String.leb EmptyString s = true.
Proof. by destruct s. Qed.

Lemma sltb_nil s : String.ltb s EmptyString = false.
Proof. by destruct s. Qed.

(** [start <= k && k < end] *)
Definition between (s e k : bytes) : bool := String.leb s k && String.ltb k e.

Lemma between_app p s e k : between (p +:+ s) (p +:+ e) (p +:+ k) = between s e k.
Proof. unfold between. by rewrite sleb_app, sltb_app. Qed.

(** ** Big-endian integers: [n.to_be_bytes()] *)

Fixpoint be_bytes (n : nat) (v : N) : bytes :=
  match n with
  | O => EmptyString
  | S m => String (byte_of (v / 256 ^ N.of_nat m)) (be_bytes m v)
  end.

Fixpoint be_val (s : bytes) : N :=
  match s with
  | EmptyString => 0
  | String c s => (N_of_ascii c * 256 ^ N.of_nat (String.length s) + be_val s)%N
  end.

Definition be64 (v : N) : bytes := be_bytes 8 v.
Definition be16 (v : N) : bytes := be_bytes 2 v.

(** [u64::from_be_bytes(k.try_into()?)]: only an 8-byte slice converts. *)
Definition from_be64 (s : bytes) : option N :=
  if bool_decide (String.length s = 8) then Some (be_val s) else None.

Lemma be_bytes_length n v : String.length (be_bytes n v) = n.
Proof. induction n; simpl; congruence. Qed.

Lemma pow256_pos n : (0 < 256 ^ n)%N.
Proof. apply N.neq_0_lt_0, N.pow_nonzero. done. Qed.

Lemma pow256_succ m : (256 ^ N.of_nat (S m) = 256 ^ N.of_nat m * 256)%N.
Proof. rewrite Nat2N.inj_succ, N.pow_succ_r'. lia. Qed.

Lemma be_val_bytes n v : be_val (be_bytes n v) = (v mod 256 ^ N.of_nat n)%N.
Proof.
  induction n as [|m IH]; [by rewrite N.mod_1_r|].
  cbn [be_bytes be_val]. rewrite IH, be_bytes_length, N_of_byte_of, pow256_succ.
  pose proof (pow256_pos (N.of_nat m)).
  rewrite N.Div0.mod_mul_r. lia.
Qed.

Lemma be_bytes_val s : be_bytes (String.length s) (be_val s) = s.
Proof.
  assert (∀ n a v, be_bytes n (a * 256 ^ N.of_nat n + v) = be_bytes n v) as Hhi.
  { induction n as [|m IHm]; intros a v; [done|]. cbn [be_bytes]. f_equal.
    - unfold byte_of. f_equal. rewrite pow256_succ.
      pose proof (pow256_pos (N.of_nat m)).
      replace (a * (256 ^ N.of_nat m * 256) + v)%N
        with (v + (a * 256) * 256 ^ N.of_nat m)%N by lia.
      rewrite N.div_add by lia. by rewrite N.Div0.mod_add.
    - rewrite pow256_succ.
      replace (a * (256 ^ N.of_nat m * 256))%N
        with ((a * 256) * 256 ^ N.of_nat m)%N by lia. apply IHm. }
  assert (∀ t, be_val t < 256 ^ N.of_nat (String.length t))%N as Hbd.
  { induction t as [|c t IHt]; [done|]. cbn [be_val String.length].
    rewrite pow256_succ. pose proof (N_ascii_bounded c).
    nia. }
  induction s as [|c s IH]; [done|]. cbn [be_val String.length be_bytes]. f_equal.
  - rewrite N.div_add_l by (pose proof (pow256_pos (N.of_nat (String.length s))); lia).
    rewrite N.div_small by apply Hbd. rewrite N.add_0_r. apply byte_of_N_of.
  - by rewrite Hhi.
Qed.

(** Numeric order is byte order, whatever follows. *)
Lemma be_bytes_compare n a b :
  String.compare (be_bytes n a) (be_bytes n b) =
    N.compare (a mod 256 ^ N.of_nat n) (b mod 256 ^ N.of_nat n).
Proof.
  induction n as [|m IH]; [by rewrite !N.mod_1_r|].
  cbn [be_bytes String.compare]. unfold Ascii.compare. rewrite !N_of_byte_of, IH.
  pose proof (pow256_pos (N.of_nat m)) as Hp. rewrite pow256_succ.
  rewrite !N.Div0.mod_mul_r.
  set (x := ((a / 256 ^ N.of_nat m) mod 256)%N).
  set (y := ((b / 256 ^ N.of_nat m) mod 256)%N).
  pose proof (N.mod_lt a (256 ^ N.of_nat m) ltac:(lia)).
  pose proof (N.mod_lt b (256 ^ N.of_nat m) ltac:(lia)).
  set (r := (a mod 256 ^ N.of_nat m)%N) in *. set (t := (b mod 256 ^ N.of_nat m)%N) in *.
  set (p := (256 ^ N.of_nat m)%N) in *.
  destruct (N.compare_spec x y) as [->|Hlt|Hgt].
  - destruct (N.compare_spec r t); symmetry; subst;
      [apply N.compare_eq_iff|apply N.compare_lt_iff|apply N.compare_gt_iff]; lia.
  - symmetry. apply N.compare_lt_iff. nia.
  - symmetry. apply N.compare_gt_iff. nia.
Qed.

Lemma be64_length v : String.length (be64 v) = 8.
Proof. apply be_bytes_length. Qed.

Lemma from_be64_be64 v : (v < u64_modulus)%N → from_be64 (be64 v) = Some v.
Proof.
  intros Hv. unfold from_be64, be64. rewrite be_bytes_length, bool_decide_true by done.
  by rewrite be_val_bytes, N.mod_small.
Qed.

Lemma be64_inj a b :
  (a < u64_modulus)%N → (b < u64_modulus)%N → be64 a = be64 b → a = b.
Proof.
  intros Ha Hb He. apply (f_equal from_be64) in He.
  rewrite !from_be64_be64 in He by done. congruence.
Qed.

Lemma be64_from_be64 s v : from_be64 s = Some v → s = be64 v.
Proof.
  unfold from_be64. case_bool_decide as H; [|done]. intros [= <-].
  unfold be64. by rewrite <- H, be_bytes_val.
Qed.

Lemma be64_compare a b :
  (a < u64_modulus)%N → (b < u64_modulus)%N →
  String.compare (be64 a) (be64 b) = N.compare a b.
Proof.
  intros. unfold be64. rewrite be_bytes_compare. by rewrite !N.mod_small.
Qed.

Lemma be64_leb a b :
  (a < u64_modulus)%N → (b < u64_modulus)%N →
  String.leb (be64 a) (be64 b) = (a <=? b)%N.
Proof. intros. unfold String.leb, N.leb. by rewrite be64_compare. Qed.

Lemma be64_ltb a b :
  (a < u64_modulus)%N → (b < u64_modulus)%N →
  String.ltb (be64 a) (be64 b) = (a <? b)%N.
Proof. intros. unfold String.ltb, N.ltb. by rewrite be64_compare. Qed.

Lemma be16_inj a b : (a < 65536)%N → (b < 65536)%N → be16 a = be16 b → a = b.
Proof.
  intros Ha Hb He. apply (f_equal be_val) in He. unfold be16 in He.
  rewrite !be_val_bytes in He. change (256 ^ N.of_nat 2)%N with 65536%N in He.
  by rewrite !N.mod_small in He.
Qed.

(** ** Prefix scans *)

Definition str_of_list : list ascii → string := String.string_of_list_ascii.
Definition list_of_str : string → list ascii := String.list_ascii_of_string.

(** [prefix_end]: increment the last byte below [0xff], dropping the
    [0xff]s after it.  The loop works from the end of the slice, so it is
    written on the reversed list of bytes. *)
Fixpoint prefix_end_rev (r : list ascii) : list ascii :=
  match r with
  | [] => []
  | last :: r' =>
      if (N_of_ascii last <? 255)%N then byte_of (N_of_ascii last + 1) :: r'
      else prefix_end_rev r'
  end.

Definition prefix_end (prefix : bytes) : bytes :=
  str_of_list (rev (prefix_end_rev (rev (list_of_str prefix)))).

Lemma list_of_str_app a b : list_of_str (a +:+ b) = list_of_str a ++ list_of_str b.
Proof. induction a as [|c a IH]; simpl; [done|]. unfold list_of_str in *. simpl. by f_equal. Qed.

Lemma str_of_list_app a b : str_of_list (a ++ b) = str_of_list a +:+ str_of_list b.
Proof. induction a as [|c a IH]; simpl; [done|]. unfold str_of_list in *. simpl. by f_equal. Qed.

Lemma str_of_list_of s : str_of_list (list_of_str s) = s.
Proof. apply String.string_of_list_ascii_of_string. Qed.

(** A prefix that ends in a byte below [0xff] (every prefix of the program
    ends in NUL) is bounded by the prefix with that byte incremented. *)
Lemma prefix_end_snoc p c :
  (N_of_ascii c < 255)%N →
  prefix_end (p +:+ str1 c) = p +:+ str1 (byte_of (N_of_ascii c + 1)).
Proof.
  intros Hc. unfold prefix_end. rewrite list_of_str_app, rev_app_distr. simpl.
  rewrite (proj2 (N.ltb_lt _ _) Hc). simpl.
  by rewrite rev_involutive, str_of_list_app, str_of_list_of.
Qed.

(** The half-open range [[p ++ c, p ++ (c+1))] holds exactly the strings
    that extend [p ++ c]. *)
Lemma between_prefix p c k :
  (N_of_ascii c < 255)%N →
  between (p +:+ str1 c) (p +:+ str1 (byte_of (N_of_ascii c + 1))) k = true ↔
  starts_with (p +:+ str1 c) k = true.
Proof.
  intros Hc. rewrite starts_with_spec. unfold between.
  rewrite andb_true_iff, sleb_iff, sltb_iff.
  assert (N_of_ascii (byte_of (N_of_ascii c + 1)) = N_of_ascii c + 1)%N as Hs.
  { rewrite N_of_byte_of. apply N.mod_small. lia. }
  split.
  - revert k. induction p as [|a p IH]; intros k [H1 H2]; simpl in *.
    + destruct k as [|d k]; [done|]. simpl in H1, H2. unfold Ascii.compare in H1, H2.
      assert (c = d) as <-; [|by exists k].
      rewrite Hs in H2. rewrite <- (byte_of_N_of c), <- (byte_of_N_of d). f_equal.
      destruct (N.compare_spec (N_of_ascii c) (N_of_ascii d)) as [E|E|E]; [done| |done].
      destruct (N.compare_spec (N_of_ascii d) (N_of_ascii c + 1)) as [E'|E'|E']; [|lia|done].
      destruct k; done.
    + destruct k as [|d k]; [done|]. simpl in H1, H2.
      destruct (Ascii.compare a d) eqn:Ead; [| |done].
      * apply ascii_compare_eq in Ead as ->. rewrite ascii_compare_refl in H2.
        destruct (IH k) as [t ->]; [done|]. by exists t.
      * unfold Ascii.compare in *. rewrite N.compare_antisym, Ead in H2. done.
  - intros [t ->]. split.
    + rewrite <- (str_app_nil_r (p +:+ str1 c)) at 1. rewrite scompare_app. by destruct t.
    + rewrite str_app_assoc, scompare_app. simpl. unfold Ascii.compare. rewrite Hs.
      by replace (N_of_ascii c ?= N_of_ascii c + 1)%N with Lt
        by (symmetry; apply N.compare_lt_iff; lia).
Qed.

Lemma between_prefix_end p c k :
  (N_of_ascii c < 255)%N →
  between (p +:+ str1 c) (prefix_end (p +:+ str1 c)) k = true ↔
  ∃ t, k = (p +:+ str1 c) +:+ t.
Proof. intros Hc. by rewrite prefix_end_snoc, between_prefix, starts_with_spec. Qed.

#[global] Arguments be64 : simpl never.
#[global] Arguments be16 : simpl never.
#[global] Arguments from_be64 : simpl never.
