(* ===== verification/Order.v ===== *)
(** * Comparisons

    The three-way comparisons that Rust's [Ord] derives, as a class of their
    laws with instances for the types the program compares and for the
    lexicographic, reversed and projected comparisons built from them. *)

From Stdlib Require Import Ascii.
From S2P Require Import Prelude Bytes.
From stdpp Require Import options.

Class Lawful {A : Type} (cmp : A → A → comparison) : Prop := {
  cmp_eq : ∀ a b, cmp a b = Eq → a = b;
  cmp_opp : ∀ a b, cmp b a = CompOpp (cmp a b);
  cmp_trans : ∀ a b c, cmp a b = Lt → cmp b c = Lt → cmp a c = Lt;
}.

Section Laws.
Context {A : Type} {cmp : A → A → comparison} {L : Lawful cmp}.

Lemma cmp_refl a : cmp a a = Eq.
Proof using L. pose proof (cmp_opp (cmp := cmp) a a). by destruct (cmp a a). Qed.

Lemma cmp_gt a b : cmp a b = Gt ↔ cmp b a = Lt.
Proof using L. rewrite (cmp_opp (cmp := cmp) a b). by destruct (cmp a b). Qed.

Lemma cmp_irrefl a : cmp a a ≠ Lt.
Proof using L. by rewrite cmp_refl. Qed.

Lemma cmp_asym a b : cmp a b = Lt → cmp b a ≠ Lt.
Proof using L. rewrite (cmp_opp (cmp := cmp) a b). by destruct (cmp a b). Qed.
End Laws.

(** ** Instances *)

#[export] Instance lawful_N : Lawful N.compare.
Proof.
  split.
  - apply N.compare_eq.
  - intros a b. apply N.compare_antisym.
  - intros a b c. rewrite !N.compare_lt_iff. apply N.lt_trans.
Qed.

#[export] Instance lawful_Z : Lawful Z.compare.
Proof.
  split.
  - apply Z.compare_eq.
  - intros a b. apply Z.compare_antisym.
  - intros a b c. rewrite !Z.compare_lt_iff. apply Z.lt_trans.
Qed.

Lemma ascii_compare_N a b : Ascii.compare a b = N.compare (N_of_ascii a) (N_of_ascii b).
Proof. reflexivity. Qed.

#[export] Instance lawful_ascii : Lawful Ascii.compare.
Proof.
  split.
  - intros a b. apply Ascii.compare_eq_iff.
  - intros a b. apply Ascii.compare_antisym.
  - intros a b c. rewrite !ascii_compare_N. apply cmp_trans.
Qed.

#[export] Instance lawful_string : Lawful String.compare.
Proof.
  split.
  - intros a b. apply String.compare_eq_iff.
  - intros a b. apply String.compare_antisym.
  - induction a as [|x a IH]; intros [|y b] [|z c]; simpl; try done.
    destruct (Ascii.compare x y) eqn:E1; try done.
    + apply Ascii.compare_eq_iff in E1 as ->. destruct (Ascii.compare y z); try done. apply IH.
    + intros _. destruct (Ascii.compare y z) eqn:E2; try done.
      * apply Ascii.compare_eq_iff in E2 as <-. by rewrite E1.
      * by rewrite (cmp_trans _ _ _ E1 E2).
Qed.

(** First one comparison, then the other. *)
Definition cmp_lex {A} (c1 c2 : A → A → comparison) (a b : A) : comparison :=
  match c1 a b with Eq => c2 a b | r => r end.

Definition cmp_on {A B} (f : A → B) (c : B → B → comparison) (a b : A) : comparison := c (f a) (f b).

Definition cmp_rev {A} (c : A → A → comparison) (a b : A) : comparison := c b a.

#[export] Instance lawful_rev {A} (c : A → A → comparison) : Lawful c → Lawful (cmp_rev c).
Proof.
  intros L. unfold cmp_rev. split.
  - intros a b H. symmetry. by apply cmp_eq.
  - intros a b. apply cmp_opp.
  - intros x y z H1 H2. by eapply cmp_trans.
Qed.

(** All but the equality law of a projected comparison. *)
Class Weak {A : Type} (cmp : A → A → comparison) : Prop := {
  weak_opp : ∀ a b, cmp b a = CompOpp (cmp a b);
  weak_trans : ∀ a b c, cmp a b = Lt → cmp b c = Lt → cmp a c = Lt;
  weak_eq : ∀ a b c, cmp a b = Eq → cmp a c = cmp b c;
}.

#[export] Instance weak_on {A B} (f : A → B) (c : B → B → comparison) : Lawful c → Weak (cmp_on f c).
Proof.
  intros L. unfold cmp_on. split.
  - intros a b. apply cmp_opp.
  - intros x y z. apply cmp_trans.
  - intros x y z H. by rewrite (cmp_eq _ _ H).
Qed.

#[export] Instance weak_lex {A} (c1 c2 : A → A → comparison) :
  Weak c1 → Weak c2 → Weak (cmp_lex c1 c2).
Proof.
  intros W1 W2. unfold cmp_lex. split.
  - intros a b. rewrite (weak_opp (cmp := c1) a b). destruct (c1 a b); simpl; [apply weak_opp|done..].
  - intros a b c. destruct (c1 a b) eqn:E1; try done.
    + rewrite (weak_eq _ _ c E1). destruct (c1 b c); [apply weak_trans|done..].
    + intros _. destruct (c1 b c) eqn:E2; try done.
      * intros _. pose proof (weak_opp (cmp := c1) b c) as E3. rewrite E2 in E3.
        pose proof (weak_opp (cmp := c1) a c) as E4. pose proof (weak_opp (cmp := c1) a b) as E5.
        rewrite E1 in E5. rewrite (weak_eq _ _ a E3), E5 in E4. by destruct (c1 a c).
      * intros _. by rewrite (weak_trans _ _ _ E1 E2).
  - intros a b c. destruct (c1 a b) eqn:E1; try done. intros E2.
    rewrite (weak_eq _ _ c E1). destruct (c1 b c); [by apply weak_eq|done..].
Qed.

Lemma lawful_weak {A} (c : A → A → comparison) :
  Weak c → (∀ a b, c a b = Eq → a = b) → Lawful c.
Proof. intros W H. split; [done|apply weak_opp|apply weak_trans]. Qed.

(** ** The order of a comparison *)

Definition cmp_le {A} (cmp : A → A → comparison) (a b : A) : bool :=
  match cmp a b with Gt => false | _ => true end.

Section Le.
Context {A : Type} {cmp : A → A → comparison} {L : Lawful cmp}.

Lemma cmp_le_total a b : cmp_le cmp a b = true ∨ cmp_le cmp b a = true.
Proof using L. unfold cmp_le. rewrite (cmp_opp (cmp := cmp) a b). destruct (cmp a b); auto. Qed.

Lemma cmp_le_antisym a b : cmp_le cmp a b = true → cmp_le cmp b a = true → a = b.
Proof using L.
  unfold cmp_le. rewrite (cmp_opp (cmp := cmp) a b). destruct (cmp a b) eqn:E; try done. intros _ _. by apply cmp_eq.
Qed.

Lemma cmp_le_trans a b c : cmp_le cmp a b = true → cmp_le cmp b c = true → cmp_le cmp a c = true.
Proof using L.
  unfold cmp_le. destruct (cmp a b) eqn:E1; try done.
  - by apply cmp_eq in E1 as ->.
  - intros _. destruct (cmp b c) eqn:E2; try done.
    + apply cmp_eq in E2 as <-. by rewrite E1.
    + by rewrite (cmp_trans _ _ _ E1 E2).
Qed.
End Le.

(** ** Sorting

    A boolean order as the relation that [merge_sort] takes, and
    [v.sort_by(cmp)]: a stable sort. *)
Definition holds {A} (le : A → A → bool) (a b : A) : Prop := le a b = true.

#[export] Instance holds_dec {A} (le : A → A → bool) : RelDecision (holds le).
Proof. intros a b. unfold holds. apply _. Defined.

Definition sort_by {A} (cmp : A → A → comparison) : list A → list A :=
  merge_sort (holds (cmp_le cmp)).

Section Sort.
Context {A : Type} {cmp : A → A → comparison} {L : Lawful cmp}.

#[export] Instance cmp_le_transitive : Transitive (holds (cmp_le cmp)).
Proof using L. intros a b c. apply cmp_le_trans. Qed.

#[export] Instance cmp_le_total_rel : Total (holds (cmp_le cmp)).
Proof using L. intros a b. apply cmp_le_total. Qed.

#[export] Instance cmp_le_anti_symm : AntiSymm (=) (holds (cmp_le cmp)).
Proof using L. intros a b. apply cmp_le_antisym. Qed.

Lemma sort_by_perm l : sort_by cmp l ≡ₚ l.
Proof using Type. apply merge_sort_Permutation. Qed.

Lemma sort_by_sorted l : StronglySorted (holds (cmp_le cmp)) (sort_by cmp l).
Proof using L. apply Sorted_StronglySorted; [apply _|]. apply Sorted_merge_sort. apply _. Qed.

(** A sorted list is determined by its elements. *)
Lemma sort_by_unique l k :
  StronglySorted (holds (cmp_le cmp)) k → k ≡ₚ l → sort_by cmp l = k.
Proof using L.
  intros Hk HP. apply (StronglySorted_unique (holds (cmp_le cmp))); [apply sort_by_sorted|done|].
  by rewrite sort_by_perm.
Qed.

Lemma sort_by_filter (P : A → Prop) `{!∀ x, Decision (P x)} l :
  sort_by cmp (filter P l) = filter P (sort_by cmp l).
Proof using L.
  apply sort_by_unique; [apply sorted_filter, sort_by_sorted|].
  by rewrite sort_by_perm.
Qed.
End Sort.

(** A [BTreeSet] of numbers, in ascending order. *)
Definition ascending (s : gset N) : list N := sort_by N.compare (elements s).

Lemma elem_of_ascending s n : n ∈ ascending s ↔ n ∈ s.
Proof. unfold ascending. by rewrite sort_by_perm, elem_of_elements. Qed.

Lemma ascending_nodup s : NoDup (ascending s).
Proof. unfold ascending. rewrite sort_by_perm. apply NoDup_elements. Qed.

Lemma ascending_sorted s : StronglySorted N.lt (ascending s).
Proof.
  pose proof (sort_by_sorted (cmp := N.compare) (elements s)) as HS.
  pose proof (ascending_nodup s) as HN. unfold ascending in *.
  induction HS as [|x l Hl IH Hx]; [constructor|]. apply list.NoDup_cons in HN as [Hn HN].
  constructor; [by apply IH|]. apply list.Forall_forall. intros y Hy.
  eapply list.Forall_forall in Hx; [|done]. unfold holds, cmp_le in Hx.
  destruct (N.compare_spec x y) as [->|H|H]; try done.
Qed.
