(* ===== verification/Store.v ===== *)
(** * The storage engine interface (saltator-store)

    [WriteBatch], the key layout and the [KvEngine] contract of
    saltator-store/src/lib.rs.  The engine itself is RocksDB behind
    saltator-store/src/rocks.rs; what the program relies on is the trait's
    documented contract, an ordered map from byte strings to byte strings
    with atomic batches, which is the [engine] below.  I/O faults are not
    modelled. *)

From Stdlib Require Import Ascii.
From S2P Require Import Prelude Bytes.
From stdpp Require Import options.

(** ** Keyspaces and keys *)

Inductive Keyspace : Type := Meta | Room | User | FedOut.

#[export] Instance keyspace_eq_dec : EqDecision Keyspace.
Proof. solve_decision. Defined.

(** [ks as u8] *)
Definition keyspace_u8 (ks : Keyspace) : N :=
  match ks with Meta => 0 | Room => 1 | User => 2 | FedOut => 3 end.

Definition keyspace_name (ks : Keyspace) : string :=
  match ks with Meta => "meta" | Room => "room" | User => "user" | FedOut => "fedout" end.

(** Key layout: [keyspace(1) | shard(2 BE) | table(1) | key(..)]. *)
Definition key (ks : Keyspace) (shard table : N) (k : bytes) : bytes :=
  String (byte_of (keyspace_u8 ks)) (be16 shard +:+ String (byte_of table) k).

(** [[start, end)] covering every key of a shard; [u16::MAX] falls back to
    bumping the keyspace byte ([shard.checked_add(1)]). *)
Definition shard_bounds (ks : Keyspace) (shard : N) : bytes * bytes :=
  (String (byte_of (keyspace_u8 ks)) (be16 shard),
   if (shard + 1 <? 65536)%N
   then String (byte_of (keyspace_u8 ks)) (be16 (shard + 1))
   else str1 (byte_of (keyspace_u8 ks + 1))).

(** [[start, end)] covering every key of one table. *)
Definition table_bounds (ks : Keyspace) (shard table : N) : bytes * bytes :=
  (key ks shard table EmptyString,
   if (table =? 255)%N
   then String (byte_of (keyspace_u8 ks)) (be16 ((shard + 1) mod 65536))
   else key ks shard (table + 1) EmptyString).

(** ** Write batches *)

Inductive BatchOp : Type :=
| Put (k v : bytes)
| Delete (k : bytes)
| DeleteRange (s e : bytes).

(** [WriteBatch.ops], oldest first. *)
Abbreviation WriteBatch := (list BatchOp) (only parsing).

Definition wb_put (k v : bytes) (wb : WriteBatch) : WriteBatch := wb ++ [Put k v].
Definition wb_delete (k : bytes) (wb : WriteBatch) : WriteBatch := wb ++ [Delete k].
Definition wb_delete_range (s e : bytes) (wb : WriteBatch) : WriteBatch :=
  wb ++ [DeleteRange s e].

(** [WriteBatch::staged]: the last operation that says something about
    [k]; the outer [None] means the batch says nothing. *)
Fixpoint staged_rev (k : bytes) (ops : list BatchOp) : option (option bytes) :=
  match ops with
  | [] => None
  | Put k' v :: ops => if bool_decide (k' = k) then Some (Some v) else staged_rev k ops
  | Delete k' :: ops => if bool_decide (k' = k) then Some None else staged_rev k ops
  | DeleteRange s e :: ops => if between s e k then Some None else staged_rev k ops
  end.

Definition staged (k : bytes) (wb : WriteBatch) : option (option bytes) :=
  staged_rev k (rev wb).

(** ** The engine contract *)

Abbreviation engine := (gmap string string) (only parsing).

Definition apply_op (e : engine) (op : BatchOp) : engine :=
  match op with
  | Put k v => <[k := v]> e
  | Delete k => delete k e
  | DeleteRange s t => filter (λ kv, between s t kv.1 = false) e
  end.

(** [KvEngine::write_batch] (and [write_batch_relaxed], which differs in
    durability only). *)
Definition write_batch (wb : WriteBatch) (e : engine) : engine := foldl apply_op e wb.

Definition kv_le (a b : bytes * bytes) : Prop := String.le a.1 b.1.

#[export] Instance kv_le_dec : RelDecision kv_le.
Proof. intros a b. unfold kv_le. apply _. Defined.

(** [KvEngine::range]: the entries of [[start, end)] in key order. *)
Definition kv_range (s t : bytes) (e : engine) : list (bytes * bytes) :=
  merge_sort kv_le (map_to_list (filter (λ kv, between s t kv.1 = true) e)).

(** [KvEngine::scan] *)
Definition kv_scan (s t : bytes) (limit : N) (reverse : bool) (e : engine) :
    list (bytes * bytes) :=
  let l := kv_range s t e in
  take (N.to_nat limit) (if reverse then rev l else l).

(** [KvEngine::last_in_range] *)
Definition last_in_range (s t : bytes) (e : engine) : option (bytes * bytes) :=
  list.last (kv_range s t e).

(** ** Overlay reads *)

(** What a reader that consults [staged] before the engine sees. *)
Definition overlay (wb : WriteBatch) (e : engine) (k : bytes) : option bytes :=
  match staged k wb with Some o => o | None => e !! k end.

Lemma lookup_apply_op e op k :
  apply_op e op !! k =
    match staged_rev k [op] with Some o => o | None => e !! k end.
Proof.
  destruct op as [k' v|k'|s t]; simpl.
  - rewrite lookup_insert. repeat case_decide; repeat case_bool_decide; congruence.
  - rewrite lookup_delete. repeat case_decide; repeat case_bool_decide; congruence.
  - destruct (between s t k) eqn:Hb.
    + apply map_lookup_filter_None. right. intros v _. simpl. congruence.
    + destruct (e !! k) as [v|] eqn:Hk.
      * by apply map_lookup_filter_Some.
      * apply map_lookup_filter_None. by left.
Qed.

Lemma staged_rev_app k l1 l2 :
  staged_rev k (l1 ++ l2) =
    match staged_rev k l1 with Some o => Some o | None => staged_rev k l2 end.
Proof.
  induction l1 as [|[k' v|k'|s t] l1 IH]; simpl; [done|..]; by
    repeat (case_bool_decide || case_match).
Qed.

Lemma staged_snoc k wb op :
  staged k (wb ++ [op]) =
    match staged_rev k [op] with Some o => Some o | None => staged k wb end.
Proof. unfold staged. by rewrite rev_app_distr, staged_rev_app. Qed.

Lemma write_batch_snoc wb op e : write_batch (wb ++ [op]) e = apply_op (write_batch wb e) op.
Proof. unfold write_batch. by rewrite foldl_app. Qed.

Lemma write_batch_app wb1 wb2 e :
  write_batch (wb1 ++ wb2) e = write_batch wb2 (write_batch wb1 e).
Proof. unfold write_batch. by rewrite foldl_app. Qed.

(** The staged overlay reads exactly what the batch, once applied, holds. *)
Lemma overlay_write_batch wb e k : overlay wb e k = write_batch wb e !! k.
Proof.
  unfold overlay. induction wb as [|op wb IH] using rev_ind; [done|].
  rewrite write_batch_snoc, lookup_apply_op, staged_snoc, <- IH.
  by destruct (staged_rev k [op]).
Qed.

(** ** Range scans *)

Lemma kv_le_trans : Transitive kv_le.
Proof. intros a b c. unfold kv_le. apply transitivity. Qed.

Lemma kv_le_total : Total kv_le.
Proof. intros a b. unfold kv_le. apply total, _. Qed.

Lemma elem_of_kv_range s t e k v :
  (k, v) ∈ kv_range s t e ↔ e !! k = Some v ∧ between s t k = true.
Proof.
  unfold kv_range. rewrite merge_sort_Permutation, elem_of_map_to_list.
  by rewrite map_lookup_filter_Some.
Qed.

Lemma kv_range_sorted s t e : StronglySorted kv_le (kv_range s t e).
Proof. apply StronglySorted_merge_sort; [apply kv_le_trans|apply kv_le_total]. Qed.

Lemma kv_range_NoDup_keys s t e : NoDup (kv_range s t e).*1.
Proof. unfold kv_range. rewrite merge_sort_Permutation. apply NoDup_fst_map_to_list. Qed.

(** A list is the scan as soon as it is sorted, duplicate-free and has the
    right elements. *)
Lemma kv_range_unique s t e l :
  StronglySorted kv_le l → NoDup l →
  (∀ k v, (k, v) ∈ l ↔ e !! k = Some v ∧ between s t k = true) →
  kv_range s t e = l.
Proof.
  intros Hs Hnd Hl. apply (StronglySorted_unique_strong kv_le).
  - intros [k1 v1] [k2 v2] H1%elem_of_kv_range H2%Hl Hle Hle'. unfold kv_le in *; simpl in *.
    assert (k1 = k2) as -> by (by apply (anti_symm String.le)).
    destruct H1, H2. congruence.
  - apply kv_range_sorted.
  - done.
  - apply NoDup_Permutation; [|done|].
    + apply (NoDup_fmap_1 fst), kv_range_NoDup_keys.
    + intros [k v]. by rewrite elem_of_kv_range, Hl.
Qed.

Lemma kv_range_ext s t e s' t' e' :
  (∀ k v, e !! k = Some v ∧ between s t k = true ↔
          e' !! k = Some v ∧ between s' t' k = true) →
  kv_range s t e = kv_range s' t' e'.
Proof.
  intros H. apply kv_range_unique.
  - apply kv_range_sorted.
  - apply (NoDup_fmap_1 fst), kv_range_NoDup_keys.
  - intros k v. rewrite elem_of_kv_range. symmetry. apply H.
Qed.

(** ** Key layout *)

Lemma byte_of_inj a b : (a < 256)%N → (b < 256)%N → byte_of a = byte_of b → a = b.
Proof.
  intros Ha Hb He. apply (f_equal N_of_ascii) in He.
  rewrite !N_of_byte_of, !N.mod_small in He by done. done.
Qed.

Lemma keyspace_u8_lt ks : (keyspace_u8 ks < 256)%N.
Proof. by destruct ks. Qed.

Lemma keyspace_u8_inj ks ks' : keyspace_u8 ks = keyspace_u8 ks' → ks = ks'.
Proof. by destruct ks, ks'. Qed.

(** The storage prefix of a table. *)
Definition table_prefix (ks : Keyspace) (shard table : N) : bytes :=
  String (byte_of (keyspace_u8 ks)) (be16 shard +:+ str1 (byte_of table)).

Lemma key_app ks shard table k : key ks shard table k = table_prefix ks shard table +:+ k.
Proof. reflexivity. Qed.

Lemma table_prefix_length ks shard table : String.length (table_prefix ks shard table) = 4.
Proof. reflexivity. Qed.

Lemma key_split ks shard table k :
  key ks shard table k =
    str1 (byte_of (keyspace_u8 ks)) +:+ (be16 shard +:+ (str1 (byte_of table) +:+ k)).
Proof. reflexivity. Qed.

Lemma str1_inj a b : str1 a = str1 b → a = b.
Proof. by intros [= ->]. Qed.

Lemma key_inj ks shard table k ks' shard' table' k' :
  (shard < 65536)%N → (shard' < 65536)%N → (table < 256)%N → (table' < 256)%N →
  key ks shard table k = key ks' shard' table' k' →
  ks = ks' ∧ shard = shard' ∧ table = table' ∧ k = k'.
Proof.
  intros Hs Hs' Ht Ht' He. rewrite !key_split in He.
  apply str_app_inj_len in He as [Hks%str1_inj He]; [|done].
  apply str_app_inj_len in He as [Hsh He]; [|done].
  apply str_app_inj_len in He as [Htb%str1_inj ->]; [|done].
  split_and!; [|by apply be16_inj|by apply byte_of_inj|done].
  apply keyspace_u8_inj, byte_of_inj; auto using keyspace_u8_lt.
Qed.

Lemma key_inj_key ks shard table k ks' shard' table' k' :
  key ks shard table k = key ks' shard' table' k' → k = k'.
Proof.
  intros He. rewrite !key_split in He.
  do 3 (apply str_app_inj_len in He as [_ He]; [|done]). done.
Qed.

Lemma key_inj_same ks shard table k table' k' :
  (table < 256)%N → (table' < 256)%N →
  key ks shard table k = key ks shard table' k' → table = table' ∧ k = k'.
Proof.
  intros Ht Ht' He. rewrite !key_split in He.
  apply str_app_inj_len in He as [_ He]; [|done].
  apply str_app_inj_len in He as [_ He]; [|done].
  apply str_app_inj_len in He as [Htb%str1_inj ->]; [|done].
  split; [by apply byte_of_inj|done].
Qed.

(** Every key whose table byte is not [0xff] falls in its table's bounds and
    in no other's (the program's tables are all below 64). *)
Lemma table_bounds_prefix ks shard table k :
  (table < 255)%N →
  between (table_bounds ks shard table).1 (table_bounds ks shard table).2 k = true ↔
  ∃ k', k = key ks shard table k'.
Proof.
  intros Ht. unfold table_bounds; simpl.
  rewrite (proj2 (N.eqb_neq table 255)) by lia.
  set (p := String (byte_of (keyspace_u8 ks)) (be16 shard)).
  assert (∀ t, key ks shard t EmptyString = p +:+ str1 (byte_of t)) as Hk by done.
  assert (N_of_ascii (byte_of table) = table) as Hn.
  { rewrite N_of_byte_of. apply N.mod_small. lia. }
  rewrite !Hk. rewrite <- Hn at 2. rewrite between_prefix by (rewrite Hn; lia).
  rewrite starts_with_spec.
  split; intros [t ->]; exists t; by rewrite key_app.
Qed.

Lemma be16_compare a b :
  (a < 65536)%N → (b < 65536)%N → String.compare (be16 a) (be16 b) = N.compare a b.
Proof. intros. unfold be16. rewrite be_bytes_compare. by rewrite !N.mod_small. Qed.

Lemma str1_compare a b :
  (a < 256)%N → (b < 256)%N →
  String.compare (str1 (byte_of a)) (str1 (byte_of b)) = N.compare a b.
Proof.
  intros. simpl. unfold Ascii.compare. rewrite !N_of_byte_of, !N.mod_small by done.
  by destruct (N.compare a b).
Qed.

(** Keys compare by keyspace, then shard, then table, then app key. *)
Lemma key_compare ks sh t k ks' sh' t' k' :
  (sh < 65536)%N → (sh' < 65536)%N → (t < 256)%N → (t' < 256)%N →
  String.compare (key ks sh t k) (key ks' sh' t' k') =
    match N.compare (keyspace_u8 ks) (keyspace_u8 ks') with
    | Eq => match N.compare sh sh' with
            | Eq => match N.compare t t' with Eq => String.compare k k' | c => c end
            | c => c
            end
    | c => c
    end.
Proof.
  intros. rewrite !key_split.
  rewrite scompare_app_len, str1_compare by auto using keyspace_u8_lt.
  destruct (N.compare _ _); [|done..].
  rewrite scompare_app_len, be16_compare by done.
  destruct (N.compare sh sh'); [|done..].
  by rewrite scompare_app_len, str1_compare.
Qed.

(** Every key of a shard falls in its bounds and no key of another shard
    does, so whole shards are contiguous ranges. *)
Lemma shard_bounds_spec ks sh ks' sh' t k :
  (sh < 65536)%N → (sh' < 65536)%N → (t < 256)%N →
  between (shard_bounds ks sh).1 (shard_bounds ks sh).2 (key ks' sh' t k) = true ↔
  ks' = ks ∧ sh' = sh.
Proof.
  intros Hsh Hsh' Ht. unfold shard_bounds, between. cbn [fst snd].
  rewrite andb_true_iff, sleb_iff, sltb_iff.
  assert (∀ a, (a < 65536)%N →
    String.compare (String (byte_of (keyspace_u8 ks)) (be16 a)) (key ks' sh' t k) =
      match N.compare (keyspace_u8 ks) (keyspace_u8 ks') with
      | Eq => match N.compare a sh' with Eq => Lt | c => c end
      | c => c end) as Hlo.
  { intros a Ha. rewrite key_split.
    change (String (byte_of (keyspace_u8 ks)) (be16 a))
      with (str1 (byte_of (keyspace_u8 ks)) +:+ (be16 a +:+ EmptyString)).
    rewrite scompare_app_len, str1_compare by auto using keyspace_u8_lt.
    destruct (N.compare _ _); [|done..].
    rewrite scompare_app_len, be16_compare by done. done. }
  rewrite Hlo by done.
  destruct (N.ltb_spec (sh + 1) 65536) as [Hmax|Hmax].
  - rewrite String.compare_antisym, Hlo by done.
    destruct (N.compare_spec (keyspace_u8 ks) (keyspace_u8 ks')) as [E|E|E].
    + apply keyspace_u8_inj in E as ->.
      destruct (N.compare_spec sh sh'), (N.compare_spec (sh + 1) sh');
        split; intros [? ?]; split; simpl in *; try done; subst; try done; lia.
    + split; intros [? ?]; [done|subst; lia].
    + split; intros [? ?]; [done|subst; lia].
  - assert (sh = 65535)%N as -> by lia. rewrite key_split.
    rewrite <- (str_app_nil_r (str1 (byte_of (keyspace_u8 ks + 1)))).
    rewrite scompare_app_len, str1_compare
      by first [done | apply keyspace_u8_lt | by destruct ks].
    destruct (N.compare_spec (keyspace_u8 ks) (keyspace_u8 ks')) as [E|E|E].
    + apply keyspace_u8_inj in E as ->.
      assert ((keyspace_u8 ks' ?= keyspace_u8 ks' + 1)%N = Lt) as ->
        by (apply N.compare_lt_iff; lia).
      destruct (N.compare_spec 65535 sh'); split; intros [? ?]; split; try done; subst; lia.
    + split; intros [Hx Hy]; [|subst; lia].
      destruct (N.compare_spec (keyspace_u8 ks') (keyspace_u8 ks + 1)) as [E'|E'|E'];
        [done|lia|done].
    + split; intros [? ?]; [done|subst; lia].
Qed.
