(* ===== verification/Codec.v ===== *)
(** * The record codec

    Every stored record travels as postcard bytes.  Postcard is a third-party
    crate, so encoding and decoding are operations of a type class, with the
    one law the program relies on: what was encoded decodes to itself.
    ([postcard::to_stdvec] into a growable vector does not fail on the
    program's record types, so [enc] is total.) *)

From Stdlib Require Import Ascii.
From S2P Require Import Prelude.
From stdpp Require Import options.

Class Codec (A : Type) := {
  enc : A → bytes;
  dec : bytes → option A;
  dec_enc : ∀ a, dec (enc a) = Some a;
}.

(** [dec(what, b)]: the error carries the caller's tag. *)
Definition dec_or {A} `{!Codec A} (what : string) (b : bytes) : result store_error A :=
  ok_or (dec b) (Engine what).

Lemma dec_or_enc {A} `{!Codec A} what (a : A) : dec_or what (enc a) = Ok a.
Proof. unfold dec_or. by rewrite dec_enc. Qed.

#[export] Hint Rewrite @dec_enc @dec_or_enc : saltator.

#[export] Instance enc_inj {A} `{!Codec A} : Inj (=) (=) (enc (A := A)).
Proof. intros a b He. apply (f_equal dec) in He. rewrite !dec_enc in He. congruence. Qed.

(** ** Concrete codecs

    A small positional format, so that the definitions can be evaluated on
    inputs: each component of a pair but the last is preceded by its length
    in unary.  The witnesses of the development run on these instances. *)

Fixpoint pos_digits (p : positive) : bytes :=
  match p with
  | xH => EmptyString
  | xO p => String "0"%char (pos_digits p)
  | xI p => String "1"%char (pos_digits p)
  end.

Fixpoint digits_pos (s : bytes) : option positive :=
  match s with
  | EmptyString => Some xH
  | String c s =>
      p ← digits_pos s;
      if bool_decide (c = "0"%char) then Some (xO p)
      else if bool_decide (c = "1"%char) then Some (xI p) else None
  end.

Lemma digits_pos_digits p : digits_pos (pos_digits p) = Some p.
Proof. induction p as [p IH|p IH|]; simpl; [by rewrite IH..|done]. Qed.

Fixpoint unary (n : nat) (s : bytes) : bytes :=
  match n with O => String "." s | S n => String "|" (unary n s) end.

Fixpoint of_unary (s : bytes) : option (nat * bytes) :=
  match s with
  | String c s =>
      if bool_decide (c = "."%char) then Some (O, s)
      else '(n, s) ← of_unary s; Some (S n, s)
  | EmptyString => None
  end.

Lemma of_unary_unary n s : of_unary (unary n s) = Some (n, s).
Proof. induction n; simpl; [done|]. by rewrite IHn. Qed.

Definition frame (a rest : bytes) : bytes := unary (String.length a) (a +:+ rest).

Definition unframe (s : bytes) : option (bytes * bytes) :=
  '(n, s) ← of_unary s; Some (str_take n s, str_drop n s).

Lemma unframe_frame a rest : unframe (frame a rest) = Some (a, rest).
Proof.
  unfold unframe, frame. rewrite of_unary_unary. simpl. by rewrite str_take_app, str_drop_app.
Qed.

Definition codec_string : Codec string :=
  {| enc := λ s, s; dec := Some; dec_enc := λ s, eq_refl |}.

Definition codec_unit : Codec () :=
  {| enc := λ _, EmptyString; dec := λ _, Some ();
     dec_enc := λ a, match a with tt => eq_refl end |}.

Definition codec_bool : Codec bool :=
  {| enc := λ b : bool, if b then "t"%string else "f"%string;
     dec := λ s, Some (bool_decide (s = "t"%string));
     dec_enc := λ b, match b with true => eq_refl | false => eq_refl end |}.

Definition codec_nat : Codec N.
Proof.
  refine {| enc n := match n with N0 => "z"%string | Npos p => pos_digits p end;
            dec s := if bool_decide (s = "z"%string) then Some 0%N else Npos <$> digits_pos s |}.
  abstract (intros [|p]; simpl; [done|]; rewrite bool_decide_false
    by (by destruct p); by rewrite digits_pos_digits).
Defined.

Definition codec_pair {A B} (CA : Codec A) (CB : Codec B) : Codec (A * B).
Proof.
  refine {| enc ab := frame (enc ab.1) (enc ab.2);
            dec s := '(x, y) ← unframe s; a ← dec x; b ← dec y; Some (a, b) |}.
  abstract (intros [a b]; simpl; rewrite unframe_frame; simpl; by rewrite !dec_enc).
Defined.

Definition codec_sum {A B} (CA : Codec A) (CB : Codec B) : Codec (A + B).
Proof.
  refine {| enc x := match x with inl a => String "l" (enc a) | inr b => String "r" (enc b) end;
            dec s := match s with
                     | String c s =>
                         if bool_decide (c = "l"%char) then inl <$> dec s else inr <$> dec s
                     | EmptyString => None
                     end |}.
  abstract (intros [a|b]; simpl; by rewrite dec_enc).
Defined.

(** A type in bijection with one that has a codec. *)
Definition codec_iso {A B} (CB : Codec B) (f : A → B) (g : B → A)
    (gf : ∀ a, g (f a) = a) : Codec A.
Proof.
  refine {| enc a := enc (f a); dec s := g <$> dec s |}.
  abstract (intros a; rewrite dec_enc; simpl; by rewrite gf).
Defined.

Definition codec_option {A} (CA : Codec A) : Codec (option A).
Proof.
  refine (codec_iso (codec_sum codec_unit CA)
    (λ o, match o with None => inl () | Some a => inr a end)
    (λ x, match x with inl _ => None | inr a => Some a end) _).
  abstract (by intros []).
Defined.

Fixpoint list_enc {A} (e : A → bytes) (l : list A) : bytes :=
  match l with [] => EmptyString | a :: l => frame (e a) (list_enc e l) end.

(** [n] bounds the number of elements left in the text. *)
Fixpoint list_dec {A} (d : bytes → option A) (n : nat) (s : bytes) : option (list A) :=
  match s, n with
  | EmptyString, _ => Some []
  | _, O => None
  | _, S n => '(x, s) ← unframe s; a ← d x; l ← list_dec d n s; Some (a :: l)
  end.

Lemma frame_length a rest : String.length rest < String.length (frame a rest).
Proof.
  unfold frame. assert (∀ n s, String.length s < String.length (unary n s)) as H.
  { intros n s. induction n; simpl; lia. }
  specialize (H (String.length a) (a +:+ rest)). rewrite str_length_app in H. lia.
Qed.

Lemma list_dec_enc {A} (e : A → bytes) d l n :
  (∀ a, d (e a) = Some a) → String.length (list_enc e l) ≤ n →
  list_dec d n (list_enc e l) = Some l.
Proof.
  intros Hd. revert n. induction l as [|a l IH]; intros n Hn; simpl; [by destruct n|].
  simpl in Hn. pose proof (frame_length (e a) (list_enc e l)).
  destruct n as [|n]; [lia|].
  assert (∃ c s, frame (e a) (list_enc e l) = String c s) as (c & s & Hf).
  { unfold frame. destruct (String.length (e a)); simpl; eauto. }
  rewrite Hf. cbn [list_dec]. rewrite <- Hf, unframe_frame. simpl. rewrite Hd. simpl.
  by rewrite IH by lia.
Qed.

Definition codec_list {A} (CA : Codec A) : Codec (list A).
Proof.
  refine {| enc l := list_enc enc l; dec s := list_dec dec (String.length s) s |}.
  abstract (intros l; apply list_dec_enc; [apply dec_enc|done]).
Defined.

Declare Scope codec_scope.
Delimit Scope codec_scope with codec.
Notation "a :: b" := (codec_pair a b) (at level 60, right associativity) : codec_scope.
Notation "a ++ b" := (codec_sum a b) (at level 60, right associativity) : codec_scope.
