(* ===== verification/Shard.v ===== *)
(** * The shard runtime (saltator-shard)

    [ApplyCtx], [ReadCtx] and [ShardApp] (saltator-shard/src/app.rs), shard
    identities (src/lib.rs), and the generic state machine that interprets
    committed log entries (src/storage.rs): batched apply, runtime commands,
    snapshots.  openraft's own types are parameters. *)

From Stdlib Require Import Ascii.
From stdpp Require Import pretty.
From S2P Require Import Prelude Bytes Store Codec.
From stdpp Require Import options.

(** ** Identities and table ids *)

Record ShardId : Type := { keyspace : Keyspace; index : N }.

#[export] Instance shard_id_eq_dec : EqDecision ShardId.
Proof. solve_decision. Defined.

Definition METADATA : ShardId := {| keyspace := Meta; index := 0 |}.

(** [keyspace << 16 | index] *)
Definition group (s : ShardId) : N :=
  N.lor (N.shiftl (keyspace_u8 (keyspace s)) 16) (index s).

Definition from_group (g : N) : option ShardId :=
  let index := N.land g 65535 in
  let ks := N.shiftr g 16 in
  (fix go l := match l with
    | [] => None
    | k :: l => if (ks =? keyspace_u8 k)%N then Some {| keyspace := k; index := index |}
                else go l
    end) [Meta; Room; User; FedOut].

Definition APP_TABLE_MIN : N := 8.
Definition T_SCHEMA : N := APP_TABLE_MIN.
Definition APP_TABLE_FIRST : N := APP_TABLE_MIN + 1.
Definition T_LOG : N := 0.
Definition T_RAFT : N := 1.
Definition T_SM_META : N := 2.

(** ** The apply context

    [ApplyCtx] holds shared references to the shard id and the engine, and
    exclusive ones to the batch, the sequence counter and the emitted
    records: an environment that apply reads and a state it threads. *)

Record ApplyEnv : Type := { shard : ShardId; ctx_engine : engine }.

Record ApplyState : Type := { wb : WriteBatch; seq : N; emits : list (N * bytes) }.

Definition ctx_key (s : ShardId) (table : N) (k : bytes) : bytes :=
  Store.key (keyspace s) (index s) table k.

(** Code that runs inside one apply; a storage error discards the batch. *)
Definition app (A : Type) : Type :=
  ApplyEnv → ApplyState → result store_error (A * ApplyState).

#[export] Instance app_ret : MRet app := λ A a env c, Ok (a, c).
#[export] Instance app_bind : MBind app := λ A B f m env c,
  match m env c with Ok (a, c') => f a env c' | Err e => Err e end.

Definition fail {A} (e : store_error) : app A := λ _ _, Err e.
Definition lift {A} (r : result store_error A) : app A :=
  λ _ c, match r with Ok a => Ok (a, c) | Err e => Err e end.

(** [for x in l { body }] with state carried through. *)
Fixpoint app_fold {A B} (f : B → A → app B) (b : B) (l : list A) : app B :=
  match l with
  | [] => mret b
  | a :: l => b' ← f b a; app_fold f b' l
  end.

Definition app_iter {A} (f : A → app ()) (l : list A) : app () :=
  app_fold (λ _ a, f a) () l.

(** [ApplyCtx::get]: staged writes of this batch first. *)
Definition ctx_get (table : N) (k : bytes) : app (option bytes) := λ env c,
  Ok (overlay (wb c) (ctx_engine env) (ctx_key (shard env) table k), c).

Definition strip (n : nat) (l : list (bytes * bytes)) : list (bytes * bytes) :=
  map (λ kv, (str_drop n kv.1, kv.2)) l.

Definition range_bounds (s : ShardId) (table : N) (start stop : bytes) : bytes * bytes :=
  (ctx_key s table start,
   match stop with
   | EmptyString => (table_bounds (keyspace s) (index s) table).2
   | _ => ctx_key s table stop
   end).

Definition range_prefix (s : ShardId) (table : N) (start : bytes) : nat :=
  String.length (ctx_key s table start) - String.length start.

(** [ApplyCtx::range]: the engine only, never the staged writes. *)
Definition ctx_range (table : N) (start stop : bytes) : app (list (bytes * bytes)) :=
  λ env c,
  let '(s, e) := range_bounds (shard env) table start stop in
  Ok (strip (range_prefix (shard env) table start) (kv_range s e (ctx_engine env)), c).

Definition with_wb (w : WriteBatch) (c : ApplyState) : ApplyState :=
  {| wb := w; seq := seq c; emits := emits c |}.

Definition ctx_put (table : N) (k v : bytes) : app () := λ env c,
  Ok ((), with_wb (wb_put (ctx_key (shard env) table k) v (wb c)) c).

Definition ctx_delete (table : N) (k : bytes) : app () := λ env c,
  Ok ((), with_wb (wb_delete (ctx_key (shard env) table k) (wb c)) c).

(** [ApplyCtx::emit] assigns the next sequence number. *)
Definition ctx_emit (payload : bytes) : app N := λ env c,
  let n := add64 (seq c) 1 in
  Ok (n, {| wb := wb c; seq := n; emits := emits c ++ [(n, payload)] |}).

(** [get_typed] *)
Definition get_typed {A} `{!Codec A} (what : string) (table : N) (k : bytes) :
    app (option A) :=
  o ← ctx_get table k;
  match o with
  | Some b => a ← lift (dec_or what b); mret (Some a)
  | None => mret None
  end.

(** ** Reads outside apply *)

Record ReadCtx : Type := { r_shard : ShardId; r_engine : engine }.

Definition read_get (r : ReadCtx) (table : N) (k : bytes) : option bytes :=
  r_engine r !! ctx_key (r_shard r) table k.

Definition read_range (r : ReadCtx) (table : N) (start stop : bytes) :
    list (bytes * bytes) :=
  let '(s, e) := range_bounds (r_shard r) table start stop in
  strip (range_prefix (r_shard r) table start) (kv_range s e (r_engine r)).

Definition read_scan (r : ReadCtx) (table : N) (start stop : bytes) (limit : N)
    (reverse : bool) : list (bytes * bytes) :=
  let '(s, e) := range_bounds (r_shard r) table start stop in
  strip (range_prefix (r_shard r) table start) (kv_scan s e limit reverse (r_engine r)).

(** ** Pluggable state machines *)

Record ShardApp : Type := {
  app_schema_version : N;
  app_apply : bytes → app bytes;
  app_migrate : N → app ();
  app_replay : ReadCtx → N → N → result store_error (list (N * bytes));
}.

(** ** Log entries and the state machine *)

(** What the runtime uses of openraft. *)
Class Raft := {
  LogId : Type;
  Membership : Type;
  StoredMembership : Type;
  stored_membership_new : option LogId → Membership → StoredMembership;
  stored_membership_default : StoredMembership;
  log_id_text : LogId → string;
}.

Inductive EntryPayload `{!Raft} : Type :=
| Blank
| Normal (cmd : bytes)
| MembershipEntry (m : Membership).

Record Entry `{!Raft} : Type := { log_id : LogId; payload : EntryPayload }.

Inductive RuntimeCommand : Type := Migrate (to : N).

Inductive RuntimeResponse : Type :=
| RuntimeOk
| RuntimeRejected (reason : string).

Definition K_LAST_APPLIED : bytes := "last_applied".
Definition K_MEMBERSHIP : bytes := "membership".
Definition K_SNAPSHOT : bytes := "snapshot".
Definition K_SNAPSHOT_SEQ : bytes := "snapshot_seq".
Definition K_SEQ : bytes := "seq".
Definition K_SCHEMA_VERSION : bytes := "version".
Definition RUNTIME_CMD_PREFIX : ascii := byte_of 255.

Section Machine.
Context `{HR : Raft}.
Context `{!Codec (option LogId), !Codec StoredMembership, !Codec N}.
Context `{!Codec RuntimeCommand, !Codec RuntimeResponse}.
Context (sid : ShardId) (A : ShardApp).

(** [stored_schema_version]: an absent cell reads as version 1. *)
Definition stored_schema_version (e : engine) : result store_error N :=
  match e !! ctx_key sid T_SCHEMA K_SCHEMA_VERSION with
  | Some b => dec_or "schema cell" b
  | None => Ok 1%N
  end.

Definition sm_meta_key (k : bytes) : bytes := ctx_key sid T_SM_META k.

Definition get_sm_meta {T} `{!Codec T} (k : bytes) (e : engine) :
    result store_error (option T) :=
  match e !! sm_meta_key k with
  | Some b => let? t := dec_or "decode" b in Ok (Some t)
  | None => Ok None
  end.

Definition last_applied (e : engine) : result store_error (option LogId) :=
  let? o := get_sm_meta (T := option LogId) K_LAST_APPLIED e in Ok (default None o).

Definition sm_seq (e : engine) : result store_error N :=
  let? o := get_sm_meta (T := N) K_SEQ e in Ok (default 0%N o).

Definition membership (e : engine) : result store_error StoredMembership :=
  let? o := get_sm_meta (T := StoredMembership) K_MEMBERSHIP e in
  Ok (default stored_membership_default o).

Definition next_snapshot_seq (e : engine) : result store_error (N * engine) :=
  let? o := get_sm_meta (T := N) K_SNAPSHOT_SEQ e in
  let n := add64 (default 0%N o) 1 in
  Ok (n, <[sm_meta_key K_SNAPSHOT_SEQ := enc n]> e).

(** [ShardStateMachine::apply_runtime] *)
Definition apply_runtime (cmd : bytes) : app bytes :=
  match dec (A := RuntimeCommand) cmd with
  | None => mret (enc (RuntimeRejected "undecodable"))
  | Some (Migrate to) =>
      o ← ctx_get T_SCHEMA K_SCHEMA_VERSION;
      current ← match o with
                | Some b => lift (dec_or "schema cell" b)
                | None => mret 1%N
                end;
      if negb (to =? add32 current 1)%N then
        mret (enc (RuntimeRejected
          ("migration step must be v" +:+ pretty current +:+ " -> v"
           +:+ pretty (add32 current 1) +:+ ", requested v" +:+ pretty to)))
      else if (app_schema_version A <? to)%N then
        mret (enc (RuntimeRejected
          ("this binary only knows schema v" +:+ pretty (app_schema_version A))))
      else
        app_migrate A to;;
        ctx_put T_SCHEMA K_SCHEMA_VERSION (enc to);;
        mret (enc RuntimeOk)
  end.

(** One committed entry, inside the batch being built. *)
Definition apply_entry (e : Entry) : app bytes :=
  match payload e with
  | Blank => mret EmptyString
  | Normal cmd =>
      match cmd with
      | String c rest =>
          if bool_decide (c = RUNTIME_CMD_PREFIX) then apply_runtime rest
          else app_apply A cmd
      | EmptyString => app_apply A cmd
      end
  | MembershipEntry m =>
      λ env c, Ok (EmptyString,
        with_wb (wb_put (sm_meta_key K_MEMBERSHIP)
                   (enc (stored_membership_new (Some (log_id e)) m)) (wb c)) c)
  end.

Definition apply_entries (l : list Entry) : app (list bytes) :=
  app_fold (λ rs e, r ← apply_entry e; mret (rs ++ [r])) [] l.

Definition apply_env (e : engine) : ApplyEnv := {| shard := sid; ctx_engine := e |}.
Definition apply_init (n : N) : ApplyState := {| wb := []; seq := n; emits := [] |}.

(** The bookkeeping [apply] appends to the batch once every entry is in. *)
Definition finish_batch (l : list Entry) (seq0 : N) (c : ApplyState) : WriteBatch :=
  let w := match list.last l with
           | Some e => wb_put (sm_meta_key K_LAST_APPLIED) (enc (Some (log_id e))) (wb c)
           | None => wb c
           end in
  if (seq c =? seq0)%N then w else wb_put (sm_meta_key K_SEQ) (enc (seq c)) w.

(** [RaftStateMachine::apply]: every entry of the call in ONE batch, the
    change records published after it is written.  An error writes
    nothing. *)
Definition sm_apply (l : list Entry) (e : engine) :
    result store_error (engine * list bytes * list (N * bytes)) :=
  let? seq0 := sm_seq e in
  let? (rs, c) := apply_entries l (apply_env e) (apply_init seq0) in
  Ok (write_batch (finish_batch l seq0 c) e, rs, emits c).

(** ** Snapshots *)

Definition app_bounds : bytes * bytes :=
  (ctx_key sid APP_TABLE_MIN EmptyString, (shard_bounds (keyspace sid) (index sid)).2).

Record SnapshotContent : Type := {
  sc_last_applied : option LogId;
  sc_membership : StoredMembership;
  sc_seq : N;
  sc_kv : list (bytes * bytes);
}.

Record SnapshotMeta : Type := {
  last_log_id : option LogId;
  last_membership : StoredMembership;
  snapshot_id : string;
}.

Record StoredSnapshot : Type := { ss_meta : SnapshotMeta; ss_data : bytes }.

Context `{!Codec SnapshotContent, !Codec StoredSnapshot}.

(** [build_snapshot]: keys are stored as [table ++ app key] (the three
    bytes of keyspace and shard stripped). *)
Definition build_snapshot (e : engine) :
    result store_error (SnapshotMeta * bytes * engine) :=
  let? la := last_applied e in
  let? ms := membership e in
  let? n := sm_seq e in
  let kv := strip 3 (kv_range app_bounds.1 app_bounds.2 e) in
  let data := enc {| sc_last_applied := la; sc_membership := ms; sc_seq := n; sc_kv := kv |} in
  let? (snap_seq, e') := next_snapshot_seq e in
  let id := match la with
            | Some l => log_id_text l +:+ "-" +:+ pretty snap_seq
            | None => "none-" +:+ pretty snap_seq
            end in
  let meta := {| last_log_id := la; last_membership := ms; snapshot_id := id |} in
  Ok (meta, data,
        <[sm_meta_key K_SNAPSHOT := enc {| ss_meta := meta; ss_data := data |}]> e').

Definition storage_prefix : bytes := str_take 3 (ctx_key sid 0 EmptyString).

(** The write batch of [install_snapshot]. *)
Definition install_batch (meta : SnapshotMeta) (data : bytes) (content : SnapshotContent) :
    WriteBatch :=
  [DeleteRange app_bounds.1 app_bounds.2]
  ++ map (λ kv, Put (storage_prefix +:+ kv.1) kv.2) (sc_kv content)
  ++ [Put (sm_meta_key K_SEQ) (enc (sc_seq content));
      Put (sm_meta_key K_LAST_APPLIED) (enc (last_log_id meta));
      Put (sm_meta_key K_MEMBERSHIP) (enc (last_membership meta));
      Put (sm_meta_key K_SNAPSHOT) (enc {| ss_meta := meta; ss_data := data |})].

Definition install_snapshot (meta : SnapshotMeta) (data : bytes) (e : engine) :
    result store_error engine :=
  let? content := dec_or (A := SnapshotContent) "decode" data in
  Ok (write_batch (install_batch meta data content) e).

(** [get_current_snapshot] *)
Definition get_current_snapshot (e : engine) :
    result store_error (option (SnapshotMeta * bytes)) :=
  let? o := get_sm_meta (T := StoredSnapshot) K_SNAPSHOT e in
  Ok ((λ s, (ss_meta s, ss_data s)) <$> o).

End Machine.
(** What Raft makes of a call to a group: it succeeds, it is refused, or its
    effect is committed while the caller sees an error (a timeout, a lost
    leadership). *)
Inductive raft_outcome : Type := Done | Refused | Unknown.
