(* ===== verification/ShardFacts.v ===== *)
(** * Table scans

    What [range] and [scan] over one table of a shard return: exactly the
    table's rows inside the bounds, in key order, each once. *)

From Stdlib Require Import Ascii.
From S2P Require Import Prelude Bytes Store Codec Shard.
From stdpp Require Import options.

(** Anything between two strings with a common prefix has that prefix. *)
Lemma between_common_prefix p s e k :
  between (p +:+ s) (p +:+ e) k = true → ∃ k', k = p +:+ k'.
Proof.
  unfold between. rewrite andb_true_iff, sleb_iff, sltb_iff.
  revert k. induction p as [|a p IH]; intros k [H1 H2]; [by exists k|].
  destruct k as [|b k]; [done|]. simpl in H1, H2.
  destruct (Ascii.compare a b) eqn:Hab.
  - apply ascii_compare_eq in Hab as ->.
    rewrite ascii_compare_refl in H2. destruct (IH k) as [k' ->]; [done|]. by exists k'.
  - rewrite Ascii.compare_antisym in H2. rewrite Hab in H2. done.
  - done.
Qed.

Lemma ctx_key_prefix sid t k : ctx_key sid t k = ctx_key sid t EmptyString +:+ k.
Proof. done. Qed.

Lemma range_prefix_4 sid t start : range_prefix sid t start = 4.
Proof.
  unfold range_prefix. rewrite ctx_key_prefix, str_length_app.
  change (String.length (ctx_key sid t EmptyString)) with 4. lia.
Qed.

Lemma strip_ctx_key sid t k : str_drop 4 (ctx_key sid t k) = k.
Proof. done. Qed.

(** [stop] empty means the end of the table. *)
Definition below (stop k : bytes) : bool :=
  match stop with EmptyString => true | _ => String.ltb k stop end.

Lemma range_bounds_spec sid t start stop k :
  (t < 255)%N →
  between (range_bounds sid t start stop).1 (range_bounds sid t start stop).2 k = true ↔
  ∃ k', k = ctx_key sid t k' ∧ String.leb start k' = true ∧ below stop k' = true.
Proof.
  intros Ht. destruct stop as [|c stop]; unfold range_bounds; cbn [fst snd below].
  - pose proof (table_bounds_prefix (keyspace sid) (index sid) t k Ht) as Htb.
    unfold between in *. rewrite andb_true_iff in *. split.
    + intros [H1 H2]. destruct (proj1 Htb) as [k' ->].
      { split; [|done]. eapply sleb_trans; [|done]. unfold table_bounds; cbn [fst].
        change (String.leb (ctx_key sid t EmptyString) (ctx_key sid t start) = true).
        rewrite (ctx_key_prefix sid t start), <- (str_app_nil_r (ctx_key sid t EmptyString)) at 1.
        rewrite sleb_app. by destruct start. }
      exists k'. split_and!; [done| |done].
      rewrite (ctx_key_prefix sid t start) in H1. by rewrite <- (sleb_app (ctx_key sid t EmptyString)).
    + intros (k' & -> & H1 & _). split; [|by apply Htb; exists k'].
      rewrite (ctx_key_prefix sid t start), (ctx_key_prefix sid t k'). by rewrite sleb_app.
  - rewrite (ctx_key_prefix sid t start), (ctx_key_prefix sid t (String c stop)). split.
    + intros Hb. destruct (between_common_prefix _ _ _ _ Hb) as [k' ->].
      rewrite between_app in Hb. unfold between in Hb. apply andb_true_iff in Hb.
      by exists k'.
    + intros (k' & -> & H1 & H2). rewrite (ctx_key_prefix sid t k'), between_app.
      unfold between. by rewrite H1, H2.
Qed.

(** The rows of a range. *)
Definition rows (sid : ShardId) (t : N) (start stop : bytes) (e : engine) :
    list (bytes * bytes) :=
  strip (range_prefix sid t start)
    (kv_range (range_bounds sid t start stop).1 (range_bounds sid t start stop).2 e).

Lemma elem_of_rows sid t start stop e k v :
  (t < 255)%N →
  (k, v) ∈ rows sid t start stop e ↔
  e !! ctx_key sid t k = Some v ∧ String.leb start k = true ∧ below stop k = true.
Proof.
  intros Ht. unfold rows. rewrite range_prefix_4. unfold strip. rewrite list_elem_of_fmap.
  split.
  - intros ([k0 v0] & Hkv & [Hk Hb]%elem_of_kv_range).
    apply range_bounds_spec in Hb as (k' & -> & H1 & H2); [|done].
    cbn [fst snd] in Hkv. rewrite strip_ctx_key in Hkv. by injection Hkv as -> ->.
  - intros (Hk & H1 & H2). exists (ctx_key sid t k, v). split; [done|].
    apply elem_of_kv_range. split; [done|]. apply range_bounds_spec; [done|]. by exists k.
Qed.

Lemma strip_keys sid t start stop e kv :
  (t < 255)%N →
  kv ∈ kv_range (range_bounds sid t start stop).1 (range_bounds sid t start stop).2 e →
  kv.1 = ctx_key sid t (str_drop 4 kv.1).
Proof.
  destruct kv as [k v]. intros Ht [Hk Hb]%elem_of_kv_range.
  apply range_bounds_spec in Hb as (k' & -> & _); [|done]. done.
Qed.

Lemma rows_sorted sid t start stop e :
  (t < 255)%N → StronglySorted kv_le (rows sid t start stop e).
Proof.
  intros Ht. unfold rows. rewrite range_prefix_4. unfold strip.
  pose proof (λ kv, strip_keys sid t start stop e kv Ht) as Hk. revert Hk.
  pose proof (kv_range_sorted (range_bounds sid t start stop).1
    (range_bounds sid t start stop).2 e) as Hs. revert Hs.
  induction 1 as [|kv l Hs IH Hf]; intros Hk; simpl; [constructor|]. constructor.
  - apply IH. intros. apply Hk. by right.
  - apply Forall_fmap, list.Forall_forall. intros kv' Hin. unfold kv_le; cbn [fst snd].
    rewrite list.Forall_forall in Hf. specialize (Hf kv' Hin). unfold kv_le in Hf.
    change (String.le (str_drop 4 kv.1) (str_drop 4 kv'.1)).
    rewrite (Hk kv), (Hk kv') in Hf by first [by left|by right].
    apply sleb_le. apply sleb_le in Hf.
    rewrite (ctx_key_prefix sid t (str_drop 4 kv.1)), (ctx_key_prefix sid t (str_drop 4 kv'.1)) in Hf.
    by rewrite sleb_app in Hf.
Qed.

Lemma rows_NoDup_keys sid t start stop e : (t < 255)%N → NoDup (rows sid t start stop e).*1.
Proof.
  intros Ht. unfold rows. rewrite range_prefix_4. unfold strip.
  rewrite <- list_fmap_compose.
  pose proof (λ kv, strip_keys sid t start stop e kv Ht) as Hk. revert Hk.
  pose proof (kv_range_NoDup_keys (range_bounds sid t start stop).1
    (range_bounds sid t start stop).2 e) as Hs. revert Hs.
  induction (kv_range _ _ e) as [|kv l IH]; intros Hs Hk; simpl; [constructor|].
  apply list.NoDup_cons in Hs as [Hni Hs]. constructor.
  - intros (kv' & He & Hin)%list_elem_of_fmap. apply Hni.
    apply list_elem_of_fmap. exists kv'. split; [|done].
    rewrite (Hk kv), (Hk kv') by first [by left|by right]. f_equal. exact He.
  - apply IH; [done|]. intros. apply Hk. by right.
Qed.

(** A list is the range's rows as soon as it is sorted and has the right
    elements. *)
Lemma rows_unique sid t start stop e l :
  (t < 255)%N → StronglySorted kv_le l → NoDup l →
  (∀ k v, (k, v) ∈ l ↔
    e !! ctx_key sid t k = Some v ∧ String.leb start k = true ∧ below stop k = true) →
  rows sid t start stop e = l.
Proof.
  intros Ht Hs Hnd Hl. apply (StronglySorted_unique_strong kv_le).
  - intros [k1 v1] [k2 v2] H1 H2 Hle Hle'. apply elem_of_rows in H1; [|done].
    apply Hl in H2. unfold kv_le in *; simpl in *.
    assert (k1 = k2) as -> by (by apply (anti_symm String.le)).
    destruct H1 as [H1 _], H2 as [H2 _]. congruence.
  - by apply rows_sorted.
  - done.
  - apply NoDup_Permutation; [|done|].
    + by apply (NoDup_fmap_1 fst), rows_NoDup_keys.
    + intros [k v]. by rewrite elem_of_rows, Hl.
Qed.

Lemma read_range_rows sid e t start stop :
  read_range {| r_shard := sid; r_engine := e |} t start stop = rows sid t start stop e.
Proof. unfold read_range, rows; simpl. by destruct (range_bounds sid t start stop). Qed.

Lemma read_scan_rows sid e t start stop limit reverse :
  read_scan {| r_shard := sid; r_engine := e |} t start stop limit reverse =
    take (N.to_nat limit)
      (if reverse then rev (rows sid t start stop e) else rows sid t start stop e).
Proof.
  unfold read_scan, rows; simpl. destruct (range_bounds sid t start stop) as [s e'].
  unfold kv_scan, strip; simpl. rewrite <- firstn_map.
  destruct reverse; [|done]. by rewrite map_rev.
Qed.

(** * Reasoning about applies

    The view of an apply (batch over engine), weakest preconditions for
    [app] computations, and the coherence of computations that read through
    [get] alone: for those it does not matter how committed entries are
    grouped into batches. *)

(** ** The view of an apply *)

Definition view (env : ApplyEnv) (c : ApplyState) (k : bytes) : option bytes :=
  overlay (wb c) (ctx_engine env) k.

(** A table cell as [ctx_get] sees it. *)
Definition tget (env : ApplyEnv) (c : ApplyState) (table : N) (k : bytes) : option bytes :=
  view env c (ctx_key (shard env) table k).

Lemma view_put env c k v k' :
  view env (with_wb (wb_put k v (wb c)) c) k' =
    if decide (k = k') then Some v else view env c k'.
Proof.
  unfold view, overlay, with_wb, wb_put; simpl. rewrite staged_snoc; simpl.
  case_bool_decide; case_decide; done || congruence.
Qed.

Lemma view_delete env c k k' :
  view env (with_wb (wb_delete k (wb c)) c) k' =
    if decide (k = k') then None else view env c k'.
Proof.
  unfold view, overlay, with_wb, wb_delete; simpl. rewrite staged_snoc; simpl.
  case_bool_decide; case_decide; done || congruence.
Qed.

Lemma ctx_key_inj sid t k t' k' :
  (t < 256)%N → (t' < 256)%N → ctx_key sid t k = ctx_key sid t' k' → t = t' ∧ k = k'.
Proof. apply key_inj_same. Qed.

Lemma tget_put env c t k v t' k' :
  (t < 256)%N → (t' < 256)%N →
  tget env (with_wb (wb_put (ctx_key (shard env) t k) v (wb c)) c) t' k' =
    if decide (t = t' ∧ k = k') then Some v else tget env c t' k'.
Proof.
  intros Ht Ht'. unfold tget. rewrite view_put.
  destruct (decide (t = t' ∧ k = k')) as [[-> ->]|Hne]; [by rewrite decide_True|].
  rewrite decide_False; [done|]. intros Hk%ctx_key_inj; [|done..]. by apply Hne.
Qed.

Lemma tget_delete env c t k t' k' :
  (t < 256)%N → (t' < 256)%N →
  tget env (with_wb (wb_delete (ctx_key (shard env) t k) (wb c)) c) t' k' =
    if decide (t = t' ∧ k = k') then None else tget env c t' k'.
Proof.
  intros Ht Ht'. unfold tget. rewrite view_delete.
  destruct (decide (t = t' ∧ k = k')) as [[-> ->]|Hne]; [by rewrite decide_True|].
  rewrite decide_False; [done|]. intros Hk%ctx_key_inj; [|done..]. by apply Hne.
Qed.

Lemma tget_put_other env c t k v t' k' :
  (t < 256)%N → (t' < 256)%N → t ≠ t' →
  tget env (with_wb (wb_put (ctx_key (shard env) t k) v (wb c)) c) t' k' = tget env c t' k'.
Proof. intros. rewrite tget_put by done. rewrite decide_False; [done|by intros []]. Qed.

Lemma tget_delete_other env c t k t' k' :
  (t < 256)%N → (t' < 256)%N → t ≠ t' →
  tget env (with_wb (wb_delete (ctx_key (shard env) t k) (wb c)) c) t' k' = tget env c t' k'.
Proof. intros. rewrite tget_delete by done. rewrite decide_False; [done|by intros []]. Qed.

(** ** Weakest preconditions

    [wp m env Q c]: if [m] returns, its result and final state satisfy [Q].
    An error aborts the whole batch, so nothing has to hold then. *)

Definition wp {A} (m : app A) (env : ApplyEnv) (Q : A → ApplyState → Prop)
    (c : ApplyState) : Prop :=
  match m env c with Ok (a, c') => Q a c' | Err _ => True end.

Lemma wp_ret {A} (a : A) env Q c : Q a c → wp (mret a) env Q c.
Proof. done. Qed.

Lemma wp_bind {A B} (m : app A) (f : A → app B) env Q c :
  wp m env (λ a c', wp (f a) env Q c') c → wp (m ≫= f) env Q c.
Proof.
  unfold wp, mbind, app_bind. by destruct (m env c) as [[a c']|e].
Qed.

Lemma wp_mono {A} (m : app A) env (Q Q' : A → ApplyState → Prop) c :
  (∀ a c', Q a c' → Q' a c') → wp m env Q c → wp m env Q' c.
Proof. unfold wp. intros H. destruct (m env c) as [[a c']|e]; auto. Qed.

Lemma wp_fold {A B} (f : B → A → app B) env (I : B → ApplyState → Prop) l :
  (∀ b a c, a ∈ l → I b c → wp (f b a) env I c) →
  ∀ b c, I b c → wp (app_fold f b l) env I c.
Proof.
  induction l as [|a l IH]; intros Hf b c Hb; [by apply wp_ret|]. simpl.
  apply wp_bind. eapply wp_mono; [|apply Hf; [left|done]].
  intros b' c' Hb'. apply IH; [|done]. intros. apply Hf; [by right|done].
Qed.

Lemma wp_fold_rest {A B} (f : B → A → app B) env (I : list A → B → ApplyState → Prop) l :
  (∀ b a l' c, I (a :: l') b c → wp (f b a) env (I l') c) →
  ∀ b c, I l b c → wp (app_fold f b l) env (I []) c.
Proof.
  intros Hf. induction l as [|a l IH]; intros b c Hb; [by apply wp_ret|]. simpl.
  apply wp_bind. eapply wp_mono; [|by apply Hf]. intros b' c' Hb'. by apply IH.
Qed.

Lemma wp_get t k env Q c :
  Q (tget env c t k) c → wp (ctx_get t k) env Q c.
Proof. done. Qed.

Lemma wp_lift {A} (r : result store_error A) env Q c :
  (∀ a, r = Ok a → Q a c) → wp (lift r) env Q c.
Proof. unfold wp, lift. destruct r; auto. Qed.

Lemma wp_fail {A} e env (Q : A → ApplyState → Prop) c : wp (fail e) env Q c.
Proof. done. Qed.

Lemma wp_put t k v env (Q : () → ApplyState → Prop) c :
  Q () (with_wb (wb_put (ctx_key (shard env) t k) v (wb c)) c) → wp (ctx_put t k v) env Q c.
Proof. done. Qed.

Lemma wp_emit p env Q c :
  Q (add64 (seq c) 1)
    {| wb := wb c; seq := add64 (seq c) 1; emits := emits c ++ [(add64 (seq c) 1, p)] |} →
  wp (ctx_emit p) env Q c.
Proof. done. Qed.

(** What [get_typed] returned, in terms of the stored bytes. *)
Lemma wp_get_typed {A} `{!Codec A} what t k env Q c :
  (∀ o : option A, (tget env c t k ≫= dec) = o → is_Some o ∨ tget env c t k = None → Q o c) →
  wp (get_typed what t k) env Q c.
Proof.
  intros H. unfold get_typed. apply wp_bind, wp_get.
  destruct (tget env c t k) as [b|] eqn:Hb.
  - apply wp_bind, wp_lift. intros a Ha. apply wp_ret, H; simpl; [|by left].
    unfold dec_or in Ha. by destruct (dec b); simplify_eq/=.
  - apply wp_ret, H; [done|by right].
Qed.

(** One step of a straight-line computation, partial and total. *)
Ltac wp_step :=
  lazymatch goal with
  | |- wp (_ ≫= _) _ _ _ => apply wp_bind
  | |- wp (mret _) _ _ _ => apply wp_ret
  | |- wp (ctx_emit _) _ _ _ => apply wp_emit
  | |- wp (ctx_put _ _ _) _ _ _ => apply wp_put
  | |- wp (ctx_get _ _) _ _ _ => apply wp_get
  | |- wp (fail _) _ _ _ => apply wp_fail
  end; cbv beta.

(** ** Total correctness

    [runs m env Q c]: [m] returns, and its result and state satisfy [Q]. *)

Definition runs {A} (m : app A) (env : ApplyEnv) (Q : A → ApplyState → Prop)
    (c : ApplyState) : Prop :=
  ∃ a c', m env c = Ok (a, c') ∧ Q a c'.

Lemma runs_ret {A} (a : A) env (Q : A → ApplyState → Prop) c : Q a c → runs (mret a) env Q c.
Proof. intros HQ. by exists a, c. Qed.

Lemma runs_bind {A B} (m : app A) (f : A → app B) env Q c :
  runs m env (λ a c', runs (f a) env Q c') c → runs (m ≫= f) env Q c.
Proof.
  intros (a & c1 & Hm & b & c2 & Hf & HQ). exists b, c2. split; [|done].
  unfold mbind, app_bind. by rewrite Hm.
Qed.

Lemma runs_mono {A} (m : app A) env (Q Q' : A → ApplyState → Prop) c :
  (∀ a c', Q a c' → Q' a c') → runs m env Q c → runs m env Q' c.
Proof. intros HQ (a & c' & Hm & Ha). exists a, c'. auto. Qed.

Lemma runs_get t k env (Q : option bytes → ApplyState → Prop) c :
  Q (tget env c t k) c → runs (ctx_get t k) env Q c.
Proof. intros HQ. by eexists _, _. Qed.

Lemma runs_put t k v env (Q : () → ApplyState → Prop) c :
  Q () (with_wb (wb_put (ctx_key (shard env) t k) v (wb c)) c) → runs (ctx_put t k v) env Q c.
Proof. intros HQ. by eexists _, _. Qed.

Lemma runs_delete t k env (Q : () → ApplyState → Prop) c :
  Q () (with_wb (wb_delete (ctx_key (shard env) t k) (wb c)) c) →
  runs (ctx_delete t k) env Q c.
Proof. intros HQ. by eexists _, _. Qed.

Lemma runs_emit p env (Q : N → ApplyState → Prop) c :
  Q (add64 (seq c) 1)
    {| wb := wb c; seq := add64 (seq c) 1; emits := emits c ++ [(add64 (seq c) 1, p)] |} →
  runs (ctx_emit p) env Q c.
Proof. intros HQ. by eexists _, _. Qed.

Lemma runs_get_typed {A} `{!Codec A} what t k env (Q : option A → ApplyState → Prop) c :
  (∀ b, tget env c t k = Some b → is_Some (dec (A := A) b)) →
  Q (tget env c t k ≫= dec) c → runs (get_typed what t k) env Q c.
Proof.
  intros Hd HQ. unfold get_typed. apply runs_bind, runs_get.
  destruct (tget env c t k) as [b|]; [|by apply runs_ret].
  destruct (Hd b eq_refl) as [a Ha]. simpl in HQ. rewrite Ha in HQ. simpl in HQ.
  apply runs_bind. exists a, c. split; [|by apply runs_ret].
  unfold lift, dec_or. by rewrite Ha.
Qed.

Lemma runs_fold {A B} (f : B → A → app B) env (I : list A → B → ApplyState → Prop) l :
  (∀ b a l' c, I (a :: l') b c → runs (f b a) env (I l') c) →
  ∀ b c, I l b c → runs (app_fold f b l) env (I []) c.
Proof.
  intros Hf. induction l as [|a l IH]; intros b c Hb; [by apply runs_ret|]. simpl.
  apply runs_bind. eapply runs_mono; [|by apply Hf]. intros b' c' Hb'. by apply IH.
Qed.

Lemma runs_wp {A} (m : app A) env Q c : runs m env Q c → wp m env Q c.
Proof. intros (a & c' & Hm & HQ). unfold wp. by rewrite Hm. Qed.

Ltac run_step :=
  lazymatch goal with
  | |- runs (_ ≫= _) _ _ _ => apply runs_bind
  | |- runs (mret _) _ _ _ => apply runs_ret
  | |- runs (ctx_emit _) _ _ _ => apply runs_emit
  | |- runs (ctx_put _ _ _) _ _ _ => apply runs_put
  | |- runs (ctx_delete _ _) _ _ _ => apply runs_delete
  | |- runs (ctx_get _ _) _ _ _ => apply runs_get
  end; cbv beta.

(** ** Frames: what a computation leaves alone *)

Record frame (keeps_cell : N → bytes → Prop) (env : ApplyEnv) (c c' : ApplyState) : Prop := {
  fr_seq : seq c' = seq c;
  fr_emits : emits c' = emits c;
  fr_cells : ∀ t k, (t < 256)%N → keeps_cell t k → tget env c' t k = tget env c t k;
}.

Lemma frame_refl P env c : frame P env c c.
Proof. by split. Qed.

Lemma frame_trans P env c1 c2 c3 : frame P env c1 c2 → frame P env c2 c3 → frame P env c1 c3.
Proof.
  intros [S1 E1 C1] [S2 E2 C2]. split; [congruence..|].
  intros t k Ht Hk. by rewrite C2, C1.
Qed.

Lemma frame_put (P : N → bytes → Prop) env c t k v :
  (t < 256)%N → ¬ P t k →
  frame P env c (with_wb (wb_put (ctx_key (shard env) t k) v (wb c)) c).
Proof.
  intros Ht HP. split; [done..|]. intros t' k' Ht' Hk'. rewrite tget_put by done.
  rewrite decide_False; [done|]. by intros [-> ->].
Qed.

Lemma frame_delete (P : N → bytes → Prop) env c t k :
  (t < 256)%N → ¬ P t k →
  frame P env c (with_wb (wb_delete (ctx_key (shard env) t k) (wb c)) c).
Proof.
  intros Ht HP. split; [done..|]. intros t' k' Ht' Hk'. rewrite tget_delete by done.
  rewrite decide_False; [done|]. by intros [-> ->].
Qed.

Lemma frame_mono (P Q : N → bytes → Prop) env c c' :
  (∀ t k, Q t k → P t k) → frame P env c c' → frame Q env c c'.
Proof. intros HPQ [S E C]. split; [done..|]. intros. apply C; auto. Qed.

(** ** Invariants of a computation *)

Definition keeps {A} (I : ApplyEnv → ApplyState → Prop) (m : app A) : Prop :=
  ∀ env c, I env c → wp m env (λ _ c', I env c') c.

Section Keeps.
Context (I : ApplyEnv → ApplyState → Prop).

Lemma keeps_ret {A} (a : A) : keeps I (mret a).
Proof. by intros env c H. Qed.

Lemma keeps_fail {A} e : keeps I (fail (A := A) e).
Proof. by intros env c H. Qed.

Lemma keeps_lift {A} (r : result store_error A) : keeps I (lift r).
Proof. intros env c H. by apply wp_lift. Qed.

Lemma keeps_get t k : keeps I (ctx_get t k).
Proof. by intros env c H. Qed.

Lemma keeps_range t s e : keeps I (ctx_range t s e).
Proof. by intros env c H. Qed.

Lemma keeps_get_typed {A} `{!Codec A} what t k : keeps I (get_typed (A := A) what t k).
Proof. intros env c H. by apply wp_get_typed. Qed.

Lemma keeps_bind {A B} (m : app A) (f : A → app B) :
  keeps I m → (∀ a, keeps I (f a)) → keeps I (m ≫= f).
Proof.
  intros Hm Hf env c H. apply wp_bind. eapply wp_mono; [|by apply Hm].
  intros a c' H'. by apply Hf.
Qed.

Lemma keeps_fold {A B} (f : B → A → app B) l b :
  (∀ b a, keeps I (f b a)) → keeps I (app_fold f b l).
Proof.
  intros Hf env c H. apply (wp_fold _ _ (λ _ c, I env c)); [|done].
  intros b' a c' _ H'. by apply Hf.
Qed.

Lemma keeps_iter {A} (f : A → app ()) l : (∀ a, keeps I (f a)) → keeps I (app_iter f l).
Proof. intros Hf. by apply keeps_fold. Qed.
End Keeps.

Lemma keeps_and {A} (I1 I2 : ApplyEnv → ApplyState → Prop) (m : app A) :
  keeps I1 m → keeps I2 m → keeps (λ env c, I1 env c ∧ I2 env c) m.
Proof.
  intros Hm1 Hm2 env c [H1 H2]. specialize (Hm1 env c H1). specialize (Hm2 env c H2).
  unfold wp in *. by destruct (m env c) as [[a c']|].
Qed.

Create HintDb keeps.
#[export] Hint Resolve keeps_ret keeps_fail keeps_lift keeps_get keeps_range
  keeps_get_typed : keeps.

(** Follows the shape of a computation; the invariant's own lemmas come from
    the [keeps] database. *)
Ltac solve_keeps :=
  repeat first
    [ progress intros
    | solve [auto 3 with keeps nocore]
    | apply keeps_bind
    | apply keeps_iter
    | apply keeps_fold
    | match goal with
      | |- keeps _ (match ?x with _ => _ end) => destruct x
      | |- keeps _ (let '_ := ?x in _) => destruct x
      end ].

(** ** Sequences of applied entries *)

Lemma app_fold_app {A B} (f : B → A → app B) l1 l2 b env c :
  app_fold f b (l1 ++ l2) env c =
    match app_fold f b l1 env c with
    | Ok (b', c') => app_fold f b' l2 env c'
    | Err e => Err e
    end.
Proof.
  revert b c. induction l1 as [|a l1 IH]; intros b c; [done|]. simpl.
  unfold mbind, app_bind. destruct (f b a env c) as [[b' c']|e]; [apply IH|done].
Qed.

(** ** Coherence

    The cells the runtime writes after the entries of a batch; no app
    command can name them (their table is below [APP_TABLE_MIN]). *)
Definition runtime_cell (sid : ShardId) (k : bytes) : Prop :=
  k = ctx_key sid T_SM_META K_LAST_APPLIED ∨ k = ctx_key sid T_SM_META K_SEQ.

(** Two points of an apply that a computation reading through [get] cannot
    tell apart: same shard, same sequence counter, the same view outside the
    runtime's cells; the first one has emitted [pre] before. *)
Record ctx_rel (pre : list (N * bytes)) (env1 : ApplyEnv) (c1 : ApplyState)
    (env2 : ApplyEnv) (c2 : ApplyState) : Prop := {
  cr_shard : shard env1 = shard env2;
  cr_seq : seq c1 = seq c2;
  cr_emits : emits c1 = pre ++ emits c2;
  cr_view : ∀ k, ¬ runtime_cell (shard env1) k → view env1 c1 k = view env2 c2 k;
  cr_cells : ∀ k, runtime_cell (shard env1) k →
    staged k (wb c1) = None ∧ staged k (wb c2) = None;
}.

Definition coherent {A} (m : app A) : Prop :=
  ∀ pre env1 c1 env2 c2, ctx_rel pre env1 c1 env2 c2 →
    match m env1 c1, m env2 c2 with
    | Ok (a1, c1'), Ok (a2, c2') => a1 = a2 ∧ ctx_rel pre env1 c1' env2 c2'
    | Err e1, Err e2 => e1 = e2
    | _, _ => False
    end.

Create HintDb coherent.

Lemma coherent_ret {A} (a : A) : coherent (mret a).
Proof. intros pre ???? H. by split. Qed.

Lemma coherent_fail {A} e : coherent (fail (A := A) e).
Proof. intros pre ???? H. done. Qed.

Lemma coherent_lift {A} (r : result store_error A) : coherent (lift r).
Proof. intros pre ???? H. unfold lift. by destruct r. Qed.

Lemma coherent_bind {A B} (m : app A) (f : A → app B) :
  coherent m → (∀ a, coherent (f a)) → coherent (m ≫= f).
Proof.
  intros Hm Hf pre env1 c1 env2 c2 H. unfold mbind, app_bind.
  specialize (Hm pre env1 c1 env2 c2 H).
  destruct (m env1 c1) as [[a1 c1']|], (m env2 c2) as [[a2 c2']|]; try done.
  destruct Hm as [-> Hr]. by apply Hf.
Qed.

Lemma coherent_fold {A B} (f : B → A → app B) l :
  (∀ b a, coherent (f b a)) → ∀ b, coherent (app_fold f b l).
Proof.
  intros Hf. induction l as [|a l IH]; intros b; [apply coherent_ret|].
  apply coherent_bind; auto.
Qed.

Lemma coherent_iter {A} (f : A → app ()) l : (∀ a, coherent (f a)) → coherent (app_iter f l).
Proof. intros Hf. by apply coherent_fold. Qed.

Lemma runtime_cell_app sid t k : (8 ≤ t < 256)%N → ¬ runtime_cell sid (ctx_key sid t k).
Proof.
  intros Ht [Hk|Hk]; apply ctx_key_inj in Hk as [-> _]; unfold T_SM_META in *; lia.
Qed.

Lemma coherent_get t k : (8 ≤ t < 256)%N → coherent (ctx_get t k).
Proof.
  intros Ht pre env1 c1 env2 c2 H. destruct H as [Hs Hq He Hv Hc] eqn:Hr. simpl.
  split; [|done]. change (view env1 c1 (ctx_key (shard env1) t k) =
    view env2 c2 (ctx_key (shard env2) t k)).
  rewrite <- Hs. by apply Hv, runtime_cell_app.
Qed.

(** Writing any cell the runtime does not own keeps the relation. *)
Lemma ctx_rel_put pre env1 c1 env2 c2 k v :
  ¬ runtime_cell (shard env1) k → ctx_rel pre env1 c1 env2 c2 →
  ctx_rel pre env1 (with_wb (wb_put k v (wb c1)) c1) env2 (with_wb (wb_put k v (wb c2)) c2).
Proof.
  intros Hk [Hs Hq He Hv Hc]. split; simpl; [done..| |].
  - intros k' Hk'. rewrite !view_put. case_decide; [done|]. by apply Hv.
  - intros k' Hk'. unfold wb_put. rewrite !staged_snoc. simpl.
    case_bool_decide; [congruence|]. by apply Hc.
Qed.

Lemma ctx_rel_delete pre env1 c1 env2 c2 k :
  ¬ runtime_cell (shard env1) k → ctx_rel pre env1 c1 env2 c2 →
  ctx_rel pre env1 (with_wb (wb_delete k (wb c1)) c1) env2 (with_wb (wb_delete k (wb c2)) c2).
Proof.
  intros Hk [Hs Hq He Hv Hc]. split; simpl; [done..| |].
  - intros k' Hk'. rewrite !view_delete. case_decide; [done|]. by apply Hv.
  - intros k' Hk'. unfold wb_delete. rewrite !staged_snoc. simpl.
    case_bool_decide; [congruence|]. by apply Hc.
Qed.

Lemma coherent_put t k v : (8 ≤ t < 256)%N → coherent (ctx_put t k v).
Proof.
  intros Ht pre env1 c1 env2 c2 H. simpl. split; [done|].
  rewrite <- (cr_shard _ _ _ _ _ H). by apply ctx_rel_put; [apply runtime_cell_app|].
Qed.

Lemma coherent_delete t k : (8 ≤ t < 256)%N → coherent (ctx_delete t k).
Proof.
  intros Ht pre env1 c1 env2 c2 H. simpl. split; [done|].
  rewrite <- (cr_shard _ _ _ _ _ H). by apply ctx_rel_delete; [apply runtime_cell_app|].
Qed.

Lemma coherent_emit p : coherent (ctx_emit p).
Proof.
  intros pre env1 c1 env2 c2 [Hs Hq He Hv Hc]. simpl. rewrite Hq.
  split; [done|]. split; simpl; [done..| |done|done]. by rewrite He, app_assoc.
Qed.

Lemma coherent_get_typed {A} `{!Codec A} what t k :
  (8 ≤ t < 256)%N → coherent (get_typed (A := A) what t k).
Proof.
  intros Ht. apply coherent_bind; [by apply coherent_get|].
  intros [b|]; [|apply coherent_ret].
  apply coherent_bind; [apply coherent_lift|intros; apply coherent_ret].
Qed.

#[export] Hint Resolve coherent_ret coherent_fail coherent_lift coherent_emit : coherent.
#[export] Hint Extern 2 (coherent (ctx_put _ _ _)) => (apply coherent_put; done) : coherent.
#[export] Hint Extern 2 (coherent (ctx_delete _ _)) => (apply coherent_delete; done) : coherent.
#[export] Hint Extern 2 (coherent (ctx_get _ _)) => (apply coherent_get; done) : coherent.
#[export] Hint Extern 2 (coherent (get_typed _ _ _)) =>
  (apply coherent_get_typed; done) : coherent.

(** Follows the shape of a computation down to its primitive steps. *)
Ltac solve_coherent :=
  repeat first
    [ progress intros
    | solve [auto 3 with coherent nocore]
    | apply coherent_bind
    | apply coherent_fold
    | apply coherent_iter
    | match goal with
      | |- coherent (match ?x with _ => _ end) => destruct x
      | |- coherent (let '_ := ?x in _) => destruct x
      end ].

Section Batches.
Context `{HR : Raft}.
Context `{!Codec (option LogId), !Codec StoredMembership, !Codec N}.
Context `{!Codec RuntimeCommand, !Codec RuntimeResponse}.
Context (sid : ShardId) (A : ShardApp).

(** Engines that agree except on how the sequence counter is stored. *)
Definition engine_equiv (e1 e2 : engine) : Prop :=
  sm_seq sid e1 = sm_seq sid e2 ∧ ∀ k, k ≠ sm_meta_key sid K_SEQ → e1 !! k = e2 !! k.

#[export] Instance engine_equiv_equivalence : Equivalence engine_equiv.
Proof.
  split.
  - intros e. by split.
  - intros e1 e2 [Ha Hb]. split; [done|]. intros k Hk. by rewrite Hb.
  - intros e1 e2 e3 [Ha1 H1] [Ha2 H2]. split; [congruence|]. intros k Hk. by rewrite H1, H2.
Qed.

(** The app's commands read through [get] only. *)
Class CoherentApp : Prop := {
  coherent_apply : ∀ cmd, coherent (app_apply A cmd);
  coherent_migrate : ∀ to, coherent (app_migrate A to);
}.

Lemma coherent_runtime cmd :
  (∀ to, coherent (app_migrate A to)) → coherent (apply_runtime A cmd).
Proof.
  intros Hm. unfold apply_runtime. destruct (dec cmd) as [[to]|]; [|apply coherent_ret].
  solve_coherent.
Qed.

Lemma sm_meta_key_inj k k' : sm_meta_key sid k = sm_meta_key sid k' → k = k'.
Proof. unfold sm_meta_key. intros He%ctx_key_inj; [by destruct He|done..]. Qed.

Lemma coherent_entry_of en :
  (∀ cmd, payload en = Normal cmd → coherent (app_apply A cmd)) →
  (∀ to, coherent (app_migrate A to)) →
  coherent (apply_entry sid A en).
Proof.
  intros Ha Hm. unfold apply_entry. destruct (payload en) as [|cmd|m] eqn:Hp.
  - apply coherent_ret.
  - destruct cmd as [|ch rest]; [by apply Ha|].
    case_bool_decide; [by apply coherent_runtime|by apply Ha].
  - intros pre env1 c1 env2 c2 Hr. split; [done|]. apply ctx_rel_put; [|done].
    unfold runtime_cell, sm_meta_key, ctx_key. by intros [?%key_inj_key|?%key_inj_key].
Qed.

Lemma coherent_entry `{!CoherentApp} en : coherent (apply_entry sid A en).
Proof. apply coherent_entry_of; [intros; apply coherent_apply|apply coherent_migrate]. Qed.

Lemma coherent_entries l :
  (∀ en, en ∈ l → coherent (apply_entry sid A en)) → coherent (apply_entries sid A l).
Proof.
  intros Hl.
  enough (∀ rs, coherent (app_fold
    (λ rs e, r ← apply_entry sid A e; mret (rs ++ [r])) rs l)) as Hrs by apply Hrs.
  induction l as [|en l IH]; intros rs; [apply coherent_ret|]. simpl.
  apply coherent_bind.
  - apply coherent_bind; [apply Hl; left|intros; apply coherent_ret].
  - intros rs'. apply IH. intros. apply Hl. by right.
Qed.

(** The responses of a run only depend on earlier ones by concatenation. *)
Lemma entries_acc l rs env c :
  app_fold (λ rs e, r ← apply_entry sid A e; mret (rs ++ [r])) rs l env c =
    match apply_entries sid A l env c with
    | Ok (rs', c') => Ok (rs ++ rs', c')
    | Err e => Err e
    end.
Proof.
  unfold apply_entries. revert rs c.
  induction l as [|en l IH]; intros rs c; simpl; [by rewrite app_nil_r|].
  unfold mbind, app_bind. destruct (apply_entry sid A en env c) as [[r c']|e]; [|done].
  simpl. rewrite IH, (IH [r]).
  destruct (app_fold _ [] l env c') as [[rs' c'']|]; [|done].
  by rewrite <- app_assoc.
Qed.

Lemma lookup_finish_batch l seq0 c e k :
  write_batch (finish_batch sid l seq0 c) e !! k =
    if decide (k = sm_meta_key sid K_SEQ ∧ seq c ≠ seq0) then Some (enc (seq c))
    else if decide (k = sm_meta_key sid K_LAST_APPLIED ∧ l ≠ []) then
      (λ en, enc (Some (log_id en))) <$> list.last l
    else write_batch (wb c) e !! k.
Proof.
  unfold finish_batch.
  assert (sm_meta_key sid K_SEQ ≠ sm_meta_key sid K_LAST_APPLIED) as Hne.
  { by intros ?%sm_meta_key_inj. }
  set (w := match list.last l with Some _ => _ | None => _ end).
  assert (∀ k', write_batch w e !! k' =
    if decide (k' = sm_meta_key sid K_LAST_APPLIED ∧ l ≠ []) then
      (λ en, enc (Some (log_id en))) <$> list.last l
    else write_batch (wb c) e !! k') as Hw.
  { intros k'. unfold w. destruct (list.last l) as [en|] eqn:Hl.
    - unfold wb_put. rewrite write_batch_snoc. simpl. rewrite lookup_insert.
      assert (l ≠ []) by (by intros ->).
      destruct (decide (sm_meta_key sid K_LAST_APPLIED = k')) as [<-|];
        case_decide as Hd; first [done|by destruct Hd|by destruct Hd as [-> _]].
    - apply last_None in Hl as ->. case_decide as Hd; [by destruct Hd|done]. }
  destruct (N.eqb_spec (seq c) seq0) as [Heq|Hneq].
  - rewrite decide_False by (by intros [_ ?]). apply Hw.
  - unfold wb_put. rewrite write_batch_snoc. simpl. rewrite lookup_insert, Hw.
    destruct (decide (sm_meta_key sid K_SEQ = k)) as [<-|].
    + by rewrite decide_True.
    + by rewrite (decide_False (P := k = _ ∧ seq c ≠ seq0)) by (by intros [-> _]).
Qed.

Lemma ctx_rel_init n e : ctx_rel [] (apply_env sid e) (apply_init n) (apply_env sid e) (apply_init n).
Proof. by split. Qed.

Lemma apply_entries_app l1 l2 env c :
  apply_entries sid A (l1 ++ l2) env c =
    match apply_entries sid A l1 env c with
    | Ok (rs1, c1) =>
        match apply_entries sid A l2 env c1 with
        | Ok (rs2, c2) => Ok (rs1 ++ rs2, c2)
        | Err e => Err e
        end
    | Err e => Err e
    end.
Proof.
  unfold apply_entries at 1. rewrite app_fold_app. fold (apply_entries sid A l1 env c).
  destruct (apply_entries sid A l1 env c) as [[rs1 c1]|e]; [|done].
  by rewrite entries_acc.
Qed.

Lemma apply_entries_one en env c :
  apply_entries sid A [en] env c =
    match apply_entry sid A en env c with Ok (r, c') => Ok ([r], c') | Err e => Err e end.
Proof.
  unfold apply_entries. simpl. unfold mbind, app_bind.
  by destruct (apply_entry sid A en env c) as [[r c']|].
Qed.

(** Bytes that the state machine hands to the app. *)
Definition app_command (b : bytes) : Prop :=
  match b with String c _ => c ≠ RUNTIME_CMD_PREFIX | EmptyString => True end.

Lemma apply_entry_command id cmd env c :
  app_command cmd →
  apply_entry sid A {| log_id := id; payload := Normal cmd |} env c = app_apply A cmd env c.
Proof.
  unfold apply_entry, app_command. cbn [payload]. destruct cmd; [done|]. intros Hc.
  by rewrite bool_decide_false.
Qed.

(** The cells of the tables once a batch is written. *)
Lemma finish_cells l seq0 c e t k :
  (t < 256)%N → t ≠ T_SM_META →
  write_batch (finish_batch sid l seq0 c) e !! ctx_key sid t k = tget (apply_env sid e) c t k.
Proof.
  intros Ht Hne. rewrite lookup_finish_batch. unfold sm_meta_key.
  rewrite !decide_False by (intros [[? ?]%ctx_key_inj _]; done).
  unfold tget, view. simpl. by rewrite overlay_write_batch.
Qed.

(** One command in a batch of its own. *)
Lemma sm_apply_command (Q : N → bytes → ApplyState → Prop) id cmd e :
  app_command cmd →
  (∀ n, wp (app_apply A cmd) (apply_env sid e) (Q n) (apply_init n)) →
  match sm_apply sid A [{| log_id := id; payload := Normal cmd |}] e with
  | Ok (e', rs, pub) => ∃ n r c, sm_seq sid e = Ok n ∧ rs = [r] ∧ Q n r c ∧ pub = emits c ∧
      ∀ t k, (t < 256)%N → t ≠ T_SM_META → e' !! ctx_key sid t k = tget (apply_env sid e) c t k
  | Err _ => True
  end.
Proof.
  intros Hc HQ. unfold sm_apply. destruct (sm_seq sid e) as [n|]; [|done].
  rewrite apply_entries_one, apply_entry_command by done. specialize (HQ n).
  unfold wp in HQ. destruct (app_apply A cmd _ _) as [[r c]|]; [|done].
  exists n, r, c. split_and!; try done. intros. by apply finish_cells.
Qed.

(** A batch that leaves the runtime's cells alone stores its counter. *)
Lemma sm_seq_finish l seq0 c e :
  sm_seq sid e = Ok seq0 → staged (sm_meta_key sid K_SEQ) (wb c) = None →
  sm_seq sid (write_batch (finish_batch sid l seq0 c) e) = Ok (seq c).
Proof.
  intros He Hst. unfold sm_seq, get_sm_meta in *. rewrite lookup_finish_batch.
  case_decide as Hd; [unfold dec_or; by rewrite dec_enc|].
  case_decide as Hd'; [by destruct Hd' as [?%sm_meta_key_inj _]|].
  rewrite <- overlay_write_batch. unfold overlay. rewrite Hst, He.
  f_equal. destruct (decide (seq c = seq0)); [done|]. by destruct Hd.
Qed.

Lemma ctx_rel_finish l seq0 c e pre :
  (∀ k, runtime_cell sid k → staged k (wb c) = None) → emits c = pre →
  ctx_rel pre (apply_env sid e) c
    (apply_env sid (write_batch (finish_batch sid l seq0 c) e)) (apply_init (seq c)).
Proof.
  intros Hst Hem. split; simpl; [done|done|by rewrite app_nil_r| |auto].
  intros k Hk. unfold view; simpl. unfold overlay at 2; simpl.
  rewrite lookup_finish_batch, overlay_write_batch. unfold runtime_cell, sm_meta_key in *.
  rewrite !decide_False by (intros [-> _]; destruct Hk; auto). done.
Qed.

(** ** Runs of a shard

    What every app keeps: the shard it applies to, and the runtime's cells,
    which stay out of the batch until its end. *)
Definition untouched (env : ApplyEnv) (c : ApplyState) : Prop :=
  shard env = sid ∧ ∀ k, runtime_cell sid k → staged k (wb c) = None.

Lemma untouched_put t k v : (8 ≤ t < 256)%N → keeps untouched (ctx_put t k v).
Proof.
  intros Ht env c [Hs Hc]. apply wp_put. split; [done|]. intros k' Hk'.
  unfold wb_put; simpl. rewrite staged_snoc; simpl. case_bool_decide as Hk; [|by apply Hc].
  subst k' sid. by apply runtime_cell_app in Hk'.
Qed.

Lemma untouched_delete t k : (8 ≤ t < 256)%N → keeps untouched (ctx_delete t k).
Proof.
  intros Ht env c [Hs Hc]. split; [done|]. intros k' Hk'.
  unfold wb_delete; simpl. rewrite staged_snoc; simpl. case_bool_decide as Hk; [|by apply Hc].
  subst k' sid. by apply runtime_cell_app in Hk'.
Qed.

Lemma untouched_emit p : keeps untouched (ctx_emit p).
Proof. by intros env c H. Qed.

(** An invariant of the app's commands and migrations is an invariant of
    whole batches, if it survives the runtime's own writes. *)
Lemma keeps_entries (I : ApplyEnv → ApplyState → Prop) l :
  (∀ cmd, keeps I (app_apply A cmd)) → (∀ to, keeps I (app_migrate A to)) →
  (∀ to, keeps I (ctx_put T_SCHEMA K_SCHEMA_VERSION (enc (A := N) to))) →
  (∀ v, keeps I (λ env c,
    Ok ((), with_wb (wb_put (sm_meta_key sid K_MEMBERSHIP) v (wb c)) c))) →
  keeps I (apply_entries sid A l).
Proof.
  intros Ha Hm Hs Hk. apply keeps_fold. intros rs en. apply keeps_bind; [|intros; apply keeps_ret].
  unfold apply_entry, apply_runtime. destruct (payload en) as [|cmd|m]; [apply keeps_ret| |].
  - destruct cmd as [|ch rest]; [apply Ha|]. case_bool_decide; [|apply Ha].
    destruct (dec rest) as [[to]|]; [|apply keeps_ret]. solve_keeps; auto.
  - intros env c H. by apply (Hk _ env c H).
Qed.

Definition sm_run (batches : list (list Entry)) (e : engine) :
    result store_error (engine * list (N * bytes)) :=
  try_fold (λ '(e, log) l, let? (e', _, pub) := sm_apply sid A l e in Ok (e', log ++ pub))
    (e, []) batches.

(** Rule induction over runs: [J e log], what was published so far. *)
Lemma sm_run_ind (J : engine → list (N * bytes) → Prop) e batches e' log :
  J e [] →
  (∀ l e log e' rs pub, J e log → sm_apply sid A l e = Ok (e', rs, pub) → J e' (log ++ pub)) →
  sm_run batches e = Ok (e', log) → J e' log.
Proof.
  intros H0 Hstep. unfold sm_run. generalize (@nil (N * bytes)) as log0, H0.
  clear H0. revert e. induction batches as [|l batches IH]; intros e log0 H0; simpl.
  { by intros [= <- <-]. }
  destruct (sm_apply sid A l e) as [[[e1 rs] pub]|] eqn:Hs; [|done].
  apply IH. by eapply Hstep.
Qed.
End Batches.

#[export] Hint Resolve untouched_emit : keeps.
#[export] Hint Extern 2 (keeps (untouched _) (ctx_put _ _ _)) =>
  (apply untouched_put; done) : keeps.
#[export] Hint Extern 2 (keeps (untouched _) (ctx_delete _ _)) =>
  (apply untouched_delete; done) : keeps.
