(* ===== verification/Track.v ===== *)
(** * Applies as folds

    A fact about single commands, stated as what they do to an abstraction
    [X] of the shard's state, carries over to every batch of committed entries
    and to every run of batches: the abstraction is folded over the commands
    the entries carry. *)

From Stdlib Require Import Ascii.
From S2P Require Import Prelude Bytes Store Codec Shard ShardFacts.
From stdpp Require Import options.

(** The cells of the application tables, seen through a batch or at rest. *)
Definition cells : Type := N → bytes → option bytes.

Definition eget (sid : ShardId) (e : engine) : cells := λ t k, e !! ctx_key sid t k.

Definition cells_equiv (f g : cells) : Prop := ∀ t k, (8 ≤ t < 256)%N → f t k = g t k.

Section Track.
Context `{HR : Raft}.
Context `{!Codec (option LogId), !Codec StoredMembership, !Codec N}.
Context `{!Codec RuntimeCommand, !Codec RuntimeResponse}.
Context (sid : ShardId) (A : ShardApp).

Lemma eget_init n e t k : tget (apply_env sid e) (apply_init n) t k = eget sid e t k.
Proof using Type. done. Qed.

Lemma eget_finish l n c e t k :
  (8 ≤ t < 256)%N →
  eget sid (write_batch (finish_batch sid l n c) e) t k = tget (apply_env sid e) c t k.
Proof using Type. intros Ht. apply finish_cells; [lia|]. unfold T_SM_META. lia. Qed.

Lemma sm_apply_inv l e e' rs pub :
  sm_apply sid A l e = Ok (e', rs, pub) →
  ∃ n c, sm_seq sid e = Ok n ∧ pub = emits c ∧
    apply_entries sid A l (apply_env sid e) (apply_init n) = Ok (rs, c) ∧
    e' = write_batch (finish_batch sid l n c) e ∧
    cells_equiv (tget (apply_env sid e) c) (eget sid e').
Proof using Type.
  unfold sm_apply. destruct (sm_seq sid e) as [n|]; [|done].
  destruct (apply_entries _ _ _ _ _) as [[rs' c]|] eqn:Hr; [|done]. intros [= <- <- <-].
  exists n, c. split_and!; try done. intros t k Ht. by rewrite eget_finish.
Qed.

(** The commands that entries hand to the app. *)
Definition app_payload (en : Entry) : option bytes :=
  match payload en with
  | Normal (String ch _ as cmd) => if bool_decide (ch = RUNTIME_CMD_PREFIX) then None else Some cmd
  | Normal EmptyString => Some EmptyString
  | _ => None
  end.

Definition commands (l : list Entry) : list bytes := omap app_payload l.

Context {X : Type} (R : X → ApplyEnv → ApplyState → Prop) (g : bytes → X → X).

(** Commands act as [g]; migrations and the runtime's own writes, which stay
    out of the app's tables above the schema cell, do not show. *)
Record tracks (ok : bytes → Prop) : Prop := {
  tr_ext : ∀ x env c c', R x env c → seq c' = seq c →
    (∀ t k, (8 < t < 256)%N → tget env c' t k = tget env c t k) → R x env c';
  tr_cmd : ∀ cmd x env c, ok cmd → shard env = sid → R x env c →
    wp (app_apply A cmd) env (λ _ c', R (g cmd x) env c') c;
  tr_migrate : ∀ to x env c, shard env = sid → R x env c →
    wp (app_migrate A to) env (λ _ c', R x env c') c;
}.

Definition track (l : list bytes) (x : X) : X := foldl (λ x cmd, g cmd x) x l.

Context (ok : bytes → Prop) (HT : tracks ok).

Lemma track_runtime cmd x env c :
  shard env = sid → R x env c → wp (apply_runtime A cmd) env (λ _ c', R x env c') c.
Proof using HT.
  intros Hs HR'. unfold apply_runtime. destruct (dec cmd) as [[to]|]; [|by apply wp_ret].
  wp_step. wp_step. wp_step. apply (wp_mono _ _ (λ _ c1, c1 = c)).
  2: { destruct (tget _ _ _ _); [by apply wp_lift|by apply wp_ret]. }
  intros cur ? ->. destruct (negb _); [by apply wp_ret|]. destruct (_ <? _)%N; [by apply wp_ret|].
  wp_step. eapply wp_mono; [|by apply HT]. intros [] c1 H1. wp_step. wp_step. wp_step.
  eapply HT; [exact H1|done|]. intros t k Ht. rewrite tget_put_other; [done|done|lia|].
  unfold T_SCHEMA, APP_TABLE_MIN. lia.
Qed.

Lemma track_entry en x env c :
  (∀ cmd, app_payload en = Some cmd → ok cmd) → shard env = sid → R x env c →
  wp (apply_entry sid A en) env (λ _ c',
    R (match app_payload en with Some cmd => g cmd x | None => x end) env c') c.
Proof using HT.
  intros Hok Hs HR'. unfold apply_entry, app_payload in *. destruct (payload en) as [|cmd|m].
  - by apply wp_ret.
  - destruct cmd as [|ch rest]; [apply HT; by try apply Hok|].
    case_bool_decide; [by apply track_runtime|apply HT; by try apply Hok].
  - unfold wp. eapply HT; [exact HR'|done|]. intros t k Ht. unfold tget. rewrite view_put.
    rewrite decide_False; [done|]. unfold sm_meta_key. rewrite Hs. intros [Hk _]%ctx_key_inj; [|done|lia].
    unfold T_SM_META in Hk. lia.
Qed.

Lemma track_entries l x env c :
  Forall ok (commands l) → shard env = sid → R x env c →
  wp (apply_entries sid A l) env (λ _ c', R (track (commands l) x) env c') c.
Proof using HT.
  intros Hok Hs HR0. enough (∀ rs, wp (app_fold (λ rs e, r ← apply_entry sid A e; mret (rs ++ [r])) rs l)
    env (λ _ c', R (track (commands l) x) env c') c) as H by apply H.
  revert x c Hok HR0. induction l as [|en l IH]; intros x c Hok HR' rs; [by apply wp_ret|].
  cbn [app_fold]. wp_step. wp_step.
  assert (∀ cmd, app_payload en = Some cmd → ok cmd) as Hen.
  { intros cmd Hc. unfold commands in Hok. simpl in Hok. rewrite Hc in Hok. by inversion Hok. }
  eapply wp_mono; [|by apply (track_entry en x)]. intros r c1 H1. wp_step.
  unfold commands in *. simpl in *. destruct (app_payload en) as [cmd|]; [|by apply IH].
  inversion_clear Hok. by apply IH.
Qed.
End Track.

(** Apps that write their own tables leave the runtime's cells alone. *)
Section Untouched.
Context `{HR : Raft}.
Context `{!Codec (option LogId), !Codec StoredMembership, !Codec N}.
Context `{!Codec RuntimeCommand, !Codec RuntimeResponse}.
Context (sid : ShardId) (A : ShardApp).

Lemma untouched_entries l :
  (∀ cmd, keeps (untouched sid) (app_apply A cmd)) →
  (∀ to, keeps (untouched sid) (app_migrate A to)) →
  keeps (untouched sid) (apply_entries sid A l).
Proof using Type.
  intros Ha Hm. apply keeps_entries; [done|done|intros; auto with keeps nocore|].
  intros v env c [<- Hu]. split; [done|]. intros k Hk. unfold wb_put; simpl.
  rewrite staged_snoc; simpl. case_bool_decide as He; [|by apply Hu]. subst k.
  by destruct Hk as [?%sm_meta_key_inj|?%sm_meta_key_inj].
Qed.

(** The stored sequence counter after a batch. *)
Lemma sm_apply_seq l e e' rs n c :
  (∀ cmd, keeps (untouched sid) (app_apply A cmd)) →
  (∀ to, keeps (untouched sid) (app_migrate A to)) →
  sm_seq sid e = Ok n →
  apply_entries sid A l (apply_env sid e) (apply_init n) = Ok (rs, c) →
  e' = write_batch (finish_batch sid l n c) e → sm_seq sid e' = Ok (seq c).
Proof using Type.
  intros Ha Hm Hn Hrun ->. apply sm_seq_finish; [done|].
  pose proof (untouched_entries l Ha Hm (apply_env sid e) (apply_init n)) as Hk.
  unfold wp in Hk. rewrite Hrun in Hk. destruct Hk as [_ Hu]; [by split|]. apply Hu. by right.
Qed.
End Untouched.

#[global] Arguments sm_apply_inv {_ _ _ _ _ _} sid A _ _ _ _ _ _.
