(* ===== verification/Demo.v ===== *)
(** * Concrete instances

    openraft's types and the record codec instantiated, and a small
    key-value [ShardApp], so that the hypotheses of the theorems can be met
    and the definitions evaluated on inputs. *)

From Stdlib Require Import Ascii.
From S2P Require Import Prelude Store Codec Shard ShardFacts.
From stdpp Require Import options.

(** Log ids are their index, memberships the list of voters. *)
#[export] Instance demo_raft : Raft := {|
  LogId := N;
  Membership := list N;
  StoredMembership := option N * list N;
  stored_membership_new l m := (l, m);
  stored_membership_default := (None, []);
  log_id_text _ := "T0-N0-0"%string;
|}.

#[export] Instance codec_n : Codec N := codec_nat.
#[export] Instance codec_log_id : Codec (option (@LogId demo_raft)) := codec_option codec_nat.
#[export] Instance codec_membership : Codec (@StoredMembership demo_raft) :=
  codec_pair (codec_option codec_nat) (codec_list codec_nat).

#[export] Instance codec_command : Codec RuntimeCommand.
Proof.
  refine (codec_iso codec_nat (λ '(Migrate to), to) Migrate _). abstract (by intros []).
Defined.

#[export] Instance codec_response : Codec RuntimeResponse.
Proof.
  refine (codec_iso (codec_unit ++ codec_string)%codec
    (λ r, match r with RuntimeOk => inl () | RuntimeRejected s => inr s end)
    (λ x, match x with inl _ => RuntimeOk | inr s => RuntimeRejected s end) _).
  abstract (by intros []).
Defined.

#[export] Instance codec_content : Codec (SnapshotContent (HR := demo_raft)).
Proof.
  refine (codec_iso (codec_log_id :: codec_membership :: codec_nat ::
      codec_list (codec_string :: codec_string))%codec
    (λ c, (sc_last_applied c, (sc_membership c, (sc_seq c, sc_kv c))))
    (λ '(a, (b, (n, l))),
      {| sc_last_applied := a; sc_membership := b; sc_seq := n; sc_kv := l |}) _).
  abstract (by intros []).
Defined.

#[export] Instance codec_snapshot : Codec (StoredSnapshot (HR := demo_raft)).
Proof.
  refine (codec_iso (codec_log_id :: codec_membership :: codec_string :: codec_string)%codec
    (λ s, (last_log_id (ss_meta s), (last_membership (ss_meta s),
           (snapshot_id (ss_meta s), ss_data s))))
    (λ '(a, (b, (i, d))), {| ss_meta := {| last_log_id := a; last_membership := b;
                                           snapshot_id := i |}; ss_data := d |}) _).
  abstract (by intros [[]]).
Defined.

(** A key-value app: a command is a key, whose cell becomes a marker; the
    response says whether it was there. *)
Definition kv_apply (cmd : bytes) : app bytes :=
  o ← ctx_get APP_TABLE_FIRST cmd;
  ctx_put APP_TABLE_FIRST cmd "x";;
  ctx_emit cmd;;
  mret (if is_some o then "old"%string else "new"%string).

Definition kv_app : ShardApp := {|
  app_schema_version := 2;
  app_apply := kv_apply;
  app_migrate _ := mret ();
  app_replay _ _ _ := Ok [];
|}.

#[export] Instance kv_app_coherent : CoherentApp kv_app.
Proof. split; intros; simpl; unfold kv_apply; solve_coherent. Qed.

Definition demo_shard : ShardId := {| keyspace := Room; index := 7 |}.

Definition demo_entry (id : N) (cmd : bytes) : Entry :=
  {| log_id := id; payload := Normal cmd |}.

Example kv_run :
  (let? (_, rs, pub) := sm_apply demo_shard kv_app [demo_entry 1 "a"; demo_entry 2 "a"] ∅ in
   Ok (rs, pub)) = Ok (["new"; "old"]%string, [(1%N, "a"%string); (2%N, "a"%string)]).
Proof. vm_compute. reflexivity. Qed.

(** Lossy decoding is the identity, which is what it is on valid text. *)
#[export] Instance demo_lossy : Utf8Lossy :=
  {| from_utf8_lossy s := s; from_utf8_lossy_valid _ _ := eq_refl |}.
