(* ===== verification/LogStore.v ===== *)
(** * The Raft log store (saltator-shard/src/storage.rs, [ShardLogStore])

    openraft's log storage over the shard's own tables of the engine: entries
    by index, the vote, the committed and the last purged id; and its
    refinement of a finite map from indices to entries. *)

From S2P Require Import Prelude Bytes Order Store Codec Shard ShardFacts.
From stdpp Require Import options.

Local Open Scope N_scope.

Definition K_VOTE : bytes := "vote".
Definition K_COMMITTED : bytes := "committed".
Definition K_LAST_PURGED : bytes := "last_purged".

(** [std::ops::Bound<u64>] *)
Inductive Bound : Type := Included (i : N) | Excluded (i : N) | Unbounded.

Section Store.
Context `{HR : Raft} {Vote : Type} (log_index : LogId → N).
Context `{!Codec Entry, !Codec Vote, !Codec (option LogId)}.
Context (sid : ShardId).

Definition log_key (index : N) : bytes := ctx_key sid T_LOG (be64 index).
Definition raft_key (k : bytes) : bytes := ctx_key sid T_RAFT k.
Definition log_bounds : bytes * bytes := table_bounds (keyspace sid) (index sid) T_LOG.

Definition get_meta {T} `{!Codec T} (k : bytes) (e : engine) : result store_error (option T) :=
  match e !! raft_key k with
  | Some b => let? t := dec_or "decode" b in Ok (Some t)
  | None => Ok None
  end.

Definition last_log_id (e : engine) : result store_error (option LogId) :=
  match last_in_range log_bounds.1 log_bounds.2 e with
  | Some (_, v) => let? entry := dec_or (A := Entry) "decode" v in Ok (Some (log_id entry))
  | None => Ok None
  end.

(** ** [RaftLogReader] *)

Definition start_of (b : Bound) : N :=
  match b with Included i => i | Excluded i => add64 i 1 | Unbounded => 0 end.

Definition end_of (b : Bound) : N :=
  match b with Included i => add64 i 1 | Excluded i => i | Unbounded => u64_max end.

Definition end_key (stop : N) : bytes := if stop =? u64_max then log_bounds.2 else log_key stop.

(** [.map(|(_, v)| decode(&v)).collect()] *)
Definition decode_all (l : list (bytes * bytes)) : result store_error (list Entry) :=
  try_fold (λ out kv, let? entry := dec_or (A := Entry) "decode" kv.2 in Ok (out ++ [entry])) [] l.

Definition try_get_log_entries (lo hi : Bound) (e : engine) : result store_error (list Entry) :=
  decode_all (kv_range (log_key (start_of lo)) (end_key (end_of hi)) e).

(** ** [RaftLogStorage] *)

Record LogState : Type := { last_purged_log_id : option LogId; ls_last_log_id : option LogId }.

(** [o.or(p)] *)
Definition opt_or {A} (o p : option A) : option A := match o with Some a => Some a | None => p end.

Definition get_log_state (e : engine) : result store_error LogState :=
  let? purged := get_meta (T := option LogId) K_LAST_PURGED e in
  let purged := default None purged in
  let? last := last_log_id e in
  Ok {| last_purged_log_id := purged; ls_last_log_id := opt_or last purged |}.

Definition save_vote (v : Vote) (e : engine) : engine := <[raft_key K_VOTE := enc v]> e.

Definition read_vote (e : engine) : result store_error (option Vote) := get_meta K_VOTE e.

Definition save_committed (c : option LogId) (e : engine) : engine :=
  <[raft_key K_COMMITTED := enc c]> e.

Definition read_committed (e : engine) : result store_error (option LogId) :=
  let? o := get_meta (T := option LogId) K_COMMITTED e in Ok (default None o).

Definition append (entries : list Entry) (e : engine) : engine :=
  write_batch (foldl (λ wb en, wb_put (log_key (log_index (log_id en))) (enc en) wb) [] entries) e.

Definition truncate (id : LogId) (e : engine) : engine :=
  write_batch (wb_delete_range (log_key (log_index id)) log_bounds.2 []) e.

Definition purge (id : LogId) (e : engine) : engine :=
  write_batch (wb_delete_range log_bounds.1 (log_key (add64 (log_index id) 1))
    (wb_put (raft_key K_LAST_PURGED) (enc (Some id)) [])) e.

(** ** A log as a finite map *)

Record Log : Type := {
  l_entries : gmap N Entry;
  l_purged : option LogId;
  l_vote : option Vote;
  l_committed : option LogId;
}.

Definition with_entries (l : Log) (m : gmap N Entry) : Log :=
  {| l_entries := m; l_purged := l_purged l; l_vote := l_vote l; l_committed := l_committed l |}.

Inductive LogOp : Type :=
  | OpAppend (entries : list Entry)
  | OpTruncate (id : LogId)
  | OpPurge (id : LogId)
  | OpVote (v : Vote)
  | OpCommitted (c : option LogId).

Definition log_exec (op : LogOp) (e : engine) : engine :=
  match op with
  | OpAppend es => append es e
  | OpTruncate id => truncate id e
  | OpPurge id => purge id e
  | OpVote v => save_vote v e
  | OpCommitted c => save_committed c e
  end.

Definition put_entry_at (m : gmap N Entry) (en : Entry) : gmap N Entry :=
  <[log_index (log_id en) := en]> m.

Definition log_spec (op : LogOp) (l : Log) : Log :=
  match op with
  | OpAppend es => with_entries l (foldl put_entry_at (l_entries l) es)
  | OpTruncate id => with_entries l (filter (λ x, x.1 < log_index id) (l_entries l))
  | OpPurge id =>
      {| l_entries := filter (λ x, log_index id < x.1) (l_entries l); l_purged := Some id;
         l_vote := l_vote l; l_committed := l_committed l |}
  | OpVote v =>
      {| l_entries := l_entries l; l_purged := l_purged l; l_vote := Some v;
         l_committed := l_committed l |}
  | OpCommitted c =>
      {| l_entries := l_entries l; l_purged := l_purged l; l_vote := l_vote l; l_committed := c |}
  end.

(** Indices are [u64]; nothing is purged at the last of them. *)
Definition in_width (op : LogOp) : Prop :=
  match op with
  | OpAppend es => Forall (λ en, log_index (log_id en) < u64_modulus) es
  | OpTruncate id => log_index id < u64_modulus
  | OpPurge id => log_index id < u64_max
  | _ => True
  end.

(** ** Representation *)

Definition flat_cell (k : bytes) (o : option LogId) (e : engine) : Prop :=
  e !! raft_key k = Some (enc o) ∨ e !! raft_key k = None ∧ o = None.

Record represents (e : engine) (l : Log) : Prop := {
  rp_rows k v : e !! ctx_key sid T_LOG k = Some v ↔
    ∃ i en, k = be64 i ∧ l_entries l !! i = Some en ∧ v = enc en;
  rp_width i en : l_entries l !! i = Some en → i < u64_modulus;
  rp_purged : flat_cell K_LAST_PURGED (l_purged l) e;
  rp_committed : flat_cell K_COMMITTED (l_committed l) e;
  rp_vote : e !! raft_key K_VOTE = enc <$> l_vote l;
}.

(** The store's own cells. *)
Definition own (k : bytes) : Prop := ∃ t k', k = ctx_key sid t k' ∧ (t = T_LOG ∨ t = T_RAFT).

Lemma log_raft_ne k k' : ctx_key sid T_LOG k ≠ raft_key k'.
Proof. unfold raft_key. by intros [? _]%ctx_key_inj. Qed.

Lemma raft_key_ne k k' : k ≠ k' → raft_key k ≠ raft_key k'.
Proof. unfold raft_key. by intros Hne [_ ?]%ctx_key_inj. Qed.

Lemma log_key_inj i j : i < u64_modulus → j < u64_modulus → log_key i = log_key j → i = j.
Proof. intros Hi Hj [_ H]%ctx_key_inj; [|done..]. by apply be64_inj. Qed.

(** Writing one entry. *)
Lemma log_represents_put e l en :
  represents e l → log_index (log_id en) < u64_modulus →
  represents (<[log_key (log_index (log_id en)) := enc en]> e)
    (with_entries l (put_entry_at (l_entries l) en)).
Proof.
  intros [Hr Hw Hp Hc Hv] Hi. set (i := log_index (log_id en)) in *.
  assert (Hother : ∀ k, <[log_key i := enc en]> e !! raft_key k = e !! raft_key k).
  { intros k. rewrite lookup_insert_ne; [done|]. apply log_raft_ne. }
  split; cbn [with_entries l_entries l_purged l_vote l_committed]; unfold flat_cell in *; rewrite ?Hother; try done.
  - intros k v. unfold put_entry_at. fold i. destruct (decide (k = be64 i)) as [->|Hne].
    + unfold log_key. rewrite lookup_insert_eq. split.
      * intros [= <-]. exists i, en. by rewrite lookup_insert_eq.
      * intros (j & en' & Hk & Hj & ->). f_equal.
        assert (j = i) as ->; [|rewrite lookup_insert_eq in Hj; congruence].
        destruct (decide (j = i)) as [|Hji]; [done|]. rewrite lookup_insert_ne in Hj by done.
        symmetry. apply be64_inj; [done|by eapply Hw|done].
    + unfold log_key. rewrite lookup_insert_ne by (intros [_ ?]%ctx_key_inj; done || congruence).
      rewrite Hr. split; intros (j & en' & -> & Hj & ->); exists j, en'; (split; [done|]);
        (split; [|done]); [rewrite lookup_insert_ne by congruence|rewrite lookup_insert_ne in Hj by congruence]; done.
  - intros j en' Hj. unfold put_entry_at in Hj. fold i in Hj.
    apply lookup_insert_Some in Hj as [[<- _]|[_ Hj]]; [done|by eapply Hw].
Qed.

(** Deleting a range of the log's table. *)
Lemma represents_delete e l lo hi (P : N → Prop) `{!∀ i, Decision (P i)} :
  represents e l →
  (∀ k, between lo hi k = true → ∃ k', k = ctx_key sid T_LOG k') →
  (∀ i, i < u64_modulus → between lo hi (log_key i) = false ↔ P i) →
  represents (filter (λ kv, between lo hi kv.1 = false) e)
    (with_entries l (filter (λ x, P x.1) (l_entries l))).
Proof.
  intros [Hr Hw Hp Hc Hv] Hin HP.
  assert (Hother : ∀ k, filter (λ kv : bytes * bytes, between lo hi kv.1 = false) e !! raft_key k = e !! raft_key k).
  { intros k. destruct (e !! raft_key k) as [v|] eqn:Hk.
    - apply map_lookup_filter_Some. split; [done|]. cbn [fst].
      destruct (between lo hi (raft_key k)) eqn:Hb; [|done]. apply Hin in Hb as [k' Hb].
      by apply eq_sym, log_raft_ne in Hb.
    - apply map_lookup_filter_None. by left. }
  split; cbn [with_entries l_entries l_purged l_vote l_committed]; unfold flat_cell in *; rewrite ?Hother; try done.
  - intros k v. rewrite map_lookup_filter_Some, Hr. cbn [fst]. split.
    + intros [(i & en & -> & Hi & ->) Hb]. exists i, en. split; [done|]. split; [|done].
      apply map_lookup_filter_Some. split; [done|]. apply HP; [by eapply Hw|exact Hb].
    + intros (i & en & -> & (Hi & HPi)%map_lookup_filter_Some & ->). split; [by exists i, en|].
      apply HP; [by eapply Hw|exact HPi].
  - intros i en (Hi & _)%map_lookup_filter_Some. by eapply Hw.
Qed.

Lemma append_each es e :
  append es e = foldl (λ e en, <[log_key (log_index (log_id en)) := enc en]> e) e es.
Proof.
  unfold append. induction es as [|en es IH] using rev_ind; [done|].
  rewrite !foldl_app. cbn [foldl]. unfold wb_put at 1. by rewrite write_batch_snoc, IH.
Qed.

Lemma represents_append e l es :
  represents e l → Forall (λ en, log_index (log_id en) < u64_modulus) es →
  represents (append es e) (with_entries l (foldl put_entry_at (l_entries l) es)).
Proof.
  intros Hrep Hw. rewrite append_each. induction es as [|en es IH] using rev_ind.
  { simpl. by destruct l. }
  apply list.Forall_app in Hw as [Hw Hen]. apply list.Forall_cons in Hen as [Hen _].
  rewrite !foldl_app. cbn [foldl]. apply (log_represents_put _ _ en (IH Hw) Hen).
Qed.

Lemma log_tail_between i k :
  between (log_key i) log_bounds.2 k = true ↔
  ∃ k', k = ctx_key sid T_LOG k' ∧ String.leb (be64 i) k' = true.
Proof.
  pose proof (range_bounds_spec sid T_LOG (be64 i) EmptyString k eq_refl) as H.
  cbn [range_bounds fst snd below] in H. unfold log_bounds, log_key. rewrite H. naive_solver.
Qed.

(** ** Reading back *)

(** The entries of a map, in the order of their indices. *)
Definition entries_of (m : gmap N Entry) : list Entry := omap (λ i, m !! i) (ascending (dom m)).

Definition row_list (m : gmap N Entry) : list (bytes * bytes) :=
  omap (λ i, en ← m !! i; Some (log_key i, enc en)) (ascending (dom m)).

Lemma elem_of_row_list m k v :
  (k, v) ∈ row_list m ↔ ∃ i en, m !! i = Some en ∧ k = log_key i ∧ v = enc en.
Proof.
  unfold row_list. rewrite list_elem_of_omap. split.
  - intros (i & _ & H). destruct (m !! i) as [en|] eqn:Hi; [|done]. injection H as <- <-. by exists i, en.
  - intros (i & en & Hi & -> & ->). exists i. split; [|by rewrite Hi].
    apply elem_of_ascending, elem_of_dom. by eexists.
Qed.

Lemma row_list_values m : (row_list m).*2 = enc <$> entries_of m.
Proof.
  unfold row_list, entries_of. induction (ascending (dom m)) as [|i l IH]; [done|]. simpl.
  destruct (m !! i); simpl; [by f_equal|done].
Qed.

Lemma row_list_sorted m :
  (∀ i en, m !! i = Some en → i < u64_modulus) →
  StronglySorted kv_le (row_list m) ∧ NoDup (row_list m).
Proof.
  intros Hw. unfold row_list. pose proof (ascending_sorted (dom m)) as Hs.
  assert (Hin : ∀ i, i ∈ ascending (dom m) → i < u64_modulus).
  { intros i [en Hi]%elem_of_ascending%elem_of_dom. by eapply Hw. }
  induction Hs as [|i l Hs IH Hi]; [by split; constructor|].
  destruct IH as [IH1 IH2]; [intros; apply Hin; by right|]. simpl.
  destruct (m !! i) as [en|]; [|done]. simpl. rewrite list.Forall_forall in Hi.
  assert (Hlt : ∀ k v, (k, v) ∈ omap (λ i, en ← m !! i; Some (log_key i, enc en)) l →
    ∃ j, k = log_key j ∧ i < j ∧ j < u64_modulus).
  { intros k v (j & Hj & H)%list_elem_of_omap. destruct (m !! j); [|done]. injection H as <- _.
    exists j. split_and!; [done|by apply Hi|apply Hin; by right]. }
  assert (Hiw : i < u64_modulus) by (apply Hin; by left). split; constructor; [done| | |done].
  - apply list.Forall_forall. intros [k v] (j & -> & Hij & Hj)%Hlt. unfold kv_le. cbn [fst].
    apply sleb_le. unfold log_key. rewrite !(ctx_key_prefix sid T_LOG (be64 _)), sleb_app, be64_leb by done.
    apply N.leb_le. lia.
  - intros (j & Hk & Hij & Hj)%Hlt. apply log_key_inj in Hk; [lia|done..].
Qed.

(** What a range of the log's table holds. *)
Lemma range_entries e l lo hi (P : N → Prop) `{!∀ i, Decision (P i)} :
  represents e l →
  (∀ k, between lo hi k = true → ∃ k', k = ctx_key sid T_LOG k') →
  (∀ i, i < u64_modulus → between lo hi (log_key i) = true ↔ P i) →
  kv_range lo hi e = row_list (filter (λ x, P x.1) (l_entries l)).
Proof.
  intros [Hr Hw _ _ _] Hin HP.
  assert (Hw' : ∀ i en, filter (λ x, P x.1) (l_entries l) !! i = Some en → i < u64_modulus).
  { intros i en (Hi & _)%map_lookup_filter_Some. by eapply Hw. }
  destruct (row_list_sorted _ Hw') as [Hs Hd]. apply kv_range_unique; [done|done|].
  intros k v. rewrite elem_of_row_list. split.
  - intros (i & en & (Hi & HPi)%map_lookup_filter_Some & -> & ->). split; [|apply HP; [by eapply Hw|done]].
    apply Hr. by exists i, en.
  - intros [Hk Hb]. destruct (Hin k Hb) as [k' ->]. apply Hr in Hk as (i & en & -> & Hi & ->).
    exists i, en. split; [|done]. apply map_lookup_filter_Some. split; [done|].
    apply HP; [by eapply Hw|exact Hb].
Qed.

Lemma decode_from (l : list (bytes * bytes)) es acc : l.*2 = enc <$> es →
  try_fold (λ out kv, let? entry := dec_or (A := Entry) "decode" kv.2 in Ok (out ++ [entry])) acc l =
    Ok (acc ++ es).
Proof.
  revert es acc. induction l as [|kv l IH]; intros [|en es] acc H; simpl in *; try done;
    [by rewrite app_nil_r|].
  injection H as -> H. assert (dec_or (A := Entry) "decode" (enc en) = Ok en) as ->
    by (unfold dec_or; by rewrite dec_enc).
  rewrite (IH es) by done. by rewrite <- app_assoc.
Qed.

Lemma decode_values l es : l.*2 = enc <$> es → decode_all l = Ok es.
Proof. apply decode_from. Qed.

Lemma flat_read k o e : flat_cell k o e →
  match e !! raft_key k with
  | Some b => let? t := dec_or (A := option LogId) "decode" b in Ok (Some t)
  | None => Ok None
  end = Ok (Some o) ∨
  match e !! raft_key k with
  | Some b => let? t := dec_or (A := option LogId) "decode" b in Ok (Some t)
  | None => Ok None
  end = Ok None ∧ o = None.
Proof. intros [->|[-> ->]]; [left|by right]. unfold dec_or. by rewrite dec_enc. Qed.

Lemma flat_get k o e : flat_cell k o e →
  (let? x := get_meta (T := option LogId) k e in Ok (default None x)) = Ok o.
Proof. unfold get_meta. intros [->|[-> ->]]%flat_read; done. Qed.

Lemma log_table_between k : between log_bounds.1 log_bounds.2 k = true ↔ ∃ k', k = ctx_key sid T_LOG k'.
Proof. apply (table_bounds_prefix (keyspace sid) (index sid) T_LOG k). done. Qed.

Lemma represents_truncate e l id :
  represents e l → log_index id < u64_modulus →
  represents (truncate id e) (log_spec (OpTruncate id) l).
Proof.
  intros Hrep Hi.
  change (represents (filter (λ kv, between (log_key (log_index id)) log_bounds.2 kv.1 = false) e)
    (with_entries l (filter (λ x, x.1 < log_index id) (l_entries l)))).
  pose proof (represents_delete e l (log_key (log_index id)) log_bounds.2 (λ i, i < log_index id) Hrep) as Hdel.
  apply Hdel; clear Hdel.
  - intros k (k' & -> & _)%log_tail_between. by exists k'.
  - intros i Hw. rewrite <- not_true_iff_false, log_tail_between. split.
    + intros Hno. destruct (N.lt_ge_cases i (log_index id)); [done|]. destruct Hno. exists (be64 i).
      split; [done|]. rewrite be64_leb by done. by apply N.leb_le.
    + intros Hlt (k' & Hk & Hle). apply ctx_key_inj in Hk as [_ <-]; [|done..].
      rewrite be64_leb in Hle by done. apply N.leb_le in Hle. lia.
Qed.

(** A cell beside the log. *)
Lemma rows_beside e l k b k' v :
  represents e l → <[raft_key k := b]> e !! ctx_key sid T_LOG k' = Some v ↔
    ∃ i en, k' = be64 i ∧ l_entries l !! i = Some en ∧ v = enc en.
Proof.
  intros Hrep. rewrite lookup_insert_ne by (apply not_eq_sym, log_raft_ne). apply (rp_rows _ _ Hrep).
Qed.

Lemma flat_beside e k b k' o : k ≠ k' → flat_cell k' o e → flat_cell k' o (<[raft_key k := b]> e).
Proof. intros Hne H. unfold flat_cell. by rewrite lookup_insert_ne by by apply raft_key_ne. Qed.

Lemma flat_put e k (o : option LogId) : flat_cell k o (<[raft_key k := enc o]> e).
Proof. left. apply lookup_insert_eq. Qed.

Lemma represents_meta e l op :
  represents e l → match op with OpVote _ | OpCommitted _ => True | _ => False end →
  represents (log_exec op e) (log_spec op l).
Proof.
  intros Hrep. pose proof Hrep as [Hr Hw Hp Hc Hv]. destruct op as [| | |v|c]; try done; intros _;
    split; cbn [log_spec log_exec l_entries l_purged l_vote l_committed]; unfold save_vote, save_committed.
  - intros. by apply rows_beside.
  - done.
  - by apply flat_beside.
  - by apply flat_beside.
  - apply lookup_insert_eq.
  - intros. by apply rows_beside.
  - done.
  - by apply flat_beside.
  - apply flat_put.
  - rewrite lookup_insert_ne; [done|]. by apply raft_key_ne.
Qed.

Lemma log_head_between i k :
  i < u64_modulus →
  between log_bounds.1 (log_key i) k = true ↔
  ∃ k', k = ctx_key sid T_LOG k' ∧ String.ltb k' (be64 i) = true.
Proof.
  intros Hi. pose proof (range_bounds_spec sid T_LOG EmptyString (be64 i) k eq_refl) as H.
  assert (Hne : be64 i ≠ EmptyString) by (intros He; pose proof (be64_length i) as Hl; by rewrite He in Hl).
  unfold range_bounds in H. destruct (be64 i) as [|c r] eqn:Hb; [done|]. cbn [fst snd below] in H.
  unfold log_bounds, log_key. rewrite Hb. cbn [table_bounds fst]. unfold ctx_key in *. rewrite H.
  setoid_rewrite sleb_nil. naive_solver.
Qed.

Lemma represents_purge e l id :
  represents e l → log_index id < u64_max →
  represents (purge id e) (log_spec (OpPurge id) l).
Proof.
  intros Hrep Hi.
  assert (Hadd : add64 (log_index id) 1 = log_index id + 1).
  { apply add64_small. unfold u64_max, u64_modulus in *. lia. }
  assert (Hmid : represents (<[raft_key K_LAST_PURGED := enc (Some id)]> e)
    {| l_entries := l_entries l; l_purged := Some id; l_vote := l_vote l; l_committed := l_committed l |}).
  { pose proof Hrep as [Hr Hw Hp Hc Hv]. split; cbn [l_entries l_purged l_vote l_committed].
    - intros. by apply rows_beside.
    - done.
    - apply flat_put.
    - by apply flat_beside.
    - rewrite lookup_insert_ne; [done|]. by apply raft_key_ne. }
  pose proof (represents_delete _ _ log_bounds.1 (log_key (add64 (log_index id) 1)) (λ i, log_index id < i) Hmid) as Hdel.
  change (represents (filter (λ kv, between log_bounds.1 (log_key (add64 (log_index id) 1)) kv.1 = false)
    (<[raft_key K_LAST_PURGED := enc (Some id)]> e)) (log_spec (OpPurge id) l)).
  apply Hdel; clear Hdel.
  - rewrite Hadd. intros k (k' & -> & _)%log_head_between; [by exists k'|]. unfold u64_max, u64_modulus in *. lia.
  - intros i Hw. rewrite Hadd, <- not_true_iff_false, log_head_between by (unfold u64_max, u64_modulus in *; lia).
    assert (Hlt : String.ltb (be64 i) (be64 (log_index id + 1)) = (i <? log_index id + 1)).
    { apply be64_ltb; [done|]. unfold u64_max, u64_modulus in *. lia. }
    split.
    + intros Hno. destruct (N.lt_ge_cases (log_index id) i); [done|]. destruct Hno. exists (be64 i).
      split; [done|]. rewrite Hlt. apply N.ltb_lt. lia.
    + intros Hlt' (k' & Hk & Hle). apply ctx_key_inj in Hk as [_ <-]; [|done..].
      rewrite Hlt in Hle. apply N.ltb_lt in Hle. lia.
Qed.

Lemma represents_step e l op :
  represents e l → in_width op → represents (log_exec op e) (log_spec op l).
Proof.
  intros Hrep Hw. destruct op as [es|id|id|v|c].
  - by apply represents_append.
  - by apply represents_truncate.
  - by apply represents_purge.
  - by apply represents_meta.
  - by apply represents_meta.
Qed.

(** ** What the store leaves alone *)

Lemma delete_frame lo hi (e : engine) k :
  (∀ k, between lo hi k = true → own k) → ¬ own k →
  filter (λ kv : bytes * bytes, between lo hi kv.1 = false) e !! k = e !! k.
Proof.
  intros Hin Hk. destruct (e !! k) as [v|] eqn:Hv.
  - apply map_lookup_filter_Some. split; [done|]. cbn [fst].
    destruct (between lo hi k) eqn:Hb; [|done]. by destruct Hk; apply Hin.
  - apply map_lookup_filter_None. by left.
Qed.

Lemma own_log k : own (ctx_key sid T_LOG k).
Proof. exists T_LOG, k. auto. Qed.

Lemma own_raft k : own (raft_key k).
Proof. exists T_RAFT, k. auto. Qed.

Lemma put_frame (e : engine) k b k' : own k → ¬ own k' → <[k := b]> e !! k' = e !! k'.
Proof. intros Hk Hk'. apply lookup_insert_ne. by intros ->. Qed.

Lemma exec_frame op e k : in_width op → ¬ own k → log_exec op e !! k = e !! k.
Proof.
  intros Hw Hk. destruct op as [es|id|id|v|c]; cbn [log_exec].
  - rewrite append_each. induction es as [|en es IH] using rev_ind; [done|].
    rewrite foldl_app. cbn [foldl]. rewrite put_frame; [|apply own_log|done]. apply IH.
    by apply list.Forall_app in Hw as [? _].
  - change (truncate id e) with (filter (λ kv, between (log_key (log_index id)) log_bounds.2 kv.1 = false) e).
    apply delete_frame; [|done]. intros k' (k'' & -> & _)%log_tail_between. apply own_log.
  - assert (Hadd : add64 (log_index id) 1 < u64_modulus) by apply add64_lt.
    change (purge id e) with (filter (λ kv, between log_bounds.1 (log_key (add64 (log_index id) 1)) kv.1 = false)
      (<[raft_key K_LAST_PURGED := enc (Some id)]> e)).
    rewrite delete_frame; [|intros k' (k'' & -> & _)%log_head_between; [apply own_log|done]|done].
    apply put_frame; [apply own_raft|done].
  - apply put_frame; [apply own_raft|done].
  - apply put_frame; [apply own_raft|done].
Qed.

(** ** Reads of a represented log *)

Lemma log_state_read e l :
  represents e l →
  get_log_state e = Ok {| last_purged_log_id := l_purged l;
    ls_last_log_id := opt_or (log_id <$> list.last (entries_of (l_entries l))) (l_purged l) |}.
Proof.
  intros Hrep. unfold get_log_state.
  assert (Hlast : last_log_id e = Ok (log_id <$> list.last (entries_of (l_entries l)))).
  { unfold last_log_id, last_in_range.
    rewrite (range_entries e l log_bounds.1 log_bounds.2 (λ _, True) Hrep).
    - assert (filter (λ x : N * Entry, True) (l_entries l) = l_entries l) as ->.
      { apply map_eq. intros i. apply option_eq. intros en. rewrite map_lookup_filter_Some. naive_solver. }
      pose proof (f_equal list.last (row_list_values (l_entries l))) as Hv. rewrite !fmap_last in Hv.
      destruct (list.last (row_list _)) as [[k v]|], (list.last (entries_of _)) as [en|]; try done.
      simpl in Hv. injection Hv as ->. unfold dec_or. by rewrite dec_enc.
    - by intros k ?%log_table_between.
    - intros i _. split; [done|]. intros _. apply log_table_between. by exists (be64 i). }
  pose proof (flat_get _ _ _ (rp_purged _ _ Hrep)) as Hp. revert Hp.
  destruct (get_meta K_LAST_PURGED e) as [o|]; [|done]. intros [= <-]. by rewrite Hlast.
Qed.

Definition in_range (lo hi i : N) : Prop := lo ≤ i ∧ (hi = u64_max ∨ i < hi).

#[local] Instance in_range_dec lo hi i : Decision (in_range lo hi i).
Proof. unfold in_range. apply _. Defined.

Lemma entries_read e l lo hi :
  represents e l → start_of lo < u64_modulus → end_of hi < u64_modulus →
  try_get_log_entries lo hi e =
    Ok (entries_of (filter (λ x, in_range (start_of lo) (end_of hi) x.1) (l_entries l))).
Proof.
  intros Hrep Hlo Hhi. unfold try_get_log_entries. apply decode_values.
  rewrite (range_entries e l (log_key (start_of lo)) (end_key (end_of hi))
    (in_range (start_of lo) (end_of hi)) Hrep); [apply row_list_values|..]; unfold end_key, in_range.
  - destruct (end_of hi =? u64_max).
    + intros k (k' & -> & _)%log_tail_between. by exists k'.
    + intros k Hb. unfold log_key in Hb.
      rewrite (ctx_key_prefix sid T_LOG (be64 (start_of lo))), (ctx_key_prefix sid T_LOG (be64 (end_of hi))) in Hb.
      apply between_common_prefix in Hb as [k' ->]. by exists k'.
  - intros i Hi. destruct (N.eqb_spec (end_of hi) u64_max) as [->|Hne].
    + rewrite log_tail_between. split.
      * intros (k' & Hk & Hle). apply ctx_key_inj in Hk as [_ <-]; [|done..].
        rewrite be64_leb in Hle by done. apply N.leb_le in Hle. auto.
      * intros [Hle _]. exists (be64 i). split; [done|]. rewrite be64_leb by done. by apply N.leb_le.
    + unfold log_key. rewrite !(ctx_key_prefix sid T_LOG (be64 _)), between_app. unfold between.
      rewrite be64_leb, be64_ltb, andb_true_iff, N.leb_le, N.ltb_lt by done. naive_solver.
Qed.

(** ** Runs *)

Definition exec_all (ops : list LogOp) (e : engine) : engine := foldl (λ e op, log_exec op e) e ops.
Definition spec_all (ops : list LogOp) (l : Log) : Log := foldl (λ l op, log_spec op l) l ops.

Lemma represents_run ops e l :
  represents e l → Forall in_width ops → represents (exec_all ops e) (spec_all ops l).
Proof.
  unfold exec_all, spec_all. revert e l. induction ops as [|op ops IH]; intros e l Hrep Hw; [done|].
  apply list.Forall_cons in Hw as [Hop Hw]. simpl. apply IH; [by apply represents_step|done].
Qed.

(** C3 (refinement): the log store is a map from indices to entries with a
    vote, a committed and a last purged id.  After any operations it reads as
    that map: the state of the log, the vote, the committed id and any range
    of entries, in the order of their indices; and it leaves every other cell
    of the engine alone. *)
Theorem log_store_refines ops e l :
  represents e l → Forall in_width ops →
  let e' := exec_all ops e in
  let l' := spec_all ops l in
  get_log_state e' = Ok {| last_purged_log_id := l_purged l';
    ls_last_log_id := opt_or (log_id <$> list.last (entries_of (l_entries l'))) (l_purged l') |} ∧
  read_vote e' = Ok (l_vote l') ∧ read_committed e' = Ok (l_committed l') ∧
  (∀ lo hi, start_of lo < u64_modulus → end_of hi < u64_modulus →
    try_get_log_entries lo hi e' =
      Ok (entries_of (filter (λ x, in_range (start_of lo) (end_of hi) x.1) (l_entries l')))) ∧
  ∀ k, ¬ own k → e' !! k = e !! k.
Proof.
  intros Hrep Hw. pose proof (represents_run ops e l Hrep Hw) as Hrep'. cbv zeta.
  split_and!; [by apply log_state_read| | |by intros; apply entries_read|].
  - unfold read_vote, get_meta. rewrite (rp_vote _ _ Hrep'). destruct (l_vote _) as [v|]; [|done].
    simpl. unfold dec_or. by rewrite dec_enc.
  - apply (flat_get _ _ _ (rp_committed _ _ Hrep')).
  - intros k Hk. unfold exec_all. clear Hrep Hrep'. revert e. induction ops as [|op ops IH]; intros e; [done|].
    apply list.Forall_cons in Hw as [Hop Hw]. simpl. rewrite (IH Hw). by apply exec_frame.
Qed.

(** ** No holes *)

Definition upto (s : N) (n : nat) : list N := (λ k, s + N.of_nat k) <$> List.seq 0 n.

Lemma elem_of_upto s n i : i ∈ upto s n ↔ s ≤ i < s + N.of_nat n.
Proof.
  unfold upto. rewrite list_elem_of_fmap. setoid_rewrite elem_of_seq. split.
  - intros (k & -> & ?). lia.
  - intros ?. exists (N.to_nat (i - s)). lia.
Qed.

Lemma upto_sorted s n : StronglySorted N.lt (upto s n).
Proof.
  unfold upto. generalize 0%nat as a. induction n as [|n IH]; intros a; [constructor|]. simpl.
  constructor; [apply IH|]. apply list.Forall_forall. intros i (k & -> & Hk)%list_elem_of_fmap.
  apply elem_of_seq in Hk. lia.
Qed.

Lemma ascending_upto (d : gset N) s n : (∀ i, i ∈ d ↔ s ≤ i < s + N.of_nat n) → ascending d = upto s n.
Proof.
  intros Hd. apply (StronglySorted_unique_strong N.lt); [intros; lia|apply ascending_sorted|apply upto_sorted|].
  apply NoDup_Permutation; [apply ascending_nodup| |].
  - pose proof (upto_sorted s n) as Hs. clear Hd. induction Hs as [|i l Hs IH Hi]; [constructor|].
    constructor; [|done]. intros Hin. rewrite list.Forall_forall in Hi. specialize (Hi i Hin). lia.
  - intros i. by rewrite elem_of_ascending, elem_of_upto, Hd.
Qed.

Definition first_index (l : Log) : N :=
  match l_purged l with Some id => log_index id + 1 | None => 0 end.

(** The log holds the entries from the first index up to [hi]. *)
Record gapless (l : Log) (hi : N) : Prop := {
  gl_first : first_index l ≤ hi;
  gl_dom i : is_Some (l_entries l !! i) ↔ first_index l ≤ i < hi;
  gl_index i en : l_entries l !! i = Some en → log_index (log_id en) = i;
}.

(** How Raft uses its log: it appends at the end, truncates what it holds,
    purges forward, beyond the end when a snapshot was installed. *)
Inductive raft_use (l : Log) (hi : N) : LogOp → N → Prop :=
  | use_append es :
      log_index ∘ log_id <$> es = upto hi (length es) →
      raft_use l hi (OpAppend es) (hi + N.of_nat (length es))
  | use_truncate id :
      first_index l ≤ log_index id ≤ hi → raft_use l hi (OpTruncate id) (log_index id)
  | use_purge id :
      first_index l ≤ log_index id + 1 → raft_use l hi (OpPurge id) (N.max hi (log_index id + 1))
  | use_vote v : raft_use l hi (OpVote v) hi
  | use_committed c : raft_use l hi (OpCommitted c) hi.

Inductive raft_uses : Log → N → list LogOp → N → Prop :=
  | uses_nil l hi : raft_uses l hi [] hi
  | uses_cons l hi op hi1 ops hi' :
      raft_use l hi op hi1 → raft_uses (log_spec op l) hi1 ops hi' → raft_uses l hi (op :: ops) hi'.

Lemma upto_snoc s n : upto s (S n) = upto s n ++ [s + N.of_nat n].
Proof. unfold upto. by rewrite List.seq_S, fmap_app. Qed.

Lemma gapless_append l hi es :
  gapless l hi → log_index ∘ log_id <$> es = upto hi (length es) →
  gapless (log_spec (OpAppend es) l) (hi + N.of_nat (length es)).
Proof.
  intros Hg. induction es as [|en es IH] using rev_ind; intros He.
  { simpl. rewrite N.add_0_r. by destruct l. }
  rewrite length_app, Nat.add_comm in *. simpl length in *. rewrite fmap_app in He. cbn [Nat.add] in *.
  rewrite upto_snoc in He. apply app_inj_tail in He as [He Hen]. simpl in Hen.
  specialize (IH He). cbn [log_spec] in *. rewrite foldl_app. cbn [foldl].
  set (m := foldl put_entry_at (l_entries l) es) in *.
  destruct IH as [Hf Hd Hi]. unfold first_index in *. cbn [with_entries l_entries l_purged] in *.
  split; unfold first_index; cbn [with_entries l_entries l_purged]; [lia|..]; unfold put_entry_at; rewrite Hen.
  - intros i. destruct (decide (i = hi + N.of_nat (length es))) as [->|Hne].
    + rewrite lookup_insert_eq. split; [intros _; lia|by eexists].
    + rewrite lookup_insert_ne by done. rewrite Hd. lia.
  - intros i en' [[<- <-]|[_ ?]]%lookup_insert_Some; [done|by apply Hi].
Qed.

Lemma gapless_filter l hi (P : N → Prop) `{!∀ i, Decision (P i)} p lo' hi' :
  gapless l hi → lo' ≤ hi' →
  match p with Some id => log_index id + 1 | None => 0 end = lo' →
  (∀ i, lo' ≤ i < hi' ↔ first_index l ≤ i < hi ∧ P i) →
  gapless {| l_entries := filter (λ x, P x.1) (l_entries l); l_purged := p;
             l_vote := l_vote l; l_committed := l_committed l |} hi'.
Proof.
  intros [Hf Hd Hi] Hle Hp HP. split; unfold first_index; cbn [l_entries l_purged].
  - by rewrite Hp.
  - intros i. rewrite Hp, HP, <- Hd. split.
    + intros [en [Hen HPi]%map_lookup_filter_Some]. split; [by eexists|done].
    + intros [[en Hen] HPi]. exists en. by apply map_lookup_filter_Some.
  - intros i en [Hen _]%map_lookup_filter_Some. by apply Hi.
Qed.

Lemma gapless_step l hi op hi' :
  gapless l hi → raft_use l hi op hi' → gapless (log_spec op l) hi'.
Proof.
  intros Hg Hu. destruct Hu as [es He|id Hid|id Hid|v|c].
  - by apply gapless_append.
  - assert (Hf : gapless {| l_entries := filter (λ x, x.1 < log_index id) (l_entries l);
      l_purged := l_purged l; l_vote := l_vote l; l_committed := l_committed l |} (log_index id)); [|done].
    pose proof (gapless_filter l hi (λ i, i < log_index id) (l_purged l) (first_index l) (log_index id) Hg) as H.
    apply H; [lia|done|]. intros i. lia.
  - pose proof (gapless_filter l hi (λ i, log_index id < i) (Some id) (log_index id + 1)
      (N.max hi (log_index id + 1)) Hg) as H.
    apply H; [lia|done|]. intros i. lia.
  - destruct Hg. by split.
  - destruct Hg. by split.
Qed.

Lemma uses_gapless l hi ops hi' :
  gapless l hi → raft_uses l hi ops hi' → gapless (spec_all ops l) hi'.
Proof.
  intros Hg Hu. induction Hu as [|l hi op hi1 ops hi' Hop _ IH]; [done|].
  apply IH. by eapply gapless_step.
Qed.

Lemma indices_of (m : gmap N Entry) s n :
  (∀ i en, m !! i = Some en → log_index (log_id en) = i) →
  (∀ i, is_Some (m !! i) ↔ s ≤ i < s + N.of_nat n) →
  log_index ∘ log_id <$> entries_of m = upto s n.
Proof.
  intros Hi Hd. rewrite <- (ascending_upto (dom m) s n) by (intros i; by rewrite elem_of_dom).
  unfold entries_of. assert (Hin : ∀ i, i ∈ ascending (dom m) → is_Some (m !! i)).
  { intros i. by rewrite elem_of_ascending, elem_of_dom. }
  induction (ascending (dom m)) as [|i l IH]; [done|]. simpl.
  destruct (Hin i) as [en Hen]; [by left|]. rewrite Hen. simpl. rewrite (Hi _ _ Hen). f_equal.
  apply IH. intros. apply Hin. by right.
Qed.

(** Used as Raft uses it, the log never has a hole: any range
    past what was purged and before the end reads as the entries of all its
    indices, in order, and the log's last id is that of the index before the
    end, also when everything was purged. *)
Theorem log_has_no_holes ops e l hi hi' s t :
  represents e l → gapless l hi → Forall in_width ops → raft_uses l hi ops hi' → hi' ≤ u64_max →
  first_index (spec_all ops l) ≤ s → s ≤ t → t ≤ hi' →
  (∃ es, try_get_log_entries (Included s) (Excluded t) (exec_all ops e) = Ok es ∧
    log_index ∘ log_id <$> es = upto s (N.to_nat (t - s))) ∧
  ∃ st, get_log_state (exec_all ops e) = Ok st ∧
    match ls_last_log_id st with
    | Some id => log_index id + 1 = hi'
    | None => hi' = 0
    end.
Proof.
  intros Hrep Hg Hw Hu Hmax Hs Hst Ht. pose proof (represents_run ops e l Hrep Hw) as Hrep'.
  pose proof (uses_gapless _ _ _ _ Hg Hu) as [Hf Hd Hi]. set (l' := spec_all ops l) in *.
  assert (HM : u64_max < u64_modulus) by done. split.
  - eexists. split; [apply entries_read; [done|simpl; lia..]|]. cbn [start_of end_of]. apply indices_of.
    + intros i en [Hen _]%map_lookup_filter_Some. by apply Hi.
    + intros i. rewrite N2Nat.id. split.
      * intros [en [Hen [Hlo Hup]]%map_lookup_filter_Some]. cbn [fst] in *.
        assert (first_index l' ≤ i < hi') by (apply Hd; by eexists). destruct Hup; lia.
      * intros Hin. destruct (proj2 (Hd i)) as [en Hen]; [lia|]. exists en.
        apply map_lookup_filter_Some. split; [done|]. split; cbn [fst]; [lia|right; lia].
  - eexists. split; [by apply log_state_read|]. cbn [ls_last_log_id].
    assert (Hidx := indices_of (l_entries l') (first_index l') (N.to_nat (hi' - first_index l')) Hi).
    rewrite N2Nat.id in Hidx. specialize (Hidx ltac:(intros i; rewrite Hd; lia)).
    apply (f_equal list.last) in Hidx. rewrite fmap_last in Hidx.
    destruct (list.last (entries_of _)) as [en|] eqn:Hlast; simpl in *.
    + destruct (N.to_nat (hi' - first_index l')) as [|n] eqn:Hn; [done|].
      rewrite upto_snoc, last_snoc in Hidx. injection Hidx as Hidx. lia.
    + destruct (N.to_nat (hi' - first_index l')) as [|n] eqn:Hn; [|by rewrite upto_snoc, last_snoc in Hidx].
      unfold first_index in *. destruct (l_purged l'); lia.
Qed.

(** Before the shard is first used. *)
Definition empty_log : Log :=
  {| l_entries := ∅; l_purged := None; l_vote := None; l_committed := None |}.

Lemma empty_represents : represents ∅ empty_log.
Proof.
  split; cbn; try (intros; rewrite ?lookup_empty; done); try (right; by rewrite lookup_empty).
  intros k v. rewrite lookup_empty. split; [done|]. intros (? & ? & _ & H & _). by rewrite lookup_empty in H.
Qed.

Lemma empty_gapless : gapless empty_log 0.
Proof.
  split; cbn; [lia| |intros ? ?; by rewrite lookup_empty].
  intros i. rewrite lookup_empty. split; [by intros [? ?]|lia].
Qed.
End Store.

(** ** Witnesses *)

From S2P Require Import Demo.

#[local] Instance codec_entry : Codec (@Entry demo_raft).
Proof.
  refine (codec_iso (codec_pair codec_nat (codec_unit ++ (codec_string ++ codec_list codec_nat)))%codec
    (λ en, (log_id en, match payload en with
       Blank => inl () | Normal c => inr (inl c) | MembershipEntry m => inr (inr m) end))
    (λ x, {| log_id := (x.1 : @LogId demo_raft); payload := match x.2 with
       inl _ => Blank | inr (inl c) => Normal c | inr (inr m) => MembershipEntry m end |}) _).
  abstract (by intros [i [|c|m]]).
Defined.

Definition demo_index (id : @LogId demo_raft) : N := id.

Definition demo_entry (i : N) : @Entry demo_raft := {| log_id := (i : @LogId demo_raft); payload := Blank |}.

(** Three entries, the last replaced, the first purged. *)
Definition demo_ops : list (LogOp (Vote := N)) :=
  [OpVote 7; OpAppend [demo_entry 0; demo_entry 1; demo_entry 2]; OpTruncate (2 : @LogId demo_raft);
   OpAppend [demo_entry 2; demo_entry 3]; OpCommitted (Some (2 : @LogId demo_raft));
   OpPurge (0 : @LogId demo_raft)].

Lemma demo_in_width : Forall (in_width demo_index) demo_ops.
Proof. repeat constructor. Qed.

Lemma log_store_refines_witness :
  let e' := exec_all demo_index METADATA demo_ops ∅ in
  read_vote METADATA e' = Ok (Some 7) ∧
  get_log_state METADATA e' = Ok {| last_purged_log_id := Some (0 : @LogId demo_raft);
    ls_last_log_id := Some (3 : @LogId demo_raft) |}.
Proof.
  destruct (log_store_refines demo_index METADATA demo_ops ∅ empty_log (empty_represents METADATA)
    demo_in_width) as (Hst & Hvote & _).
  cbv zeta in Hst, Hvote. split; [rewrite Hvote|rewrite Hst]; vm_compute; reflexivity.
Defined.

Lemma demo_uses : raft_uses demo_index empty_log 0 demo_ops 4.
Proof.
  eapply uses_cons; [apply use_vote|].
  eapply uses_cons; [apply use_append; reflexivity|].
  eapply uses_cons; [apply use_truncate; vm_compute; split; discriminate|].
  eapply uses_cons; [apply use_append; reflexivity|].
  eapply uses_cons; [apply use_committed|].
  eapply uses_cons; [apply use_purge; vm_compute; discriminate|]. apply uses_nil.
Qed.

Lemma log_has_no_holes_witness :
  ∃ es, try_get_log_entries METADATA (Included 1) (Excluded 4) (exec_all demo_index METADATA demo_ops ∅) = Ok es ∧
    demo_index ∘ log_id <$> es = [1; 2; 3].
Proof.
  destruct (log_has_no_holes demo_index METADATA demo_ops ∅ empty_log 0 4 1 4 (empty_represents METADATA)
    (empty_gapless demo_index) demo_in_width demo_uses) as [(es & Hes & Hi) _];
    [vm_compute; discriminate..|].
  exists es. split; [exact Hes|]. rewrite Hi. reflexivity.
Defined.
