(* ===== verification/ShardSpec.v ===== *)
(** * What the shard runtime promises

    Batch independence of the replicated state machine, snapshot transfer,
    and the migration protocol (saltator-shard/src/storage.rs). *)

From Stdlib Require Import Ascii.
From stdpp Require Import pretty.
From S2P Require Import Prelude Bytes Store Codec Shard ShardFacts Demo.
From stdpp Require Import options.

(** Every key in the engine was laid out by [key] (store/src/lib.rs). *)
Definition keys_wf (e : engine) : Prop :=
  ∀ k v, e !! k = Some v →
    ∃ ks sh t k', (sh < 65536)%N ∧ (t < 256)%N ∧ k = key ks sh t k'.

Lemma write_puts l e k :
  NoDup l.*1 →
  write_batch (map (λ kv, Put kv.1 kv.2) l) e !! k =
    match (list_to_map l : gmap bytes bytes) !! k with Some v => Some v | None => e !! k end.
Proof.
  revert e. induction l as [|[k' v] l IH]; intros e Hnd; simpl.
  { by rewrite lookup_empty. }
  apply list.NoDup_cons in Hnd as [Hni Hnd]. unfold write_batch in *. simpl.
  rewrite IH by done. destruct (decide (k' = k)) as [->|Hk]; simplify_map_eq; [|done].
  by rewrite (not_elem_of_list_to_map_1 _ _ Hni).
Qed.

Section Spec.
Context `{HR : Raft}.
Context `{!Codec (option LogId), !Codec StoredMembership, !Codec N}.
Context `{!Codec RuntimeCommand, !Codec RuntimeResponse}.
Context `{!Codec SnapshotContent, !Codec StoredSnapshot}.
Context (sid : ShardId).

Lemma app_bounds_spec ks sh t k :
  (index sid < 65536)%N → (sh < 65536)%N → (t < 256)%N →
  between (app_bounds sid).1 (app_bounds sid).2 (key ks sh t k) = true ↔
  ks = keyspace sid ∧ sh = index sid ∧ (8 ≤ t)%N.
Proof.
  intros Hi Hsh Ht.
  pose proof (shard_bounds_spec (keyspace sid) (index sid) ks sh t k Hi Hsh Ht) as Hsb.
  unfold between in *. rewrite andb_true_iff, sleb_iff, sltb_iff in Hsb |- *.
  unfold app_bounds, ctx_key. cbn [fst snd].
  rewrite key_compare by done.
  assert (ks = keyspace sid → sh = index sid →
    String.compare (shard_bounds (keyspace sid) (index sid)).1 (key ks sh t k) ≠ Gt) as Hlo.
  { intros -> ->. by apply Hsb. }
  split.
  - intros [Ha Hb].
    assert (ks = keyspace sid ∧ sh = index sid) as [-> ->].
    { apply Hsb. split; [|done]. rewrite key_split. unfold shard_bounds; cbn [fst].
      change (String (byte_of (keyspace_u8 (keyspace sid))) (be16 (index sid)))
        with (str1 (byte_of (keyspace_u8 (keyspace sid))) +:+ be16 (index sid)).
      rewrite <- (str_app_nil_r (be16 (index sid))).
      rewrite scompare_app_len, str1_compare by auto using keyspace_u8_lt.
      destruct (N.compare _ _); [|done..].
      rewrite scompare_app_len, be16_compare by done.
      destruct (N.compare _ _); done. }
    rewrite !N.compare_refl in Ha. split; [done|]. split; [done|].
    destruct (N.compare_spec APP_TABLE_MIN t); unfold APP_TABLE_MIN in *; [lia|lia|done].
  - intros (-> & -> & Ht8). rewrite !N.compare_refl. split; [|by apply Hsb].
    destruct (N.compare_spec APP_TABLE_MIN t); unfold APP_TABLE_MIN in *; [by destruct k|done|lia].
Qed.

Lemma storage_prefix_key t k :
  ctx_key sid t k = storage_prefix sid +:+ str_drop 3 (ctx_key sid t k).
Proof. done. Qed.

Lemma storage_prefix_strip e :
  (index sid < 65536)%N → keys_wf e →
  map (λ kv, Put (storage_prefix sid +:+ kv.1) kv.2)
    (strip 3 (kv_range (app_bounds sid).1 (app_bounds sid).2 e)) =
  map (λ kv, Put kv.1 kv.2) (kv_range (app_bounds sid).1 (app_bounds sid).2 e).
Proof.
  intros Hi Hwf. unfold strip. rewrite map_map. apply map_ext_in. intros [k v] Hin.
  apply list_elem_of_In, elem_of_kv_range in Hin as [Hk Hb].
  destruct (Hwf k v Hk) as (ks & sh & t & k' & Hsh & Ht & ->).
  apply app_bounds_spec in Hb as (-> & -> & _); [|done..]. done.
Qed.

(** Every operation of the install batch, read back. *)
Lemma lookup_install meta data c e k :
  write_batch (install_batch sid meta data c) e !! k =
    if decide (k = sm_meta_key sid K_SNAPSHOT) then
      Some (enc {| ss_meta := meta; ss_data := data |})
    else if decide (k = sm_meta_key sid K_MEMBERSHIP) then
      Some (enc (last_membership meta))
    else if decide (k = sm_meta_key sid K_LAST_APPLIED) then Some (enc (last_log_id meta))
    else if decide (k = sm_meta_key sid K_SEQ) then Some (enc (sc_seq c))
    else write_batch (map (λ kv, Put (storage_prefix sid +:+ kv.1) kv.2) (sc_kv c))
           (apply_op e (DeleteRange (app_bounds sid).1 (app_bounds sid).2)) !! k.
Proof.
  unfold install_batch. rewrite !write_batch_app. simpl.
  rewrite !lookup_insert. repeat case_decide; congruence.
Qed.

Lemma lookup_range_map lo hi (e : engine) k :
  (list_to_map (kv_range lo hi e) : gmap bytes bytes) !! k =
    if between lo hi k then e !! k else None.
Proof.
  apply option_eq. intros v.
  rewrite <- elem_of_list_to_map, elem_of_kv_range by apply kv_range_NoDup_keys.
  destruct (between lo hi k); naive_solver.
Qed.

Lemma build_snapshot_inv e meta data e' :
  build_snapshot sid e = Ok (meta, data, e') →
  ∃ c, data = enc c ∧ last_applied sid e = Ok (last_log_id meta) ∧
    membership sid e = Ok (last_membership meta) ∧ sm_seq sid e = Ok (sc_seq c) ∧
    sc_kv c = strip 3 (kv_range (app_bounds sid).1 (app_bounds sid).2 e).
Proof.
  unfold build_snapshot. destruct (last_applied sid e) as [la|]; [|done].
  destruct (membership sid e) as [ms|]; [|done]. destruct (sm_seq sid e) as [n|]; [|done].
  destruct (next_snapshot_seq sid e) as [[ss e1]|]; [|done].
  intros [= <- <- <-]. by eexists.
Qed.

(** The cells of an engine after a snapshot was installed on it. *)
Lemma lookup_installed e0 c meta data e k :
  (index sid < 65536)%N → keys_wf e0 →
  sc_kv c = strip 3 (kv_range (app_bounds sid).1 (app_bounds sid).2 e0) →
  write_batch (install_batch sid meta data c) e !! k =
    if decide (k = sm_meta_key sid K_SNAPSHOT) then
      Some (enc {| ss_meta := meta; ss_data := data |})
    else if decide (k = sm_meta_key sid K_MEMBERSHIP) then
      Some (enc (last_membership meta))
    else if decide (k = sm_meta_key sid K_LAST_APPLIED) then Some (enc (last_log_id meta))
    else if decide (k = sm_meta_key sid K_SEQ) then Some (enc (sc_seq c))
    else if between (app_bounds sid).1 (app_bounds sid).2 k then e0 !! k else e !! k.
Proof.
  intros Hi Hwf Hc. rewrite lookup_install, Hc, storage_prefix_strip by done.
  rewrite write_puts by apply kv_range_NoDup_keys. rewrite lookup_range_map.
  simpl. rewrite map_lookup_filter.
  do 4 (case_decide; [done|]).
  destruct (between _ _ k) eqn:Hb.
  - destruct (e0 !! k); [done|].
    destruct (e !! k); simpl; [|done]. by rewrite Hb.
  - destruct (e !! k); simpl; [|done]. by rewrite Hb.
Qed.

Lemma get_sm_meta_enc {T} `{!Codec T} k (e : engine) (a : T) :
  e !! sm_meta_key sid k = Some (enc a) → get_sm_meta sid k e = Ok (Some a).
Proof. intros He. unfold get_sm_meta. by rewrite He, dec_or_enc. Qed.

Lemma sm_meta_key_not_app k :
  (index sid < 65536)%N →
  between (app_bounds sid).1 (app_bounds sid).2 (sm_meta_key sid k) = false.
Proof.
  intros Hi. apply not_true_is_false. unfold sm_meta_key, ctx_key.
  rewrite app_bounds_spec by done. unfold T_SM_META. lia.
Qed.

(** Decides which runtime cell a key is. *)
Ltac cell :=
  repeat first
    [ rewrite decide_True by done
    | rewrite decide_False by (by intros ?%sm_meta_key_inj) ];
  reflexivity.

(** C2 (saltator-shard/src/storage.rs, [build_snapshot] then
    [install_snapshot] on another replica): the install never fails, the
    receiver ends with exactly the sender's app tables, log position,
    membership and sequence counter, serves the same snapshot, and keeps its
    own log and every cell of every other shard. *)
Theorem snapshot_transfer e meta data e' e2 :
  (index sid < 65536)%N → keys_wf e →
  build_snapshot sid e = Ok (meta, data, e') →
  ∃ e3, install_snapshot sid meta data e2 = Ok e3 ∧
    (∀ t k, (8 ≤ t < 256)%N → e3 !! ctx_key sid t k = e !! ctx_key sid t k) ∧
    last_applied sid e3 = last_applied sid e ∧
    membership sid e3 = membership sid e ∧
    sm_seq sid e3 = sm_seq sid e ∧
    get_current_snapshot sid e3 = Ok (Some (meta, data)) ∧
    (∀ t k, (t < 8)%N → t ≠ T_SM_META → e3 !! ctx_key sid t k = e2 !! ctx_key sid t k) ∧
    (∀ ks sh t k, (sh < 65536)%N → (t < 256)%N → (ks, sh) ≠ (keyspace sid, index sid) →
      e3 !! key ks sh t k = e2 !! key ks sh t k).
Proof.
  intros Hi Hwf (c & -> & Hla & Hms & Hseq & Hkv)%build_snapshot_inv.
  unfold install_snapshot. rewrite dec_or_enc. eexists. split; [done|].
  pose proof (λ k, lookup_installed e c meta (enc c) e2 k Hi Hwf Hkv) as Hl.
  assert (∀ t k k', (t < 256)%N → t ≠ T_SM_META → ctx_key sid t k ≠ sm_meta_key sid k') as Hne.
  { intros t k k' Ht Ht2 [? ?]%ctx_key_inj; done. }
  rewrite Hla, Hms, Hseq. split_and!.
  - intros t k Ht. rewrite Hl.
    rewrite !decide_False by (apply Hne; unfold T_SM_META; lia).
    assert (between (app_bounds sid).1 (app_bounds sid).2 (ctx_key sid t k) = true) as ->; [|done].
    apply app_bounds_spec; [done|done|lia|]. split; [done|]. split; [done|lia].
  - unfold last_applied. erewrite get_sm_meta_enc; [done|]. rewrite Hl. cell.
  - unfold membership. erewrite get_sm_meta_enc; [done|]. rewrite Hl. cell.
  - unfold sm_seq. erewrite get_sm_meta_enc; [done|]. rewrite Hl. cell.
  - unfold get_current_snapshot.
    rewrite (get_sm_meta_enc _ _ {| ss_meta := meta; ss_data := enc c |}); [done|].
    rewrite Hl. cell.
  - intros t k Ht Ht2. rewrite Hl. rewrite !decide_False by (apply Hne; [lia|done]).
    assert (between (app_bounds sid).1 (app_bounds sid).2 (ctx_key sid t k) = false) as ->; [|done].
    apply not_true_is_false. intros Hb%app_bounds_spec; [|done|done|lia]. lia.
  - intros ks sh t k Hsh Ht Hn. rewrite Hl.
    rewrite !decide_False by (intros (? & ? & _)%key_inj; [congruence|done..]).
    assert (between (app_bounds sid).1 (app_bounds sid).2 (key ks sh t k) = false) as ->; [|done].
    apply not_true_is_false. intros (? & ? & ?)%app_bounds_spec; [congruence|done..].
Qed.

Lemma coherent_untouched A l e seq0 rs c :
  (∀ en, en ∈ l → coherent (apply_entry sid A en)) →
  apply_entries sid A l (apply_env sid e) (apply_init seq0) = Ok (rs, c) →
  ∀ k, runtime_cell sid k → staged k (wb c) = None.
Proof.
  intros Hl Hrun k Hk.
  pose proof (coherent_entries sid A l Hl _ _ _ _ _ (ctx_rel_init sid seq0 e)) as Hc.
  rewrite Hrun in Hc. destruct Hc as [_ Hc]. by apply (cr_cells _ _ _ _ _ Hc).
Qed.

(** A batch over [l1 ++ l2], taken apart. *)
Lemma sm_apply_split A l1 l2 e e' rs pub :
  (∀ en, en ∈ l1 ++ l2 → coherent (apply_entry sid A en)) →
  sm_apply sid A (l1 ++ l2) e = Ok (e', rs, pub) →
  ∃ e1 rs1 pub1 e2 rs2 pub2,
    sm_apply sid A l1 e = Ok (e1, rs1, pub1) ∧
    sm_apply sid A l2 e1 = Ok (e2, rs2, pub2) ∧
    rs = rs1 ++ rs2 ∧ pub = pub1 ++ pub2 ∧ engine_equiv sid e' e2.
Proof.
  intros Hco. unfold sm_apply at 1.
  destruct (sm_seq sid e) as [seq0|] eqn:Hseq; [|done]. rewrite apply_entries_app.
  destruct (apply_entries sid A l1 _ _) as [[rs1 c1]|] eqn:H1; [|done].
  destruct (apply_entries sid A l2 _ c1) as [[rs2 c2]|] eqn:H2; [|done].
  intros [= <- <- <-].
  assert (∀ k, runtime_cell sid k → staged k (wb c1) = None) as Hu1.
  { eapply coherent_untouched; [|done]. intros. apply Hco. rewrite elem_of_app. by left. }
  assert (∀ k, runtime_cell sid k → staged k (wb c2) = None) as Hu2.
  { eapply (coherent_untouched A (l1 ++ l2)); [done|]. by rewrite apply_entries_app, H1, H2. }
  set (e1 := write_batch (finish_batch sid l1 seq0 c1) e).
  assert (sm_seq sid e1 = Ok (seq c1)) as Hs1.
  { apply sm_seq_finish; [done|]. apply Hu1. by right. }
  pose proof (ctx_rel_finish sid l1 seq0 c1 e _ Hu1 eq_refl) as Hrel.
  apply (coherent_entries sid A l2) in Hrel; [|intros; apply Hco; rewrite elem_of_app; by right].
  fold e1 in Hrel. rewrite H2 in Hrel.
  destruct (apply_entries sid A l2 (apply_env sid e1) (apply_init (seq c1)))
    as [[rs2' c2']|] eqn:H2'; [|done].
  destruct Hrel as [-> [Hsh Hsq Hem Hv Hc]]. simpl in *.
  exists e1, rs1, (emits c1), (write_batch (finish_batch sid l2 (seq c1) c2') e1), rs2', (emits c2').
  unfold sm_apply. rewrite Hseq, H1, Hs1, H2'.
  split_and!; [done..|]. split.
  { rewrite sm_seq_finish by (done || by apply Hu2; right).
    rewrite sm_seq_finish; [by rewrite Hsq|done|]. apply Hc. by right. }
  intros k Hk. rewrite !lookup_finish_batch.
  rewrite (decide_False (P := k = _ ∧ seq c2 ≠ _)) by (by intros [? _]).
  rewrite (decide_False (P := k = _ ∧ seq c2' ≠ _)) by (by intros [? _]).
  destruct (decide (k = sm_meta_key sid K_LAST_APPLIED)) as [->|Hk'].
  - destruct l2 as [|en l2].
    + unfold apply_entries in H2, H2'; simpl in H2, H2'.
      unfold mret, app_ret in H2, H2'. simplify_eq.
      rewrite app_nil_r, (decide_False (P := _ ∧ [] ≠ [])) by (by intros []).
      simpl. unfold e1. rewrite lookup_finish_batch.
      by rewrite (decide_False (P := _ ∧ seq c2 ≠ seq0)) by (by intros [? _]).
    + rewrite !decide_True by first [by destruct l1|done].
      by rewrite (last_app_cons l1).
  - rewrite !decide_False by (by intros [? _]).
    rewrite <- !overlay_write_batch. apply Hv. by intros [?|?].
Qed.

(** C1 (storage.rs, [RaftStateMachine::apply]): for commands that read
    through [ApplyCtx::get] only, the grouping of committed entries into
    batches is invisible.  One call over [l1 ++ l2] returns the responses and
    publishes the change records of a call over [l1] followed by one over
    [l2], and leaves the same replicated state. *)
Theorem apply_batching A l1 l2 e e' rs pub :
  (∀ en, en ∈ l1 ++ l2 → coherent (apply_entry sid A en)) →
  sm_apply sid A (l1 ++ l2) e = Ok (e', rs, pub) →
  ∃ e1 rs1 pub1 e2 rs2 pub2,
    sm_apply sid A l1 e = Ok (e1, rs1, pub1) ∧
    sm_apply sid A l2 e1 = Ok (e2, rs2, pub2) ∧
    rs = rs1 ++ rs2 ∧ pub = pub1 ++ pub2 ∧ engine_equiv sid e' e2.
Proof. apply sm_apply_split. Qed.

(** A migration entry moves the stored
    schema version from [cur] to [cur + 1], at 32 bits, when this binary knows the target,
    running the app's step in the same batch; any other target is rejected
    and changes nothing but the log position.  Only the app's own step can
    fail, and only when it was due. *)
Theorem migrate_step A id to cur s e :
  stored_schema_version sid e = Ok cur → sm_seq sid e = Ok s →
  match sm_apply sid A
    [{| log_id := id; payload := Normal (String RUNTIME_CMD_PREFIX (enc (Migrate to))) |}] e with
  | Ok (e', rs, pub) =>
      (to = add32 cur 1 ∧ to ≤ app_schema_version A ∧ rs = [enc RuntimeOk] ∧
        stored_schema_version sid e' = Ok to)%N
      ∨ ((to ≠ add32 cur 1 ∨ app_schema_version A < to)%N ∧
        (∃ reason, rs = [enc (RuntimeRejected reason)]) ∧ pub = [] ∧
        e' = <[sm_meta_key sid K_LAST_APPLIED := enc (Some id)]> e)
  | Err _ => (to = add32 cur 1 ∧ to ≤ app_schema_version A)%N
  end.
Proof.
  intros Hcur Hs. unfold sm_apply. rewrite Hs, apply_entries_one.
  unfold apply_entry; cbn [payload]. rewrite bool_decide_true by done.
  unfold apply_runtime. rewrite dec_enc.
  unfold mbind, app_bind, ctx_get, overlay; simpl.
  unfold stored_schema_version in Hcur.
  set (cc := match _ with Some b => lift _ | None => _ end).
  assert (cc (apply_env sid e) (apply_init s) = Ok (cur, apply_init s)) as ->.
  { unfold cc. destruct (e !! _) as [b|]; [|by injection Hcur as ->].
    unfold lift. by rewrite Hcur. }
  destruct (N.eqb_spec to (add32 cur 1)) as [->|Hto]; simpl.
  2: { right. split; [by left|]. split; [by eexists|]. split; [done|].
    unfold finish_batch; simpl. by rewrite N.eqb_refl. }
  destruct (N.ltb_spec (app_schema_version A) (add32 cur 1)) as [Hlt|Hle]; simpl.
  { right. split; [by right|]. split; [by eexists|]. split; [done|].
    unfold finish_batch; simpl. by rewrite N.eqb_refl. }
  destruct (app_migrate A (add32 cur 1) _ _) as [[[] c']|]; [|done]. simpl.
  left. split_and!; [done..|].
  unfold stored_schema_version. rewrite lookup_finish_batch. unfold sm_meta_key.
  rewrite !decide_False by (by intros [?%key_inj_key _]).
  unfold wb_put, with_wb; simpl. rewrite write_batch_snoc; simpl.
  by rewrite lookup_insert_eq, dec_or_enc.
Qed.
End Spec.

(** ** Witnesses *)

Lemma apply_batching_witness :
  ∃ e1 rs1 pub1 e2 rs2 pub2,
    sm_apply demo_shard kv_app [demo_entry 1 "a"] ∅ = Ok (e1, rs1, pub1) ∧
    sm_apply demo_shard kv_app [demo_entry 2 "a"] e1 = Ok (e2, rs2, pub2) ∧
    ["new"; "old"]%string = rs1 ++ rs2 ∧
    [(1%N, "a"%string); (2%N, "a"%string)] = pub1 ++ pub2.
Proof.
  assert (match sm_apply demo_shard kv_app ([demo_entry 1 "a"] ++ [demo_entry 2 "a"]) ∅ with
          | Ok (_, rs, pub) =>
              rs = ["new"; "old"]%string ∧ pub = [(1%N, "a"%string); (2%N, "a"%string)]
          | Err _ => False
          end) as Hres by (vm_compute; by split).
  destruct (sm_apply demo_shard kv_app ([demo_entry 1 "a"] ++ [demo_entry 2 "a"]) ∅)
    as [[[e' rs] pub]|] eqn:Hrun; [|by destruct Hres].
  destruct Hres as [-> ->].
  destruct (apply_batching demo_shard kv_app _ _ _ _ _ _
    (λ en _, coherent_entry demo_shard kv_app en) Hrun)
    as (e1 & rs1 & pub1 & e2 & rs2 & pub2 & H1 & H2 & H3 & H4 & _).
  exists e1, rs1, pub1, e2, rs2, pub2.
  split; [exact H1|]. split; [exact H2|]. split; [exact H3|exact H4].
Defined.

Definition demo_engine : engine :=
  {[ ctx_key demo_shard 9 "a" := "x"%string; sm_meta_key demo_shard K_SEQ := enc 5%N ]}.

Lemma demo_engine_wf : keys_wf demo_engine.
Proof.
  intros k v Hk. unfold demo_engine in Hk.
  apply lookup_insert_Some in Hk as [[<- _]|[_ [<- _]%lookup_singleton_Some]].
  - by exists Room, 7%N, 9%N, "a"%string.
  - by exists Room, 7%N, 2%N, "seq"%string.
Qed.

Lemma snapshot_transfer_witness :
  ∃ meta data e' e3,
    build_snapshot demo_shard demo_engine = Ok (meta, data, e') ∧
    install_snapshot demo_shard meta data ∅ = Ok e3 ∧
    e3 !! ctx_key demo_shard 9 "a" = Some "x"%string ∧ sm_seq demo_shard e3 = Ok 5%N.
Proof.
  assert (is_ok (build_snapshot demo_shard demo_engine) = true) as Hok
    by (vm_compute; reflexivity).
  destruct (build_snapshot demo_shard demo_engine) as [[[meta data] e']|] eqn:Hb; [|done].
  destruct (snapshot_transfer demo_shard demo_engine meta data e' ∅
    ltac:(done) demo_engine_wf Hb) as (e3 & Hi & Happ & _ & _ & Hs & _).
  exists meta, data, e', e3.
  split; [reflexivity|]. split; [exact Hi|]. split.
  - specialize (Happ 9%N "a"%string ltac:(lia)). etransitivity; [exact Happ|].
    vm_compute. reflexivity.
  - etransitivity; [exact Hs|]. vm_compute. reflexivity.
Defined.

Lemma migrate_step_witness :
  match sm_apply demo_shard kv_app
    [{| log_id := 3%N : LogId; payload := Normal (String RUNTIME_CMD_PREFIX (enc (Migrate 2))) |}]
    demo_engine with
  | Ok (e', rs, _) => rs = [enc RuntimeOk] ∧ stored_schema_version demo_shard e' = Ok 2%N
  | Err _ => False
  end.
Proof.
  pose proof (migrate_step demo_shard kv_app (3%N : LogId) 2 1 5 demo_engine
    ltac:(vm_compute; reflexivity) ltac:(vm_compute; reflexivity)) as Hm.
  assert (is_ok (sm_apply demo_shard kv_app
    [{| log_id := 3%N : LogId; payload := Normal (String RUNTIME_CMD_PREFIX (enc (Migrate 2))) |}]
    demo_engine) = true) as Hok by (vm_compute; reflexivity).
  destruct (sm_apply demo_shard kv_app _ demo_engine) as [[[e' rs] pub]|]; [|done].
  destruct Hm as [(_ & _ & Hrs & Hv)|[[Hne|Hlt] _]]; [done|done|by vm_compute in Hlt].
Defined.
