(* ===== verification/Json.v ===== *)
(** * Canonical JSON values

    [ruma::CanonicalJsonValue]: null, booleans, integers, strings, arrays
    and objects.  A [CanonicalJsonObject] is a [BTreeMap<String, _>]: an
    association list in key order.  Parsing text is [serde_json]'s and
    [ruma]'s business, so it is an operation of a class. *)

From S2P Require Import Prelude Bytes.
From stdpp Require Import options.
Set Warnings "-register-all".

Inductive json : Type :=
| JNull
| JBool (b : bool)
| JInteger (z : Z)
| JString (s : string)
| JArray (l : list json)
| JObject (o : list (string * json)).

Abbreviation json_object := (list (string * json)) (only parsing).

(** [obj.get(key)] *)
Fixpoint obj_get {A} (k : string) (o : list (string * A)) : option A :=
  match o with
  | [] => None
  | (k', v) :: o => if bool_decide (k' = k) then Some v else obj_get k o
  end.

(** [obj.insert(key, v)]: replaces in place or inserts in key order. *)
Fixpoint obj_insert {A} (k : string) (v : A) (o : list (string * A)) : list (string * A) :=
  match o with
  | [] => [(k, v)]
  | (k', v') :: o =>
      if bool_decide (k' = k) then (k, v) :: o
      else if String.ltb k k' then (k, v) :: (k', v') :: o
      else (k', v') :: obj_insert k v o
  end.

Lemma obj_get_insert {A} k (v : A) o k' :
  obj_get k' (obj_insert k v o) = if bool_decide (k = k') then Some v else obj_get k' o.
Proof.
  induction o as [|[a w] o IH]; simpl; [done|].
  destruct (decide (a = k)) as [->|Hak]; simpl.
  - rewrite (bool_decide_true (k = k)) by done. simpl. by case_bool_decide.
  - rewrite (bool_decide_false (a = k)) by done. destruct (String.ltb k a); simpl.
    + done.
    + rewrite IH. repeat case_bool_decide; congruence.
Qed.

(** A string field: [Some(CanonicalJsonValue::String(s))], or nothing. *)
Definition as_str (v : json) : option string :=
  match v with JString s => Some s | _ => None end.

Definition json_str (event : json_object) (key : string) : option string :=
  obj_get key event ≫= as_str.

(** Reading JSON text: [serde_json::from_slice] followed by the conversion
    to canonical JSON (which refuses floats and out-of-range integers). *)
Class JsonText := { json_parse : bytes → option json }.

(** The strings of an array field; anything else is skipped. *)
Definition id_list (obj : json_object) (key : string) : list string :=
  match obj_get key obj with
  | Some (JArray a) => omap as_str a
  | _ => []
  end.

Definition auth_event_ids (obj : json_object) : list string := id_list obj "auth_events".
Definition prev_event_ids (obj : json_object) : list string := id_list obj "prev_events".

(** ** [serde_json::Value]

    Numbers are serde's; an object is a map with its keys in order. *)

Inductive jvalue (num : Type) : Type :=
| VNull
| VBool (b : bool)
| VNum (n : num)
| VStr (s : string)
| VArr (l : list (jvalue num))
| VObj (o : list (string * jvalue num)).
Arguments VNull {_}. Arguments VBool {_} _. Arguments VNum {_} _.
Arguments VStr {_} _. Arguments VArr {_} _. Arguments VObj {_} _.

Class SerdeJson := {
  jnum : Type;
  jnum_i64 : jnum → option Z;
  jnum_f64_i64 : jnum → option Z;
  jnum_u64 : jnum → option N;
  from_slice : bytes → option (jvalue jnum);
  to_vec : jvalue jnum → bytes;
}.

Definition as_object {num} (v : jvalue num) : option (list (string * jvalue num)) :=
  match v with VObj o => Some o | _ => None end.

Definition vget {num} (k : string) (v : jvalue num) : option (jvalue num) :=
  o ← as_object v; obj_get k o.

Definition vstr {num} (v : jvalue num) : option string :=
  match v with VStr s => Some s | _ => None end.
