(* ===== verification/RoomTypes.v ===== *)
(** * Room-shard records and commands (saltator-roomserver/src/types.rs) *)

From Stdlib Require Import Ascii.
From S2P Require Import Prelude Codec Shard.
From stdpp Require Import options.

(** ** Tables *)

Definition T_EVENT : N := APP_TABLE_FIRST.
Definition T_SEQ : N := APP_TABLE_FIRST + 1.
Definition T_GROUP : N := APP_TABLE_FIRST + 2.
Definition T_ROOM : N := APP_TABLE_FIRST + 3.
Definition T_ROOM_SEQ : N := APP_TABLE_FIRST + 4.
Definition T_RECEIPT : N := APP_TABLE_FIRST + 5.
Definition T_REDACT : N := APP_TABLE_FIRST + 6.
Definition T_HISTORY : N := APP_TABLE_FIRST + 7.
Definition T_TXN : N := APP_TABLE_FIRST + 8.
Definition T_TXN_IDX : N := APP_TABLE_FIRST + 9.
Definition T_TXN_ECHO : N := APP_TABLE_FIRST + 10.

Definition MAX_GROUP_CHAIN : N := 32.

(** ** Records *)

Inductive Rejected : Type :=
| RejAuthChain (reason : string)
| RejState (reason : string).

Definition reason (r : Rejected) : string :=
  match r with RejAuthChain r | RejState r => r end.

Record StoredEvent : Type := {
  se_raw : bytes;
  se_seq : N;
  se_state_group_after : N;
  se_depth : N;
  se_rejected : option Rejected;
  se_history_idx : option N;
  se_imported : bool;
  se_relay : bool;
}.

(** [(type, state_key) → event_id] entries. *)
Abbreviation state_entries := (list ((string * string) * string)) (only parsing).

Record StateGroup : Type := {
  sg_parent : option N;
  sg_chain_len : N;
  sg_entries : state_entries;
}.

Record RoomMeta : Type := {
  rm_version : string;
  rm_create_event_id : string;
  rm_current_group : N;
  rm_next_group : N;
  rm_extremities : list string;
  rm_history_frontier : list string;
  rm_next_history_idx : N;
  rm_gap_markers : list N;
}.

Record TxnStamp : Type := {
  ts_user_id : string;
  ts_device_id : string;
  ts_scope : string;
  ts_txn_id : string;
  ts_ts : N;
}.

Record ImportEvent : Type := { ie_event_id : string; ie_raw : bytes; ie_depth : N }.

Record ImportSegment : Type := {
  is_room_id : string;
  is_events : list ImportEvent;
  is_state : state_entries;
  is_timeline : list ImportEvent;
  is_frontier_add : list string;
}.

Record ImportHistory : Type := { ih_room_id : string; ih_events : list ImportEvent }.

Record ImportRoom : Type := {
  ir_room_id : string;
  ir_version : string;
  ir_create_event_id : string;
  ir_events : list ImportEvent;
  ir_join_event_id : string;
  ir_join_raw : bytes;
  ir_join_depth : N;
  ir_state : state_entries;
  ir_history_frontier : list string;
}.

Record AppendEvent : Type := {
  ae_room_id : string;
  ae_event_id : string;
  ae_raw : bytes;
  ae_depth : N;
  ae_rejected : option Rejected;
  ae_new_groups : list (N * StateGroup);
  ae_state_group_after : N;
  ae_new_current_group : N;
  ae_new_extremities : list string;
  ae_next_group : N;
  ae_create_version : option string;
  ae_redacts : option string;
  ae_relay : bool;
}.

Record ReceiptCmd : Type := {
  rc_room_id : string;
  rc_user_id : string;
  rc_receipt_type : string;
  rc_event_id : string;
  rc_thread_id : option string;
  rc_ts : N;
}.

Record ReceiptRecord : Type := {
  rr_event_id : string;
  rr_thread_id : option string;
  rr_ts : N;
  rr_seq : N;
}.

Inductive RoomCommand : Type :=
| Append (cmd : AppendEvent)
| Receipt (cmd : ReceiptCmd)
| Import (cmd : ImportRoom)
| ImportHistoryCmd (cmd : ImportHistory)
| ImportSegmentCmd (cmd : ImportSegment)
| AppendStamped (event : AppendEvent) (txn : TxnStamp).

Inductive RoomResponse : Type :=
| RAccepted (event_id : string) (seq : N)
| RRejected (event_id : string) (why : string)
| RDuplicate (event_id : string)
| RReceipt (seq : N)
| RHistory (indexed : N) (complete : bool)
| RSegment (appended : N).

Inductive SeqEntry : Type :=
| SeqEvent (room_id event_id : string)
| SeqReceipt (room_id user_id receipt_type event_id : string) (ts : N).

Inductive ChangePayload : Type :=
| ChangeEvent (room_id event_id : string)
| ChangeReceipt (room_id : string).

(** ** Redaction directives *)

Inductive RedactDirective : Type :=
| Applies (id : string)
| Pending (id : string) (may_redact : bool).

Definition encode_directive (d : RedactDirective) : string :=
  match d with
  | Applies id => id
  | Pending id may_redact => "?" +:+ (if may_redact then "p" else "-") +:+ id
  end.

Definition decode_directive (s : string) : RedactDirective :=
  match s with
  | String "?" (String "p" id) => Pending id true
  | String "?" (String "-" id) => Pending id false
  | _ => Applies s
  end.

(** ** The codecs of the stored records *)

Class RoomCodecs := {
  rc_command :: Codec RoomCommand;
  rc_response :: Codec RoomResponse;
  rc_event :: Codec StoredEvent;
  rc_group :: Codec StateGroup;
  rc_meta :: Codec RoomMeta;
  rc_receipt :: Codec ReceiptRecord;
  rc_seq_entry :: Codec SeqEntry;
  rc_change :: Codec ChangePayload;
}.
