(* ===== verification/RoomMachine.v ===== *)
(** * The room keyspace state machine (saltator-roomserver/src/machine.rs)

    The command handlers, written against the apply context of [Shard.v].
    The typed reads are in [RoomRead.v]. *)

From Stdlib Require Import Ascii.
From stdpp Require Import pretty.
From S2P Require Import Prelude Bytes Store Codec Json Shard RoomTypes.
From stdpp Require Import options.

(** [crate::SCHEMA_VERSION] *)
Definition SCHEMA_VERSION : N := 2.

(** ** Keys *)

Definition room_u64_key (room_id : string) (n : N) : bytes :=
  room_id +:+ String b0 (be64 n).

Definition room_u64_end (room_id : string) : bytes := room_id +:+ str1 b1.

Definition receipt_key (room_id user_id receipt_type thread : string) : bytes :=
  room_id +:+ String b0 (user_id +:+ String b0 (receipt_type +:+ String b0 thread)).

Definition txn_key (user_id device_id scope txn_id : string) : bytes :=
  user_id +:+ String b0 (device_id +:+ String b0 (scope +:+ String b0 txn_id)).

Definition TXN_HORIZON_MS : N := 24 * 60 * 60 * 1000.

Definition MAX_GAP_MARKERS : nat := 1024.

(** [s.seq > 0 || s.history_idx.is_some()] *)
Definition visible (s : StoredEvent) : bool :=
  (0 <? se_seq s)%N || is_some (se_history_idx s).

Definition on_timeline (s : StoredEvent) : bool := (0 <? se_seq s)%N.

(** [opt.is_some_and(f)] *)
Definition is_some_and {A} (o : option A) (f : A → bool) : bool :=
  match o with Some a => f a | None => false end.

Section Machine.
Context `{RC : RoomCodecs, JT : JsonText}.

(** A supporting event stored off the timeline. *)
Definition support_event (ev : ImportEvent) : StoredEvent := {|
  se_raw := ie_raw ev; se_seq := 0; se_state_group_after := 0; se_depth := ie_depth ev;
  se_rejected := None; se_history_idx := None; se_imported := true; se_relay := false |}.

Definition put_support (ev : ImportEvent) : app () :=
  o ← ctx_get T_EVENT (ie_event_id ev);
  if is_some o then mret ()
  else ctx_put T_EVENT (ie_event_id ev) (enc (support_event ev)).

(** [apply_receipt] *)
Definition apply_receipt (cmd : ReceiptCmd) : app RoomResponse :=
  let key := receipt_key (rc_room_id cmd) (rc_user_id cmd) (rc_receipt_type cmd)
               (default EmptyString (rc_thread_id cmd)) in
  existing ← get_typed (A := ReceiptRecord) "receipt decode" T_RECEIPT key;
  if is_some_and existing (λ r, bool_decide (rr_event_id r = rc_event_id cmd))
  then mret (RReceipt 0)
  else
    seq ← ctx_emit (enc (ChangeReceipt (rc_room_id cmd)));
    ctx_put T_SEQ (be64 seq)
      (enc (SeqReceipt (rc_room_id cmd) (rc_user_id cmd) (rc_receipt_type cmd)
              (rc_event_id cmd) (rc_ts cmd)));;
    ctx_put T_RECEIPT key
      (enc {| rr_event_id := rc_event_id cmd; rr_thread_id := rc_thread_id cmd;
              rr_ts := rc_ts cmd; rr_seq := seq |});;
    mret (RReceipt seq).

(** [put_redact] *)
Definition put_redact (directive redactor_id : string) : app () :=
  match decode_directive directive with
  | Applies target => ctx_put T_REDACT target (encode_directive (Applies redactor_id))
  | Pending id may_redact =>
      held ← (if may_redact then mret false
              else o ← ctx_get T_REDACT id; mret (is_some o));
      if (held : bool) then mret ()
      else ctx_put T_REDACT id (encode_directive (Pending redactor_id may_redact))
  end.

(** The loop over [cmd.new_groups]. *)
Definition put_groups (room_id : string) (l : list (N * StateGroup)) : app () :=
  app_iter (λ '(id, group), ctx_put T_GROUP (room_u64_key room_id id) (enc group)) l.

(** The rejected branch of [apply_append]: no timeline effects, but the
    allocator advances past the groups a fork merge created. *)
Definition append_rejected (cmd : AppendEvent) (rejected : Rejected) : app RoomResponse :=
  ctx_put T_EVENT (ae_event_id cmd)
    (enc {| se_raw := ae_raw cmd; se_seq := 0;
            se_state_group_after := ae_state_group_after cmd; se_depth := ae_depth cmd;
            se_rejected := Some rejected; se_history_idx := None;
            se_imported := false; se_relay := false |});;
  put_groups (ae_room_id cmd) (ae_new_groups cmd);;
  meta ← get_typed (A := RoomMeta) "room meta decode" T_ROOM (ae_room_id cmd);
  match meta with
  | Some m =>
      if (rm_next_group m <? ae_next_group cmd)%N then
        ctx_put T_ROOM (ae_room_id cmd)
          (enc {| rm_version := rm_version m; rm_create_event_id := rm_create_event_id m;
                  rm_current_group := rm_current_group m;
                  rm_next_group := ae_next_group cmd;
                  rm_extremities := rm_extremities m;
                  rm_history_frontier := rm_history_frontier m;
                  rm_next_history_idx := rm_next_history_idx m;
                  rm_gap_markers := rm_gap_markers m |})
      else mret ()
  | None => mret ()
  end;;
  mret (RRejected (ae_event_id cmd) (reason rejected)).

(** The room bookkeeping an accepted append leaves. *)
Definition created_meta (cmd : AppendEvent) (version : string) : RoomMeta := {|
  rm_version := version; rm_create_event_id := ae_event_id cmd;
  rm_current_group := ae_new_current_group cmd; rm_next_group := ae_next_group cmd;
  rm_extremities := ae_new_extremities cmd; rm_history_frontier := [];
  rm_next_history_idx := 1; rm_gap_markers := [] |}.

Definition advanced_meta (cmd : AppendEvent) (m : RoomMeta) : RoomMeta := {|
  rm_version := rm_version m; rm_create_event_id := rm_create_event_id m;
  rm_current_group := ae_new_current_group cmd; rm_next_group := ae_next_group cmd;
  rm_extremities := ae_new_extremities cmd;
  rm_history_frontier := rm_history_frontier m;
  rm_next_history_idx := rm_next_history_idx m; rm_gap_markers := rm_gap_markers m |}.

(** A timeline event: its record, and its rows in both sequence tables. *)
Definition put_timeline (room_id event_id : string) (mk : N → StoredEvent) : app N :=
  seq ← ctx_emit (enc (ChangeEvent room_id event_id));
  ctx_put T_EVENT event_id (enc (mk seq));;
  ctx_put T_SEQ (be64 seq) (enc (SeqEvent room_id event_id));;
  ctx_put T_ROOM_SEQ (room_u64_key room_id seq) event_id;;
  mret seq.

Definition accepted_event (cmd : AppendEvent) (seq : N) : StoredEvent := {|
  se_raw := ae_raw cmd; se_seq := seq; se_state_group_after := ae_state_group_after cmd;
  se_depth := ae_depth cmd; se_rejected := None; se_history_idx := None;
  se_imported := false; se_relay := ae_relay cmd |}.

(** [apply_append] *)
Definition apply_append (cmd : AppendEvent) : app RoomResponse :=
  stored ← ctx_get T_EVENT (ae_event_id cmd);
  if is_some stored then mret (RDuplicate (ae_event_id cmd))
  else
    match ae_rejected cmd with
    | Some rejected => append_rejected cmd rejected
    | None =>
        seq ← put_timeline (ae_room_id cmd) (ae_event_id cmd) (accepted_event cmd);
        match ae_redacts cmd with
        | Some directive => put_redact directive (ae_event_id cmd)
        | None => mret ()
        end;;
        put_groups (ae_room_id cmd) (ae_new_groups cmd);;
        meta ← match ae_create_version cmd with
               | Some version => mret (created_meta cmd version)
               | None =>
                   o ← get_typed (A := RoomMeta) "room meta decode" T_ROOM (ae_room_id cmd);
                   match o with
                   | Some m => mret (advanced_meta cmd m)
                   | None => fail (Engine "append to unknown room")
                   end
               end;
        ctx_put T_ROOM (ae_room_id cmd) (enc meta);;
        mret (RAccepted (ae_event_id cmd) seq)
    end.

(** [put_txn] *)
Definition put_txn (txn : TxnStamp) (event_id : string) : app () :=
  let key := txn_key (ts_user_id txn) (ts_device_id txn) (ts_scope txn) (ts_txn_id txn) in
  ctx_put T_TXN key event_id;;
  ctx_put T_TXN_IDX (be64 (ts_ts txn) +:+ key) EmptyString;;
  ctx_put T_TXN_ECHO event_id
    (ts_user_id txn +:+ String b0 (ts_device_id txn +:+ String b0 (ts_txn_id txn)));;
  let cutoff := saturating_sub64 (ts_ts txn) TXN_HORIZON_MS in
  rows ← ctx_range T_TXN_IDX EmptyString (be64 cutoff);
  app_iter (λ '(k, _),
    ctx_delete T_TXN_IDX k;;
    if bool_decide (8 < String.length k) then
      stale ← ctx_get T_TXN (str_drop 8 k);
      match stale with
      | Some id => ctx_delete T_TXN_ECHO id
      | None => mret ()
      end;;
      ctx_delete T_TXN (str_drop 8 k)
    else mret ()) rows.

(** A held event, by id. *)
Definition get_event (event_id : string) : app (option StoredEvent) :=
  get_typed (A := StoredEvent) "event decode" T_EVENT event_id.

(** [apply_import] *)
Definition apply_import (cmd : ImportRoom) : app RoomResponse :=
  existing_meta ← get_typed (A := RoomMeta) "room meta decode" T_ROOM (ir_room_id cmd);
  held ← (if is_some existing_meta
          then s ← get_event (ir_join_event_id cmd); mret (is_some_and s on_timeline)
          else mret false);
  if (held : bool) then mret (RDuplicate (ir_join_event_id cmd))
  else
    app_iter put_support (ir_events cmd);;
    let group_id := default 1%N (rm_next_group <$> existing_meta) in
    ctx_put T_GROUP (room_u64_key (ir_room_id cmd) group_id)
      (enc {| sg_parent := None; sg_chain_len := 0; sg_entries := ir_state cmd |});;
    seq ← put_timeline (ir_room_id cmd) (ir_join_event_id cmd) (λ seq,
      {| se_raw := ir_join_raw cmd; se_seq := seq; se_state_group_after := group_id;
         se_depth := ir_join_depth cmd; se_rejected := None; se_history_idx := None;
         se_imported := true; se_relay := false |});
    let frontier0 : gset string :=
      default ∅ ((λ m, list_to_set (rm_history_frontier m)) <$> existing_meta) in
    frontier ← app_fold (λ (frontier : gset string) id,
      s ← get_event id;
      mret (if is_some_and s visible then frontier else {[id]} ∪ frontier))
      frontier0 (ir_history_frontier cmd);
    ctx_put T_ROOM (ir_room_id cmd)
      (enc {| rm_version := ir_version cmd; rm_create_event_id := ir_create_event_id cmd;
              rm_current_group := group_id; rm_next_group := add64 group_id 1;
              rm_extremities := [ir_join_event_id cmd];
              rm_history_frontier := btree frontier;
              rm_next_history_idx := default 1%N (rm_next_history_idx <$> existing_meta);
              rm_gap_markers := default [] (rm_gap_markers <$> existing_meta) |});;
    mret (RAccepted (ir_join_event_id cmd) seq).

(** [meta.gap_markers.push(first)], keeping the newest [MAX_GAP_MARKERS]. *)
Definition push_gap_marker (first : N) (markers : list N) : list N :=
  let markers := markers ++ [first] in
  if bool_decide (MAX_GAP_MARKERS < length markers)
  then drop (length markers - MAX_GAP_MARKERS) markers
  else markers.

(** The timeline loop's accumulator: [appended], [first_seq], [last_id]. *)
Record SegmentAcc : Type := {
  appended : N;
  first_seq : option N;
  last_id : option string;
}.

Definition segment_event (group_id : N) (ev : ImportEvent) (seq : N) : StoredEvent := {|
  se_raw := ie_raw ev; se_seq := seq; se_state_group_after := group_id;
  se_depth := ie_depth ev; se_rejected := None; se_history_idx := None;
  se_imported := false; se_relay := false |}.

Definition segment_step (room_id : string) (group_id : N) (acc : SegmentAcc)
    (ev : ImportEvent) : app SegmentAcc :=
  s ← get_event (ie_event_id ev);
  if is_some_and s on_timeline then mret acc
  else
    seq ← put_timeline room_id (ie_event_id ev) (segment_event group_id ev);
    mret {| appended := add64 (appended acc) 1;
            first_seq := match first_seq acc with Some f => Some f | None => Some seq end;
            last_id := Some (ie_event_id ev) |}.

(** [apply_import_segment] *)
Definition apply_import_segment (cmd : ImportSegment) : app RoomResponse :=
  o ← get_typed (A := RoomMeta) "room meta decode" T_ROOM (is_room_id cmd);
  match o with
  | None => fail (Engine "segment import to unknown room")
  | Some meta =>
      app_iter put_support (is_events cmd);;
      let group_id := rm_next_group meta in
      ctx_put T_GROUP (room_u64_key (is_room_id cmd) group_id)
        (enc {| sg_parent := None; sg_chain_len := 0; sg_entries := is_state cmd |});;
      acc ← app_fold (segment_step (is_room_id cmd) group_id)
        {| appended := 0; first_seq := None; last_id := None |} (is_timeline cmd);
      let markers := match first_seq acc with
                     | Some first => push_gap_marker first (rm_gap_markers meta)
                     | None => rm_gap_markers meta
                     end in
      let extremities := match last_id acc with
                         | Some last =>
                             if bool_decide (last ∈ rm_extremities meta)
                             then rm_extremities meta
                             else rm_extremities meta ++ [last]
                         | None => rm_extremities meta
                         end in
      frontier ← app_fold (λ frontier id,
        s ← get_event id;
        mret (if negb (is_some_and s visible) && negb (bool_decide (id ∈ frontier))
              then frontier ++ [id] else frontier))
        (rm_history_frontier meta) (is_frontier_add cmd);
      ctx_put T_ROOM (is_room_id cmd)
        (enc {| rm_version := rm_version meta; rm_create_event_id := rm_create_event_id meta;
                rm_current_group := rm_current_group meta;
                rm_next_group := add64 group_id 1;
                rm_extremities := extremities; rm_history_frontier := frontier;
                rm_next_history_idx := rm_next_history_idx meta;
                rm_gap_markers := markers |});;
      mret (RSegment (appended acc))
  end.

(** The event loop's accumulator of [apply_import_history]. *)
Record HistoryAcc : Type := {
  batch_ids : gset string;
  new_prevs : list string;
  idx : N;
  indexed : N;
}.

Definition with_history_idx (s : StoredEvent) (i : N) : StoredEvent := {|
  se_raw := se_raw s; se_seq := se_seq s; se_state_group_after := se_state_group_after s;
  se_depth := se_depth s; se_rejected := se_rejected s; se_history_idx := Some i;
  se_imported := se_imported s; se_relay := se_relay s |}.

(** [serde_json::from_slice::<CanonicalJsonObject>] *)
Definition parse_object (what : string) (raw : bytes) : result store_error json_object :=
  match json_parse raw with Some (JObject o) => Ok o | _ => Err (Engine what) end.

Definition history_step (room_id : string) (acc : HistoryAcc) (ev : ImportEvent) :
    app HistoryAcc :=
  existing ← get_event (ie_event_id ev);
  let batch_ids' := {[ie_event_id ev]} ∪ batch_ids acc in
  if is_some_and existing visible
  then mret {| batch_ids := batch_ids'; new_prevs := new_prevs acc; idx := idx acc;
               indexed := indexed acc |}
  else
    let stored := with_history_idx (default (support_event ev) existing) (idx acc) in
    raw ← lift (parse_object "history event parse" (se_raw stored));
    ctx_put T_EVENT (ie_event_id ev) (enc stored);;
    ctx_put T_HISTORY (room_u64_key room_id (idx acc)) (ie_event_id ev);;
    mret {| batch_ids := batch_ids'; new_prevs := new_prevs acc ++ prev_event_ids raw;
            idx := add64 (idx acc) 1; indexed := add64 (indexed acc) 1 |}.

(** [apply_import_history] *)
Definition apply_import_history (cmd : ImportHistory) : app RoomResponse :=
  o ← get_typed (A := RoomMeta) "room meta decode" T_ROOM (ih_room_id cmd);
  match o with
  | None => fail (Engine "history import to unknown room")
  | Some meta =>
      acc ← app_fold (history_step (ih_room_id cmd))
        {| batch_ids := ∅; new_prevs := []; idx := rm_next_history_idx meta; indexed := 0 |}
        (ih_events cmd);
      let frontier : gset string :=
        list_to_set (rm_history_frontier meta) ∪ list_to_set (new_prevs acc) in
      still_missing ← app_fold (λ missing id,
        if bool_decide (id ∈ batch_ids acc) then mret missing
        else
          s ← get_event id;
          mret (if is_some_and s visible then missing else missing ++ [id]))
        [] (btree frontier);
      ctx_put T_ROOM (ih_room_id cmd)
        (enc {| rm_version := rm_version meta; rm_create_event_id := rm_create_event_id meta;
                rm_current_group := rm_current_group meta;
                rm_next_group := rm_next_group meta; rm_extremities := rm_extremities meta;
                rm_history_frontier := still_missing; rm_next_history_idx := idx acc;
                rm_gap_markers := rm_gap_markers meta |});;
      mret (RHistory (indexed acc) (bool_decide (still_missing = [])))
  end.

(** ** [impl ShardApp for RoomApp] *)

Definition apply_command (cmd : RoomCommand) : app RoomResponse :=
  match cmd with
  | Append cmd => apply_append cmd
  | Receipt cmd => apply_receipt cmd
  | Import cmd => apply_import cmd
  | ImportHistoryCmd cmd => apply_import_history cmd
  | ImportSegmentCmd cmd => apply_import_segment cmd
  | AppendStamped event txn =>
      resp ← apply_append event;
      match resp with
      | RAccepted event_id _ => put_txn txn event_id
      | _ => mret ()
      end;;
      mret resp
  end.

Definition room_apply (command : bytes) : app bytes :=
  cmd ← lift (dec_or (A := RoomCommand) "room command decode" command);
  resp ← apply_command cmd;
  mret (enc resp).

Definition room_migrate (to : N) : app () :=
  if (to =? 2)%N then mret () else fail (Engine "no migration registered").

(** The change payload a timeline entry re-derives. *)
Definition change_of (s : SeqEntry) : ChangePayload :=
  match s with
  | SeqEvent room_id event_id => ChangeEvent room_id event_id
  | SeqReceipt room_id _ _ _ _ => ChangeReceipt room_id
  end.

Definition room_replay (ctx : ReadCtx) (from_seq limit : N) :
    result store_error (list (N * bytes)) :=
  try_fold (λ out '(k, v),
    let? seq := ok_or (from_be64 k) (Engine "seq key width") in
    let? entry := dec_or (A := SeqEntry) "seq entry decode" v in
    Ok (out ++ [(seq, enc (change_of entry))]))
  [] (read_scan ctx T_SEQ (be64 (add64 from_seq 1)) EmptyString limit false).

Definition RoomApp : ShardApp := {|
  app_schema_version := SCHEMA_VERSION;
  app_apply := room_apply;
  app_migrate := room_migrate;
  app_replay := room_replay;
|}.

End Machine.
