(* ===== verification/RoomDemo.v ===== *)
(** * Concrete codecs of the room records, for the witnesses *)

From Stdlib Require Import Ascii.
From S2P Require Import Prelude Store Codec Json Shard Demo RoomTypes RoomMachine.
From stdpp Require Import options.

Definition codec_event : Codec StoredEvent.
Proof.
  refine (codec_iso (codec_string :: codec_nat :: codec_nat :: codec_nat ::
      codec_option (codec_string ++ codec_string) :: codec_option codec_nat ::
      codec_bool :: codec_bool)%codec
    (λ s, (se_raw s, (se_seq s, (se_state_group_after s, (se_depth s,
      (match se_rejected s with
       | None => None | Some (RejAuthChain r) => Some (inl r) | Some (RejState r) => Some (inr r)
       end, (se_history_idx s, (se_imported s, se_relay s))))))))
    (λ '(a, (b, (c, (d, (e, (f, (g, h))))))),
      {| se_raw := a; se_seq := b; se_state_group_after := c; se_depth := d;
         se_rejected := match e with
           | None => None | Some (inl r) => Some (RejAuthChain r) | Some (inr r) => Some (RejState r)
           end;
         se_history_idx := f; se_imported := g; se_relay := h |}) _).
  abstract (by intros [? ? ? ? [[]|] ? ? ?]).
Defined.

Definition codec_entries : Codec (list ((string * string) * string)) :=
  codec_list (codec_pair (codec_pair codec_string codec_string) codec_string).

Definition codec_group : Codec StateGroup.
Proof.
  refine (codec_iso (codec_option codec_nat :: codec_nat :: codec_entries)%codec
    (λ g, (sg_parent g, (sg_chain_len g, sg_entries g)))
    (λ '(a, (b, c)), {| sg_parent := a; sg_chain_len := b; sg_entries := c |}) _).
  abstract (by intros []).
Defined.

Definition codec_meta : Codec RoomMeta.
Proof.
  refine (codec_iso (codec_string :: codec_string :: codec_nat :: codec_nat ::
      codec_list codec_string :: codec_list codec_string :: codec_nat :: codec_list codec_nat)%codec
    (λ m, (rm_version m, (rm_create_event_id m, (rm_current_group m, (rm_next_group m,
      (rm_extremities m, (rm_history_frontier m, (rm_next_history_idx m, rm_gap_markers m))))))))
    (λ '(a, (b, (c, (d, (e, (f, (g, h))))))),
      {| rm_version := a; rm_create_event_id := b; rm_current_group := c; rm_next_group := d;
         rm_extremities := e; rm_history_frontier := f; rm_next_history_idx := g;
         rm_gap_markers := h |}) _).
  abstract (by intros []).
Defined.

Definition codec_import_event : Codec ImportEvent.
Proof.
  refine (codec_iso (codec_string :: codec_string :: codec_nat)%codec
    (λ e, (ie_event_id e, (ie_raw e, ie_depth e)))
    (λ '(a, (b, c)), {| ie_event_id := a; ie_raw := b; ie_depth := c |}) _).
  abstract (by intros []).
Defined.

Definition codec_append : Codec AppendEvent.
Proof.
  refine (codec_iso (codec_string :: codec_string :: codec_string :: codec_nat ::
      codec_option (codec_string ++ codec_string) :: codec_list (codec_nat :: codec_group) ::
      codec_nat :: codec_nat :: codec_list codec_string :: codec_nat ::
      codec_option codec_string :: codec_option codec_string :: codec_bool)%codec
    (λ c, (ae_room_id c, (ae_event_id c, (ae_raw c, (ae_depth c,
      (match ae_rejected c with
       | None => None | Some (RejAuthChain r) => Some (inl r) | Some (RejState r) => Some (inr r)
       end, (ae_new_groups c, (ae_state_group_after c, (ae_new_current_group c,
      (ae_new_extremities c, (ae_next_group c, (ae_create_version c,
      (ae_redacts c, ae_relay c)))))))))))))
    (λ '(a, (b, (c, (d, (e, (f, (g, (h, (i, (j, (k, (l, m)))))))))))),
      {| ae_room_id := a; ae_event_id := b; ae_raw := c; ae_depth := d;
         ae_rejected := match e with
           | None => None | Some (inl r) => Some (RejAuthChain r) | Some (inr r) => Some (RejState r)
           end;
         ae_new_groups := f; ae_state_group_after := g; ae_new_current_group := h;
         ae_new_extremities := i; ae_next_group := j; ae_create_version := k;
         ae_redacts := l; ae_relay := m |}) _).
  abstract (by intros [? ? ? ? [[]|] ? ? ? ? ? ? ? ?]).
Defined.

Definition codec_receipt_cmd : Codec ReceiptCmd.
Proof.
  refine (codec_iso (codec_string :: codec_string :: codec_string :: codec_string ::
      codec_option codec_string :: codec_nat)%codec
    (λ c, (rc_room_id c, (rc_user_id c, (rc_receipt_type c, (rc_event_id c,
      (rc_thread_id c, rc_ts c))))))
    (λ '(a, (b, (c, (d, (e, f))))),
      {| rc_room_id := a; rc_user_id := b; rc_receipt_type := c; rc_event_id := d;
         rc_thread_id := e; rc_ts := f |}) _).
  abstract (by intros []).
Defined.

Definition codec_import : Codec ImportRoom.
Proof.
  refine (codec_iso (codec_string :: codec_string :: codec_string ::
      codec_list codec_import_event :: codec_string :: codec_string :: codec_nat ::
      codec_entries :: codec_list codec_string)%codec
    (λ c, (ir_room_id c, (ir_version c, (ir_create_event_id c, (ir_events c,
      (ir_join_event_id c, (ir_join_raw c, (ir_join_depth c, (ir_state c,
      ir_history_frontier c)))))))))
    (λ '(a, (b, (c, (d, (e, (f, (g, (h, i)))))))),
      {| ir_room_id := a; ir_version := b; ir_create_event_id := c; ir_events := d;
         ir_join_event_id := e; ir_join_raw := f; ir_join_depth := g; ir_state := h;
         ir_history_frontier := i |}) _).
  abstract (by intros []).
Defined.

Definition codec_history : Codec ImportHistory.
Proof.
  refine (codec_iso (codec_string :: codec_list codec_import_event)%codec
    (λ c, (ih_room_id c, ih_events c)) (λ '(a, b), {| ih_room_id := a; ih_events := b |}) _).
  abstract (by intros []).
Defined.

Definition codec_segment : Codec ImportSegment.
Proof.
  refine (codec_iso (codec_string :: codec_list codec_import_event :: codec_entries ::
      codec_list codec_import_event :: codec_list codec_string)%codec
    (λ c, (is_room_id c, (is_events c, (is_state c, (is_timeline c, is_frontier_add c)))))
    (λ '(a, (b, (c, (d, e)))),
      {| is_room_id := a; is_events := b; is_state := c; is_timeline := d;
         is_frontier_add := e |}) _).
  abstract (by intros []).
Defined.

Definition codec_txn : Codec TxnStamp.
Proof.
  refine (codec_iso (codec_string :: codec_string :: codec_string :: codec_string :: codec_nat)%codec
    (λ t, (ts_user_id t, (ts_device_id t, (ts_scope t, (ts_txn_id t, ts_ts t)))))
    (λ '(a, (b, (c, (d, e)))),
      {| ts_user_id := a; ts_device_id := b; ts_scope := c; ts_txn_id := d; ts_ts := e |}) _).
  abstract (by intros []).
Defined.

Definition codec_room_command : Codec RoomCommand.
Proof.
  refine (codec_iso (codec_append ++ codec_receipt_cmd ++ codec_import ++ codec_history ++
      codec_segment ++ (codec_append :: codec_txn))%codec
    (λ c, match c with
      | Append c => inl c
      | Receipt c => inr (inl c)
      | Import c => inr (inr (inl c))
      | ImportHistoryCmd c => inr (inr (inr (inl c)))
      | ImportSegmentCmd c => inr (inr (inr (inr (inl c))))
      | AppendStamped c t => inr (inr (inr (inr (inr (c, t)))))
      end)
    (λ x, match x with
      | inl c => Append c
      | inr (inl c) => Receipt c
      | inr (inr (inl c)) => Import c
      | inr (inr (inr (inl c))) => ImportHistoryCmd c
      | inr (inr (inr (inr (inl c)))) => ImportSegmentCmd c
      | inr (inr (inr (inr (inr (c, t))))) => AppendStamped c t
      end) _).
  abstract (by intros []).
Defined.

Definition codec_room_response : Codec RoomResponse.
Proof.
  refine (codec_iso ((codec_string :: codec_nat) ++ (codec_string :: codec_string) ++
      codec_string ++ codec_nat ++ (codec_nat :: codec_bool) ++ codec_nat)%codec
    (λ r, match r with
      | RAccepted e n => inl (e, n)
      | RRejected e w => inr (inl (e, w))
      | RDuplicate e => inr (inr (inl e))
      | RReceipt n => inr (inr (inr (inl n)))
      | RHistory n b => inr (inr (inr (inr (inl (n, b)))))
      | RSegment n => inr (inr (inr (inr (inr n))))
      end)
    (λ x, match x with
      | inl (e, n) => RAccepted e n
      | inr (inl (e, w)) => RRejected e w
      | inr (inr (inl e)) => RDuplicate e
      | inr (inr (inr (inl n))) => RReceipt n
      | inr (inr (inr (inr (inl (n, b))))) => RHistory n b
      | inr (inr (inr (inr (inr n)))) => RSegment n
      end) _).
  abstract (by intros []).
Defined.

Definition codec_receipt_record : Codec ReceiptRecord.
Proof.
  refine (codec_iso (codec_string :: codec_option codec_string :: codec_nat :: codec_nat)%codec
    (λ r, (rr_event_id r, (rr_thread_id r, (rr_ts r, rr_seq r))))
    (λ '(a, (b, (c, d))),
      {| rr_event_id := a; rr_thread_id := b; rr_ts := c; rr_seq := d |}) _).
  abstract (by intros []).
Defined.

Definition codec_seq_entry : Codec SeqEntry.
Proof.
  refine (codec_iso ((codec_string :: codec_string) ++
      (codec_string :: codec_string :: codec_string :: codec_string :: codec_nat))%codec
    (λ s, match s with
      | SeqEvent r e => inl (r, e)
      | SeqReceipt r u t e n => inr (r, (u, (t, (e, n))))
      end)
    (λ x, match x with
      | inl (r, e) => SeqEvent r e
      | inr (r, (u, (t, (e, n)))) => SeqReceipt r u t e n
      end) _).
  abstract (by intros []).
Defined.

Definition codec_change : Codec ChangePayload.
Proof.
  refine (codec_iso ((codec_string :: codec_string) ++ codec_string)%codec
    (λ s, match s with ChangeEvent r e => inl (r, e) | ChangeReceipt r => inr r end)
    (λ x, match x with inl (r, e) => ChangeEvent r e | inr r => ChangeReceipt r end) _).
  abstract (by intros []).
Defined.

#[export] Instance demo_room_codecs : RoomCodecs := {|
  rc_command := codec_room_command; rc_response := codec_room_response;
  rc_event := codec_event; rc_group := codec_group; rc_meta := codec_meta;
  rc_receipt := codec_receipt_record; rc_seq_entry := codec_seq_entry;
  rc_change := codec_change |}.

(** Event text is a list of string fields; [prev_events] holds one id. *)
Definition demo_fields : Codec (list (string * string)) :=
  codec_list (codec_pair codec_string codec_string).

#[export] Instance demo_json : JsonText := {|
  json_parse s :=
    l ← dec (A := list (string * string)) (Codec := demo_fields) s;
    Some (JObject (map (λ kv : string * string,
      (kv.1, if bool_decide (kv.1 = "prev_events"%string) then JArray [JString kv.2]
             else JString kv.2)) l))
|}.

Definition demo_raw (l : list (string * string)) : bytes := enc (Codec := demo_fields) l.

(** An accepted message and the create event of a room. *)
Definition demo_append (room_id event_id : string) (create : option string) : AppendEvent := {|
  ae_room_id := room_id; ae_event_id := event_id; ae_raw := demo_raw []; ae_depth := 1;
  ae_rejected := None; ae_new_groups := []; ae_state_group_after := 1;
  ae_new_current_group := 1; ae_new_extremities := [event_id]; ae_next_group := 2;
  ae_create_version := create; ae_redacts := None; ae_relay := false |}.

Definition room_entry (id : N) (cmd : RoomCommand) : Entry (H := demo_raft) :=
  demo_entry id (enc cmd).

Definition demo_receipt : ReceiptCmd := {|
  rc_room_id := "!r"; rc_user_id := "@u"; rc_receipt_type := "m.read"; rc_event_id := "$m";
  rc_thread_id := None; rc_ts := 9 |}.

Definition demo_batches : list (list Entry) :=
  [ [room_entry 1 (Append (demo_append "!r" "$c" (Some "12"%string)));
     room_entry 2 (Append (demo_append "!r" "$m" None))];
    [room_entry 3 (Append (demo_append "!r" "$m" None)); room_entry 4 (Receipt demo_receipt)] ].
