(* ===== verification/RoomReplay.v ===== *)
(** * The room timeline is the change stream

    Every change record a room shard ever published can be re-derived, byte
    for byte, from its [T_SEQ] table: the ring invariant behind
    [RoomApp::replay] (saltator-roomserver/src/machine.rs). *)

From Stdlib Require Import Ascii.
From S2P Require Import Prelude Bytes Store Codec Shard ShardFacts Demo ShardSpec Json.
From S2P Require Import RoomTypes RoomMachine RoomDemo.
From stdpp Require Import options.

Section Replay.
Context `{RC : RoomCodecs, JT : JsonText}.

(** [log] is the record of everything published, and [rows] the [T_SEQ]
    table: numbers run from 1 without a hole, and each record's row encodes
    an entry whose change payload is the record. *)
Record seq_log (rows : bytes → option bytes) (n : N) (log : list (N * bytes)) : Prop := {
  sl_count : n = N.of_nat (length log);
  sl_nums : ∀ i m p, log !! i = Some (m, p) → m = (N.of_nat i + 1)%N;
  sl_rows : ∀ m p, (m, p) ∈ log →
    ∃ en, rows (be64 m) = Some (enc en) ∧ p = enc (change_of en);
  sl_only : ∀ k, is_Some (rows k) → ∃ m p, (m, p) ∈ log ∧ k = be64 m;
}.

Lemma seq_log_nil : seq_log (λ _, None) 0 [].
Proof.
  split; [done|..].
  - intros i m p H. by rewrite lookup_nil in H.
  - by intros m p H%elem_of_nil.
  - by intros k [? ?].
Qed.

Lemma seq_log_bound rows n log m p : seq_log rows n log → (m, p) ∈ log → (1 ≤ m ≤ n)%N.
Proof.
  intros H [i Hi]%list_elem_of_lookup. pose proof (lookup_lt_Some _ _ _ Hi).
  rewrite (sl_nums _ _ _ H _ _ _ Hi), (sl_count _ _ _ H). lia.
Qed.

Lemma seq_log_snoc rows rows' n log en :
  seq_log rows n log → (n + 1 < u64_modulus)%N →
  (∀ k, rows' k = if decide (be64 (n + 1) = k) then Some (enc en) else rows k) →
  seq_log rows' (n + 1) (log ++ [((n + 1)%N, enc (change_of en))]).
Proof.
  intros H Hn Hr. split.
  - rewrite length_app, (sl_count _ _ _ H). simpl. lia.
  - intros i m p [Hi|[Hi Hx]]%lookup_app_Some; [by eapply sl_nums|].
    apply list_lookup_singleton_Some in Hx as [Hi' [= <- <-]].
    rewrite (sl_count _ _ _ H). lia.
  - intros m p [Hin|Hin]%elem_of_app.
    + destruct (sl_rows _ _ _ H m p Hin) as (en' & He & ->). exists en'. split; [|done].
      rewrite Hr, decide_False; [done|]. intros Hb%be64_inj; [|done|].
      all: pose proof (seq_log_bound _ _ _ _ _ H Hin); lia.
    + apply list_elem_of_singleton in Hin as [= -> ->]. exists en. by rewrite Hr, decide_True.
  - intros k Hk. rewrite Hr in Hk. case_decide as Hd.
    + eexists _, _. split; [|by rewrite <- Hd]. rewrite elem_of_app. right. by left.
    + apply (sl_only _ _ _ H) in Hk as (m & p & Hin & ->). exists m, p.
      split; [|done]. rewrite elem_of_app. by left.
Qed.

(** The invariant of an apply, [log0] published before the batch.  It holds
    until the 64-bit counter would wrap. *)
Definition seq_inv (log0 : list (N * bytes)) (env : ApplyEnv) (c : ApplyState) : Prop :=
  (N.of_nat (length (log0 ++ emits c)) < u64_modulus)%N →
  seq_log (tget env c T_SEQ) (seq c) (log0 ++ emits c).

Lemma seq_inv_record log0 env c c' en :
  seq_inv log0 env c →
  seq c' = add64 (seq c) 1 →
  emits c' = emits c ++ [(add64 (seq c) 1, enc (change_of en))] →
  (∀ k, tget env c' T_SEQ k =
    if decide (be64 (add64 (seq c) 1) = k) then Some (enc en) else tget env c T_SEQ k) →
  seq_inv log0 env c'.
Proof.
  intros H Hs He Hr Hlen. rewrite Hs, He, app_assoc in *.
  rewrite length_app in Hlen. simpl in Hlen.
  specialize (H ltac:(lia)). pose proof (sl_count _ _ _ H) as Hc.
  rewrite add64_small in * by lia. apply (seq_log_snoc (tget env c T_SEQ)); [done|lia|done].
Qed.

Lemma seq_inv_put log0 t k v :
  (t < 256)%N → t ≠ T_SEQ → keeps (seq_inv log0) (ctx_put t k v).
Proof.
  intros Ht Hne env c H. apply wp_put. intros Hlen. specialize (H Hlen).
  destruct H as [H1 H2 H3 H4]. split; simpl; [done..| |].
  - intros m p Hin. rewrite tget_put_other by done. by apply H3.
  - intros k'. rewrite tget_put_other by done. by apply H4.
Qed.

Lemma seq_inv_delete log0 t k :
  (t < 256)%N → t ≠ T_SEQ → keeps (seq_inv log0) (ctx_delete t k).
Proof.
  intros Ht Hne env c H Hlen. specialize (H Hlen).
  destruct H as [H1 H2 H3 H4]. split; simpl; [done..| |].
  - intros m p Hin. rewrite tget_delete_other by done. by apply H3.
  - intros k'. rewrite tget_delete_other by done. by apply H4.
Qed.

#[local] Hint Extern 2 (keeps _ (ctx_put _ _ _)) => (apply seq_inv_put; done) : keeps.
#[local] Hint Extern 2 (keeps _ (ctx_delete _ _)) => (apply seq_inv_delete; done) : keeps.

Lemma seq_inv_timeline log0 room_id event_id mk :
  keeps (seq_inv log0) (put_timeline room_id event_id mk).
Proof.
  intros env c H. unfold put_timeline.
  repeat wp_step.
  eapply (seq_inv_record _ _ _ _ (SeqEvent room_id event_id)); [done|done|done|].
  intros k. rewrite tget_put_other by done. rewrite tget_put by done.
  destruct (decide (_ ∧ _)) as [[_ ->]|Hd]; [by rewrite decide_True|].
  rewrite decide_False by naive_solver. by rewrite tget_put_other.
Qed.

Lemma seq_inv_receipt log0 cmd : keeps (seq_inv log0) (apply_receipt cmd).
Proof.
  unfold apply_receipt. apply keeps_bind; [apply keeps_get_typed|]. intros o.
  destruct (is_some_and _ _); [apply keeps_ret|]. intros env c H.
  repeat wp_step.
  eapply (seq_inv_record _ _ _ _ (SeqReceipt _ _ _ _ _)); [done|done|done|].
  intros k. rewrite tget_put_other by done. rewrite tget_put by done.
  destruct (decide (_ ∧ _)) as [[_ ->]|Hd]; [by rewrite decide_True|].
  rewrite decide_False by naive_solver. done.
Qed.

#[local] Hint Resolve seq_inv_timeline seq_inv_receipt : keeps.

Lemma seq_inv_command log0 cmd : keeps (seq_inv log0) (apply_command cmd).
Proof.
  destruct cmd; simpl; unfold apply_append, append_rejected, put_groups, put_redact,
    apply_import, put_support, apply_import_history, history_step, apply_import_segment,
    segment_step, put_txn, get_event; solve_keeps.
Qed.

Lemma seq_inv_room_apply log0 cmd : keeps (seq_inv log0) (room_apply cmd).
Proof. unfold room_apply. solve_keeps. apply seq_inv_command. Qed.

Lemma seq_inv_migrate log0 to : keeps (seq_inv log0) (room_migrate to).
Proof. unfold room_migrate. solve_keeps. Qed.

Lemma untouched_room_apply sid cmd : keeps (untouched sid) (room_apply cmd).
Proof.
  unfold room_apply, apply_command. apply keeps_bind; [apply keeps_lift|]. intros [| | | | |];
    unfold apply_append, append_rejected, put_groups, put_redact, apply_receipt, put_timeline,
    apply_import, put_support, apply_import_history, history_step, apply_import_segment,
    segment_step, put_txn, get_event; solve_keeps.
Qed.

Context `{HR : Raft}.
Context `{!Codec (option LogId), !Codec StoredMembership, !Codec N}.
Context `{!Codec RuntimeCommand, !Codec RuntimeResponse}.
Context (sid : ShardId).

(** The engine holds the re-derivable record of [log]. *)
Definition room_log (e : engine) (log : list (N * bytes)) : Prop :=
  (N.of_nat (length log) < u64_modulus)%N →
  sm_seq sid e = Ok (N.of_nat (length log)) ∧
  seq_log (λ k, e !! ctx_key sid T_SEQ k) (N.of_nat (length log)) log.

Lemma room_entries_keep log0 l :
  keeps (λ env c, seq_inv log0 env c ∧ untouched sid env c) (apply_entries sid RoomApp l).
Proof.
  apply keeps_entries.
  - intros cmd. apply keeps_and; [apply seq_inv_room_apply|apply untouched_room_apply].
  - intros to. apply keeps_and; [apply seq_inv_migrate|]. simpl. unfold room_migrate. solve_keeps.
  - intros to. apply keeps_and; auto with keeps nocore.
  - intros v env c [Hq [<- Hu]]. unfold wp. split.
    + by apply (seq_inv_put log0 T_SM_META K_MEMBERSHIP v).
    + split; [done|]. intros k Hk. unfold wb_put; simpl. rewrite staged_snoc; simpl.
      case_bool_decide as He; [|by apply Hu]. subst k.
      by destruct Hk as [?%sm_meta_key_inj|?%sm_meta_key_inj].
Qed.

Lemma room_log_apply l e log e' rs pub :
  room_log e log → sm_apply sid RoomApp l e = Ok (e', rs, pub) → room_log e' (log ++ pub).
Proof.
  intros He Hap Hlen. unfold sm_apply in Hap.
  destruct (sm_seq sid e) as [seq0|] eqn:Hseq; [|done].
  destruct (apply_entries sid RoomApp l _ _) as [[rs' c]|] eqn:Hrun; [|done].
  injection Hap as <- <- <-.
  rewrite length_app in Hlen. destruct (He ltac:(lia)) as [Hs Hlog].
  assert (seq0 = N.of_nat (length log)) as -> by congruence.
  pose proof (room_entries_keep log l (apply_env sid e)
    (apply_init (N.of_nat (length log)))) as Hk.
  unfold wp in Hk. rewrite Hrun in Hk. destruct Hk as [Hinv [_ Hu]].
  { split; [|by split]. intros _. simpl. by rewrite app_nil_r. }
  specialize (Hinv ltac:(rewrite length_app; lia)).
  pose proof (sl_count _ _ _ Hinv) as Hc. rewrite <- Hc. split.
  - apply sm_seq_finish; [done|]. apply Hu. by right.
  - destruct Hinv as [H1 H2 H3 H4].
    assert (∀ k, write_batch (finish_batch sid l (N.of_nat (length log)) c) e
      !! ctx_key sid T_SEQ k = tget (apply_env sid e) c T_SEQ k) as Hr.
    { intros k. rewrite lookup_finish_batch. unfold sm_meta_key.
      rewrite !decide_False by (by intros [[? ?]%ctx_key_inj _]).
      unfold tget, view. simpl. by rewrite overlay_write_batch. }
    split; [done|done| |].
    + intros m p Hin. rewrite Hr. by apply H3.
    + intros k. rewrite Hr. apply H4.
Qed.

Definition num_lt (a b : N * bytes) : Prop := (a.1 < b.1)%N.

Lemma nums_sorted log off :
  (∀ i m p, log !! i = Some (m, p) → m = (N.of_nat i + off)%N) → StronglySorted num_lt log.
Proof.
  revert off. induction log as [|[m p] log IH]; intros off Hl; constructor.
  - apply (IH (off + 1)%N). intros i m' p' Hi. rewrite (Hl (S i) m' p' Hi). lia.
  - apply list.Forall_forall. intros [m' p'] [i Hi]%list_elem_of_lookup. unfold num_lt; simpl.
    rewrite (Hl (S i) m' p' Hi), (Hl 0 m p eq_refl). lia.
Qed.

Definition after (from : N) (log : list (N * bytes)) : list (N * bytes) :=
  filter (λ r, (from < r.1)%N) log.

(** The row of a published record. *)
Definition row_of (e : engine) (r : N * bytes) : bytes * bytes :=
  (be64 r.1, default EmptyString (e !! ctx_key sid T_SEQ (be64 r.1))).

Lemma replay_rows e n log from :
  seq_log (λ k, e !! ctx_key sid T_SEQ k) n log → (n < u64_modulus)%N →
  (from + 1 < u64_modulus)%N →
  rows sid T_SEQ (be64 (from + 1)) EmptyString e = map (row_of e) (after from log).
Proof.
  intros H Hn Hf.
  assert (StronglySorted num_lt (after from log)) as Hs.
  { apply sorted_filter, (nums_sorted log 1). intros i m p Hi. by rewrite (sl_nums _ _ _ H _ _ _ Hi). }
  assert (∀ r, r ∈ after from log → (from < r.1 ≤ n)%N ∧ r ∈ log) as Hin.
  { intros [m p] [Hm Hr]%list_elem_of_filter. simpl in *.
    pose proof (seq_log_bound _ _ _ _ _ H Hr). split; [lia|done]. }
  apply rows_unique; [done|..].
  - revert Hs Hin. induction 1 as [|a l Hs IH Hl]; intros Hin; simpl; constructor.
    + apply IH. intros. apply Hin. by right.
    + apply Forall_fmap, list.Forall_forall. intros b Hb. unfold kv_le; cbn.
      rewrite list.Forall_forall in Hl. specialize (Hl b Hb). unfold num_lt in Hl.
      pose proof (Hin a ltac:(by left)). pose proof (Hin b ltac:(by right)).
      assert (String.leb (be64 a.1) (be64 b.1) = true) as Hle; [|by apply sleb_le].
      rewrite be64_leb by lia. apply N.leb_le. lia.
  - revert Hs Hin. induction 1 as [|a l Hs IH Hl]; intros Hin; simpl; constructor.
    + intros (b & He & Hb)%list_elem_of_fmap. apply (f_equal fst) in He; cbn [fst row_of] in He.
      rewrite list.Forall_forall in Hl. specialize (Hl b Hb). unfold num_lt in Hl.
      pose proof (Hin a ltac:(by left)). pose proof (Hin b ltac:(by right)).
      apply be64_inj in He; lia.
    + apply IH. intros. apply Hin. by right.
  - intros k v. rewrite list_elem_of_fmap. split.
    + intros ([m p] & Hkv & [? Hr]%Hin). unfold row_of in Hkv; simpl in *.
      destruct (sl_rows _ _ _ H m p Hr) as (en & Hrow & _). rewrite Hrow in Hkv.
      injection Hkv as -> ->. split_and!; [done| |done]. rewrite be64_leb by lia.
      apply N.leb_le. lia.
    + intros (Hk & Hle & _). destruct (sl_only _ _ _ H k) as (m & p & Hr & ->); [by eexists|].
      exists (m, p). split; [unfold row_of; simpl; by rewrite Hk|].
      apply list_elem_of_filter. split; [|done]. simpl.
      pose proof (seq_log_bound _ _ _ _ _ H Hr). rewrite be64_leb in Hle by lia.
      apply N.leb_le in Hle. lia.
Qed.

Lemma replay_fold e n log l out :
  seq_log (λ k, e !! ctx_key sid T_SEQ k) n log → (n < u64_modulus)%N →
  (∀ r, r ∈ l → r ∈ log) →
  try_fold (λ out '(k, v),
    let? seq := ok_or (from_be64 k) (Engine "seq key width") in
    let? entry := dec_or (A := SeqEntry) "seq entry decode" v in
    Ok (out ++ [(seq, enc (change_of entry))])) out (map (row_of e) l) = Ok (out ++ l).
Proof.
  intros H Hn. revert out. induction l as [|[m p] l IH]; intros out Hl.
  { simpl. by rewrite app_nil_r. }
  cbn [map try_fold]. unfold row_of at 1. cbn [fst].
  assert ((m, p) ∈ log) as Hr by (apply Hl; left).
  destruct (sl_rows _ _ _ H m p Hr) as (en & Hrow & ->).
  pose proof (seq_log_bound _ _ _ _ _ H Hr).
  rewrite from_be64_be64 by lia. cbn [ok_or]. rewrite Hrow. change (default EmptyString (Some (enc en))) with (enc en).
  rewrite dec_or_enc.
  rewrite IH; [by rewrite <- app_assoc|]. intros. apply Hl. by right.
Qed.

Lemma replay_of_log e log from limit :
  room_log e log → (N.of_nat (length log) < u64_modulus)%N → (from + 1 < u64_modulus)%N →
  room_replay {| r_shard := sid; r_engine := e |} from limit =
    Ok (take (N.to_nat limit) (after from log)).
Proof.
  intros He Hn Hf. destruct (He Hn) as [_ H]. unfold room_replay.
  rewrite add64_small by done. rewrite read_scan_rows.
  rewrite (replay_rows _ _ _ _ H) by done. rewrite firstn_map.
  rewrite (replay_fold _ _ _ _ _ H); [done|done|].
  intros r Hr. apply elem_of_take in Hr as (i & Hi & _).
  apply list_elem_of_lookup_2, list_elem_of_filter in Hi. by destruct Hi.
Qed.

(** C4 (machine.rs, [RoomApp::replay] against storage.rs, [apply]): run any
    sequence of batches of committed entries from an empty shard.  Whatever
    was published on the change stream after [from] is exactly what [replay]
    returns, up to its limit: same numbers, same bytes, same order, and every
    record ever emitted stays re-derivable. *)
Theorem replay_history batches e log from limit :
  sm_run sid RoomApp batches ∅ = Ok (e, log) →
  (N.of_nat (length log) < u64_modulus)%N → (from + 1 < u64_modulus)%N →
  app_replay RoomApp {| r_shard := sid; r_engine := e |} from limit =
    Ok (take (N.to_nat limit) (after from log)).
Proof.
  intros Hrun Hn Hf. apply replay_of_log; [|done..].
  eapply (sm_run_ind sid RoomApp room_log ∅); [|by apply room_log_apply|done].
  intros _. split; [done|]. apply seq_log_nil.
Qed.
End Replay.

Lemma replay_history_witness :
  ∃ e log, sm_run demo_shard RoomApp demo_batches ∅ = Ok (e, log) ∧
    app_replay RoomApp {| r_shard := demo_shard; r_engine := e |} 1 5 =
      Ok [(2%N, enc (ChangeEvent "!r" "$m")); (3%N, enc (ChangeReceipt "!r"))].
Proof.
  assert (match sm_run demo_shard RoomApp demo_batches ∅ with
          | Ok (_, log) => take 5 (after 1 log) =
              [(2%N, enc (ChangeEvent "!r" "$m")); (3%N, enc (ChangeReceipt "!r"))]
              ∧ length log = 3
          | Err _ => False end) as Hlog by (vm_compute; by split).
  destruct (sm_run demo_shard RoomApp demo_batches ∅) as [[e log]|] eqn:Hrun;
    [|by destruct Hlog].
  destruct Hlog as [Hlog Hlen]. exists e, log. split; [done|].
  etransitivity; [apply (replay_history demo_shard demo_batches e log 1 5 Hrun)|].
  - rewrite Hlen. done.
  - done.
  - f_equal. exact Hlog.
Defined.

(** * Room commands and batching

    Every room command but [AppendStamped] reads through [ApplyCtx::get]
    alone, so how committed entries are grouped cannot be observed; the
    stamped append prunes through [ApplyCtx::range], and it can. *)

Section Batching.
Context `{RC : RoomCodecs, JT : JsonText}.

Definition unstamped (cmd : RoomCommand) : bool :=
  match cmd with AppendStamped _ _ => false | _ => true end.

Lemma coherent_timeline room_id event_id mk : coherent (put_timeline room_id event_id mk).
Proof. unfold put_timeline. solve_coherent. Qed.

Lemma coherent_support ev : coherent (put_support ev).
Proof. unfold put_support. solve_coherent. Qed.

Lemma coherent_event id : coherent (get_event id).
Proof. unfold get_event. solve_coherent. Qed.

Hint Resolve coherent_timeline coherent_support coherent_event : coherent.

Lemma coherent_command cmd : unstamped cmd = true → coherent (apply_command cmd).
Proof.
  intros Hu. destruct cmd; [..|done]; clear Hu; simpl; unfold apply_append, append_rejected,
    put_groups, put_redact, apply_receipt, apply_import, apply_import_history, history_step,
    apply_import_segment, segment_step; solve_coherent.
Qed.

(** The entries the theorem speaks of: any but a stamped append. *)
Definition unstamped_entry `{HR : Raft} (en : Entry) : Prop :=
  match payload en with
  | Normal cmd =>
      match dec (A := RoomCommand) cmd with Some c => unstamped c = true | None => True end
  | _ => True
  end.

Lemma coherent_room_apply bs :
  match dec (A := RoomCommand) bs with Some c => unstamped c = true | None => True end →
  coherent (room_apply bs).
Proof.
  unfold room_apply, dec_or. destruct (dec bs) as [c|]; simpl; intros Hc.
  - change (coherent (resp ← apply_command c; mret (enc resp))).
    apply coherent_bind; [by apply coherent_command|intros; apply coherent_ret].
  - by intros pre env1 c1 env2 c2 Hr.
Qed.

Context `{HR : Raft}.
Context `{!Codec (option LogId), !Codec StoredMembership, !Codec N}.
Context `{!Codec RuntimeCommand, !Codec RuntimeResponse}.
Context (sid : ShardId).

Lemma coherent_room_entry en : unstamped_entry en → coherent (apply_entry sid RoomApp en).
Proof.
  unfold unstamped_entry. intros Hen. apply coherent_entry_of.
  - intros cmd Hp. rewrite Hp in Hen. by apply coherent_room_apply.
  - intros to. simpl. unfold room_migrate. solve_coherent.
Qed.

(** Appends, receipts, joins, history and
    segment imports, migrations and membership changes are deterministic in
    the log alone.  However the committed entries are split into apply
    batches, the responses, the published records and the replicated state
    come out the same. *)
Theorem room_batching l1 l2 e e' rs pub :
  Forall unstamped_entry (l1 ++ l2) →
  sm_apply sid RoomApp (l1 ++ l2) e = Ok (e', rs, pub) →
  ∃ e1 rs1 pub1 e2 rs2 pub2,
    sm_apply sid RoomApp l1 e = Ok (e1, rs1, pub1) ∧
    sm_apply sid RoomApp l2 e1 = Ok (e2, rs2, pub2) ∧
    rs = rs1 ++ rs2 ∧ pub = pub1 ++ pub2 ∧ engine_equiv sid e' e2.
Proof.
  intros Hl. apply sm_apply_split. intros en Hin. apply coherent_room_entry.
  rewrite list.Forall_forall in Hl. by apply Hl.
Qed.
End Batching.

Lemma room_batching_witness :
  ∃ e1 rs1 pub1 e2 rs2 pub2,
    sm_apply demo_shard RoomApp [room_entry 1 (Append (demo_append "!r" "$c" (Some "12"%string)))]
      ∅ = Ok (e1, rs1, pub1) ∧
    sm_apply demo_shard RoomApp [room_entry 4 (Receipt demo_receipt)] e1 = Ok (e2, rs2, pub2) ∧
    [enc (RAccepted "$c" 1); enc (RReceipt 2)] = rs1 ++ rs2.
Proof.
  pose proof (room_batching demo_shard
    [room_entry 1 (Append (demo_append "!r" "$c" (Some "12"%string)))]
    [room_entry 4 (Receipt demo_receipt)] ∅) as Hb.
  assert (match sm_apply demo_shard RoomApp
    ([room_entry 1 (Append (demo_append "!r" "$c" (Some "12"%string)))] ++
     [room_entry 4 (Receipt demo_receipt)]) ∅ with
    | Ok (_, rs, _) => rs = [enc (RAccepted "$c" 1); enc (RReceipt 2)]
    | Err _ => False end) as Hrs by (vm_compute; reflexivity).
  destruct (sm_apply demo_shard RoomApp _ ∅) as [[[e' rs] pub]|] in Hrs, Hb; [|by destruct Hrs].
  destruct (Hb e' rs pub) as (e1 & rs1 & pub1 & e2 & rs2 & pub2 & H1 & H2 & H3 & _);
    [|reflexivity|].
  - repeat constructor; vm_compute; reflexivity.
  - exists e1, rs1, pub1, e2, rs2, pub2. rewrite <- Hrs.
    split; [exact H1|]. split; [exact H2|exact H3].
Defined.

(** ** Stamped appends

    Two messages sent 25 hours apart, the second stamped past the horizon
    of the first. *)

Definition stamp (txn_id : string) (ts : N) : TxnStamp := {|
  ts_user_id := "@u"; ts_device_id := "D"; ts_scope := "send"; ts_txn_id := txn_id;
  ts_ts := ts |}.

Definition stamped_entries : list (Entry (H := demo_raft)) :=
  [ room_entry 1 (Append (demo_append "!r" "$c" (Some "12"%string)));
    room_entry 2 (AppendStamped (demo_append "!r" "$a" None) (stamp "t1" 1));
    room_entry 3 (AppendStamped (demo_append "!r" "$b" None) (stamp "t2" (25 * 3600000))) ].

Definition txn_row (r : result store_error (engine * list (N * bytes))) : option (option bytes) :=
  match r with
  | Ok (e, _) => Some (e !! ctx_key demo_shard T_TXN (txn_key "@u" "D" "send" "t1"))
  | Err _ => None
  end.

(** The horizon prune scans the
    engine and not the rows staged in its own batch.  A replica that applies
    the three entries one by one has pruned the first transaction's record;
    one that catches up with all three in one batch keeps it, and their
    state differs from then on. *)
Theorem stamped_prune_depends_on_batching :
  txn_row (sm_run demo_shard RoomApp (map (λ en, [en]) stamped_entries) ∅) = Some None ∧
  txn_row (sm_run demo_shard RoomApp [stamped_entries] ∅) = Some (Some "$a"%string).
Proof. split; vm_compute; reflexivity. Qed.
