(* ===== verification/RoomRead.v ===== *)
(** * Typed reads of a room shard (saltator-roomserver/src/machine.rs)

    [RoomStore] over its local backend (a remote store forwards the same
    reads to a replica that hosts the shard). *)

From Stdlib Require Import Ascii.
From S2P Require Import Prelude Bytes Store Codec Json Shard ShardFacts RoomTypes RoomMachine.
From stdpp Require Import options.

Section Read.
Context `{RC : RoomCodecs, JT : JsonText}.
Context (store : ReadCtx).

Definition kv_get_typed {A} `{!Codec A} (what : string) (t : N) (k : bytes) :
    result store_error (option A) :=
  match read_get store t k with
  | Some b => let? a := dec_or what b in Ok (Some a)
  | None => Ok None
  end.

Definition event (event_id : string) : result store_error (option StoredEvent) :=
  kv_get_typed "event decode" T_EVENT event_id.

Definition meta (room_id : string) : result store_error (option RoomMeta) :=
  kv_get_typed "room meta decode" T_ROOM room_id.

Definition group_of (room_id : string) (group : N) : result store_error (option StateGroup) :=
  kv_get_typed "state group decode" T_GROUP (room_u64_key room_id group).

(** [opt.ok_or_else(..)?] on a typed utf-8 read. *)
Definition utf8 (what : string) (b : bytes) : result store_error string :=
  from_utf8 what b.

(** The loop of [rooms] over the scanned rows: [i] counts them. *)
Fixpoint rooms_loop (limit : nat) (i : nat) (l : list (bytes * bytes))
    (out : list (string * RoomMeta)) :
    result store_error (list (string * RoomMeta) * option string) :=
  match l with
  | [] => Ok (out, None)
  | (k, v) :: l =>
      let? room_id := utf8 "room id not UTF-8" k in
      if Nat.eqb i limit then Ok (out, Some room_id)
      else
        let? m := dec_or (A := RoomMeta) "room meta decode" v in
        rooms_loop limit (S i) l (out ++ [(room_id, m)])
  end.

(** [rooms]: a page, and the start of the next one. *)
Definition rooms (from : option string) (limit : N) :
    result store_error (list (string * RoomMeta) * option string) :=
  rooms_loop (N.to_nat limit) 0
    (read_scan store T_ROOM (default EmptyString from) EmptyString
       (saturating_add64 limit 1) false) [].

(** The parent walk of [resolve_group]: the chain, nearest group first.
    [fuel] bounds the walk; [None] is running out of it. *)
Fixpoint group_chain (fuel : nat) (room_id : string) (cursor : option N)
    (chain : list StateGroup) : option (result store_error (list StateGroup)) :=
  match cursor with
  | None => Some (Ok chain)
  | Some id =>
      match fuel with
      | O => None
      | S fuel =>
          match group_of room_id id with
          | Ok (Some g) => group_chain fuel room_id (sg_parent g) (chain ++ [g])
          | Ok None => Some (Err (Engine "state group missing"))
          | Err e => Some (Err e)
          end
      end
  end.

(** A [BTreeMap<(type, state_key), event_id>]. *)
Abbreviation StateMap := (gmap (string * string) string) (only parsing).

(** Later entries override: [map.insert(k, v)] in order. *)
Definition add_entries (m : StateMap) (l : state_entries) : StateMap :=
  foldl (λ (m : StateMap) kv, <[kv.1 := kv.2]> m) m l.

Definition resolve_group (fuel : nat) (room_id : string) (group : N) :
    option (result store_error StateMap) :=
  r ← group_chain fuel room_id (Some group) [];
  Some (let? chain := r in
        Ok (foldl (λ m g, add_entries m (sg_entries g)) ∅ (rev chain))).

(** [u64::from_be_bytes(k[k.len() - 8..])] *)
Definition key_u64 (what : string) (k : bytes) : result store_error N :=
  ok_or (from_be64 (str_drop (String.length k - 8) k)) (Engine what).

(** The window shared by [room_timeline] and [room_history]: numbers in
    [(after, until]]. *)
Definition window_start (room_id : string) (after : N) : bytes :=
  room_u64_key room_id (saturating_add64 after 1).

Definition window_end (room_id : string) (until : option N) : bytes :=
  match until with
  | Some u => if (u =? u64_max)%N then room_u64_end room_id else room_u64_key room_id (u + 1)
  | None => room_u64_end room_id
  end.

Definition window_rows (t : N) (room_id : string) (after : N) (until : option N) (limit : N)
    (reverse : bool) : result store_error (list (N * string)) :=
  try_fold (λ out '(k, v),
    let? n := key_u64 "key width" k in
    let? event_id := utf8 "value not UTF-8" v in
    Ok (out ++ [(n, event_id)]))
  [] (read_scan store t (window_start room_id after) (window_end room_id until) limit reverse).

Definition room_timeline (room_id : string) (after : N) (until : option N) (limit : N)
    (newest_first : bool) : result store_error (list (N * string)) :=
  window_rows T_ROOM_SEQ room_id after until limit newest_first.

Definition room_history (room_id : string) (after : N) (until : option N) (limit : N)
    (oldest_first : bool) : result store_error (list (N * string)) :=
  window_rows T_HISTORY room_id after until limit oldest_first.

(** [timeline]: entries of the whole shard with [seq > from]. *)
Definition timeline (from limit : N) : result store_error (list (N * SeqEntry)) :=
  try_fold (λ out '(k, v),
    let? seq := ok_or (from_be64 k) (Engine "seq key width") in
    let? entry := dec_or (A := SeqEntry) "seq entry decode" v in
    Ok (out ++ [(seq, entry)]))
  [] (read_scan store T_SEQ (be64 (add64 from 1)) EmptyString limit false).

(** [receipts]: user and type are cut out of the key at the separators. *)
Definition receipts (room_id : string) :
    result store_error (list (string * string * ReceiptRecord)) :=
  let start := room_id +:+ str1 b0 in
  try_fold (λ out '(k, v),
    let rest := str_drop (String.length start) k in
    let? sep := ok_or (position b0 rest) (Engine "receipt key shape") in
    let? user_id := utf8 "receipt user not UTF-8" (str_take sep rest) in
    let type_and_thread := str_drop (sep + 1) rest in
    let type_end := default (String.length type_and_thread) (position b0 type_and_thread) in
    let? receipt_type := utf8 "receipt type not UTF-8" (str_take type_end type_and_thread) in
    let? record := dec_or (A := ReceiptRecord) "receipt decode" v in
    Ok (out ++ [(user_id, receipt_type, record)]))
  [] (read_range store T_RECEIPT start (room_u64_end room_id)).

(** [parse_raw] *)
Definition parse_raw (raw : bytes) : result store_error json_object :=
  match json_parse raw with
  | Some (JObject o) => Ok o
  | Some _ => Err (Engine "stored event not an object")
  | None => Err (Engine "event json")
  end.

(** [redacted_by] *)
Definition redacted_by (event_id : string) : result store_error (option string) :=
  match read_get store T_REDACT event_id with
  | None => Ok None
  | Some entry =>
      let? entry := utf8 "redact value not UTF-8" entry in
      match decode_directive entry with
      | Applies id => Ok (Some id)
      | Pending redactor_id may_redact =>
          let? target := event event_id in
          let? redactor := event redactor_id in
          match target, redactor with
          | Some target, Some redactor =>
              if is_some (se_rejected target) then Ok None
              else
                let? target := parse_raw (se_raw target) in
                let? redactor := parse_raw (se_raw redactor) in
                match json_str target "room_id", json_str target "sender" with
                | Some room_id, Some sender =>
                    if negb (bool_decide (json_str redactor "room_id" = Some room_id)) then Ok None
                    else if may_redact || bool_decide (json_str redactor "sender" = Some sender)
                    then Ok (Some redactor_id)
                    else Ok None
                | _, _ => Ok None
                end
          | _, _ => Ok None
          end
      end
  end.

Definition txn_event (user_id device_id scope txn_id : string) :
    result store_error (option string) :=
  match read_get store T_TXN (txn_key user_id device_id scope txn_id) with
  | Some v => let? id := utf8 "txn event id not UTF-8" v in Ok (Some id)
  | None => Ok None
  end.

(** [v.splitn(3, '\0')] *)
Definition txn_echo (event_id : string) :
    result store_error (option (string * string * string)) :=
  match read_get store T_TXN_ECHO event_id with
  | None => Ok None
  | Some v =>
      let? v := utf8 "txn echo not UTF-8" v in
      match split_once b0 v with
      | (u, Some rest) =>
          match split_once b0 rest with
          | (d, Some t) => Ok (Some (u, d, t))
          | (_, None) => Err (Engine "txn echo value shape")
          end
      | (_, None) => Err (Engine "txn echo value shape")
      end
  end.

(** [served_event]: the stored text, redacted and annotated when a redaction
    applies.  The redaction algorithm of the room version is ruma's. *)
Context (redact : json_object → option json_object).

Definition served_event (event_id : string) : result store_error (option json_object) :=
  let? stored := event event_id in
  match stored with
  | None => Ok None
  | Some stored =>
      if is_some (se_rejected stored) then Ok None
      else
        let? raw := parse_raw (se_raw stored) in
        let? by_id := redacted_by event_id in
        match by_id with
        | None => Ok (Some raw)
        | Some redactor_id =>
            let? redactor := event redactor_id in
            match redactor with
            | None => Ok (Some raw)
            | Some redactor =>
                let? raw := ok_or (redact raw) (Engine "redact") in
                let? because := parse_raw (se_raw redactor) in
                let unsigned := match obj_get "unsigned" raw with
                                | Some (JObject o) => o
                                | _ => []
                                end in
                Ok (Some (obj_insert "unsigned"
                  (JObject (obj_insert "redacted_because" (JObject because) unsigned)) raw))
            end
        end
  end.

End Read.
