(* ===== verification/RoomAppend.v ===== *)
(** * Appends and redactions (saltator-roomserver/src/machine.rs)

    What an accepted and a rejected append leave behind, idempotence, and
    who may overwrite whose redaction directive. *)

From Stdlib Require Import Ascii.
From S2P Require Import Prelude Bytes Store Codec Json Shard ShardFacts.
From S2P Require Import RoomTypes RoomMachine Demo RoomDemo.
From stdpp Require Import options.

Section Append.
Context `{RC : RoomCodecs, JT : JsonText}.

Definition event_at (env : ApplyEnv) (c : ApplyState) (id : string) : option StoredEvent :=
  tget env c T_EVENT id ≫= dec.

Definition room_at (env : ApplyEnv) (c : ApplyState) (room : string) : option RoomMeta :=
  tget env c T_ROOM room ≫= dec.

(** The stored record of the room, if any, decodes. *)
Definition room_decodes (env : ApplyEnv) (c : ApplyState) (room : string) : Prop :=
  ∀ b, tget env c T_ROOM room = Some b → is_Some (dec (A := RoomMeta) b).

Lemma groups_run room l env c :
  runs (put_groups room l) env (λ _ c', frame (λ t _, t ≠ T_GROUP) env c c') c.
Proof.
  unfold put_groups, app_iter.
  apply (runs_fold _ _ (λ _ _ c', frame (λ t _, t ≠ T_GROUP) env c c')); [|apply frame_refl].
  intros _ [id g] l' c1 H1. run_step. eapply frame_trans; [done|]. apply frame_put; [done|].
  intros Hne. by apply Hne.
Qed.

Definition with_next_group (m : RoomMeta) (n : N) : RoomMeta := {|
  rm_version := rm_version m; rm_create_event_id := rm_create_event_id m;
  rm_current_group := rm_current_group m; rm_next_group := n;
  rm_extremities := rm_extremities m; rm_history_frontier := rm_history_frontier m;
  rm_next_history_idx := rm_next_history_idx m; rm_gap_markers := rm_gap_markers m |}.

Lemma with_next_group_same m : with_next_group m (rm_next_group m) = m.
Proof. by destruct m. Qed.

(** A rejected event is
    stored, once, off the timeline, and moves nothing else: no sequence
    number, no published record, no row of any other room, and of its own
    room only the group allocator, which never goes back. *)
Theorem append_rejected_inert cmd why env c :
  ae_rejected cmd = Some why →
  tget env c T_EVENT (ae_event_id cmd) = None →
  room_decodes env c (ae_room_id cmd) →
  runs (apply_append cmd) env (λ resp c',
    resp = RRejected (ae_event_id cmd) (reason why) ∧
    (∃ s, event_at env c' (ae_event_id cmd) = Some s ∧
      se_seq s = 0%N ∧ se_rejected s = Some why ∧ visible s = false) ∧
    frame (λ t k, t ≠ T_GROUP ∧ (t, k) ≠ (T_EVENT, ae_event_id cmd) ∧
                  (t, k) ≠ (T_ROOM, ae_room_id cmd)) env c c' ∧
    room_at env c' (ae_room_id cmd) =
      (λ m, with_next_group m (N.max (rm_next_group m) (ae_next_group cmd)))
        <$> room_at env c (ae_room_id cmd)) c.
Proof.
  intros Hrej Hnew Hdec. unfold apply_append. do 2 run_step. rewrite Hnew, Hrej. simpl.
  unfold append_rejected. do 2 run_step.
  set (c1 := with_wb _ _). set (P := λ t k, t ≠ T_GROUP ∧ _ ∧ _).
  assert (frame P env c c1) as F1.
  { apply frame_put; [done|]. by intros (_ & Hne & _). }
  run_step. eapply runs_mono; [|apply groups_run]. intros [] c2 F2.
  assert (frame P env c1 c2) as F2'.
  { eapply frame_mono; [|done]. by intros t k []. }
  assert (tget env c2 T_ROOM (ae_room_id cmd) = tget env c T_ROOM (ae_room_id cmd)) as Hroom.
  { rewrite (fr_cells _ _ _ _ F2) by done. unfold c1. by rewrite tget_put_other. }
  assert (tget env c2 T_EVENT (ae_event_id cmd) = tget env c1 T_EVENT (ae_event_id cmd)) as Hev.
  { by rewrite (fr_cells _ _ _ _ F2). }
  run_step. apply runs_get_typed; [by rewrite Hroom|]. rewrite Hroom.
  fold (room_at env c (ae_room_id cmd)). run_step.
  assert (∀ c3, (c3 = c2 ∨ ∃ v, c3 = with_wb (wb_put (ctx_key (shard env) T_ROOM (ae_room_id cmd)) v (wb c2)) c2) →
    frame P env c c3 ∧ ∃ s, event_at env c3 (ae_event_id cmd) = Some s ∧
      se_seq s = 0%N ∧ se_rejected s = Some why ∧ visible s = false) as Hout.
  { intros c3 Hc3. split.
    - eapply frame_trans; [done|]. eapply frame_trans; [done|].
      destruct Hc3 as [->|[v ->]]; [apply frame_refl|]. apply frame_put; [done|].
      by intros (_ & _ & Hne).
    - assert (event_at env c3 (ae_event_id cmd) = event_at env c1 (ae_event_id cmd)) as ->.
      { unfold event_at. destruct Hc3 as [->|[v ->]]; [by rewrite Hev|].
        by rewrite tget_put_other, Hev. }
      eexists. split.
      + unfold event_at, c1. rewrite tget_put, decide_True by done. simpl. by rewrite dec_enc.
      + by split_and!. }
  destruct (room_at env c (ae_room_id cmd)) as [m|] eqn:Hm.
  - destruct (N.ltb_spec (rm_next_group m) (ae_next_group cmd)) as [Hlt|Hge].
    + do 2 run_step. destruct (Hout _ (or_intror (ex_intro _
        (enc (with_next_group m (ae_next_group cmd))) eq_refl))) as [Hf Hs].
      split_and!; [done|done|done|]. unfold room_at. rewrite tget_put, decide_True by done.
      simpl. rewrite dec_enc. f_equal. unfold with_next_group. by rewrite N.max_r by lia.
    + do 2 run_step. destruct (Hout _ (or_introl eq_refl)) as [Hf Hs].
      split_and!; [done|done|done|]. unfold room_at. rewrite Hroom. fold (room_at env c (ae_room_id cmd)).
      rewrite Hm. simpl. rewrite N.max_l by lia. by rewrite with_next_group_same.
  - do 2 run_step. destruct (Hout _ (or_introl eq_refl)) as [Hf Hs].
    split_and!; [done|done|done|]. unfold room_at. by rewrite Hroom.
Qed.

Lemma timeline_run room id mk env c :
  runs (put_timeline room id mk) env (λ n c', n = add64 (seq c) 1 ∧ seq c' = n ∧
    emits c' = emits c ++ [(n, enc (ChangeEvent room id))] ∧
    event_at env c' id = Some (mk n) ∧
    tget env c' T_SEQ (be64 n) = Some (enc (SeqEvent room id)) ∧
    tget env c' T_ROOM_SEQ (room_u64_key room n) = Some id ∧
    ∀ t k, (t < 256)%N → (t, k) ≠ (T_EVENT, id) → (t, k) ≠ (T_SEQ, be64 n) →
      (t, k) ≠ (T_ROOM_SEQ, room_u64_key room n) → tget env c' t k = tget env c t k) c.
Proof.
  unfold put_timeline. repeat run_step. split_and!; [done|done|done|..].
  - unfold event_at. rewrite !tget_put_other by done. rewrite tget_put, decide_True by done.
    simpl. by rewrite dec_enc.
  - rewrite tget_put_other by done. by rewrite tget_put, decide_True by done.
  - by rewrite tget_put, decide_True by done.
  - intros t k Ht H1 H2 H3. rewrite tget_put by done.
    rewrite decide_False by (intros [<- <-]; by apply H3).
    rewrite tget_put by done. rewrite decide_False by (intros [<- <-]; by apply H2).
    rewrite tget_put by done. by rewrite decide_False by (intros [<- <-]; by apply H1).
Qed.

Lemma redact_run directive id env c :
  runs (put_redact directive id) env (λ _ c', frame (λ t _, t ≠ T_REDACT) env c c') c.
Proof.
  unfold put_redact. destruct (decode_directive directive) as [target|target may].
  - run_step. apply frame_put; [done|]. intros Hne. by apply Hne.
  - run_step. assert (∀ b : bool, runs (if b then mret () else ctx_put T_REDACT target
      (encode_directive (Pending id may))) env (λ _ c', frame (λ t _, t ≠ T_REDACT) env c c') c)
      as Hb.
    { intros [|]; run_step; [apply frame_refl|]. apply frame_put; [done|]. intros Hne. by apply Hne. }
    destruct may; [run_step; apply (Hb false)|do 3 run_step; apply Hb].
Qed.

(** An accepted event
    takes the next sequence number; it is readable under its id, at that
    number, and in its room's timeline; exactly one record is published; the
    room's current state moves to what the command says (a create event
    starts the room); other rooms do not change; and applying the same
    command again changes nothing and answers [Duplicate]. *)
Theorem append_accepted_effects cmd env c :
  ae_rejected cmd = None →
  tget env c T_EVENT (ae_event_id cmd) = None →
  room_decodes env c (ae_room_id cmd) →
  (ae_create_version cmd = None → is_Some (room_at env c (ae_room_id cmd))) →
  let n := add64 (seq c) 1 in
  runs (apply_append cmd) env (λ resp c',
    resp = RAccepted (ae_event_id cmd) n ∧ seq c' = n ∧
    emits c' = emits c ++ [(n, enc (ChangeEvent (ae_room_id cmd) (ae_event_id cmd)))] ∧
    event_at env c' (ae_event_id cmd) = Some (accepted_event cmd n) ∧
    tget env c' T_SEQ (be64 n) = Some (enc (SeqEvent (ae_room_id cmd) (ae_event_id cmd))) ∧
    tget env c' T_ROOM_SEQ (room_u64_key (ae_room_id cmd) n) = Some (ae_event_id cmd) ∧
    room_at env c' (ae_room_id cmd) =
      match ae_create_version cmd with
      | Some version => Some (created_meta cmd version)
      | None => advanced_meta cmd <$> room_at env c (ae_room_id cmd)
      end ∧
    (∀ room, room ≠ ae_room_id cmd → tget env c' T_ROOM room = tget env c T_ROOM room) ∧
    apply_append cmd env c' = Ok (RDuplicate (ae_event_id cmd), c')) c.
Proof.
  intros Hrej Hnew Hdec Hknown n. unfold apply_append at 1. do 2 run_step. rewrite Hnew, Hrej.
  simpl. run_step. eapply runs_mono; [|apply timeline_run].
  intros m c1 (-> & Hs1 & He1 & Hev1 & Hseq1 & Hrs1 & Hfr1). fold n in Hs1, He1, Hev1, Hseq1, Hrs1, Hfr1 |- *.
  run_step. apply (runs_mono _ _ (λ _ c', frame (λ t _, t ≠ T_REDACT) env c1 c')).
  2: { destruct (ae_redacts cmd); [apply redact_run|run_step; apply frame_refl]. }
  intros [] c2 F2. run_step. eapply runs_mono; [|apply groups_run]. intros [] c3 F3.
  assert (∀ t k, (t < 256)%N → t ≠ T_REDACT → t ≠ T_GROUP → tget env c3 t k = tget env c1 t k) as H31.
  { intros t k Ht H1 H2. by rewrite (fr_cells _ _ _ _ F3), (fr_cells _ _ _ _ F2). }
  assert (∀ room, tget env c3 T_ROOM room = tget env c T_ROOM room) as Hroom.
  { intros room. by rewrite H31, Hfr1. }
  set (m' := match ae_create_version cmd with
             | Some version => Some (created_meta cmd version)
             | None => advanced_meta cmd <$> room_at env c (ae_room_id cmd)
             end).
  run_step. apply (runs_mono _ _ (λ m c', c' = c3 ∧ Some m = m')).
  2: { unfold m'. destruct (ae_create_version cmd); [by run_step|]. run_step.
       apply runs_get_typed; [by rewrite Hroom|]. rewrite Hroom.
       destruct (Hknown eq_refl) as [m Hm]. unfold room_at in *. rewrite Hm. by run_step. }
  intros m c4 [-> Hm]. repeat run_step. set (c5 := with_wb _ _).
  assert (∀ t k, (t < 256)%N → t ≠ T_REDACT → t ≠ T_GROUP → t ≠ T_ROOM →
    tget env c5 t k = tget env c1 t k) as H51.
  { intros t k Ht H1 H2 H3. unfold c5. rewrite tget_put_other by done. by apply H31. }
  split_and!.
  - done.
  - unfold c5; simpl. by rewrite (fr_seq _ _ _ _ F3), (fr_seq _ _ _ _ F2).
  - unfold c5; simpl. by rewrite (fr_emits _ _ _ _ F3), (fr_emits _ _ _ _ F2).
  - unfold event_at. by rewrite H51.
  - by rewrite H51.
  - by rewrite H51.
  - unfold room_at at 1, c5. rewrite tget_put, decide_True by done. simpl. by rewrite dec_enc.
  - intros room Hne. unfold c5. rewrite tget_put by done. rewrite decide_False by naive_solver.
    apply Hroom.
  - unfold apply_append, mbind, app_bind, ctx_get.
    change (overlay (wb c5) (ctx_engine env) (ctx_key (shard env) T_EVENT (ae_event_id cmd)))
      with (tget env c5 T_EVENT (ae_event_id cmd)).
    rewrite H51 by done. unfold event_at in Hev1. by destruct (tget env c1 T_EVENT _).
Qed.
End Append.

(** ** Witnesses *)

Definition demo_ctx : ApplyEnv := {| shard := demo_shard; ctx_engine := ∅ |}.

Definition demo_rejected : AppendEvent := {|
  ae_room_id := "!r"; ae_event_id := "$x"; ae_raw := demo_raw []; ae_depth := 2;
  ae_rejected := Some (RejState "no"); ae_new_groups := [(3%N, {| sg_parent := Some 1%N;
    sg_chain_len := 1; sg_entries := [] |})]; ae_state_group_after := 3;
  ae_new_current_group := 3; ae_new_extremities := ["$x"]; ae_next_group := 4;
  ae_create_version := None; ae_redacts := None; ae_relay := false |}%string.

Lemma append_rejected_inert_witness :
  runs (apply_append demo_rejected) demo_ctx (λ resp c',
    resp = RRejected "$x" "no" ∧ seq c' = 5%N) (apply_init 5).
Proof.
  eapply runs_mono; [|apply (append_rejected_inert demo_rejected (RejState "no")
    demo_ctx (apply_init 5))]; [|reflexivity|vm_compute; reflexivity|].
  - intros resp c' (-> & _ & Hf & _). split; [done|]. apply (fr_seq _ _ _ _ Hf).
  - intros b Hb. vm_compute in Hb. discriminate Hb.
Defined.

Lemma append_accepted_effects_witness :
  runs (apply_append (demo_append "!r" "$c" (Some "12"%string))) demo_ctx (λ resp c',
    resp = RAccepted "$c" 6 ∧
    apply_append (demo_append "!r" "$c" (Some "12"%string)) demo_ctx c' =
      Ok (RDuplicate "$c", c')) (apply_init 5).
Proof.
  eapply runs_mono; [|apply (append_accepted_effects
    (demo_append "!r" "$c" (Some "12"%string)) demo_ctx (apply_init 5))];
    [|reflexivity|vm_compute; reflexivity|..].
  - intros resp c' (-> & _ & _ & _ & _ & _ & _ & _ & Hdup). by split.
  - intros b Hb. vm_compute in Hb. discriminate Hb.
  - intros Hc. discriminate Hc.
Defined.

(** ** Transaction records and overtaken redactions

    [put_txn] against [txn_event]/[txn_echo], and what becomes of a
    redaction that arrives before its target. *)

From S2P Require Import RoomRead.

Section Txn.
Context `{RC : RoomCodecs, JT : JsonText}.

Definition stamp_key (t : TxnStamp) : bytes :=
  txn_key (ts_user_id t) (ts_device_id t) (ts_scope t) (ts_txn_id t).

Definition stamp_echo (t : TxnStamp) : bytes :=
  ts_user_id t +:+ String b0 (ts_device_id t +:+ String b0 (ts_txn_id t)).

(** What the records say now, whatever else the batch did. *)
Definition recorded (t : TxnStamp) (event_id : string) (env : ApplyEnv) (c : ApplyState) : Prop :=
  tget env c T_TXN (stamp_key t) = Some event_id ∧
  tget env c T_TXN_ECHO event_id = Some (stamp_echo t) ∧
  (∀ k, k ≠ stamp_key t → tget env c T_TXN k ≠ Some event_id).

Lemma recorded_delete t event_id env c tab k :
  (tab < 256)%N → (tab, k) ≠ (T_TXN, stamp_key t) → (tab, k) ≠ (T_TXN_ECHO, event_id) →
  recorded t event_id env c →
  recorded t event_id env (with_wb (wb_delete (ctx_key (shard env) tab k) (wb c)) c).
Proof.
  intros Ht H1 H2 (Hk & He & Ho). unfold recorded. split_and!.
  - rewrite tget_delete, decide_False by (done || by intros [-> ->]). done.
  - rewrite tget_delete, decide_False by (done || by intros [-> ->]). done.
  - intros k' Hk'. rewrite tget_delete by done. case_decide; [done|]. by apply Ho.
Qed.

(** The index rows the prune of [t] visits. *)
Definition stale_rows (env : ApplyEnv) (t : TxnStamp) : list (bytes * bytes) :=
  rows (shard env) T_TXN_IDX EmptyString (be64 (saturating_sub64 (ts_ts t) TXN_HORIZON_MS))
    (ctx_engine env).

(** Once an
    accepted event was stamped with its transaction, a retry of the same
    transaction finds that event, and the event's local echo names the
    device and transaction back, on any replica that applied the batch.  The
    horizon prune never takes the fresh record with it, as long as no index
    row older than the horizon names the same transaction. *)
Theorem txn_recorded t event_id env c :
  nul_free (ts_user_id t) = true → nul_free (ts_device_id t) = true →
  utf8_ok event_id = true → utf8_ok (stamp_echo t) = true →
  (∀ k v, (k, v) ∈ stale_rows env t → str_drop 8 k ≠ stamp_key t) →
  (∀ k, tget env c T_TXN k ≠ Some event_id) →
  runs (put_txn t event_id) env (λ _ c',
    let store := {| r_shard := shard env; r_engine := write_batch (wb c') (ctx_engine env) |} in
    txn_event store (ts_user_id t) (ts_device_id t) (ts_scope t) (ts_txn_id t) =
      Ok (Some event_id) ∧
    txn_echo store event_id = Ok (Some (ts_user_id t, ts_device_id t, ts_txn_id t))) c.
Proof.
  intros Hu Hd He8 Ht8 Hstale Hfresh.
  apply (runs_mono _ _ (λ _ c', recorded t event_id env c')).
  { intros [] c' (Hk & He & _).
    assert (∀ tab k, read_get {| r_shard := shard env;
      r_engine := write_batch (wb c') (ctx_engine env) |} tab k = tget env c' tab k) as Hget.
    { intros. unfold read_get, tget, view; simpl. by rewrite overlay_write_batch. }
    split.
    - unfold txn_event. rewrite Hget. fold (stamp_key t). rewrite Hk.
      unfold utf8, from_utf8. by rewrite He8.
    - unfold txn_echo. rewrite Hget, He. unfold utf8, from_utf8. rewrite Ht8.
      unfold stamp_echo. by rewrite !split_once_nul. }
  unfold put_txn. fold (stamp_key t). fold (stamp_echo t). do 6 run_step.
  set (c1 := with_wb _ _).
  assert (recorded t event_id env c1) as H1.
  { unfold recorded, c1. split_and!.
    - rewrite !tget_put_other by done. by rewrite tget_put, decide_True by done.
    - by rewrite tget_put, decide_True by done.
    - intros k Hk. rewrite !tget_put_other by done. rewrite tget_put by done.
      rewrite decide_False by naive_solver. apply Hfresh. }
  run_step. exists (stale_rows env t), c1. split.
  { unfold ctx_range, stale_rows, rows. by destruct (range_bounds _ _ _ _). }
  set (I := λ (l : list (bytes * bytes)) (_ : ()) c', recorded t event_id env c' ∧
    ∀ k v, (k, v) ∈ l → str_drop 8 k ≠ stamp_key t).
  apply (runs_mono _ _ (I [])); [by intros [] c' []|].
  unfold app_iter. apply (runs_fold _ _ I); [|done].
  intros [] [k v] l c2 [H2 Hl].
  assert (str_drop 8 k ≠ stamp_key t) as Hk by (apply (Hl k v); by left).
  assert (∀ k v, (k, v) ∈ l → str_drop 8 k ≠ stamp_key t) as Hl'.
  { intros k' v' Hin. apply (Hl k' v'). by right. }
  do 2 run_step. set (c3 := with_wb _ _).
  assert (recorded t event_id env c3) as H3 by (by apply recorded_delete).
  case_bool_decide; [|by run_step].
  do 2 run_step. run_step. apply (runs_mono _ _ (λ _ c', recorded t event_id env c')).
  { intros [] c4 H4. run_step. split; [|done]. apply recorded_delete; [done| |done|done].
    intros [= He]. done. }
  destruct (tget env c3 T_TXN (str_drop 8 k)) as [id|] eqn:Hid; run_step; [|done].
  apply recorded_delete; [done|done| |done]. intros [= ->].
  destruct H3 as (_ & _ & Ho). by apply (Ho (str_drop 8 k)).
Qed.
End Txn.

Definition demo_stamp : TxnStamp := {|
  ts_user_id := "@u"; ts_device_id := "D"; ts_scope := "send"; ts_txn_id := "t1";
  ts_ts := 90000000 |}.

Lemma txn_recorded_witness :
  runs (put_txn demo_stamp "$m") demo_ctx (λ _ c',
    txn_event {| r_shard := demo_shard; r_engine := write_batch (wb c') ∅ |}
      "@u" "D" "send" "t1" = Ok (Some "$m"%string)) (apply_init 5).
Proof.
  eapply runs_mono; [|apply (txn_recorded demo_stamp "$m" demo_ctx (apply_init 5))];
    [|reflexivity|reflexivity|vm_compute; reflexivity|vm_compute; reflexivity|..].
  - intros [] c' [H _]. exact H.
  - intros k v Hin. assert (stale_rows demo_ctx demo_stamp = []) as Hnil
      by (vm_compute; reflexivity). rewrite Hnil in Hin. by apply not_elem_of_nil in Hin.
  - intros k Hk. discriminate Hk.
Defined.

(** ** Redactions that overtake their target *)

(** An event of room [!r], with its sender, and what it redacts. *)
Definition demo_event (event_id sender : string) (redacts : option string) : AppendEvent := {|
  ae_room_id := "!r"; ae_event_id := event_id;
  ae_raw := demo_raw [("room_id", "!r"); ("sender", sender)]; ae_depth := 2;
  ae_rejected := None; ae_new_groups := []; ae_state_group_after := 1;
  ae_new_current_group := 1; ae_new_extremities := [event_id]; ae_next_group := 2;
  ae_create_version := None; ae_redacts := redacts; ae_relay := false |}%string.

(** The author's own redaction of [$x], undecided: [$x] is not here yet. *)
Definition self_redaction : AppendEvent :=
  demo_event "$r" "@alice" (Some (encode_directive (Pending "$x" false))).

(** Anybody else's, naming the same event. *)
Definition other_redaction : AppendEvent :=
  demo_event "$o" "@mallory" (Some (encode_directive (Pending "$x" false))).

Definition redaction_of (cmds : list AppendEvent) : option (result store_error (option string)) :=
  match sm_run demo_shard RoomApp
    [map (λ c, room_entry 1 (Append c)) (demo_append "!r" "$c" (Some "12"%string) :: cmds)] ∅ with
  | Ok (e, _) => Some (redacted_by {| r_shard := demo_shard; r_engine := e |} "$x")
  | Err _ => None
  end.

(** A self-redaction that
    overtakes its target takes effect when the target lands; but if another
    user's redaction without the power level, which can never apply, got
    there first, the author's is dropped ("that one either applies outright
    or carries the redact power level, and both outrank this one" is not so:
    the held entry may be undecided too) and the event is served
    unredacted. *)
Theorem overtaking_redaction_lost :
  redaction_of [self_redaction; demo_event "$x" "@alice" None] = Some (Ok (Some "$r"%string)) ∧
  redaction_of [other_redaction; demo_event "$x" "@alice" None] = Some (Ok None) ∧
  redaction_of [other_redaction; self_redaction; demo_event "$x" "@alice" None]
    = Some (Ok None).
Proof. split_and!; vm_compute; reflexivity. Qed.
