(* ===== verification/RoomTimeline.v ===== *)
(** * The timeline only grows (saltator-roomserver/src/machine.rs)

    Readers of a room shard remember positions and come back later, on
    other replicas: the membership projection, the delivery worker, a
    syncing client.  They rely on the timeline keeping what it has: a number
    once given stays with its event, and the event keeps its text. *)

From Stdlib Require Import Ascii.
From S2P Require Import Prelude Bytes Store Codec Json Shard ShardFacts Track ShardSpec.
From S2P Require Import RoomTypes RoomMachine RoomReplay RoomRead.
From stdpp Require Import options.
Set Warnings "-clear-no-such-hyp".

Local Open Scope N_scope.

Section Timeline.
Context `{RC : RoomCodecs, JT : JsonText}.

(** The room an event belongs to: its id names it. *)
Context (room_of : string → string).

(** Commands put an event on the timeline of its own room. *)
Definition append_conforms (cmd : AppendEvent) : Prop := room_of (ae_event_id cmd) = ae_room_id cmd.

Definition conforms (cmd : RoomCommand) : Prop :=
  match cmd with
  | Append cmd | AppendStamped cmd _ => append_conforms cmd
  | Import cmd => room_of (ir_join_event_id cmd) = ir_room_id cmd
  | ImportSegmentCmd cmd =>
      Forall (λ ev, room_of (ie_event_id ev) = is_room_id cmd) (is_timeline cmd)
  | Receipt _ | ImportHistoryCmd _ => True
  end.

(** The text of an event on the timeline. *)
Definition text_at (f : cells) (id : string) : option bytes :=
  s ← f T_EVENT id ≫= dec (A := StoredEvent);
  if on_timeline s then Some (se_raw s) else None.

(** While a command about [room] runs, that room may have no record yet. *)
Record placed (room : option string) (log : list (N * bytes)) (n : N) (f : cells) : Prop := {
  pl_count : n = N.of_nat (length log);
  pl_room : ∀ id, is_Some (text_at f id) → is_Some (f T_ROOM (room_of id)) ∨ room = Some (room_of id);
  pl_row : ∀ m r id, (m, enc (ChangeEvent r id)) ∈ log → room_of id = r ∧ is_Some (text_at f id);
}.

Definition kept (f g : cells) : Prop := ∀ id raw, text_at f id = Some raw → text_at g id = Some raw.

Context (f0 : cells) (log0 : list (N * bytes)).

(** The invariant of an apply, until the counter would wrap: [fresh] events
    are not on the timeline. *)
Definition inv (room : option string) (fresh : string → Prop) (env : ApplyEnv) (c : ApplyState) : Prop :=
  N.of_nat (length (log0 ++ emits c)) < u64_modulus →
  placed room (log0 ++ emits c) (seq c) (tget env c)
  ∧ kept f0 (tget env c)
  ∧ ∀ id, fresh id → text_at (tget env c) id = None.

Lemma text_other env c c' id :
  tget env c' T_EVENT id = tget env c T_EVENT id → text_at (tget env c') id = text_at (tget env c) id.
Proof. unfold text_at. by intros ->. Qed.

Lemma text_enc f id s :
  f T_EVENT id = Some (enc s) → text_at f id = if on_timeline s then Some (se_raw s) else None.
Proof. unfold text_at. intros ->. simpl. by rewrite dec_enc. Qed.

(** A write that leaves every timeline text and every room record. *)
Lemma inv_same room fresh env c c' :
  inv room fresh env c → seq c' = seq c → emits c' = emits c →
  (∀ id, text_at (tget env c') id = text_at (tget env c) id) →
  (∀ r, is_Some (tget env c T_ROOM r) → is_Some (tget env c' T_ROOM r)) →
  inv room fresh env c'.
Proof.
  intros HI Hs He Ht Hr Hb. rewrite He in *. rewrite Hs. destruct (HI Hb) as ([Hc Hro Hrow] & Hk & Hf).
  split_and!; [split; [done|..]| |].
  - intros id. rewrite Ht. intros Hid. destruct (Hro id Hid); [left; by apply Hr|by right].
  - intros m r id Hin. rewrite Ht. by eapply Hrow.
  - intros id raw. rewrite Ht. apply Hk.
  - intros id. rewrite Ht. apply Hf.
Qed.

Lemma inv_put_other room fresh t k v :
  t < 256 → t ≠ T_EVENT → keeps (inv room fresh) (ctx_put t k v).
Proof.
  intros Ht Hne env c HI. apply wp_put. eapply inv_same; [exact HI|done|done|..].
  - intros id. apply text_other. by rewrite tget_put_other.
  - intros r Hr. rewrite tget_put by done. case_decide; [by eexists|done].
Qed.

Lemma inv_delete_other room fresh t k :
  t < 256 → t ≠ T_EVENT → t ≠ T_ROOM → keeps (inv room fresh) (ctx_delete t k).
Proof.
  intros Ht Hne Hne' env c HI. unfold wp, ctx_delete. eapply inv_same; [exact HI|done|done|..].
  - intros id. apply text_other. by rewrite tget_delete_other.
  - intros r Hr. by rewrite tget_delete_other.
Qed.

Lemma inv_room fresh r v env c :
  inv (Some r) fresh env c → wp (ctx_put T_ROOM r v) env (λ _ c', inv None fresh env c') c.
Proof.
  intros HI. apply wp_put. intros Hb. destruct (HI Hb) as ([Hc Hro Hrow] & Hk & Hf).
  assert (∀ id, text_at (tget env (with_wb (wb_put (ctx_key (shard env) T_ROOM r) v (wb c)) c)) id
    = text_at (tget env c) id) as Ht by (intros id; apply text_other; by rewrite tget_put_other).
  split_and!; [split; [done|..]| |].
  - intros id. rewrite Ht. intros Hid. left. rewrite tget_put by done. case_decide as Hd; [by eexists|].
    destruct (Hro id Hid) as [|Heq]; [done|]. simplify_eq. naive_solver.
  - intros m r' id Hin. rewrite Ht. by eapply Hrow.
  - intros id raw. rewrite Ht. apply Hk.
  - intros id. rewrite Ht. apply Hf.
Qed.

(** An event written off the timeline. *)
Lemma inv_off room fresh id s env c :
  inv room fresh env c → on_timeline s = false → text_at (tget env c) id = None →
  wp (ctx_put T_EVENT id (enc s)) env (λ _ c', inv room fresh env c') c.
Proof.
  intros HI Hs Hid. apply wp_put. eapply inv_same; [exact HI|done|done|..].
  - intros id'. destruct (decide (id' = id)) as [->|Hne].
    + rewrite Hid, (text_enc _ _ s); [by rewrite Hs|]. by rewrite tget_put, decide_True.
    + apply text_other. rewrite tget_put by done. by rewrite decide_False by naive_solver.
  - intros r Hr. by rewrite tget_put_other.
Qed.

Lemma inv_receipt room fresh r env c :
  inv room fresh env c →
  wp (ctx_emit (enc (ChangeReceipt r))) env (λ _ c', inv room fresh env c') c.
Proof.
  intros HI. apply wp_emit. intros Hb. cbn [emits seq] in *. rewrite app_assoc, length_app in *. simpl in Hb.
  destruct (HI ltac:(lia)) as ([Hc Hro Hrow] & Hk & Hf). split_and!; [split|done|done].
  - rewrite add64_small by lia. rewrite length_app. simpl. lia.
  - done.
  - intros m r' id [Hin|Hin]%elem_of_app; [by eapply Hrow|].
    apply list_elem_of_singleton in Hin as [= _ Heq]. apply (f_equal dec) in Heq.
    by rewrite !dec_enc in Heq.
Qed.

(** An event put on the timeline of its room. *)
Lemma inv_timeline r fresh id mk env c :
  (∀ n, se_seq (mk n) = n) → room_of id = r →
  inv (Some r) (λ i, i = id ∨ fresh i) env c → ¬ fresh id →
  wp (put_timeline r id mk) env (λ _ c', inv (Some r) fresh env c') c.
Proof.
  intros Hmk Hr HI Hnf. unfold put_timeline. repeat wp_step. intros Hb. cbn [emits seq with_wb] in *.
  rewrite app_assoc, length_app in *. simpl in Hb.
  destruct (HI ltac:(lia)) as ([Hc Hro Hrow] & Hk & Hf).
  rewrite add64_small by lia. set (c' := with_wb _ _).
  assert (∀ i, text_at (tget env c') i
    = if decide (i = id) then Some (se_raw (mk (seq c + 1))) else text_at (tget env c) i) as Ht.
  { intros i. destruct (decide (i = id)) as [->|Hne].
    - rewrite (text_enc _ _ (mk (seq c + 1))).
      + unfold on_timeline. rewrite Hmk. destruct (N.ltb_spec 0 (seq c + 1)); [done|lia].
      + unfold c'. rewrite !tget_put_other by done. by rewrite tget_put, decide_True.
    - apply text_other. unfold c'. rewrite !tget_put_other by done. rewrite tget_put by done.
      rewrite decide_False by naive_solver. done. }
  assert (∀ i, is_Some (text_at (tget env c) i) → text_at (tget env c') i = text_at (tget env c) i) as Hold.
  { intros i [raw Hi]. rewrite Ht. case_decide as Hd; [|done]. subst i. rewrite Hf in Hi by by left. done. }
  split_and!; [split| |].
  - rewrite length_app. simpl. lia.
  - intros i. rewrite Ht. case_decide as Hd; [subst i; intros _; right; by rewrite Hr|].
    intros Hi. destruct (Hro i Hi) as [Hx|]; [left|by right]. unfold c'. by rewrite !tget_put_other.
  - intros m r' i [Hin|Hin]%elem_of_app.
    + destruct (Hrow _ _ _ Hin) as [? Hi]. by rewrite Hold.
    + apply list_elem_of_singleton in Hin as [= _ Heq]. apply (f_equal dec) in Heq.
      rewrite !dec_enc in Heq. injection Heq as -> ->. split; [done|]. rewrite Ht, decide_True by done. by eexists.
  - intros i raw Hi. apply Hk in Hi. by rewrite Hold.
  - intros i Hi. rewrite Ht, decide_False by naive_solver. apply Hf. by right.
Qed.

Lemma inv_mono room room' (fresh fresh' : string → Prop) env c :
  (room = None ∨ room = room') → (∀ id, fresh' id → fresh id) → inv room fresh env c → inv room' fresh' env c.
Proof.
  intros Hr Hf HI Hb. destruct (HI Hb) as ([Hc Hro Hrow] & Hk & Hfr). split_and!; [split|..]; try done; [|by auto].
  intros id Hid. destruct (Hro id Hid) as [|Hx]; [by left|]. destruct Hr as [-> | ->]; [done|by right].
Qed.

Lemma inv_fresh room (fresh new : string → Prop) env c :
  (∀ id, new id → text_at (tget env c) id = None) →
  inv room fresh env c → inv room (λ i, new i ∨ fresh i) env c.
Proof.
  intros Hn HI Hb. destruct (HI Hb) as (? & ? & Hf). split_and!; [done..|]. intros id [Hi|Hi]; auto.
Qed.

#[local] Hint Extern 2 (keeps (inv _ _) (ctx_put _ _ _)) => (apply inv_put_other; done) : keeps.
#[local] Hint Extern 2 (keeps (inv _ _) (ctx_delete _ _)) => (apply inv_delete_other; done) : keeps.

Lemma inv_support room fresh ev : keeps (inv room fresh) (put_support ev).
Proof.
  intros env c HI. unfold put_support. do 2 wp_step.
  destruct (tget env c T_EVENT (ie_event_id ev)) as [b|] eqn:Hb; [by apply wp_ret|].
  apply inv_off; [done|done|]. unfold text_at. by rewrite Hb.
Qed.

Lemma inv_groups room fresh r l : keeps (inv room fresh) (put_groups r l).
Proof. unfold put_groups. solve_keeps. Qed.

Lemma inv_redact room fresh d id : keeps (inv room fresh) (put_redact d id).
Proof. unfold put_redact. solve_keeps. Qed.

Lemma inv_txn room fresh t id : keeps (inv room fresh) (put_txn t id).
Proof. unfold put_txn. solve_keeps. Qed.

#[local] Hint Resolve inv_support inv_groups inv_redact inv_txn : keeps.

Lemma wp_keeps {A} (I : ApplyEnv → ApplyState → Prop) (m : app A) env c :
  keeps I m → I env c → wp m env (λ _ c', I env c') c.
Proof. intros Hm. apply Hm. Qed.

Definition settled : ApplyEnv → ApplyState → Prop := inv None (λ _, False).

(** A command that puts [id] on the timeline of [r], then records the room. *)
Lemma settled_timeline r id mk env c :
  (∀ n, se_seq (mk n) = n) → room_of id = r → text_at (tget env c) id = None →
  settled env c → wp (put_timeline r id mk) env (λ _ c', inv (Some r) (λ _, False) env c') c.
Proof.
  intros Hmk Hr Hid HI. apply inv_timeline; [done|done| |by intros []].
  apply inv_fresh; [by intros ? ->|]. by eapply inv_mono; [left| |exact HI].
Qed.

Lemma settled_append cmd env c :
  append_conforms cmd → settled env c → wp (apply_append cmd) env (λ _ c', settled env c') c.
Proof.
  intros Hr HI. unfold apply_append. do 2 wp_step.
  destruct (tget env c T_EVENT (ae_event_id cmd)) as [b|] eqn:Hb; [by apply wp_ret|]. simpl.
  assert (text_at (tget env c) (ae_event_id cmd) = None) as Hid by (unfold text_at; by rewrite Hb).
  destruct (ae_rejected cmd) as [why|].
  { unfold append_rejected. wp_step. eapply wp_mono; [|by apply inv_off].
    intros [] c1 H1. apply (wp_keeps settled); [|done]. unfold settled. solve_keeps. }
  wp_step. eapply wp_mono; [|apply settled_timeline; [done|exact Hr|exact Hid|exact HI]]. intros n c1 H1.
  wp_step. eapply wp_mono; [|apply (wp_keeps (inv (Some (ae_room_id cmd)) (λ _, False))), H1].
  2: { destruct (ae_redacts cmd); solve_keeps. }
  intros [] c2 H2. wp_step. eapply wp_mono; [|by apply inv_groups]. intros [] c3 H3. wp_step.
  eapply wp_mono; [|apply (wp_keeps (inv (Some (ae_room_id cmd)) (λ _, False))), H3].
  2: { solve_keeps. }
  intros meta c4 H4. wp_step. eapply wp_mono; [|eapply inv_room; exact H4]. intros [] c5 H5. by apply wp_ret.
Qed.

(** What [get_event] says about the timeline. *)
Lemma wp_get_event id env (Q : option StoredEvent → ApplyState → Prop) c :
  (∀ o, tget env c T_EVENT id ≫= dec = o →
    (is_some_and o on_timeline = false → text_at (tget env c) id = None) → Q o c) →
  wp (get_event id) env Q c.
Proof.
  intros HQ. apply wp_get_typed. intros o Ho _. apply HQ; [done|]. unfold text_at. rewrite Ho.
  destruct o as [s|]; [|done]. simpl. by intros ->.
Qed.

Lemma settled_receipt cmd env c :
  settled env c → wp (apply_receipt cmd) env (λ _ c', settled env c') c.
Proof.
  intros HI. unfold apply_receipt. wp_step. apply wp_get_typed. intros o _ _.
  destruct (is_some_and _ _); [by apply wp_ret|]. wp_step. eapply wp_mono; [|by apply inv_receipt].
  intros n c1 H1. apply (wp_keeps settled); [|done]. unfold settled. solve_keeps.
Qed.

Lemma settled_import cmd env c :
  room_of (ir_join_event_id cmd) = ir_room_id cmd → settled env c →
  wp (apply_import cmd) env (λ _ c', settled env c') c.
Proof.
  intros Hr HI. unfold apply_import. set (r := ir_room_id cmd) in *. set (join := ir_join_event_id cmd) in *.
  wp_step. apply wp_get_typed. intros o Ho Hdec. wp_step.
  apply (wp_mono _ _ (λ held c', c' = c ∧ (held = false → inv None (λ i, i = join ∨ False) env c))).
  2: { destruct o as [m|]; simpl.
    - wp_step. apply wp_get_event. intros s _ Hs. wp_step. split; [done|]. intros Hn.
      apply inv_fresh; [|done]. intros ? ->. by apply Hs.
    - wp_step. split; [done|]. intros _ Hb. destruct (HI Hb) as ([Hc Hro Hrow] & Hk & _).
      split_and!; [done..|]. intros ? [->|[]]. destruct (text_at _ join) eqn:Ht; [|done].
      destruct (Hro join) as [Hx|]; [by rewrite Ht|rewrite Hr in Hx|done]. destruct Hdec as [[? ?]|Hn]; [by subst|].
      rewrite Hn in Hx. by destruct Hx. }
  intros held c' [-> Hfresh]. destruct held; [by apply wp_ret|]. specialize (Hfresh eq_refl).
  set (I := inv (Some r) (λ i, i = join ∨ False)).
  wp_step. eapply wp_mono; [|apply (wp_keeps I)]; [|by unfold I; solve_keeps|by eapply inv_mono; [left| |exact Hfresh]].
  intros ? c1 H1. wp_step. eapply wp_mono; [|apply (wp_keeps I); [unfold I; solve_keeps|exact H1]].
  intros [] c2 H2. wp_step. eapply wp_mono; [|by apply inv_timeline; [done|exact Hr|exact H2|intros []]].
  intros n c3 H3. wp_step.
  eapply wp_mono; [|apply (wp_keeps (inv (Some r) (λ _, False))); [unfold get_event; solve_keeps|exact H3]].
  intros fr c4 H4. wp_step. eapply wp_mono; [|eapply inv_room; exact H4]. intros [] c5 H5. by apply wp_ret.
Qed.

Lemma segment_inv r g acc ev env c :
  room_of (ie_event_id ev) = r → inv (Some r) (λ _, False) env c →
  wp (segment_step r g acc ev) env (λ _ c', inv (Some r) (λ _, False) env c') c.
Proof.
  intros Hr HI. unfold segment_step. wp_step. apply wp_get_event. intros o _ Ho.
  destruct (is_some_and o on_timeline) eqn:Hon; [by apply wp_ret|]. wp_step.
  eapply wp_mono; [|apply inv_timeline; [done|done|apply inv_fresh; [by intros ? ->; apply Ho|exact HI]|by intros []]].
  intros n c1 H1. by apply wp_ret.
Qed.

Lemma settled_segment cmd env c :
  Forall (λ ev, room_of (ie_event_id ev) = is_room_id cmd) (is_timeline cmd) → settled env c →
  wp (apply_import_segment cmd) env (λ _ c', settled env c') c.
Proof.
  intros Hr HI. unfold apply_import_segment. wp_step. apply wp_get_typed. intros [meta|] _ _; [|apply wp_fail].
  set (r := is_room_id cmd) in *. set (I := inv (Some r) (λ _, False)).
  wp_step. eapply wp_mono; [|apply (wp_keeps I); [unfold I; solve_keeps|]].
  2: { eapply inv_mono; [by left| |exact HI]. done. }
  intros ? c1 H1. wp_step. eapply wp_mono; [|apply (wp_keeps I); [unfold I; solve_keeps|exact H1]].
  intros ? c2 H2. wp_step. eapply wp_mono; [|apply (wp_fold _ _ (λ _ c, I env c)); [|exact H2]].
  2: { intros acc ev c' Hev HI'. apply segment_inv; [|done]. rewrite list.Forall_forall in Hr. by apply Hr. }
  intros acc c3 H3. wp_step.
  eapply wp_mono; [|apply (wp_keeps I); [unfold I, get_event; solve_keeps|exact H3]].
  intros fr c4 H4. wp_step. eapply wp_mono; [|eapply inv_room; exact H4]. intros [] c5 H5. by apply wp_ret.
Qed.

Lemma history_inv r acc ev : keeps settled (history_step r acc ev).
Proof.
  intros env c HI. unfold history_step. wp_step. apply wp_get_event. intros o Ho Ht. cbv zeta.
  destruct (is_some_and o visible) eqn:Hv; [by apply wp_ret|]. wp_step. apply wp_lift. intros raw _. wp_step.
  assert (is_some_and o on_timeline = false) as Hon.
  { destruct o as [s|]; [|done]. simpl in *. unfold visible in Hv. by apply orb_false_iff in Hv as [? _]. }
  eapply wp_mono; [|apply inv_off; [exact HI| |by apply Ht]]; [|by destruct o].
  intros [] c1 H1. apply (wp_keeps settled); [|done]. unfold settled. solve_keeps.
Qed.
#[local] Hint Resolve history_inv : keeps.

Lemma settled_history cmd : keeps settled (apply_import_history cmd).
Proof.
  unfold apply_import_history, get_event. solve_keeps. unfold settled. solve_keeps.
Qed.

Lemma settled_command cmd env c :
  conforms cmd → settled env c → wp (apply_command cmd) env (λ _ c', settled env c') c.
Proof.
  destruct cmd as [a|r|i|h|s|a t]; cbn [conforms apply_command]; intros Hc HI.
  - by apply settled_append.
  - by apply settled_receipt.
  - by apply settled_import.
  - by apply settled_history.
  - by apply settled_segment.
  - wp_step. eapply wp_mono; [|by apply settled_append]. intros resp c1 H1.
    apply (wp_keeps settled); [|done]. unfold settled. solve_keeps.
Qed.
End Timeline.

(** ** Batches *)

Section Batches.
Context `{RC : RoomCodecs, JT : JsonText}.
Context `{HR : Raft}.
Context `{!Codec (option LogId), !Codec StoredMembership, !Codec N}.
Context `{!Codec RuntimeCommand, !Codec RuntimeResponse}.
Context (sid : ShardId) (room_of : string → string).

Definition entry_conforms (en : Entry) : Prop :=
  match payload en with
  | Normal bs => ∀ cmd, dec (A := RoomCommand) bs = Some cmd → conforms room_of cmd
  | _ => True
  end.

Lemma settled_runtime f0 log0 rest : keeps (settled room_of f0 log0) (apply_runtime RoomApp rest).
Proof using Type.
  unfold apply_runtime. destruct (dec rest) as [[to]|]; [|apply keeps_ret]. simpl. unfold room_migrate.
  assert (keeps (settled room_of f0 log0) (ctx_put T_SCHEMA K_SCHEMA_VERSION (enc to))) as Hp
    by (apply inv_put_other; done).
  solve_keeps.
Qed.

Lemma settled_apply f0 log0 bs env c :
  (∀ cmd, dec (A := RoomCommand) bs = Some cmd → conforms room_of cmd) →
  settled room_of f0 log0 env c → wp (room_apply bs) env (λ _ c', settled room_of f0 log0 env c') c.
Proof using Type.
  intros Hc HI. unfold room_apply. wp_step. apply wp_lift. intros cmd Hd. wp_step.
  eapply wp_mono; [|apply settled_command; [|exact HI]].
  - intros resp c1 H1. by apply wp_ret.
  - apply Hc. unfold dec_or in Hd. by destruct (dec bs); simplify_eq/=.
Qed.

Lemma settled_entries f0 log0 l env c :
  Forall entry_conforms l → shard env = sid → settled room_of f0 log0 env c →
  wp (apply_entries sid RoomApp l) env (λ _ c', settled room_of f0 log0 env c') c.
Proof using Type.
  intros Hl Hs. apply (wp_fold _ _ (λ _ c, settled room_of f0 log0 env c)). clear c.
  intros rs en c Hen HI. rewrite list.Forall_forall in Hl. apply Hl in Hen. wp_step.
  eapply (wp_mono _ _ (λ _ c', settled room_of f0 log0 env c')); [intros r c1 H1; by apply wp_ret|].
  unfold apply_entry, entry_conforms in *. destruct (payload en) as [|[|ch rest]|m].
  - by apply wp_ret.
  - by apply settled_apply.
  - case_bool_decide; [by apply settled_runtime|by apply settled_apply].
  - subst sid. exact (inv_put_other _ _ _ _ _ T_SM_META K_MEMBERSHIP _ eq_refl ltac:(done) env c HI).
Qed.

(** A room shard at rest: [log] is all it published. *)
Record timeline_ok (e : engine) (log : list (N * bytes)) : Prop := {
  to_log : room_log sid e log;
  to_placed : N.of_nat (length log) < u64_modulus →
    placed room_of None log (N.of_nat (length log)) (eget sid e);
}.

Lemma timeline_ok_empty : timeline_ok ∅ [].
Proof using Type.
  split; [intros _; split; [done|apply seq_log_nil]|]. intros _. split; [done|..].
  - intros id [? Hx]. unfold text_at, eget in Hx. by rewrite lookup_empty in Hx.
  - by intros m r id Hin%elem_of_nil.
Qed.

Lemma timeline_ok_apply l e log e' rs pub :
  timeline_ok e log → Forall entry_conforms l → sm_apply sid RoomApp l e = Ok (e', rs, pub) →
  timeline_ok e' (log ++ pub) ∧
  (N.of_nat (length (log ++ pub)) < u64_modulus → kept (eget sid e) (eget sid e')).
Proof using Type.
  intros [Hlog Hp] Hl Hs. pose proof (room_log_apply _ _ _ _ _ _ _ Hlog Hs) as Hlog'.
  apply sm_apply_inv in Hs as (n & c & Hn & -> & Hrun & _ & Heq).
  enough (N.of_nat (length (log ++ emits c)) < u64_modulus →
    placed room_of None (log ++ emits c) (N.of_nat (length (log ++ emits c))) (eget sid e')
    ∧ kept (eget sid e) (eget sid e')) as H by (split; [split|]; [done|..]; intros Hb; by apply H).
  intros Hb. assert (N.of_nat (length log) < u64_modulus) as Hb0 by (rewrite length_app in Hb; lia).
  destruct (Hlog Hb0) as [Hseq _]. rewrite Hseq in Hn. injection Hn as <-. specialize (Hp Hb0).
  pose proof (settled_entries (eget sid e) log l (apply_env sid e) (apply_init (N.of_nat (length log))) Hl eq_refl) as Hw.
  unfold wp in Hw. rewrite Hrun in Hw. destruct Hw as (Hpl & Hk & _); [|done|].
  { intros _. simpl. rewrite app_nil_r. split_and!; [exact Hp|by intros id raw|by intros id []]. }
  assert (∀ id, text_at (eget sid e') id = text_at (tget (apply_env sid e) c) id) as Ht.
  { intros id. unfold text_at. by rewrite Heq. }
  split.
  - destruct Hpl as [Hc Hro Hrow]. split; [done|..].
    + intros id. rewrite Ht. intros Hid. destruct (Hro id Hid) as [Hx|]; [left|by right]. by rewrite <- Heq.
    + intros m r id Hin. rewrite Ht. by eapply Hrow.
  - intros id raw Hid. rewrite Ht. by apply Hk.
Qed.

Lemma kept_refl f : kept f f.
Proof using Type. by intros id raw. Qed.

Lemma kept_trans f g h : kept f g → kept g h → kept f h.
Proof using Type. intros H1 H2 id raw Hid. by apply H2, H1. Qed.

Lemma timeline_ok_run more e log e' log' :
  timeline_ok e log → Forall (Forall entry_conforms) more → sm_run sid RoomApp more e = Ok (e', log') →
  timeline_ok e' (log ++ log') ∧
  (N.of_nat (length (log ++ log')) < u64_modulus → kept (eget sid e) (eget sid e')).
Proof using Type.
  intros Hok Hc. unfold sm_run.
  enough (∀ l e1 l1, Forall (Forall entry_conforms) l → timeline_ok e1 (log ++ l1) →
    (N.of_nat (length (log ++ l1)) < u64_modulus → kept (eget sid e) (eget sid e1)) →
    try_fold (λ '(e, log) l, let? (e', _, pub) := sm_apply sid RoomApp l e in Ok (e', log ++ pub)) (e1, l1) l
      = Ok (e', log') →
    timeline_ok e' (log ++ log') ∧
    (N.of_nat (length (log ++ log')) < u64_modulus → kept (eget sid e) (eget sid e'))) as H.
  { apply H; [done|by rewrite app_nil_r|intros; apply kept_refl]. }
  clear Hc. intros l. induction l as [|b l IH]; intros e1 l1 Hc H1 Hk; simpl.
  { by intros [= <- <-]. }
  apply list.Forall_cons in Hc as [Hb Hc].
  destruct (sm_apply sid RoomApp b e1) as [[[e2 rs] pub]|] eqn:Hs; [|done].
  pose proof (timeline_ok_apply _ _ _ _ _ _ H1 Hb Hs) as [H2 Hk2]. rewrite <- app_assoc in H2, Hk2.
  apply IH; [done|done|]. intros Hlen. eapply kept_trans; [apply Hk|by apply Hk2].
  rewrite !length_app in *. lia.
Qed.

(** The rows of the timeline are the numbers up to the length of the log. *)
Lemma timeline_ok_rows e log n :
  timeline_ok e log → N.of_nat (length log) < u64_modulus → 0 < n < u64_modulus →
  is_Some (eget sid e T_SEQ (be64 n)) ↔ n ≤ N.of_nat (length log).
Proof using Type.
  intros [Hlog _] Hb Hn. destruct (Hlog Hb) as [_ Hs]. split.
  - intros Hr. apply (sl_only _ _ _ Hs) in Hr as (m & p & Hin & Heq).
    pose proof (seq_log_bound _ _ _ _ _ Hs Hin). apply be64_inj in Heq; lia.
  - intros Hle. destruct (lookup_lt_is_Some_2 log (N.to_nat (n - 1))) as [[m p] Hm]; [lia|].
    pose proof (sl_nums _ _ _ Hs _ _ _ Hm). apply list_elem_of_lookup_2 in Hm.
    destruct (sl_rows _ _ _ Hs _ _ Hm) as (en & Hen & _). replace n with m by lia. by eexists.
Qed.

Lemma timeline_ok_event e log n r id :
  timeline_ok e log → N.of_nat (length log) < u64_modulus →
  eget sid e T_SEQ (be64 n) = Some (enc (SeqEvent r id)) → n < u64_modulus →
  (n, enc (ChangeEvent r id)) ∈ log.
Proof using Type.
  intros [Hlog _] Hb Hr Hn. destruct (Hlog Hb) as [_ Hs].
  destruct (sl_only _ _ _ Hs (be64 n)) as (m & p & Hin & Heq); [by eexists|].
  pose proof (seq_log_bound _ _ _ _ _ Hs Hin). apply be64_inj in Heq; [|lia..]. subst m.
  destruct (sl_rows _ _ _ Hs _ _ Hin) as (en & Hen & ->). unfold eget in Hr. rewrite Hr in Hen.
  injection Hen as Hen. apply (f_equal (dec (A := SeqEntry))) in Hen. rewrite !dec_enc in Hen. by injection Hen as <-.
Qed.

Lemma timeline_ok_row e log n r id :
  timeline_ok e log → N.of_nat (length log) < u64_modulus →
  (n, enc (ChangeEvent r id)) ∈ log → eget sid e T_SEQ (be64 n) = Some (enc (SeqEvent r id)).
Proof using Type.
  intros [Hlog _] Hb Hin. destruct (Hlog Hb) as [_ Hs].
  destruct (sl_rows _ _ _ Hs _ _ Hin) as (en & Hen & Heq). unfold eget. rewrite Hen. do 2 f_equal.
  apply (f_equal (dec (A := ChangePayload))) in Heq. rewrite !dec_enc in Heq. destruct en; simpl in Heq; by simplify_eq.
Qed.

Definition reads (e : engine) : ReadCtx := {| r_shard := sid; r_engine := e |}.

Lemma text_event e id raw :
  text_at (eget sid e) id = Some raw →
  ∃ s, event (reads e) id = Ok (Some s) ∧ se_raw s = raw ∧ on_timeline s = true.
Proof using Type.
  unfold text_at, eget, event, kv_get_typed, read_get. cbn [r_shard r_engine reads].
  destruct (e !! _) as [b|]; [|done]. simpl. unfold dec_or. destruct (dec b) as [s|]; [|done]. simpl.
  destruct (on_timeline s) eqn:Hs; [|done]. intros [= <-]. by exists s.
Qed.

(** C5 (invariant): the timeline of a room shard only grows.  Whatever
    batches of entries come later, an event that has a number keeps it, stays
    readable with the same text and in the room its id names; and what comes
    later has a higher number than everything before. *)
Theorem timeline_immutable batches more e log e' log' :
  sm_run sid RoomApp batches ∅ = Ok (e, log) → sm_run sid RoomApp more e = Ok (e', log') →
  Forall (Forall entry_conforms) batches → Forall (Forall entry_conforms) more →
  N.of_nat (length (log ++ log')) < u64_modulus →
  (∀ n r id, n < u64_modulus → eget sid e T_SEQ (be64 n) = Some (enc (SeqEvent r id)) →
    eget sid e' T_SEQ (be64 n) = Some (enc (SeqEvent r id)) ∧ room_of id = r ∧
    ∃ s s', event (reads e) id = Ok (Some s) ∧ event (reads e') id = Ok (Some s') ∧
      se_raw s' = se_raw s ∧ on_timeline s = true ∧ on_timeline s' = true) ∧
  ∀ n m, 0 < n < u64_modulus → 0 < m < u64_modulus →
    is_Some (eget sid e T_SEQ (be64 m)) → is_Some (eget sid e' T_SEQ (be64 n)) →
    eget sid e T_SEQ (be64 n) = None → m < n.
Proof using Type.
  intros Hrun Hrun' Hc Hc' Hb.
  pose proof (timeline_ok_run _ _ _ _ _ timeline_ok_empty Hc Hrun) as [Hok _]. cbn [app] in Hok.
  pose proof (timeline_ok_run _ _ _ _ _ Hok Hc' Hrun') as [Hok' Hk]. specialize (Hk Hb).
  assert (N.of_nat (length log) < u64_modulus) as Hb0 by (rewrite length_app in Hb; lia). split.
  - intros n r id Hn Hr. pose proof (timeline_ok_event _ _ _ _ _ Hok Hb0 Hr Hn) as Hin. split.
    { eapply timeline_ok_row; [done|done|]. apply elem_of_app. by left. }
    destruct (pl_row _ _ _ _ _ (to_placed _ _ Hok Hb0) _ _ _ Hin) as [Hroom [raw Hraw]]. split; [done|].
    destruct (text_event _ _ _ Hraw) as (s & Hs & <- & Hon). destruct (text_event _ _ _ (Hk _ _ Hraw)) as (s' & ? & ? & ?).
    by exists s, s'.
  - intros n m Hn Hm. rewrite (timeline_ok_rows _ _ _ Hok Hb0 Hm). intros Hle _ Hno.
    apply N.nle_gt. intros Hnm. assert (is_Some (eget sid e T_SEQ (be64 n))) as [? Hx]; [|by rewrite Hno in Hx].
    apply (timeline_ok_rows _ _ _ Hok Hb0 Hn). lia.
Qed.
End Batches.

From S2P Require Import Demo RoomDemo.

Lemma demo_conforms l : l ∈ demo_batches → Forall (entry_conforms (λ _, "!r"%string)) l.
Proof.
  intros Hl. repeat (apply elem_of_cons in Hl as [->|Hl]); [..|by apply elem_of_nil in Hl].
  all: repeat constructor; intros cmd Hd; vm_compute in Hd; injection Hd as <-; vm_compute; done.
Qed.

Lemma timeline_immutable_witness :
  ∃ e log e' log', sm_run demo_shard RoomApp (take 1 demo_batches) ∅ = Ok (e, log) ∧
    sm_run demo_shard RoomApp (drop 1 demo_batches) e = Ok (e', log') ∧
    eget demo_shard e' T_SEQ (be64 2) = Some (enc (SeqEvent "!r" "$m")).
Proof.
  assert (match sm_run demo_shard RoomApp (take 1 demo_batches) ∅ with
          | Ok (e, log) => match sm_run demo_shard RoomApp (drop 1 demo_batches) e with
            | Ok (_, log') => bool_decide (length (log ++ log') < 9)%nat &&
               bool_decide (eget demo_shard e T_SEQ (be64 2) = Some (enc (SeqEvent "!r" "$m")))
            | _ => false end
          | _ => false end = true) as Hrun by (vm_compute; reflexivity).
  destruct (sm_run demo_shard RoomApp (take 1 demo_batches) ∅) as [[e log]|] eqn:H1; [|done].
  destruct (sm_run demo_shard RoomApp (drop 1 demo_batches) e) as [[e' log']|] eqn:H2; [|done].
  apply andb_true_iff in Hrun as [Hlen Hrow]. apply bool_decide_eq_true in Hlen, Hrow.
  exists e, log, e', log'. split_and!; [done..|].
  refine (proj1 (proj1 (timeline_immutable demo_shard (λ _, "!r"%string) _ _ _ _ _ _ H1 H2 _ _ _) 2 _ _ _ Hrow)).
  - apply list.Forall_forall. intros l Hl. apply demo_conforms.
    rewrite <- (take_drop 1 demo_batches), elem_of_app. by left.
  - apply list.Forall_forall. intros l Hl. apply demo_conforms.
    rewrite <- (take_drop 1 demo_batches), elem_of_app. by right.
  - unfold u64_modulus. lia.
  - done.
Defined.
