(* ===== verification/TimelineSpec.v ===== *)
(** * The shard's timeline, page by page

    A page of [timeline] holds the first rows past a position: its numbers
    ascend, and a row that is missing from it lies beyond all it holds. *)

From Stdlib Require Import Ascii.
From S2P Require Import Prelude Bytes Store Codec Json Shard ShardFacts RoomTypes RoomMachine RoomRead.
From stdpp Require Import options.

Local Open Scope N_scope.

Lemma be_val_lt s : be_val s < 256 ^ N.of_nat (String.length s).
Proof.
  induction s as [|c s IH]; [done|]. cbn [be_val String.length]. rewrite pow256_succ.
  pose proof (N_ascii_bounded c). nia.
Qed.

Lemma from_be64_lt s v : from_be64 s = Some v → v < u64_modulus.
Proof.
  unfold from_be64. case_bool_decide as H; [|done]. intros [= <-].
  pose proof (be_val_lt s) as Hlt. by rewrite H in Hlt.
Qed.

(** ** Strictly sorted lists *)

Section Sorted.
Context {A : Type} (R : A → A → Prop).

Lemma sorted_take n l : StronglySorted R l → StronglySorted R (take n l).
Proof using Type.
  intros HS. revert n. induction HS as [|x l HS IH Hx]; intros [|n]; cbn [take]; try constructor; [done|].
  by apply Forall_take.
Qed.

(** A page holds an element, or only smaller ones. *)
Lemma page_or_before n l y :
  StronglySorted R l → y ∈ l → y ∈ take n l ∨ Forall (λ x, R x y) (take n l).
Proof using Type.
  intros HS. revert n. induction HS as [|x l HS IH Hx]; intros n Hy; [by apply elem_of_nil in Hy|].
  destruct n as [|n]; [right; constructor|]. cbn [take].
  apply elem_of_cons in Hy as [->|Hy]; [left; by left|].
  destruct (IH n Hy) as [Hin|Hall]; [left; by right|right]. constructor; [|done].
  eapply list.Forall_forall in Hx; done.
Qed.

Lemma sorted_below (HR : ∀ x y, R x y → ¬ R y x) l i j x y :
  StronglySorted R l → l !! i = Some x → l !! j = Some y → R y x → (j < i)%nat.
Proof using Type.
  intros HS. revert i j. induction HS as [|z l HS IH Hz]; intros [|i] [|j] Hi Hj Hyx; simpl in *; try done.
  - simplify_eq. by destruct (HR _ _ Hyx).
  - simplify_eq. apply list_elem_of_lookup_2 in Hj. eapply list.Forall_forall in Hz; [|done].
    by destruct (HR _ _ Hyx).
  - lia.
  - specialize (IH i j Hi Hj Hyx). lia.
Qed.

(** As many elements below [x] as the page is long keep [x] off the page. *)
Lemma page_full (HR : ∀ x y, R x y → ¬ R y x) n l x k :
  StronglySorted R l → x ∈ take n l → NoDup k →
  (∀ y, y ∈ k → y ∈ l ∧ R y x) → (length k < n)%nat.
Proof using Type.
  intros HS Hx Hnd Hk. apply list_elem_of_lookup_1 in Hx as [i Hi].
  apply lookup_take_Some in Hi as [Hli Hlt].
  enough (length k ≤ i)%nat by lia. rewrite <-(length_take_le l i) by (apply lookup_lt_Some in Hli; lia).
  apply submseteq_length, NoDup_submseteq; [done|]. intros y Hy. destruct (Hk y Hy) as [Hyl Hyx].
  apply elem_of_take. apply list_elem_of_lookup_1 in Hyl as [j Hj]. exists j. split; [done|].
  by eapply sorted_below.
Qed.
End Sorted.

(** ** Pages *)

Section Pages.
Context `{RC : RoomCodecs}.
Context (rooms : ReadCtx).

Abbreviation row_list := (rows (r_shard rooms) T_SEQ) (only parsing).

Definition key_lt (a b : bytes * bytes) : Prop := String.ltb a.1 b.1 = true.

Lemma rows_strict start : StronglySorted key_lt (row_list start EmptyString (r_engine rooms)).
Proof using Type.
  pose proof (rows_sorted (r_shard rooms) T_SEQ start EmptyString (r_engine rooms) eq_refl) as HS.
  pose proof (rows_NoDup_keys (r_shard rooms) T_SEQ start EmptyString (r_engine rooms) eq_refl) as Hnd.
  induction HS as [|kv l HS IH Hf]; [constructor|]. apply list.NoDup_cons in Hnd as [Hni Hnd].
  constructor; [by apply IH|]. apply list.Forall_forall. intros kv' Hin.
  eapply list.Forall_forall in Hf; [|done]. apply sleb_le in Hf. unfold key_lt.
  rewrite sltb_negb. apply negb_true_iff, not_true_iff_false. intros Hle. apply Hni.
  replace kv.1 with kv'.1; [by apply list_elem_of_fmap_2|].
  apply (anti_symm String.le); by apply sleb_le.
Qed.

(** A row and what it decodes to. *)
Definition row_of (kv : bytes * bytes) (x : N * SeqEntry) : Prop :=
  from_be64 kv.1 = Some x.1 ∧ dec kv.2 = Some x.2.

Lemma row_of_key kv x : row_of kv x → kv.1 = be64 x.1 ∧ x.1 < u64_modulus.
Proof using Type. intros [Hk _]. split; [by apply be64_from_be64|by eapply from_be64_lt]. Qed.

Lemma row_of_lt kv kv' x x' : row_of kv x → row_of kv' x' → key_lt kv kv' ↔ x.1 < x'.1.
Proof using Type.
  intros [Hk H]%row_of_key [Hk' H']%row_of_key. unfold key_lt. rewrite Hk, Hk', be64_ltb by done.
  apply N.ltb_lt.
Qed.

Lemma timeline_rows pos limit batch :
  timeline rooms pos limit = Ok batch →
  Forall2 row_of (take (N.to_nat limit) (row_list (be64 (add64 pos 1)) EmptyString (r_engine rooms))) batch.
Proof using Type.
  unfold timeline. destruct rooms as [sid e]. rewrite read_scan_rows. cbn [r_shard r_engine].
  generalize (take (N.to_nat limit) (rows sid T_SEQ (be64 (add64 pos 1)) EmptyString e)).
  set (f := λ (out : list (N * SeqEntry)) '((k, v) : bytes * bytes), _).
  enough (∀ l acc got, Forall2 row_of got acc → try_fold f acc l = Ok batch → Forall2 row_of (got ++ l) batch)
    as H by (intros l; apply (H l [] []); constructor).
  induction l as [|[k v] l IH]; intros acc got Hacc; cbn [try_fold].
  { intros [= <-]. by rewrite app_nil_r. }
  unfold f at 1. destruct (from_be64 k) as [n|] eqn:Hk; [|done]. cbn [ok_or].
  unfold dec_or. destruct (dec v) as [en|] eqn:Hv; [|done]. cbn [ok_or]. intros Hf.
  replace (got ++ (k, v) :: l) with ((got ++ [(k, v)]) ++ l) by by rewrite <-app_assoc.
  eapply IH; [|exact Hf]. apply Forall2_app; [done|]. repeat constructor; done.
Qed.

(** The rows a page is cut from lie past the position. *)
Lemma rows_past pos k v x :
  pos + 1 < u64_modulus → row_of (k, v) x →
  (k, v) ∈ row_list (be64 (add64 pos 1)) EmptyString (r_engine rooms) ↔
  r_engine rooms !! ctx_key (r_shard rooms) T_SEQ k = Some v ∧ pos < x.1.
Proof using Type.
  intros Hpos [Hk Hlt]%row_of_key. rewrite elem_of_rows by done. cbn [fst] in Hk. rewrite Hk.
  unfold add64, wrap64. rewrite N.mod_small by done. rewrite be64_leb by done. cbn [below].
  rewrite N.leb_le. split; [intros (? & ? & ?)|intros [? ?]]; split_and?; try done; lia.
Qed.

Definition num_lt (a b : N * SeqEntry) : Prop := a.1 < b.1.

Lemma timeline_ascending pos limit batch :
  pos + 1 < u64_modulus → timeline rooms pos limit = Ok batch →
  StronglySorted num_lt batch ∧ Forall (λ x, pos < x.1) batch.
Proof using Type.
  intros Hpos H2%timeline_rows.
  pose proof (sorted_take key_lt (N.to_nat limit) _ (rows_strict (be64 (add64 pos 1)))) as HS.
  assert (∀ kv, kv ∈ take (N.to_nat limit) (row_list (be64 (add64 pos 1)) EmptyString (r_engine rooms)) →
    kv ∈ row_list (be64 (add64 pos 1)) EmptyString (r_engine rooms)) as Hin.
  { intros kv (i & Hi & _)%elem_of_take. by eapply list_elem_of_lookup_2. }
  revert HS Hin. induction H2 as [|[k v] x l batch Hr H2 IH]; intros HS Hin; [by repeat constructor|].
  inversion_clear HS as [|? ? HS' Hx].
  destruct IH as [IH1 IH2]; [done|intros kv Hkv; apply Hin; by right|].
  split; constructor; [done| | |done].
  - clear -Hx H2 Hr. induction H2 as [|kv' x' l batch Hr' H2 IH]; [constructor|].
    inversion_clear Hx. constructor; [|by apply IH]. by apply (row_of_lt (k, v) kv').
  - specialize (Hin (k, v) ltac:(by left)). apply (rows_past _ _ _ _ Hpos Hr) in Hin. by destruct Hin.
Qed.

Lemma row_in_page pos limit batch x :
  timeline rooms pos limit = Ok batch → x ∈ batch →
  ∃ v, dec v = Some x.2 ∧ x.1 < u64_modulus
    ∧ (be64 x.1, v) ∈ take (N.to_nat limit) (row_list (be64 (add64 pos 1)) EmptyString (r_engine rooms)).
Proof using Type.
  intros H2%timeline_rows Hx. apply list_elem_of_lookup_1 in Hx as [i Hi].
  destruct (Forall2_lookup_r _ _ _ _ _ H2 Hi) as ([k v] & Hk & Hr).
  pose proof (row_of_key _ _ Hr) as [He Hlt]. exists v. split_and!; [by destruct Hr|done|].
  cbn [fst] in He. rewrite <-He. by eapply list_elem_of_lookup_2.
Qed.

(** A later page's row is on an earlier page, or that page stops short of it. *)
Lemma page_reaches pos pos' limit limit' batch batch' x :
  pos ≤ pos' → pos' + 1 < u64_modulus →
  timeline rooms pos limit = Ok batch → timeline rooms pos' limit' = Ok batch' →
  x ∈ batch' → x ∈ batch ∨ Forall (λ y, y.1 < x.1) batch.
Proof using Type.
  intros Hle Hpos' Hb Hb' Hx. pose proof (row_in_page _ _ _ _ Hb' Hx) as (v & Hv & Hlt & Hin).
  assert (row_of (be64 x.1, v) x) as Hr by (split; [by apply from_be64_be64|done]).
  assert ((be64 x.1, v) ∈ row_list (be64 (add64 pos 1)) EmptyString (r_engine rooms)) as Hin0.
  { apply elem_of_take in Hin as (i & Hi & _). apply list_elem_of_lookup_2 in Hi.
    apply (rows_past _ _ _ _ Hpos' Hr) in Hi as [He Hp]. apply (rows_past pos _ _ _ ltac:(lia) Hr).
    split; [done|lia]. }
  pose proof (timeline_rows _ _ _ Hb) as H2.
  destruct (page_or_before key_lt (N.to_nat limit) _ _ (rows_strict _) Hin0) as [Hon|Hbefore].
  - left. apply list_elem_of_lookup_1 in Hon as [i Hi].
    destruct (Forall2_lookup_l _ _ _ _ _ H2 Hi) as (y & Hy & Hry).
    replace x with y; [by eapply list_elem_of_lookup_2|]. destruct Hr as [Hr1 Hr2], Hry as [Hy1 Hy2].
    destruct x, y; simpl in *. congruence.
  - right. apply list.Forall_forall. intros y Hy. apply list_elem_of_lookup_1 in Hy as [i Hi].
    destruct (Forall2_lookup_r _ _ _ _ _ H2 Hi) as (kv & Hk & Hry).
    apply (row_of_lt _ _ _ _ Hry Hr). eapply list.Forall_forall in Hbefore; [done|].
    by eapply list_elem_of_lookup_2.
Qed.

(** Behind a full page nothing is on an earlier page. *)
Lemma page_stops pos pos' limit batch page x :
  pos ≤ pos' → pos' + 1 < u64_modulus →
  timeline rooms pos limit = Ok batch → timeline rooms pos' limit = Ok page →
  length page = N.to_nat limit → x ∈ batch → ∃ y, y ∈ page ∧ x.1 ≤ y.1.
Proof using Type.
  intros Hle Hpos' Hb Hp Hlen Hx.
  destruct (decide (Exists (λ y, x.1 ≤ y.1) page)) as [(y & ? & ?)%list.Exists_exists|Hno]; [by exists y|].
  exfalso. apply not_Exists_Forall in Hno; [|apply _]. rewrite list.Forall_forall in Hno.
  pose proof (row_in_page _ _ _ _ Hb Hx) as (v & Hv & Hlt & Hin).
  pose proof (timeline_rows _ _ _ Hp) as H2.
  assert (row_of (be64 x.1, v) x) as Hr by (split; [by apply from_be64_be64|done]).
  set (k := take (N.to_nat limit) (row_list (be64 (add64 pos' 1)) EmptyString (r_engine rooms))) in H2.
  assert (length k < N.to_nat limit)%nat as Hk; [|apply Forall2_length in H2; lia].
  eapply (page_full key_lt); [|by apply rows_strict|exact Hin| |].
  - intros a b Hab Hba. unfold key_lt in *. apply sltb_leb in Hba.
    pose proof (sltb_leb_trans _ _ _ Hab Hba) as He. by rewrite sltb_irrefl in He.
  - apply (NoDup_fmap_1 fst). pose proof (rows_NoDup_keys (r_shard rooms) T_SEQ
      (be64 (add64 pos' 1)) EmptyString (r_engine rooms) eq_refl) as Hnd.
    unfold k. rewrite <-firstn_map. eapply sublist_NoDup; [exact Hnd|apply sublist_take].
  - intros [k' v'] Hy. apply list_elem_of_lookup_1 in Hy as [i Hi].
    destruct (Forall2_lookup_l _ _ _ _ _ H2 Hi) as (y & Hiy & Hry). apply list_elem_of_lookup_2 in Hi.
    apply elem_of_take in Hi as (j & Hj & _). apply list_elem_of_lookup_2 in Hj.
    destruct (proj1 (rows_past _ _ _ _ Hpos' Hry) Hj) as [He Hgt]. split.
    + apply (rows_past pos _ _ _ ltac:(lia) Hry). split; [done|lia].
    + apply (row_of_lt _ _ _ _ Hry Hr). apply N.nle_gt.
      apply (Hno y). by eapply list_elem_of_lookup_2.
Qed.
End Pages.
