(* ===== verification/RoomHistory.v ===== *)
(** * Backfilled history (saltator-roomserver/src/machine.rs)

    The [T_HISTORY] index stays dense and points at visible events through
    every command, and what [apply_import_history] makes of the backfill
    frontier. *)

From Stdlib Require Import Ascii.
From S2P Require Import Prelude Bytes Store Codec Json Shard ShardFacts.
From S2P Require Import RoomTypes RoomMachine Demo RoomDemo RoomAppend.
From stdpp Require Import options.

Section History.
Context `{RC : RoomCodecs, JT : JsonText}.

Definition history_row (env : ApplyEnv) (c : ApplyState) (room : string) (n : N) :=
  tget env c T_HISTORY (room_u64_key room n).

Lemma room_u64_key_room r n r' n' : room_u64_key r n = room_u64_key r' n' → r = r'.
Proof.
  unfold room_u64_key. intros He.
  assert (String.length r = String.length r') as Hl.
  { apply (f_equal String.length) in He. rewrite !str_length_app in He.
    cbn [String.length] in He. rewrite !be64_length in He. lia. }
  by apply str_app_inj_len in He as [-> _].
Qed.

Lemma room_u64_key_inj r n r' n' :
  (n < u64_modulus)%N → (n' < u64_modulus)%N →
  room_u64_key r n = room_u64_key r' n' → r = r' ∧ n = n'.
Proof.
  intros Hn Hn' He. pose proof (room_u64_key_room _ _ _ _ He) as <-. split; [done|].
  unfold room_u64_key in He. apply str_app_inj_len in He as [_ He]; [|done].
  apply (f_equal (str_drop 1)) in He. by apply be64_inj.
Qed.

(** [nx] gives each known room its next history index. *)
Record history_with (nx : string → option N) (env : ApplyEnv) (c : ApplyState) : Prop := {
  hw_dense : ∀ r n, (n < u64_modulus)%N →
    is_Some (history_row env c r n) ↔ ∃ x, nx r = Some x ∧ (1 ≤ n < x)%N;
  hw_visible : ∀ r n id, (n < u64_modulus)%N → history_row env c r n = Some id →
    ∃ s, event_at env c id = Some s ∧ visible s = true;
  hw_pos : ∀ r x, nx r = Some x → (1 ≤ x)%N;
}.

Definition next_idx (env : ApplyEnv) (c : ApplyState) (r : string) : option N :=
  rm_next_history_idx <$> room_at env c r.

(** The index invariant of a shard. *)
Definition history_inv (env : ApplyEnv) (c : ApplyState) : Prop :=
  history_with (next_idx env c) env c.

Lemma history_with_ext nx nx' env c :
  (∀ r, nx r = nx' r) → history_with nx env c → history_with nx' env c.
Proof.
  intros Hn [Hd Hv Hp]. split; [|done|].
  - intros r n Hlt. rewrite Hd by done. by setoid_rewrite Hn.
  - intros r x. rewrite <- Hn. apply Hp.
Qed.

Lemma history_put_other nx env c t k v :
  (t < 256)%N → t ≠ T_EVENT → t ≠ T_HISTORY → history_with nx env c →
  history_with nx env (with_wb (wb_put (ctx_key (shard env) t k) v (wb c)) c).
Proof.
  intros Ht H1 H2 [Hd Hv Hp].
  assert (∀ r n, history_row env (with_wb (wb_put (ctx_key (shard env) t k) v (wb c)) c) r n =
    history_row env c r n) as Hr by (intros; by apply tget_put_other).
  split; [| |done].
  - intros r n. rewrite Hr. apply Hd.
  - intros r n id Hn. rewrite Hr. intros Hid. destruct (Hv r n id Hn Hid) as (s & Hs & Hvis).
    exists s. split; [|done]. unfold event_at. by rewrite tget_put_other.
Qed.

Lemma history_put_event nx env c id s :
  (∀ s0, event_at env c id = Some s0 → visible s0 = true → visible s = true) →
  history_with nx env c →
  history_with nx env (with_wb (wb_put (ctx_key (shard env) T_EVENT id) (enc s) (wb c)) c).
Proof.
  intros Hs [Hd Hv Hp].
  assert (∀ r n, history_row env
    (with_wb (wb_put (ctx_key (shard env) T_EVENT id) (enc s) (wb c)) c) r n =
    history_row env c r n) as Hr by (intros; by apply tget_put_other).
  split; [| |done].
  - intros r n. rewrite Hr. apply Hd.
  - intros r n id' Hn. rewrite Hr. intros Hid. destruct (Hv r n id' Hn Hid) as (s' & Hs' & Hvis).
    unfold event_at. rewrite tget_put by done. case_decide as He.
    + destruct He as [_ ->]. exists s. simpl. rewrite dec_enc. split; [done|]. by eapply Hs.
    + by exists s'.
Qed.

Lemma history_put_row nx env c room i id s :
  nx room = Some i → (i + 1 < u64_modulus)%N →
  event_at env c id = Some s → visible s = true → history_with nx env c →
  history_with (λ r, if decide (r = room) then Some (i + 1)%N else nx r) env
    (with_wb (wb_put (ctx_key (shard env) T_HISTORY (room_u64_key room i)) id (wb c)) c).
Proof.
  intros Hi Hlt Hs Hvis [Hd Hv Hp]. pose proof (Hp _ _ Hi).
  assert (∀ r n, (n < u64_modulus)%N → history_row env
    (with_wb (wb_put (ctx_key (shard env) T_HISTORY (room_u64_key room i)) id (wb c)) c) r n =
    if decide (r = room ∧ n = i) then Some id else history_row env c r n) as Hr.
  { intros r n Hn. unfold history_row. rewrite tget_put by done.
    destruct (decide (r = room ∧ n = i)) as [[-> ->]|Hne]; [by rewrite decide_True|].
    rewrite decide_False; [done|].
    intros [_ He%room_u64_key_inj]; [apply Hne; by destruct He|lia|done]. }
  split.
  - intros r n Hn. rewrite Hr by done. case_decide as Hdec.
    + destruct Hdec as [-> ->]. rewrite decide_True by done. split; [|done].
      intros _. exists (i + 1)%N. split; [done|lia].
    + rewrite Hd by done. case_decide as Hrr; [|done]. subst r. rewrite Hi. split.
      * intros (x & [= <-] & Hx). exists (i + 1)%N. split; [done|lia].
      * intros (x & [= <-] & Hx). exists i. split; [done|]. assert (n ≠ i) by naive_solver. lia.
  - intros r n id' Hn. rewrite Hr by done.
    change (event_at env (with_wb _ _) id') with (event_at env (with_wb (wb_put (ctx_key (shard env) T_HISTORY (room_u64_key room i)) id (wb c)) c) id').
    assert (event_at env (with_wb (wb_put (ctx_key (shard env) T_HISTORY (room_u64_key room i))
      id (wb c)) c) id' = event_at env c id') as ->.
    { unfold event_at. by rewrite tget_put_other. }
    case_decide; [intros [= <-]; by exists s|]. by apply Hv.
  - intros r x. case_decide; [intros [= <-]; lia|]. apply Hp.
Qed.

Lemma history_put_room env c room m :
  (∀ m0, room_at env c room = Some m0 → rm_next_history_idx m = rm_next_history_idx m0) →
  (room_at env c room = None → rm_next_history_idx m = 1%N) →
  history_inv env c →
  history_inv env (with_wb (wb_put (ctx_key (shard env) T_ROOM room) (enc m) (wb c)) c).
Proof.
  intros Hs Hn Hinv. unfold history_inv. set (c' := with_wb _ _).
  assert (∀ r, next_idx env c' r = if decide (r = room) then Some (rm_next_history_idx m)
    else next_idx env c r) as Hnx.
  { intros r. unfold next_idx, room_at, c'. rewrite tget_put by done.
    destruct (decide (r = room)) as [->|Hne].
    - rewrite decide_True by done. simpl. by rewrite dec_enc.
    - by rewrite decide_False by (by intros [_ ->]). }
  assert (history_with (next_idx env c) env c') as [Hd Hv Hp] by (by apply history_put_other).
  split; [|done|].
  - intros r n Hlt. rewrite Hd by done. rewrite Hnx. case_decide as Hr; [|done]. subst r.
    unfold next_idx. destruct (room_at env c room) as [m0|] eqn:Hm; simpl.
    + by rewrite (Hs m0).
    + rewrite Hn by done. split; [by intros (x & ? & _)|]. intros (x & [= <-] & Hx). lia.
  - intros r x. rewrite Hnx. case_decide as Hr; [|apply Hp]. intros [= <-]. subst r.
    destruct (room_at env c room) as [m0|] eqn:Hm; [|by rewrite Hn].
    rewrite (Hs m0) by done. apply (Hp room). unfold next_idx. by rewrite Hm.
Qed.

(** Inside a command, before it writes its room's record: the index agrees
    with [nx], no room record changed, and [b] more numbers fit. *)
Record mid (nx : string → option N) (rooms : string → option bytes) (b : N)
    (env : ApplyEnv) (c : ApplyState) : Prop := {
  mid_hist : history_with nx env c;
  mid_rooms : ∀ r, tget env c T_ROOM r = rooms r;
  mid_fits : (seq c + b < u64_modulus)%N;
}.

Lemma mid_init env c b :
  history_inv env c → (seq c + b < u64_modulus)%N →
  mid (next_idx env c) (tget env c T_ROOM) b env c.
Proof. by split. Qed.

Lemma mid_put nx rooms b env c t k v :
  (t < 256)%N → t ≠ T_EVENT → t ≠ T_HISTORY → t ≠ T_ROOM → mid nx rooms b env c →
  mid nx rooms b env (with_wb (wb_put (ctx_key (shard env) t k) v (wb c)) c).
Proof.
  intros Ht H1 H2 H3 [Hh Hr Hf]. split; [by apply history_put_other| |done].
  intros r. by rewrite tget_put_other.
Qed.

Lemma mid_put_event nx rooms b env c id s :
  (∀ s0, event_at env c id = Some s0 → visible s0 = true → visible s = true) →
  mid nx rooms b env c →
  mid nx rooms b env (with_wb (wb_put (ctx_key (shard env) T_EVENT id) (enc s) (wb c)) c).
Proof.
  intros Hs [Hh Hr Hf]. split; [by apply history_put_event| |done].
  intros r. by rewrite tget_put_other.
Qed.

Lemma visible_seq s : (0 < se_seq s)%N → visible s = true.
Proof. intros H. unfold visible. apply orb_true_iff. left. by apply N.ltb_lt. Qed.

Lemma mid_timeline nx rooms b env c room id mk :
  (∀ n, se_seq (mk n) = n) → mid nx rooms (b + 1) env c →
  wp (put_timeline room id mk) env (λ n c', (0 < n)%N ∧ mid nx rooms b env c') c.
Proof.
  intros Hmk [Hh Hr Hf]. unfold put_timeline. do 2 wp_step.
  assert (add64 (seq c) 1 = seq c + 1)%N as Hn by (apply add64_small; lia).
  repeat wp_step. split; [lia|].
  do 2 (apply mid_put; [done..|]). apply mid_put_event.
  - intros _ _ _. apply visible_seq. rewrite Hmk. lia.
  - split; [by destruct Hh|done|]. simpl. lia.
Qed.

Lemma mid_support nx rooms b env c ev :
  mid nx rooms b env c → wp (put_support ev) env (λ _ c', mid nx rooms b env c') c.
Proof.
  intros Hm. unfold put_support. do 2 wp_step.
  destruct (tget env c T_EVENT (ie_event_id ev)) eqn:He; simpl; wp_step; [done|].
  apply mid_put_event; [|done]. unfold event_at. by rewrite He.
Qed.

Lemma mid_frame nx rooms b env c c' (P : N → bytes → Prop) :
  (∀ k, P T_EVENT k) → (∀ k, P T_HISTORY k) → (∀ k, P T_ROOM k) →
  frame P env c c' → mid nx rooms b env c → mid nx rooms b env c'.
Proof.
  intros H1 H2 H3 [Hs He Hc] [[Hd Hv Hp] Hr Hf].
  assert (∀ r n, history_row env c' r n = history_row env c r n) as Hrow.
  { intros. by apply Hc. }
  assert (∀ id, event_at env c' id = event_at env c id) as Hev.
  { intros. unfold event_at. by rewrite Hc. }
  split; [split| |].
  - intros r n. rewrite Hrow. apply Hd.
  - intros r n id. rewrite Hrow, Hev. apply Hv.
  - done.
  - intros r. by rewrite Hc.
  - by rewrite Hs.
Qed.

Lemma mid_groups nx rooms b env c room l :
  mid nx rooms b env c → wp (put_groups room l) env (λ _ c', mid nx rooms b env c') c.
Proof.
  intros Hm. apply runs_wp. eapply runs_mono; [|apply groups_run]. intros a c' Hf.
  by apply (mid_frame _ _ _ _ _ _ (λ t _, t ≠ T_GROUP) ltac:(done) ltac:(done) ltac:(done) Hf).
Qed.

Lemma mid_redact nx rooms b env c directive id :
  mid nx rooms b env c → wp (put_redact directive id) env (λ _ c', mid nx rooms b env c') c.
Proof.
  intros Hm. apply runs_wp. eapply runs_mono; [|apply redact_run]. intros a c' Hf.
  by apply (mid_frame _ _ _ _ _ _ (λ t _, t ≠ T_REDACT) ltac:(done) ltac:(done) ltac:(done) Hf).
Qed.

(** Writing the room's record ends the command. *)
Lemma mid_finish env c0 c b room m :
  mid (next_idx env c0) (tget env c0 T_ROOM) b env c →
  (∀ m0, room_at env c0 room = Some m0 → rm_next_history_idx m = rm_next_history_idx m0) →
  (room_at env c0 room = None → rm_next_history_idx m = 1%N) →
  history_inv env (with_wb (wb_put (ctx_key (shard env) T_ROOM room) (enc m) (wb c)) c).
Proof.
  intros [Hh Hr _] Hs Hn.
  assert (∀ r, room_at env c r = room_at env c0 r) as Hra.
  { intros r. unfold room_at. by rewrite Hr. }
  apply history_put_room; [by rewrite Hra..|].
  eapply history_with_ext; [|done]. intros r. unfold next_idx. by rewrite Hra.
Qed.

Lemma mid_end env c0 c b :
  mid (next_idx env c0) (tget env c0 T_ROOM) b env c → history_inv env c.
Proof.
  intros [Hh Hr _]. eapply history_with_ext; [|done].
  intros r. unfold next_idx, room_at. by rewrite Hr.
Qed.

Lemma history_frame env c c' (P : N → bytes → Prop) :
  (∀ k, P T_EVENT k) → (∀ k, P T_HISTORY k) → (∀ k, P T_ROOM k) →
  frame P env c c' → history_inv env c → history_inv env c'.
Proof.
  intros H1 H2 H3 Hf Hh.
  destruct (N.lt_ge_cases (seq c) u64_modulus) as [Hlt|Hge].
  - apply (mid_end env c c' 0). apply (mid_frame _ _ _ _ c c' P H1 H2 H3 Hf).
    apply mid_init; [done|lia].
  - destruct Hf as [Hs He Hc]. destruct Hh as [Hd Hv Hp]. unfold history_inv.
    assert (∀ r, next_idx env c' r = next_idx env c r) as Hn.
    { intros. unfold next_idx, room_at. by rewrite Hc. }
    apply (history_with_ext (next_idx env c)); [done|].
    split; [| |done]; intros r n; unfold history_row, event_at; rewrite Hc by done; [apply Hd|].
    intros id Hlt Hid. destruct (Hv r n id Hlt Hid) as (s & Hs' & Hvis). exists s.
    unfold event_at in Hs'. by rewrite Hc.
Qed.

Definition not_txn (t : N) (_ : bytes) : Prop := t ≠ T_TXN ∧ t ≠ T_TXN_IDX ∧ t ≠ T_TXN_ECHO.

Lemma txn_frame c0 txn id : keeps (λ env c, frame not_txn env c0 c) (put_txn txn id).
Proof.
  assert (∀ t k v, (t < 256)%N → (∀ k, ¬ not_txn t k) →
    keeps (λ env c, frame not_txn env c0 c) (ctx_put t k v)) as Hput.
  { intros t k v Ht Hn env c Hf. apply wp_put. eapply frame_trans; [done|]. by apply frame_put. }
  assert (∀ t k, (t < 256)%N → (∀ k, ¬ not_txn t k) →
    keeps (λ env c, frame not_txn env c0 c) (ctx_delete t k)) as Hdel.
  { intros t k Ht Hn env c Hf. unfold wp; simpl. eapply frame_trans; [done|]. by apply frame_delete. }
  unfold put_txn. solve_keeps; first [apply Hput|apply Hdel]; try done;
    unfold not_txn; intros ?; tauto.
Qed.

(** A command fits: its numbers do not wrap, and a create event names a room
    the shard does not hold. *)
Definition emit_bound (cmd : RoomCommand) : N :=
  match cmd with
  | ImportHistoryCmd _ => 0
  | ImportSegmentCmd s => N.of_nat (length (is_timeline s))
  | _ => 1
  end.

Definition cmd_ok (env : ApplyEnv) (c : ApplyState) (cmd : RoomCommand) : Prop :=
  (seq c + emit_bound cmd < u64_modulus)%N ∧
  match cmd with
  | Append a | AppendStamped a _ =>
      ae_create_version a ≠ None → tget env c T_ROOM (ae_room_id a) = None
  | ImportHistoryCmd h =>
      ∀ m, room_at env c (ih_room_id h) = Some m →
        (rm_next_history_idx m + N.of_nat (length (ih_events h)) < u64_modulus)%N
  | _ => True
  end.

Lemma history_append env c a :
  (seq c + 1 < u64_modulus)%N →
  (ae_create_version a ≠ None → tget env c T_ROOM (ae_room_id a) = None) →
  history_inv env c → wp (apply_append a) env (λ _ c', history_inv env c') c.
Proof.
  intros Hlt Hcr Hh. pose proof (mid_init env c 1 Hh Hlt) as Hm.
  unfold apply_append. do 2 wp_step.
  destruct (tget env c T_EVENT (ae_event_id a)) eqn:He; simpl; [by wp_step|].
  destruct (ae_rejected a) as [why|].
  - unfold append_rejected. do 2 wp_step.
    apply (mid_put_event _ _ _ _ _ (ae_event_id a) {| se_raw := ae_raw a; se_seq := 0;
      se_state_group_after := ae_state_group_after a; se_depth := ae_depth a;
      se_rejected := Some why; se_history_idx := None; se_imported := false;
      se_relay := false |}) in Hm; [|unfold event_at; by rewrite He].
    wp_step. eapply wp_mono; [|by apply mid_groups]. intros [] c2 Hm2.
    wp_step. apply wp_get_typed. intros o Ho Hd. wp_step.
    rewrite (mid_rooms _ _ _ _ _ Hm2) in Ho. fold (room_at env c (ae_room_id a)) in Ho.
    destruct o as [m|]; [|repeat wp_step; by eapply mid_end].
    destruct (_ <? _)%N; [|repeat wp_step; by eapply mid_end].
    repeat wp_step. eapply mid_finish; [done|..]; rewrite Ho; [by intros m0 [= <-]|done].
  - wp_step. eapply wp_mono; [|eapply (mid_timeline _ _ 0); [done|exact Hm]].
    intros n c1 [Hn Hm1]. wp_step. apply (wp_mono _ _ (λ _ c', mid (next_idx env c) (tget env c T_ROOM) 0 env c')).
    2: { destruct (ae_redacts a); [by apply mid_redact|by wp_step]. }
    intros [] c2 Hm2. wp_step. eapply wp_mono; [|by apply mid_groups]. intros [] c3 Hm3. wp_step.
    apply (wp_mono _ _ (λ m c', c' = c3 ∧
      (∀ m0, room_at env c (ae_room_id a) = Some m0 → rm_next_history_idx m = rm_next_history_idx m0) ∧
      (room_at env c (ae_room_id a) = None → rm_next_history_idx m = 1%N))).
    { intros m c4 (-> & H1 & H2). repeat wp_step. by eapply mid_finish. }
    destruct (ae_create_version a) as [v|].
    + wp_step. split; [done|]. split; [|done]. intros m0. unfold room_at. by rewrite Hcr.
    + wp_step. apply wp_get_typed. intros o Ho Hd.
      rewrite (mid_rooms _ _ _ _ _ Hm3) in Ho. fold (room_at env c (ae_room_id a)) in Ho.
      rewrite Ho. destruct o as [m|]; wp_step. split; [done|]. split; [by intros m0 [= <-]|done].
Qed.

Lemma history_receipt env c r :
  (seq c + 1 < u64_modulus)%N →
  history_inv env c → wp (apply_receipt r) env (λ _ c', history_inv env c') c.
Proof.
  intros Hlt Hh. unfold apply_receipt. wp_step. apply wp_get_typed. intros o Ho Hd.
  destruct (is_some_and _ _); [by wp_step|]. repeat wp_step.
  apply (mid_end env c _ 0). do 2 (apply mid_put; [done..|]).
  split; [by destruct Hh|done|]. simpl. rewrite add64_small by lia. lia.
Qed.

Lemma mid_get nx rooms b env c {A} (f : option StoredEvent → A) id (Q : A → Prop) :
  (∀ o, Q (f o)) → mid nx rooms b env c →
  wp (s ← get_event id; mret (f s)) env (λ a c', Q a ∧ c' = c) c.
Proof.
  intros HQ Hm. wp_step. apply wp_get_typed. intros o _ _. wp_step. split; [apply HQ|done].
Qed.

(** A loop of reads ends where it began. *)
Lemma reads_fold {A B} (g : B → A → option StoredEvent → B) (key : A → string) l b env c :
  wp (app_fold (λ b a, s ← get_event (key a); mret (g b a s)) b l) env (λ _ c', c' = c) c.
Proof.
  apply (wp_fold _ _ (λ _ c', c' = c)); [|done]. intros b' a c' _ ->.
  wp_step. apply wp_get_typed. intros o _ _. by wp_step.
Qed.

Lemma history_import env c r :
  (seq c + 1 < u64_modulus)%N →
  history_inv env c → wp (apply_import r) env (λ _ c', history_inv env c') c.
Proof.
  intros Hlt Hh. unfold apply_import. wp_step. apply wp_get_typed. intros o Ho _.
  fold (room_at env c (ir_room_id r)) in Ho. wp_step.
  apply (wp_mono _ _ (λ _ c', c' = c)).
  2: { destruct (is_some o); [|by wp_step]. wp_step. apply wp_get_typed. intros s _ _. by wp_step. }
  intros held c' ->. destruct held; [by wp_step|]. wp_step.
  apply (wp_mono _ _ (λ _ c', mid (next_idx env c) (tget env c T_ROOM) 1 env c')).
  2: { apply (wp_fold _ _ (λ _ c', mid (next_idx env c) (tget env c T_ROOM) 1 env c'));
       [|by apply mid_init]. intros ? ev c' _ Hm. by apply mid_support. }
  intros [] c1 Hm1. do 2 wp_step. wp_step.
  eapply wp_mono; [|eapply (mid_timeline _ _ 0); [done|by apply mid_put]].
  intros n c2 [_ Hm2]. wp_step.
  eapply wp_mono; [|apply (reads_fold (λ (f : gset string) id s,
    if is_some_and s visible then f else {[id]} ∪ f) (λ id, id))].
  intros frontier c3 ->. repeat wp_step. eapply mid_finish; [done|..]; rewrite Ho.
  - by intros m0 ->.
  - by intros ->.
Qed.

Lemma history_segment env c r :
  (seq c + N.of_nat (length (is_timeline r)) < u64_modulus)%N →
  history_inv env c → wp (apply_import_segment r) env (λ _ c', history_inv env c') c.
Proof.
  intros Hlt Hh. unfold apply_import_segment. wp_step. apply wp_get_typed. intros o Ho _.
  fold (room_at env c (is_room_id r)) in Ho. destruct o as [m|]; [|by wp_step]. wp_step.
  set (I := λ b c', mid (next_idx env c) (tget env c T_ROOM) b env c').
  apply (wp_mono _ _ (λ _ c', I (N.of_nat (length (is_timeline r))) c')).
  2: { apply (wp_fold _ _ (λ _ c', I (N.of_nat (length (is_timeline r))) c'));
       [|by apply mid_init]. intros ? ev c' _ Hm. by apply mid_support. }
  intros [] c1 Hm1. do 2 wp_step. wp_step.
  apply (wp_mono _ _ (λ _ c', I 0%N c')).
  2: { apply (wp_fold_rest _ _ (λ l _ c', I (N.of_nat (length l)) c')); [|by apply mid_put].
       intros acc ev l c' Hm. unfold segment_step. wp_step. apply wp_get_typed. intros s _ _.
       destruct (is_some_and s on_timeline).
       - wp_step. destruct Hm as [H1 H2 H3]. split; [done..|]. simpl in H3. lia.
       - wp_step. eapply wp_mono; [|eapply (mid_timeline _ _ (N.of_nat (length l))); [done|]].
         + intros n c2 [_ Hm2]. by wp_step.
         + destruct Hm as [H1 H2 H3]. split; [done..|]. simpl in H3. lia. }
  intros acc c2 Hm2. wp_step.
  eapply wp_mono; [|apply (reads_fold (λ f id s,
    if negb (is_some_and s visible) && negb (bool_decide (id ∈ f)) then f ++ [id] else f) (λ id, id))].
  intros frontier c3 ->. repeat wp_step. eapply mid_finish; [done|..]; rewrite Ho.
  - by intros m0 [= <-].
  - done.
Qed.

Lemma visible_history_idx s i : visible (with_history_idx s i) = true.
Proof. unfold visible. simpl. apply orb_true_r. Qed.

(** The reading loop of [apply_import_history]. *)
Definition missing_step (batch : gset string) (missing : list string) (id : string) :
    app (list string) :=
  if bool_decide (id ∈ batch) then mret missing
  else (s ← get_event id; mret (if is_some_and s visible then missing else missing ++ [id])).

Lemma missing_fold batch l env c :
  wp (app_fold (missing_step batch) [] l) env (λ missing c', c' = c ∧
    ∀ id, id ∈ missing ↔ id ∈ l ∧ id ∉ batch ∧
      is_some_and (event_at env c id) visible = false) c.
Proof.
  set (P := λ (seen missing : list string) (c' : ApplyState), c' = c ∧
    ∀ id, id ∈ missing ↔ id ∈ seen ∧ id ∉ batch ∧
      is_some_and (event_at env c id) visible = false).
  assert (∀ seen missing, P seen missing c →
    wp (app_fold (missing_step batch) missing l) env (P (seen ++ l)) c) as Hgen.
  { induction l as [|id l IH]; intros seen missing HP.
    { apply wp_ret. by rewrite app_nil_r. }
    simpl. wp_step. eapply (wp_mono _ _ (P (seen ++ [id]))).
    { intros missing' c' HP'. replace (seen ++ id :: l) with ((seen ++ [id]) ++ l)
        by (by rewrite <- app_assoc). pose proof HP' as [-> _]. by apply IH. }
    destruct HP as [_ HP]. unfold missing_step. case_bool_decide as Hb.
    - wp_step. split; [done|]. intros id'. rewrite HP, elem_of_app, list_elem_of_singleton.
      naive_solver.
    - wp_step. apply wp_get_typed. intros o Ho _. fold (event_at env c id) in Ho. wp_step.
      split; [done|]. intros id'. rewrite elem_of_app, list_elem_of_singleton.
      destruct (is_some_and o visible) eqn:Hv.
      + rewrite HP. split; [naive_solver|]. intros ([?| ->] & ? & ?); [done|]. congruence.
      + rewrite elem_of_app, list_elem_of_singleton, HP. split.
        * intros [?| ->]; [naive_solver|]. rewrite Ho. auto.
        * intros ([?| ->] & ? & ?); [left; auto|by right]. }
  apply (Hgen []). split; [done|]. intros id. rewrite !elem_of_nil. naive_solver.
Qed.

Lemma history_history env c r :
  (∀ m, room_at env c (ih_room_id r) = Some m →
    (rm_next_history_idx m + N.of_nat (length (ih_events r)) < u64_modulus)%N) →
  history_inv env c → wp (apply_import_history r) env (λ _ c', history_inv env c') c.
Proof.
  intros Hfit Hh. unfold apply_import_history. wp_step. apply wp_get_typed. intros o Ho _.
  fold (room_at env c (ih_room_id r)) in Ho. destruct o as [m|]; [|by wp_step]. wp_step.
  set (nx := λ i r', if decide (r' = ih_room_id r) then Some i else next_idx env c r').
  apply (wp_mono _ _ (λ acc c', history_with (nx (idx acc)) env c' ∧
    ∀ r', tget env c' T_ROOM r' = tget env c T_ROOM r')).
  2: { eapply wp_mono; [|apply (wp_fold_rest _ _ (λ l acc c', history_with (nx (idx acc)) env c' ∧
         (∀ r', tget env c' T_ROOM r' = tget env c T_ROOM r') ∧
         (idx acc + N.of_nat (length l) < u64_modulus)%N))].
       { simpl. by intros acc c' (H1 & H2 & _). }
       2: { simpl. split_and!; [|done|by apply Hfit]. eapply history_with_ext; [|done].
            intros r'. unfold nx. case_decide as Hr; [|done]. subst r'. unfold next_idx.
            by rewrite Ho. }
       intros acc ev l c' (Hw & Hr & Hlt). simpl in Hlt. unfold history_step. wp_step.
       apply wp_get_typed. intros s Hs _. fold (event_at env c' (ie_event_id ev)) in Hs.
       destruct (is_some_and s visible) eqn:Hv; [wp_step; simpl; split_and!; [done..|lia]|].
       wp_step. apply wp_lift. intros raw _. repeat wp_step. cbn [idx].
       rewrite add64_small by lia. split_and!.
       - eapply history_with_ext; [|eapply (history_put_row (nx (idx acc)))].
         + intros r'. unfold nx. by case_decide.
         + unfold nx. by rewrite decide_True.
         + lia.
         + unfold event_at. rewrite tget_put, decide_True by done. simpl. by rewrite dec_enc.
         + apply visible_history_idx.
         + apply history_put_event; [|done]. intros. apply visible_history_idx.
       - intros r'. by rewrite !tget_put_other.
       - simpl in *. lia. }
  intros acc c1 [Hw Hr]. wp_step. eapply wp_mono; [|apply missing_fold].
  intros missing c2 [-> _]. repeat wp_step.
  assert (∀ r', room_at env c1 r' = room_at env c r') as Hra.
  { intros r'. unfold room_at. by rewrite Hr. }
  unfold history_inv. eapply history_with_ext; [|by apply history_put_other].
  intros r'. unfold next_idx at 1, room_at. rewrite tget_put by done. unfold nx.
  destruct (decide (r' = ih_room_id r)) as [->|Hne].
  - rewrite decide_True by done. simpl. by rewrite dec_enc.
  - rewrite decide_False by naive_solver. unfold next_idx. by rewrite <- Hra.
Qed.

Definition cmd_room (cmd : RoomCommand) : string :=
  match cmd with
  | Append a | AppendStamped a _ => ae_room_id a
  | Receipt r => rc_room_id r
  | Import i => ir_room_id i
  | ImportHistoryCmd h => ih_room_id h
  | ImportSegmentCmd s => is_room_id s
  end.

(** The records of the rooms but [room], and their rows of history. *)
Definition others_stay (room : string) (c0 : ApplyState) (env : ApplyEnv) (c : ApplyState) : Prop :=
  (∀ k, k ≠ room → tget env c T_ROOM k = tget env c0 T_ROOM k) ∧
  (∀ k, (∀ n, k ≠ room_u64_key room n) → tget env c T_HISTORY k = tget env c0 T_HISTORY k).

Lemma others_put room c0 t k v :
  (t < 256)%N → (t = T_ROOM → k = room) → (t = T_HISTORY → ∃ n, k = room_u64_key room n) →
  keeps (others_stay room c0) (ctx_put t k v).
Proof.
  intros Ht Hr Hh env c [H1 H2]. apply wp_put. split; intros k'.
  - intros Hne. rewrite tget_put by done. rewrite decide_False; [by apply H1|].
    intros [He ->]. by apply Hne, Hr.
  - intros Hne. rewrite tget_put by done. rewrite decide_False; [by apply H2|].
    intros [He ->]. destruct (Hh He) as [n ->]. by apply (Hne n).
Qed.

Lemma others_delete room c0 t k :
  (t < 256)%N → t ≠ T_ROOM → t ≠ T_HISTORY → keeps (others_stay room c0) (ctx_delete t k).
Proof.
  intros Ht Hr Hh env c [H1 H2]. unfold wp; simpl.
  split; intros k' Hk; [rewrite <- H1 by done|rewrite <- H2 by done]; by apply tget_delete_other.
Qed.

Lemma others_emit room c0 p : keeps (others_stay room c0) (ctx_emit p).
Proof. intros env c H. by repeat wp_step. Qed.

#[local] Hint Resolve others_emit : keeps.
#[local] Hint Extern 1 (keeps _ (ctx_put _ _ _)) => apply others_put; [done|done || eauto..] : keeps.
#[local] Hint Extern 1 (keeps _ (ctx_delete _ _)) => by apply others_delete : keeps.

Lemma others_command cmd c0 : keeps (others_stay (cmd_room cmd) c0) (apply_command cmd).
Proof.
  destruct cmd; cbn [apply_command cmd_room];
    unfold apply_append, append_rejected, put_timeline, put_groups, put_redact, apply_receipt,
      apply_import, put_support, apply_import_history, history_step, apply_import_segment,
      segment_step, put_txn, get_event; solve_keeps.
Qed.

Lemma history_command env c cmd :
  history_inv env c → cmd_ok env c cmd →
  wp (apply_command cmd) env (λ _ c', history_inv env c') c.
Proof.
  intros Hh [Hb Hok]. destruct cmd; simpl in *.
  - by apply history_append.
  - by apply history_receipt.
  - by apply history_import.
  - by apply history_history.
  - by apply history_segment.
  - wp_step. eapply wp_mono; [|by apply history_append]. intros resp c1 H1. wp_step.
    apply (wp_mono _ _ (λ _ c', history_inv env c')); [intros [] c2 H2; by wp_step|].
    destruct resp; try by wp_step.
    eapply wp_mono; [|apply (txn_frame c1)]; [|apply frame_refl]. intros [] c2 Hf.
    by apply (history_frame _ _ _ not_txn ltac:(done) ltac:(done) ltac:(done) Hf).
Qed.

(** C8 (machine.rs, [RoomApp::apply]): through every command that succeeds,
    a room's backfilled history stays indexed without a hole from 1 up to its
    next index, and every index names an event the room can serve (on the
    timeline or in history); the record, next index and indexed rows of every
    other room stay as they are.  This is for commands whose sequence numbers
    and history indexes do not overflow, and for creations of rooms the shard
    does not hold: a second create event starts the bookkeeping of the room
    over ([PipelineRoom.create_refounds]) and breaks the index. *)
Theorem history_index_invariant env c cmd :
  history_inv env c → cmd_ok env c cmd →
  wp (apply_command cmd) env (λ _ c', history_inv env c' ∧
    ∀ r, r ≠ cmd_room cmd → room_at env c' r = room_at env c r ∧
      ∀ n, history_row env c' r n = history_row env c r n) c.
Proof.
  intros Hh Hok. pose proof (history_command env c cmd Hh Hok) as H1.
  pose proof (others_command cmd c env c (conj (λ _ _, eq_refl) (λ _ _, eq_refl))) as H2.
  unfold wp in *. destruct (apply_command cmd env c) as [[resp c']|]; [|done].
  split; [done|]. destruct H2 as [Hr Hk]. intros r Hne. split; [unfold room_at; by rewrite Hr|].
  intros n. apply Hk. intros n' He%room_u64_key_room. congruence.
Qed.

(** An event the room can serve. *)
Definition seen (env : ApplyEnv) (c : ApplyState) (id : string) : bool :=
  is_some_and (event_at env c id) visible.

(** The loop of [apply_import_history], from state [c0] after the events
    [before]. *)
Record import_loop (room : string) (env : ApplyEnv) (c0 : ApplyState)
    (before : list ImportEvent) (acc : HistoryAcc) (c : ApplyState) : Prop := {
  il_rooms : ∀ r, tget env c T_ROOM r = tget env c0 T_ROOM r;
  il_batch : ∀ id, id ∈ batch_ids acc ↔ id ∈ ie_event_id <$> before;
  il_seen : ∀ id, seen env c id = true ↔ seen env c0 id = true ∨ id ∈ batch_ids acc;
  il_new : ∀ id, seen env c0 id = false → id ∈ batch_ids acc →
    ∃ s o, event_at env c id = Some s ∧ parse_object "history event parse" (se_raw s) = Ok o ∧
      ∀ p, p ∈ prev_event_ids o → p ∈ new_prevs acc;
}.

Lemma import_step room env c0 before acc ev c :
  import_loop room env c0 before acc c →
  wp (history_step room acc ev) env (λ acc' c', import_loop room env c0 (before ++ [ev]) acc' c') c.
Proof.
  intros [Hr Hb Hs Hn]. unfold history_step. wp_step. apply wp_get_typed. intros o Ho _.
  fold (event_at env c (ie_event_id ev)) in Ho.
  assert (seen env c (ie_event_id ev) = is_some_and o visible) as Hseen by (unfold seen; by rewrite Ho).
  assert (∀ id, id ∈ {[ie_event_id ev]} ∪ batch_ids acc ↔ id ∈ ie_event_id <$> before ++ [ev]) as Hb'.
  { intros id. rewrite elem_of_union, elem_of_singleton, fmap_app, elem_of_app, Hb. simpl.
    rewrite list_elem_of_singleton. tauto. }
  destruct (is_some_and o visible) eqn:Hv.
  - wp_step. split; cbn [batch_ids new_prevs]; [done|done| |].
    + intros id. rewrite Hs, elem_of_union, elem_of_singleton.
      split; [tauto|]. intros [?|[->|?]]; [tauto| |tauto]. by apply Hs.
    + intros id Hid [->%elem_of_singleton|?]%elem_of_union; [|by apply Hn].
      apply Hs in Hseen as [?|?]; [congruence|by apply Hn].
  - wp_step. apply wp_lift. intros raw Hraw. repeat wp_step.
    set (st := with_history_idx _ _) in *. set (c' := with_wb _ _).
    assert (∀ id, event_at env c' id = if decide (id = ie_event_id ev) then Some st
      else event_at env c id) as Hev.
    { intros id. unfold event_at, c'. rewrite tget_put_other by done. rewrite tget_put by done.
      destruct (decide (id = ie_event_id ev)) as [->|Hne].
      - rewrite decide_True by done. simpl. by rewrite dec_enc.
      - by rewrite decide_False by naive_solver. }
    assert (∀ id, seen env c' id = if decide (id = ie_event_id ev) then true else seen env c id) as Hse.
    { intros id. unfold seen. rewrite Hev. case_decide; [apply visible_history_idx|done]. }
    split; cbn [batch_ids new_prevs].
    + intros r. unfold c'. by rewrite !tget_put_other.
    + done.
    + intros id. rewrite Hse, elem_of_union, elem_of_singleton. case_decide; [tauto|].
      rewrite Hs. tauto.
    + intros id Hid Hin. rewrite Hev. case_decide as Hd.
      * exists st, raw. split_and!; [done|done|]. intros p Hp. apply elem_of_app. by right.
      * apply elem_of_union in Hin as [->%elem_of_singleton|Hin]; [done|].
        destruct (Hn id Hid Hin) as (s & ob & H1 & H2 & H3). exists s, ob.
        split_and!; [done|done|]. intros p Hp. apply elem_of_app. left. by apply H3.
Qed.

Lemma import_loop_run room env c0 l :
  ∀ before acc c, import_loop room env c0 before acc c →
  wp (app_fold (history_step room) acc l) env
    (λ acc' c', import_loop room env c0 (before ++ l) acc' c') c.
Proof.
  induction l as [|ev l IH]; intros before acc c HI.
  { apply wp_ret. by rewrite app_nil_r. }
  simpl. wp_step. eapply wp_mono; [|by apply import_step]. intros acc' c' HI'.
  replace (before ++ ev :: l) with ((before ++ [ev]) ++ l) by (by rewrite <- app_assoc).
  by apply IH.
Qed.

(** After a backfill batch, every
    event of the batch is visible; the room's new frontier holds no visible
    event; and nothing the room must still fetch is forgotten: each id of the
    old frontier, and each predecessor of a newly indexed event, is visible
    or in the new frontier.  In particular a [complete] answer is given
    exactly when none of them is missing. *)
Theorem import_history_frontier cmd env c :
  wp (apply_import_history cmd) env (λ resp c', ∃ indexed complete m m',
    resp = RHistory indexed complete ∧
    room_at env c (ih_room_id cmd) = Some m ∧
    room_at env c' (ih_room_id cmd) = Some m' ∧
    (complete = true ↔ rm_history_frontier m' = []) ∧
    (∀ ev, ev ∈ ih_events cmd → seen env c' (ie_event_id ev) = true) ∧
    (∀ id, id ∈ rm_history_frontier m' → seen env c' id = false) ∧
    (∀ id, id ∈ rm_history_frontier m → seen env c' id = true ∨ id ∈ rm_history_frontier m') ∧
    (∀ ev, ev ∈ ih_events cmd → seen env c (ie_event_id ev) = false →
      ∃ s o, event_at env c' (ie_event_id ev) = Some s ∧
        parse_object "history event parse" (se_raw s) = Ok o ∧
        ∀ p, p ∈ prev_event_ids o → seen env c' p = true ∨ p ∈ rm_history_frontier m')) c.
Proof.
  unfold apply_import_history. wp_step. apply wp_get_typed. intros o Ho _.
  fold (room_at env c (ih_room_id cmd)) in Ho. destruct o as [m|]; [|by wp_step]. wp_step.
  eapply wp_mono; [|apply (import_loop_run _ env c _ [])].
  2: { split; [done|..]; cbn [batch_ids new_prevs].
       - intros id. simpl. rewrite elem_of_nil. set_solver.
       - set_solver.
       - set_solver. }
  simpl. intros acc c1 [Hr Hb Hs Hn]. wp_step. eapply wp_mono; [|apply missing_fold].
  intros missing c2 [-> Hm]. repeat wp_step. set (c' := with_wb _ _).
  assert (∀ id, event_at env c' id = event_at env c1 id) as Hev.
  { intros id. unfold event_at, c'. by rewrite tget_put_other. }
  assert (∀ id, seen env c' id = seen env c1 id) as Hse.
  { intros id. unfold seen. by rewrite Hev. }
  assert (∀ id, id ∈ rm_history_frontier m ∨ id ∈ new_prevs acc →
    seen env c' id = true ∨ id ∈ missing) as Hcover.
  { intros id Hid. rewrite Hse, Hm, elem_of_btree, elem_of_union, !elem_of_list_to_set.
    fold (seen env c1 id). destruct (seen env c1 id) eqn:Hv; [by left|right].
    split_and!; [done| |done]. intros Hin. assert (seen env c1 id = true); [|congruence].
    apply Hs. by right. }
  eexists _, _, m, _. split; [done|]. split; [done|]. split.
  { unfold room_at, c'. rewrite tget_put, decide_True by done. simpl. by rewrite dec_enc. }
  cbn [rm_history_frontier]. split_and!.
  - by rewrite bool_decide_eq_true.
  - intros ev Hin. rewrite Hse. apply Hs. right. apply Hb. by apply list_elem_of_fmap_2.
  - intros id (_ & _ & Hv)%Hm. rewrite Hse. done.
  - intros id Hin. apply Hcover. by left.
  - intros ev Hin Hns. destruct (Hn (ie_event_id ev) Hns) as (s & ob & H1 & H2 & H3).
    { apply Hb. by apply list_elem_of_fmap_2. }
    exists s, ob. rewrite Hev. split_and!; [done|done|]. intros p Hp. apply Hcover. right. by apply H3.
Qed.
End History.

(** ** Witnesses *)

Lemma history_inv_empty : history_inv demo_ctx (apply_init 0).
Proof.
  assert (∀ t k, tget demo_ctx (apply_init 0) t k = None) as H by (intros; apply lookup_empty).
  split.
  - intros r n _. unfold history_row, next_idx, room_at. rewrite !H. simpl.
    split; [by intros []|by intros (? & ? & _)].
  - intros r n id _. unfold history_row. by rewrite H.
  - intros r x. unfold next_idx, room_at. by rewrite H.
Qed.

(** A backfill of one event whose predecessor is not held. *)
Definition demo_backfill : ImportHistory := {|
  ih_room_id := "!r";
  ih_events := [{| ie_event_id := "$h"; ie_raw := demo_raw [("prev_events", "$p")];
                   ie_depth := 1 |}] |}%string.

(** A room with one backfilled event. *)
Definition run_commands (cmds : list RoomCommand) : result store_error ApplyState :=
  foldl (λ r cmd, match r with
    | Ok c => match apply_command cmd demo_ctx c with Ok (_, c') => Ok c' | Err x => Err x end
    | Err x => Err x
    end) (Ok (apply_init 0)) cmds.

Definition demo_commands : list RoomCommand :=
  [Append (demo_append "!r" "$c" (Some "12"%string)); ImportHistoryCmd demo_backfill]%string.

Lemma history_inv_demo c : run_commands demo_commands = Ok c → history_inv demo_ctx c.
Proof.
  unfold run_commands, demo_commands. cbn [foldl].
  pose proof (history_command demo_ctx (apply_init 0)
    (Append (demo_append "!r" "$c" (Some "12"%string))) history_inv_empty) as H1.
  unfold wp in H1. destruct (apply_command _ demo_ctx (apply_init 0)) as [[resp c1]|] eqn:Hc1; [|done].
  specialize (H1 (conj eq_refl (λ _, eq_refl))).
  pose proof (history_command demo_ctx c1 (ImportHistoryCmd demo_backfill) H1) as H2.
  unfold wp in H2. destruct (apply_command _ demo_ctx c1) as [[resp2 c2]|]; [|done].
  intros [= <-]. apply H2.
  assert (match apply_command (Append (demo_append "!r" "$c" (Some "12"%string))) demo_ctx (apply_init 0) with
    | Ok (_, c) => bool_decide (seq c + 0 < u64_modulus)%N &&
        match room_at demo_ctx c "!r" with
        | Some m => bool_decide (rm_next_history_idx m + 1 < u64_modulus)%N | None => false end
    | Err _ => false end = true) as Hb by (vm_compute; reflexivity).
  rewrite Hc1 in Hb. apply andb_true_iff in Hb as [Hs Hr]. apply bool_decide_eq_true in Hs.
  split; [exact Hs|]. intros m Hm. change (ih_room_id demo_backfill) with "!r"%string in Hm. rewrite Hm in Hr.
  by apply bool_decide_eq_true in Hr.
Qed.

(** Another room is created: the index holds, and the room's one row stays. *)
Lemma history_index_invariant_witness :
  match run_commands demo_commands with
  | Ok c =>
      history_row demo_ctx c "!r" 1 = Some "$h"%string ∧
      match apply_command (Append (demo_append "!q" "$d" (Some "12"%string))) demo_ctx c with
      | Ok (resp, c') => resp = RAccepted "$d" 2 ∧ history_inv demo_ctx c' ∧
          history_row demo_ctx c' "!r" 1 = history_row demo_ctx c "!r" 1
      | Err _ => False
      end
  | Err _ => False
  end.
Proof.
  pose proof history_inv_demo as Hinv.
  assert (match run_commands demo_commands with
    | Ok c => history_row demo_ctx c "!r" 1 = Some "$h"%string ∧
        cmd_ok demo_ctx c (Append (demo_append "!q" "$d" (Some "12"%string))) ∧
        match apply_command (Append (demo_append "!q" "$d" (Some "12"%string))) demo_ctx c with
        | Ok (resp, _) => resp = RAccepted "$d" 2 | Err _ => False end
    | Err _ => False end) as Hrun by (vm_compute; split; [reflexivity|split; [split; [reflexivity|]|]; reflexivity]).
  destruct (run_commands demo_commands) as [c|]; [|exact Hrun]. destruct Hrun as (Hrow & Hok & Hresp).
  split; [exact Hrow|].
  pose proof (history_index_invariant demo_ctx c (Append (demo_append "!q" "$d" (Some "12"%string)))
    (Hinv c eq_refl) Hok) as Hw.
  unfold wp in Hw. destruct (apply_command _ demo_ctx c) as [[resp c']|]; [|exact Hresp].
  destruct Hw as [Hi Hothers]. split; [exact Hresp|]. split; [exact Hi|].
  apply Hothers. discriminate.
Defined.

Example import_history_run :
  match apply_command (Append (demo_append "!r" "$c" (Some "12"%string))) demo_ctx (apply_init 0)
  with
  | Ok (_, c) =>
      match apply_import_history demo_backfill demo_ctx c with
      | Ok (resp, c') => resp = RHistory 1 false ∧
          (rm_history_frontier <$> room_at demo_ctx c' "!r") = Some ["$p"%string]
      | Err _ => False
      end
  | Err _ => False
  end.
Proof. vm_compute. by split. Qed.
