(* ===== verification/RoomReadSpec.v ===== *)
(** * What the room reads return *)

From Stdlib Require Import Ascii.
From S2P Require Import Prelude Bytes Store Codec Json Shard ShardFacts.
From S2P Require Import RoomTypes RoomMachine RoomRead Demo RoomDemo RoomAppend RoomHistory.
From stdpp Require Import options.

Section Groups.
Context `{RC : RoomCodecs, JT : JsonText}.
Context (store : ReadCtx).

(** State groups point backwards: the pipeline allocates ids upwards and a
    delta's parent exists before it. *)
Definition groups_wf (room_id : string) : Prop :=
  ∀ id g, group_of store room_id id = Ok (Some g) →
    match sg_parent g with Some p => (p < id)%N | None => True end.

Lemma group_chain_acc fuel room_id cursor chain :
  group_chain store fuel room_id cursor chain =
    (λ r, let? l := r in Ok (chain ++ l)) <$> group_chain store fuel room_id cursor [].
Proof.
  revert cursor chain. induction fuel as [|fuel IH]; intros [id|] chain; simpl;
    rewrite ?app_nil_r; try done.
  destruct (group_of store room_id id) as [[g|]|]; simpl; [|done..].
  rewrite IH. rewrite (IH _ [g]).
  destruct (group_chain store fuel room_id (sg_parent g) []) as [[l|]|]; simpl; [|done..].
  by rewrite <- app_assoc.
Qed.

(** Enough fuel, and more of it, give the same answer. *)
Lemma group_chain_fuel room_id :
  groups_wf room_id → ∀ fuel id fuel', N.to_nat id < fuel → N.to_nat id < fuel' →
  is_Some (group_chain store fuel room_id (Some id) []) ∧
  group_chain store fuel room_id (Some id) [] = group_chain store fuel' room_id (Some id) [].
Proof.
  intros Hwf fuel. induction fuel as [|fuel IH]; intros id fuel' Hf Hf'; [lia|].
  destruct fuel' as [|fuel']; [lia|]. simpl.
  destruct (group_of store room_id id) as [[g|]|] eqn:Hg; [|done..].
  rewrite (group_chain_acc fuel), (group_chain_acc fuel'). specialize (Hwf _ _ Hg).
  destruct (sg_parent g) as [p|]; [|by destruct fuel, fuel'].
  destruct (IH p fuel') as [[r Hr] He]; [lia..|]. rewrite <- He, Hr. by split.
Qed.

(** The parent walk ends, whatever the
    fuel above the group id, and its answer is the delta semantics of
    spec.md: a snapshot group is its own entries, a delta is its parent's
    state with its entries on top, and a hole in the chain is an error. *)
Theorem resolve_group_unfold fuel room_id id :
  groups_wf room_id → N.to_nat id < fuel →
  resolve_group store fuel room_id id =
    match group_of store room_id id with
    | Ok (Some g) =>
        match sg_parent g with
        | None => Some (Ok (add_entries ∅ (sg_entries g)))
        | Some p =>
            (λ r, let? m := r in Ok (add_entries m (sg_entries g)))
              <$> resolve_group store fuel room_id p
        end
    | Ok None => Some (Err (Engine "state group missing"))
    | Err e => Some (Err e)
    end ∧
  is_Some (resolve_group store fuel room_id id).
Proof.
  intros Hwf Hf. unfold resolve_group.
  destruct (group_chain_fuel room_id Hwf fuel id fuel Hf Hf) as [[r Hr] _]. rewrite Hr; simpl.
  split; [|by eexists]. destruct fuel as [|fuel]; [lia|]. simpl in Hr.
  destruct (group_of store room_id id) as [[g|]|] eqn:Hg; [|by simplify_eq..].
  rewrite group_chain_acc in Hr. specialize (Hwf id g Hg) as Hlt.
  destruct (sg_parent g) as [p|].
  - destruct (group_chain_fuel room_id Hwf fuel p (S fuel)) as [[r' Hr'] He]; [lia..|].
    rewrite <- He, Hr' in *. simpl in *. simplify_eq.
    destruct r' as [l|]; simpl; [|done]. by rewrite foldl_app.
  - destruct fuel; simpl in Hr; by simplify_eq.
Qed.
End Groups.

Section Window.
Context (sid : ShardId) (e : engine) (t : N).

(** The rows of a per-room numbered table ([T_ROOM_SEQ], [T_HISTORY]): room
    ids hold no NUL, values are event ids. *)
Definition numbered_table : Prop :=
  ∀ k v, e !! ctx_key sid t k = Some v →
    ∃ r n, nul_free r = true ∧ (n < u64_modulus)%N ∧ k = room_u64_key r n ∧ utf8_ok v = true.

Definition in_window (after : N) (until : option N) (n : N) : Prop :=
  (after < n)%N ∧ match until with Some u => (n ≤ u)%N | None => True end.

Lemma ltb_str1 c s : String.ltb s (str1 c) = true → match s with
  | EmptyString => True | String a _ => (N_of_ascii a < N_of_ascii c)%N end.
Proof.
  rewrite sltb_iff. destruct s as [|a s]; [done|]. simpl. unfold Ascii.compare.
  destruct (N.compare_spec (N_of_ascii a) (N_of_ascii c)); [by destruct s|done|done].
Qed.

Lemma window_end_char room until : ∃ c s,
  window_end room until = room +:+ String c s ∧ (N_of_ascii c ≤ 1)%N ∧
  (N_of_ascii c = 1%N → s = EmptyString).
Proof.
  unfold window_end, room_u64_end, room_u64_key.
  destruct until as [u|]; [destruct (u =? u64_max)%N|]; eexists _, _; done.
Qed.

Lemma be64_ge n m : (n < u64_modulus)%N → (m < u64_modulus)%N →
  String.leb (be64 n) (be64 m) = true ↔ (n ≤ m)%N.
Proof. intros. rewrite be64_leb by done. apply N.leb_le. Qed.

Lemma leb_room_key room n m : (n < u64_modulus)%N → (m < u64_modulus)%N →
  String.leb (room_u64_key room n) (room_u64_key room m) = (n <=? m)%N.
Proof.
  intros. unfold room_u64_key. rewrite sleb_app.
  change (String b0 (be64 n)) with (str1 b0 +:+ be64 n).
  change (String b0 (be64 m)) with (str1 b0 +:+ be64 m).
  rewrite sleb_app. by apply be64_leb.
Qed.

Lemma below_window room until n :
  (n < u64_modulus)%N → (∀ u, until = Some u → (u < u64_modulus)%N) →
  below (window_end room until) (room_u64_key room n) =
    match until with Some u => (n <=? u)%N | None => true end.
Proof.
  intros Hn Hu. destruct (window_end_char room until) as (c & s & He & _).
  assert (below (window_end room until) (room_u64_key room n) =
    String.ltb (room_u64_key room n) (window_end room until)) as ->.
  { rewrite He. by destruct room. }
  assert (String.ltb (room_u64_key room n) (room_u64_end room) = true) as Hend.
  { unfold room_u64_key, room_u64_end. by rewrite sltb_app. }
  unfold window_end. destruct until as [u|]; [|done]. specialize (Hu u eq_refl).
  destruct (N.eqb_spec u u64_max) as [->|Hne].
  - rewrite Hend. symmetry. apply N.leb_le. unfold u64_max, u64_modulus in *. lia.
  - assert (u + 1 < u64_modulus)%N by (unfold u64_max, u64_modulus in *; lia).
    rewrite sltb_negb, leb_room_key by done.
    destruct (N.leb_spec (u + 1) n), (N.leb_spec n u); simpl; (done || lia).
Qed.

Lemma window_elem room after until k v :
  (t < 255)%N → numbered_table → nul_free room = true → (after + 1 < u64_modulus)%N →
  (∀ u, until = Some u → (u < u64_modulus)%N) →
  (k, v) ∈ rows sid t (window_start room after) (window_end room until) e ↔
  ∃ n, k = room_u64_key room n ∧ (n < u64_modulus)%N ∧ in_window after until n ∧
    e !! ctx_key sid t (room_u64_key room n) = Some v.
Proof.
  intros Ht Hwf Hr Ha Hu. rewrite elem_of_rows by done.
  assert (window_start room after = room_u64_key room (after + 1)) as Hs.
  { unfold window_start, saturating_add64. rewrite N.min_l; [done|].
    unfold u64_max, u64_modulus in *. lia. }
  rewrite Hs. split.
  - intros (Hk & Hle & Hlt). destruct (Hwf k v Hk) as (r & n & Hnr & Hn & -> & _).
    assert (r = room) as ->.
    { destruct (window_end_char room until) as (c & s & He & Hc & Hcs). rewrite He in Hlt.
      assert (String.ltb (room_u64_key r n) (room +:+ String c s) = true) as Hlt'
        by (by destruct room). clear Hlt.
      destruct (between_common_prefix room (String b0 (be64 (after + 1))) (String c s)
        (room_u64_key r n)) as [k' Hk'].
      { unfold between. apply andb_true_iff. by split. }
      unfold room_u64_key at 1 in Hle. rewrite Hk', sleb_app in Hle.
      rewrite Hk', sltb_app in Hlt'.
      destruct k' as [|a k']; [done|].
      assert (a = b0) as ->.
      { apply sltb_iff in Hlt'. simpl in Hlt'. unfold Ascii.compare in Hlt'.
        destruct (N.compare_spec (N_of_ascii a) (N_of_ascii c)) as [E|E|E]; [| |done].
        - destruct (N.eq_dec (N_of_ascii c) 1%N) as [E1|E1].
          + rewrite (Hcs E1) in Hlt'. by destruct k'.
          + assert (N_of_ascii a = 0%N) by lia. rewrite <- (byte_of_N_of a).
            by replace (N_of_ascii a) with 0%N.
        - assert (N_of_ascii a = 0%N) by lia. rewrite <- (byte_of_N_of a).
          by replace (N_of_ascii a) with 0%N. }
      unfold room_u64_key in Hk'. by apply nul_split_inj in Hk' as [-> _]. }
    exists n. rewrite leb_room_key in Hle by done. rewrite below_window in Hlt by done.
    split_and!; [done|done| |done]. split; [apply N.leb_le in Hle; lia|].
    destruct until; [by apply N.leb_le|done].
  - intros (n & -> & Hn & [Hlo Hhi] & Hk). rewrite leb_room_key, below_window by done.
    split_and!; [done|apply N.leb_le; lia|]. destruct until; [by apply N.leb_le|done].
Qed.
End Window.

Section Pages.
Context `{RC : RoomCodecs, JT : JsonText}.
Context (sid : ShardId) (e : engine).

Definition num_below {A} (a b : N * A) : Prop := (a.1 < b.1)%N.

(** A row of a numbered table, decoded. *)
Definition numbered (kv : bytes * bytes) : N * string :=
  (default 0%N (from_be64 (str_drop (String.length kv.1 - 8) kv.1)), kv.2).

Lemma key_u64_room what room n :
  (n < u64_modulus)%N → key_u64 what (room_u64_key room n) = Ok n.
Proof.
  intros Hn. unfold key_u64, room_u64_key.
  change (String b0 (be64 n)) with (str1 b0 +:+ be64 n). rewrite <- str_app_assoc.
  rewrite str_length_app, be64_length.
  replace (String.length (room +:+ str1 b0) + 8 - 8) with (String.length (room +:+ str1 b0)) by lia.
  by rewrite str_drop_app, from_be64_be64.
Qed.

Lemma numbered_room room n v : (n < u64_modulus)%N → numbered (room_u64_key room n, v) = (n, v).
Proof.
  intros Hn. pose proof (key_u64_room "" room n Hn) as Hk. unfold key_u64, numbered in *; cbn [fst snd].
  destruct (from_be64 _); simpl in *; congruence.
Qed.

Lemma window_fold l out :
  (∀ kv, kv ∈ l → ∃ r n, kv.1 = room_u64_key r n ∧ (n < u64_modulus)%N ∧ utf8_ok kv.2 = true) →
  try_fold (λ out '(k, v),
    let? n := key_u64 "key width" k in
    let? event_id := utf8 "value not UTF-8" v in
    Ok (out ++ [(n, event_id)])) out l = Ok (E := store_error) (out ++ map numbered l).
Proof.
  revert out. induction l as [|[k v] l IH]; intros out Hl; [by rewrite app_nil_r|].
  cbn [try_fold map]. destruct (Hl (k, v)) as (r & n & Hk & Hn & Hv); [by left|].
  cbn [fst snd] in *. subst k. rewrite key_u64_room by done. unfold utf8, from_utf8. rewrite Hv.
  rewrite numbered_room by done. rewrite IH by (intros; apply Hl; by right).
  by rewrite <- app_assoc.
Qed.

(** A window read
    returns exactly the room's events numbered in [(after, until]]: none of
    another room's, each once, ascending (or descending from the top when
    reversed), cut at [limit]. *)
Theorem window_rows_spec t room after until limit reverse :
  (t < 255)%N → numbered_table sid e t → nul_free room = true →
  (after + 1 < u64_modulus)%N → (∀ u, until = Some u → (u < u64_modulus)%N) →
  ∃ l, window_rows {| r_shard := sid; r_engine := e |} t room after until limit reverse =
      Ok (take (N.to_nat limit) (if reverse then rev l else l)) ∧
    StronglySorted num_below l ∧
    ∀ n id, (n, id) ∈ l ↔ (n < u64_modulus)%N ∧ in_window after until n ∧
      e !! ctx_key sid t (room_u64_key room n) = Some id.
Proof.
  intros Ht Hwf Hr Ha Hu.
  set (w := rows sid t (window_start room after) (window_end room until) e).
  pose proof (λ k v, window_elem sid e t room after until k v Ht Hwf Hr Ha Hu) as Hw.
  fold w in Hw.
  exists (map numbered w). split_and!.
  - unfold window_rows. rewrite read_scan_rows. fold w. rewrite window_fold.
    + simpl. rewrite <- firstn_map. destruct reverse; [by rewrite map_rev|done].
    + intros [k v] Hin. assert ((k, v) ∈ w) as Hkv.
      { apply elem_of_take in Hin as (i & Hi & _). apply list_elem_of_lookup_2 in Hi.
        destruct reverse; [|done]. rewrite list_elem_of_In in Hi |- *.
        by apply in_rev in Hi. }
      apply Hw in Hkv as (n & -> & Hn & _ & Hv). exists room, n. split_and!; [done|done|].
      destruct (Hwf _ _ Hv) as (? & ? & _ & _ & _ & Hutf). done.
  - pose proof (rows_sorted sid t (window_start room after) (window_end room until) e Ht) as Hs.
    pose proof (rows_NoDup_keys sid t (window_start room after) (window_end room until) e Ht) as Hnd.
    fold w in Hs, Hnd. revert Hs Hnd. assert (∀ k v, (k, v) ∈ w → ∃ n, k = room_u64_key room n ∧
      (n < u64_modulus)%N) as Hk.
    { intros k v (n & -> & Hn & _)%Hw. by exists n. }
    clear Hw. revert Hk. induction w as [|[k v] w IH]; intros Hk Hs Hnd; cbn [map]; [constructor|].
    apply StronglySorted_inv in Hs as [Hs Hf]. apply list.NoDup_cons in Hnd as [Hni Hnd].
    constructor; [apply IH; [intros; eapply Hk; by right|done|done]|].
    destruct (Hk k v) as (n & -> & Hn); [by left|]. rewrite numbered_room by done.
    apply Forall_fmap, list.Forall_forall. intros [k' v'] Hin.
    destruct (Hk k' v') as (n' & -> & Hn'); [by right|].
    change (num_below (n, v) (numbered (room_u64_key room n', v'))). unfold num_below.
    rewrite numbered_room by done. cbn [fst]. rewrite list.Forall_forall in Hf.
    specialize (Hf _ Hin). unfold kv_le in Hf; cbn [fst] in Hf. apply sleb_le in Hf.
    rewrite leb_room_key in Hf by done. apply N.leb_le in Hf.
    assert (n ≠ n'); [|lia]. intros ->. apply Hni. apply list_elem_of_fmap. by exists (room_u64_key room n', v').
  - intros n id. rewrite list_elem_of_fmap. split.
    + intros ([k v] & Heq & (n' & -> & Hn & Hin & Hv)%Hw). rewrite numbered_room in Heq by done.
      by injection Heq as -> ->.
    + intros (Hn & Hin & Hv). exists (room_u64_key room n, id). split; [by rewrite numbered_room|].
      apply Hw. by exists n.
Qed.
End Pages.

(** ** Witnesses *)

Definition demo_group : StateGroup := {|
  sg_parent := None; sg_chain_len := 0;
  sg_entries := [(("m.room.create", ""), "$c")] |}%string.

Definition demo_group_store : ReadCtx := {|
  r_shard := demo_shard;
  r_engine := {[ ctx_key demo_shard T_GROUP (room_u64_key "!r" 1) := enc demo_group ]} |}.

Lemma demo_groups_wf : groups_wf demo_group_store "!r".
Proof.
  intros id g. unfold group_of, kv_get_typed, read_get, demo_group_store; cbn [r_engine r_shard].
  destruct ({[_ := _]} !! _) as [b|] eqn:Hb; [|done].
  apply lookup_singleton_Some in Hb as [_ <-]. rewrite dec_or_enc. by intros [= <-].
Qed.

Lemma resolve_group_unfold_witness :
  resolve_group demo_group_store 2 "!r" 1 =
    Some (Ok {[ ("m.room.create", "")%string := "$c"%string ]}).
Proof.
  destruct (resolve_group_unfold demo_group_store 2 "!r" 1 demo_groups_wf ltac:(vm_compute; lia))
    as [He _].
  etransitivity; [exact He|]. vm_compute. reflexivity.
Defined.

Definition demo_window_engine : engine :=
  {[ ctx_key demo_shard T_ROOM_SEQ (room_u64_key "!r" 3) := "$m"%string ]}.

Lemma demo_numbered : numbered_table demo_shard demo_window_engine T_ROOM_SEQ.
Proof.
  intros k v Hk. unfold demo_window_engine in Hk. apply lookup_singleton_Some in Hk as [Hk <-].
  apply ctx_key_inj in Hk as [_ <-]; [|done..]. by exists "!r"%string, 3%N.
Qed.

Lemma window_rows_spec_witness :
  ∃ l, window_rows {| r_shard := demo_shard; r_engine := demo_window_engine |}
    T_ROOM_SEQ "!r" 2 (Some 9%N) 10 false = Ok l ∧ (3%N, "$m"%string) ∈ l.
Proof.
  destruct (window_rows_spec demo_shard demo_window_engine T_ROOM_SEQ "!r" 2 (Some 9%N) 10 false
    ltac:(reflexivity) demo_numbered ltac:(reflexivity) ltac:(reflexivity)
    ltac:(intros u [= <-]; reflexivity)) as (l & Hl & _ & Hin).
  exists (take 10 l). split; [exact Hl|].
  assert ((3%N, "$m"%string) ∈ l) as H3.
  { apply Hin. split; [reflexivity|]. split; [split; vm_compute; congruence|].
    vm_compute. reflexivity. }
  assert (l = [(3%N, "$m"%string)]) as Hone.
  { assert (window_rows {| r_shard := demo_shard; r_engine := demo_window_engine |}
      T_ROOM_SEQ "!r" 2 (Some 9%N) 10 false = Ok [(3%N, "$m"%string)]) as Hrun
      by (vm_compute; reflexivity).
    rewrite Hl in Hrun. injection Hrun as Hrun.
    destruct l as [|a [|b l]]; cbn in Hrun; [discriminate|exact Hrun|discriminate]. }
  rewrite Hone. left.
Defined.
