(* ===== verification/UserTypes.v ===== *)
(** * User-shard records and commands (saltator-userserver/src/types.rs) *)

From Stdlib Require Import Ascii.
From S2P Require Import Prelude Bytes Codec Shard.
From stdpp Require Import options.

(** ** Tables *)

Definition T_ACCOUNT : N := APP_TABLE_FIRST.
Definition T_TOKEN : N := APP_TABLE_FIRST + 1.
Definition T_DEVICE : N := APP_TABLE_FIRST + 2.
Definition T_PROFILE : N := APP_TABLE_FIRST + 3.
Definition T_ACCOUNT_DATA : N := APP_TABLE_FIRST + 4.
Definition T_FILTER : N := APP_TABLE_FIRST + 5.
Definition T_MEMBERSHIP : N := APP_TABLE_FIRST + 6.
Definition T_CURSOR : N := APP_TABLE_FIRST + 7.
Definition T_ALIAS : N := APP_TABLE_FIRST + 8.
Definition T_MEDIA : N := APP_TABLE_FIRST + 9.
Definition T_DIRECTORY : N := APP_TABLE_FIRST + 10.
Definition T_INVITE_STATE : N := APP_TABLE_FIRST + 11.
Definition T_DEVICE_KEYS : N := APP_TABLE_FIRST + 12.
Definition T_ONE_TIME_KEY : N := APP_TABLE_FIRST + 13.
Definition T_TO_DEVICE : N := APP_TABLE_FIRST + 14.
Definition T_KEY_CHANGE : N := APP_TABLE_FIRST + 15.
Definition T_PUSHER : N := APP_TABLE_FIRST + 16.
Definition T_BACKUP_VERSION : N := APP_TABLE_FIRST + 17.
Definition T_BACKUP_KEY : N := APP_TABLE_FIRST + 18.
Definition T_FALLBACK_KEY : N := APP_TABLE_FIRST + 19.
Definition T_CROSS_SIGNING : N := APP_TABLE_FIRST + 20.
Definition T_EDU_OUTBOX : N := APP_TABLE_FIRST + 21.
Definition T_TO_DEVICE_SEEN : N := APP_TABLE_FIRST + 22.
Definition T_TO_DEVICE_SEEN_IDX : N := APP_TABLE_FIRST + 23.
Definition T_UIA_SESSION : N := APP_TABLE_FIRST + 24.
Definition T_UIA_SESSION_IDX : N := APP_TABLE_FIRST + 25.
Definition T_REG_TOKEN : N := APP_TABLE_FIRST + 26.
Definition T_EXTERNAL_ID : N := APP_TABLE_FIRST + 27.
Definition T_EXTERNAL_ID_USER : N := APP_TABLE_FIRST + 28.
Definition T_ROOM_BLOCKED : N := APP_TABLE_FIRST + 29.
Definition T_NOTICES_ROOM : N := APP_TABLE_FIRST + 30.
Definition T_LOGIN_TOKEN : N := APP_TABLE_FIRST + 31.
Definition T_TXN_SEEN : N := APP_TABLE_FIRST + 32.
Definition T_TXN_SEEN_IDX : N := APP_TABLE_FIRST + 33.
Definition T_USERNAME : N := APP_TABLE_FIRST + 34.

(** ** Keys ([prefix_end] is in [Bytes.v]) *)

Definition user_key (user_id rest : string) : bytes := user_id +:+ String b0 rest.

Definition external_key (auth_provider external_id : string) : bytes :=
  user_key auth_provider external_id.

Definition device_scoped_key (user_id device_id rest : string) : bytes :=
  user_id +:+ String b0 (device_id +:+ String b0 rest).

Definition to_device_key (user_id device_id : string) (seq : N) : bytes :=
  device_scoped_key user_id device_id EmptyString +:+ be64 seq.

Definition account_data_key (user_id room_id data_type : string) : bytes :=
  user_id +:+ String b0 (room_id +:+ String b0 data_type).

(** ** Records.  A [[u8; 32]] hash is its 32 bytes. *)

Abbreviation hash := string (only parsing).

Inductive AccountState : Type := Active | Locked | Deactivated.

#[export] Instance account_state_eq_dec : EqDecision AccountState.
Proof. solve_decision. Defined.

Definition can_authenticate (s : AccountState) : bool :=
  match s with Active => true | _ => false end.

Record Account : Type := {
  ac_password_hash : option string;
  ac_created_ts : N;
  ac_state : AccountState;
  ac_admin : bool;
  ac_erased : bool;
}.

Record AccountV2 : Type := {
  a2_password_hash : option string;
  a2_created_ts : N;
  a2_deactivated : bool;
}.

Record UiaSession : Type := {
  ui_request_hash : hash;
  ui_completed : list string;
  ui_registration_token : option string;
  ui_created_ts : N;
}.

Record LoginTokenEntry : Type := { lt_user_id : string; lt_expires_ts : N }.

Record RegToken : Type := {
  rt_uses_allowed : option N;
  rt_used : N;
  rt_expiry_ts : option N;
  rt_created_ts : N;
}.

(** [RegToken::usable] *)
Definition usable (t : RegToken) (now : N) : bool :=
  match rt_expiry_ts t with Some e => (now <? e)%N | None => true end
  && match rt_uses_allowed t with Some allowed => (rt_used t <? allowed)%N | None => true end.

Record BlockedRoom : Type := { br_by : string; br_ts : N }.

Inductive TokenKind : Type := Access | Refresh.

Definition is_refresh (k : TokenKind) : bool :=
  match k with Refresh => true | Access => false end.

Record TokenEntry : Type := {
  tk_user_id : string;
  tk_device_id : string;
  tk_kind : TokenKind;
  tk_created_ts : N;
  tk_expires_ts : option N;
  tk_state : AccountState;
}.

Record TokenEntryV4 : Type := {
  t4_user_id : string;
  t4_device_id : string;
  t4_kind : TokenKind;
  t4_created_ts : N;
  t4_expires_ts : option N;
}.

Record Device : Type := {
  dv_display_name : option string;
  dv_created_ts : N;
  dv_access_token_hash : option hash;
  dv_refresh_token_hash : option hash;
}.

Record Profile : Type := { pf_displayname : option string; pf_avatar_url : option string }.

Record AccountDataEntry : Type := { ad_json : bytes; ad_seq : N }.

Record MembershipEntry : Type := {
  me_membership : string;
  me_event_id : string;
  me_sender : string;
  me_room_seq : N;
  me_seq : N;
  me_forgotten : bool;
}.

Record AliasEntry : Type := { al_room_id : string; al_creator : string }.

Record MediaMeta : Type := {
  mm_owner : string;
  mm_content_type : option string;
  mm_filename : option string;
  mm_size : N;
  mm_created_ts : N;
  mm_pending : bool;
  mm_blob : option string;
}.

Record MembershipChange : Type := {
  mc_user_id : string;
  mc_room_id : string;
  mc_membership : string;
  mc_event_id : string;
  mc_sender : string;
  mc_room_seq : N;
}.

Record SessionCmd : Type := {
  sc_user_id : string;
  sc_device_id : string;
  sc_display_name : option string;
  sc_token_hash : hash;
  sc_refresh_hash : option hash;
  sc_expires_ts : option N;
  sc_ts : N;
}.

Record OtkEntry : Type := { otk_order : N; otk_json : bytes }.

Record FallbackEntry : Type := { fb_key_id : string; fb_json : bytes; fb_used : bool }.

Record BackupVersionMeta : Type := {
  bv_algorithm : string;
  bv_auth_data : bytes;
  bv_count : N;
  bv_etag : N;
  bv_deleted : bool;
}.

Record ToDeviceMessage : Type := { td_user_id : string; td_device_id : string; td_json : bytes }.

Record OutboundEdu : Type := { oe_destination : string; oe_json : bytes }.

Record KeyChangeEntry : Type := {
  kc_user_id : string;
  kc_membership : option (string * bool);
}.

Record ClaimRequest : Type := {
  cl_user_id : string;
  cl_device_id : string;
  cl_algorithm : string;
}.

Record ClaimedKey : Type := {
  ck_user_id : string;
  ck_device_id : string;
  ck_key_id : string;
  ck_key_json : bytes;
}.

(** ** Commands, responses, change records *)

Inductive UserCommand : Type :=
| Register (user_id : string) (password_hash : option string) (ts : N)
    (session : option SessionCmd)
| CreateSession (session : SessionCmd)
| RefreshSession (old_refresh_hash : hash) (session : SessionCmd)
| DeleteDevice (user_id device_id : string)
| DeleteAllDevices (user_id : string)
| SetDeviceName (user_id device_id : string) (display_name : option string)
| UpsertDevice (user_id device_id : string) (display_name : option string) (ts : N)
| SetProfile (user_id : string) (displayname avatar_url : option (option string))
| PutAccountData (user_id room_id data_type : string) (json : bytes)
| PutFilter (user_id filter_id : string) (json : bytes)
| ApplyRoomChanges (source : string) (upto_seq : N) (changes : list MembershipChange)
| CreateAlias (alias room_id creator : string)
| DeleteAlias (alias : string)
| PutMedia (media_id : string) (m : MediaMeta)
| SetRoomVisibility (room_id : string) (public : bool)
| RecordRemoteInvite (user_id room_id sender event_id : string) (stripped : list bytes)
| RecordRemoteKnock (user_id room_id sender event_id : string) (stripped : list bytes)
| RecordRemoteLeave (user_id room_id : string)
| ForgetRoom (user_id room_id : string)
| UploadKeys (user_id device_id : string) (device_keys : option bytes)
    (one_time_keys fallback_keys : list (string * bytes))
| ClaimKeys (claims : list ClaimRequest)
| SetCrossSigningKeys (user_id : string) (master self_signing user_signing : option bytes)
| AddSignatures (user_id : string) (targets : list (string * bytes))
| SendToDevice (messages : list ToDeviceMessage)
| AckToDevice (user_id device_id : string) (up_to : N)
| RecordKeyChange (user_id : string)
| QueueOutboundEdus (entries : list OutboundEdu)
| AckOutboundEdus (destination : string) (up_to : N)
| ChangePassword (user_id password_hash : string) (logout_others : bool)
    (keep_device : string)
| Deactivate (user_id : string)
| SetPusher (user_id device_id app_id pushkey : string) (json : option bytes)
| CreateBackupVersion (user_id algorithm : string) (auth_data : bytes)
| UpdateBackupVersion (user_id : string) (version : N) (algorithm : string)
    (auth_data : bytes)
| DeleteBackupVersion (user_id : string) (version : N)
| PutBackupKeys (user_id : string) (version : N) (keys : list (string * string * bytes))
| DeleteBackupKeys (user_id : string) (version : N) (room_id session_id : option string)
| SendToDeviceDeduped (origin message_id : string) (ts_ms : N)
    (messages : list ToDeviceMessage)
| SetLocked (user_id : string) (locked : bool)
| SetAdmin (user_id : string) (admin : bool)
| AdminSetPassword (user_id password_hash : string) (logout_devices : bool)
| SetErased (user_id : string)
| CompleteUiaStage (session_id : string) (request_hash : hash) (stage : string)
    (registration_token : option string) (now_ts expire_before_ts : N)
| RegisterWithToken (user_id : string) (password_hash : option string) (ts : N)
    (session : option SessionCmd) (registration_token : option string)
| CreateRegistrationToken (token : string) (uses_allowed expiry_ts : option N) (ts : N)
| DeleteRegistrationToken (token : string)
| LinkExternalId (user_id auth_provider external_id : string)
| UnlinkExternalId (user_id auth_provider : string)
| SetNoticesRoom (user_id room_id : string)
| SetRoomBlocked (room_id : string) (blocked : bool) (by_admin : string) (ts : N)
| CreateLoginToken (token_hash : hash) (user_id : string) (expires_ts now_ts : N)
| ConsumeLoginToken (token_hash : hash) (now_ts : N)
| MarkTxn (user_id device_id scope txn_id : string) (ts : N).

Inductive UserResponse : Type :=
| UOk
| UserExists
| AliasExists
| InvalidGrant
| NotFound
| Stale
| OneTimeKeyCounts (counts : gmap string N)
| ClaimedKeys (keys : list ClaimedKey)
| BackupVersion (version : N)
| BackupStatus (count etag : N)
| InvalidState
| UiaRequestMismatch
| UiaCompleted (completed : list string) (registration_token : option string)
| InvalidToken
| TokenExists
| ExternalIdInUse (owner : string)
| LoginTokenOwner (user_id : string).

Inductive UserChangePayload : Type := ChangedUser (user_id : string).

(** ** The codecs of the stored records *)

Class UserCodecs := {
  uc_command :: Codec UserCommand;
  uc_response :: Codec UserResponse;
  uc_change :: Codec UserChangePayload;
  uc_account :: Codec Account;
  uc_account_v2 :: Codec AccountV2;
  uc_uia :: Codec UiaSession;
  uc_login_token :: Codec LoginTokenEntry;
  uc_reg_token :: Codec RegToken;
  uc_blocked :: Codec BlockedRoom;
  uc_token :: Codec TokenEntry;
  uc_token_v4 :: Codec TokenEntryV4;
  uc_device :: Codec Device;
  uc_profile :: Codec Profile;
  uc_account_data :: Codec AccountDataEntry;
  uc_membership :: Codec MembershipEntry;
  uc_alias :: Codec AliasEntry;
  uc_media :: Codec MediaMeta;
  uc_otk :: Codec OtkEntry;
  uc_fallback :: Codec FallbackEntry;
  uc_backup :: Codec BackupVersionMeta;
  uc_key_change :: Codec KeyChangeEntry;
  uc_u64 :: Codec N;
  uc_string :: Codec string;
  uc_stripped :: Codec (list bytes);
}.
