(* ===== verification/UserMachine.v ===== *)
(** * The user keyspace: accounts, sessions, devices, memberships

    The first part of saltator-userserver/src/machine.rs: the helpers and
    migrations, and the commands on accounts' sessions, profiles and room
    memberships.  [UserKeys.v] and [UserApply.v] hold the other commands,
    [UserApply.v] the dispatch. *)

From Stdlib Require Import Ascii.
From S2P Require Import Prelude Bytes Store Codec Json Shard UserTypes.
From stdpp Require Import options.
Set Warnings "-register-all".

Definition SCHEMA_VERSION : N := 6.
Definition TO_DEVICE_SEEN_HORIZON_MS : N := 60 * 60 * 1000.
Definition TXN_SEEN_HORIZON_MS : N := 24 * 60 * 60 * 1000.

(** ** Keys *)

Definition txn_key (user_id device_id scope txn_id : string) : bytes :=
  user_id +:+ String b0 (device_id +:+ String b0 (scope +:+ String b0 txn_id)).

Definition user_end (user_id : string) : bytes := user_id +:+ str1 b1.

Definition backup_version_key (user_id : string) (version : N) : bytes :=
  user_key user_id EmptyString +:+ be64 version.

Definition backup_key_prefix (user_id : string) (version : N)
    (room_id session_id : option string) : bytes :=
  backup_version_key user_id version +:+ String b0
    (match room_id with
     | Some r => r +:+ String b0 (default EmptyString session_id)
     | None => EmptyString
     end).

Definition uia_idx_key (created_ts : N) (session_id : string) : bytes :=
  be64 created_ts +:+ session_id.

Section Machine.
Context `{UC : UserCodecs, SJ : SerdeJson, UL : Utf8Lossy}.

Definition emit_user_change (user_id : string) : app N :=
  ctx_emit (enc (ChangedUser user_id)).

Definition put_key_change (seq : N) (user_id : string)
    (membership : option (string * bool)) : app () :=
  ctx_put T_KEY_CHANGE (be64 seq)
    (enc {| kc_user_id := user_id; kc_membership := membership |}).

Definition log_key_change (user_id : string) : app () :=
  seq ← emit_user_change user_id;
  put_key_change seq user_id None.

Definition get_account (user_id : string) : app (option Account) :=
  get_typed (A := Account) "account decode" T_ACCOUNT user_id.

Definition get_device (user_id device_id : string) : app (option Device) :=
  get_typed (A := Device) "device decode" T_DEVICE (user_key user_id device_id).

(** [account_state]: no account behind a token closes it. *)
Definition account_state (user_id : string) : app AccountState :=
  a ← get_account user_id;
  mret (match a with Some a => ac_state a | None => Deactivated end).

Definition token_v4_to_v5 (old : TokenEntryV4) (state : AccountState) : TokenEntry := {|
  tk_user_id := t4_user_id old; tk_device_id := t4_device_id old; tk_kind := t4_kind old;
  tk_created_ts := t4_created_ts old; tk_expires_ts := t4_expires_ts old;
  tk_state := state |}.

(** [decode_token]: either shape, and whether its state is real. *)
Definition decode_token (b : bytes) : result store_error (TokenEntry * bool) :=
  match dec (A := TokenEntry) b with
  | Some entry => Ok (entry, true)
  | None =>
      let? old := dec_or (A := TokenEntryV4) "token v4 decode" b in
      Ok (token_v4_to_v5 old Active, false)
  end.

Definition with_state (t : TokenEntry) (state : AccountState) : TokenEntry := {|
  tk_user_id := tk_user_id t; tk_device_id := tk_device_id t; tk_kind := tk_kind t;
  tk_created_ts := tk_created_ts t; tk_expires_ts := tk_expires_ts t; tk_state := state |}.

Definition opt_list {A} (o : option A) : list A :=
  match o with Some a => [a] | None => [] end.

Definition device_hashes (d : Device) : list hash :=
  opt_list (dv_access_token_hash d) ++ opt_list (dv_refresh_token_hash d).

Definition user_devices (user_id : string) : app (list (bytes * bytes)) :=
  ctx_range T_DEVICE (user_key user_id EmptyString) (user_end user_id).

Definition restamp_token (state : AccountState) (h : hash) : app () :=
  entry ← get_typed (A := TokenEntry) "token decode" T_TOKEN h;
  match entry with
  | Some t => ctx_put T_TOKEN h (enc (with_state t state))
  | None => mret ()
  end.

Definition restamp_tokens (user_id : string) (state : AccountState) : app () :=
  rows ← user_devices user_id;
  hashes ← app_fold (λ hashes '(_, v),
    d ← lift (dec_or (A := Device) "device decode" v);
    mret (hashes ++ device_hashes d)) [] rows;
  app_iter (restamp_token state) hashes.

Definition account_v2_to_v3 (old : AccountV2) : Account := {|
  ac_password_hash := a2_password_hash old; ac_created_ts := a2_created_ts old;
  ac_state := if a2_deactivated old then Deactivated else Active;
  ac_admin := false; ac_erased := false |}.

(** [UserApp::migrate] *)
Definition user_migrate (to : N) : app () :=
  if (to =? 2)%N then
    rows ← ctx_range T_EDU_OUTBOX EmptyString EmptyString;
    app_iter (λ '(k, _), ctx_delete T_EDU_OUTBOX k) rows
  else if (to =? 3)%N then
    rows ← ctx_range T_ACCOUNT EmptyString EmptyString;
    app_iter (λ '(k, v),
      old ← lift (dec_or (A := AccountV2) "account v2 decode" v);
      ctx_put T_ACCOUNT k (enc (account_v2_to_v3 old))) rows
  else if (to =? 6)%N then
    rows ← ctx_range T_ACCOUNT EmptyString EmptyString;
    app_iter (λ '(k, _), ctx_put T_USERNAME k (str1 b1)) rows
  else if (to =? 5)%N then
    rows ← ctx_range T_TOKEN EmptyString EmptyString;
    app_iter (λ '(k, v),
      old ← lift (dec_or (A := TokenEntryV4) "token v4 decode" v);
      state ← account_state (t4_user_id old);
      ctx_put T_TOKEN k (enc (token_v4_to_v5 old state))) rows
  else if (to =? 4)%N then mret ()
  else fail (Engine "no migration registered").

Definition delete_hash (o : option hash) : app () :=
  match o with Some h => ctx_delete T_TOKEN h | None => mret () end.

(** [write_session] *)
Definition write_session (s : SessionCmd) : app () :=
  existing ← get_device (sc_user_id s) (sc_device_id s);
  match existing with
  | Some prev =>
      delete_hash (dv_access_token_hash prev);;
      delete_hash (dv_refresh_token_hash prev)
  | None => mret ()
  end;;
  ctx_put T_DEVICE (user_key (sc_user_id s) (sc_device_id s))
    (enc {| dv_display_name := match existing with
                               | Some prev => dv_display_name prev
                               | None => sc_display_name s
                               end;
            dv_created_ts := default (sc_ts s) (dv_created_ts <$> existing);
            dv_access_token_hash := Some (sc_token_hash s);
            dv_refresh_token_hash := sc_refresh_hash s |});;
  state ← account_state (sc_user_id s);
  ctx_put T_TOKEN (sc_token_hash s)
    (enc {| tk_user_id := sc_user_id s; tk_device_id := sc_device_id s; tk_kind := Access;
            tk_created_ts := sc_ts s; tk_expires_ts := sc_expires_ts s; tk_state := state |});;
  match sc_refresh_hash s with
  | Some rh =>
      ctx_put T_TOKEN rh
        (enc {| tk_user_id := sc_user_id s; tk_device_id := sc_device_id s;
                tk_kind := Refresh; tk_created_ts := sc_ts s; tk_expires_ts := None;
                tk_state := state |})
  | None => mret ()
  end.

(** Every row of [table] under [prefix]. *)
Definition delete_prefix (table : N) (prefix : bytes) : app N :=
  rows ← ctx_range table prefix (prefix_end prefix);
  app_fold (λ n '(k, _), ctx_delete table k;; mret (add64 n 1)) 0%N rows.

(** [delete_device] *)
Definition delete_device (user_id device_id : string) : app bool :=
  device ← get_device user_id device_id;
  match device with
  | None => mret false
  | Some d =>
      delete_hash (dv_access_token_hash d);;
      delete_hash (dv_refresh_token_hash d);;
      ctx_delete T_DEVICE (user_key user_id device_id);;
      ctx_delete T_DEVICE_KEYS (user_key user_id device_id);;
      app_iter (λ table,
        delete_prefix table (device_scoped_key user_id device_id EmptyString);; mret ())
        [T_ONE_TIME_KEY; T_TO_DEVICE; T_PUSHER; T_FALLBACK_KEY];;
      mret true
  end.

(** [delete_devices_except] *)
Definition delete_devices_except (user_id : string) (keep : option string) : app bool :=
  rows ← user_devices user_id;
  app_fold (λ (any : bool) '(k, _),
    device_id ← lift (from_utf8 "device id not UTF-8"
      (str_drop (String.length (user_key user_id EmptyString)) k));
    if bool_decide (keep = Some device_id) then mret any
    else
      deleted ← delete_device user_id device_id;
      mret (any || deleted)) false rows.

Definition put_account (user_id : string) (a : Account) : app () :=
  ctx_put T_ACCOUNT user_id (enc a).

(** The struct updates [account.state = ..] and so on. *)
Definition acct_set_state (a : Account) (s : AccountState) : Account := {|
  ac_password_hash := ac_password_hash a; ac_created_ts := ac_created_ts a; ac_state := s;
  ac_admin := ac_admin a; ac_erased := ac_erased a |}.

Definition acct_set_password (a : Account) (p : option string) : Account := {|
  ac_password_hash := p; ac_created_ts := ac_created_ts a; ac_state := ac_state a;
  ac_admin := ac_admin a; ac_erased := ac_erased a |}.

Definition acct_set_admin (a : Account) (b : bool) : Account := {|
  ac_password_hash := ac_password_hash a; ac_created_ts := ac_created_ts a;
  ac_state := ac_state a; ac_admin := b; ac_erased := ac_erased a |}.

Definition acct_set_erased (a : Account) : Account := {|
  ac_password_hash := ac_password_hash a; ac_created_ts := ac_created_ts a;
  ac_state := ac_state a; ac_admin := ac_admin a; ac_erased := true |}.

(** [if delete_devices_except(..)? { log_key_change(..)?; }] *)
Definition logout_devices (user_id : string) (keep : option string) : app () :=
  any ← delete_devices_except user_id keep;
  if (any : bool) then log_key_change user_id else mret ().

(** [let Some(mut account) = get_typed(..)? else { return NotFound }] *)
Definition with_account (user_id : string) (k : Account → app UserResponse) :
    app UserResponse :=
  a ← get_account user_id;
  match a with Some a => k a | None => mret NotFound end.

(** [apply_deactivate] *)
Definition apply_deactivate (user_id : string) : app UserResponse :=
  with_account user_id (λ a,
    put_account user_id (acct_set_password (acct_set_state a Deactivated) None);;
    logout_devices user_id None;;
    mret UOk).

(** [apply_register] *)
Definition apply_register (user_id : string) (password_hash : option string) (ts : N)
    (session : option SessionCmd) (registration_token : option string) : app UserResponse :=
  name ← ctx_get T_USERNAME user_id;
  taken ← (if is_some name then mret true
           else a ← ctx_get T_ACCOUNT user_id; mret (is_some a));
  if (taken : bool) then mret UserExists
  else
    ok ← match registration_token with
         | None => mret true
         | Some token =>
             entry ← get_typed (A := RegToken) "reg token decode" T_REG_TOKEN token;
             match entry with
             | None => mret false
             | Some e =>
                 if negb (usable e ts) then mret false
                 else
                   ctx_put T_REG_TOKEN token
                     (enc {| rt_uses_allowed := rt_uses_allowed e;
                             rt_used := add64 (rt_used e) 1;
                             rt_expiry_ts := rt_expiry_ts e;
                             rt_created_ts := rt_created_ts e |});;
                   mret true
             end
         end;
    if negb ok then mret InvalidToken
    else
      put_account user_id
        {| ac_password_hash := password_hash; ac_created_ts := ts; ac_state := Active;
           ac_admin := false; ac_erased := false |};;
      ctx_put T_USERNAME user_id (str1 b1);;
      match session with Some s => write_session s | None => mret () end;;
      mret UOk.

(** [sweep_uia_sessions] *)
Definition sweep_uia_sessions (expire_before_ts : N) : app () :=
  rows ← ctx_range T_UIA_SESSION_IDX EmptyString (be64 expire_before_ts);
  app_iter (λ '(k, _),
    ctx_delete T_UIA_SESSION (str_drop 8 k);;
    ctx_delete T_UIA_SESSION_IDX k) rows.

(** ** Sessions and devices *)

Definition create_session (s : SessionCmd) : app UserResponse :=
  a ← ctx_get T_ACCOUNT (sc_user_id s);
  if is_some a then write_session s;; mret UOk else mret NotFound.

Definition refresh_session (old_refresh_hash : hash) (s : SessionCmd) : app UserResponse :=
  entry ← get_typed (A := TokenEntry) "token decode" T_TOKEN old_refresh_hash;
  let valid := match entry with
               | Some e => is_refresh (tk_kind e)
                   && bool_decide (tk_user_id e = sc_user_id s)
                   && bool_decide (tk_device_id e = sc_device_id s)
               | None => false
               end in
  if valid then write_session s;; mret UOk else mret InvalidGrant.

Definition delete_one_device (user_id device_id : string) : app UserResponse :=
  deleted ← delete_device user_id device_id;
  if (deleted : bool) then log_key_change user_id;; mret UOk else mret NotFound.

Definition dev_set_name (d : Device) (n : option string) : Device := {|
  dv_display_name := n; dv_created_ts := dv_created_ts d;
  dv_access_token_hash := dv_access_token_hash d;
  dv_refresh_token_hash := dv_refresh_token_hash d |}.

Definition put_device (user_id device_id : string) (d : Device) : app () :=
  ctx_put T_DEVICE (user_key user_id device_id) (enc d).

Definition upsert_device (user_id device_id : string) (display_name : option string)
    (ts : N) : app UserResponse :=
  existing ← get_device user_id device_id;
  put_device user_id device_id
    (match existing with
     | Some d => dev_set_name d display_name
     | None => {| dv_display_name := display_name; dv_created_ts := ts;
                  dv_access_token_hash := None; dv_refresh_token_hash := None |}
     end);;
  log_key_change user_id;;
  mret UOk.

Definition set_device_name (user_id device_id : string) (display_name : option string) :
    app UserResponse :=
  existing ← get_device user_id device_id;
  match existing with
  | None => mret NotFound
  | Some d =>
      put_device user_id device_id (dev_set_name d display_name);;
      log_key_change user_id;;
      mret UOk
  end.

(** ** Profile, account data, filters *)

Definition set_profile (user_id : string) (displayname avatar_url : option (option string)) :
    app UserResponse :=
  o ← get_typed (A := Profile) "profile decode" T_PROFILE user_id;
  let p := default {| pf_displayname := None; pf_avatar_url := None |} o in
  ctx_put T_PROFILE user_id
    (enc {| pf_displayname := default (pf_displayname p) displayname;
            pf_avatar_url := default (pf_avatar_url p) avatar_url |});;
  mret UOk.

Definition put_account_data (user_id room_id data_type : string) (json : bytes) :
    app UserResponse :=
  seq ← emit_user_change user_id;
  ctx_put T_ACCOUNT_DATA (account_data_key user_id room_id data_type)
    (enc {| ad_json := json; ad_seq := seq |});;
  mret UOk.

(** ** The membership projection *)

Definition get_membership (mkey : bytes) : app (option MembershipEntry) :=
  get_typed (A := MembershipEntry) "membership decode" T_MEMBERSHIP mkey.

Definition is_join (m : string) : bool := bool_decide (m = "join"%string).

Definition room_change (c : MembershipChange) : app () :=
  let mkey := user_key (mc_user_id c) (mc_room_id c) in
  existing ← get_membership mkey;
  if match existing with Some e => (mc_room_seq c <=? me_room_seq e)%N | None => false end
  then mret ()
  else
    seq ← emit_user_change (mc_user_id c);
    let was_joined := match existing with Some e => is_join (me_membership e) | None => false end in
    let now_joined := is_join (mc_membership c) in
    (if Bool.eqb was_joined now_joined then mret ()
     else put_key_change seq (mc_user_id c) (Some (mc_room_id c, now_joined)));;
    ctx_put T_MEMBERSHIP mkey
      (enc {| me_membership := mc_membership c; me_event_id := mc_event_id c;
              me_sender := mc_sender c; me_room_seq := mc_room_seq c; me_seq := seq;
              me_forgotten := false |}).

Definition apply_room_changes (source : string) (upto_seq : N)
    (changes : list MembershipChange) : app UserResponse :=
  o ← ctx_get T_CURSOR source;
  cursor ← match o with
           | Some b => lift (ok_or (from_be64 b) (Engine "cursor width"))
           | None => mret 0%N
           end;
  if (upto_seq <=? cursor)%N then mret Stale
  else
    app_iter room_change changes;;
    ctx_put T_CURSOR source (be64 upto_seq);;
    mret UOk.

(** [RecordRemoteInvite] and [RecordRemoteKnock] differ in the membership
    they record and in their error tags. *)
Definition record_remote (membership user_id room_id sender event_id : string)
    (stripped : list bytes) : app UserResponse :=
  seq ← emit_user_change user_id;
  ctx_put T_MEMBERSHIP (user_key user_id room_id)
    (enc {| me_membership := membership; me_event_id := event_id; me_sender := sender;
            me_room_seq := 0; me_seq := seq; me_forgotten := false |});;
  ctx_put T_INVITE_STATE (user_key user_id room_id) (enc stripped);;
  mret UOk.

Definition record_remote_leave (user_id room_id : string) : app UserResponse :=
  seq ← emit_user_change user_id;
  existing ← get_membership (user_key user_id room_id);
  (if match existing with Some e => is_join (me_membership e) | None => false end
   then put_key_change seq user_id (Some (room_id, false))
   else mret ());;
  ctx_put T_MEMBERSHIP (user_key user_id room_id)
    (enc {| me_membership := "leave"; me_event_id := EmptyString; me_sender := user_id;
            me_room_seq := 0; me_seq := seq; me_forgotten := false |});;
  ctx_delete T_INVITE_STATE (user_key user_id room_id);;
  mret UOk.

Definition forget_room (user_id room_id : string) : app UserResponse :=
  existing ← get_membership (user_key user_id room_id);
  match existing with
  | Some e =>
      ctx_put T_MEMBERSHIP (user_key user_id room_id)
        (enc {| me_membership := me_membership e; me_event_id := me_event_id e;
                me_sender := me_sender e; me_room_seq := me_room_seq e; me_seq := me_seq e;
                me_forgotten := true |})
  | None => mret ()
  end;;
  mret UOk.
End Machine.
