(* ===== verification/UserKeys.v ===== *)
(** * The user keyspace: end-to-end encryption, to-device, backups, pushers

    The second part of [apply_command] (saltator-userserver/src/machine.rs):
    device and one-time keys, cross-signing, the to-device and EDU queues,
    key backups and pushers. *)

From Stdlib Require Import Ascii.
From S2P Require Import Prelude Bytes Store Codec Json Shard UserTypes UserMachine.
From stdpp Require Import options.
Set Warnings "-register-all".

Definition COLON : ascii := ":"%char.

(** [id.split(':').next().unwrap_or_default()] *)
Definition algorithm_of (key_id : string) : string := (split_once COLON key_id).1.

(** [iter.max()] and [iter.min_by_key(|e| key(e))]: the first of the least. *)
Definition list_max_opt (l : list N) : option N :=
  match l with [] => None | a :: l => Some (foldl N.max a l) end.

Definition min_by_key {A} (key : A → N) (l : list A) : option A :=
  match l with
  | [] => None
  | a :: l => Some (foldl (λ m b, if (key b <? key m)%N then b else m) a l)
  end.

Section Machine.
Context `{UC : UserCodecs, SJ : SerdeJson, UL : Utf8Lossy}.

(** ** One-time and fallback keys *)

Definition otk_scope (user_id device_id : string) : bytes :=
  user_key user_id device_id +:+ str1 b0.

(** [k.strip_prefix(prefix).map(|s| from_utf8_lossy(s))] *)
Definition stripped_id (prefix k : bytes) : option string :=
  if starts_with prefix k
  then Some (from_utf8_lossy (str_drop (String.length prefix) k)) else None.

Definition device_otks (user_id device_id : string) : app (list (bytes * bytes)) :=
  let prefix := otk_scope user_id device_id in
  ctx_range T_ONE_TIME_KEY prefix (prefix_end prefix).

Definition next_otk_order (existing : list (bytes * bytes)) : N :=
  default 0%N (list_max_opt
    (omap (λ '(_, v), (λ e, add64 (otk_order e) 1) <$> dec (A := OtkEntry) v) existing)).

Definition existing_ids (prefix : bytes) (existing : list (bytes * bytes)) : gset string :=
  list_to_set (omap (λ '(k, _), stripped_id prefix k) existing).

Definition upload_otk (user_id device_id : string) (st : N * gset string)
    (k : string * bytes) : app (N * gset string) :=
  let '(next_order, ids) := st in
  let '(key_id, json) := k in
  let key := device_scoped_key user_id device_id key_id in
  o ← ctx_get T_ONE_TIME_KEY key;
  if is_some o then mret (next_order, ids)
  else if bool_decide (key_id ∈ ids) then mret (next_order, ids)
  else
    ctx_put T_ONE_TIME_KEY key (enc {| otk_order := next_order; otk_json := json |});;
    mret (add64 next_order 1, {[key_id]} ∪ ids).

Definition upload_fallback (user_id device_id : string) (k : string * bytes) : app () :=
  let '(key_id, json) := k in
  let fkey := device_scoped_key user_id device_id (algorithm_of key_id) in
  existing ← get_typed (A := FallbackEntry) "fallback decode" T_FALLBACK_KEY fkey;
  let used := match existing with
              | Some e => bool_decide (fb_key_id e = key_id) && fb_used e
              | None => false
              end in
  ctx_put T_FALLBACK_KEY fkey
    (enc {| fb_key_id := key_id; fb_json := json; fb_used := used |}).

Definition count_algorithms (ids : gset string) : gmap string N :=
  foldl (λ counts id,
    let algo := algorithm_of id in
    <[algo := add64 (default 0%N (counts !! algo)) 1]> counts) ∅ (btree ids).

Definition upload_keys (user_id device_id : string) (device_keys : option bytes)
    (one_time_keys fallback_keys : list (string * bytes)) : app UserResponse :=
  match device_keys with
  | Some dk =>
      ctx_put T_DEVICE_KEYS (user_key user_id device_id) dk;;
      log_key_change user_id
  | None => mret ()
  end;;
  existing ← device_otks user_id device_id;
  st ← app_fold (upload_otk user_id device_id)
         (next_otk_order existing, existing_ids (otk_scope user_id device_id) existing)
         one_time_keys;
  app_iter (upload_fallback user_id device_id) fallback_keys;;
  mret (OneTimeKeyCounts (count_algorithms st.2)).

(** The candidates of one claim: order, full key, key id, key JSON. *)
Definition otk_candidates (scope : bytes) (algorithm : string)
    (rows : list (bytes * bytes)) : list (N * bytes * string * bytes) :=
  omap (λ '(k, v),
    key_id ← stripped_id scope k;
    if starts_with (algorithm +:+ str1 COLON) key_id
    then e ← dec (A := OtkEntry) v; Some (otk_order e, k, key_id, otk_json e)
    else None) rows.

Definition claim_fallback (req : ClaimRequest) : app (list ClaimedKey) :=
  let fkey := device_scoped_key (cl_user_id req) (cl_device_id req) (cl_algorithm req) in
  o ← get_typed (A := FallbackEntry) "fallback decode" T_FALLBACK_KEY fkey;
  match o with
  | Some e =>
      (if fb_used e then mret ()
       else ctx_put T_FALLBACK_KEY fkey
              (enc {| fb_key_id := fb_key_id e; fb_json := fb_json e; fb_used := true |}));;
      mret [{| ck_user_id := cl_user_id req; ck_device_id := cl_device_id req;
               ck_key_id := fb_key_id e; ck_key_json := fb_json e |}]
  | None => mret []
  end.

Definition claim_key (req : ClaimRequest) : app (list ClaimedKey) :=
  let scope := otk_scope (cl_user_id req) (cl_device_id req) in
  rows ← ctx_range T_ONE_TIME_KEY scope (prefix_end scope);
  match min_by_key (λ c, c.1.1.1) (otk_candidates scope (cl_algorithm req) rows) with
  | Some (_, full_key, key_id, json) =>
      ctx_delete T_ONE_TIME_KEY full_key;;
      mret [{| ck_user_id := cl_user_id req; ck_device_id := cl_device_id req;
               ck_key_id := key_id; ck_key_json := json |}]
  | None => claim_fallback req
  end.

Definition claim_keys (claims : list ClaimRequest) : app UserResponse :=
  claimed ← app_fold (λ claimed req, ks ← claim_key req; mret (claimed ++ ks)) [] claims;
  mret (ClaimedKeys claimed).

(** ** Cross-signing *)

Definition set_cross_signing_keys (user_id : string)
    (master self_signing user_signing : option bytes) : app UserResponse :=
  app_iter (λ '(kind, key),
    match key with
    | Some json => ctx_put T_CROSS_SIGNING (user_key user_id kind) json
    | None => mret ()
    end)
    [("master"%string, master); ("self_signing"%string, self_signing);
     ("user_signing"%string, user_signing)];;
  log_key_change user_id;;
  mret UOk.

(** The [merge] closure of [AddSignatures]: [entry(k).or_insert({})] on the
    way down, the patch's signatures inserted at the leaves. *)
Definition entry_or_object {num} (k : string) (o : list (string * jvalue num)) : jvalue num :=
  default (VObj []) (obj_get k o).

Definition merge_signatures (stored patch : bytes) : option bytes :=
  obj ← from_slice stored;
  patch ← from_slice patch;
  o ← as_object obj;
  signers ← as_object patch;
  sigs ← opt_fold (λ sigs '(signer, keys),
    so ← as_object sigs;
    ks ← as_object keys;
    per ← opt_fold (λ per '(key_id, sig),
      po ← as_object per; Some (VObj (obj_insert key_id sig po)))
      (entry_or_object signer so) ks;
    Some (VObj (obj_insert signer per so)))
    (entry_or_object "signatures" o) signers;
  Some (to_vec (VObj (obj_insert "signatures" sigs o))).

Definition holds_key (stored : bytes) (target : string) : bool :=
  match v ← from_slice stored; ks ← vget "keys" v; as_object ks with
  | Some o => existsb (λ kv, bool_decide (kv.1 = target) || ends_with target kv.1) o
  | None => false
  end.

Fixpoint sign_cross_key (user_id target : string) (patch : bytes) (kinds : list string) :
    app bool :=
  match kinds with
  | [] => mret false
  | kind :: kinds =>
      stored ← ctx_get T_CROSS_SIGNING (user_key user_id kind);
      match stored with
      | None => sign_cross_key user_id target patch kinds
      | Some stored =>
          if holds_key stored target then
            match merge_signatures stored patch with
            | Some updated =>
                ctx_put T_CROSS_SIGNING (user_key user_id kind) updated;; mret true
            | None => mret false
            end
          else sign_cross_key user_id target patch kinds
      end
  end.

Definition sign_target (user_id : string) (changed : bool) (t : string * bytes) : app bool :=
  let '(target, patch) := t in
  stored ← ctx_get T_DEVICE_KEYS (user_key user_id target);
  match stored with
  | Some stored =>
      match merge_signatures stored patch with
      | Some updated =>
          ctx_put T_DEVICE_KEYS (user_key user_id target) updated;; mret true
      | None => mret changed
      end
  | None =>
      c ← sign_cross_key user_id target patch
            ["master"; "self_signing"; "user_signing"]%string;
      mret (changed || c)
  end.

Definition add_signatures (user_id : string) (targets : list (string * bytes)) :
    app UserResponse :=
  changed ← app_fold (sign_target user_id) false targets;
  (if (changed : bool) then log_key_change user_id else mret ());;
  mret UOk.
End Machine.
