(* ===== verification/UserQueues.v ===== *)
(** * The user keyspace: to-device and EDU queues, backups, pushers

    The third part of [apply_command] (saltator-userserver/src/machine.rs):
    the durable inboxes and outbox, transaction deduplication, server-side
    key backups, pushers. *)

From Stdlib Require Import Ascii.
From S2P Require Import Prelude Bytes Store Codec Json Shard UserTypes UserMachine UserKeys.
From stdpp Require Import options.
Set Warnings "-register-all".

Section Machine.
Context `{UC : UserCodecs, SJ : SerdeJson, UL : Utf8Lossy}.

(** ** To-device messages *)

(** ["*"] fans out to every registered device; an explicit one must exist. *)
Definition recipient_devices (m : ToDeviceMessage) : app (list string) :=
  if bool_decide (td_device_id m = "*"%string) then
    rows ← user_devices (td_user_id m);
    mret (map (λ '(k, _), from_utf8_lossy
      (str_drop (String.length (user_key (td_user_id m) EmptyString)) k)) rows)
  else
    o ← ctx_get T_DEVICE (user_key (td_user_id m) (td_device_id m));
    mret (if is_some o then [td_device_id m] else []).

Definition queue_message (m : ToDeviceMessage) : app () :=
  device_ids ← recipient_devices m;
  match device_ids with
  | [] => mret ()
  | _ =>
      seq ← emit_user_change (td_user_id m);
      app_iter (λ device_id,
        ctx_put T_TO_DEVICE (to_device_key (td_user_id m) device_id seq) (td_json m))
        device_ids
  end.

(** [queue_to_device] *)
Definition queue_to_device (messages : list ToDeviceMessage) : app () :=
  app_iter queue_message messages.

(** The horizon prune of a seen-set: its time index below the cutoff, and
    the rows the index points at. *)
Definition prune_seen (idx_table seen_table cutoff : N) : app () :=
  rows ← ctx_range idx_table EmptyString (be64 cutoff);
  app_iter (λ '(k, _),
    ctx_delete idx_table k;;
    if bool_decide (8 < String.length k) then ctx_delete seen_table (str_drop 8 k)
    else mret ()) rows.

Definition send_to_device (messages : list ToDeviceMessage) : app UserResponse :=
  queue_to_device messages;; mret UOk.

Definition send_to_device_deduped (origin message_id : string) (ts_ms : N)
    (messages : list ToDeviceMessage) : app UserResponse :=
  let seen_key := user_key origin message_id in
  o ← ctx_get T_TO_DEVICE_SEEN seen_key;
  if is_some o then mret UOk
  else
    ctx_put T_TO_DEVICE_SEEN seen_key (enc (A := N) ts_ms);;
    ctx_put T_TO_DEVICE_SEEN_IDX (be64 ts_ms +:+ seen_key) EmptyString;;
    prune_seen T_TO_DEVICE_SEEN_IDX T_TO_DEVICE_SEEN
      (saturating_sub64 ts_ms TO_DEVICE_SEEN_HORIZON_MS);;
    queue_to_device messages;;
    mret UOk.

Definition mark_txn (user_id device_id scope txn_id : string) (ts : N) : app UserResponse :=
  let key := txn_key user_id device_id scope txn_id in
  ctx_put T_TXN_SEEN key (enc (A := N) ts);;
  ctx_put T_TXN_SEEN_IDX (be64 ts +:+ key) EmptyString;;
  prune_seen T_TXN_SEEN_IDX T_TXN_SEEN (saturating_sub64 ts TXN_SEEN_HORIZON_MS);;
  mret UOk.

Definition delete_range_of (table : N) (start stop : bytes) : app () :=
  rows ← ctx_range table start stop;
  app_iter (λ '(k, _), ctx_delete table k) rows.

Definition ack_to_device (user_id device_id : string) (up_to : N) : app UserResponse :=
  let prefix := device_scoped_key user_id device_id EmptyString in
  delete_range_of T_TO_DEVICE prefix (prefix +:+ be64 (saturating_add64 up_to 1));;
  mret UOk.

(** ** Outbound EDUs *)

Definition edu_key (destination : string) (seq : N) : bytes :=
  user_key destination EmptyString +:+ be64 seq.

Definition queue_outbound_edus (entries : list OutboundEdu) : app UserResponse :=
  app_iter (λ edu,
    seq ← ctx_emit (enc (ChangedUser EmptyString));
    ctx_put T_EDU_OUTBOX (edu_key (oe_destination edu) seq) (oe_json edu)) entries;;
  mret UOk.

(** [up_to + 1] wraps. *)
Definition ack_outbound_edus (destination : string) (up_to : N) : app UserResponse :=
  delete_range_of T_EDU_OUTBOX (user_key destination EmptyString)
    (edu_key destination (add64 up_to 1));;
  mret UOk.

(** ** Key backups *)

(** [backup_meta]: absent and tombstoned versions alike read as none. *)
Definition backup_meta (user_id : string) (version : N) : app (option BackupVersionMeta) :=
  o ← get_typed (A := BackupVersionMeta) "backup meta decode" T_BACKUP_VERSION
        (backup_version_key user_id version);
  mret (m ← o; if bv_deleted m then None else Some m).

Definition put_backup_meta (user_id : string) (version : N) (meta : BackupVersionMeta) :
    app () :=
  ctx_put T_BACKUP_VERSION (backup_version_key user_id version) (enc meta).

(** The fields [backup_key_wins] compares: verified, first message index,
    forwarded count; an unreadable key has the defaults. *)
Definition backup_int (v : jvalue jnum) (key : string) : Z :=
  default 0%Z (x ← vget key v;
    match x with
    | VNum n => match jnum_i64 n with Some z => Some z | None => jnum_f64_i64 n end
    | _ => None
    end).

Definition backup_fields (b : bytes) : bool * Z * Z :=
  let v := default VNull (from_slice b) in
  (match vget "is_verified" v with Some (VBool x) => x | _ => false end,
   backup_int v "first_message_index", backup_int v "forwarded_count").

Definition backup_key_wins (new old : bytes) : bool :=
  let '(new_verified, new_index, new_forwarded) := backup_fields new in
  let '(old_verified, old_index, old_forwarded) := backup_fields old in
  if negb (Bool.eqb new_verified old_verified) then new_verified
  else if negb (new_index =? old_index)%Z then (new_index <? old_index)%Z
  else (new_forwarded <? old_forwarded)%Z.

(** [range(..).last()], its version bytes, or 0. *)
Definition last_version (start : bytes) (rows : list (bytes * bytes)) : N :=
  default 0%N ('(k, _) ← list.last rows; from_be64 (str_drop (String.length start) k)).

Definition create_backup_version (user_id algorithm : string) (auth_data : bytes) :
    app UserResponse :=
  let start := user_key user_id EmptyString in
  rows ← ctx_range T_BACKUP_VERSION start (user_end user_id);
  let version := add64 (last_version start rows) 1 in
  put_backup_meta user_id version
    {| bv_algorithm := algorithm; bv_auth_data := auth_data; bv_count := 0; bv_etag := 0;
       bv_deleted := false |};;
  mret (BackupVersion version).

Definition with_backup (user_id : string) (version : N)
    (k : BackupVersionMeta → app UserResponse) : app UserResponse :=
  m ← backup_meta user_id version;
  match m with Some m => k m | None => mret NotFound end.

Definition bv_set_counts (m : BackupVersionMeta) (count etag : N) : BackupVersionMeta := {|
  bv_algorithm := bv_algorithm m; bv_auth_data := bv_auth_data m; bv_count := count;
  bv_etag := etag; bv_deleted := bv_deleted m |}.

Definition update_backup_version (user_id : string) (version : N) (algorithm : string)
    (auth_data : bytes) : app UserResponse :=
  with_backup user_id version (λ m,
    put_backup_meta user_id version
      {| bv_algorithm := algorithm; bv_auth_data := auth_data; bv_count := bv_count m;
         bv_etag := bv_etag m; bv_deleted := bv_deleted m |};;
    mret UOk).

Definition delete_backup_version (user_id : string) (version : N) : app UserResponse :=
  with_backup user_id version (λ m,
    delete_prefix T_BACKUP_KEY (backup_key_prefix user_id version None None);;
    put_backup_meta user_id version
      {| bv_algorithm := bv_algorithm m; bv_auth_data := bv_auth_data m; bv_count := 0;
         bv_etag := bv_etag m; bv_deleted := true |};;
    mret UOk).

(** One key of [PutBackupKeys]; the loop carries the count and whether
    anything was written. *)
Definition put_backup_key (user_id : string) (version : N) (st : N * bool)
    (k : string * string * bytes) : app (N * bool) :=
  let '(room_id, session_id, json) := k in
  let '(count, changed) := st in
  let key := backup_key_prefix user_id version (Some room_id) (Some session_id) in
  o ← ctx_get T_BACKUP_KEY key;
  let '(count', replace) := match o with
                            | None => (add64 count 1, true)
                            | Some old => (count, backup_key_wins json old)
                            end in
  if replace then ctx_put T_BACKUP_KEY key json;; mret (count', true)
  else mret (count', changed).

Definition put_backup_keys (user_id : string) (version : N)
    (keys : list (string * string * bytes)) : app UserResponse :=
  with_backup user_id version (λ m,
    st ← app_fold (put_backup_key user_id version) (bv_count m, false) keys;
    let '(count, changed) := (st : N * bool) in
    if changed then
      let etag := add64 (bv_etag m) 1 in
      put_backup_meta user_id version (bv_set_counts m count etag);;
      mret (BackupStatus count etag)
    else mret (BackupStatus count (bv_etag m))).

Definition delete_backup_keys (user_id : string) (version : N)
    (room_id session_id : option string) : app UserResponse :=
  with_backup user_id version (λ m,
    removed ←
      (if is_some session_id then
         let key := backup_key_prefix user_id version room_id session_id in
         o ← ctx_get T_BACKUP_KEY key;
         if is_some o then ctx_delete T_BACKUP_KEY key;; mret 1%N else mret 0%N
       else delete_prefix T_BACKUP_KEY (backup_key_prefix user_id version room_id None));
    if (0 <? removed)%N then
      let count := saturating_sub64 (bv_count m) removed in
      let etag := add64 (bv_etag m) 1 in
      put_backup_meta user_id version (bv_set_counts m count etag);;
      mret (BackupStatus count etag)
    else mret (BackupStatus (bv_count m) (bv_etag m))).

(** ** Pushers: one per (app id, push key) across the user's devices. *)

Definition pusher_suffix (app_id pushkey : string) : bytes :=
  String b0 (app_id +:+ String b0 pushkey).

Definition pusher_key (user_id device_id app_id pushkey : string) : bytes :=
  device_scoped_key user_id device_id app_id +:+ String b0 pushkey.

Definition set_pusher (user_id device_id app_id pushkey : string) (json : option bytes) :
    app UserResponse :=
  rows ← ctx_range T_PUSHER (user_key user_id EmptyString) (user_end user_id);
  app_iter (λ '(k, _),
    if ends_with (pusher_suffix app_id pushkey) k then ctx_delete T_PUSHER k
    else mret ()) rows;;
  match json with
  | Some j => ctx_put T_PUSHER (pusher_key user_id device_id app_id pushkey) j
  | None => mret ()
  end;;
  mret UOk.
End Machine.
