(* ===== verification/UserApply.v ===== *)
(** * The user keyspace: credentials, lifecycle, tokens, rooms

    The fourth part of [apply_command] (saltator-userserver/src/machine.rs):
    passwords, account lifecycle, interactive auth, registration and login
    tokens, external identities, aliases, the directory and room blocks. *)

From Stdlib Require Import Ascii.
From S2P Require Import Prelude Bytes Store Codec Shard Json UserTypes UserMachine UserKeys.
From S2P Require Import UserQueues.
From stdpp Require Import options.

Set Warnings "-register-all".

Section Machine.
Context `{UC : UserCodecs}.

(** ** Passwords and lifecycle *)

Definition change_password (user_id password_hash : string) (logout_others : bool)
    (keep_device : string) : app UserResponse :=
  with_account user_id (λ a,
    put_account user_id (acct_set_password a (Some password_hash));;
    (if logout_others then logout_devices user_id (Some keep_device) else mret ());;
    mret UOk).

Definition set_locked (user_id : string) (locked : bool) : app UserResponse :=
  with_account user_id (λ a,
    if bool_decide (ac_state a = Deactivated) then mret InvalidState
    else
      let state := if locked then Locked else Active in
      put_account user_id (acct_set_state a state);;
      restamp_tokens user_id state;;
      mret UOk).

Definition set_admin (user_id : string) (admin : bool) : app UserResponse :=
  with_account user_id (λ a,
    put_account user_id (acct_set_admin a admin);;
    mret UOk).

Definition admin_set_password (user_id password_hash : string) (logout : bool) :
    app UserResponse :=
  with_account user_id (λ a,
    if bool_decide (ac_state a = Deactivated) then mret InvalidState
    else
      put_account user_id (acct_set_password a (Some password_hash));;
      (if logout then logout_devices user_id None else mret ());;
      mret UOk).

Definition set_erased (user_id : string) : app UserResponse :=
  with_account user_id (λ a,
    if negb (bool_decide (ac_state a = Deactivated)) then mret InvalidState
    else
      put_account user_id (acct_set_erased a);;
      ctx_delete T_PROFILE user_id;;
      mret UOk).

(** ** Interactive auth *)

Definition put_uia_session (session_id : string) (s : UiaSession) : app () :=
  ctx_put T_UIA_SESSION session_id (enc s).

Definition complete_uia_stage (session_id : string) (request_hash : hash) (stage : string)
    (registration_token : option string) (now_ts expire_before_ts : N) : app UserResponse :=
  sweep_uia_sessions expire_before_ts;;
  existing ← get_typed (A := UiaSession) "uia session decode" T_UIA_SESSION session_id;
  o ← match existing with
      | Some s =>
          mret (if bool_decide (ui_request_hash s = request_hash) then Some s else None)
      | None =>
          ctx_put T_UIA_SESSION_IDX (uia_idx_key now_ts session_id) EmptyString;;
          mret (Some {| ui_request_hash := request_hash; ui_completed := [];
                        ui_registration_token := None; ui_created_ts := now_ts |})
      end;
  match o with
  | None => mret UiaRequestMismatch
  | Some s =>
      let completed := if existsb (λ x, bool_decide (x = stage)) (ui_completed s)
                       then ui_completed s else ui_completed s ++ [stage] in
      let token := match registration_token with
                   | Some t => Some t
                   | None => ui_registration_token s
                   end in
      put_uia_session session_id
        {| ui_request_hash := ui_request_hash s; ui_completed := completed;
           ui_registration_token := token; ui_created_ts := ui_created_ts s |};;
      mret (UiaCompleted completed token)
  end.

(** ** Registration tokens *)

Definition create_registration_token (token : string) (uses_allowed expiry_ts : option N)
    (ts : N) : app UserResponse :=
  o ← ctx_get T_REG_TOKEN token;
  if is_some o then mret TokenExists
  else
    ctx_put T_REG_TOKEN token
      (enc {| rt_uses_allowed := uses_allowed; rt_used := 0; rt_expiry_ts := expiry_ts;
              rt_created_ts := ts |});;
    mret UOk.

(** [if ctx.get(table, key)?.is_none() { return NotFound } ctx.delete(..)] *)
Definition delete_existing (table : N) (k : bytes) : app UserResponse :=
  o ← ctx_get table k;
  if is_some o then ctx_delete table k;; mret UOk else mret NotFound.

Definition delete_registration_token (token : string) : app UserResponse :=
  delete_existing T_REG_TOKEN token.

(** ** External identities *)

Definition get_string (what : string) (table : N) (k : bytes) : app (option string) :=
  get_typed (A := string) what table k.

Definition link_external_id (user_id auth_provider external_id : string) :
    app UserResponse :=
  with_account user_id (λ a,
    if bool_decide (ac_state a = Deactivated) then mret InvalidState
    else
      let fwd := external_key auth_provider external_id in
      owner ← get_string "external id owner decode" T_EXTERNAL_ID fwd;
      match (o ← owner; if bool_decide (o = user_id) then None else Some o) with
      | Some owner => mret (ExternalIdInUse owner)
      | None =>
          let rev := user_key user_id auth_provider in
          prev ← get_string "external id decode" T_EXTERNAL_ID_USER rev;
          match prev with
          | Some p =>
              if bool_decide (p = external_id) then mret ()
              else ctx_delete T_EXTERNAL_ID (external_key auth_provider p)
          | None => mret ()
          end;;
          ctx_put T_EXTERNAL_ID fwd (enc (A := string) user_id);;
          ctx_put T_EXTERNAL_ID_USER rev (enc (A := string) external_id);;
          mret UOk
      end).

Definition unlink_external_id (user_id auth_provider : string) : app UserResponse :=
  let rev := user_key user_id auth_provider in
  o ← get_string "external id decode" T_EXTERNAL_ID_USER rev;
  match o with
  | None => mret NotFound
  | Some external_id =>
      ctx_delete T_EXTERNAL_ID (external_key auth_provider external_id);;
      ctx_delete T_EXTERNAL_ID_USER rev;;
      mret UOk
  end.

(** ** Login tokens *)

(** The sweep collects the stale keys, then deletes them. *)
Definition stale_login_tokens (now_ts : N) : app (list bytes) :=
  rows ← ctx_range T_LOGIN_TOKEN EmptyString EmptyString;
  app_fold (λ stale '(k, v),
    e ← lift (dec_or (A := LoginTokenEntry) "login token decode" v);
    mret (if (lt_expires_ts e <=? now_ts)%N then stale ++ [k] else stale)) [] rows.

Definition create_login_token (token_hash : hash) (user_id : string)
    (expires_ts now_ts : N) : app UserResponse :=
  stale ← stale_login_tokens now_ts;
  app_iter (ctx_delete T_LOGIN_TOKEN) stale;;
  with_account user_id (λ a,
    if negb (can_authenticate (ac_state a)) then mret InvalidState
    else
      ctx_put T_LOGIN_TOKEN token_hash
        (enc {| lt_user_id := user_id; lt_expires_ts := expires_ts |});;
      mret UOk).

Definition consume_login_token (token_hash : hash) (now_ts : N) : app UserResponse :=
  raw ← ctx_get T_LOGIN_TOKEN token_hash;
  match raw with
  | None => mret InvalidGrant
  | Some raw =>
      ctx_delete T_LOGIN_TOKEN token_hash;;
      e ← lift (dec_or (A := LoginTokenEntry) "login token decode" raw);
      if (lt_expires_ts e <=? now_ts)%N then mret InvalidGrant
      else
        a ← get_account (lt_user_id e);
        if match a with Some a => can_authenticate (ac_state a) | None => false end
        then mret (LoginTokenOwner (lt_user_id e))
        else mret InvalidGrant
  end.

(** ** Aliases, the directory, media, rooms *)

Definition create_alias (alias room_id creator : string) : app UserResponse :=
  o ← ctx_get T_ALIAS alias;
  if is_some o then mret AliasExists
  else
    ctx_put T_ALIAS alias (enc {| al_room_id := room_id; al_creator := creator |});;
    mret UOk.

Definition delete_alias (alias : string) : app UserResponse :=
  delete_existing T_ALIAS alias.

Definition set_room_visibility (room_id : string) (public : bool) : app UserResponse :=
  (if public then ctx_put T_DIRECTORY room_id (str1 b1) else ctx_delete T_DIRECTORY room_id);;
  mret UOk.

Definition set_room_blocked (room_id : string) (blocked : bool) (by_admin : string)
    (ts : N) : app UserResponse :=
  (if blocked
   then ctx_put T_ROOM_BLOCKED room_id (enc {| br_by := by_admin; br_ts := ts |})
   else ctx_delete T_ROOM_BLOCKED room_id);;
  mret UOk.

Definition put_media (media_id : string) (m : MediaMeta) : app UserResponse :=
  ctx_put T_MEDIA media_id (enc m);; mret UOk.

Definition put_filter (user_id filter_id : string) (json : bytes) : app UserResponse :=
  ctx_put T_FILTER (user_key user_id filter_id) json;; mret UOk.

Definition set_notices_room (user_id room_id : string) : app UserResponse :=
  ctx_put T_NOTICES_ROOM user_id (enc (A := string) room_id);; mret UOk.
End Machine.

(** * The user keyspace state machine: dispatch

    [apply_command] and [impl ShardApp for UserApp]
    (saltator-userserver/src/machine.rs). *)

Section Machine.
Context `{UC : UserCodecs, SJ : SerdeJson, UL : Utf8Lossy}.

Definition then_ok (m : app ()) : app UserResponse := m;; mret UOk.

Definition user_command (cmd : UserCommand) : app UserResponse :=
  match cmd with
  | Register user_id password_hash ts session =>
      apply_register user_id password_hash ts session None
  | CreateSession s => create_session s
  | RefreshSession old s => refresh_session old s
  | DeleteDevice user_id device_id => delete_one_device user_id device_id
  | DeleteAllDevices user_id => then_ok (logout_devices user_id None)
  | SetDeviceName user_id device_id name => set_device_name user_id device_id name
  | UpsertDevice user_id device_id name ts => upsert_device user_id device_id name ts
  | SetProfile user_id displayname avatar_url => set_profile user_id displayname avatar_url
  | PutAccountData user_id room_id data_type json =>
      put_account_data user_id room_id data_type json
  | PutFilter user_id filter_id json => put_filter user_id filter_id json
  | ApplyRoomChanges source upto_seq changes => apply_room_changes source upto_seq changes
  | CreateAlias alias room_id creator => create_alias alias room_id creator
  | DeleteAlias alias => delete_alias alias
  | PutMedia media_id m => put_media media_id m
  | SetRoomVisibility room_id public => set_room_visibility room_id public
  | RecordRemoteInvite user_id room_id sender event_id stripped =>
      record_remote "invite" user_id room_id sender event_id stripped
  | RecordRemoteKnock user_id room_id sender event_id stripped =>
      record_remote "knock" user_id room_id sender event_id stripped
  | RecordRemoteLeave user_id room_id => record_remote_leave user_id room_id
  | ForgetRoom user_id room_id => forget_room user_id room_id
  | UploadKeys user_id device_id device_keys otks fallbacks =>
      upload_keys user_id device_id device_keys otks fallbacks
  | ClaimKeys claims => claim_keys claims
  | SetCrossSigningKeys user_id master self_signing user_signing =>
      set_cross_signing_keys user_id master self_signing user_signing
  | AddSignatures user_id targets => add_signatures user_id targets
  | SendToDevice messages => send_to_device messages
  | AckToDevice user_id device_id up_to => ack_to_device user_id device_id up_to
  | RecordKeyChange user_id => then_ok (log_key_change user_id)
  | QueueOutboundEdus entries => queue_outbound_edus entries
  | AckOutboundEdus destination up_to => ack_outbound_edus destination up_to
  | ChangePassword user_id password_hash logout_others keep_device =>
      change_password user_id password_hash logout_others keep_device
  | Deactivate user_id => apply_deactivate user_id
  | SetPusher user_id device_id app_id pushkey json =>
      set_pusher user_id device_id app_id pushkey json
  | CreateBackupVersion user_id algorithm auth_data =>
      create_backup_version user_id algorithm auth_data
  | UpdateBackupVersion user_id version algorithm auth_data =>
      update_backup_version user_id version algorithm auth_data
  | DeleteBackupVersion user_id version => delete_backup_version user_id version
  | PutBackupKeys user_id version keys => put_backup_keys user_id version keys
  | DeleteBackupKeys user_id version room_id session_id =>
      delete_backup_keys user_id version room_id session_id
  | SendToDeviceDeduped origin message_id ts_ms messages =>
      send_to_device_deduped origin message_id ts_ms messages
  | SetLocked user_id locked => set_locked user_id locked
  | SetAdmin user_id admin => set_admin user_id admin
  | AdminSetPassword user_id password_hash logout =>
      admin_set_password user_id password_hash logout
  | SetErased user_id => set_erased user_id
  | CompleteUiaStage session_id request_hash stage token now_ts expire_before_ts =>
      complete_uia_stage session_id request_hash stage token now_ts expire_before_ts
  | RegisterWithToken user_id password_hash ts session token =>
      apply_register user_id password_hash ts session token
  | CreateRegistrationToken token uses_allowed expiry_ts ts =>
      create_registration_token token uses_allowed expiry_ts ts
  | DeleteRegistrationToken token => delete_registration_token token
  | LinkExternalId user_id auth_provider external_id =>
      link_external_id user_id auth_provider external_id
  | UnlinkExternalId user_id auth_provider => unlink_external_id user_id auth_provider
  | SetNoticesRoom user_id room_id => set_notices_room user_id room_id
  | SetRoomBlocked room_id blocked by_admin ts =>
      set_room_blocked room_id blocked by_admin ts
  | CreateLoginToken token_hash user_id expires_ts now_ts =>
      create_login_token token_hash user_id expires_ts now_ts
  | ConsumeLoginToken token_hash now_ts => consume_login_token token_hash now_ts
  | MarkTxn user_id device_id scope txn_id ts => mark_txn user_id device_id scope txn_id ts
  end.

Definition user_apply (command : bytes) : app bytes :=
  cmd ← lift (dec_or (A := UserCommand) "user command decode" command);
  resp ← user_command cmd;
  mret (enc resp).

(** [UserApp] leaves [replay] at the trait's default, which refuses. *)
Definition UserApp : ShardApp := {|
  app_schema_version := SCHEMA_VERSION;
  app_apply := user_apply;
  app_migrate := user_migrate;
  app_replay := λ _ _ _, Err (Engine "this shard app does not support change replay");
|}.
End Machine.
