(* ===== verification/UserLog.v ===== *)
(** * Which tables each user command writes

    [touches P m]: a run of [m] leaves every cell outside the tables [P]
    as it was.  One table of the write sets of all commands, checked once,
    is what every invariant of the user keyspace starts from: a command
    that does not write a table keeps any invariant of that table. *)

From Stdlib Require Import Ascii.
From S2P Require Import Prelude Bytes Store Codec Shard ShardFacts Track Json UserTypes.
From S2P Require Import UserMachine UserKeys UserQueues UserApply.
From stdpp Require Import options.

Set Warnings "-register-all".

Lemma user_key_inj a x a' x' :
  nul_free a = true → nul_free a' = true →
  user_key a x = user_key a' x' ↔ a = a' ∧ x = x'.
Proof. intros Ha Ha'. split; [by apply nul_split_inj|by intros [-> ->]]. Qed.

(** ** Write sets *)

Definition same_outside (P : N → Prop) (env : ApplyEnv) (c c' : ApplyState) : Prop :=
  ∀ t k, (t < 256)%N → ¬ P t → tget env c' t k = tget env c t k.

Definition touches (P : N → Prop) {A} (m : app A) : Prop :=
  ∀ env c, wp m env (λ _ c', same_outside P env c c') c.

Section Touches.
Context (P : N → Prop).

Lemma touches_ret {A} (a : A) : touches P (mret a).
Proof. intros env c. by apply wp_ret. Qed.

Lemma touches_fail {A} e : touches P (fail (A := A) e).
Proof. by intros env c. Qed.

Lemma touches_lift {A} (r : result store_error A) : touches P (lift r).
Proof. intros env c. by apply wp_lift. Qed.

Lemma touches_get t k : touches P (ctx_get t k).
Proof. by intros env c. Qed.

Lemma touches_range t s e : touches P (ctx_range t s e).
Proof. by intros env c. Qed.

Lemma touches_get_typed {A} `{!Codec A} what t k : touches P (get_typed (A := A) what t k).
Proof. intros env c. by apply wp_get_typed. Qed.

Lemma touches_emit p : touches P (ctx_emit p).
Proof. by intros env c. Qed.

Lemma touches_put t k v : (t < 256)%N → P t → touches P (ctx_put t k v).
Proof.
  intros Ht HP env c t' k' Ht' Hn. apply tget_put_other; [done..|]. by intros ->.
Qed.

Lemma touches_delete t k : (t < 256)%N → P t → touches P (ctx_delete t k).
Proof.
  intros Ht HP env c t' k' Ht' Hn. apply tget_delete_other; [done..|]. by intros ->.
Qed.

Lemma touches_bind {A B} (m : app A) (f : A → app B) :
  touches P m → (∀ a, touches P (f a)) → touches P (m ≫= f).
Proof.
  intros Hm Hf env c. apply wp_bind. eapply wp_mono; [|apply Hm].
  intros a c1 H1. eapply wp_mono; [|apply Hf]. intros b c2 H2 t k Ht Hn.
  by rewrite H2, H1.
Qed.

Lemma touches_fold {A B} (f : B → A → app B) l b :
  (∀ b a, touches P (f b a)) → touches P (app_fold f b l).
Proof.
  intros Hf. revert b. induction l as [|a l IH]; intros b; [apply touches_ret|].
  by apply touches_bind.
Qed.

Lemma touches_iter {A} (f : A → app ()) l : (∀ a, touches P (f a)) → touches P (app_iter f l).
Proof. intros Hf. by apply touches_fold. Qed.

(** Invariants of cells outside the write set are kept. *)
Lemma touches_keeps {A} (m : app A) (I : ApplyEnv → ApplyState → Prop) :
  touches P m →
  (∀ env c c', same_outside P env c c' → I env c → I env c') → keeps I m.
Proof. intros Hm HI env c H. eapply wp_mono; [|apply Hm]. intros a c' Hc. by apply (HI env c). Qed.
End Touches.

Lemma touches_mono (P Q : N → Prop) {A} (m : app A) :
  (∀ t, P t → Q t) → touches P m → touches Q m.
Proof.
  intros HPQ Hm env c. eapply wp_mono; [|apply Hm]. intros a c' H t k Ht Hn. apply H; auto.
Qed.

(** Membership of a table id in a list of table ids, by evaluation. *)
Ltac list_member :=
  apply (bool_decide_unpack _); vm_compute; exact I.

Create HintDb touches.
#[export] Hint Resolve touches_ret touches_fail touches_lift touches_get touches_range
  touches_get_typed touches_emit : touches.
#[export] Hint Extern 2 (touches _ (ctx_put _ _ _)) =>
  (apply touches_put; [done | list_member]) : touches.
#[export] Hint Extern 2 (touches _ (ctx_delete _ _)) =>
  (apply touches_delete; [done | list_member]) : touches.

Ltac solve_touches :=
  repeat first
    [ progress intros
    | solve [auto 2 with touches nocore]
    | apply touches_bind
    | apply touches_iter
    | apply touches_fold
    | match goal with
      | |- touches _ (match ?x with _ => _ end) => destruct x
      | |- touches _ (let '_ := ?x in _) => destruct x
      end ].

(** The tables of sessions: what a device and its tokens own. *)
Definition device_tables : list N :=
  [T_TOKEN; T_DEVICE; T_DEVICE_KEYS; T_ONE_TIME_KEY; T_TO_DEVICE; T_PUSHER; T_FALLBACK_KEY].

Definition command_writes (cmd : UserCommand) : list N :=
  match cmd with
  | Register _ _ _ _ | RegisterWithToken _ _ _ _ _ =>
      [T_REG_TOKEN; T_ACCOUNT; T_USERNAME; T_DEVICE; T_TOKEN]
  | CreateSession _ | RefreshSession _ _ => [T_DEVICE; T_TOKEN]
  | DeleteDevice _ _ | DeleteAllDevices _ => T_KEY_CHANGE :: device_tables
  | SetDeviceName _ _ _ | UpsertDevice _ _ _ _ => [T_DEVICE; T_KEY_CHANGE]
  | SetProfile _ _ _ => [T_PROFILE]
  | PutAccountData _ _ _ _ => [T_ACCOUNT_DATA]
  | PutFilter _ _ _ => [T_FILTER]
  | ApplyRoomChanges _ _ _ => [T_KEY_CHANGE; T_MEMBERSHIP; T_CURSOR]
  | CreateAlias _ _ _ | DeleteAlias _ => [T_ALIAS]
  | PutMedia _ _ => [T_MEDIA]
  | SetRoomVisibility _ _ => [T_DIRECTORY]
  | RecordRemoteInvite _ _ _ _ _ | RecordRemoteKnock _ _ _ _ _ =>
      [T_MEMBERSHIP; T_INVITE_STATE]
  | RecordRemoteLeave _ _ => [T_KEY_CHANGE; T_MEMBERSHIP; T_INVITE_STATE]
  | ForgetRoom _ _ => [T_MEMBERSHIP]
  | UploadKeys _ _ _ _ _ => [T_DEVICE_KEYS; T_KEY_CHANGE; T_ONE_TIME_KEY; T_FALLBACK_KEY]
  | ClaimKeys _ => [T_ONE_TIME_KEY; T_FALLBACK_KEY]
  | SetCrossSigningKeys _ _ _ _ => [T_CROSS_SIGNING; T_KEY_CHANGE]
  | AddSignatures _ _ => [T_DEVICE_KEYS; T_CROSS_SIGNING; T_KEY_CHANGE]
  | SendToDevice _ | AckToDevice _ _ _ => [T_TO_DEVICE]
  | RecordKeyChange _ => [T_KEY_CHANGE]
  | QueueOutboundEdus _ | AckOutboundEdus _ _ => [T_EDU_OUTBOX]
  | ChangePassword _ _ _ _ | AdminSetPassword _ _ _ | Deactivate _ =>
      T_ACCOUNT :: T_KEY_CHANGE :: device_tables
  | SetPusher _ _ _ _ _ => [T_PUSHER]
  | CreateBackupVersion _ _ _ | UpdateBackupVersion _ _ _ _ => [T_BACKUP_VERSION]
  | DeleteBackupVersion _ _ | PutBackupKeys _ _ _ | DeleteBackupKeys _ _ _ _ =>
      [T_BACKUP_VERSION; T_BACKUP_KEY]
  | SendToDeviceDeduped _ _ _ _ => [T_TO_DEVICE_SEEN; T_TO_DEVICE_SEEN_IDX; T_TO_DEVICE]
  | SetLocked _ _ => [T_ACCOUNT; T_TOKEN]
  | SetAdmin _ _ => [T_ACCOUNT]
  | SetErased _ => [T_ACCOUNT; T_PROFILE]
  | CompleteUiaStage _ _ _ _ _ _ => [T_UIA_SESSION; T_UIA_SESSION_IDX]
  | CreateRegistrationToken _ _ _ _ | DeleteRegistrationToken _ => [T_REG_TOKEN]
  | LinkExternalId _ _ _ | UnlinkExternalId _ _ => [T_EXTERNAL_ID; T_EXTERNAL_ID_USER]
  | SetNoticesRoom _ _ => [T_NOTICES_ROOM]
  | SetRoomBlocked _ _ _ _ => [T_ROOM_BLOCKED]
  | CreateLoginToken _ _ _ _ | ConsumeLoginToken _ _ => [T_LOGIN_TOKEN]
  | MarkTxn _ _ _ _ _ => [T_TXN_SEEN; T_TXN_SEEN_IDX]
  end.

Section Writes.
Context `{UC : UserCodecs, SJ : SerdeJson, UL : Utf8Lossy}.

(** The shared steps, unfolded down to puts and deletes. *)
Ltac unfold_steps :=
  unfold then_ok, with_account, logout_devices, delete_devices_except, delete_device,
    write_session, restamp_tokens, restamp_token, with_backup, backup_meta, put_backup_meta,
    queue_to_device, queue_message, recipient_devices, account_state, get_account,
    log_key_change, emit_user_change, put_key_change, user_devices, delete_hash, delete_prefix,
    get_device, put_account, get_membership, put_device, delete_existing, get_string,
    delete_range_of, prune_seen, put_uia_session, sweep_uia_sessions.

Lemma touches_log user_id (P : N → Prop) : P T_KEY_CHANGE → touches P (log_key_change user_id).
Proof.
  intros HP. unfold_steps. solve_touches. by apply touches_put.
Qed.

Lemma touches_cross user_id target patch kinds :
  touches (λ t, t ∈ [T_DEVICE_KEYS; T_CROSS_SIGNING; T_KEY_CHANGE])
    (sign_cross_key user_id target patch kinds).
Proof. induction kinds as [|kind kinds IH]; simpl; solve_touches; done. Qed.

Hint Resolve touches_cross : touches.

Lemma command_touches cmd : touches (λ t, t ∈ command_writes cmd) (user_command cmd).
Proof.
  destruct cmd; cbn [user_command command_writes];
    unfold apply_register, create_session, refresh_session, delete_one_device, set_device_name,
      upsert_device, set_profile, put_account_data, put_filter, apply_room_changes, room_change,
      create_alias, delete_alias, put_media, set_room_visibility, record_remote,
      record_remote_leave, forget_room, upload_keys, device_otks, upload_otk, upload_fallback,
      claim_keys, claim_key, claim_fallback, set_cross_signing_keys, add_signatures,
      sign_target, send_to_device, ack_to_device, queue_outbound_edus, ack_outbound_edus,
      change_password, apply_deactivate, set_pusher, create_backup_version,
      update_backup_version, delete_backup_version, put_backup_keys, put_backup_key,
      delete_backup_keys, send_to_device_deduped, set_locked, set_admin, admin_set_password,
      set_erased, complete_uia_stage, create_registration_token, delete_registration_token,
      link_external_id, unlink_external_id, set_notices_room, set_room_blocked,
      create_login_token, stale_login_tokens, consume_login_token, mark_txn;
    unfold_steps; unfold app_iter; cbn [app_fold]; solve_touches.
Qed.
End Writes.

(** * Runs of the user keyspace

    [user_log]: the states the shard reaches by applying batches of
    committed commands, with the trace of commands and responses.  Rule
    induction over it lifts a fact about single commands to whole logs,
    whatever the grouping of entries into batches ([user_log_any]), or for
    logs applied one entry at a time ([user_log_single]). *)

Section Log.
Context `{UC : UserCodecs, SJ : SerdeJson, UL : Utf8Lossy}.
Context `{HR : Raft}.
Context `{!Codec (option LogId), !Codec StoredMembership, !Codec N}.
Context `{!Codec RuntimeCommand, !Codec RuntimeResponse}.
Context (sid : ShardId).

(** An entry that is not a runtime command (a schema migration). *)
Definition user_entry (en : Entry) : Prop :=
  match payload en with Normal (String c _) => c ≠ RUNTIME_CMD_PREFIX | _ => True end.

Definition outcome (en : Entry) (r : bytes) : list (UserCommand * UserResponse) :=
  match payload en with
  | Normal bs =>
      match dec (A := UserCommand) bs, dec (A := UserResponse) r with
      | Some cmd, Some resp => [(cmd, resp)]
      | _, _ => []
      end
  | _ => []
  end.

Definition outcomes (l : list Entry) (rs : list bytes) : list (UserCommand * UserResponse) :=
  concat (zip_with outcome l rs).

(** The states reached from [e0] by batches that satisfy [P]. *)
Inductive user_log (P : list Entry → Prop) (e0 : engine) :
    list (UserCommand * UserResponse) → engine → Prop :=
| user_log_nil : user_log P e0 [] e0
| user_log_batch tr e l e' rs pub :
    user_log P e0 tr e →
    P l → Forall user_entry l →
    sm_apply sid UserApp l e = Ok (e', rs, pub) →
    user_log P e0 (tr ++ outcomes l rs) e'.

(** A condition on the command an entry carries. *)
Definition entry_ok (ok : UserCommand → Prop) (en : Entry) : Prop :=
  match payload en with
  | Normal bs => ∀ cmd, dec (A := UserCommand) bs = Some cmd → ok cmd
  | _ => True
  end.

Lemma entry_ok_any en : entry_ok (λ _, True) en.
Proof. unfold entry_ok. by destruct (payload en). Qed.

(** Every single command that is [ok] keeps [J], under the trace it
    extends. *)
Definition log_step (ok : UserCommand → Prop) (sync : ApplyEnv → ApplyState → Prop)
    (J : list (UserCommand * UserResponse) → cells → Prop) : Prop :=
  ∀ tr cmd env c, ok cmd → shard env = sid → sync env c → J tr (tget env c) →
    wp (user_command cmd) env (λ r c', J (tr ++ [(cmd, r)]) (tget env c')) c.

Section Lift.
Context (J : list (UserCommand * UserResponse) → cells → Prop).
Context (Jext : ∀ tr f g, cells_equiv f g → J tr f → J tr g).

Lemma entry_step ok sync en tr env c :
  log_step ok sync J → user_entry en → entry_ok ok en → shard env = sid → sync env c → J tr (tget env c) →
  wp (apply_entry sid UserApp en) env
    (λ r c', J (tr ++ outcome en r) (tget env c')) c.
Proof using Type*.
  intros Hstep Hen Hok Hs Hsync HJ. unfold apply_entry, user_entry, entry_ok, outcome in *.
  destruct (payload en) as [|bs|m]; [by apply wp_ret; rewrite app_nil_r| |].
  - assert (wp (user_apply bs) env (λ r c', J (tr ++ match dec (A := UserCommand) bs,
      dec (A := UserResponse) r with Some cmd, Some resp => [(cmd, resp)] | _, _ => [] end)
      (tget env c')) c) as Hu.
    { unfold user_apply. wp_step. apply wp_lift. intros cmd Hd. unfold dec_or in Hd.
      destruct (dec bs) as [cmd'|] eqn:Hb; [|done]. injection Hd as ->. wp_step.
      eapply wp_mono; [|by apply Hstep; [apply Hok|..]]. intros r c' Hr. wp_step. by rewrite dec_enc. }
    destruct bs as [|ch rest]; [done|]. by rewrite bool_decide_false by done.
  - unfold wp; simpl. rewrite app_nil_r. eapply Jext; [|done].
    intros t k Ht. unfold tget. symmetry. rewrite view_put. rewrite decide_False; [done|].
    unfold sm_meta_key. rewrite Hs. intros Hk%ctx_key_inj; [|done|lia].
    destruct Hk as [Hk _]. unfold T_SM_META in Hk. lia.
Qed.

Lemma entries_step ok l tr rs0 env c :
  log_step ok (λ _ _, True) J → Forall user_entry l → Forall (entry_ok ok) l → shard env = sid → J tr (tget env c) →
  wp (app_fold (λ rs e, r ← apply_entry sid UserApp e; mret (rs ++ [r])) rs0 l) env
    (λ rs c', ∃ rs', rs = rs0 ++ rs' ∧ J (tr ++ outcomes l rs') (tget env c')) c.
Proof using Type*.
  intros Hstep Hl Hok Hs. revert Hok tr rs0 c.
  induction Hl as [|en l Hen Hl IH]; intros Hok tr rs0 c HJ.
  { apply wp_ret. exists []. by rewrite !app_nil_r. }
  apply list.Forall_cons in Hok as [Hen' Hok]. simpl. wp_step. wp_step.
  eapply wp_mono; [|by apply (entry_step ok (λ _ _, True))].
  intros r c1 H1. wp_step. eapply wp_mono; [|apply (IH Hok _ _ _ H1)].
  intros rs c2 (rs' & -> & H2). exists (r :: rs'). split; [by rewrite <- app_assoc|].
  unfold outcomes in *. simpl. by rewrite app_assoc.
Qed.

Lemma user_log_any ok P e0 tr e :
  log_step ok (λ _ _, True) J → (∀ l, P l → Forall (entry_ok ok) l) →
  J [] (eget sid e0) → user_log P e0 tr e → J tr (eget sid e).
Proof using Type*.
  intros Hstep Hok H0 Hlog. induction Hlog as [|tr e l e' rs pub Hlog IH HP Hl Hs]; [done|].
  apply (sm_apply_inv sid UserApp) in Hs as (n & c & _ & _ & Hr & _ & Heq). apply (Jext _ _ _ Heq).
  pose proof (entries_step ok l tr [] (apply_env sid e) (apply_init n) Hstep Hl (Hok _ HP)
    eq_refl IH) as Hw.
  unfold wp in Hw. unfold apply_entries in Hr. rewrite Hr in Hw. by destruct Hw as (rs' & -> & ?).
Qed.

(** One entry per batch: each command starts on a batch with nothing staged,
    so its range reads see what its point reads see. *)
Lemma user_log_single ok P e0 tr e :
  log_step ok (λ _ c, wb c = []) J →
  (∀ l, P l → length l ≤ 1 ∧ Forall (entry_ok ok) l) →
  J [] (eget sid e0) → user_log P e0 tr e → J tr (eget sid e).
Proof using Type*.
  intros Hstep Hok H0 Hlog. induction Hlog as [|tr e l e' rs pub Hlog IH HP Hl Hs]; [done|].
  apply (sm_apply_inv sid UserApp) in Hs as (n & c & _ & _ & Hr & _ & Heq). apply (Jext _ _ _ Heq).
  apply Hok in HP as [HP Hoks]. destruct l as [|en [|? ?]]; [|clear HP|simpl in HP; lia].
  - unfold apply_entries in Hr. simpl in Hr. injection Hr as <- <-. by rewrite app_nil_r.
  - apply list.Forall_cons in Hl as [Hen _]. apply list.Forall_cons in Hoks as [Hen' _].
    pose proof (entry_step ok (λ _ c, wb c = []) en tr (apply_env sid e) (apply_init n)
      Hstep Hen Hen' eq_refl eq_refl IH) as Hw.
    unfold apply_entries in Hr. simpl in Hr. unfold mbind, app_bind in Hr. unfold wp in Hw.
    destruct (apply_entry _ _ _ _ _) as [[r c1]|]; [|done]. simpl in Hr.
    injection Hr as <- <-. unfold outcomes. simpl. by rewrite app_nil_r.
Qed.
Lemma user_log_every P e0 tr e :
  log_step (λ _, True) (λ _ _, True) J →
  J [] (eget sid e0) → user_log P e0 tr e → J tr (eget sid e).
Proof using Type*.
  intros Hstep. apply user_log_any with (ok := λ _, True); [done|].
  intros l _. apply list.Forall_true. intros. apply entry_ok_any.
Qed.
End Lift.
End Log.
