(* ===== verification/UserDemo.v ===== *)
(** * Concrete codecs of the user records, for the witnesses

    Records travel as their fields, commands and responses as the number of
    the constructor and its encoded fields. *)

From Stdlib Require Import Ascii.
From S2P Require Import Prelude Bytes Store Codec Json Shard Demo UserTypes UserMachine UserApply UserLog.
From stdpp Require Import options.
Set Warnings "-register-all".

Definition codec_state : Codec AccountState.
Proof.
  refine (codec_iso (codec_option codec_bool)
    (λ s, match s with Active => None | Locked => Some true | Deactivated => Some false end)
    (λ o, match o with None => Active | Some true => Locked | Some false => Deactivated end) _).
  abstract (by intros []).
Defined.

Definition codec_kind : Codec TokenKind.
Proof.
  refine (codec_iso codec_bool is_refresh (λ b, if b : bool then Refresh else Access) _).
  abstract (by intros []).
Defined.

Definition codec_counts : Codec (gmap string N).
Proof.
  refine (codec_iso (codec_list (codec_pair codec_string codec_nat))
    map_to_list list_to_map _).
  abstract (intros m; apply list_to_map_to_list).
Defined.

Definition put_f {A} (C : Codec A) (a : A) : bytes := enc a.
Definition get_f {A} (C : Codec A) (b : bytes) : option A := dec b.

Lemma get_put {A} (C : Codec A) a B (k : A → option B) :
  (x ← get_f C (put_f C a); k x) = k a.
Proof. unfold get_f, put_f. by rewrite dec_enc. Qed.

#[local] Existing Instance codec_string.
#[local] Existing Instance codec_nat.
#[local] Instance codec_tagged : Codec (N * list bytes) :=
  codec_pair codec_nat (codec_list codec_string).

Definition codec_account : Codec Account.
Proof.
  refine (codec_iso
    (codec_option codec_string :: codec_nat :: codec_state :: codec_bool :: codec_bool)%codec
    (λ r, (ac_password_hash r, (ac_created_ts r, (ac_state r, (ac_admin r, ac_erased r)))))
    (λ '(a, (b, (c, (d, e)))),
      {| ac_password_hash := a; ac_created_ts := b; ac_state := c; ac_admin := d; ac_erased
      := e |}) _).
  abstract (by intros []).
Defined.

Definition codec_account_v2 : Codec AccountV2.
Proof.
  refine (codec_iso
    (codec_option codec_string :: codec_nat :: codec_bool)%codec
    (λ r, (a2_password_hash r, (a2_created_ts r, a2_deactivated r)))
    (λ '(a, (b, c)),
      {| a2_password_hash := a; a2_created_ts := b; a2_deactivated := c |}) _).
  abstract (by intros []).
Defined.

Definition codec_uia : Codec UiaSession.
Proof.
  refine (codec_iso
    (codec_string :: codec_list codec_string :: codec_option codec_string :: codec_nat)%codec
    (λ r, (ui_request_hash r, (ui_completed r, (ui_registration_token r, ui_created_ts r))))
    (λ '(a, (b, (c, d))),
      {| ui_request_hash := a; ui_completed := b; ui_registration_token := c; ui_created_ts
      := d |}) _).
  abstract (by intros []).
Defined.

Definition codec_login_token : Codec LoginTokenEntry.
Proof.
  refine (codec_iso
    (codec_string :: codec_nat)%codec
    (λ r, (lt_user_id r, lt_expires_ts r))
    (λ '(a, b),
      {| lt_user_id := a; lt_expires_ts := b |}) _).
  abstract (by intros []).
Defined.

Definition codec_reg_token : Codec RegToken.
Proof.
  refine (codec_iso
    (codec_option codec_nat :: codec_nat :: codec_option codec_nat :: codec_nat)%codec
    (λ r, (rt_uses_allowed r, (rt_used r, (rt_expiry_ts r, rt_created_ts r))))
    (λ '(a, (b, (c, d))),
      {| rt_uses_allowed := a; rt_used := b; rt_expiry_ts := c; rt_created_ts := d |}) _).
  abstract (by intros []).
Defined.

Definition codec_blocked : Codec BlockedRoom.
Proof.
  refine (codec_iso
    (codec_string :: codec_nat)%codec
    (λ r, (br_by r, br_ts r))
    (λ '(a, b),
      {| br_by := a; br_ts := b |}) _).
  abstract (by intros []).
Defined.

Definition codec_token : Codec TokenEntry.
Proof.
  refine (codec_iso
    (codec_string :: codec_string :: codec_kind :: codec_nat :: codec_option codec_nat ::
      codec_state)%codec
    (λ r, (tk_user_id r, (tk_device_id r, (tk_kind r, (tk_created_ts r, (tk_expires_ts r,
      tk_state r))))))
    (λ '(a, (b, (c, (d, (e, f))))),
      {| tk_user_id := a; tk_device_id := b; tk_kind := c; tk_created_ts := d;
      tk_expires_ts := e; tk_state := f |}) _).
  abstract (by intros []).
Defined.

Definition codec_token_v4 : Codec TokenEntryV4.
Proof.
  refine (codec_iso
    (codec_string :: codec_string :: codec_kind :: codec_nat :: codec_option codec_nat)%codec
    (λ r, (t4_user_id r, (t4_device_id r, (t4_kind r, (t4_created_ts r, t4_expires_ts r)))))
    (λ '(a, (b, (c, (d, e)))),
      {| t4_user_id := a; t4_device_id := b; t4_kind := c; t4_created_ts := d;
      t4_expires_ts := e |}) _).
  abstract (by intros []).
Defined.

Definition codec_device : Codec Device.
Proof.
  refine (codec_iso
    (codec_option codec_string :: codec_nat :: codec_option codec_string :: codec_option
      codec_string)%codec
    (λ r, (dv_display_name r, (dv_created_ts r, (dv_access_token_hash r, dv_refresh_token_hash
      r))))
    (λ '(a, (b, (c, d))),
      {| dv_display_name := a; dv_created_ts := b; dv_access_token_hash := c;
      dv_refresh_token_hash := d |}) _).
  abstract (by intros []).
Defined.

Definition codec_profile : Codec Profile.
Proof.
  refine (codec_iso
    (codec_option codec_string :: codec_option codec_string)%codec
    (λ r, (pf_displayname r, pf_avatar_url r))
    (λ '(a, b),
      {| pf_displayname := a; pf_avatar_url := b |}) _).
  abstract (by intros []).
Defined.

Definition codec_account_data : Codec AccountDataEntry.
Proof.
  refine (codec_iso
    (codec_string :: codec_nat)%codec
    (λ r, (ad_json r, ad_seq r))
    (λ '(a, b),
      {| ad_json := a; ad_seq := b |}) _).
  abstract (by intros []).
Defined.

Definition codec_membership_row : Codec MembershipEntry.
Proof.
  refine (codec_iso
    (codec_string :: codec_string :: codec_string :: codec_nat :: codec_nat :: codec_bool)%codec
    (λ r, (me_membership r, (me_event_id r, (me_sender r, (me_room_seq r, (me_seq r,
      me_forgotten r))))))
    (λ '(a, (b, (c, (d, (e, f))))),
      {| me_membership := a; me_event_id := b; me_sender := c; me_room_seq := d; me_seq :=
      e; me_forgotten := f |}) _).
  abstract (by intros []).
Defined.

Definition codec_alias : Codec AliasEntry.
Proof.
  refine (codec_iso
    (codec_string :: codec_string)%codec
    (λ r, (al_room_id r, al_creator r))
    (λ '(a, b),
      {| al_room_id := a; al_creator := b |}) _).
  abstract (by intros []).
Defined.

Definition codec_media : Codec MediaMeta.
Proof.
  refine (codec_iso
    (codec_string :: codec_option codec_string :: codec_option codec_string :: codec_nat
      :: codec_nat :: codec_bool :: codec_option codec_string)%codec
    (λ r, (mm_owner r, (mm_content_type r, (mm_filename r, (mm_size r, (mm_created_ts r,
      (mm_pending r, mm_blob r)))))))
    (λ '(a, (b, (c, (d, (e, (f, g)))))),
      {| mm_owner := a; mm_content_type := b; mm_filename := c; mm_size := d; mm_created_ts
      := e; mm_pending := f; mm_blob := g |}) _).
  abstract (by intros []).
Defined.

Definition codec_member_change : Codec MembershipChange.
Proof.
  refine (codec_iso
    (codec_string :: codec_string :: codec_string :: codec_string :: codec_string ::
      codec_nat)%codec
    (λ r, (mc_user_id r, (mc_room_id r, (mc_membership r, (mc_event_id r, (mc_sender r,
      mc_room_seq r))))))
    (λ '(a, (b, (c, (d, (e, f))))),
      {| mc_user_id := a; mc_room_id := b; mc_membership := c; mc_event_id := d; mc_sender
      := e; mc_room_seq := f |}) _).
  abstract (by intros []).
Defined.

Definition codec_session : Codec SessionCmd.
Proof.
  refine (codec_iso
    (codec_string :: codec_string :: codec_option codec_string :: codec_string ::
      codec_option codec_string :: codec_option codec_nat :: codec_nat)%codec
    (λ r, (sc_user_id r, (sc_device_id r, (sc_display_name r, (sc_token_hash r,
      (sc_refresh_hash r, (sc_expires_ts r, sc_ts r)))))))
    (λ '(a, (b, (c, (d, (e, (f, g)))))),
      {| sc_user_id := a; sc_device_id := b; sc_display_name := c; sc_token_hash := d;
      sc_refresh_hash := e; sc_expires_ts := f; sc_ts := g |}) _).
  abstract (by intros []).
Defined.

Definition codec_otk : Codec OtkEntry.
Proof.
  refine (codec_iso
    (codec_nat :: codec_string)%codec
    (λ r, (otk_order r, otk_json r))
    (λ '(a, b),
      {| otk_order := a; otk_json := b |}) _).
  abstract (by intros []).
Defined.

Definition codec_fallback : Codec FallbackEntry.
Proof.
  refine (codec_iso
    (codec_string :: codec_string :: codec_bool)%codec
    (λ r, (fb_key_id r, (fb_json r, fb_used r)))
    (λ '(a, (b, c)),
      {| fb_key_id := a; fb_json := b; fb_used := c |}) _).
  abstract (by intros []).
Defined.

Definition codec_backup : Codec BackupVersionMeta.
Proof.
  refine (codec_iso
    (codec_string :: codec_string :: codec_nat :: codec_nat :: codec_bool)%codec
    (λ r, (bv_algorithm r, (bv_auth_data r, (bv_count r, (bv_etag r, bv_deleted r)))))
    (λ '(a, (b, (c, (d, e)))),
      {| bv_algorithm := a; bv_auth_data := b; bv_count := c; bv_etag := d; bv_deleted := e
      |}) _).
  abstract (by intros []).
Defined.

Definition codec_to_device : Codec ToDeviceMessage.
Proof.
  refine (codec_iso
    (codec_string :: codec_string :: codec_string)%codec
    (λ r, (td_user_id r, (td_device_id r, td_json r)))
    (λ '(a, (b, c)),
      {| td_user_id := a; td_device_id := b; td_json := c |}) _).
  abstract (by intros []).
Defined.

Definition codec_outbound : Codec OutboundEdu.
Proof.
  refine (codec_iso
    (codec_string :: codec_string)%codec
    (λ r, (oe_destination r, oe_json r))
    (λ '(a, b),
      {| oe_destination := a; oe_json := b |}) _).
  abstract (by intros []).
Defined.

Definition codec_key_change : Codec KeyChangeEntry.
Proof.
  refine (codec_iso
    (codec_string :: codec_option (codec_pair codec_string codec_bool))%codec
    (λ r, (kc_user_id r, kc_membership r))
    (λ '(a, b),
      {| kc_user_id := a; kc_membership := b |}) _).
  abstract (by intros []).
Defined.

Definition codec_claim : Codec ClaimRequest.
Proof.
  refine (codec_iso
    (codec_string :: codec_string :: codec_string)%codec
    (λ r, (cl_user_id r, (cl_device_id r, cl_algorithm r)))
    (λ '(a, (b, c)),
      {| cl_user_id := a; cl_device_id := b; cl_algorithm := c |}) _).
  abstract (by intros []).
Defined.

Definition codec_claimed : Codec ClaimedKey.
Proof.
  refine (codec_iso
    (codec_string :: codec_string :: codec_string :: codec_string)%codec
    (λ r, (ck_user_id r, (ck_device_id r, (ck_key_id r, ck_key_json r))))
    (λ '(a, (b, (c, d))),
      {| ck_user_id := a; ck_device_id := b; ck_key_id := c; ck_key_json := d |}) _).
  abstract (by intros []).
Defined.

Definition codec_user_command_fields (x : UserCommand) : N * list bytes :=
  match x with
  | Register a0 a1 a2 a3 =>
      (0%N, [put_f codec_string a0; put_f (codec_option codec_string) a1; put_f codec_nat
      a2; put_f (codec_option codec_session) a3])
  | CreateSession a0 => (1%N, [put_f codec_session a0])
  | RefreshSession a0 a1 => (2%N, [put_f codec_string a0; put_f codec_session a1])
  | DeleteDevice a0 a1 => (3%N, [put_f codec_string a0; put_f codec_string a1])
  | DeleteAllDevices a0 => (4%N, [put_f codec_string a0])
  | SetDeviceName a0 a1 a2 =>
      (5%N, [put_f codec_string a0; put_f codec_string a1; put_f (codec_option
      codec_string) a2])
  | UpsertDevice a0 a1 a2 a3 =>
      (6%N, [put_f codec_string a0; put_f codec_string a1; put_f (codec_option
      codec_string) a2; put_f codec_nat a3])
  | SetProfile a0 a1 a2 =>
      (7%N, [put_f codec_string a0; put_f (codec_option (codec_option codec_string)) a1;
      put_f (codec_option (codec_option codec_string)) a2])
  | PutAccountData a0 a1 a2 a3 =>
      (8%N, [put_f codec_string a0; put_f codec_string a1; put_f codec_string a2; put_f
      codec_string a3])
  | PutFilter a0 a1 a2 =>
      (9%N, [put_f codec_string a0; put_f codec_string a1; put_f codec_string a2])
  | ApplyRoomChanges a0 a1 a2 =>
      (10%N, [put_f codec_string a0; put_f codec_nat a1; put_f (codec_list
      codec_member_change) a2])
  | CreateAlias a0 a1 a2 =>
      (11%N, [put_f codec_string a0; put_f codec_string a1; put_f codec_string a2])
  | DeleteAlias a0 => (12%N, [put_f codec_string a0])
  | PutMedia a0 a1 => (13%N, [put_f codec_string a0; put_f codec_media a1])
  | SetRoomVisibility a0 a1 => (14%N, [put_f codec_string a0; put_f codec_bool a1])
  | RecordRemoteInvite a0 a1 a2 a3 a4 =>
      (15%N, [put_f codec_string a0; put_f codec_string a1; put_f codec_string a2; put_f
      codec_string a3; put_f (codec_list codec_string) a4])
  | RecordRemoteKnock a0 a1 a2 a3 a4 =>
      (16%N, [put_f codec_string a0; put_f codec_string a1; put_f codec_string a2; put_f
      codec_string a3; put_f (codec_list codec_string) a4])
  | RecordRemoteLeave a0 a1 => (17%N, [put_f codec_string a0; put_f codec_string a1])
  | ForgetRoom a0 a1 => (18%N, [put_f codec_string a0; put_f codec_string a1])
  | UploadKeys a0 a1 a2 a3 a4 =>
      (19%N, [put_f codec_string a0; put_f codec_string a1; put_f (codec_option
      codec_string) a2; put_f (codec_list (codec_pair codec_string codec_string)) a3; put_f
      (codec_list (codec_pair codec_string codec_string)) a4])
  | ClaimKeys a0 => (20%N, [put_f (codec_list codec_claim) a0])
  | SetCrossSigningKeys a0 a1 a2 a3 =>
      (21%N, [put_f codec_string a0; put_f (codec_option codec_string) a1; put_f
      (codec_option codec_string) a2; put_f (codec_option codec_string) a3])
  | AddSignatures a0 a1 =>
      (22%N, [put_f codec_string a0; put_f (codec_list (codec_pair codec_string
      codec_string)) a1])
  | SendToDevice a0 => (23%N, [put_f (codec_list codec_to_device) a0])
  | AckToDevice a0 a1 a2 =>
      (24%N, [put_f codec_string a0; put_f codec_string a1; put_f codec_nat a2])
  | RecordKeyChange a0 => (25%N, [put_f codec_string a0])
  | QueueOutboundEdus a0 => (26%N, [put_f (codec_list codec_outbound) a0])
  | AckOutboundEdus a0 a1 => (27%N, [put_f codec_string a0; put_f codec_nat a1])
  | ChangePassword a0 a1 a2 a3 =>
      (28%N, [put_f codec_string a0; put_f codec_string a1; put_f codec_bool a2; put_f
      codec_string a3])
  | Deactivate a0 => (29%N, [put_f codec_string a0])
  | SetPusher a0 a1 a2 a3 a4 =>
      (30%N, [put_f codec_string a0; put_f codec_string a1; put_f codec_string a2; put_f
      codec_string a3; put_f (codec_option codec_string) a4])
  | CreateBackupVersion a0 a1 a2 =>
      (31%N, [put_f codec_string a0; put_f codec_string a1; put_f codec_string a2])
  | UpdateBackupVersion a0 a1 a2 a3 =>
      (32%N, [put_f codec_string a0; put_f codec_nat a1; put_f codec_string a2; put_f
      codec_string a3])
  | DeleteBackupVersion a0 a1 => (33%N, [put_f codec_string a0; put_f codec_nat a1])
  | PutBackupKeys a0 a1 a2 =>
      (34%N, [put_f codec_string a0; put_f codec_nat a1; put_f (codec_list (codec_pair
      (codec_pair codec_string codec_string) (codec_string))) a2])
  | DeleteBackupKeys a0 a1 a2 a3 =>
      (35%N, [put_f codec_string a0; put_f codec_nat a1; put_f (codec_option codec_string)
      a2; put_f (codec_option codec_string) a3])
  | SendToDeviceDeduped a0 a1 a2 a3 =>
      (36%N, [put_f codec_string a0; put_f codec_string a1; put_f codec_nat a2; put_f
      (codec_list codec_to_device) a3])
  | SetLocked a0 a1 => (37%N, [put_f codec_string a0; put_f codec_bool a1])
  | SetAdmin a0 a1 => (38%N, [put_f codec_string a0; put_f codec_bool a1])
  | AdminSetPassword a0 a1 a2 =>
      (39%N, [put_f codec_string a0; put_f codec_string a1; put_f codec_bool a2])
  | SetErased a0 => (40%N, [put_f codec_string a0])
  | CompleteUiaStage a0 a1 a2 a3 a4 a5 =>
      (41%N, [put_f codec_string a0; put_f codec_string a1; put_f codec_string a2; put_f
      (codec_option codec_string) a3; put_f codec_nat a4; put_f codec_nat a5])
  | RegisterWithToken a0 a1 a2 a3 a4 =>
      (42%N, [put_f codec_string a0; put_f (codec_option codec_string) a1; put_f codec_nat
      a2; put_f (codec_option codec_session) a3; put_f (codec_option codec_string) a4])
  | CreateRegistrationToken a0 a1 a2 a3 =>
      (43%N, [put_f codec_string a0; put_f (codec_option codec_nat) a1; put_f (codec_option
      codec_nat) a2; put_f codec_nat a3])
  | DeleteRegistrationToken a0 => (44%N, [put_f codec_string a0])
  | LinkExternalId a0 a1 a2 =>
      (45%N, [put_f codec_string a0; put_f codec_string a1; put_f codec_string a2])
  | UnlinkExternalId a0 a1 => (46%N, [put_f codec_string a0; put_f codec_string a1])
  | SetNoticesRoom a0 a1 => (47%N, [put_f codec_string a0; put_f codec_string a1])
  | SetRoomBlocked a0 a1 a2 a3 =>
      (48%N, [put_f codec_string a0; put_f codec_bool a1; put_f codec_string a2; put_f
      codec_nat a3])
  | CreateLoginToken a0 a1 a2 a3 =>
      (49%N, [put_f codec_string a0; put_f codec_string a1; put_f codec_nat a2; put_f
      codec_nat a3])
  | ConsumeLoginToken a0 a1 => (50%N, [put_f codec_string a0; put_f codec_nat a1])
  | MarkTxn a0 a1 a2 a3 a4 =>
      (51%N, [put_f codec_string a0; put_f codec_string a1; put_f codec_string a2; put_f
      codec_string a3; put_f codec_nat a4])
  end.

Definition codec_user_command_build (x : N * list bytes) : option UserCommand :=
  match x with
  | (0%N, [a0; a1; a2; a3]) =>
      a0 ← get_f codec_string a0; a1 ← get_f (codec_option codec_string) a1; a2 ← get_f
      codec_nat a2; a3 ← get_f (codec_option codec_session) a3; Some (Register a0 a1 a2 a3)
  | (1%N, [a0]) => a0 ← get_f codec_session a0; Some (CreateSession a0)
  | (2%N, [a0; a1]) =>
      a0 ← get_f codec_string a0; a1 ← get_f codec_session a1; Some (RefreshSession a0 a1)
  | (3%N, [a0; a1]) =>
      a0 ← get_f codec_string a0; a1 ← get_f codec_string a1; Some (DeleteDevice a0 a1)
  | (4%N, [a0]) => a0 ← get_f codec_string a0; Some (DeleteAllDevices a0)
  | (5%N, [a0; a1; a2]) =>
      a0 ← get_f codec_string a0; a1 ← get_f codec_string a1; a2 ← get_f (codec_option
      codec_string) a2; Some (SetDeviceName a0 a1 a2)
  | (6%N, [a0; a1; a2; a3]) =>
      a0 ← get_f codec_string a0; a1 ← get_f codec_string a1; a2 ← get_f (codec_option
      codec_string) a2; a3 ← get_f codec_nat a3; Some (UpsertDevice a0 a1 a2 a3)
  | (7%N, [a0; a1; a2]) =>
      a0 ← get_f codec_string a0; a1 ← get_f (codec_option (codec_option codec_string)) a1;
      a2 ← get_f (codec_option (codec_option codec_string)) a2; Some (SetProfile a0 a1 a2)
  | (8%N, [a0; a1; a2; a3]) =>
      a0 ← get_f codec_string a0; a1 ← get_f codec_string a1; a2 ← get_f codec_string a2;
      a3 ← get_f codec_string a3; Some (PutAccountData a0 a1 a2 a3)
  | (9%N, [a0; a1; a2]) =>
      a0 ← get_f codec_string a0; a1 ← get_f codec_string a1; a2 ← get_f codec_string a2;
      Some (PutFilter a0 a1 a2)
  | (10%N, [a0; a1; a2]) =>
      a0 ← get_f codec_string a0; a1 ← get_f codec_nat a1; a2 ← get_f (codec_list
      codec_member_change) a2; Some (ApplyRoomChanges a0 a1 a2)
  | (11%N, [a0; a1; a2]) =>
      a0 ← get_f codec_string a0; a1 ← get_f codec_string a1; a2 ← get_f codec_string a2;
      Some (CreateAlias a0 a1 a2)
  | (12%N, [a0]) => a0 ← get_f codec_string a0; Some (DeleteAlias a0)
  | (13%N, [a0; a1]) =>
      a0 ← get_f codec_string a0; a1 ← get_f codec_media a1; Some (PutMedia a0 a1)
  | (14%N, [a0; a1]) =>
      a0 ← get_f codec_string a0; a1 ← get_f codec_bool a1; Some (SetRoomVisibility a0 a1)
  | (15%N, [a0; a1; a2; a3; a4]) =>
      a0 ← get_f codec_string a0; a1 ← get_f codec_string a1; a2 ← get_f codec_string a2;
      a3 ← get_f codec_string a3; a4 ← get_f (codec_list codec_string) a4; Some
      (RecordRemoteInvite a0 a1 a2 a3 a4)
  | (16%N, [a0; a1; a2; a3; a4]) =>
      a0 ← get_f codec_string a0; a1 ← get_f codec_string a1; a2 ← get_f codec_string a2;
      a3 ← get_f codec_string a3; a4 ← get_f (codec_list codec_string) a4; Some
      (RecordRemoteKnock a0 a1 a2 a3 a4)
  | (17%N, [a0; a1]) =>
      a0 ← get_f codec_string a0; a1 ← get_f codec_string a1; Some (RecordRemoteLeave a0
      a1)
  | (18%N, [a0; a1]) =>
      a0 ← get_f codec_string a0; a1 ← get_f codec_string a1; Some (ForgetRoom a0 a1)
  | (19%N, [a0; a1; a2; a3; a4]) =>
      a0 ← get_f codec_string a0; a1 ← get_f codec_string a1; a2 ← get_f (codec_option
      codec_string) a2; a3 ← get_f (codec_list (codec_pair codec_string codec_string)) a3;
      a4 ← get_f (codec_list (codec_pair codec_string codec_string)) a4; Some (UploadKeys
      a0 a1 a2 a3 a4)
  | (20%N, [a0]) => a0 ← get_f (codec_list codec_claim) a0; Some (ClaimKeys a0)
  | (21%N, [a0; a1; a2; a3]) =>
      a0 ← get_f codec_string a0; a1 ← get_f (codec_option codec_string) a1; a2 ← get_f
      (codec_option codec_string) a2; a3 ← get_f (codec_option codec_string) a3; Some
      (SetCrossSigningKeys a0 a1 a2 a3)
  | (22%N, [a0; a1]) =>
      a0 ← get_f codec_string a0; a1 ← get_f (codec_list (codec_pair codec_string
      codec_string)) a1; Some (AddSignatures a0 a1)
  | (23%N, [a0]) =>
      a0 ← get_f (codec_list codec_to_device) a0; Some (SendToDevice a0)
  | (24%N, [a0; a1; a2]) =>
      a0 ← get_f codec_string a0; a1 ← get_f codec_string a1; a2 ← get_f codec_nat a2; Some
      (AckToDevice a0 a1 a2)
  | (25%N, [a0]) => a0 ← get_f codec_string a0; Some (RecordKeyChange a0)
  | (26%N, [a0]) =>
      a0 ← get_f (codec_list codec_outbound) a0; Some (QueueOutboundEdus a0)
  | (27%N, [a0; a1]) =>
      a0 ← get_f codec_string a0; a1 ← get_f codec_nat a1; Some (AckOutboundEdus a0 a1)
  | (28%N, [a0; a1; a2; a3]) =>
      a0 ← get_f codec_string a0; a1 ← get_f codec_string a1; a2 ← get_f codec_bool a2; a3
      ← get_f codec_string a3; Some (ChangePassword a0 a1 a2 a3)
  | (29%N, [a0]) => a0 ← get_f codec_string a0; Some (Deactivate a0)
  | (30%N, [a0; a1; a2; a3; a4]) =>
      a0 ← get_f codec_string a0; a1 ← get_f codec_string a1; a2 ← get_f codec_string a2;
      a3 ← get_f codec_string a3; a4 ← get_f (codec_option codec_string) a4; Some
      (SetPusher a0 a1 a2 a3 a4)
  | (31%N, [a0; a1; a2]) =>
      a0 ← get_f codec_string a0; a1 ← get_f codec_string a1; a2 ← get_f codec_string a2;
      Some (CreateBackupVersion a0 a1 a2)
  | (32%N, [a0; a1; a2; a3]) =>
      a0 ← get_f codec_string a0; a1 ← get_f codec_nat a1; a2 ← get_f codec_string a2; a3 ←
      get_f codec_string a3; Some (UpdateBackupVersion a0 a1 a2 a3)
  | (33%N, [a0; a1]) =>
      a0 ← get_f codec_string a0; a1 ← get_f codec_nat a1; Some (DeleteBackupVersion a0 a1)
  | (34%N, [a0; a1; a2]) =>
      a0 ← get_f codec_string a0; a1 ← get_f codec_nat a1; a2 ← get_f (codec_list
      (codec_pair (codec_pair codec_string codec_string) (codec_string))) a2; Some
      (PutBackupKeys a0 a1 a2)
  | (35%N, [a0; a1; a2; a3]) =>
      a0 ← get_f codec_string a0; a1 ← get_f codec_nat a1; a2 ← get_f (codec_option
      codec_string) a2; a3 ← get_f (codec_option codec_string) a3; Some (DeleteBackupKeys
      a0 a1 a2 a3)
  | (36%N, [a0; a1; a2; a3]) =>
      a0 ← get_f codec_string a0; a1 ← get_f codec_string a1; a2 ← get_f codec_nat a2; a3 ←
      get_f (codec_list codec_to_device) a3; Some (SendToDeviceDeduped a0 a1 a2 a3)
  | (37%N, [a0; a1]) =>
      a0 ← get_f codec_string a0; a1 ← get_f codec_bool a1; Some (SetLocked a0 a1)
  | (38%N, [a0; a1]) =>
      a0 ← get_f codec_string a0; a1 ← get_f codec_bool a1; Some (SetAdmin a0 a1)
  | (39%N, [a0; a1; a2]) =>
      a0 ← get_f codec_string a0; a1 ← get_f codec_string a1; a2 ← get_f codec_bool a2;
      Some (AdminSetPassword a0 a1 a2)
  | (40%N, [a0]) => a0 ← get_f codec_string a0; Some (SetErased a0)
  | (41%N, [a0; a1; a2; a3; a4; a5]) =>
      a0 ← get_f codec_string a0; a1 ← get_f codec_string a1; a2 ← get_f codec_string a2;
      a3 ← get_f (codec_option codec_string) a3; a4 ← get_f codec_nat a4; a5 ← get_f
      codec_nat a5; Some (CompleteUiaStage a0 a1 a2 a3 a4 a5)
  | (42%N, [a0; a1; a2; a3; a4]) =>
      a0 ← get_f codec_string a0; a1 ← get_f (codec_option codec_string) a1; a2 ← get_f
      codec_nat a2; a3 ← get_f (codec_option codec_session) a3; a4 ← get_f (codec_option
      codec_string) a4; Some (RegisterWithToken a0 a1 a2 a3 a4)
  | (43%N, [a0; a1; a2; a3]) =>
      a0 ← get_f codec_string a0; a1 ← get_f (codec_option codec_nat) a1; a2 ← get_f
      (codec_option codec_nat) a2; a3 ← get_f codec_nat a3; Some (CreateRegistrationToken
      a0 a1 a2 a3)
  | (44%N, [a0]) =>
      a0 ← get_f codec_string a0; Some (DeleteRegistrationToken a0)
  | (45%N, [a0; a1; a2]) =>
      a0 ← get_f codec_string a0; a1 ← get_f codec_string a1; a2 ← get_f codec_string a2;
      Some (LinkExternalId a0 a1 a2)
  | (46%N, [a0; a1]) =>
      a0 ← get_f codec_string a0; a1 ← get_f codec_string a1; Some (UnlinkExternalId a0 a1)
  | (47%N, [a0; a1]) =>
      a0 ← get_f codec_string a0; a1 ← get_f codec_string a1; Some (SetNoticesRoom a0 a1)
  | (48%N, [a0; a1; a2; a3]) =>
      a0 ← get_f codec_string a0; a1 ← get_f codec_bool a1; a2 ← get_f codec_string a2; a3
      ← get_f codec_nat a3; Some (SetRoomBlocked a0 a1 a2 a3)
  | (49%N, [a0; a1; a2; a3]) =>
      a0 ← get_f codec_string a0; a1 ← get_f codec_string a1; a2 ← get_f codec_nat a2; a3 ←
      get_f codec_nat a3; Some (CreateLoginToken a0 a1 a2 a3)
  | (50%N, [a0; a1]) =>
      a0 ← get_f codec_string a0; a1 ← get_f codec_nat a1; Some (ConsumeLoginToken a0 a1)
  | (51%N, [a0; a1; a2; a3; a4]) =>
      a0 ← get_f codec_string a0; a1 ← get_f codec_string a1; a2 ← get_f codec_string a2;
      a3 ← get_f codec_string a3; a4 ← get_f codec_nat a4; Some (MarkTxn a0 a1 a2 a3 a4)
  | _ => None
  end.

Lemma codec_user_command_law x : codec_user_command_build (codec_user_command_fields x) = Some x.
Proof. destruct x; cbn [codec_user_command_fields codec_user_command_build]; by rewrite ?get_put. Qed.

Definition codec_user_command : Codec UserCommand.
Proof.
  refine {| enc x := enc (codec_user_command_fields x); dec b := dec b ≫= codec_user_command_build |}.
  abstract (intros x; rewrite dec_enc; apply codec_user_command_law).
Defined.

Definition codec_user_response_fields (x : UserResponse) : N * list bytes :=
  match x with
  | UOk => (0%N, [])
  | UserExists => (1%N, [])
  | AliasExists => (2%N, [])
  | InvalidGrant => (3%N, [])
  | NotFound => (4%N, [])
  | Stale => (5%N, [])
  | OneTimeKeyCounts a0 => (6%N, [put_f codec_counts a0])
  | ClaimedKeys a0 => (7%N, [put_f (codec_list codec_claimed) a0])
  | BackupVersion a0 => (8%N, [put_f codec_nat a0])
  | BackupStatus a0 a1 => (9%N, [put_f codec_nat a0; put_f codec_nat a1])
  | InvalidState => (10%N, [])
  | UiaRequestMismatch => (11%N, [])
  | UiaCompleted a0 a1 =>
      (12%N, [put_f (codec_list codec_string) a0; put_f (codec_option codec_string) a1])
  | InvalidToken => (13%N, [])
  | TokenExists => (14%N, [])
  | ExternalIdInUse a0 => (15%N, [put_f codec_string a0])
  | LoginTokenOwner a0 => (16%N, [put_f codec_string a0])
  end.

Definition codec_user_response_build (x : N * list bytes) : option UserResponse :=
  match x with
  | (0%N, []) => Some UOk
  | (1%N, []) => Some UserExists
  | (2%N, []) => Some AliasExists
  | (3%N, []) => Some InvalidGrant
  | (4%N, []) => Some NotFound
  | (5%N, []) => Some Stale
  | (6%N, [a0]) => a0 ← get_f codec_counts a0; Some (OneTimeKeyCounts a0)
  | (7%N, [a0]) =>
      a0 ← get_f (codec_list codec_claimed) a0; Some (ClaimedKeys a0)
  | (8%N, [a0]) => a0 ← get_f codec_nat a0; Some (BackupVersion a0)
  | (9%N, [a0; a1]) =>
      a0 ← get_f codec_nat a0; a1 ← get_f codec_nat a1; Some (BackupStatus a0 a1)
  | (10%N, []) => Some InvalidState
  | (11%N, []) => Some UiaRequestMismatch
  | (12%N, [a0; a1]) =>
      a0 ← get_f (codec_list codec_string) a0; a1 ← get_f (codec_option codec_string) a1;
      Some (UiaCompleted a0 a1)
  | (13%N, []) => Some InvalidToken
  | (14%N, []) => Some TokenExists
  | (15%N, [a0]) => a0 ← get_f codec_string a0; Some (ExternalIdInUse a0)
  | (16%N, [a0]) => a0 ← get_f codec_string a0; Some (LoginTokenOwner a0)
  | _ => None
  end.

Lemma codec_user_response_law x : codec_user_response_build (codec_user_response_fields x) = Some x.
Proof. destruct x; cbn [codec_user_response_fields codec_user_response_build]; by rewrite ?get_put. Qed.

Definition codec_user_response : Codec UserResponse.
Proof.
  refine {| enc x := enc (codec_user_response_fields x); dec b := dec b ≫= codec_user_response_build |}.
  abstract (intros x; rewrite dec_enc; apply codec_user_response_law).
Defined.

Definition codec_change : Codec UserChangePayload.
Proof.
  refine (codec_iso codec_string (λ '(ChangedUser u), u) ChangedUser _).
  abstract (by intros []).
Defined.

#[export] Instance user_codecs : UserCodecs := {|
  uc_command := codec_user_command; uc_response := codec_user_response;
  uc_change := codec_change; uc_account := codec_account; uc_account_v2 := codec_account_v2;
  uc_uia := codec_uia; uc_login_token := codec_login_token; uc_reg_token := codec_reg_token;
  uc_blocked := codec_blocked; uc_token := codec_token; uc_token_v4 := codec_token_v4;
  uc_device := codec_device; uc_profile := codec_profile; uc_account_data := codec_account_data;
  uc_membership := codec_membership_row; uc_alias := codec_alias; uc_media := codec_media;
  uc_otk := codec_otk; uc_fallback := codec_fallback; uc_backup := codec_backup;
  uc_key_change := codec_key_change; uc_u64 := codec_nat; uc_string := codec_string;
  uc_stripped := codec_list codec_string |}.

(** No JSON text parses in these examples. *)
#[export] Instance demo_serde : SerdeJson := {|
  jnum := Z; jnum_i64 z := Some z; jnum_f64_i64 z := Some z;
  jnum_u64 z := if (z <? 0)%Z then None else Some (Z.to_N z);
  from_slice _ := None; to_vec _ := EmptyString |}.

Definition user_shard : ShardId := {| keyspace := User; index := 0 |}.

Definition user_cmd (cmd : UserCommand) : Entry :=
  {| log_id := 1%N; payload := Normal (enc cmd) |}.

(** ** Logs built by running commands *)

Definition demo_step (st : option (list (UserCommand * UserResponse) * engine))
    (cmds : list UserCommand) : option (list (UserCommand * UserResponse) * engine) :=
  match st with
  | Some (tr, e) =>
      match sm_apply user_shard UserApp (map user_cmd cmds) e with
      | Ok (e', rs, _) => Some (tr ++ outcomes (map user_cmd cmds) rs, e')
      | Err _ => None
      end
  | None => None
  end.

Definition demo_batches (batches : list (list UserCommand)) :
    option (list (UserCommand * UserResponse) * engine) := foldl demo_step (Some ([], ∅)) batches.

Definition demo_end (batches : list (list UserCommand)) : engine :=
  match demo_batches batches with Some (_, e) => e | None => ∅ end.

Lemma demo_user_entry cmd : user_entry (user_cmd cmd).
Proof.
  unfold user_entry, user_cmd. cbn [payload]. cbn [enc user_codecs uc_command codec_user_command].
  generalize (codec_user_command_fields cmd). intros [n fs]. cbn -[unary]. unfold frame.
  destruct (String.length _); done.
Qed.

Lemma demo_step_none batches : foldl demo_step None batches = None.
Proof. by induction batches. Qed.

Lemma demo_log (P : list Entry → Prop) batches tr :
  Forall (λ cmds, P (map user_cmd cmds)) batches →
  fst <$> demo_batches batches = Some tr →
  user_log user_shard P ∅ tr (demo_end batches).
Proof.
  unfold demo_end. intros HP. destruct (demo_batches batches) as [[tr' e]|] eqn:Hb; [|done].
  simpl. intros [= <-]. revert Hb. unfold demo_batches.
  assert (user_log user_shard P ∅ [] ∅) as H0 by constructor. revert H0.
  generalize (@nil (UserCommand * UserResponse)) as tr0, (∅ : engine) at 2 3 as e0.
  induction HP as [|cmds batches HP HPs IH]; intros tr0 e0 H0; simpl.
  { by intros [= <- <-]. }
  destruct (sm_apply user_shard UserApp (map user_cmd cmds) e0) as [[[e1 rs] pub]|] eqn:Hs;
    [|by rewrite demo_step_none].
  apply IH. eapply user_log_batch; [done|done| |done].
  apply list.Forall_forall. intros en (cmd & -> & _)%list_elem_of_fmap. apply demo_user_entry.
Qed.
