(* ===== verification/UserSafety.v ===== *)
(** * Single-use and terminal properties of the user keyspace

    Facts about whole logs of committed commands, however the entries are
    grouped into batches (saltator-userserver/src/machine.rs): login tokens
    are redeemed once, registration tokens within their limit, and a
    deactivated account stays so. *)

From Stdlib Require Import Ascii.
From S2P Require Import Prelude Bytes Store Codec Json Shard ShardFacts Track Demo.
From S2P Require Import UserTypes UserMachine UserKeys UserQueues UserApply.
From S2P Require Import UserLog UserDemo.
From stdpp Require Import options.
Set Warnings "-register-all".

(** Only the commands that write the table remain. *)
Ltac only_writers cmd Hw := destruct cmd; vm_compute in Hw; try discriminate Hw; clear Hw.

Section Safety.
Context `{UC : UserCodecs, SJ : SerdeJson, UL : Utf8Lossy}.

Lemma command_leaves cmd t env c :
  (t < 256)%N → bool_decide (t ∈ command_writes cmd) = false →
  wp (user_command cmd) env (λ _ c', ∀ k, tget env c' t k = tget env c t k) c.
Proof.
  intros Ht Hw. eapply wp_mono; [|apply command_touches]. intros r c' H k.
  apply H; [done|]. by apply bool_decide_eq_false in Hw.
Qed.

Lemma wp_true {A} (m : app A) env c : wp m env (λ _ _, True) c.
Proof. unfold wp. by destruct (m env c) as [[]|]. Qed.

(** ** Login tokens *)

(** What the token [h] is still good for after a trace: the account and
    expiry of its last minting, unless it was presented since. *)
Definition minted_step (h : hash) (m : option (string * N)) (x : UserCommand * UserResponse) :
    option (string * N) :=
  match x with
  | (ConsumeLoginToken h' _, _) => if decide (h' = h) then None else m
  | (CreateLoginToken h' user_id expires_ts _, UOk) =>
      if decide (h' = h) then Some (user_id, expires_ts) else m
  | _ => m
  end.

Definition minted (h : hash) (tr : list (UserCommand * UserResponse)) : option (string * N) :=
  foldl (minted_step h) None tr.

Lemma minted_snoc h tr x : minted h (tr ++ [x]) = minted_step h (minted h tr) x.
Proof. unfold minted. by rewrite foldl_app. Qed.

(** A property of every event of a trace, given what came before it. *)
Definition each {X} (Q : list X → X → Prop) (tr : list X) : Prop :=
  ∀ tr1 x tr2, tr = tr1 ++ x :: tr2 → Q tr1 x.

Lemma each_nil {X} (Q : list X → X → Prop) : each Q [].
Proof. intros [|? ?] ? tr2 He; done. Qed.

Lemma each_snoc {X} (Q : list X → X → Prop) tr x : each Q tr → Q tr x → each Q (tr ++ [x]).
Proof.
  intros Htr Hx tr1 y tr2. destruct tr2 as [|z tr2 _] using rev_ind; intros He.
  - apply app_inj_tail in He as [-> ->]. done.
  - rewrite app_comm_cons, app_assoc in He. apply app_inj_tail in He as [He _].
    by apply (Htr _ _ tr2).
Qed.

Definition redeems (h : hash) (tr : list (UserCommand * UserResponse))
    (x : UserCommand * UserResponse) : Prop :=
  match x with
  | (ConsumeLoginToken h' now, r) => h' = h →
      r = InvalidGrant ∨ ∃ user_id expires_ts, minted h tr = Some (user_id, expires_ts) ∧
        (now < expires_ts)%N ∧ r = LoginTokenOwner user_id
  | _ => True
  end.

Definition login_row (h : hash) (m : option (string * N)) (o : option bytes) : Prop :=
  o = None ∨ ∃ user_id expires_ts, m = Some (user_id, expires_ts) ∧
    o = Some (enc {| lt_user_id := user_id; lt_expires_ts := expires_ts |}).

Definition login_inv (h : hash) (tr : list (UserCommand * UserResponse)) (f : cells) : Prop :=
  login_row h (minted h tr) (f T_LOGIN_TOKEN h) ∧ each (redeems h) tr.

Lemma sweep_login h m stale env c :
  login_row h m (tget env c T_LOGIN_TOKEN h) →
  wp (app_iter (ctx_delete T_LOGIN_TOKEN) stale) env
    (λ _ c', login_row h m (tget env c' T_LOGIN_TOKEN h)) c.
Proof.
  revert c. apply (wp_fold _ _ (λ _ c', login_row h m (tget env c' T_LOGIN_TOKEN h))).
  intros [] k c _ H. unfold ctx_delete, wp. rewrite tget_delete by done.
  case_decide; [by left|done].
Qed.

Lemma create_login h h' user_id expires now m env c :
  login_row h m (tget env c T_LOGIN_TOKEN h) →
  wp (create_login_token h' user_id expires now) env (λ r c',
    login_row h (minted_step h m (CreateLoginToken h' user_id expires now, r))
      (tget env c' T_LOGIN_TOKEN h)) c.
Proof.
  intros H. unfold create_login_token. wp_step.
  apply (wp_mono _ _ (λ _ c', login_row h m (tget env c' T_LOGIN_TOKEN h))).
  2: { unfold stale_login_tokens. wp_step. apply (wp_fold _ _
         (λ _ c', login_row h m (tget env c' T_LOGIN_TOKEN h))); [|done].
       intros st [k v] c' _ H'. wp_step. by apply wp_lift. }
  intros stale c1 H1. wp_step. eapply wp_mono; [|by apply sweep_login].
  intros [] c2 H2. unfold with_account, get_account. wp_step. apply wp_get_typed.
  intros [a|] _ _; [|by wp_step]. destruct (negb _); [by wp_step|]. wp_step. apply wp_put.
  wp_step. unfold minted_step. rewrite tget_put by done.
  destruct (decide (h' = h)) as [->|Hne].
  - rewrite decide_True by done. right. by eexists _, _.
  - by rewrite decide_False by (by intros [_ ?]).
Qed.

Lemma consume_login h h' now m tr env c :
  m = minted h tr → login_row h m (tget env c T_LOGIN_TOKEN h) →
  wp (consume_login_token h' now) env (λ r c',
    login_row h (minted_step h m (ConsumeLoginToken h' now, r)) (tget env c' T_LOGIN_TOKEN h) ∧
    redeems h tr (ConsumeLoginToken h' now, r)) c.
Proof.
  intros -> H. unfold consume_login_token. wp_step. apply wp_get.
  destruct (tget env c T_LOGIN_TOKEN h') as [raw|] eqn:Hr; wp_step.
  2: { split; [|by left]. simpl. case_decide as Hd; [subst h'; by left|done]. }
  unfold ctx_delete at 1, wp at 1. set (c1 := with_wb _ _).
  assert (∀ x, login_row h (minted_step h (minted h tr) (ConsumeLoginToken h' now, x))
    (tget env c1 T_LOGIN_TOKEN h)) as H1.
  { intros x. unfold c1. rewrite tget_delete by done. simpl.
    destruct (decide (h' = h)) as [->|Hne]; [by rewrite decide_True; [left|]|].
    by rewrite decide_False by (by intros [_ ?]). }
  wp_step. apply wp_lift. intros e He.
  destruct (N.leb_spec (lt_expires_ts e) now) as [|Hlt]; [wp_step; split; [done|by left]|].
  wp_step. apply wp_get_typed. intros a _ _.
  case_match; wp_step; (split; [done|]); [|by left].
  intros ->. right. destruct H as [H|(u & x & Hm & H)]; [congruence|].
  assert (raw = enc {| lt_user_id := u; lt_expires_ts := x |}) as -> by congruence.
  rewrite dec_or_enc in He. injection He as <-. by exists u, x.
Qed.

Lemma login_step sid h : log_step sid (λ _, True) (λ _ _, True) (login_inv h).
Proof.
  intros tr cmd env c _ _ _ [Hs Heach].
  destruct (bool_decide (T_LOGIN_TOKEN ∈ command_writes cmd)) eqn:Hw.
  - only_writers cmd Hw; simpl.
    + eapply wp_mono; [|by apply create_login]. intros r c' Hr. split; [|by apply each_snoc].
      by rewrite minted_snoc.
    + eapply wp_mono; [|by apply (consume_login h token_hash now_ts (minted h tr) tr)].
      intros r c' [Hr Hq]. split; [by rewrite minted_snoc|by apply each_snoc].
  - eapply wp_mono; [|by apply (command_leaves _ T_LOGIN_TOKEN)]. intros r c' Hk.
    assert (minted h (tr ++ [(cmd, r)]) = minted h tr) as Hm.
    { rewrite minted_snoc. by destruct cmd. }
    split; [by rewrite Hm, Hk|]. apply each_snoc; [done|]. by destruct cmd.
Qed.

(** ** Registration tokens *)

(** The limit the token [t] was created with, and how many registrations
    it has paid for since. *)
Definition reg_step (t : string) (st : option (option N) * N) (x : UserCommand * UserResponse) :
    option (option N) * N :=
  match x with
  | (CreateRegistrationToken t' allowed _ _, UOk) =>
      if decide (t' = t) then (Some allowed, 0%N) else st
  | (DeleteRegistrationToken t', _) => if decide (t' = t) then (None, 0%N) else st
  | (RegisterWithToken _ _ _ _ (Some t'), UOk) =>
      if decide (t' = t) then (st.1, st.2 + 1)%N else st
  | _ => st
  end.

Definition reg_state (t : string) (tr : list (UserCommand * UserResponse)) :
    option (option N) * N := foldl (reg_step t) (None, 0%N) tr.

Lemma reg_snoc t tr x : reg_state t (tr ++ [x]) = reg_step t (reg_state t tr) x.
Proof. unfold reg_state. by rewrite foldl_app. Qed.

(** The limit is not yet reached. *)
Definition within (st : option (option N) * N) : Prop :=
  ∃ allowed, st.1 = Some allowed ∧
    ∀ m, allowed = Some m → (m < u64_modulus)%N → (st.2 < m)%N.

Definition pays (t : string) (tr : list (UserCommand * UserResponse))
    (x : UserCommand * UserResponse) : Prop :=
  match x with
  | (RegisterWithToken _ _ _ _ (Some t'), UOk) => t' = t → within (reg_state t tr)
  | _ => True
  end.

Definition reg_row (st : option (option N) * N) (o : option bytes) : Prop :=
  match st.1 with
  | None => o = None
  | Some allowed => ∃ e, o = Some (enc e) ∧ rt_uses_allowed e = allowed ∧
      ∀ m, allowed = Some m → (m < u64_modulus)%N → rt_used e = st.2 ∧ (st.2 <= m)%N
  end.

Definition reg_inv (t : string) (tr : list (UserCommand * UserResponse)) (f : cells) : Prop :=
  reg_row (reg_state t tr) (f T_REG_TOKEN t) ∧ each (pays t) tr.

Lemma touches_session P s :
  P T_DEVICE → P T_TOKEN →
  touches P (match s with Some s => write_session s | None => mret () end).
Proof.
  intros Hd Ht. destruct s as [s|]; [|apply touches_ret].
  unfold write_session, get_device, delete_hash, account_state, get_account.
  solve_touches; (apply touches_put || apply touches_delete); done.
Qed.

(** Everything after the token check writes elsewhere. *)
Lemma register_tail user_id a session (env : ApplyEnv) (c : ApplyState)
    (Q : UserResponse → ApplyState → Prop) :
  (∀ c', (∀ k, tget env c' T_REG_TOKEN k = tget env c T_REG_TOKEN k) → Q UOk c') →
  wp (put_account user_id a;; ctx_put T_USERNAME user_id (str1 b1);;
      match session with Some s => write_session s | None => mret () end;; mret UOk) env Q c.
Proof.
  intros HQ. unfold put_account. wp_step. apply wp_put. wp_step. apply wp_put. wp_step.
  eapply wp_mono; [|apply (touches_session (λ t, t ∈ [T_DEVICE; T_TOKEN])); list_member].
  intros [] c' Hc'. wp_step. apply HQ. intros k. rewrite Hc'; [|done|].
  - by rewrite !tget_put_other by done.
  - by apply (bool_decide_unpack _).
Qed.

Lemma register_reg t user_id pw ts s tok tr env c :
  let cmd := RegisterWithToken user_id pw ts s tok in
  reg_row (reg_state t tr) (tget env c T_REG_TOKEN t) →
  wp (apply_register user_id pw ts s tok) env (λ r c',
    reg_row (reg_step t (reg_state t tr) (cmd, r)) (tget env c' T_REG_TOKEN t) ∧
    pays t tr (cmd, r)) c.
Proof.
  intros cmd H. unfold apply_register. wp_step. apply wp_get. wp_step.
  apply (wp_mono _ _ (λ _ c', c' = c)).
  { intros taken c' ->. destruct taken.
    { wp_step. split; [|by destruct tok]. by destruct tok. }
    destruct tok as [t'|]; cbv iota.
    2: { wp_step. wp_step. cbn [negb]. apply register_tail. intros c' Hc'. by rewrite Hc'. }
    wp_step. wp_step. apply wp_get_typed. intros o Ho Hn. destruct o as [e|].
    2: { wp_step. cbn [negb]. by wp_step. }
    destruct (usable e ts) eqn:Hu; cbn [negb]; [|wp_step; cbn [negb]; by wp_step].
    wp_step. apply wp_put. wp_step. cbn [negb].
    apply register_tail. intros c' Hc'. rewrite Hc'. unfold pays, reg_step, cmd. simpl.
    rewrite tget_put by done. destruct (decide (t' = t)) as [->|Hne].
    2: { rewrite decide_False by (by intros [_ ?]). by split. }
    rewrite decide_True by done. unfold reg_row in *; simpl.
    destruct (reg_state t tr) as [lim n] eqn:Hst; simpl in *.
    destruct lim as [allowed|]; [|by rewrite H in Ho].
    destruct H as (e' & He' & Hal & Hm). rewrite He' in Ho. simpl in Ho. rewrite dec_enc in Ho.
    injection Ho as ->. subst allowed. unfold usable in Hu. apply andb_true_iff in Hu as [_ Hu].
    split.
    - eexists; split; [done|]. split; [done|]. simpl. intros m Hme Hlt.
      destruct (Hm _ Hme Hlt) as [<- ?]. rewrite Hme in Hu. apply N.ltb_lt in Hu.
      rewrite add64_small by (unfold u64_modulus in *; lia). lia.
    - intros _. exists (rt_uses_allowed e). split; [done|]. intros m Hme Hlt.
      destruct (Hm _ Hme Hlt) as [<- ?]. rewrite Hme in Hu. by apply N.ltb_lt in Hu. }
  destruct (is_some _); [by wp_step|]. wp_step. apply wp_get. by wp_step.
Qed.

Lemma create_reg t t' allowed expiry ts tr env c :
  let cmd := CreateRegistrationToken t' allowed expiry ts in
  reg_row (reg_state t tr) (tget env c T_REG_TOKEN t) →
  wp (create_registration_token t' allowed expiry ts) env (λ r c',
    reg_row (reg_step t (reg_state t tr) (cmd, r)) (tget env c' T_REG_TOKEN t)) c.
Proof.
  intros cmd H. unfold create_registration_token. wp_step. apply wp_get.
  destruct (is_some _); [by wp_step|]. wp_step. apply wp_put. wp_step. unfold cmd, reg_step.
  rewrite tget_put by done. destruct (decide (t' = t)) as [->|Hne].
  - rewrite decide_True by done. eexists; split; [done|]. split; [done|]. intros m _ _.
    simpl. lia.
  - by rewrite decide_False by (by intros [_ ?]).
Qed.

Lemma delete_reg t t' tr env c :
  let cmd := DeleteRegistrationToken t' in
  reg_row (reg_state t tr) (tget env c T_REG_TOKEN t) →
  wp (delete_registration_token t') env (λ r c',
    reg_row (reg_step t (reg_state t tr) (cmd, r)) (tget env c' T_REG_TOKEN t)) c.
Proof.
  intros cmd H. unfold delete_registration_token, delete_existing, cmd, reg_step. wp_step.
  apply wp_get. destruct (tget env c T_REG_TOKEN t') eqn:Ht; simpl is_some; cbn iota.
  - wp_step. unfold ctx_delete, wp at 1. apply wp_ret. rewrite tget_delete by done.
    destruct (decide (t' = t)) as [->|Hne]; [by rewrite decide_True|].
    by rewrite decide_False by (by intros [_ ?]).
  - wp_step. case_decide as Hd; [by subst t'|done].
Qed.

Lemma registration_step sid t : log_step sid (λ _, True) (λ _ _, True) (reg_inv t).
Proof.
  intros tr cmd env c _ _ _ [Hr Heach].
  destruct (bool_decide (T_REG_TOKEN ∈ command_writes cmd)) eqn:Hw.
  - only_writers cmd Hw; simpl.
    + eapply wp_mono; [|by apply (register_reg t _ _ _ _ None tr)]. intros r c' [H1 _].
      split; [by rewrite reg_snoc|by apply each_snoc].
    + eapply wp_mono; [|by apply (register_reg t _ _ _ _ _ tr)]. intros r c' [H1 H2].
      split; [rewrite reg_snoc; exact H1|apply each_snoc; [done|exact H2]].
    + eapply wp_mono; [|by apply (create_reg t _ _ expiry_ts ts tr)]. intros r c' H1.
      split; [rewrite reg_snoc; exact H1|by apply each_snoc].
    + eapply wp_mono; [|by apply (delete_reg t _ tr)]. intros r c' H1.
      split; [rewrite reg_snoc; exact H1|by apply each_snoc].
  - eapply wp_mono; [|by apply (command_leaves _ T_REG_TOKEN)]. intros r c' Hk.
    assert (reg_state t (tr ++ [(cmd, r)]) = reg_state t tr) as Hm.
    { rewrite reg_snoc. by destruct cmd. }
    split; [by rewrite Hm, Hk|]. apply each_snoc; [done|]. by destruct cmd.
Qed.

Context `{HR : Raft}.
Context `{!Codec (option LogId), !Codec StoredMembership, !Codec N}.
Context `{!Codec RuntimeCommand, !Codec RuntimeResponse}.

(** C9 (machine.rs, [CreateLoginToken], [ConsumeLoginToken]): a login token
    logs in at most once, the account it was minted for, before it expires.
    In any log, however batched, every presentation of the token is refused,
    or it is the first since the token was last minted, in time, and answers
    with that minting's account. *)
Theorem login_token_single_use sid P e0 tr e h now r tr1 tr2 :
  user_log sid P e0 tr e → eget sid e0 T_LOGIN_TOKEN h = None →
  tr = tr1 ++ (ConsumeLoginToken h now, r) :: tr2 →
  r = InvalidGrant ∨ ∃ user_id expires_ts,
    minted h tr1 = Some (user_id, expires_ts) ∧ (now < expires_ts)%N ∧
    r = LoginTokenOwner user_id.
Proof.
  intros Hlog H0 Htr.
  assert (login_inv h tr (eget sid e)) as [_ Heach].
  { apply (user_log_every sid (login_inv h)) with P e0;
      [|by apply login_step|split; [by left|apply each_nil]|done].
    intros tr' f g Hfg [H1 H2]. split; [|done]. by rewrite <- Hfg. }
  by apply (Heach _ _ _ Htr).
Qed.
(** C10 (machine.rs, [apply_register]): a registration token pays for at most
    as many registrations as it was created for.  In any log, however
    batched, whenever a registration succeeds with the token, the token
    exists at that point and its limit had not been reached. *)
Theorem registration_token_limit sid P e0 tr e t user_id pw ts s tr1 tr2 :
  user_log sid P e0 tr e → eget sid e0 T_REG_TOKEN t = None →
  tr = tr1 ++ (RegisterWithToken user_id pw ts s (Some t), UOk) :: tr2 →
  within (reg_state t tr1).
Proof.
  intros Hlog H0 Htr.
  assert (reg_inv t tr (eget sid e)) as [_ Heach].
  { apply (user_log_every sid (reg_inv t)) with P e0;
      [|by apply registration_step|split; [done|apply each_nil]|done].
    intros tr' f g Hfg [H1 H2]. split; [|done]. by rewrite <- Hfg. }
  by apply (Heach _ _ _ Htr).
Qed.
End Safety.

(** A log of one batch: register, mint, redeem twice. *)
Definition demo_login_cmds : list UserCommand :=
  [Register "@u" None 1 None; CreateLoginToken "h" "@u" 50 10;
   ConsumeLoginToken "h" 20; ConsumeLoginToken "h" 21]%string.

Definition demo_login_trace : list (UserCommand * UserResponse) :=
  zip demo_login_cmds [UOk; UOk; LoginTokenOwner "@u"; InvalidGrant]%string.

Lemma login_token_single_use_witness :
  user_log user_shard (λ _, True) ∅ demo_login_trace (demo_end [demo_login_cmds]) ∧
  (InvalidGrant = InvalidGrant ∨ ∃ user_id expires_ts,
    minted "h" (take 3 demo_login_trace) = Some (user_id, expires_ts) ∧ (21 < expires_ts)%N ∧
    InvalidGrant = LoginTokenOwner user_id).
Proof.
  assert (user_log user_shard (λ _, True) ∅ demo_login_trace (demo_end [demo_login_cmds]))
    as Hlog by (apply demo_log; [by repeat constructor|vm_compute; reflexivity]).
  split; [exact Hlog|].
  by apply (login_token_single_use user_shard (λ _, True) ∅ demo_login_trace
    (demo_end [demo_login_cmds]) "h" 21 InvalidGrant (take 3 demo_login_trace) []).
Defined.

(** A token for one registration, presented twice in one batch. *)
Definition demo_reg_cmds : list UserCommand :=
  [CreateRegistrationToken "t" (Some 1%N) None 1; RegisterWithToken "@a" None 2 None (Some "t");
   RegisterWithToken "@b" None 3 None (Some "t")]%string.

Definition demo_reg_trace : list (UserCommand * UserResponse) :=
  zip demo_reg_cmds [UOk; UOk; InvalidToken].

Lemma registration_token_limit_witness :
  user_log user_shard (λ _, True) ∅ demo_reg_trace (demo_end [demo_reg_cmds]) ∧
  within (reg_state "t" (take 1 demo_reg_trace)).
Proof.
  assert (user_log user_shard (λ _, True) ∅ demo_reg_trace (demo_end [demo_reg_cmds]))
    as Hlog by (apply demo_log; [by repeat constructor|vm_compute; reflexivity]).
  split; [exact Hlog|].
  by apply (registration_token_limit user_shard (λ _, True) ∅ demo_reg_trace
    (demo_end [demo_reg_cmds]) "t" "@a" None 2 None (take 1 demo_reg_trace)
    (drop 2 demo_reg_trace)).
Defined.
