(* ===== verification/UserTerminal.v ===== *)
(** * Deactivation is terminal

    A fact about whole logs, however batched: once [Deactivate] has
    succeeded, no command brings the account back or mints a credential for
    it (saltator-userserver/src/machine.rs). *)

From Stdlib Require Import Ascii.
From S2P Require Import Prelude Bytes Store Codec Json Shard ShardFacts Track Demo.
From S2P Require Import UserTypes UserMachine UserKeys UserQueues UserApply.
From S2P Require Import UserLog UserDemo UserSafety.
From stdpp Require Import options.
Set Warnings "-register-all".

Section Terminal.
Context `{UC : UserCodecs, SJ : SerdeJson, UL : Utf8Lossy}.

Definition account_at (f : cells) (user_id : string) : option Account :=
  f T_ACCOUNT user_id ≫= dec.

(** The account row says [Deactivated]. *)
Definition dead (u : string) (f : cells) : Prop :=
  ∃ a, f T_ACCOUNT u = Some (enc a) ∧ ac_state a = Deactivated.

Definition deactivates (u : string) (x : UserCommand * UserResponse) : bool :=
  match x with (Deactivate u', UOk) => bool_decide (u' = u) | _ => false end.

(** What every later command on the account answers. *)
Definition refused (u : string) (tr : list (UserCommand * UserResponse))
    (x : UserCommand * UserResponse) : Prop :=
  existsb (deactivates u) tr = true →
  match x.1 with
  | Register u' _ _ _ | RegisterWithToken u' _ _ _ _ => u' = u → x.2 = UserExists
  | SetLocked u' _ | AdminSetPassword u' _ _ | LinkExternalId u' _ _
  | CreateLoginToken _ u' _ _ => u' = u → x.2 = InvalidState
  | ConsumeLoginToken _ _ => x.2 ≠ LoginTokenOwner u
  | _ => True
  end.

Lemma wp_with_account u k env (Q : UserResponse → ApplyState → Prop) c :
  (∀ a, account_at (tget env c) u = Some a → wp (k a) env Q c) →
  (account_at (tget env c) u = None → Q NotFound c) →
  wp (with_account u k) env Q c.
Proof.
  intros Hk Hn. unfold with_account, get_account. wp_step. apply wp_get_typed.
  intros [a|] Ho _; [by apply Hk|]. wp_step. by apply Hn.
Qed.

Lemma dead_account u f a : dead u f → account_at f u = Some a → ac_state a = Deactivated.
Proof.
  unfold account_at. intros (a' & Ha & Hs). rewrite Ha. simpl. rewrite dec_enc. congruence.
Qed.

(** Writing back an account that was read keeps [dead] if the new record
    does not revive it. *)
Lemma put_account_dead u u' a env c :
  dead u (tget env c) → (u' = u → ac_state a = Deactivated) →
  wp (put_account u' a) env (λ _ c', dead u (tget env c')) c.
Proof.
  intros (a0 & Ha & Hs) Hd. unfold put_account. apply wp_put. unfold dead.
  destruct (decide (u' = u)) as [->|Hne].
  - exists a. rewrite tget_put, decide_True by done. auto.
  - exists a0. rewrite tget_put, decide_False by (done || by intros [_ ?]). done.
Qed.

Lemma touches_dead {A} (m : app A) u env c :
  touches (λ t, t ≠ T_ACCOUNT) m → dead u (tget env c) →
  wp m env (λ _ c', dead u (tget env c')) c.
Proof.
  intros Hm (a & Ha & Hs). eapply wp_mono; [|apply Hm]. intros r c' H. exists a.
  rewrite H; [done|done|]. by intros Hn.
Qed.

Lemma touches_logout u keep : touches (λ t, t ≠ T_ACCOUNT) (logout_devices u keep).
Proof.
  apply (touches_mono (λ t, t ∈ command_writes (DeleteAllDevices u))).
  { intros t Ht ->. revert Ht. by apply (bool_decide_unpack _). }
  unfold logout_devices, delete_devices_except, delete_device, log_key_change,
    emit_user_change, put_key_change, user_devices, delete_hash, delete_prefix, get_device,
    app_iter; cbn [app_fold command_writes]. solve_touches.
Qed.

Lemma touches_restamp u st : touches (λ t, t ≠ T_ACCOUNT) (restamp_tokens u st).
Proof.
  unfold restamp_tokens, restamp_token, user_devices. solve_touches.
Qed.

(** A tail that answers [r] and leaves accounts alone. *)
Lemma dead_tail u (m : app ()) (r : UserResponse) env (Q : UserResponse → ApplyState → Prop) c :
  touches (λ t, t ≠ T_ACCOUNT) m → dead u (tget env c) →
  (∀ c', dead u (tget env c') → Q r c') → wp (m;; mret r) env Q c.
Proof.
  intros Hm Hd HQ. wp_step. eapply wp_mono; [|by apply (touches_dead m u)].
  intros [] c' H. wp_step. by apply HQ.
Qed.

Lemma dead_register u u' pw ts s tok env c :
  dead u (tget env c) →
  wp (apply_register u' pw ts s tok) env (λ r c', dead u (tget env c') ∧
    (u' = u → r = UserExists)) c.
Proof.
  intros Hd. destruct (decide (u' = u)) as [->|Hne].
  - destruct Hd as (a & Ha & Hs). unfold apply_register. wp_step. apply wp_get. wp_step.
    apply (wp_mono _ _ (λ taken c', taken = true ∧ c' = c)).
    { intros taken c' [-> ->]. wp_step. split; [by exists a|done]. }
    destruct (is_some _); [by wp_step|]. wp_step. apply wp_get. wp_step. by rewrite Ha.
  - apply (wp_mono _ _ (λ _ c', tget env c' T_ACCOUNT u = tget env c T_ACCOUNT u)).
    { intros r c' H. split; [|done]. destruct Hd as (a & Ha & Hs). exists a. by rewrite H. }
    clear Hd. unfold apply_register.
    assert (keeps (λ env' c', tget env' c' T_ACCOUNT u = tget env c T_ACCOUNT u)
      (apply_register u' pw ts s tok)) as Hk; [|by apply Hk].
    set (I := λ env' c', _).
    assert (∀ t k v, t ≠ T_ACCOUNT ∨ k ≠ u → (t < 256)%N → keeps I (ctx_put t k v)) as Hput.
    { intros t k v Hor Ht env' c' H. unfold I. apply wp_put. rewrite tget_put by done.
      rewrite decide_False; [done|]. intros [? ?]. naive_solver. }
    assert (∀ t k, t ≠ T_ACCOUNT → (t < 256)%N → keeps I (ctx_delete t k)) as Hdel.
    { intros t k Hor Ht env' c' H. unfold I, ctx_delete, wp. rewrite tget_delete by done.
      rewrite decide_False; [done|]. intros [? ?]. naive_solver. }
    unfold apply_register, put_account, write_session, get_device, delete_hash, account_state,
      get_account.
    solve_keeps; (apply Hput; [by (left + right)|done]) || (by apply Hdel).
Qed.

(** The shape the lifecycle commands share: a guard, an account update, and
    work on other tables. *)
Lemma dead_update u u' (guard : Account → bool) upd (m : app ()) env c :
  (∀ a, ac_state a = Deactivated → guard a = false → ac_state (upd a) = Deactivated) →
  touches (λ t, t ≠ T_ACCOUNT) m → dead u (tget env c) →
  wp (with_account u' (λ a, if guard a then mret InvalidState
                            else put_account u' (upd a);; m;; mret UOk)) env
    (λ r c', dead u (tget env c') ∧
      (u' = u → (∀ a, ac_state a = Deactivated → guard a = true) → r = InvalidState)) c.
Proof.
  intros Hupd Hm Hd. apply wp_with_account.
  - intros a Ha. assert (u' = u → ac_state a = Deactivated) as Hs.
    { intros ->. exact (dead_account u _ a Hd Ha). }
    cbv beta. destruct (guard a) eqn:Hg; [by wp_step|]. wp_step.
    eapply wp_mono; [|apply put_account_dead; [done|]; by auto].
    intros [] c1 H1. apply (dead_tail u); [done..|]. intros c' H'. split; [done|].
    intros Hu Hall. by rewrite Hall in Hg by auto.
  - intros Hn. split; [done|]. intros -> _. destruct Hd as (a & Ha & _).
    unfold account_at in Hn. rewrite Ha in Hn. simpl in Hn. by rewrite dec_enc in Hn.
Qed.

Lemma dead_link u u' p x env c :
  dead u (tget env c) →
  wp (link_external_id u' p x) env (λ r _, u' = u → r = InvalidState) c.
Proof.
  intros Hd. destruct (decide (u' = u)) as [->|]; [|by eapply wp_mono; [|apply wp_true]].
  unfold link_external_id. apply wp_with_account.
  - intros a Ha. rewrite (dead_account u _ a Hd Ha), bool_decide_true by done. by wp_step.
  - destruct Hd as (a & Ha & _). unfold account_at. rewrite Ha. simpl. by rewrite dec_enc.
Qed.

Lemma dead_create_login u u' h x now env c :
  dead u (tget env c) →
  wp (create_login_token h u' x now) env (λ r _, u' = u → r = InvalidState) c.
Proof.
  intros Hd. unfold create_login_token. wp_step.
  apply (wp_mono _ _ (λ _ c', dead u (tget env c'))).
  2: { apply touches_dead; [|done]. unfold stale_login_tokens. solve_touches. }
  intros stale c1 H1. wp_step. apply (wp_mono _ _ (λ _ c', dead u (tget env c'))).
  2: { apply touches_dead; [|done]. solve_touches. }
  intros [] c2 H2. apply wp_with_account.
  - intros a Ha. destruct (negb _) eqn:Hg; [by wp_step|]. wp_step. apply wp_put. wp_step.
    intros ->. by rewrite (dead_account u _ a H2 Ha) in Hg.
  - intros Hn ->. destruct H2 as (a & Ha & _). unfold account_at in Hn. rewrite Ha in Hn.
    simpl in Hn. by rewrite dec_enc in Hn.
Qed.

Lemma dead_consume u h now env c :
  dead u (tget env c) →
  wp (consume_login_token h now) env (λ r _, r ≠ LoginTokenOwner u) c.
Proof.
  intros Hd. unfold consume_login_token. wp_step. apply wp_get.
  destruct (tget env c _ _) as [raw|]; [|by wp_step]. wp_step.
  apply (wp_mono _ _ (λ _ c', dead u (tget env c'))); [|by apply touches_dead; [solve_touches|]].
  intros [] c1 H1. wp_step. apply wp_lift. intros e _. destruct (_ <=? _)%N; [by wp_step|].
  wp_step. unfold get_account. apply wp_get_typed. intros a Ha _. destruct a as [a|]; [|by wp_step].
  destruct (can_authenticate (ac_state a)) eqn:Hc; [|by wp_step]. wp_step. intros [= Hu].
  rewrite Hu in Ha. by rewrite (dead_account u _ a H1 Ha) in Hc.
Qed.

Lemma wp_and {A} (m : app A) env (Q1 Q2 : A → ApplyState → Prop) c :
  wp m env Q1 c → wp m env Q2 c → wp m env (λ a c', Q1 a c' ∧ Q2 a c') c.
Proof. unfold wp. by destruct (m env c) as [[]|]. Qed.

(** The commands that write accounts. *)
Lemma dead_writers u cmd env c :
  T_ACCOUNT ∈ command_writes cmd → dead u (tget env c) →
  wp (user_command cmd) env (λ r c', dead u (tget env c') ∧
    match cmd with
    | Register u' _ _ _ | RegisterWithToken u' _ _ _ _ => u' = u → r = UserExists
    | SetLocked u' _ | AdminSetPassword u' _ _ => u' = u → r = InvalidState
    | _ => True
    end) c.
Proof.
  intros Hw%(bool_decide_eq_true_2 _) Hd. only_writers cmd Hw; cbn [user_command];
    try by apply dead_register.
  - eapply wp_mono; [|apply (dead_update u user_id (λ _, false)); [done| |done]].
    + by intros r c' [H _].
    + destruct logout_others; [apply touches_logout|apply touches_ret].
  - eapply wp_mono; [|apply (dead_update u user_id (λ _, false)); [done| |done]].
    + by intros r c' [H _].
    + apply touches_logout.
  - eapply wp_mono; [|apply (dead_update u user_id (λ a, bool_decide (ac_state a = Deactivated))
      (λ a, acct_set_state a (if locked then Locked else Active))); [|apply touches_restamp|done]].
    + intros r c' [H1 H2]. split; [done|]. intros Hu. apply H2; [done|].
      intros a ->. done.
    + by intros a ->.
  - change (set_admin user_id admin) with (with_account user_id (λ a,
      if false then mret InvalidState
      else put_account user_id (acct_set_admin a admin);; mret ();; mret UOk)).
    eapply wp_mono; [|apply (dead_update u user_id (λ _, false)); [done|apply touches_ret|done]].
    by intros r c' [H _].
  - eapply wp_mono; [|apply (dead_update u user_id (λ a, bool_decide (ac_state a = Deactivated)));
      [by intros a ->| |done]].
    + intros r c' [H1 H2]. split; [done|]. intros Hu. apply H2; [done|]. by intros a ->.
    + destruct logout_devices; [apply touches_logout|apply touches_ret].
  - eapply wp_mono; [|apply (dead_update u user_id
      (λ a, negb (bool_decide (ac_state a = Deactivated))) acct_set_erased); [done| |done]].
    + by intros r c' [H _].
    + solve_touches.
Qed.

Lemma dead_command u tr cmd env c :
  dead u (tget env c) →
  wp (user_command cmd) env (λ r c', dead u (tget env c') ∧ refused u tr (cmd, r)) c.
Proof.
  intros Hd. unfold refused. destruct (decide (T_ACCOUNT ∈ command_writes cmd)) as [Hw|Hw].
  - pose proof Hw as Hb%(bool_decide_eq_true_2 _).
    eapply wp_mono; [|by apply dead_writers]. intros r c' [H1 H2]. split; [done|]. intros _.
    revert H2. by only_writers cmd Hb.
  - apply wp_and.
    + eapply wp_mono; [|apply (command_leaves cmd T_ACCOUNT)]; [|done|by apply bool_decide_eq_false].
      intros r c' H. destruct Hd as (a & Ha & Hs). exists a. by rewrite H.
    + apply (bool_decide_eq_false_2 _) in Hw.
      destruct cmd; vm_compute in Hw; try discriminate Hw; clear Hw; cbn [fst snd user_command];
        try (eapply wp_mono; [|apply wp_true]; by intros r c' _ _).
      * eapply wp_mono; [|by apply dead_link]. by intros r c' H _.
      * eapply wp_mono; [|by apply dead_create_login]. by intros r c' H _.
      * eapply wp_mono; [|by apply dead_consume]. by intros r c' H _.
Qed.

(** [Deactivate] that answers [Ok] leaves the account dead. *)
Lemma deactivate_dead u env c :
  wp (apply_deactivate u) env (λ r c', r = UOk → dead u (tget env c')) c.
Proof.
  unfold apply_deactivate. apply wp_with_account; [|done]. intros a _. wp_step.
  unfold put_account. apply wp_put. apply (dead_tail u); [apply touches_logout| |done].
  eexists. rewrite tget_put, decide_True by done. done.
Qed.

Definition terminal_inv (u : string) (tr : list (UserCommand * UserResponse)) (f : cells) : Prop :=
  (existsb (deactivates u) tr = true → dead u f) ∧ each (refused u) tr.

Lemma terminal_step sid u : log_step sid (λ _, True) (λ _ _, True) (terminal_inv u).
Proof.
  intros tr cmd env c _ _ _ [Hd Heach]. unfold terminal_inv.
  destruct (existsb (deactivates u) tr) eqn:Ht.
  - eapply wp_mono; [|apply (dead_command u tr cmd); by apply Hd].
    intros r c' [H1 H2]. split; [done|by apply each_snoc].
  - apply (wp_mono _ _ (λ r c', deactivates u (cmd, r) = true → dead u (tget env c'))).
    { intros r c' H. rewrite existsb_app, Ht. simpl. rewrite orb_false_r. split; [done|].
      apply each_snoc; [done|]. unfold refused. by rewrite Ht. }
    destruct cmd; try (eapply wp_mono; [|apply wp_true]; by intros).
    eapply wp_mono; [|apply deactivate_dead]. intros r c' H Hr. destruct r; try discriminate Hr.
    apply bool_decide_eq_true in Hr as <-. by apply H.
Qed.

Context `{HR : Raft}.
Context `{!Codec (option LogId), !Codec StoredMembership, !Codec N}.
Context `{!Codec RuntimeCommand, !Codec RuntimeResponse}.

(** C11 (machine.rs, [apply_deactivate] and the commands that read the
    account state): deactivation is terminal.  In any log, however batched,
    once [Deactivate] of an account has succeeded its row stays
    [Deactivated], the name cannot be registered again, it cannot be locked,
    unlocked, given a password by an administrator or an external identity,
    no login token is minted for it, and none minted earlier is honoured. *)
Theorem deactivation_terminal sid P e0 tr e u :
  user_log sid P e0 tr e → existsb (deactivates u) tr = true →
  dead u (eget sid e) ∧
  ∀ tr1 x tr2, tr = tr1 ++ x :: tr2 → refused u tr1 x.
Proof.
  intros Hlog Hd.
  assert (terminal_inv u tr (eget sid e)) as [H1 H2]; [|by auto].
  apply (user_log_every sid (terminal_inv u)) with P e0;
    [|by apply terminal_step|split; [done|apply each_nil]|done].
  intros tr' f g Hfg [H1 H2]. split; [|done]. intros Ht. destruct (H1 Ht) as (a & Ha & Hs).
  exists a. by rewrite <- Hfg.
Qed.
End Terminal.

Definition demo_terminal_cmds : list UserCommand :=
  [Register "@u" (Some "pw") 1 None; CreateLoginToken "h" "@u" 50 10; Deactivate "@u";
   ConsumeLoginToken "h" 20; SetLocked "@u" false; Register "@u" None 30 None]%string.

Definition demo_terminal_trace : list (UserCommand * UserResponse) :=
  zip demo_terminal_cmds [UOk; UOk; UOk; InvalidGrant; InvalidState; UserExists].

Lemma deactivation_terminal_witness :
  user_log user_shard (λ _, True) ∅ demo_terminal_trace (demo_end [demo_terminal_cmds]) ∧
  dead "@u" (eget user_shard (demo_end [demo_terminal_cmds])).
Proof.
  assert (user_log user_shard (λ _, True) ∅ demo_terminal_trace (demo_end [demo_terminal_cmds]))
    as Hlog by (apply demo_log; [by repeat constructor|vm_compute; reflexivity]).
  split; [exact Hlog|].
  apply (deactivation_terminal user_shard (λ _, True) ∅ demo_terminal_trace
    (demo_end [demo_terminal_cmds]) "@u" Hlog). reflexivity.
Defined.
