(* ===== verification/UserExternal.v ===== *)
(** * External identities

    The two tables of [LinkExternalId] and [UnlinkExternalId]
    (saltator-userserver/src/machine.rs) stay inverse to each other in any
    log, however batched. *)

From Stdlib Require Import Ascii.
From S2P Require Import Prelude Bytes Store Codec Json Shard ShardFacts Track Demo.
From S2P Require Import UserTypes UserMachine UserKeys UserQueues UserApply.
From S2P Require Import UserLog UserDemo UserSafety UserTerminal.
From stdpp Require Import options.
Set Warnings "-register-all,-clear-no-such-hyp".

Section External.
Context `{UC : UserCodecs, SJ : SerdeJson, UL : Utf8Lossy}.

(** Who holds a subject at a provider, and which subject an account holds. *)
Definition owner (f : cells) (p x : string) : option string :=
  f T_EXTERNAL_ID (external_key p x) ≫= dec.

Definition identity (f : cells) (u p : string) : option string :=
  f T_EXTERNAL_ID_USER (user_key u p) ≫= dec.

Definition inverse (f : cells) : Prop :=
  ∀ p x u, nul_free p = true → nul_free u = true →
    owner f p x = Some u ↔ identity f u p = Some x.

(** Names without NUL, the separator of composite keys. *)
Definition names_ok (cmd : UserCommand) : Prop :=
  match cmd with
  | LinkExternalId u p _ | UnlinkExternalId u p => nul_free u = true ∧ nul_free p = true
  | _ => True
  end.

(** The two functions through the writes of a link and an unlink. *)
Lemma pair_decide (a x a' x' : string) {X} (y z : X) :
  nul_free a = true → nul_free a' = true →
  (if decide (user_key a x = user_key a' x') then y else z) =
  (if decide (a = a' ∧ x = x') then y else z).
Proof. intros Ha Ha'. apply decide_ext. by apply user_key_inj. Qed.

Section Writes.
Context (env : ApplyEnv) (c : ApplyState) (a x a' x' : string).
Context (Ha : nul_free a = true) (Ha' : nul_free a' = true).

Lemma owner_put v :
  owner (tget env (with_wb (wb_put (ctx_key (shard env) T_EXTERNAL_ID (external_key a x))
    (enc v) (wb c)) c)) a' x' =
  if decide (a = a' ∧ x = x') then Some v else owner (tget env c) a' x'.
Proof using Type*.
  unfold owner. rewrite tget_put by done. rewrite <- pair_decide by done.
  unfold external_key. repeat case_decide; naive_solver (by rewrite ?dec_enc).
Qed.

Lemma owner_delete :
  owner (tget env (with_wb (wb_delete (ctx_key (shard env) T_EXTERNAL_ID (external_key a x))
    (wb c)) c)) a' x' =
  if decide (a = a' ∧ x = x') then None else owner (tget env c) a' x'.
Proof using Type*.
  unfold owner. rewrite tget_delete by done. rewrite <- pair_decide by done.
  unfold external_key. repeat case_decide; naive_solver.
Qed.

Lemma identity_put v :
  identity (tget env (with_wb (wb_put (ctx_key (shard env) T_EXTERNAL_ID_USER (user_key a x))
    (enc v) (wb c)) c)) a' x' =
  if decide (a = a' ∧ x = x') then Some v else identity (tget env c) a' x'.
Proof using Type*.
  unfold identity. rewrite tget_put by done. rewrite <- pair_decide by done.
  repeat case_decide; naive_solver (by rewrite ?dec_enc).
Qed.

Lemma identity_delete :
  identity (tget env (with_wb (wb_delete (ctx_key (shard env) T_EXTERNAL_ID_USER (user_key a x))
    (wb c)) c)) a' x' =
  if decide (a = a' ∧ x = x') then None else identity (tget env c) a' x'.
Proof using Type*.
  unfold identity. rewrite tget_delete by done. rewrite <- pair_decide by done.
  repeat case_decide; naive_solver.
Qed.
End Writes.

Lemma owner_other env c t k v p x :
  (t < 256)%N → t ≠ T_EXTERNAL_ID →
  owner (tget env (with_wb (wb_put (ctx_key (shard env) t k) v (wb c)) c)) p x =
    owner (tget env c) p x.
Proof. intros. unfold owner. by rewrite tget_put_other. Qed.

Lemma owner_other_delete env c t k p x :
  (t < 256)%N → t ≠ T_EXTERNAL_ID →
  owner (tget env (with_wb (wb_delete (ctx_key (shard env) t k) (wb c)) c)) p x =
    owner (tget env c) p x.
Proof. intros. unfold owner. by rewrite tget_delete_other. Qed.

Lemma identity_other env c t k v u p :
  (t < 256)%N → t ≠ T_EXTERNAL_ID_USER →
  identity (tget env (with_wb (wb_put (ctx_key (shard env) t k) v (wb c)) c)) u p =
    identity (tget env c) u p.
Proof. intros. unfold identity. by rewrite tget_put_other. Qed.

Lemma identity_other_delete env c t k u p :
  (t < 256)%N → t ≠ T_EXTERNAL_ID_USER →
  identity (tget env (with_wb (wb_delete (ctx_key (shard env) t k) (wb c)) c)) u p =
    identity (tget env c) u p.
Proof. intros. unfold identity. by rewrite tget_delete_other. Qed.

Lemma link_inverse u p x env c :
  nul_free u = true → nul_free p = true → inverse (tget env c) →
  wp (link_external_id u p x) env (λ _ c', inverse (tget env c')) c.
Proof.
  intros Hu Hp Hi. unfold link_external_id. apply wp_with_account; [|done]. intros a _.
  case_bool_decide; [by wp_step|]. wp_step. unfold get_string. apply wp_get_typed.
  intros own Ho _. change (owner (tget env c) p x = own) in Ho.
  destruct (o ← own; if bool_decide (o = u) then None else Some o) as [o'|] eqn:Hown; [by wp_step|].
  assert (own = None ∨ own = Some u) as Hown'.
  { destruct own as [o|]; simpl in Hown; [|by left]. case_bool_decide; [subst; by right|done]. }
  wp_step. apply wp_get_typed. intros prev Hprev _.
  change (identity (tget env c) u p = prev) in Hprev. wp_step.
  set (c1 := match prev with
             | Some x' => if decide (x' = x) then c
                 else with_wb (wb_delete (ctx_key (shard env) T_EXTERNAL_ID (external_key p x')) (wb c)) c
             | None => c end).
  apply (wp_mono _ _ (λ _ c', c' = c1)).
  2: { unfold c1. destruct prev as [x'|]; [|by wp_step]. by case_bool_decide; case_decide. }
  intros [] c2 ->. wp_step. apply wp_put. wp_step. apply wp_put. wp_step.
  intros p1 x1 u1 Hp1 Hu1. rewrite owner_other, owner_put by done.
  rewrite identity_put by done. rewrite identity_other by done.
  assert (owner (tget env c1) p1 x1 = if decide (p = p1 ∧ prev = Some x1 ∧ x1 ≠ x) then None
    else owner (tget env c) p1 x1) as Hc1.
  { unfold c1. destruct prev as [x'|]; [|by rewrite decide_False by naive_solver].
    destruct (decide (x' = x)) as [->|Hne]; [by rewrite decide_False by naive_solver|].
    rewrite owner_delete by done. apply decide_ext. naive_solver. }
  assert (identity (tget env c1) u1 p1 = identity (tget env c) u1 p1) as Hid.
  { unfold c1. destruct prev as [x'|]; [|done]. destruct (decide (x' = x)); [done|].
    by rewrite identity_other_delete. }
  rewrite Hc1, Hid. clear Hc1 Hid c1.
  pose proof (Hi p1 x1 u1 Hp1 Hu1) as Hi1. subst own prev.
  destruct (decide (p = p1)) as [<-|Hpp].
  2: { rewrite !(decide_False (P := _ ∧ _)) by naive_solver. done. }
  pose proof (Hi p x u1 Hp Hu1) as Hi2. pose proof (Hi p x1 u Hp Hu) as Hi3.
  destruct (decide (x = x1)) as [<-|Hxx]; destruct (decide (u = u1)) as [<-|Huu];
    repeat case_decide; naive_solver.
Qed.

Lemma unlink_inverse u p env c :
  nul_free u = true → nul_free p = true → inverse (tget env c) →
  wp (unlink_external_id u p) env (λ _ c', inverse (tget env c')) c.
Proof.
  intros Hu Hp Hi. unfold unlink_external_id, get_string. wp_step. apply wp_get_typed.
  intros o Ho _. change (identity (tget env c) u p = o) in Ho. destruct o as [x|]; [|by wp_step].
  wp_step. unfold ctx_delete at 1, wp at 1. wp_step. unfold ctx_delete, wp at 1. apply wp_ret.
  intros p1 x1 u1 Hp1 Hu1.
  rewrite owner_other_delete, owner_delete by done. rewrite identity_delete by done.
  rewrite identity_other_delete by done.
  pose proof (Hi p1 x1 u1 Hp1 Hu1) as Hi1. pose proof (Hi p x u1 Hp Hu1) as Hi3.
  pose proof (Hi p x1 u Hp Hu) as Hi4. pose proof (Hi p x u Hp Hu) as Hi5.
  repeat case_decide; naive_solver.
Qed.

Lemma external_step sid :
  log_step sid names_ok (λ _ _, True) (λ _, inverse).
Proof.
  intros tr cmd env c Hok _ _ Hi.
  destruct (bool_decide (T_EXTERNAL_ID ∈ command_writes cmd)) eqn:Hw.
  - only_writers cmd Hw; destruct Hok as [Hu Hp]; simpl.
    + by apply link_inverse.
    + by apply unlink_inverse.
  - assert (bool_decide (T_EXTERNAL_ID_USER ∈ command_writes cmd) = false) as Hw'.
    { clear Hok. destruct cmd; vm_compute in Hw; try discriminate Hw; reflexivity. }
    eapply wp_mono; [|apply wp_and; [apply (command_leaves cmd T_EXTERNAL_ID)|
      apply (command_leaves cmd T_EXTERNAL_ID_USER)]; done].
    intros r c' [H1 H2] p x u Hp Hu. unfold owner, identity. rewrite H1, H2. by apply Hi.
Qed.

Context `{HR : Raft}.
Context `{!Codec (option LogId), !Codec StoredMembership, !Codec N}.
Context `{!Codec RuntimeCommand, !Codec RuntimeResponse}.

(** External
    identities and accounts stay in bijection, provider by provider.  In any
    log, however batched, a subject at a provider belongs to an account
    exactly when the account holds that subject there, so that no subject
    logs into two accounts and relinking frees the subject it replaces. *)
Theorem external_ids_inverse sid e0 tr e :
  user_log sid (Forall (entry_ok names_ok)) e0 tr e → inverse (eget sid e0) →
  inverse (eget sid e).
Proof.
  intros Hlog H0. apply (user_log_any sid (λ _, inverse)) with names_ok
    (Forall (entry_ok names_ok)) e0 tr; [|apply external_step|done|done|done].
  intros _ f g Hfg Hi p x u Hp Hu. unfold owner, identity. rewrite <- !Hfg by done. by apply Hi.
Qed.
End External.

(** Linked, refused to another account, relinked, unlinked. *)
Definition demo_external_cmds : list UserCommand :=
  [Register "@a" None 1 None; Register "@b" None 1 None; LinkExternalId "@a" "idp" "x";
   LinkExternalId "@b" "idp" "x"; LinkExternalId "@a" "idp" "y"; LinkExternalId "@b" "idp" "x";
   UnlinkExternalId "@a" "idp"]%string.

Lemma external_ids_inverse_witness :
  (∃ tr, user_log user_shard (Forall (entry_ok names_ok)) ∅ tr (demo_end [demo_external_cmds]) ∧
    tr.*2 = [UOk; UOk; UOk; ExternalIdInUse "@a"; UOk; UOk; UOk]%string) ∧
  inverse (eget user_shard (demo_end [demo_external_cmds])).
Proof.
  assert (user_log user_shard (Forall (entry_ok names_ok)) ∅
    (zip demo_external_cmds [UOk; UOk; UOk; ExternalIdInUse "@a"; UOk; UOk; UOk]%string)
    (demo_end [demo_external_cmds])) as Hlog.
  { apply demo_log; [|vm_compute; reflexivity]. apply list.Forall_singleton.
    repeat (apply list.Forall_cons_2; [unfold entry_ok, user_cmd; cbn [payload];
      rewrite dec_enc; intros ? [= <-]; done|]). done. }
  split; [eexists; split; [exact Hlog|reflexivity]|].
  apply (external_ids_inverse user_shard ∅ _ _ Hlog).
  intros p x u _ _. by split.
Defined.
