(* ===== verification/UserCells.v ===== *)
(** * Tokens, devices and accounts as cells

    What the steps of the session commands do to the three tables
    (saltator-userserver/src/machine.rs): [delete_hash], [write_session],
    [restamp_tokens], and the scan of a user's devices. *)

From Stdlib Require Import Ascii.
From S2P Require Import Prelude Bytes Store Codec Json Shard ShardFacts Track Demo.
From S2P Require Import UserTypes UserMachine UserKeys UserQueues UserApply.
From S2P Require Import UserLog UserDemo UserSafety UserTerminal.
From stdpp Require Import options.
Set Warnings "-register-all,-clear-no-such-hyp".

Lemma user_key_nil u : user_key u EmptyString = u +:+ str1 b0.
Proof. done. Qed.

Lemma user_key_cat u x : user_key u x = user_key u EmptyString +:+ x.
Proof. unfold user_key. by rewrite str_app_assoc. Qed.

(** The scan [user\0 .. user\1] holds exactly the user's keys. *)
Lemma user_range u k :
  String.leb (user_key u EmptyString) k = true ∧ below (user_end u) k = true ↔
  ∃ x, k = user_key u x.
Proof.
  pose proof (between_prefix_end u b0 k ltac:(done)) as Hb.
  rewrite prefix_end_snoc in Hb by done. change (byte_of (N_of_ascii b0 + 1)) with b1 in Hb.
  unfold between in Hb. rewrite andb_true_iff in Hb.
  assert (below (user_end u) k = String.ltb k (u +:+ str1 b1)) as ->.
  { unfold below, user_end. by destruct u. }
  change (user_key u EmptyString) with (u +:+ str1 b0). rewrite Hb.
  split; intros [x ->]; exists x; by rewrite user_key_cat.
Qed.

Section Cells.
Context `{UC : UserCodecs, SJ : SerdeJson, UL : Utf8Lossy}.

Definition token_at (f : cells) (h : hash) : option TokenEntry := f T_TOKEN h ≫= dec.
Definition device_at (f : cells) (k : bytes) : option Device := f T_DEVICE k ≫= dec.

Definition token_key (t : TokenEntry) : bytes := user_key (tk_user_id t) (tk_device_id t).

(** ** Deleting a device *)

Lemma delete_hash_spec o env c :
  wp (delete_hash o) env (λ _ c',
    (∀ h, token_at (tget env c') h = if decide (o = Some h) then None else token_at (tget env c) h) ∧
    ∀ t k, (t < 256)%N → t ≠ T_TOKEN → tget env c' t k = tget env c t k) c.
Proof.
  destruct o as [h0|]; cbn [delete_hash].
  - unfold ctx_delete, wp. split.
    + intros h. unfold token_at. rewrite tget_delete by done.
      destruct (decide (h0 = h)) as [->|Hne].
      * by rewrite !decide_True.
      * by rewrite !decide_False by naive_solver.
    + intros t k Ht Hne. by apply tget_delete_other.
  - apply wp_ret. split; [|done]. intros h. by case_decide.
Qed.

Lemma in_hashes d h :
  h ∈ device_hashes d ↔ dv_access_token_hash d = Some h ∨ dv_refresh_token_hash d = Some h.
Proof.
  unfold device_hashes. rewrite elem_of_app.
  destruct (dv_access_token_hash d), (dv_refresh_token_hash d); simpl;
    rewrite ?list_elem_of_singleton, ?elem_of_nil; naive_solver.
Qed.

Lemma wp_unit_tail (m1 m2 : app ()) env Q c :
  wp (m1;; m2;; mret ()) env Q c → wp (m1;; m2) env Q c.
Proof.
  unfold wp, mbind, app_bind. destruct (m1 env c) as [[[] c1]|]; [|done].
  by destruct (m2 env c1) as [[[] c2]|].
Qed.

(** Both hashes of a device gone, everything else in place. *)
Lemma delete_hashes_spec {A} d (m : app A) env (Q : A → ApplyState → Prop) c :
  (∀ c', (∀ h, token_at (tget env c') h =
            if decide (h ∈ device_hashes d) then None else token_at (tget env c) h) →
         (∀ t k, (t < 256)%N → t ≠ T_TOKEN → tget env c' t k = tget env c t k) →
         wp m env Q c') →
  wp (delete_hash (dv_access_token_hash d);; delete_hash (dv_refresh_token_hash d);; m) env Q c.
Proof.
  intros HQ. wp_step. eapply wp_mono; [|apply delete_hash_spec]. intros [] c1 [T1 O1].
  wp_step. eapply wp_mono; [|apply delete_hash_spec]. intros [] c2 [T2 O2].
  apply HQ; [|intros; by rewrite O2, O1].
  intros h. rewrite T2, T1. destruct (decide (h ∈ device_hashes d)) as [Hin|Hin].
  - apply in_hashes in Hin. repeat case_decide; naive_solver.
  - rewrite in_hashes in Hin. by rewrite !decide_False by naive_solver.
Qed.
(** ** Puts, and writing a session *)

Lemma token_at_put env c h t h' :
  token_at (tget env (with_wb (wb_put (ctx_key (shard env) T_TOKEN h) (enc t) (wb c)) c)) h' =
    if decide (h = h') then Some t else token_at (tget env c) h'.
Proof.
  unfold token_at. rewrite tget_put by done. repeat case_decide; naive_solver (by rewrite ?dec_enc).
Qed.

Lemma device_at_put env c k d k' :
  device_at (tget env (with_wb (wb_put (ctx_key (shard env) T_DEVICE k) (enc d) (wb c)) c)) k' =
    if decide (k = k') then Some d else device_at (tget env c) k'.
Proof.
  unfold device_at. rewrite tget_put by done. repeat case_decide; naive_solver (by rewrite ?dec_enc).
Qed.

Lemma account_at_put env c u a u' :
  account_at (tget env (with_wb (wb_put (ctx_key (shard env) T_ACCOUNT u) (enc a) (wb c)) c)) u' =
    if decide (u = u') then Some a else account_at (tget env c) u'.
Proof.
  unfold account_at. rewrite tget_put by done. repeat case_decide; naive_solver (by rewrite ?dec_enc).
Qed.

Lemma token_at_other env c t k v h :
  (t < 256)%N → t ≠ T_TOKEN →
  token_at (tget env (with_wb (wb_put (ctx_key (shard env) t k) v (wb c)) c)) h =
    token_at (tget env c) h.
Proof. intros. unfold token_at. by rewrite tget_put_other. Qed.

Lemma device_at_other env c t k v k' :
  (t < 256)%N → t ≠ T_DEVICE →
  device_at (tget env (with_wb (wb_put (ctx_key (shard env) t k) v (wb c)) c)) k' =
    device_at (tget env c) k'.
Proof. intros. unfold device_at. by rewrite tget_put_other. Qed.

Lemma account_at_other env c t k v u :
  (t < 256)%N → t ≠ T_ACCOUNT →
  account_at (tget env (with_wb (wb_put (ctx_key (shard env) t k) v (wb c)) c)) u =
    account_at (tget env c) u.
Proof. intros. unfold account_at. by rewrite tget_put_other. Qed.

(** The session's tokens are the new ones and what is left of the others. *)
Definition session_tokens (s : SessionCmd) (st : AccountState) (f g : cells) : Prop :=
  ∃ new, (∀ h, h ∈ device_hashes new →
      h = sc_token_hash s ∨ sc_refresh_hash s = Some h) ∧
    (∀ h t, token_at g h = Some t →
     (h ∈ device_hashes new ∧ tk_user_id t = sc_user_id s ∧ tk_device_id t = sc_device_id s ∧
      tk_state t = st) ∨
     (token_at f h = Some t ∧
      ∀ p, device_at f (user_key (sc_user_id s) (sc_device_id s)) = Some p →
        h ∉ device_hashes p)) ∧
    (∀ k, device_at g k = if decide (user_key (sc_user_id s) (sc_device_id s) = k)
                          then Some new else device_at f k) ∧
    ∀ u, account_at g u = account_at f u.

Lemma write_session_tokens s env c :
  tget env c T_ACCOUNT (sc_user_id s) ≠ None →
  wp (write_session s) env (λ _ c', ∃ a, account_at (tget env c) (sc_user_id s) = Some a ∧
    session_tokens s (ac_state a) (tget env c) (tget env c')) c.
Proof.
  intros Ha. unfold write_session, get_device. wp_step. apply wp_get_typed. intros prev Hprev _.
  change (device_at (tget env c) (user_key (sc_user_id s) (sc_device_id s)) = prev) in Hprev.
  wp_step. apply (wp_mono _ _ (λ _ c',
    (∀ h t, token_at (tget env c') h = Some t → token_at (tget env c) h = Some t ∧
      ∀ p, prev = Some p → h ∉ device_hashes p) ∧
    ∀ t k, (t < 256)%N → t ≠ T_TOKEN → tget env c' t k = tget env c t k)).
  2: { destruct prev as [p|]; [|by wp_step].
       apply (wp_unit_tail _ _ env), delete_hashes_spec. intros c1 H1 H2. wp_step.
       split; [|done]. intros h t. rewrite H1. case_decide; [done|]. intros ?.
       split; [done|]. by intros p' [= <-]. }
  intros [] c1 [T1 O1].
  assert (∀ k, device_at (tget env c1) k = device_at (tget env c) k) as D1.
  { intros k. unfold device_at. by rewrite O1. }
  assert (∀ u, account_at (tget env c1) u = account_at (tget env c) u) as A1.
  { intros u. unfold account_at. by rewrite O1. }
  wp_step. apply wp_put. set (new := {| dv_display_name := _ |}).
  assert (∀ h, h ∈ device_hashes new ↔ h = sc_token_hash s ∨ sc_refresh_hash s = Some h) as Hnew.
  { intros h. rewrite in_hashes. unfold new; simpl. naive_solver. }
  wp_step. unfold account_state, get_account. wp_step. apply wp_get_typed. intros oa Hoa Hrow.
  match type of Hoa with tget env ?c2 _ _ ≫= _ = _ =>
    change (account_at (tget env c2) (sc_user_id s) = oa) in Hoa end.
  rewrite account_at_other, A1 in Hoa by done. rewrite tget_put_other, O1 in Hrow by done.
  destruct oa as [a|]; [|by destruct Hrow as [[? ?]|?]]. wp_step. wp_step. apply wp_put.
  destruct (sc_refresh_hash s) as [rh|] eqn:Hrh; [apply wp_put|wp_step]; exists a; (split; [done|]);
    exists new; (split_and!; [intros h Hin; apply Hnew in Hin; by rewrite ?Hrh| |
      intros k; rewrite !device_at_other by done; by rewrite device_at_put, D1|
      intros u; by rewrite !account_at_other, A1 by done]).
  - intros h t. rewrite !token_at_put. rewrite token_at_other by done.
    destruct (decide (rh = h)) as [->|]; [intros [= <-]; left; rewrite Hnew; auto|].
    destruct (decide (sc_token_hash s = h)) as [<-|]; [intros [= <-]; left; rewrite Hnew; auto|].
    intros [H1 H2]%T1. right. split; [done|]. intros p Hp. apply H2. by rewrite <- Hprev.
  - intros h t. rewrite token_at_put. rewrite token_at_other by done.
    destruct (decide (sc_token_hash s = h)) as [<-|]; [intros [= <-]; left; rewrite Hnew; auto|].
    intros [H1 H2]%T1. right. split; [done|]. intros p Hp. apply H2. by rewrite <- Hprev.
Qed.

(** Point reads and range reads of the device table agree. *)
Definition synced (env : ApplyEnv) (c : ApplyState) : Prop :=
  ∀ k, tget env c T_DEVICE k = ctx_engine env !! ctx_key (shard env) T_DEVICE k.

Lemma wp_user_devices u env (Q : list (bytes * bytes) → ApplyState → Prop) c :
  (∀ l, (∀ k v, (k, v) ∈ l ↔
     ctx_engine env !! ctx_key (shard env) T_DEVICE k = Some v ∧ ∃ x, k = user_key u x) →
   Q l c) → wp (user_devices u) env Q c.
Proof.
  intros HQ. unfold user_devices, wp, ctx_range.
  destruct (range_bounds _ _ _ _) as [s e] eqn:Hb.
  apply HQ. intros k v. rewrite <- user_range. rewrite <- elem_of_rows by done.
  unfold rows. by rewrite Hb.
Qed.

(** ** Restamping *)

(** The loop over hashes, with [rest] still to restamp. *)
Definition restamped (st : AccountState) (hashes : list hash) (f : cells)
    (rest : list hash) (g : cells) : Prop :=
  (∀ h, token_at g h = token_at f h ∨
        h ∈ hashes ∧ token_at g h = (λ t, with_state t st) <$> token_at f h) ∧
  (∀ h, h ∈ hashes → h ∉ rest → token_at g h = (λ t, with_state t st) <$> token_at f h) ∧
  ∀ t k, (t < 256)%N → t ≠ T_TOKEN → g t k = f t k.

Lemma restamp_step st hashes f h rest env c :
  h ∈ hashes → restamped st hashes f (h :: rest) (tget env c) →
  wp (restamp_token st h) env (λ _ c', restamped st hashes f rest (tget env c')) c.
Proof.
  intros Hin (R1 & R2 & R3). unfold restamp_token. wp_step. apply wp_get_typed.
  intros o Ho _. change (token_at (tget env c) h = o) in Ho. destruct o as [t|].
  - apply wp_put. split_and!.
    + intros h'. rewrite token_at_put. destruct (decide (h = h')) as [<-|]; [|apply R1].
      right. split; [done|]. destruct (R1 h) as [Hh|[_ Hh]]; rewrite Ho in Hh.
      * by rewrite <- Hh.
      * destruct (token_at f h); [|done]. by injection Hh as ->.
    + intros h' Hh' Hnin. rewrite token_at_put. destruct (decide (h = h')) as [<-|Hne].
      * destruct (R1 h) as [Hh|[_ Hh]]; rewrite Ho in Hh.
        -- by rewrite <- Hh.
        -- destruct (token_at f h); [|done]. by injection Hh as ->.
      * apply R2; [done|]. rewrite elem_of_cons. naive_solver.
    + intros t' k Ht Hne. rewrite tget_put_other by done. by apply R3.
  - wp_step. split_and!; [done| |done]. intros h' Hh' Hnin.
    destruct (decide (h' = h)) as [->|Hne].
    + destruct (R1 h) as [Hh|[_ Hh]]; rewrite Ho in Hh; rewrite Ho; [by rewrite <- Hh|done].
    + apply R2; [done|]. rewrite elem_of_cons. naive_solver.
Qed.

Lemma collect_hashes (l : list (bytes * bytes)) (hs0 : list hash) env c :
  wp (app_fold (λ (hashes : list hash) '((_, v) : bytes * bytes),
        d ← lift (dec_or (A := Device) "device decode" v);
        mret (hashes ++ device_hashes d)) hs0 l) env
    (λ hs c', c' = c ∧ ∀ h, h ∈ hs ↔ h ∈ hs0 ∨ ∃ k v d, (k, v) ∈ l ∧
      dec (A := Device) v = Some d ∧ h ∈ device_hashes d) c.
Proof.
  revert hs0. induction l as [|[k v] l IH]; intros hs0.
  { apply wp_ret. split; [done|]. intros h. split; [by left|].
    intros [?|(? & ? & ? & H%not_elem_of_nil & _)]; done. }
  cbn [app_fold]. wp_step. wp_step. apply wp_lift. intros d Hd.
  wp_step. eapply wp_mono; [|apply IH]. intros hs c' [-> Hhs]. split; [done|].
  assert (dec (A := Device) v = Some d) as Hdv.
  { unfold dec_or in Hd. destruct (dec v); [by injection Hd as ->|done]. }
  intros h. rewrite Hhs, elem_of_app. setoid_rewrite elem_of_cons. split.
  - intros [[?|?]|(k' & v' & d' & ? & ? & ?)]; [by left|right..].
    + exists k, v, d. auto.
    + exists k', v', d'. auto.
  - intros [?|(k' & v' & d' & [[= -> ->]|?] & Hd' & ?)]; [auto| |eauto 10].
    left. right. congruence.
Qed.

Lemma restamp_spec u st env c :
  synced env c →
  wp (restamp_tokens u st) env (λ _ c', ∃ hashes,
    (∀ h, h ∈ hashes ↔ ∃ x d, device_at (tget env c) (user_key u x) = Some d ∧
                              h ∈ device_hashes d) ∧
    restamped st hashes (tget env c) [] (tget env c')) c.
Proof.
  intros Hsync. unfold restamp_tokens. wp_step. apply wp_user_devices. intros l Hl. wp_step.
  apply (wp_mono _ _ (λ hs c', c' = c ∧ ∀ h, h ∈ hs ↔ ∃ k v d, (k, v) ∈ l ∧
    dec (A := Device) v = Some d ∧ h ∈ device_hashes d)).
  - intros hs c1 [-> Hhs]. apply (wp_mono _ _ (λ _ c', restamped st hs (tget env c) [] (tget env c'))).
    { intros [] c' H. exists hs. split; [|done]. intros h. rewrite Hhs. unfold device_at.
      setoid_rewrite Hsync. split.
      - intros (k & v & d & [Hk [x ->]]%Hl & Hd & Hin). exists x, d. by rewrite Hk.
      - intros (x & d & Hd & Hin). destruct (ctx_engine env !! _) as [v|] eqn:Hv; [|done].
        exists (user_key u x), v, d. split_and!; [|done..]. apply Hl. by eauto. }
    assert (∀ rest, (∀ h, h ∈ rest → h ∈ hs) → ∀ c', restamped st hs (tget env c) rest (tget env c') →
      wp (app_iter (restamp_token st) rest) env (λ _ c'', restamped st hs (tget env c) [] (tget env c'')) c')
      as Hloop.
    { intros rest. induction rest as [|h rest IH]; intros Hsub c' Hc'; [by apply wp_ret|].
      unfold app_iter. cbn [app_fold]. wp_step. eapply wp_mono; [|apply (restamp_step st hs (tget env c) h rest); [|done]].
      - intros [] c2 H2. apply IH; [|done]. intros h' Hh'. apply Hsub. by right.
      - apply Hsub. by left. }
    apply Hloop; [done|]. split_and!; [by left|done|done].
  - eapply wp_mono; [|apply collect_hashes]. intros hs c' [-> Hhs]. split; [done|]. intros h.
    rewrite Hhs. split; [|by right]. intros [Hn|?]; [by apply not_elem_of_nil in Hn|done].
Qed.

(** The rest of [delete_device], after the tokens and the device row. *)
Lemma device_leftovers u d k env c :
  let m := (ctx_delete T_DEVICE k;; ctx_delete T_DEVICE_KEYS (user_key u d);;
    app_iter (λ table,
      delete_prefix table (device_scoped_key u d EmptyString);; mret ())
      [T_ONE_TIME_KEY; T_TO_DEVICE; T_PUSHER; T_FALLBACK_KEY];; mret true) in
  wp m env (λ _ c', (∀ h, token_at (tget env c') h = token_at (tget env c) h) ∧
    (∀ x, tget env c' T_ACCOUNT x = tget env c T_ACCOUNT x) ∧
    ∀ k', tget env c' T_DEVICE k' = if decide (k = k') then None else tget env c T_DEVICE k') c.
Proof.
  intros m. unfold m. wp_step. unfold ctx_delete at 1, wp at 1.
  match goal with |- wp ?m env ?Q ?c2 =>
    apply (wp_mono m env (λ _ c', same_outside (λ t, t ∉ [T_TOKEN; T_ACCOUNT; T_DEVICE]) env c2 c'));
    [|assert (touches (λ t, t ∉ [T_TOKEN; T_ACCOUNT; T_DEVICE]) m) as Ht; [|apply (Ht env c2)]]
  end.
  - intros r c' Hsame. split_and!.
    + intros h. unfold token_at. rewrite Hsame by (done || by apply (bool_decide_unpack _)).
      by rewrite tget_delete_other.
    + intros x. rewrite Hsame by (done || by apply (bool_decide_unpack _)).
      by rewrite tget_delete_other.
    + intros k'. rewrite Hsame by (done || by apply (bool_decide_unpack _)).
      rewrite tget_delete by done. repeat case_decide; naive_solver.
  - unfold delete_prefix, app_iter; cbn [app_fold]. solve_touches.
Qed.

(** The three tables the mirror is about. *)
Definition same3 (f g : cells) : Prop :=
  ∀ t k, t ∈ [T_TOKEN; T_ACCOUNT; T_DEVICE] → g t k = f t k.

Lemma same3_token f g h : same3 f g → token_at g h = token_at f h.
Proof. intros H. unfold token_at. rewrite H; [done|list_member]. Qed.

Lemma same3_device f g k : same3 f g → device_at g k = device_at f k.
Proof. intros H. unfold device_at. rewrite H; [done|list_member]. Qed.

Lemma same3_account f g u : same3 f g → account_at g u = account_at f u.
Proof. intros H. unfold account_at. rewrite H; [done|list_member]. Qed.

Lemma outside_same3 P env c c' :
  (∀ t, t ∈ [T_TOKEN; T_ACCOUNT; T_DEVICE] → ¬ P t) →
  same_outside P env c c' → same3 (tget env c) (tget env c').
Proof.
  intros HP H t k Ht. apply H; [|by apply HP]. revert t Ht. apply list.Forall_forall.
  by apply (bool_decide_unpack _).
Qed.

End Cells.
