(* ===== verification/UserMirror.v ===== *)
(** * Tokens mirror the account state

    Authentication reads token rows alone (saltator-userserver), so every
    lifecycle command has to carry the account's state over to them.  In
    logs applied one entry at a time the rows stay exact; when a login and
    the deactivation share a batch, they do not. *)

From Stdlib Require Import Ascii.
From S2P Require Import Prelude Bytes Store Codec Json Shard ShardFacts Track Demo.
From S2P Require Import UserTypes UserMachine UserKeys UserQueues UserApply.
From S2P Require Import UserLog UserDemo UserSafety UserTerminal UserCells.
From stdpp Require Import options.
Set Warnings "-register-all,-clear-no-such-hyp".

Section Mirror.
Context `{UC : UserCodecs, SJ : SerdeJson, UL : Utf8Lossy}.

(** Every token carries the state of its account. *)
Definition mirrored (f : cells) : Prop :=
  ∀ h t, token_at f h = Some t →
    ∃ a, account_at f (tk_user_id t) = Some a ∧ tk_state t = ac_state a.

(** Tokens only go away. *)
Definition fewer (f g : cells) : Prop :=
  ∀ h t, token_at g h = Some t → token_at f h = Some t.

Definition accounts_same (f g : cells) : Prop := ∀ u, account_at f u = account_at g u.

Lemma fewer_mirrored f g : mirrored f → fewer f g → accounts_same f g → mirrored g.
Proof.
  intros Hm Hf Ha h t Ht. destruct (Hm h t) as (a & Hac & Hs); [by apply Hf|].
  exists a. by rewrite <- Ha.
Qed.

(** Which user and device each token hash was issued to; hashes of fresh
    random tokens are never issued twice. *)
Context (issued : hash → string * string).

(** Tokens are listed by their device, devices list their own hashes. *)
Record linked (f : cells) : Prop := {
  ln_token : ∀ h t, token_at f h = Some t →
    issued h = (tk_user_id t, tk_device_id t) ∧ nul_free (tk_user_id t) = true ∧
    ∃ d, device_at f (token_key t) = Some d ∧ h ∈ device_hashes d;
  ln_device : ∀ k d h, device_at f k = Some d → h ∈ device_hashes d →
    k = user_key (issued h).1 (issued h).2 ∧ nul_free (issued h).1 = true;
}.

(** ** Deleting a device keeps the links *)

Lemma linked_delete f g k d :
  linked f → device_at f k = Some d →
  (∀ h, token_at g h = if decide (h ∈ device_hashes d) then None else token_at f h) →
  (∀ k', device_at g k' = if decide (k = k') then None else device_at f k') →
  linked g ∧ fewer f g ∧ ∀ h t, token_at g h = Some t → token_key t ≠ k.
Proof.
  intros [Lt Ld] Hd Ht Hdev.
  assert (∀ h t, token_at g h = Some t → token_at f h = Some t ∧ h ∉ device_hashes d) as Hg.
  { intros h t. rewrite Ht. by case_decide. }
  assert (∀ h t, token_at g h = Some t → token_key t ≠ k) as Hne.
  { intros h t [Hf Hnin]%Hg Hk. destruct (Lt h t Hf) as (_ & _ & d' & Hd' & Hin).
    rewrite Hk, Hd in Hd'. by injection Hd' as ->. }
  split_and!; [|intros h t Hh; by apply Hg|done].
  split.
  - intros h t Hh. pose proof (Hne h t Hh). apply Hg in Hh as [Hh _].
    destruct (Lt h t Hh) as (Hi & Hu & d' & Hd' & Hin). split_and!; [done..|].
    exists d'. rewrite Hdev, decide_False by naive_solver. done.
  - intros k' d' h. rewrite Hdev. case_decide; [done|]. apply Ld.
Qed.

(** What a step that may delete devices does to tokens, devices, accounts. *)
Definition shrinks (f g : cells) : Prop :=
  linked g ∧ fewer f g ∧ (∀ u, g T_ACCOUNT u = f T_ACCOUNT u) ∧
  ∀ k, g T_DEVICE k = f T_DEVICE k ∨ g T_DEVICE k = None.

Lemma shrinks_refl f : linked f → shrinks f f.
Proof. intros H. split_and!; [done|by intros ??|done|auto]. Qed.

Lemma shrinks_trans f g h : shrinks f g → shrinks g h → shrinks f h.
Proof.
  intros (_ & F1 & A1 & D1) (L & F2 & A2 & D2). split_and!; [done| | |].
  - intros x t Ht. by apply F1, F2.
  - intros u. by rewrite A2.
  - intros k. destruct (D2 k) as [->| ->]; auto.
Qed.

Lemma delete_device_shrinks u d env c :
  linked (tget env c) →
  wp (delete_device u d) env (λ _ c', shrinks (tget env c) (tget env c') ∧
    ∀ h t, token_at (tget env c') h = Some t → token_key t ≠ user_key u d) c.
Proof.
  intros HL. unfold delete_device, get_device. wp_step. apply wp_get_typed.
  intros o Ho _. change (device_at (tget env c) (user_key u d) = o) in Ho.
  destruct o as [dev|].
  2: { wp_step. split; [by apply shrinks_refl|]. intros h t Ht Hk.
       destruct (ln_token _ HL h t Ht) as (_ & _ & d' & Hd' & _).
       rewrite Hk in Hd'. congruence. }
  apply delete_hashes_spec. intros c1 T1 O1.
  eapply wp_mono; [|apply device_leftovers]. intros r c' (Htk & Hac & Hdv).
  destruct (linked_delete (tget env c) (tget env c') (user_key u d) dev) as (H1 & H2 & H3);
    [done..| | |].
  - intros h. by rewrite Htk, T1.
  - intros k. unfold device_at. rewrite Hdv. case_decide; [done|]. by rewrite O1 by done.
  - split; [|done]. split_and!; [done..| |].
    + intros x. by rewrite Hac, O1 by done.
    + intros k. rewrite Hdv. case_decide; [by right|]. left. by rewrite O1 by done.
Qed.

Lemma linked_ext f g :
  (∀ h, token_at g h = token_at f h) → (∀ k, device_at g k = device_at f k) →
  linked f → linked g.
Proof.
  intros Ht Hd [L1 L2]. split.
  - intros h t. rewrite Ht. setoid_rewrite Hd. apply L1.
  - intros k d h. rewrite Hd. apply L2.
Qed.

Lemma same3_linked f g : same3 f g → linked f → linked g.
Proof. intros H. apply linked_ext; intros; [by apply same3_token|by apply same3_device]. Qed.

Lemma same3_shrinks f g h : same3 g h → shrinks f g → shrinks f h.
Proof.
  intros Hs (HL & HF & HA & HD). split_and!.
  - by apply (same3_linked g).
  - intros x t. rewrite (same3_token g h) by done. apply HF.
  - intros u. rewrite Hs by list_member. apply HA.
  - intros k. rewrite Hs by list_member. apply HD.
Qed.

(** ** Logging out *)

(** The loop of [delete_devices_except], with [rest] still to visit. *)
Definition logout_loop (u : string) (keep : option string) (f : cells) (env : ApplyEnv)
    (rest : list (bytes * bytes)) (_ : bool) (c : ApplyState) : Prop :=
  shrinks f (tget env c) ∧
  (∀ k v, (k, v) ∈ rest → ∃ x, k = user_key u x) ∧
  (keep = None → ∀ h t, token_at (tget env c) h = Some t → tk_user_id t = u →
     ∃ v, (token_key t, v) ∈ rest).

Lemma logout_loop_step u keep f env k v rest any c :
  logout_loop u keep f env ((k, v) :: rest) any c →
  wp (device_id ← lift (from_utf8 "device id not UTF-8"
        (str_drop (String.length (user_key u EmptyString)) k));
      if bool_decide (keep = Some device_id) then mret any
      else deleted ← delete_device u device_id; mret (any || deleted)) env
    (logout_loop u keep f env rest) c.
Proof.
  intros (H1 & Hks & H2). wp_step. apply wp_lift. intros d Hd.
  destruct (Hks k v) as [x ->]; [by left|].
  assert (d = x) as ->.
  { unfold from_utf8 in Hd. rewrite (user_key_cat u x), str_drop_app in Hd.
    destruct (utf8_ok x); [by injection Hd|done]. }
  assert (∀ k v, (k, v) ∈ rest → ∃ x, k = user_key u x) as Hks'.
  { intros k' v' Hin. apply (Hks k' v'). by right. }
  case_bool_decide as Hkeep; [wp_step; split_and!; [done..|by rewrite Hkeep]|].
  wp_step. eapply wp_mono; [|apply delete_device_shrinks; by destruct H1]. intros b c2 [H3 H4].
  wp_step. split; [by apply (shrinks_trans _ (tget env c))|]. split; [done|].
  intros Hk h t Ht Hu. destruct (H2 Hk h t) as [v' [Heq|Hin]%elem_of_cons].
  - destruct H3 as (_ & HF & _). by apply HF.
  - done.
  - injection Heq as Heq _. by apply H4 in Ht.
  - by exists v'.
Qed.

Lemma logout_shrinks u keep env c :
  synced env c → linked (tget env c) →
  wp (logout_devices u keep) env (λ _ c', shrinks (tget env c) (tget env c') ∧
    (keep = None → ∀ h t, token_at (tget env c') h = Some t → tk_user_id t ≠ u)) c.
Proof.
  intros Hsync HL. unfold logout_devices. wp_step.
  apply (wp_mono _ _ (logout_loop u keep (tget env c) env [])).
  - intros any c1 (H1 & _ & H2).
    assert (keep = None → ∀ h t, token_at (tget env c1) h = Some t → tk_user_id t ≠ u) as H3.
    { intros Hk h t Ht Hu. destruct (H2 Hk h t Ht Hu) as [v Hv]. by apply not_elem_of_nil in Hv. }
    destruct any; [|by wp_step].
    eapply wp_mono; [|apply (touches_log u (λ t, t = T_KEY_CHANGE)); done].
    intros [] c2 Hs. assert (same3 (tget env c1) (tget env c2)) as Hs3.
    { eapply outside_same3; [|exact Hs]. intros t Ht ->. revert Ht.
      by apply (bool_decide_unpack _). }
    split; [by apply (same3_shrinks _ (tget env c1))|].
    intros Hk h t. rewrite (same3_token _ _ _ Hs3). by apply H3.
  - unfold delete_devices_except. wp_step. apply wp_user_devices. intros l Hl.
    apply (wp_fold_rest _ _ (logout_loop u keep (tget env c) env)).
    + intros any [k v] rest c1. apply logout_loop_step.
    + split; [by apply shrinks_refl|]. split; [intros k v [_ ?]%Hl; done|].
      intros _ h t Ht <-. destruct (ln_token _ HL h t Ht) as (_ & _ & d & Hd & _).
      unfold device_at in Hd. rewrite Hsync in Hd.
      destruct (ctx_engine env !! _) as [v|] eqn:Hv; [|done]. exists v. apply Hl.
      split; [done|by eexists].
Qed.

(** ** Sessions *)

Definition session_ok (s : SessionCmd) : Prop :=
  nul_free (sc_user_id s) = true ∧ issued (sc_token_hash s) = (sc_user_id s, sc_device_id s) ∧
  ∀ rh, sc_refresh_hash s = Some rh → issued rh = (sc_user_id s, sc_device_id s).

Lemma session_linked s st f g :
  session_ok s → linked f → session_tokens s st f g → linked g.
Proof.
  intros (Hu & Hi1 & Hi2) [Lt Ld] (new & Hnew & Ht & Hd & _).
  assert (∀ h, h ∈ device_hashes new → issued h = (sc_user_id s, sc_device_id s)) as Hi.
  { intros h [->|Hr]%Hnew; auto. }
  split.
  - intros h t [(Hin & Hu' & Hd' & _)|[Hf Hp]]%Ht.
    + rewrite Hu', Hd'. split_and!; [by apply Hi|done|]. exists new. unfold token_key.
      by rewrite Hd, Hu', Hd', decide_True.
    + destruct (Lt h t Hf) as (H1 & H2 & dv & Hdv & Hin). split_and!; [done..|].
      exists dv. rewrite Hd. case_decide as Hk; [|done]. rewrite <- Hk in Hdv.
      by apply Hp in Hin.
  - intros k dv h. rewrite Hd. case_decide as Hk; [|by apply Ld].
    intros [= <-] Hin. rewrite (Hi h Hin). by subst k.
Qed.

Lemma session_mirrored s a f g :
  mirrored f → account_at f (sc_user_id s) = Some a →
  session_tokens s (ac_state a) f g → mirrored g.
Proof.
  intros Hm Ha (new & Hnew & Ht & Hd & Hac) h t [(Hin & -> & _ & Hs)|[Hf _]]%Ht.
  - exists a. by rewrite Hac.
  - destruct (Hm h t Hf) as (a' & Ha' & Hs). exists a'. by rewrite Hac.
Qed.

(** ** Locking *)

Lemma restamp_mirrored u st a env c :
  synced env c → nul_free u = true → linked (tget env c) →
  account_at (tget env c) u = Some a → ac_state a = st →
  (∀ h t, token_at (tget env c) h = Some t →
     ∃ a, account_at (tget env c) (tk_user_id t) = Some a ∧
       (tk_user_id t ≠ u → tk_state t = ac_state a)) →
  wp (restamp_tokens u st) env (λ _ c', linked (tget env c') ∧ mirrored (tget env c')) c.
Proof.
  intros Hsync Hu HL Ha Hst HM. eapply wp_mono; [|by apply restamp_spec].
  intros [] c' (hashes & Hhs & R1 & R2 & R3).
  assert (∀ k, device_at (tget env c') k = device_at (tget env c) k) as HD.
  { intros k. unfold device_at. by rewrite R3. }
  assert (∀ v, account_at (tget env c') v = account_at (tget env c) v) as HA.
  { intros v. unfold account_at. by rewrite R3. }
  assert (∀ h t, token_at (tget env c') h = Some t → ∃ t0, token_at (tget env c) h = Some t0 ∧
    tk_user_id t = tk_user_id t0 ∧ tk_device_id t = tk_device_id t0 ∧
    (tk_user_id t0 = u → tk_state t = st) ∧
    (tk_user_id t0 ≠ u → tk_state t = tk_state t0)) as Htk.
  { intros h t Ht. destruct (token_at (tget env c) h) as [t0|] eqn:Ht0.
    2: { destruct (R1 h) as [H|[_ H]]; rewrite H, Ht0 in Ht; done. }
    exists t0. split; [done|]. destruct (ln_token _ HL h t0 Ht0) as (Hi & Hn & d & Hd & Hin).
    destruct (decide (tk_user_id t0 = u)) as [Heq|Hne].
    - assert (h ∈ hashes) as Hh.
      { apply Hhs. exists (tk_device_id t0), d. split; [|done]. rewrite <- Heq. exact Hd. }
      rewrite (R2 h Hh), Ht0 in Ht by apply not_elem_of_nil. injection Ht as <-. done.
    - assert (h ∉ hashes) as Hh.
      { intros (x & d' & Hd' & Hin')%Hhs. destruct (ln_device _ HL _ _ _ Hd' Hin') as [Hk _].
        rewrite Hi in Hk. simpl in Hk. apply user_key_inj in Hk as [? _]; [congruence|done..]. }
      destruct (R1 h) as [H|[? _]]; [|done]. rewrite H, Ht0 in Ht. by injection Ht as <-. }
  split.
  - destruct HL as [L1 L2]. split.
    + intros h t Ht. destruct (Htk h t Ht) as (t0 & Ht0 & Hu0 & Hd0 & _).
      destruct (L1 h t0 Ht0) as (Hi & Hn & d & Hd & Hin). rewrite Hu0, Hd0.
      split_and!; [done..|]. exists d. rewrite HD. unfold token_key. by rewrite Hu0, Hd0.
    + intros k d h. rewrite HD. apply L2.
  - intros h t Ht. destruct (Htk h t Ht) as (t0 & Ht0 & Hu0 & _ & Hs1 & Hs2).
    rewrite HA, Hu0. destruct (HM h t0 Ht0) as (a0 & Ha0 & Hs0).
    destruct (decide (tk_user_id t0 = u)) as [Heq|Hne].
    + exists a. rewrite Heq, Hs1 by done. auto.
    + exists a0. rewrite Hs2 by done. auto.
Qed.

(** ** The commands *)

Definition exact (f : cells) : Prop := linked f ∧ mirrored f.

Lemma same3_exact f g : same3 f g → exact f → exact g.
Proof.
  intros Hs [HL HM]. split; [by apply (same3_linked f)|]. intros h t.
  rewrite (same3_token f g) by done. intros Ht. destruct (HM h t Ht) as (a & Ha & Hst).
  exists a. by rewrite (same3_account f g).
Qed.

Lemma shrinks_exact f g : exact f → shrinks f g → exact g.
Proof.
  intros [_ HM] (HL & HF & HA & _). split; [done|]. apply (fewer_mirrored f); [done..|].
  intros u. unfold account_at. by rewrite HA.
Qed.

(** Writing an account whose state does not change. *)
Lemma put_account_exact u a env c :
  exact (tget env c) →
  (∀ a0, account_at (tget env c) u = Some a0 → ac_state a0 = ac_state a) →
  wp (put_account u a) env (λ _ c', exact (tget env c') ∧
    account_at (tget env c') u = Some a ∧
    ∀ k, tget env c' T_DEVICE k = tget env c T_DEVICE k) c.
Proof.
  intros [HL HM] Hst. unfold put_account. apply wp_put. split_and!.
  - split.
    + apply (linked_ext (tget env c)); [|by intros; apply device_at_other|done].
      intros. by apply token_at_other.
    + intros h t. rewrite token_at_other by done. intros Ht.
      destruct (HM h t Ht) as (a0 & Ha0 & Hs0). rewrite account_at_put.
      case_decide as Hu; [|by exists a0]. exists a. split; [done|].
      rewrite Hs0. apply Hst. by rewrite Hu.
  - by rewrite account_at_put, decide_True.
  - intros k. by rewrite tget_put_other.
Qed.

Lemma touches_exact {A} (m : app A) env c :
  touches (λ t, t ∉ [T_TOKEN; T_ACCOUNT; T_DEVICE]) m → exact (tget env c) →
  wp m env (λ _ c', exact (tget env c')) c.
Proof.
  intros Hm He. eapply wp_mono; [|apply Hm]. intros r c' Hs.
  apply (same3_exact (tget env c)); [|done]. eapply outside_same3; [|exact Hs]. by intros t Ht ?.
Qed.

Lemma session_exact s env c :
  session_ok s → exact (tget env c) → tget env c T_ACCOUNT (sc_user_id s) ≠ None →
  wp (write_session s) env (λ _ c', exact (tget env c')) c.
Proof.
  intros Hok [HL HM] Ha. eapply wp_mono; [|by apply write_session_tokens].
  intros [] c' (a & Hac & Hs). split; [by eapply session_linked|by eapply session_mirrored].
Qed.

Lemma register_exact u pw ts s tok env c :
  (∀ s0, s = Some s0 → session_ok s0 ∧ sc_user_id s0 = u) →
  exact (tget env c) →
  wp (apply_register u pw ts s tok) env (λ _ c', exact (tget env c')) c.
Proof.
  intros Hs He. unfold apply_register. wp_step. apply wp_get. wp_step.
  apply (wp_mono _ _ (λ taken c', c' = c ∧ (taken = false → tget env c T_ACCOUNT u = None))).
  2: { destruct (is_some _); [by wp_step|]. wp_step. apply wp_get. wp_step. split; [done|].
       by destruct (tget env c T_ACCOUNT u). }
  intros taken c1 [-> Hn]. destruct taken; [by wp_step|]. specialize (Hn eq_refl). wp_step.
  apply (wp_mono _ _ (λ _ c', exact (tget env c') ∧ tget env c' T_ACCOUNT u = None)).
  2: { apply wp_and.
       - apply touches_exact; [solve_touches|done].
       - match goal with |- wp ?m _ _ _ => assert (touches (λ t, t ≠ T_ACCOUNT) m) as Ht
           by solve_touches; eapply wp_mono; [|apply (Ht env c)] end.
         intros ok c' H. rewrite H; [done|done|]. by intros Hne. }
  intros ok c1 [H1 Hn1]. destruct ok; cbn [negb]; [|by wp_step].
  wp_step. eapply wp_mono; [|apply put_account_exact; [done|]].
  2: { intros a0. unfold account_at. by rewrite Hn1. }
  intros [] c2 (H2 & Ha2 & _). wp_step. apply wp_put. wp_step.
  match goal with |- wp _ _ _ ?c => set (c3 := c) end.
  assert (exact (tget env c3) ∧ account_at (tget env c3) u =
    Some {| ac_password_hash := pw; ac_created_ts := ts; ac_state := Active;
            ac_admin := false; ac_erased := false |}) as [H3 Ha3].
  { split.
    - apply (same3_exact (tget env c2)); [|done]. intros t k Ht. unfold c3.
      revert t Ht. apply list.Forall_forall. repeat constructor; by rewrite tget_put_other.
    - unfold c3. by rewrite account_at_other. }
  apply (wp_mono _ _ (λ _ c', exact (tget env c'))); [intros [] c4 H4; by wp_step|].
  destruct s as [s|]; [|by wp_step]. destruct (Hs s eq_refl) as [Hok Hu].
  apply session_exact; [done|done|]. rewrite Hu. unfold account_at in Ha3.
  by destruct (tget env c3 T_ACCOUNT u).
Qed.

(** Account updates followed by a logout of some devices. *)
Lemma logout_exact u keep env c :
  synced env c → exact (tget env c) →
  wp (logout_devices u keep) env (λ _ c', exact (tget env c')) c.
Proof.
  intros Hs [HL HM]. eapply wp_mono; [|by apply logout_shrinks]. intros [] c' [H _].
  by apply (shrinks_exact (tget env c)).
Qed.

Lemma deactivate_exact u env c :
  synced env c → exact (tget env c) →
  wp (apply_deactivate u) env (λ _ c', exact (tget env c')) c.
Proof.
  intros Hs [HL HM]. unfold apply_deactivate. apply wp_with_account; [|done]. intros a Ha.
  wp_step. unfold put_account. apply wp_put. set (c1 := with_wb _ _).
  assert (linked (tget env c1)) as HL1.
  { apply (linked_ext (tget env c)); [|by intros; apply device_at_other|done].
    intros. by apply token_at_other. }
  wp_step. eapply wp_mono; [|apply (logout_shrinks u None); [|done]].
  2: { intros k. unfold c1. rewrite tget_put_other by done. apply Hs. }
  intros [] c2 [(HL2 & HF & HA & _) Hn]. wp_step. split; [done|].
  intros h t Ht. pose proof (Hn eq_refl h t Ht) as Hu. apply HF in Ht.
  unfold c1 in Ht. rewrite token_at_other in Ht by done. destruct (HM h t Ht) as (a0 & Ha0 & Hs0).
  exists a0. split; [|done]. rewrite <- Ha0. unfold account_at. rewrite HA. unfold c1.
  rewrite tget_put, decide_False by (done || naive_solver). done.
Qed.

Lemma lock_exact u locked env c :
  nul_free u = true → synced env c → exact (tget env c) →
  wp (set_locked u locked) env (λ _ c', exact (tget env c')) c.
Proof.
  intros Hu Hs [HL HM]. unfold set_locked. apply wp_with_account; [|done]. intros a Ha.
  case_bool_decide; [by wp_step|]. wp_step. unfold put_account. apply wp_put.
  set (c1 := with_wb _ _). wp_step. set (st := if locked then Locked else Active).
  apply (wp_mono _ _ (λ _ c', exact (tget env c'))); [intros [] c2 H2; by wp_step|].
  apply (restamp_mirrored u st (acct_set_state a st)); [|done| | |done|].
  - intros k. unfold c1. rewrite tget_put_other by done. apply Hs.
  - apply (linked_ext (tget env c)); [|by intros; apply device_at_other|done].
    intros. by apply token_at_other.
  - unfold c1. by rewrite account_at_put, decide_True.
  - intros h t. unfold c1. rewrite token_at_other by done. intros Ht.
    rewrite account_at_put. destruct (HM h t Ht) as (a0 & Ha0 & Hs0).
    case_decide as Hut; [eexists; split; [done|]; by rewrite Hut|by exists a0].
Qed.

(** A device row rewritten with the same tokens. *)
Lemma put_device_exact u d dev env c :
  exact (tget env c) →
  (∀ h, h ∈ device_hashes dev ↔ ∃ d0, device_at (tget env c) (user_key u d) = Some d0 ∧
                                      h ∈ device_hashes d0) →
  wp (put_device u d dev) env (λ _ c', exact (tget env c')) c.
Proof.
  intros [[L1 L2] HM] Hd. unfold put_device. apply wp_put. split; [split|].
  - intros h t. rewrite token_at_other by done. intros Ht.
    destruct (L1 h t Ht) as (Hi & Hu & d0 & Hd0 & Hin). split_and!; [done..|].
    rewrite device_at_put. case_decide as Hk; [|by exists d0].
    exists dev. split; [done|]. apply Hd. exists d0. by rewrite Hk.
  - intros k d' h. rewrite device_at_put. case_decide as Hk; [|by apply L2].
    intros [= <-] (d0 & Hd0 & Hin)%Hd. apply (L2 k d0); [by rewrite <- Hk|done].
  - intros h t. rewrite token_at_other by done. intros Ht. destruct (HM h t Ht) as (a & Ha & Hst).
    exists a. by rewrite account_at_other.
Qed.

Lemma rename_exact u d dev name env c :
  exact (tget env c) → device_at (tget env c) (user_key u d) = Some dev →
  wp (put_device u d (dev_set_name dev name);; log_key_change u;; mret UOk) env
    (λ _ c', exact (tget env c')) c.
Proof.
  intros He Hd. wp_step. eapply wp_mono; [|apply put_device_exact; [done|]].
  - intros [] c1 H1. wp_step. eapply wp_mono; [|apply touches_exact; [|done]].
    + intros [] c2 H2. by wp_step.
    + apply touches_log. list_member.
  - intros h. rewrite Hd. split; [intros Hin; by exists dev|by intros (? & [= <-] & ?)].
Qed.

Lemma upsert_exact u d name ts env c :
  exact (tget env c) →
  wp (upsert_device u d name ts) env (λ _ c', exact (tget env c')) c.
Proof.
  intros He. unfold upsert_device, get_device. wp_step. apply wp_get_typed.
  intros [dev|] Ho _; [by apply rename_exact|].
  wp_step. eapply wp_mono; [|apply put_device_exact; [done|]].
  - intros [] c1 H1. wp_step. eapply wp_mono; [|apply touches_exact; [|done]].
    + intros [] c2 H2. by wp_step.
    + apply touches_log. list_member.
  - intros h. unfold device_at. rewrite Ho. split; [by intros ?%not_elem_of_nil|by intros (? & ? & _)].
Qed.

(** Account commands that keep the state and may log devices out. *)
Lemma credential_exact u guard upd (m : app ()) env c :
  (∀ a, ac_state (upd a) = ac_state a) →
  synced env c → exact (tget env c) →
  (∀ c', synced env c' → exact (tget env c') → wp m env (λ _ c', exact (tget env c')) c') →
  wp (with_account u (λ a, if guard a : bool then mret InvalidState
                           else put_account u (upd a);; m;; mret UOk)) env
    (λ _ c', exact (tget env c')) c.
Proof.
  intros Hu Hs He Hm. apply wp_with_account; [|done]. intros a Ha.
  destruct (guard a); [by wp_step|]. wp_step.
  eapply wp_mono; [|apply put_account_exact; [done|]].
  - intros [] c1 (H1 & _ & Hd). wp_step. eapply wp_mono; [|apply Hm; [|done]].
    + intros [] c2 H2. by wp_step.
    + intros k. rewrite Hd. apply Hs.
  - intros a0 Ha0. rewrite Hu. congruence.
Qed.

(** Hashes are issued to the device they are stored for, names hold no NUL. *)
Definition mirror_ok (cmd : UserCommand) : Prop :=
  match cmd with
  | Register u _ _ s | RegisterWithToken u _ _ s _ =>
      ∀ s0, s = Some s0 → session_ok s0 ∧ sc_user_id s0 = u
  | CreateSession s | RefreshSession _ s => session_ok s
  | SetLocked u _ => nul_free u = true
  | _ => True
  end.

Lemma session_commands_exact cmd env c :
  mirror_ok cmd → exact (tget env c) →
  match cmd with CreateSession _ | RefreshSession _ _ => True | _ => False end →
  wp (user_command cmd) env (λ _ c', exact (tget env c')) c.
Proof.
  intros Hok He Hcmd. destruct cmd; try done; simpl in *.
  - unfold create_session. wp_step. apply wp_get.
    destruct (tget env c T_ACCOUNT _) as [b|] eqn:Hb; cbn [is_some]; [|by wp_step].
    wp_step. eapply wp_mono; [|apply session_exact; [done..|by rewrite Hb]].
    intros [] c1 H1. by wp_step.
  - unfold refresh_session. wp_step. apply wp_get_typed. intros o Ho _.
    change (token_at (tget env c) old_refresh_hash = o) in Ho.
    destruct o as [t|]; [|by wp_step]. destruct (is_refresh _ && _ && _) eqn:Hv; [|by wp_step].
    apply andb_true_iff in Hv as [[_ Hu%bool_decide_eq_true]%andb_true_iff _].
    wp_step. eapply wp_mono; [|apply session_exact; [done..|]]; [intros [] c1 H1; by wp_step|].
    destruct He as [_ HM]. destruct (HM _ _ Ho) as (a & Ha & _). rewrite <- Hu.
    unfold account_at in Ha. by destruct (tget env c T_ACCOUNT _).
Qed.

Lemma exact_command cmd env c :
  mirror_ok cmd → synced env c → exact (tget env c) →
  wp (user_command cmd) env (λ _ c', exact (tget env c')) c.
Proof.
  intros Hok Hs He.
  destruct (bool_decide (T_TOKEN ∈ command_writes cmd ∨ T_ACCOUNT ∈ command_writes cmd ∨
    T_DEVICE ∈ command_writes cmd)) eqn:Hw.
  - only_writers cmd Hw; try (by apply session_commands_exact); cbn [user_command].
    + by apply register_exact.
    + unfold delete_one_device. wp_step.
      eapply wp_mono; [|apply delete_device_shrinks; by destruct He].
      intros b c1 [H1 _]. apply (shrinks_exact _ (tget env c1)) in H1; [|done].
      destruct b; [|by wp_step]. wp_step. eapply wp_mono; [|apply touches_exact; [|done]].
      * intros [] c2 H2. by wp_step.
      * apply touches_log. list_member.
    + unfold then_ok. wp_step. eapply wp_mono; [|by apply logout_exact]. intros [] c1 H1. by wp_step.
    + unfold set_device_name, get_device. wp_step. apply wp_get_typed.
      intros [dev|] Ho _; [by apply rename_exact|by wp_step].
    + by apply upsert_exact.
    + apply (credential_exact user_id (λ _, false)); [done..|]. intros c' Hs' He'.
      destruct logout_others; [by apply logout_exact|by wp_step].
    + by apply deactivate_exact.
    + by apply lock_exact.
    + change (set_admin user_id admin) with (with_account user_id (λ a,
        if false then mret InvalidState
        else put_account user_id (acct_set_admin a admin);; mret ();; mret UOk)).
      apply (credential_exact user_id (λ _, false)); [done..|]. intros c' Hs' He'. by wp_step.
    + apply (credential_exact user_id); [done..|]. intros c' Hs' He'.
      destruct logout_devices; [by apply logout_exact|by wp_step].
    + apply (credential_exact user_id (λ a, negb (bool_decide (ac_state a = Deactivated)))
        acct_set_erased); [done..|]. intros c' Hs' He'. apply touches_exact; [solve_touches|done].
    + by apply register_exact.
  - apply touches_exact; [|done]. eapply touches_mono; [|apply command_touches].
    intros t Ht Hin. apply bool_decide_eq_false in Hw. apply Hw.
    repeat (apply elem_of_cons in Hin as [->|Hin]; [tauto|]). by apply not_elem_of_nil in Hin.
Qed.

Context `{HR : Raft}.
Context `{!Codec (option LogId), !Codec StoredMembership, !Codec N}.
Context `{!Codec RuntimeCommand, !Codec RuntimeResponse}.

(** A log applied one entry per batch keeps both. *)
Lemma log_exact sid e0 tr e :
  user_log sid (λ l, length l ≤ 1 ∧ Forall (entry_ok mirror_ok) l) e0 tr e →
  exact (eget sid e0) → exact (eget sid e).
Proof.
  intros Hlog H0. apply (user_log_single sid (λ _, exact)) with mirror_ok
    (λ l, length l ≤ 1 ∧ Forall (entry_ok mirror_ok) l) e0 tr; [| |by intros l|done|done].
  - intros _ f g Hfg. apply same3_exact. intros t k Ht. symmetry. apply Hfg.
    revert t Ht. apply list.Forall_forall. repeat constructor; by vm_compute.
  - intros tr' cmd env c Hok _ Hwb He. apply exact_command; [done| |done].
    intros k. unfold tget, view. by rewrite Hwb.
Qed.

(** C12 (machine.rs, [write_session], [restamp_tokens], [apply_deactivate]):
    the token rows, which are all that authentication reads, carry the state
    of their accounts.  In any log whose entries are applied one per batch,
    from a state where this holds, every token names an account that exists
    and the state written on it is that account's: locking and unlocking
    reach every token of the account and no other, and a deactivated account
    has no token that authenticates. *)
Theorem tokens_mirror_accounts sid e0 tr e :
  user_log sid (λ l, length l ≤ 1 ∧ Forall (entry_ok mirror_ok) l) e0 tr e →
  exact (eget sid e0) → exact (eget sid e).
Proof. apply log_exact. Qed.
End Mirror.

Definition demo_session (user_id device_id : string) (h : hash) : SessionCmd := {|
  sc_user_id := user_id; sc_device_id := device_id; sc_display_name := None;
  sc_token_hash := h; sc_refresh_hash := None; sc_expires_ts := None; sc_ts := 5 |}.

(** Two users log in; one is locked, the other deactivated. *)
Definition demo_mirror_cmds : list UserCommand :=
  [Register "@a" None 1 None; Register "@b" None 1 None;
   CreateSession (demo_session "@a" "A" "ha"); CreateSession (demo_session "@b" "B" "hb");
   SetLocked "@a" true; Deactivate "@b"]%string.

Definition demo_issued (h : hash) : string * string :=
  if bool_decide (h = "ha"%string) then ("@a", "A")%string else ("@b", "B")%string.

Lemma tokens_mirror_accounts_witness :
  (∃ tr, user_log user_shard (λ l, length l ≤ 1 ∧ Forall (entry_ok (mirror_ok demo_issued)) l) ∅ tr
    (demo_end (map (λ c, [c]) demo_mirror_cmds))) ∧
  exact demo_issued (eget user_shard (demo_end (map (λ c, [c]) demo_mirror_cmds))) ∧
  tk_state <$> token_at (eget user_shard (demo_end (map (λ c, [c]) demo_mirror_cmds))) "ha"
    = Some Locked.
Proof.
  assert (user_log user_shard (λ l, length l ≤ 1 ∧ Forall (entry_ok (mirror_ok demo_issued)) l) ∅
    (zip demo_mirror_cmds (replicate 6 UOk)) (demo_end (map (λ c, [c]) demo_mirror_cmds))) as Hlog.
  { apply demo_log; [|vm_compute; reflexivity]. simpl.
    repeat (apply list.Forall_cons_2; [split; [simpl; lia|]; apply list.Forall_singleton;
      unfold entry_ok, user_cmd; cbn [payload]; rewrite dec_enc; intros ? [= <-]; simpl;
      unfold session_ok; simpl; naive_solver|]). done. }
  split; [by eexists|]. split; [|vm_compute; reflexivity].
  apply (tokens_mirror_accounts demo_issued user_shard ∅ _ _ Hlog).
  split; [split|]; intros ??; try intros ?; by intros.
Defined.

(** A login and a deactivation, in two batches and in one. *)
Definition outrun (batches : list (list UserCommand)) : option AccountState * option AccountState :=
  let f := eget user_shard (demo_end batches) in
  (ac_state <$> account_at f "@a", tk_state <$> token_at f "h")%string.

(** It is not fine.  When
    a login and the deactivation of its account are applied in one batch,
    the deactivation's scan misses the device the login staged, and an
    [Active] token outlives the deactivated account, authenticating it; the
    same entries applied one by one leave no token. *)
Theorem login_outruns_deactivation :
  let login := CreateSession (demo_session "@a" "A" "h") in
  outrun [[Register "@a" None 1 None]; [login]; [Deactivate "@a"]]%string
    = (Some Deactivated, None) ∧
  outrun [[Register "@a" None 1 None]; [login; Deactivate "@a"]]%string
    = (Some Deactivated, Some Active).
Proof. split; vm_compute; reflexivity. Qed.
