(* ===== verification/CoreEvent.v ===== *)
(** * Text

    What the program uses of Rust's [char] and [str]: decoding to code
    points, [trim], and [str::parse::<i64>]. *)

From Stdlib Require Import Ascii.
From S2P Require Import Prelude Json.
From stdpp Require Import options.

Definition cont (c : ascii) : N := N.land (N_of_ascii c) 63.

(** [s.chars()], on valid UTF-8: the leading byte says how many follow. *)
Fixpoint chars (s : string) : list N :=
  match s with
  | EmptyString => []
  | String a s1 =>
      let n := N_of_ascii a in
      if (n <? 192)%N then n :: chars s1
      else match s1 with
      | EmptyString => [n]
      | String b s2 =>
          if (n <? 224)%N then N.lor (N.shiftl (N.land n 31) 6) (cont b) :: chars s2
          else match s2 with
          | EmptyString => [n]
          | String c s3 =>
              if (n <? 240)%N
              then N.lor (N.shiftl (N.land n 15) 12) (N.lor (N.shiftl (cont b) 6) (cont c))
                     :: chars s3
              else match s3 with
              | EmptyString => [n]
              | String d s4 =>
                  N.lor (N.shiftl (N.land n 7) 18)
                    (N.lor (N.shiftl (cont b) 12) (N.lor (N.shiftl (cont c) 6) (cont d)))
                    :: chars s4
              end
          end
      end
  end.

(** [char::is_whitespace]: the Unicode White_Space property. *)
Definition is_whitespace (c : N) : bool :=
  ((9 <=? c) && (c <=? 13) || (c =? 32) || (c =? 133) || (c =? 160) || (c =? 5760)
   || (8192 <=? c) && (c <=? 8202) || (c =? 8232) || (c =? 8233) || (c =? 8239)
   || (c =? 8287) || (c =? 12288))%N.

Fixpoint drop_whitespace (l : list N) : list N :=
  match l with
  | [] => []
  | c :: l' => if is_whitespace c then drop_whitespace l' else l
  end.

(** [s.trim()] *)
Definition trim (l : list N) : list N :=
  rev (drop_whitespace (rev (drop_whitespace l))).

Definition i64_min : Z := -9223372036854775808.
Definition i64_max : Z := 9223372036854775807.

(** Digits, accumulated with the sign so that overflow is seen either way. *)
Fixpoint digits (sign : Z) (acc : Z) (l : list N) : option Z :=
  match l with
  | [] => Some acc
  | c :: l =>
      if ((48 <=? c) && (c <=? 57))%N then
        let acc := (acc * 10 + sign * Z.of_N (c - 48))%Z in
        if ((i64_min <=? acc) && (acc <=? i64_max))%Z then digits sign acc l else None
      else None
  end.

(** [s.parse::<i64>().ok()]: an optional sign and at least one digit. *)
Definition parse_i64 (l : list N) : option Z :=
  match l with
  | [] => None
  | c :: l' =>
      if (c =? 43)%N then match l' with [] => None | _ => digits 1 0 l' end
      else if (c =? 45)%N then match l' with [] => None | _ => digits (-1) 0 l' end
      else digits 1 0 l
  end.

Example parse_samples :
  parse_i64 (trim (chars " +42 ")) = Some 42%Z ∧ parse_i64 (chars "-9223372036854775808") = Some i64_min
  ∧ parse_i64 (chars "9223372036854775808") = None ∧ parse_i64 (chars "-") = None.
Proof. split_and!; vm_compute; reflexivity. Qed.

(** * Room versions and events (saltator-core)

    [RoomVersion] and its gates (src/room_version.rs), the [Event] view of a
    PDU (src/event.rs), and what the crate takes from ruma. *)

Inductive RoomVersion : Type := V8 | V9 | V10 | V11 | V12.

#[export] Instance room_version_eq_dec : EqDecision RoomVersion.
Proof. solve_decision. Defined.

(** The derived order is the declaration order. *)
Definition version_number (v : RoomVersion) : N :=
  match v with V8 => 8 | V9 => 9 | V10 => 10 | V11 => 11 | V12 => 12 end.

Definition version_le (a b : RoomVersion) : bool := (version_number a <=? version_number b)%N.

Definition DEFAULT : RoomVersion := V12.

Definition parse (s : string) : option RoomVersion :=
  if bool_decide (s = "8"%string) then Some V8
  else if bool_decide (s = "9"%string) then Some V9
  else if bool_decide (s = "10"%string) then Some V10
  else if bool_decide (s = "11"%string) then Some V11
  else if bool_decide (s = "12"%string) then Some V12
  else None.

Definition version_str (v : RoomVersion) : string :=
  match v with
  | V8 => "8" | V9 => "9" | V10 => "10" | V11 => "11" | V12 => "12"
  end%string.

Definition ALL : list RoomVersion := [V8; V9; V10; V11; V12].

Definition room_id_is_create_event_id (v : RoomVersion) : bool := version_le V12 v.
Definition strict_byte_limits (v : RoomVersion) : bool := version_le V11 v.
Definition create_event_in_auth_events (v : RoomVersion) : bool := version_le v V11.
Definition creator_in_create_content (v : RoomVersion) : bool := version_le v V10.
Definition lenient_power_levels (v : RoomVersion) : bool := version_le v V9.
Definition privileged_creators (v : RoomVersion) : bool := version_le V12 v.

Inductive StateResVersion : Type := ResV2 | ResV2_1.

#[export] Instance state_res_version_eq_dec : EqDecision StateResVersion.
Proof. solve_decision. Defined.

Definition state_res (v : RoomVersion) : StateResVersion :=
  match v with V8 | V9 | V10 | V11 => ResV2 | V12 => ResV2_1 end.

(** ** Events *)

Record Event : Type := {
  event_id : string;
  room_id : option string;
  sender : string;
  event_type : string;
  state_key : option string;
  content : json_object;
  origin_server_ts : N;
  auth_events : list string;
  prev_events : list string;
}.

Definition is_state (e : Event) : bool := is_some (state_key e).

(** ** ruma

    Identifier grammar, canonical-JSON signing and ed25519 are ruma's. *)
Class Ruma := {
  user_id_ok : string → bool;
  event_id_ok : string → bool;
  user_server : string → string;
  room_server : string → option string;
  json_for_signing : json_object → option bytes;
  base64_parse : string → option bytes;
  ed25519_verify : bytes → bytes → bytes → bool;
}.

(** ** Fields of content objects *)

Definition str_prop (o : json_object) (key : string) : option string := obj_get key o ≫= as_str.

Definition obj_prop (o : json_object) (key : string) : option json_object :=
  match obj_get key o with Some (JObject x) => Some x | _ => None end.

Definition is_str (s : string) (o : option string) : bool := bool_decide (o = Some s).
