(* ===== verification/PowerLevels.v ===== *)
(** * Power levels (saltator-core/src/power_levels.rs) *)

From Stdlib Require Import Ascii.
From S2P Require Import Prelude Json CoreEvent.
From stdpp Require Import options.

Inductive PowerLevel : Type := PInt (i : Z) | PInfinite.

#[export] Instance power_level_eq_dec : EqDecision PowerLevel.
Proof. solve_decision. Defined.

(** [impl Ord for PowerLevel] *)
Definition power_cmp (a b : PowerLevel) : comparison :=
  match a, b with
  | PInfinite, PInfinite => Eq
  | PInfinite, PInt _ => Gt
  | PInt _, PInfinite => Lt
  | PInt x, PInt y => Z.compare x y
  end.

Definition power_lt (a b : PowerLevel) : bool :=
  match power_cmp a b with Lt => true | _ => false end.
Definition power_le (a b : PowerLevel) : bool :=
  match power_cmp a b with Gt => false | _ => true end.

(** [satisfies]: [self >= Int(level)] *)
Definition satisfies (p : PowerLevel) (level : Z) : bool := power_le (PInt level) p.

(** [level_value] *)
Definition level_value (v : json) (lenient : bool) : option Z :=
  match v with
  | JInteger i => Some i
  | JString s => if lenient then parse_i64 (trim (chars s)) else None
  | _ => None
  end.

(** [MalformedState]: of its message, the property that is malformed. *)
Inductive malformed : Type := MalformedState (what : string).

Definition int_prop (c : json_object) (key : string) (dflt : Z) (lenient : bool) :
    result malformed Z :=
  match obj_get key c with
  | None => Ok dflt
  | Some v => ok_or (level_value v lenient) (MalformedState key)
  end.

Definition insert_level (key : string) (lenient : bool) (out : gmap string Z)
    (kv : string * json) : result malformed (gmap string Z) :=
  match level_value kv.2 lenient with
  | Some i => Ok (<[kv.1 := i]> out)
  | None => Err (MalformedState key)
  end.

Definition int_map (c : json_object) (key : string) (lenient : bool) :
    result malformed (gmap string Z) :=
  match obj_get key c with
  | None => Ok ∅
  | Some (JObject o) => try_fold (insert_level key lenient) ∅ o
  | Some _ => Err (MalformedState key)
  end.

Record RoomPowerLevels : Type := {
  version : RoomVersion;
  room_creators : gset string;
  has_pl_event : bool;
  users : gmap string Z;
  users_default : Z;
  events : gmap string Z;
  events_default : Z;
  state_default : Z;
  ban : Z;
  kick : Z;
  redact : Z;
  invite : Z;
}.

Section Ruma.
Context `{RU : Ruma}.

Definition valid_user (s : string) : option string := if user_id_ok s then Some s else None.

(** [creators] *)
Definition creators (v : RoomVersion) (create : Event) : gset string :=
  let named := if creator_in_create_content v
               then str_prop (content create) "creator" ≫= valid_user else None in
  let set : gset string := {[ default (sender create) named ]} in
  if privileged_creators v then
    match obj_get "additional_creators" (content create) with
    | Some (JArray extra) =>
        set ∪ list_to_set (omap (λ x, as_str x ≫= valid_user) extra)
    | _ => set
    end
  else set.

Definition insert_user (lenient : bool) (out : gmap string Z) (kv : string * json) :
    result malformed (gmap string Z) :=
  if user_id_ok kv.1 then insert_level "users" lenient out kv
  else Err (MalformedState "users").

Definition user_map (c : json_object) (lenient : bool) : result malformed (gmap string Z) :=
  match obj_get "users" c with
  | None => Ok ∅
  | Some (JObject o) => try_fold (insert_user lenient) ∅ o
  | Some _ => Err (MalformedState "users")
  end.

(** [RoomPowerLevels::resolve] *)
Definition resolve_levels (v : RoomVersion) (create : Event) (power_levels : option Event) :
    result malformed RoomPowerLevels :=
  let c := match power_levels with Some e => content e | None => [] end in
  let lenient := lenient_power_levels v in
  let? us := user_map c lenient in
  let? ud := int_prop c "users_default" 0 lenient in
  let? ev := int_map c "events" lenient in
  let? ed := int_prop c "events_default" 0 lenient in
  let? sd := int_prop c "state_default" 50 lenient in
  let? bn := int_prop c "ban" 50 lenient in
  let? kk := int_prop c "kick" 50 lenient in
  let? rd := int_prop c "redact" 50 lenient in
  let? iv := int_prop c "invite" 0 lenient in
  Ok {| version := v; room_creators := creators v create;
        has_pl_event := is_some power_levels; users := us; users_default := ud; events := ev;
        events_default := ed; state_default := sd; ban := bn; kick := kk; redact := rd;
        invite := iv |}.

(** [RoomPowerLevels::user] *)
Definition user_level (p : RoomPowerLevels) (user : string) : PowerLevel :=
  if privileged_creators (version p) && bool_decide (user ∈ room_creators p) then PInfinite
  else match users p !! user with
  | Some l => PInt l
  | None =>
      if negb (has_pl_event p) && negb (privileged_creators (version p))
         && bool_decide (user ∈ room_creators p)
      then PInt 100 else PInt (users_default p)
  end.

(** [user_from_str] *)
Definition user_from_str (p : RoomPowerLevels) (user : string) : PowerLevel :=
  if user_id_ok user then user_level p user else PInt (users_default p).

Definition required_for (p : RoomPowerLevels) (type : string) (state : bool) : Z :=
  match events p !! type with
  | Some l => l
  | None => if state then state_default p else events_default p
  end.
End Ruma.
