(* ===== verification/Auth.v ===== *)
(** * Authorisation rules (saltator-core/src/auth.rs)

    Of a [Rejection] the rule's tag is kept, not its text. *)

From Stdlib Require Import Ascii.
From S2P Require Import Prelude Json CoreEvent PowerLevels.
From stdpp Require Import options.

Abbreviation AuthResult := (result string ()) (only parsing).
Abbreviation StateView := (string → string → option Event) (only parsing).
Abbreviation reject := Err (only parsing).

Definition allow : AuthResult := Ok ().

(** [if cond { Ok(()) } else { reject(rule, ..) }] *)
Definition require (cond : bool) (rule : string) : AuthResult :=
  if cond then allow else reject rule.

Definition opt_prop (e : option Event) (key : string) : option string :=
  e ≫= λ e, str_prop (content e) key.

(** [membership]: [leave] when absent. *)
Definition membership (state : StateView) (user : string) : string :=
  default "leave"%string (opt_prop (state "m.room.member"%string user) "membership").

Definition mem_is (m : string) (l : list string) : bool := bool_decide (m ∈ l).

Definition is_type (e : Event) (t : string) : bool := bool_decide (event_type e = t).

Section Ruma.
Context `{RU : Ruma}.

(** [auth_types_for_event] *)
Definition auth_types_for_event (v : RoomVersion) (type : string) (sender : string)
    (state_key : option string) (content : json_object) : gset (string * string) :=
  if bool_decide (type = "m.room.create"%string) then ∅
  else
    let mem := default EmptyString (str_prop content "membership") in
    (if create_event_in_auth_events v
     then {[ ("m.room.create", EmptyString)%string ]} else ∅)
    ∪ {[ ("m.room.power_levels", EmptyString)%string; ("m.room.member"%string, sender) ]}
    ∪ (if bool_decide (type = "m.room.member"%string) then
         (match state_key with
          | Some target => {[ ("m.room.member"%string, target) ]}
          | None => ∅
          end)
         ∪ (if mem_is mem ["join"; "invite"; "knock"]%string
            then {[ ("m.room.join_rules", EmptyString)%string ]} else ∅)
         ∪ (if bool_decide (mem = "invite"%string) then
              match tpi ← obj_prop content "third_party_invite"; signed ← obj_prop tpi "signed";
                    str_prop signed "token" with
              | Some token => {[ ("m.room.third_party_invite"%string, token) ]}
              | None => ∅
              end
            else ∅)
         ∪ (if bool_decide (mem = "join"%string) then
              match str_prop content "join_authorised_via_users_server" with
              | Some authoriser => {[ ("m.room.member"%string, authoriser) ]}
              | None => ∅
              end
            else ∅)
       else ∅).

(** ** [check_auth_events] *)

Record AuthEntry : Type := { entry_event : Event; entry_rejected : bool }.

Definition entry_key (e : Event) : string * string :=
  (event_type e, default EmptyString (state_key e)).

Definition check_entry (v : RoomVersion) (event : Event) (allowed : gset (string * string))
    (st : gset (string * string) * bool) (entry : AuthEntry) :
    result string (gset (string * string) * bool) :=
  let '(seen, have_create) := st in
  let e := entry_event entry in
  let key := entry_key e in
  if bool_decide (key ∈ seen) then reject "auth_events.duplicate"%string
  else if negb (bool_decide (key ∈ allowed)) then reject "auth_events.selection"%string
  else if entry_rejected entry then reject "auth_events.rejected"%string
  else if negb (bool_decide (room_id e = room_id event))
          && negb (room_id_is_create_event_id v && bool_decide (key.1 = "m.room.create"%string))
  then reject "auth_events.room_id"%string
  else Ok ({[key]} ∪ seen, have_create || bool_decide (key.1 = "m.room.create"%string)).

Definition check_auth_events (v : RoomVersion) (event : Event) (entries : list AuthEntry) :
    AuthResult :=
  let allowed := auth_types_for_event v (event_type event) (sender event) (state_key event)
                   (content event) in
  let? (_, have_create) := try_fold (check_entry v event allowed) (∅, false) entries in
  require (negb (create_event_in_auth_events v && negb have_create
                 && negb (is_type event "m.room.create")))
    "auth_events.create".

(** ** [check_create] *)

Definition valid_user_json (x : json) : bool :=
  match x with JString s => user_id_ok s | _ => false end.

Definition check_create (v : RoomVersion) (event : Event) : AuthResult :=
  if negb (bool_decide (prev_events event = [])) then reject "create.prev_events"%string
  else if (if room_id_is_create_event_id v then is_some (room_id event)
           else negb (match room_id event with
                      | Some rid => bool_decide
                          (room_server rid = Some (user_server (sender event)))
                      | None => false
                      end))
  then reject "create.room_id"%string
  else if negb (match obj_get "room_version" (content event) with
                | None => true
                | Some (JString s) => is_some (parse s)
                | Some _ => false
                end)
  then reject "create.room_version"%string
  else if creator_in_create_content v && negb (is_some (str_prop (content event) "creator"))
  then reject "create.creator"%string
  else require
    (negb (privileged_creators v) ||
     match obj_get "additional_creators" (content event) with
     | None => true
     | Some (JArray arr) => forallb valid_user_json arr
     | Some _ => false
     end) "create.additional_creators".

(** ** Third-party invites *)

(** The base64 keys a third-party invite event offers. *)
Definition candidate_keys (tpi_event : Event) : list string :=
  (match str_prop (content tpi_event) "public_key" with Some k => [k] | None => [] end)
  ++ match obj_get "public_keys" (content tpi_event) with
     | Some (JArray arr) =>
         omap (λ v, match v with JObject o => str_prop o "public_key" | _ => None end) arr
     | _ => []
     end.

Definition signature_ok (message key : bytes) (ks : string * json) : bool :=
  starts_with "ed25519:" ks.1 &&
  match as_str ks.2 ≫= base64_parse with
  | Some sig => ed25519_verify key sig message
  | None => false
  end.

Definition signed_by_any_key (signed : json_object) (keys : list string) : bool :=
  match json_for_signing signed, obj_prop signed "signatures" with
  | Some message, Some sig_map =>
      existsb (λ k, match base64_parse k with
                    | Some key =>
                        existsb (λ kv, match kv.2 with
                                       | JObject sigs => existsb (signature_ok message key) sigs
                                       | _ => false
                                       end) sig_map
                    | None => false
                    end) keys
  | _, _ => false
  end.

Definition check_third_party_invite (event : Event) (tpi : json_object)
    (target target_mem : string) (state : StateView) : AuthResult :=
  if bool_decide (target_mem = "ban"%string) then reject "member.3pi.ban"%string
  else match obj_prop tpi "signed" with
  | None => reject "member.3pi.signed"%string
  | Some signed =>
      match str_prop signed "mxid", str_prop signed "token" with
      | Some mxid, Some token =>
          if negb (bool_decide (mxid = target)) then reject "member.3pi.mxid"%string
          else match state "m.room.third_party_invite"%string token with
          | None => reject "member.3pi.token"%string
          | Some tpi_event =>
              if negb (bool_decide (sender event = sender tpi_event))
              then reject "member.3pi.sender"%string
              else require (signed_by_any_key signed (candidate_keys tpi_event))
                     "member.3pi.signature"
          end
      | _, _ => reject "member.3pi.signed"%string
      end
  end.

(** ** [check_member] *)

Definition first_join_creator (v : RoomVersion) (create : Event) : string :=
  if creator_in_create_content v
  then default (sender create) (str_prop (content create) "creator")
  else sender create.

Definition check_restricted (event : Event) (state : StateView) (power : RoomPowerLevels) :
    AuthResult :=
  match str_prop (content event) "join_authorised_via_users_server" with
  | None => reject "member.join.restricted"%string
  | Some authoriser =>
      if negb (user_id_ok authoriser) then reject "member.join.restricted"%string
      else if negb (bool_decide (membership state authoriser = "join"%string))
      then reject "member.join.restricted"%string
      else require (satisfies (user_level power authoriser) (invite power))
             "member.join.restricted"
  end.

Definition check_join (v : RoomVersion) (event create : Event) (state : StateView)
    (power : RoomPowerLevels) (target sender_mem join_rule : string) : AuthResult :=
  if bool_decide (prev_events event = [event_id create])
     && bool_decide (target = first_join_creator v create) then allow
  else if negb (bool_decide (sender event = target)) then reject "member.join.sender"%string
  else if bool_decide (sender_mem = "ban"%string) then reject "member.join.ban"%string
  else if mem_is join_rule ["invite"; "knock"]%string
  then require (mem_is sender_mem ["invite"; "join"]%string) "member.join.rule"
  else if mem_is join_rule ["restricted"; "knock_restricted"]%string then
    if mem_is sender_mem ["join"; "invite"]%string then allow
    else check_restricted event state power
  else if bool_decide (join_rule = "public"%string) then allow
  else reject "member.join.rule"%string.

Definition check_invite (event : Event) (state : StateView) (power : RoomPowerLevels)
    (sender_pl : PowerLevel) (target sender_mem target_mem : string) : AuthResult :=
  match obj_prop (content event) "third_party_invite" with
  | Some tpi => check_third_party_invite event tpi target target_mem state
  | None =>
      if negb (bool_decide (sender_mem = "join"%string)) then reject "member.invite.sender"%string
      else if mem_is target_mem ["join"; "ban"]%string then reject "member.invite.target"%string
      else require (satisfies sender_pl (invite power)) "member.invite.level"
  end.

Definition check_leave (event : Event) (power : RoomPowerLevels) (sender_pl : PowerLevel)
    (target sender_mem target_mem : string) : AuthResult :=
  if bool_decide (sender event = target)
  then require (mem_is sender_mem ["invite"; "join"; "knock"]%string) "member.leave.self"
  else if negb (bool_decide (sender_mem = "join"%string)) then reject "member.leave.sender"%string
  else if bool_decide (target_mem = "ban"%string) && negb (satisfies sender_pl (ban power))
  then reject "member.leave.unban"%string
  else require (satisfies sender_pl (kick power)
                && power_lt (user_from_str power target) sender_pl) "member.leave.kick".

Definition check_ban (power : RoomPowerLevels) (sender_pl : PowerLevel)
    (target sender_mem : string) : AuthResult :=
  if negb (bool_decide (sender_mem = "join"%string)) then reject "member.ban.sender"%string
  else require (satisfies sender_pl (ban power)
                && power_lt (user_from_str power target) sender_pl) "member.ban.level".

Definition check_knock (event : Event) (target sender_mem join_rule : string) : AuthResult :=
  if negb (mem_is join_rule ["knock"; "knock_restricted"]%string)
  then reject "member.knock.rule"%string
  else if negb (bool_decide (sender event = target)) then reject "member.knock.sender"%string
  else require (negb (mem_is sender_mem ["ban"; "invite"; "join"]%string))
         "member.knock.membership".

Definition check_member (v : RoomVersion) (event create : Event) (state : StateView)
    (power : RoomPowerLevels) (sender_pl : PowerLevel) : AuthResult :=
  match state_key event with
  | None => reject "member.state_key"%string
  | Some target =>
      match str_prop (content event) "membership" with
      | None => reject "member.membership"%string
      | Some new_membership =>
          let sender_mem := membership state (sender event) in
          let target_mem := membership state target in
          let join_rule := default "invite"%string
            (opt_prop (state "m.room.join_rules"%string EmptyString) "join_rule") in
          if bool_decide (new_membership = "join"%string)
          then check_join v event create state power target sender_mem join_rule
          else if bool_decide (new_membership = "invite"%string)
          then check_invite event state power sender_pl target sender_mem target_mem
          else if bool_decide (new_membership = "leave"%string)
          then check_leave event power sender_pl target sender_mem target_mem
          else if bool_decide (new_membership = "ban"%string)
          then check_ban power sender_pl target sender_mem
          else if bool_decide (new_membership = "knock"%string)
          then check_knock event target sender_mem join_rule
          else reject "member.unknown"%string
      end
  end.

(** ** [check_power_levels] *)

Definition scalar_keys : list string :=
  ["users_default"; "events_default"; "state_default"; "ban"; "redact"; "kick"; "invite"]%string.

Definition level_ok (lenient : bool) (x : json) : bool := is_some (level_value x lenient).

(** [for x in l { if !f(x) { return Err(rule) } }] *)
Definition check_all {A} (f : A → AuthResult) (l : list A) : AuthResult :=
  try_fold (λ _ a, f a) () l.

Definition check_scalar (lenient : bool) (c : json_object) (key : string) : AuthResult :=
  require (match obj_get key c with None => true | Some x => level_ok lenient x end)
    "power_levels.int".

Definition check_level_map (lenient : bool) (c : json_object) (key : string) : AuthResult :=
  require (match obj_get key c with
           | None => true
           | Some (JObject m) => forallb (λ kv, level_ok lenient kv.2) m
           | Some _ => false
           end) "power_levels.int".

Definition check_users (lenient : bool) (c : json_object) : AuthResult :=
  match obj_get "users" c with
  | None => allow
  | Some (JObject m) =>
      check_all (λ kv, if negb (user_id_ok kv.1) then reject "power_levels.users"%string
                       else require (level_ok lenient kv.2) "power_levels.int") m
  | Some _ => reject "power_levels.users"%string
  end.

Definition get_level (lenient : bool) (c : json_object) (key : string) : option Z :=
  obj_get key c ≫= λ x, level_value x lenient.

(** A level in an optional slot does not exceed the sender's. *)
Definition within_level (sender_pl : PowerLevel) (o : option Z) : bool :=
  match o with Some l => satisfies sender_pl l | None => true end.

Definition check_alteration (lenient : bool) (sender_pl : PowerLevel) (old c : json_object)
    (key : string) : AuthResult :=
  let old_v := get_level lenient old key in
  let new_v := get_level lenient c key in
  require (bool_decide (old_v = new_v)
           || within_level sender_pl old_v && within_level sender_pl new_v)
    "power_levels.alter".

Definition add_entry (lenient : bool) (out : gmap string Z) (kv : string * json) :
    gmap string Z :=
  match level_value kv.2 lenient with Some l => <[kv.1 := l]> out | None => out end.

(** [entry_map]: the integer entries of an object property, collected. *)
Definition entry_map (lenient : bool) (c : json_object) (key : string) : gmap string Z :=
  match obj_get key c with
  | Some (JObject m) => foldl (add_entry lenient) ∅ m
  | _ => ∅
  end.

Definition check_entries (lenient : bool) (sender_pl : PowerLevel) (sender : string)
    (old c : json_object) (key : string) : AuthResult :=
  let old_map := entry_map lenient old key in
  let new_map := entry_map lenient c key in
  let is_users := bool_decide (key = "users"%string) in
  let? _ := check_all (λ '(k, old_v),
    if bool_decide (new_map !! k = Some old_v) then allow
    else if is_users then
      require (bool_decide (k = sender) || negb (power_le sender_pl (PInt old_v)))
        "power_levels.demote"
    else require (satisfies sender_pl old_v) "power_levels.alter") (map_to_list old_map) in
  check_all (λ '(k, new_v),
    if bool_decide (old_map !! k = Some new_v) then allow
    else require (satisfies sender_pl new_v) "power_levels.grant") (map_to_list new_map).

Definition check_creator_entries (v : RoomVersion) (c : json_object) (power : RoomPowerLevels) :
    AuthResult :=
  if privileged_creators v then
    match obj_get "users" c with
    | Some (JObject us) =>
        check_all (λ creator, require (negb (is_some (obj_get creator us))) "power_levels.creator")
          (elements (room_creators power))
    | _ => allow
    end
  else allow.

Definition check_power_levels (v : RoomVersion) (event : Event) (state : StateView)
    (power : RoomPowerLevels) (sender_pl : PowerLevel) : AuthResult :=
  let c := content event in
  let lenient := lenient_power_levels v in
  let? _ := check_all (check_scalar lenient c) scalar_keys in
  let? _ := check_all (check_level_map lenient c) ["events"; "notifications"]%string in
  let? _ := check_users lenient c in
  let? _ := check_creator_entries v c power in
  match state "m.room.power_levels"%string EmptyString with
  | None => allow
  | Some previous =>
      let old := content previous in
      let? _ := check_all (check_alteration lenient sender_pl old c) scalar_keys in
      check_all (check_entries lenient sender_pl (sender event) old c)
        ["events"; "notifications"; "users"]%string
  end.

(** ** [check_state_dependent] *)

Definition check_room_id (v : RoomVersion) (event create : Event) : bool :=
  negb (room_id_is_create_event_id v) ||
  match room_id event with
  | Some rid => bool_decide (str_drop 1 rid = str_drop 1 (event_id create))
  | None => false
  end.

Definition federates (event create : Event) : bool :=
  match obj_get "m.federate" (content create) with
  | Some (JBool false) =>
      bool_decide (user_server (sender event) = user_server (sender create))
  | _ => true
  end.

Definition check_state_dependent (v : RoomVersion) (event : Event) (state : StateView) :
    AuthResult :=
  if is_type event "m.room.create" then check_create v event
  else match state "m.room.create"%string EmptyString with
  | None => reject "state.create"%string
  | Some create =>
      if negb (check_room_id v event create) then reject "room_id.create"%string
      else if negb (federates event create) then reject "federate"%string
      else match resolve_levels v create (state "m.room.power_levels"%string EmptyString) with
      | Err _ => reject "state.power_levels"%string
      | Ok power =>
          let sender_pl := user_level power (sender event) in
          if is_type event "m.room.member" then check_member v event create state power sender_pl
          else if negb (bool_decide (membership state (sender event) = "join"%string))
          then reject "sender.membership"%string
          else if is_type event "m.room.third_party_invite"
          then require (satisfies sender_pl (invite power)) "third_party_invite.level"
          else if negb (satisfies sender_pl
                          (required_for power (event_type event) (is_state event)))
          then reject "event.level"%string
          else if match state_key event with
                  | Some sk => starts_with "@" sk && negb (bool_decide (sk = sender event))
                  | None => false
                  end
          then reject "state_key.user"%string
          else if is_type event "m.room.power_levels"
          then check_power_levels v event state power sender_pl
          else allow
      end
  end.
End Ruma.

(** * What the authorisation rules guarantee

    The lemmas shared by the properties of [Auth], then: which state the rules
    read, who may act in a room, the membership rules as an inductive
    relation, and the power-level rules' no-escalation guarantee. *)

(** ** Reading an [AuthResult] *)

Lemma require_ok b rule : require b rule = Ok () ↔ b = true.
Proof. destruct b; cbv; by split. Qed.

Lemma unit_result {E} (r : result E ()) : r = Ok () ∨ ∃ e, r = Err e.
Proof. destruct r as [[]|e]; eauto. Qed.

(** [Err] does not become [Ok]: the guard of an early return was false. *)
Lemma guard_ok (b : bool) rule (k : AuthResult) :
  (if b then reject rule else k) = Ok () ↔ b = false ∧ k = Ok ().
Proof. destruct b; naive_solver. Qed.

Lemma seq_ok {E A} (r : result E ()) (k : result E A) a :
  (let? _ := r in k) = Ok a ↔ r = Ok () ∧ k = Ok a.
Proof. destruct r as [[]|]; naive_solver. Qed.

Lemma check_all_ok {A} (f : A → AuthResult) l : check_all f l = Ok () ↔ Forall (λ a, f a = Ok ()) l.
Proof.
  unfold check_all. induction l as [|a l IH]; simpl; [by split|].
  rewrite list.Forall_cons. destruct (unit_result (f a)) as [->|[e ->]]; naive_solver.
Qed.

Lemma negb_decide_false P `{!Decision P} : negb (bool_decide P) = false ↔ P.
Proof. rewrite negb_false_iff. apply bool_decide_eq_true. Qed.

Lemma negb_false b : negb b = false ↔ b = true.
Proof. apply negb_false_iff. Qed.

Create Rewrite HintDb auth.
#[export] Hint Rewrite require_ok guard_ok @seq_ok @check_all_ok negb_false
  orb_true_iff andb_true_iff negb_true_iff : auth.
#[export] Hint Rewrite @bool_decide_eq_true @bool_decide_eq_false using tc_solve : auth.

Lemma mem_is_true m l : mem_is m l = true ↔ m ∈ l.
Proof. apply bool_decide_eq_true. Qed.

Lemma mem_is_false m l : mem_is m l = false ↔ m ∉ l.
Proof. apply bool_decide_eq_false. Qed.

Lemma is_type_true e t : is_type e t = true ↔ event_type e = t.
Proof. apply bool_decide_eq_true. Qed.

Lemma is_type_false e t : is_type e t = false ↔ event_type e ≠ t.
Proof. apply bool_decide_eq_false. Qed.

#[export] Hint Rewrite mem_is_true mem_is_false is_type_true is_type_false : auth.

(** ** The state the rules read *)

(** Two states that answer alike at every key of a set. *)
Definition agree (keys : gset (string * string)) (s1 s2 : StateView) : Prop :=
  ∀ k, k ∈ keys → s1 k.1 k.2 = s2 k.1 k.2.

Lemma agree_at keys s1 s2 t k : agree keys s1 s2 → (t, k) ∈ keys → s1 t k = s2 t k.
Proof. intros H Hk. exact (H (t, k) Hk). Qed.

Lemma membership_agree keys s1 s2 u :
  agree keys s1 s2 → ("m.room.member"%string, u) ∈ keys → membership s1 u = membership s2 u.
Proof. intros H Hk. unfold membership. by rewrite (agree_at _ _ _ _ _ H Hk). Qed.

Section Local.
Context `{RU : Ruma}.

Lemma auth_types_common v type sender sk c :
  type ≠ "m.room.create"%string →
  ("m.room.power_levels", EmptyString)%string ∈ auth_types_for_event v type sender sk c ∧
  ("m.room.member"%string, sender) ∈ auth_types_for_event v type sender sk c.
Proof. intros H. unfold auth_types_for_event. rewrite bool_decide_eq_false_2 by done. set_solver. Qed.

(** The part of the selection a member event adds. *)
Lemma auth_types_member v sender target c :
  let keys := auth_types_for_event v "m.room.member" sender (Some target) c in
  ("m.room.member"%string, target) ∈ keys ∧
  (∀ m, str_prop c "membership" = Some m → m ∈ ["join"; "invite"; "knock"]%string →
    ("m.room.join_rules", EmptyString)%string ∈ keys) ∧
  (∀ tpi signed token, str_prop c "membership" = Some "invite"%string →
    obj_prop c "third_party_invite" = Some tpi → obj_prop tpi "signed" = Some signed →
    str_prop signed "token" = Some token → ("m.room.third_party_invite"%string, token) ∈ keys) ∧
  (∀ u, str_prop c "membership" = Some "join"%string →
    str_prop c "join_authorised_via_users_server" = Some u →
    ("m.room.member"%string, u) ∈ keys).
Proof.
  unfold auth_types_for_event. rewrite (bool_decide_eq_false_2 (_ = "m.room.create"%string)) by done.
  rewrite (bool_decide_eq_true_2 ("m.room.member"%string = _)) by done. cbv zeta.
  repeat split.
  - set_solver.
  - intros m -> Hm. simpl default. unfold mem_is. rewrite bool_decide_eq_true_2 by done. set_solver.
  - intros tpi signed token -> Ht Hs Hk. simpl default. rewrite Ht. simpl. rewrite Hs. simpl.
    rewrite Hk. simpl. set_solver.
  - intros u -> Hu. simpl default. rewrite Hu. simpl. set_solver.
Qed.

Lemma third_party_agree event tpi target tm s1 s2 :
  (∀ signed token, obj_prop tpi "signed" = Some signed → str_prop signed "token" = Some token →
    s1 "m.room.third_party_invite"%string token = s2 "m.room.third_party_invite"%string token) →
  check_third_party_invite event tpi target tm s1 = check_third_party_invite event tpi target tm s2.
Proof.
  intros H. unfold check_third_party_invite. case_match; [done|].
  destruct (obj_prop tpi "signed") as [signed|] eqn:Hs; [|done].
  destruct (str_prop signed "mxid"); [|done].
  destruct (str_prop signed "token") as [token|] eqn:Hk; [|done].
  by rewrite (H signed token).
Qed.

Lemma check_join_agree v event create s1 s2 power target sm jr :
  (∀ u, str_prop (content event) "join_authorised_via_users_server" = Some u →
    membership s1 u = membership s2 u) →
  check_join v event create s1 power target sm jr = check_join v event create s2 power target sm jr.
Proof.
  intros H. unfold check_join, check_restricted.
  destruct (str_prop (content event) "join_authorised_via_users_server") as [u|]; [|done].
  by rewrite (H u eq_refl).
Qed.

Lemma check_member_agree v event create s1 s2 power pl :
  event_type event = "m.room.member"%string →
  agree (auth_types_for_event v (event_type event) (sender event) (state_key event) (content event))
    s1 s2 →
  check_member v event create s1 power pl = check_member v event create s2 power pl.
Proof.
  intros Ht Ha. unfold check_member.
  destruct (state_key event) as [target|] eqn:Hsk; [|done].
  destruct (str_prop (content event) "membership") as [m|] eqn:Hm; [|done]. cbv zeta.
  rewrite Ht in Ha.
  destruct (auth_types_member v (sender event) target (content event)) as (Kt & Kr & K3 & Ku).
  destruct (auth_types_common v "m.room.member" (sender event) (Some target) (content event))
    as [_ Ks]; [done|].
  rewrite (membership_agree _ _ _ _ Ha Ks), (membership_agree _ _ _ _ Ha Kt).
  assert (Hr : m ∈ ["join"; "invite"; "knock"]%string →
    s1 "m.room.join_rules"%string EmptyString = s2 "m.room.join_rules"%string EmptyString).
  { intros Hj. eapply agree_at; [done|]. by eapply Kr. }
  case_bool_decide as Hj; [subst m|].
  { rewrite Hr by repeat constructor. apply check_join_agree.
    intros u Hu. by apply (membership_agree _ _ _ _ Ha (Ku u Hm Hu)). }
  case_bool_decide as Hi; [subst m|].
  { unfold check_invite. destruct (obj_prop _ _) as [tpi|] eqn:Htpi; [|done].
    apply third_party_agree. intros signed token Hs Hk. eapply agree_at; [done|]. by eapply K3. }
  case_bool_decide; [done|]. case_bool_decide; [done|]. case_bool_decide as Hk; [|done].
  rewrite Hr by (subst m; repeat constructor). done.
Qed.

(** The verdict on an event depends on the create event and on the keys that
    [auth_types_for_event] selects. *)
Lemma check_state_agree v event s1 s2 :
  event_type event ≠ "m.room.create"%string →
  s1 "m.room.create"%string EmptyString = s2 "m.room.create"%string EmptyString →
  agree (auth_types_for_event v (event_type event) (sender event) (state_key event)
           (content event)) s1 s2 →
  check_state_dependent v event s1 = check_state_dependent v event s2.
Proof.
  intros Ht Hc Ha. unfold check_state_dependent. rewrite (proj2 (is_type_false _ _) Ht), Hc.
  destruct (s2 "m.room.create"%string EmptyString) as [create|]; [|done].
  destruct (auth_types_common v (event_type event) (sender event) (state_key event)
              (content event) Ht) as [Kp Ks].
  rewrite (agree_at _ _ _ _ _ Ha Kp), (membership_agree _ _ _ _ Ha Ks).
  do 2 (case_match; [done|]). destruct (resolve_levels _ _ _) as [power|]; [|done]. cbv zeta.
  destruct (is_type event "m.room.member") eqn:Hm.
  { apply check_member_agree; [by apply is_type_true|done]. }
  unfold check_power_levels. by rewrite (agree_at _ _ _ _ _ Ha Kp).
Qed.
End Local.
