(* ===== verification/AuthDemo.v ===== *)
(** * A concrete room for the authorisation witnesses

    Identifiers are [@local:server]; a signature is the message it signs,
    prefixed by the key. *)

From Stdlib Require Import Ascii.
From S2P Require Import Prelude Json CoreEvent PowerLevels Auth.
From stdpp Require Import options.

(** What follows the first colon. *)
Fixpoint server_part (s : string) : string :=
  match s with
  | EmptyString => EmptyString
  | String c s => if bool_decide (c = ":"%char) then s else server_part s
  end.

#[export] Instance demo_ruma : Ruma := {|
  user_id_ok s := starts_with "@" s;
  event_id_ok s := starts_with "$" s;
  user_server := server_part;
  room_server s := Some (server_part s);
  json_for_signing o := Some (default EmptyString (str_prop o "mxid"));
  base64_parse s := Some s;
  ed25519_verify key sig msg := bool_decide (sig = String.append key msg);
|}.

Definition alice : string := "@alice:a"%string.
Definition bob : string := "@bob:b"%string.
Definition carol : string := "@carol:c"%string.
Definition dave : string := "@dave:d"%string.

Definition mk (id sender type : string) (key : option string) (c : json_object) : Event :=
  {| event_id := id; room_id := Some "!r"%string; sender := sender; event_type := type;
     state_key := key; content := c; origin_server_ts := 0; auth_events := []; prev_events := [] |}.

Definition str (s : string) : json := JString s.

Definition create_event : Event :=
  {| event_id := "$r"; room_id := None; sender := alice; event_type := "m.room.create";
     state_key := Some EmptyString; content := [("room_version"%string, JString "12")];
     origin_server_ts := 0; auth_events := []; prev_events := [] |}.

Definition member_event (sender target m : string) : Event :=
  mk (String.append "$m" target) sender "m.room.member" (Some target) [("membership"%string, JString m)].

Definition levels (us : list (string * Z)) (rest : json_object) : Event :=
  mk "$pl" alice "m.room.power_levels" (Some EmptyString)
    (("users"%string, JObject ((λ '(u, l), (u, JInteger l)) <$> us)) :: rest).

(** A state map from its events. *)
Definition view (es : list Event) : StateView := λ t k,
  find (λ e, bool_decide (event_type e = t) && bool_decide (state_key e = Some k)) es.

(** Alice created the room and joined; Bob moderates; Carol is joined; the
    room is public. *)
Definition demo_state : list Event :=
  [create_event; member_event alice alice "join"; member_event bob bob "join";
   member_event carol carol "join";
   mk "$jr" alice "m.room.join_rules" (Some EmptyString) [("join_rule"%string, JString "public")];
   levels [(bob, 60%Z); (carol, 10%Z)] []].

Definition demo_view : StateView := view demo_state.

Definition demo_levels : Event := levels [(bob, 60%Z); (carol, 10%Z); (dave, 60%Z)] [].

(** Bob promotes Carol to his own level; Dave keeps his. *)
Definition demo_promotion : Event :=
  mk "$pl2" bob "m.room.power_levels" (Some EmptyString)
    [("users"%string, JObject [(bob, JInteger 60); (carol, JInteger 60); (dave, JInteger 60)])].

Definition levelled_view : StateView :=
  view (filter (λ e, event_type e ≠ "m.room.power_levels"%string) demo_state ++ [demo_levels]).
