(* ===== verification/AuthSpec.v ===== *)
(** * The membership rules as a relation, and who may act in a room

    [member_allowed] lists the cases of rule 5 (membership) one constructor
    each; [check_member] decides it.  [outsider_event] lists what a user who is
    not joined may still do. *)

From Stdlib Require Import Ascii.
From S2P Require Import Prelude Json CoreEvent PowerLevels Auth AuthDemo.
From stdpp Require Import options.

Section Rules.
Context `{RU : Ruma}.
Context (v : RoomVersion) (event create : Event) (state : StateView)
  (power : RoomPowerLevels) (pl : PowerLevel).

Definition asks (m : string) : Prop := str_prop (content event) "membership" = Some m.

Definition keyed (target : string) : Prop := state_key event = Some target.

Definition join_rule_of : string :=
  default "invite"%string (opt_prop (state "m.room.join_rules"%string EmptyString) "join_rule").

(** The third-party invite block is signed for [target] by a key of the
    matching [m.room.third_party_invite] event, sent by the same user. *)
Definition third_party_signed (tpi : json_object) (target : string) : Prop :=
  ∃ signed token tpi_event,
    obj_prop tpi "signed" = Some signed ∧ str_prop signed "mxid" = Some target ∧
    str_prop signed "token" = Some token ∧
    state "m.room.third_party_invite"%string token = Some tpi_event ∧
    sender event = sender tpi_event ∧
    signed_by_any_key signed (candidate_keys tpi_event) = true.

(** [sender] is strictly above [target]. *)
Definition outranks (target : string) : Prop := power_lt (user_from_str power target) pl = true.

Inductive member_allowed : Prop :=
  | first_join target :
      asks "join" → keyed target → prev_events event = [event_id create] →
      target = first_join_creator v create → member_allowed
  | join_invited :
      asks "join" → keyed (sender event) →
      join_rule_of ∈ ["invite"; "knock"; "restricted"; "knock_restricted"]%string →
      membership state (sender event) ∈ ["invite"; "join"]%string → member_allowed
  | join_authorised u :
      asks "join" → keyed (sender event) → membership state (sender event) ≠ "ban"%string →
      join_rule_of ∈ ["restricted"; "knock_restricted"]%string →
      str_prop (content event) "join_authorised_via_users_server" = Some u →
      user_id_ok u = true → membership state u = "join"%string →
      satisfies (user_level power u) (invite power) = true → member_allowed
  | join_public :
      asks "join" → keyed (sender event) → membership state (sender event) ≠ "ban"%string →
      join_rule_of = "public"%string → member_allowed
  | invite_third_party target tpi :
      asks "invite" → keyed target →
      obj_prop (content event) "third_party_invite" = Some tpi →
      membership state target ≠ "ban"%string → third_party_signed tpi target → member_allowed
  | invite_direct target :
      asks "invite" → keyed target →
      obj_prop (content event) "third_party_invite" = None →
      membership state (sender event) = "join"%string →
      membership state target ∉ ["join"; "ban"]%string →
      satisfies pl (invite power) = true → member_allowed
  | leave_self :
      asks "leave" → keyed (sender event) →
      membership state (sender event) ∈ ["invite"; "join"; "knock"]%string → member_allowed
  | leave_kick target :
      asks "leave" → keyed target → sender event ≠ target →
      membership state (sender event) = "join"%string →
      (membership state target = "ban"%string → satisfies pl (ban power) = true) →
      satisfies pl (kick power) = true → outranks target → member_allowed
  | ban_user target :
      asks "ban" → keyed target → membership state (sender event) = "join"%string →
      satisfies pl (ban power) = true → outranks target → member_allowed
  | knock_self :
      asks "knock" → keyed (sender event) →
      join_rule_of ∈ ["knock"; "knock_restricted"]%string →
      membership state (sender event) ∉ ["ban"; "invite"; "join"]%string → member_allowed.

(** The membership events a user who has not joined may still send: the first
    join of a room, a join, leave or knock of their own, an invite that a third
    party signed. *)
Inductive outsider_event : Prop :=
  | outsider_first_join :
      asks "join" → prev_events event = [event_id create] →
      keyed (first_join_creator v create) → outsider_event
  | outsider_self m :
      asks m → m ∈ ["join"; "leave"; "knock"]%string → keyed (sender event) → outsider_event
  | outsider_third_party target tpi :
      asks "invite" → keyed target → obj_prop (content event) "third_party_invite" = Some tpi →
      third_party_signed tpi target → outsider_event.

(** ** The branches of [check_member] decide their constructors *)

Lemma check_restricted_ok :
  check_restricted event state power = Ok () ↔
  ∃ u, str_prop (content event) "join_authorised_via_users_server" = Some u ∧
    user_id_ok u = true ∧ membership state u = "join"%string ∧
    satisfies (user_level power u) (invite power) = true.
Proof.
  unfold check_restricted. case_match; autorewrite with auth; naive_solver.
Qed.

Lemma check_third_party_ok tpi target :
  check_third_party_invite event tpi target (membership state target) state = Ok () ↔
  membership state target ≠ "ban"%string ∧ third_party_signed tpi target.
Proof.
  unfold check_third_party_invite, third_party_signed. autorewrite with auth.
  destruct (obj_prop tpi "signed") as [signed|] eqn:?; [|naive_solver].
  destruct (str_prop signed "mxid") eqn:?; [|naive_solver].
  destruct (str_prop signed "token") as [token|] eqn:?; [|naive_solver].
  autorewrite with auth. destruct (state _ token) eqn:?; [|naive_solver].
  autorewrite with auth. naive_solver.
Qed.

(** The guards of each branch, as the case analysis of its result leaves them. *)
Ltac guards H := autorewrite with auth in H; destruct_and? H; subst.

Lemma check_join_sound target :
  asks "join" → keyed target →
  check_join v event create state power target (membership state (sender event)) join_rule_of = Ok ()
  → member_allowed.
Proof.
  intros Hj Hk. unfold check_join. case_match eqn:Hfirst.
  { intros _. guards Hfirst. by eapply first_join. }
  intros H. autorewrite with auth in H. destruct H as (<- & Hb & H). case_match eqn:Hr.
  { guards H. guards Hr. apply join_invited; [done..| |done]. set_solver. }
  case_match eqn:Hr'; autorewrite with auth in Hr'.
  - case_match eqn:Hm; autorewrite with auth in Hm.
    + apply join_invited; [done..| |]; set_solver.
    + apply check_restricted_ok in H as (u & ? & ? & ? & ?). by eapply join_authorised.
  - case_bool_decide; [|done]. by apply join_public.
Qed.

Lemma check_invite_sound target :
  asks "invite" → keyed target →
  check_invite event state power pl target (membership state (sender event))
    (membership state target) = Ok () → member_allowed.
Proof.
  intros Hi Hk. unfold check_invite. destruct (obj_prop _ _) as [tpi|] eqn:Ht.
  - intros [??]%check_third_party_ok. by eapply invite_third_party.
  - intros H. guards H. by eapply invite_direct.
Qed.

Lemma check_leave_sound target :
  asks "leave" → keyed target →
  check_leave event power pl target (membership state (sender event)) (membership state target)
    = Ok () → member_allowed.
Proof.
  intros Hl Hk. unfold check_leave. case_bool_decide as Hs; intros H.
  - guards H. by apply leave_self.
  - autorewrite with auth in H. rewrite andb_false_iff in H. autorewrite with auth in H.
    eapply leave_kick; naive_solver.
Qed.

(** [check_member] at each membership. *)
Lemma check_member_at m target :
  asks m → keyed target →
  check_member v event create state power pl =
  let sm := membership state (sender event) in
  let tm := membership state target in
  if bool_decide (m = "join"%string)
  then check_join v event create state power target sm join_rule_of
  else if bool_decide (m = "invite"%string) then check_invite event state power pl target sm tm
  else if bool_decide (m = "leave"%string) then check_leave event power pl target sm tm
  else if bool_decide (m = "ban"%string) then check_ban power pl target sm
  else if bool_decide (m = "knock"%string) then check_knock event target sm join_rule_of
  else reject "member.unknown"%string.
Proof. intros Hm Hk. unfold check_member. by rewrite Hk, Hm. Qed.

(** The cases of a membership in a literal list. *)
Ltac enumerate x :=
  match goal with E : x ∈ _ |- _ =>
    repeat (apply elem_of_cons in E as [E|E]; [rewrite ?E|]); [..|by apply not_elem_of_nil in E]
  end.

Lemma check_member_sound : check_member v event create state power pl = Ok () → member_allowed.
Proof.
  destruct (state_key event) as [target|] eqn:Hk;
    [|unfold check_member; by rewrite Hk].
  destruct (str_prop (content event) "membership") as [m|] eqn:Hm;
    [|unfold check_member; by rewrite Hk, Hm].
  rewrite (check_member_at m target) by done. cbv zeta.
  case_bool_decide; [subst m; by apply check_join_sound|].
  case_bool_decide; [subst m; by apply check_invite_sound|].
  case_bool_decide; [subst m; by apply check_leave_sound|].
  case_bool_decide; [subst m; unfold check_ban; intros Hok; guards Hok; by eapply ban_user|].
  case_bool_decide; [|done]. subst m. unfold check_knock. intros Hok. guards Hok.
  by apply knock_self.
Qed.

Lemma check_member_complete : member_allowed → check_member v event create state power pl = Ok ().
Proof.
  destruct 1; (erewrite check_member_at by done); cbv zeta;
    repeat (rewrite bool_decide_eq_true_2 by reflexivity);
    repeat first [rewrite (bool_decide_eq_false_2 ("invite"%string = _)) by done
                 |rewrite (bool_decide_eq_false_2 ("leave"%string = _)) by done
                 |rewrite (bool_decide_eq_false_2 ("ban"%string = _)) by done
                 |rewrite (bool_decide_eq_false_2 ("knock"%string = _)) by done
                 |rewrite (bool_decide_eq_true_2 (_ = _)) by reflexivity].

  1-4: unfold check_join.
  - subst. rewrite bool_decide_eq_true_2 by done. by rewrite bool_decide_eq_true_2 by done.
  - case_match; [done|]. rewrite bool_decide_eq_true_2 by done. simpl negb. cbv iota.
    enumerate join_rule_of; enumerate (membership state (sender event)); done.
  - case_match; [done|]. rewrite bool_decide_eq_true_2, bool_decide_eq_false_2 by done.
    rewrite (proj2 check_restricted_ok) by eauto 10.
    enumerate join_rule_of; simpl; by case_match.
  - case_match; [done|]. rewrite bool_decide_eq_true_2, bool_decide_eq_false_2 by done.
    by match goal with E : join_rule_of = _ |- _ => rewrite E end.
  - unfold check_invite. match goal with E : obj_prop _ _ = _ |- _ => rewrite E end.
    by apply check_third_party_ok.
  - unfold check_invite. match goal with E : obj_prop _ _ = _ |- _ => rewrite E end.
    autorewrite with auth; by split_and?.
  - unfold check_leave. rewrite bool_decide_eq_true_2 by done. autorewrite with auth; by split_and?.
  - unfold check_leave. rewrite bool_decide_eq_false_2 by done. autorewrite with auth.
    rewrite andb_false_iff. autorewrite with auth. unfold outranks in *.
    destruct (decide (membership state target = "ban"%string)); naive_solver.
  - unfold check_ban. autorewrite with auth; by split_and?.
  - unfold check_knock. autorewrite with auth; by split_and?.
Qed.
End Rules.

(** ** Properties *)

(** C16 (membership rules): [check_member] accepts a member event exactly when
    one of the ten cases of the membership rule allows it. *)
Theorem member_rules `{RU : Ruma} v event create state power pl :
  check_member v event create state power pl = Ok () ↔
  member_allowed v event create state power pl.
Proof. split; [apply check_member_sound|apply check_member_complete]. Qed.

(** C17 (outsiders): an event that the rules accept from a user who is not
    joined is either a create event or a membership event: the first join of
    the room, a join, leave or knock of the user's own, or an invite signed by
    the key of a third-party invite the sender had issued. *)
Theorem outsiders_only_move_themselves `{RU : Ruma} v event state :
  check_state_dependent v event state = Ok () →
  event_type event ≠ "m.room.create"%string →
  membership state (sender event) ≠ "join"%string →
  event_type event = "m.room.member"%string ∧
  ∃ create, state "m.room.create"%string EmptyString = Some create ∧
            outsider_event v event create state.
Proof.
  unfold check_state_dependent. intros Hok Hc Hm.
  rewrite (proj2 (is_type_false _ _) Hc) in Hok. case_match; [|done].
  autorewrite with auth in Hok. destruct Hok as (_ & _ & Hok). case_match; [|done]. cbv zeta in Hok.
  destruct (is_type event "m.room.member") eqn:Ht.
  - split; [by apply is_type_true|]. eexists. split; [done|].
    apply check_member_sound in Hok. destruct Hok; try done.
    + apply outsider_first_join; by subst.
    + eapply outsider_self; [done| |done]. repeat constructor.
    + eapply outsider_self; [done| |done]. repeat constructor.
    + eapply outsider_self; [done| |done]. repeat constructor.
    + by eapply outsider_third_party.
    + eapply outsider_self; [done| |done]. repeat constructor.
    + eapply outsider_self; [done| |done]. repeat constructor.
  - rewrite bool_decide_eq_false_2 in Hok by done. done.
Qed.

Lemma outsiders_only_move_themselves_witness :
  event_type (member_event dave dave "join") = "m.room.member"%string ∧
  ∃ create, demo_view "m.room.create"%string EmptyString = Some create ∧
            outsider_event V11 (member_event dave dave "join") create demo_view.
Proof.
  apply (outsiders_only_move_themselves V11 (member_event dave dave "join") demo_view).
  - vm_compute; reflexivity.
  - discriminate.
  - vm_compute; discriminate.
Defined.

(** The verdict on an event other than a create
    depends on the state only through the create event and the keys that
    [auth_types_for_event] selects.  So checking an event against its auth
    events, against the state before it, and against a candidate state during
    resolution are the same check wherever those agree on the selection. *)
Theorem auth_events_suffice `{RU : Ruma} v event s1 s2 :
  event_type event ≠ "m.room.create"%string →
  s1 "m.room.create"%string EmptyString = s2 "m.room.create"%string EmptyString →
  agree (auth_types_for_event v (event_type event) (sender event) (state_key event)
           (content event)) s1 s2 →
  check_state_dependent v event s1 = check_state_dependent v event s2.
Proof. apply check_state_agree. Qed.

(** Only what the rules read: the create event, the levels, the join rule and
    the memberships of Dave. *)
Definition pruned_view : StateView :=
  view (filter (λ e, event_type e ≠ "m.room.member"%string) demo_state).

Lemma auth_events_suffice_witness :
  demo_view "m.room.member"%string bob ≠ pruned_view "m.room.member"%string bob ∧
  check_state_dependent V11 (member_event dave dave "join") demo_view =
  check_state_dependent V11 (member_event dave dave "join") pruned_view.
Proof.
  split; [vm_compute; discriminate|].
  apply (auth_events_suffice V11 (member_event dave dave "join")); [discriminate|reflexivity|].
  intros k Hk. apply elem_of_elements in Hk.
  revert k Hk. apply list.Forall_forall.
  set (l := elements _). vm_compute in l. subst l. repeat constructor.
Defined.
