(* ===== verification/PowerSpec.v ===== *)
(** * No escalation through power levels

    How the levels [resolve_levels] reads relate to the entries that
    [check_power_levels] compares, and the guarantees that follow. *)

From Stdlib Require Import Ascii.
From S2P Require Import Prelude Json CoreEvent PowerLevels Auth AuthDemo AuthSpec.
From stdpp Require Import options.

(** ** What resolving reads *)

(** A loop that succeeds did at each step what its total version does. *)
Lemma try_fold_foldl {E A B} (f : B → A → result E B) (g : B → A → B) :
  (∀ b a b', f b a = Ok b' → b' = g b a) →
  ∀ l b b', try_fold f b l = Ok b' → b' = foldl g b l.
Proof.
  intros H l. induction l as [|a l IH]; intros b b'; simpl; [naive_solver|].
  destruct (f b a) eqn:E1; [|done]. apply H in E1 as ->. apply IH.
Qed.

Lemma try_fold_total {E A B} (f : B → A → result E B) l :
  (∀ b a, a ∈ l → is_ok (f b a) = true) → ∀ b, is_ok (try_fold f b l) = true.
Proof.
  induction l as [|a l IH]; intros H b; simpl; [done|].
  pose proof (H b a ltac:(by left)) as Ha. destruct (f b a); [|done].
  apply IH. intros. apply H. by right.
Qed.

Lemma insert_level_total key lenient out kv :
  is_ok (insert_level key lenient out kv) = level_ok lenient kv.2.
Proof. unfold insert_level, level_ok. by destruct (level_value _ _). Qed.

Lemma insert_level_ok key lenient out kv out' :
  insert_level key lenient out kv = Ok out' → out' = add_entry lenient out kv.
Proof. unfold insert_level, add_entry. case_match; naive_solver. Qed.

Lemma int_prop_ok c key d lenient x :
  int_prop c key d lenient = Ok x → x = default d (get_level lenient c key).
Proof.
  unfold int_prop, get_level. destruct (obj_get key c); simpl; [|naive_solver].
  by destruct (level_value _ _); simpl; intros [= ->].
Qed.

Lemma check_scalar_total lenient c key d :
  check_scalar lenient c key = Ok () → is_ok (int_prop c key d lenient) = true.
Proof.
  unfold check_scalar, int_prop, level_ok. rewrite require_ok.
  destruct (obj_get key c); [|done]. by destruct (level_value _ _).
Qed.

Lemma int_map_ok c key lenient m :
  int_map c key lenient = Ok m → m = entry_map lenient c key.
Proof.
  unfold int_map, entry_map. case_match; [|naive_solver]. case_match; try done.
  apply try_fold_foldl. intros b a b'. apply insert_level_ok.
Qed.

Lemma check_level_map_total lenient c key :
  check_level_map lenient c key = Ok () → is_ok (int_map c key lenient) = true.
Proof.
  unfold check_level_map, int_map. rewrite require_ok. case_match; [|done]. case_match; try done.
  intros Hall. apply try_fold_total. intros b a Ha. rewrite insert_level_total.
  rewrite forallb_forall in Hall. apply Hall. by apply list_elem_of_In.
Qed.

Section Users.
Context `{RU : Ruma}.

Lemma user_map_ok c lenient m : user_map c lenient = Ok m → m = entry_map lenient c "users".
Proof.
  unfold user_map, entry_map. case_match; [|naive_solver]. case_match; try done.
  apply try_fold_foldl. intros b a b'. unfold insert_user. case_match; [|done].
  apply insert_level_ok.
Qed.

Lemma check_users_total lenient c :
  check_users lenient c = Ok () → is_ok (user_map c lenient) = true.
Proof.
  unfold check_users, user_map. case_match; [|done]. case_match; try done.
  rewrite check_all_ok, list.Forall_forall. intros Hall. apply try_fold_total. intros b a Ha.
  specialize (Hall a Ha). unfold insert_user. autorewrite with auth in Hall.
  destruct Hall as [-> Hl].
  by rewrite insert_level_total.
Qed.

Lemma resolve_levels_ok v create pl p :
  resolve_levels v create pl = Ok p →
  let c := match pl with Some e => content e | None => [] end in
  version p = v ∧ room_creators p = creators v create ∧ has_pl_event p = is_some pl ∧
  users p = entry_map (lenient_power_levels v) c "users" ∧
  users_default p = default 0%Z (get_level (lenient_power_levels v) c "users_default").
Proof.
  intros H c. unfold resolve_levels in H. fold c in H. cbv zeta in H.
  destruct (user_map _ _) eqn:Hu; [|done]. apply user_map_ok in Hu.
  destruct (int_prop _ "users_default" _ _) eqn:Hd; [|done]. apply int_prop_ok in Hd.
  destruct (int_map _ _ _); [|done]. repeat (destruct (int_prop _ _ _ _); [|done]).
  injection H as <-. split_and!; [done..|exact Hu|exact Hd].
Qed.

Lemma resolve_levels_total v create e :
  let c := content e in
  let lenient := lenient_power_levels v in
  Forall (λ k, check_scalar lenient c k = Ok ()) scalar_keys →
  check_level_map lenient c "events" = Ok () → check_users lenient c = Ok () →
  ∃ p, resolve_levels v create (Some e) = Ok p.
Proof.
  intros c lenient Hs He Hu. unfold resolve_levels. fold c. fold lenient.
  apply check_users_total in Hu. destruct (user_map c lenient); [|done].
  apply check_level_map_total in He.
  unfold scalar_keys in Hs. rewrite !list.Forall_cons in Hs.
  destruct Hs as (H1 & H2 & H3 & H4 & H5 & H6 & H7 & _).
  pose proof (check_scalar_total _ _ _ 0%Z H1). pose proof (check_scalar_total _ _ _ 0%Z H2).
  pose proof (check_scalar_total _ _ _ 50%Z H3). pose proof (check_scalar_total _ _ _ 50%Z H4).
  pose proof (check_scalar_total _ _ _ 50%Z H5). pose proof (check_scalar_total _ _ _ 50%Z H6).
  pose proof (check_scalar_total _ _ _ 0%Z H7).
  destruct (int_map c "events" lenient); [|done].
  repeat (destruct (int_prop _ _ _ _); [|done]). eauto.
Qed.
End Users.

(** ** What the comparison with the previous levels guarantees *)

Lemma check_alteration_ok lenient pl old c key :
  check_alteration lenient pl old c key = Ok () ↔
  get_level lenient old key = get_level lenient c key ∨
  within_level pl (get_level lenient old key) = true ∧
  within_level pl (get_level lenient c key) = true.
Proof. unfold check_alteration. by autorewrite with auth. Qed.

(** An entry of the previous map that changes or disappears. *)
Definition may_change (pl : PowerLevel) (sender key k : string) (l : Z) : Prop :=
  if bool_decide (key = "users"%string) then k = sender ∨ power_le pl (PInt l) = false
  else satisfies pl l = true.

Lemma check_entries_ok lenient pl sender old c key :
  check_entries lenient pl sender old c key = Ok () ↔
  (∀ k l, entry_map lenient old key !! k = Some l → entry_map lenient c key !! k ≠ Some l →
     may_change pl sender key k l) ∧
  (∀ k l, entry_map lenient c key !! k = Some l → entry_map lenient old key !! k ≠ Some l →
     satisfies pl l = true).
Proof.
  unfold check_entries, may_change. cbv zeta. rewrite seq_ok, !check_all_ok, !list.Forall_forall.
  assert (Hall : ∀ (m : gmap string Z) (P : string * Z → Prop),
    (∀ x, x ∈ map_to_list m → P x) ↔ ∀ k l, m !! k = Some l → P (k, l)).
  { intros m P. split.
    - intros H k l Hk. apply H. by apply elem_of_map_to_list.
    - intros H [k l] Hk. apply H. by apply elem_of_map_to_list. }
  rewrite !Hall. f_equiv; do 2 (apply forall_proper; intros ?).
  - case_bool_decide; [naive_solver|]. case_bool_decide; autorewrite with auth; naive_solver.
  - case_bool_decide; autorewrite with auth; naive_solver.
Qed.

Lemma power_le_refl p : power_le p p = true.
Proof. destruct p; unfold power_le; simpl; [by rewrite Z.compare_refl|done]. Qed.

Lemma power_lt_irrefl_infinite p : power_lt PInfinite p = false.
Proof. by destruct p. Qed.

Section Accepted.
Context `{RU : Ruma}.

(** The pieces of an accepted [m.room.power_levels] event. *)
Lemma accepted_levels v event state create :
  event_type event = "m.room.power_levels"%string →
  state "m.room.create"%string EmptyString = Some create →
  check_state_dependent v event state = Ok () →
  ∃ old, resolve_levels v create (state "m.room.power_levels"%string EmptyString) = Ok old ∧
    satisfies (user_level old (sender event)) (required_for old (event_type event) (is_state event)) = true ∧
    check_power_levels v event state old (user_level old (sender event)) = Ok ().
Proof.
  intros Ht Hc. unfold check_state_dependent. rewrite Hc.
  assert (is_type event "m.room.create" = false) as -> by (apply is_type_false; by rewrite Ht).
  assert (is_type event "m.room.member" = false) as -> by (apply is_type_false; by rewrite Ht).
  assert (is_type event "m.room.third_party_invite" = false) as ->
    by (apply is_type_false; by rewrite Ht).
  assert (is_type event "m.room.power_levels" = true) as -> by by apply is_type_true.
  intros Hok. autorewrite with auth in Hok. destruct Hok as (_ & _ & Hok).
  destruct (resolve_levels _ _ _) as [old|]; [|done]. cbv zeta in Hok.
  autorewrite with auth in Hok. naive_solver.
Qed.

Lemma check_power_levels_ok v event state power pl :
  check_power_levels v event state power pl = Ok () →
  let c := content event in
  let lenient := lenient_power_levels v in
  (∀ create, ∃ new, resolve_levels v create (Some event) = Ok new) ∧
  (∀ prev, state "m.room.power_levels"%string EmptyString = Some prev →
    Forall (λ k, check_alteration lenient pl (content prev) c k = Ok ()) scalar_keys ∧
    check_entries lenient pl (sender event) (content prev) c "users" = Ok ()).
Proof.
  intros H c lenient. unfold check_power_levels in H. fold c lenient in H. cbv zeta in H.
  rewrite !seq_ok, !check_all_ok, !list.Forall_cons in H. destruct H as (Hs & [He _] & Hu & _ & H).
  split; [intros create; by apply resolve_levels_total|].
  intros prev Hp. rewrite Hp, seq_ok, !check_all_ok, !list.Forall_cons in H. naive_solver.
Qed.
End Accepted.

Section Levels.
Context `{RU : Ruma}.

Lemma user_level_listed p u :
  has_pl_event p = true →
  user_level p u =
    if privileged_creators (version p) && bool_decide (u ∈ room_creators p) then PInfinite
    else PInt (default (users_default p) (users p !! u)).
Proof. intros H. unfold user_level. rewrite H. case_match; [done|]. by destruct (users p !! u). Qed.

(** An accepted event, its previous levels and the levels it sets. *)
Lemma accepted_step v event state create prev :
  event_type event = "m.room.power_levels"%string →
  state "m.room.create"%string EmptyString = Some create →
  state "m.room.power_levels"%string EmptyString = Some prev →
  check_state_dependent v event state = Ok () →
  ∃ old new,
    resolve_levels v create (Some prev) = Ok old ∧ resolve_levels v create (Some event) = Ok new ∧
    check_alteration (lenient_power_levels v) (user_level old (sender event)) (content prev)
      (content event) "users_default" = Ok () ∧
    check_entries (lenient_power_levels v) (user_level old (sender event)) (sender event)
      (content prev) (content event) "users" = Ok ().
Proof.
  intros Ht Hc Hp Hok. destruct (accepted_levels v event state create) as (old & Ho & _ & H); [done..|].
  rewrite Hp in Ho. apply check_power_levels_ok in H as [Hn H]. destruct (Hn create) as [new ?].
  exists old, new. destruct (H prev Hp) as [Hs ?]. split_and!; [done..| |done].
  unfold scalar_keys in Hs. rewrite list.Forall_cons in Hs. by destruct Hs.
Qed.
End Levels.

(** ** Properties *)

(** C18 (no escalation): an accepted power-levels event comes from a user who
    has the level that the levels in force ask for it, and leaves levels that
    resolve, so the room stays governable.  Where it replaces an earlier
    power-levels event, no user's level rises above the sender's: every user
    keeps their level, or ends at or below the sender's, or is not listed and
    falls to a default that the sender did not raise (the old one, or zero when
    the property is removed).  The first power-levels event of a room replaces
    none, and no bound on its levels is claimed. *)
Theorem no_escalation `{RU : Ruma} v event state create :
  let before := state "m.room.power_levels"%string EmptyString in
  event_type event = "m.room.power_levels"%string →
  state "m.room.create"%string EmptyString = Some create →
  check_state_dependent v event state = Ok () →
  ∃ old new,
    resolve_levels v create before = Ok old ∧ resolve_levels v create (Some event) = Ok new ∧
    satisfies (user_level old (sender event))
      (required_for old "m.room.power_levels" (is_state event)) = true ∧
    (is_Some before → ∀ u,
       user_level new u = user_level old u ∨
       power_le (user_level new u) (user_level old (sender event)) = true ∨
       (users new !! u = None ∧
        (users_default new = users_default old ∨ users_default new = 0%Z))).
Proof.
  cbv zeta. intros Ht Hc Hok.
  destruct (accepted_levels v event state create) as (old & Ho & Hs & Hpl); [done..|]. rewrite Ht in Hs.
  destruct (state "m.room.power_levels"%string EmptyString) as [prev|] eqn:Hp.
  2: { apply check_power_levels_ok in Hpl as [Hn _]. destruct (Hn create) as [new Hnew].
       exists old, new. split_and!; [done..|by intros []]. }
  destruct (accepted_step v event state create prev) as (old' & new & Ho' & Hn & Ha & He); [done..|].
  assert (old' = old) as -> by congruence. clear Ho'.
  exists old, new. split_and!; [done..|]. intros _ u.
  apply resolve_levels_ok in Ho as (Vo & Co & Po & Uo & Do).
  apply resolve_levels_ok in Hn as (Vn & Cn & Pn & Un & Dn).
  set (own := user_level old (sender event)) in *.
  rewrite !user_level_listed by done. rewrite Vn, Vo, Cn, Co.
  case_match; [by left|]. rewrite Uo, Un. apply check_entries_ok in He as [_ Hg].
  destruct (entry_map _ (content event) "users" !! u) as [l|] eqn:Hl; simpl.
  - destruct (decide (entry_map (lenient_power_levels v) (content prev) "users" !! u = Some l))
      as [->|Hne]; [by left|]. right; left. exact (Hg u l Hl Hne).
  - right. rewrite Do, Dn. apply check_alteration_ok in Ha as [->|[_ Hw]]; [by right; split; [|left]|].
    destruct (get_level _ (content event) "users_default"); [left; exact Hw|by right; split; [|right]].
Qed.

Lemma no_escalation_witness :
  ∃ old new,
    resolve_levels V11 create_event (Some demo_levels) = Ok old ∧
    resolve_levels V11 create_event (Some demo_promotion) = Ok new ∧
    ∀ u, user_level new u = user_level old u ∨
         power_le (user_level new u) (user_level old bob) = true ∨
         (users new !! u = None ∧
          (users_default new = users_default old ∨ users_default new = 0%Z)).
Proof.
  destruct (no_escalation V11 demo_promotion levelled_view create_event)
    as (old & new & Ho & Hn & _ & Hu); [vm_compute; reflexivity..|].
  exists old, new. split; [exact Ho|]. split; [exact Hn|]. apply Hu. by eexists.
Defined.

(** An accepted power-levels event leaves the entry of every
    other user listed at or above the sender's level as it was. *)
Theorem peers_keep_their_level `{RU : Ruma} v event state create prev :
  event_type event = "m.room.power_levels"%string →
  state "m.room.create"%string EmptyString = Some create →
  state "m.room.power_levels"%string EmptyString = Some prev →
  check_state_dependent v event state = Ok () →
  ∃ old new,
    resolve_levels v create (Some prev) = Ok old ∧ resolve_levels v create (Some event) = Ok new ∧
    ∀ u l, users old !! u = Some l → u ≠ sender event →
      power_le (user_level old (sender event)) (PInt l) = true →
      users new !! u = Some l ∧ user_level new u = user_level old u.
Proof.
  intros Ht Hc Hp Hok.
  destruct (accepted_step v event state create prev) as (old & new & Ho & Hn & _ & He); [done..|].
  exists old, new. split; [done|]. split; [done|]. intros u l Hu Hne Hge.
  apply resolve_levels_ok in Ho as (Vo & Co & Po & Uo & _).
  apply resolve_levels_ok in Hn as (Vn & Cn & Pn & Un & _).
  apply check_entries_ok in He as [Hc' _]. rewrite Uo in Hu.
  assert (Hn : users new !! u = Some l).
  { rewrite Un. destruct (decide (entry_map (lenient_power_levels v) (content event) "users" !! u
      = Some l)) as [|Hd]; [done|]. destruct (Hc' u l Hu Hd) as [|Hlt]; [done|congruence]. }
  split; [done|]. rewrite !user_level_listed by done. by rewrite Vn, Vo, Cn, Co, Hn, Uo, Hu.
Qed.

Lemma peers_keep_their_level_witness :
  ∃ new, resolve_levels V11 create_event (Some demo_promotion) = Ok new ∧
         users new !! dave = Some 60%Z.
Proof.
  destruct (peers_keep_their_level V11 demo_promotion levelled_view create_event demo_levels)
    as (old & new & Ho & Hn & H); [vm_compute; reflexivity..|].
  exists new. split; [exact Hn|]. vm_compute in Ho. injection Ho as <-.
  apply (H dave 60%Z); [vm_compute; reflexivity|discriminate|vm_compute; reflexivity].
Defined.

(** Where creators are privileged, whatever levels
    the room sets a creator's stays infinite, no accepted member event of
    another user makes a creator leave or bans them, and no accepted
    power-levels event lists one. *)
Theorem creators_untouchable `{RU : Ruma} v event state create c :
  privileged_creators v = true → user_id_ok c = true →
  state "m.room.create"%string EmptyString = Some create → c ∈ creators v create →
  check_state_dependent v event state = Ok () →
  (∀ pl p, resolve_levels v create pl = Ok p → user_level p c = PInfinite) ∧
  (event_type event = "m.room.member"%string → state_key event = Some c → sender event ≠ c →
   ¬ asks event "leave" ∧ ¬ asks event "ban") ∧
  (event_type event = "m.room.power_levels"%string →
   ∀ us, obj_get "users" (content event) = Some (JObject us) → obj_get c us = None).
Proof.
  intros Hv Hid Hc Hin Hok.
  assert (Hinf : ∀ pl p, resolve_levels v create pl = Ok p → user_level p c = PInfinite).
  { intros pl p Hp. apply resolve_levels_ok in Hp as (Vp & Cp & _). unfold user_level.
    by rewrite Vp, Cp, Hv, bool_decide_eq_true_2. }
  split; [done|]. split.
  - intros Ht Hk Hs. unfold check_state_dependent in Hok. rewrite Hc in Hok.
    rewrite (proj2 (is_type_false event "m.room.create")) in Hok by by rewrite Ht.
    rewrite (proj2 (is_type_true event "m.room.member") Ht) in Hok.
    autorewrite with auth in Hok. destruct Hok as (_ & _ & Hok).
    destruct (resolve_levels _ _ _) as [p|] eqn:Hp; [|done]. apply Hinf in Hp.
    assert (Hout : ∀ pl, ¬ outranks p pl c).
    { intros pl. unfold outranks, user_from_str. by rewrite Hid, Hp, power_lt_irrefl_infinite. }
    apply check_member_sound in Hok. unfold asks, keyed in *.
    split; intros Hm; destruct Hok; unfold asks, keyed in *; naive_solver.
  - intros Ht us Hus. destruct (accepted_levels v event state create) as (old & Ho & _ & H); [done..|].
    apply resolve_levels_ok in Ho as (_ & Co & _). unfold check_power_levels in H. cbv zeta in H.
    rewrite !seq_ok in H. destruct H as (_ & _ & _ & H & _). unfold check_creator_entries in H.
    rewrite Hv, Hus, check_all_ok, list.Forall_forall, Co in H.
    specialize (H c ltac:(by apply elem_of_elements)). rewrite require_ok in H.
    by destruct (obj_get c us).
Qed.

Lemma creators_untouchable_witness :
  check_state_dependent V12 demo_promotion levelled_view = Ok () ∧
  ∀ pl p, resolve_levels V12 create_event pl = Ok p → user_level p alice = PInfinite.
Proof.
  split; [vm_compute; reflexivity|].
  apply (creators_untouchable V12 demo_promotion levelled_view create_event alice);
    vm_compute; reflexivity.
Defined.
