(* ===== verification/Acl.v ===== *)
(** * Server access control lists (saltator-core/src/acl.rs)

    The address parsers are those of Rust's [core::net], of which only
    success is observed. *)

From Stdlib Require Import Ascii.
From S2P Require Import Prelude Json CoreEvent.
From stdpp Require Import options.

(** ** [glob_match]

    A suffix of the pattern or of the text stands for the index where it
    starts: [pi] is [p[pi..]], and [star = Some(sp)] with [mark] is the pair of
    [p[sp + 1..]] and [t[mark..]]. *)

Definition ch_star : N := 42.
Definition ch_any : N := 63.

(** [p[pi] == '?' || p[pi] == t[ti]] *)
Definition char_matches (p t : N) : bool := ((p =? ch_any) || (p =? t))%N.

Definition glob_step (pi ti : list N) (star : option (list N * list N)) :
    option (list N * list N * option (list N * list N)) :=
  let backtrack := match star with
    | Some (sp, mark) => Some (sp, tail mark, Some (sp, tail mark))
    | None => None
    end in
  match pi, ti with
  | p :: pi', t :: ti' =>
      if char_matches p t then Some (pi', ti', star)
      else if (p =? ch_star)%N then Some (pi', ti, Some (pi', ti))
      else backtrack
  | _, _ => backtrack
  end.

(** The two [while] loops; the fuel bounds the iterations of the first. *)
Fixpoint glob_loop (fuel : nat) (pi ti : list N) (star : option (list N * list N)) : option bool :=
  match ti with
  | [] => Some (forallb (N.eqb ch_star) pi)
  | _ =>
      match fuel with
      | O => None
      | S fuel =>
          match glob_step pi ti star with
          | Some (pi, ti, star) => glob_loop fuel pi ti star
          | None => Some false
          end
      end
  end.

(** Each visit of a mark is followed by at most [|p| + |t|] steps. *)
Definition glob_fuel (p t : list N) : nat := S (length t) * S (length p + length t).

Definition glob_match (pattern s : string) : bool :=
  let p := chars pattern in
  let t := chars s in
  default false (glob_loop (glob_fuel p t) p t None).

(** ** Addresses *)

Definition parser (A : Type) : Type := string → option (A * string).

(** [char::to_digit] *)
Definition to_digit (radix : N) (c : ascii) : option N :=
  let n := N_of_ascii c in
  let d := if ((48 <=? n) && (n <=? 57))%N then Some (n - 48)%N
           else if ((97 <=? n) && (n <=? 122))%N then Some (n - 87)%N
           else if ((65 <=? n) && (n <=? 90))%N then Some (n - 55)%N
           else None in
  d ≫= λ d, if (d <? radix)%N then Some d else None.

(** The digits at the head, their value and count, and the rest. *)
Fixpoint read_digits (radix acc : N) (count : nat) (s : string) : N * nat * string :=
  match s with
  | String c s' =>
      match to_digit radix c with
      | Some d => read_digits radix (acc * radix + d) (S count) s'
      | None => (acc, count, s)
      end
  | EmptyString => (acc, count, s)
  end.

(** [read_number], into a type whose largest value is [limit]. *)
Definition read_number (radix : N) (max_digits : nat) (zero_prefix : bool) (limit : N) : parser N :=
  λ s,
    let '(v, count, rest) := read_digits radix 0 0 s in
    if (max_digits <? count)%nat then None
    else if (count =? 0)%nat then None
    else if negb zero_prefix && starts_with "0" s && (1 <? count)%nat then None
    else if (v <=? limit)%N then Some (v, rest) else None.

Definition read_given_char (c : ascii) : parser () :=
  λ s, match s with
       | String a s => if bool_decide (a = c) then Some ((), s) else None
       | EmptyString => None
       end.

Definition read_separator {A} (sep : ascii) (index : nat) (inner : parser A) : parser A :=
  λ s, if (index =? 0)%nat then inner s
       else '(_, s) ← read_given_char sep s; inner s.

Definition read_octet (i : nat) (s : string) : option string :=
  snd <$> read_separator "."%char i (read_number 10 3 false 255) s.

(** [read_ipv4_addr]: what follows the address. *)
Definition read_ipv4_addr : parser () :=
  λ s, s ← read_octet 0 s; s ← read_octet 1 s; s ← read_octet 2 s; s ← read_octet 3 s;
       Some ((), s).

(** [read_groups] of [limit] slots from the [i]-th: how many were read, whether
    they end in an IPv4 address, and the rest. *)
Fixpoint read_groups (slots limit i : nat) (s : string) : nat * bool * string :=
  match slots with
  | O => (limit, false, s)
  | S slots =>
      let group :=
        match read_separator ":"%char i (read_number 16 4 true 65535) s with
        | Some (_, s') => read_groups slots limit (S i) s'
        | None => (i, false, s)
        end in
      if (i <? limit - 1)%nat then
        match read_separator ":"%char i read_ipv4_addr s with
        | Some (_, s') => ((i + 2)%nat, true, s')
        | None => group
        end
      else group
  end.

Definition read_ipv6_addr : parser () :=
  λ s,
    let '(head_size, head_ipv4, s) := read_groups 8 8 0 s in
    if (head_size =? 8)%nat then Some ((), s)
    else if head_ipv4 then None
    else
      '(_, s) ← read_given_char ":" s;
      '(_, s) ← read_given_char ":" s;
      let limit := (8 - (head_size + 1))%nat in
      let '(_, _, s) := read_groups limit limit 0 s in
      Some ((), s).

(** [parse_with]: the whole input is read. *)
Definition parses {A} (p : parser A) (s : string) : bool :=
  match p s with Some (_, EmptyString) => true | _ => false end.

Definition ipv4_ok (s : string) : bool :=
  (String.length s <=? 15)%nat && parses read_ipv4_addr s.

Definition ipv6_ok (s : string) : bool := parses read_ipv6_addr s.

(** [s.rsplit_once(c)] *)
Fixpoint rsplit_once (c : ascii) (s : string) : option (string * string) :=
  match s with
  | EmptyString => None
  | String a s' =>
      match rsplit_once c s' with
      | Some (x, y) => Some (String a x, y)
      | None => if bool_decide (a = c) then Some (EmptyString, s') else None
      end
  end.

Definition is_digit (c : ascii) : bool :=
  ((48 <=? N_of_ascii c) && (N_of_ascii c <=? 57))%N.

Definition host_without_port (name : string) : string :=
  match name with
  | String "["%char rest =>
      match position "]"%char rest with
      | Some e => str_take (e + 2) name
      | None => name
      end
  | _ =>
      match rsplit_once ":"%char name with
      | Some (host, port) =>
          if negb (bool_decide (port = EmptyString)) && negb (str_existsb (λ c, negb (is_digit c)) port)
          then host else name
      | None => name
      end
  end.

(** [strip_prefix('[')] then [strip_suffix(']')] *)
Definition bracketed (host : string) : option string :=
  match host with
  | String "["%char s =>
      match rsplit_once "]"%char s with
      | Some (inner, EmptyString) => Some inner
      | _ => None
      end
  | _ => None
  end.

Definition is_ip_literal (host : string) : bool :=
  match bracketed host with Some inner => ipv6_ok inner | None => ipv4_ok host end.

(** ** [ServerAcl] *)

Record ServerAcl : Type := {
  acl_allow : list string;
  acl_deny : list string;
  allow_ip_literals : bool;
}.

Definition acl_list (content : json_object) (key : string) : list string :=
  match obj_get key content with Some (JArray a) => omap as_str a | _ => [] end.

Definition from_content (content : json_object) : ServerAcl := {|
  acl_allow := acl_list content "allow";
  acl_deny := acl_list content "deny";
  allow_ip_literals :=
    match obj_get "allow_ip_literals" content with Some (JBool false) => false | _ => true end;
|}.

Definition is_allowed (a : ServerAcl) (server_name : string) : bool :=
  if is_ip_literal (host_without_port server_name) && negb (allow_ip_literals a) then false
  else if existsb (λ g, glob_match g server_name) (acl_deny a) then false
  else existsb (λ g, glob_match g server_name) (acl_allow a).

Example address_samples :
  (ipv4_ok <$> ["1.2.3.4"; "01.2.3.4"; "1.2.3.256"; "1.2.3"; "0.0.0.0"; "1.2.3.4 "]%string,
   ipv6_ok <$> ["::1"; "::"; "1:2:3:4:5:6:7:8"; "1:2:3:4:5:6:7"; "fe80::1%eth"; "::ffff:1.2.3.4";
                "1:2:3:4:5:6:1.2.3.4"; "1::2::3"; "12345::"; "1:2:3:4:5:6:7::"]%string,
   is_ip_literal ∘ host_without_port <$> ["1.2.3.4:8448"; "[::1]:8448"; "host.name"; "[::1]x"]%string)
  = ([true; false; false; false; true; false],
     [true; true; true; false; false; true; true; false; false; true],
     [true; true; false; true]).
Proof. vm_compute. reflexivity. Qed.

Example glob_samples :
  (λ '(g, s), glob_match g s) <$>
    [("*.example.com", "deep.sub.example.com"); ("*.example.com", "example.com");
     ("one?.net", "one5.net"); ("one?.net", "one55.net"); ("*", ""); ("a*b*c", "aXbYbZc");
     ("a*b*c", "aXbYbZ")]%string
  = [true; false; true; false; true; true; false].
Proof. vm_compute. reflexivity. Qed.

(** * What a server ACL admits

    [globs] is the meaning of a pattern; the backtracking loop of
    [glob_match] ends, and decides it wherever the text holds no asterisk. *)

(** [*] is any run, [?] any one character, the others themselves. *)
Inductive globs : list N → list N → Prop :=
  | globs_nil : globs [] []
  | globs_skip p t : globs p t → globs (ch_star :: p) t
  | globs_take p c t : globs (ch_star :: p) t → globs (ch_star :: p) (c :: t)
  | globs_any p c t : globs p t → globs (ch_any :: p) (c :: t)
  | globs_char p c t : c ≠ ch_star → c ≠ ch_any → globs p t → globs (c :: p) (c :: t).

(** ** The meaning of a pattern *)

(** A pattern character that is not [*] takes exactly one character. *)
Lemma globs_one a p c t :
  a ≠ ch_star → globs (a :: p) (c :: t) ↔ char_matches a c = true ∧ globs p t.
Proof.
  intros Ha. unfold char_matches. rewrite orb_true_iff, !N.eqb_eq. split.
  - inversion 1; naive_solver.
  - intros [[->| ->] H]; [by apply globs_any|].
    destruct (decide (c = ch_any)) as [->|]; [by apply globs_any|by apply globs_char].
Qed.

Lemma globs_one_nil a p : a ≠ ch_star → ¬ globs (a :: p) [].
Proof. intros Ha H. inversion H; subst; done. Qed.

Lemma globs_nil_r p : globs p [] ↔ forallb (N.eqb ch_star) p = true.
Proof.
  induction p as [|a p IH]; cbn [forallb].
  - split; [done|constructor].
  - rewrite andb_true_iff, N.eqb_eq. split.
    + intros H. inversion H; subst; naive_solver.
    + intros [<- H]. apply globs_skip. naive_solver.
Qed.

Lemma globs_nil_l t : globs [] t ↔ t = [].
Proof. split; [by inversion 1|intros ->; constructor]. Qed.

Lemma globs_star p t :
  globs (ch_star :: p) t ↔ globs p t ∨ ∃ c t', t = c :: t' ∧ globs (ch_star :: p) t'.
Proof.
  split.
  - inversion 1; subst; try done; eauto.
  - intros [H|(c & t' & -> & H)]; by constructor.
Qed.

Lemma globs_star_app p r t : globs (ch_star :: p) t → globs (ch_star :: p) (r ++ t).
Proof. intros H. induction r; simpl; [done|by apply globs_take]. Qed.

(** [*] matches some prefix. *)
Lemma globs_star_inv p t : globs (ch_star :: p) t → ∃ r s, t = r ++ s ∧ globs p s.
Proof.
  remember (ch_star :: p) as q eqn:Hq. induction 1; try done.
  - injection Hq as ->. by exists [], t.
  - destruct IHglobs as (r & s & -> & ?); [done|]. by exists (c :: r), s.
  - injection Hq as ??; subst. done.
Qed.

(** A run of the pattern without [*] takes as many characters. *)
Lemma globs_fixed q p t :
  Forall (λ a, a ≠ ch_star) q → globs (q ++ p) t →
  ∃ r s, t = r ++ s ∧ length r = length q ∧ globs p s.
Proof.
  intros Hq. revert t. induction Hq as [|a q Ha Hq IH]; intros t H; simpl in *; [by exists [], t|].
  destruct t as [|c t]; [by apply globs_one_nil in H|].
  apply globs_one in H as [_ H]; [|done]. destruct (IH t H) as (r & s & -> & ? & ?).
  exists (c :: r), s. simpl. split_and!; [done|by f_equal|done].
Qed.

(** ** The loop *)

(** Where the loop is since its last [*]: [sp = q ++ pi] and [mark = r ++ ti],
    with [q] free of [*] and as long as [r]. *)
Definition since_star (pi ti : list N) (star : option (list N * list N)) : Prop :=
  match star with
  | Some (sp, mark) => ∃ q r, sp = q ++ pi ∧ mark = r ++ ti ∧ length q = length r ∧
                              Forall (λ a, a ≠ ch_star) q
  | None => True
  end.

(** What may still match: from here, or by moving the mark. *)
Definition may_match (pi ti : list N) (star : option (list N * list N)) : Prop :=
  globs pi ti ∨
  match star with
  | Some (sp, mark) => ∃ c m, mark = c :: m ∧ globs (ch_star :: sp) m
  | None => False
  end.

Lemma moving_is_later pi ti sp mark q r c m :
  sp = q ++ ch_star :: pi → mark = r ++ ti → length q = length r →
  Forall (λ a, a ≠ ch_star) q → mark = c :: m → globs (ch_star :: sp) m →
  globs (ch_star :: pi) ti.
Proof.
  intros -> Hm Hl Hq Hc H. apply globs_star_inv in H as (x & s & -> & H).
  apply globs_fixed in H as (y & z & -> & Hy & H); [|done].
  rewrite Hm in Hc. assert (Hlen : length (r ++ ti) = length (c :: x ++ y ++ z)) by by rewrite Hc.
  rewrite !length_app in Hlen. simpl in Hlen. rewrite !length_app in Hlen.
  assert (E : drop (length (c :: x ++ y)) (r ++ ti) = z).
  { rewrite Hc. change (c :: x ++ y ++ z) with ((c :: x) ++ y ++ z). rewrite app_assoc.
    by rewrite (drop_app_length (c :: x ++ y)). }
  rewrite drop_app_ge in E by (simpl; rewrite length_app; lia).
  rewrite <- (take_drop (length (c :: x ++ y) - length r) ti), E. by apply globs_star_app.
Qed.

Lemma glob_step_invariant pi t ti star :
  t ≠ ch_star → since_star pi (t :: ti) star →
  match glob_step pi (t :: ti) star with
  | Some (pi', ti', star') => since_star pi' ti' star' ∧
      (may_match pi (t :: ti) star ↔ may_match pi' ti' star')
  | None => ¬ may_match pi (t :: ti) star
  end.
Proof.
  intros Ht Hs.
  (* moving the mark is all that is left *)
  assert (Hback : ¬ globs pi (t :: ti) →
    match match star with
          | Some (sp, mark) => Some (sp, tail mark, Some (sp, tail mark)) | None => None end with
    | Some (pi', ti', star') => since_star pi' ti' star' ∧
        (may_match pi (t :: ti) star ↔ may_match pi' ti' star')
    | None => ¬ may_match pi (t :: ti) star
    end).
  { intros Hno. destruct star as [[sp mark]|]; unfold may_match; [|naive_solver].
    destruct Hs as (q & r & Hsp & Hm & Hl & Hq). split; [by exists [], []|].
    destruct mark as [|c m]; [by destruct r|]. simpl. rewrite <- globs_star. naive_solver. }
  destruct pi as [|p pi]; simpl; [apply Hback; by rewrite globs_nil_l|].
  destruct (char_matches p t) eqn:Hc.
  - assert (Hp : p ≠ ch_star).
    { intros ->. unfold char_matches in Hc. apply orb_true_iff in Hc as [Hc|Hc];
        apply N.eqb_eq in Hc; [done|by subst]. }
    split.
    + destruct star as [[sp mark]|]; [|done]. destruct Hs as (q & r & -> & -> & Hl & Hq).
      exists (q ++ [p]), (r ++ [t]). rewrite <- !app_assoc, !length_app, Hl. split_and!; try done.
      apply Forall_app; auto.
    + unfold may_match. rewrite globs_one by done. naive_solver.
  - destruct (N.eqb_spec p ch_star) as [->|Hp].
    + split; [by exists [], []|]. unfold may_match at 2. simpl.
      assert (globs pi (t :: ti) ∨ (∃ c m, t :: ti = c :: m ∧ globs (ch_star :: pi) m) ↔
              globs (ch_star :: pi) (t :: ti)) as -> by (by rewrite globs_star).
      unfold may_match. split; [|by left]. intros [?|H]; [done|].
      destruct star as [[sp mark]|]; [|done]. destruct H as (c & m & Hm & H).
      destruct Hs as (q & r & Hsp & Hm' & Hl & Hq). by eapply moving_is_later.
    + apply Hback. rewrite globs_one by done. rewrite Hc. by intros [? _].
Qed.

(** At the end of the text the mark can no longer move: what follows the last
    [*] has taken its characters already. *)
Lemma may_match_end pi star :
  since_star pi [] star → may_match pi [] star ↔ forallb (N.eqb ch_star) pi = true.
Proof.
  intros Hs. unfold may_match. rewrite globs_nil_r. split; [|by left]. intros [|H]; [done|].
  destruct star as [[sp mark]|]; [|done]. destruct H as (c & m & Hm & H).
  destruct Hs as (q & r & -> & -> & Hl & Hq). rewrite app_nil_r in Hm. subst r.
  apply globs_star_inv in H as (x & s & -> & H).
  apply globs_fixed in H as (y & z & -> & Hy & _); [|done].
  simpl in Hl. rewrite !length_app in Hl. lia.
Qed.

(** The text the loop may still read. *)
Definition unread (ti : list N) (star : option (list N * list N)) : list N :=
  match star with Some (_, mark) => mark | None => ti end.

Lemma since_unread pi ti star :
  since_star pi ti star → ∃ r, unread ti star = r ++ ti.
Proof. destruct star as [[sp mark]|]; [|by exists []]. intros (q & r & _ & -> & _). by exists r. Qed.

Lemma glob_step_unread pi t ti star pi' ti' star' :
  since_star pi (t :: ti) star → glob_step pi (t :: ti) star = Some (pi', ti', star') →
  ∃ r, unread (t :: ti) star = r ++ unread ti' star'.
Proof.
  intros Hs. destruct (since_unread _ _ _ Hs) as [r0 Hr].
  assert (Hback : ∀ pi' ti' star', match star with
      | Some (sp, mark) => Some (sp, tail mark, Some (sp, tail mark)) | None => None end
      = Some (pi', ti', star') → ∃ r, unread (t :: ti) star = r ++ unread ti' star').
  { intros pi1 ti1 star1. destruct star as [[sp [|c m]]|]; [..|done]; intros [= <- <- <-]; simpl;
      [by exists []|by exists [c]]. }
  destruct pi as [|p pi]; cbn [glob_step]; [apply Hback|]. destruct (char_matches p t).
  { intros [= <- <- <-]. destruct star as [[sp mark]|]; [by exists []|by exists [t]]. }
  destruct (p =? ch_star)%N; [|apply Hback]. intros [= <- <- <-]. by exists r0.
Qed.

Lemma glob_loop_correct fuel pi ti star b :
  Forall (λ c, c ≠ ch_star) (unread ti star) → since_star pi ti star →
  glob_loop fuel pi ti star = Some b → b = true ↔ may_match pi ti star.
Proof.
  revert pi ti star. induction fuel as [|fuel IH]; intros pi ti star Hu Hs;
    destruct ti as [|t ti]; cbn [glob_loop]; [|done| |].
  1,2: intros [= <-]; by rewrite may_match_end.
  assert (Ht : t ≠ ch_star).
  { destruct (since_unread _ _ _ Hs) as [r E]. rewrite E in Hu.
    apply Forall_app in Hu as [_ Hu]. by apply list.Forall_cons in Hu as [??]. }
  pose proof (glob_step_invariant pi t ti star Ht Hs) as Hstep.
  destruct (glob_step pi (t :: ti) star) as [[[pi' ti'] star']|] eqn:E.
  - destruct Hstep as [Hs' ->]. apply IH; [|done].
    destruct (glob_step_unread _ _ _ _ _ _ _ Hs E) as [r Hr]. rewrite Hr in Hu.
    by apply Forall_app in Hu as [_ Hu].
  - intros [= <-]. naive_solver.
Qed.

(** ** Termination *)

Section Terminates.
Context (K : nat).

(** A moved mark pays for a fresh run over the pattern and the text. *)
Definition measure (pi ti : list N) (star : option (list N * list N)) : nat :=
  (length (unread ti star) * S K + length pi + length ti)%nat.

Definition bounded (pi ti : list N) (star : option (list N * list N)) : Prop :=
  (length pi + length ti ≤ K ∧ length ti ≤ length (unread ti star) ∧
   match star with Some (sp, mark) => length sp + length mark ≤ K | None => True end)%nat.

Lemma glob_step_measure pi t ti star pi' ti' star' :
  bounded pi (t :: ti) star → glob_step pi (t :: ti) star = Some (pi', ti', star') →
  bounded pi' ti' star' ∧ (measure pi' ti' star' < measure pi (t :: ti) star)%nat.
Proof.
  unfold bounded, measure. intros Hb.
  assert (Hback : ∀ pi' ti' star', match star with
      | Some (sp, mark) => Some (sp, tail mark, Some (sp, tail mark)) | None => None end
      = Some (pi', ti', star') → bounded pi' ti' star' ∧
        (measure pi' ti' star' < measure pi (t :: ti) star)%nat).
  { intros pi1 ti1 star1. unfold bounded, measure. destruct star as [[sp [|c m]]|]; [..|done];
      intros [= <- <- <-]; simpl in *; nia. }
  destruct pi as [|p pi]; cbn [glob_step]; [apply Hback|]. destruct (char_matches p t).
  { intros [= <- <- <-]. destruct star as [[sp mark]|]; simpl in *; nia. }
  destruct (p =? ch_star)%N; [|apply Hback]. intros [= <- <- <-].
  destruct star as [[sp mark]|]; simpl in *; nia.
Qed.

Lemma glob_loop_total fuel pi ti star :
  bounded pi ti star → (measure pi ti star < fuel)%nat → is_Some (glob_loop fuel pi ti star).
Proof.
  revert pi ti star. induction fuel as [|fuel IH]; intros pi ti star Hb Hm; [lia|].
  destruct ti as [|t ti]; cbn [glob_loop]; [eauto|].
  destruct (glob_step pi (t :: ti) star) as [[[pi' ti'] star']|] eqn:E; [|eauto].
  apply glob_step_measure in E as [??]; [|done]. apply IH; [done|lia].
Qed.
End Terminates.

Lemma glob_match_total p t : is_Some (glob_loop (glob_fuel p t) p t None).
Proof.
  apply (glob_loop_total (length p + length t)); unfold bounded, measure, glob_fuel; simpl; lia.
Qed.

Lemma glob_match_iff pattern s :
  Forall (λ c, c ≠ ch_star) (chars s) →
  glob_match pattern s = true ↔ globs (chars pattern) (chars s).
Proof.
  intros Ht. destruct (glob_match_total (chars pattern) (chars s)) as [b Hb].
  unfold glob_match. rewrite Hb. simpl.
  rewrite (glob_loop_correct _ _ _ None _ Ht I Hb). unfold may_match. naive_solver.
Qed.

(** ** Properties *)

(** On a text without an asterisk, [glob_match] decides the
    meaning of the pattern; its loop never runs out of steps. *)
Theorem glob_match_decides pattern s :
  Forall (λ c, c ≠ ch_star) (chars s) →
  is_Some (glob_loop (glob_fuel (chars pattern) (chars s)) (chars pattern) (chars s) None) ∧
  (glob_match pattern s = true ↔ globs (chars pattern) (chars s)).
Proof. intros Ht. split; [apply glob_match_total|by apply glob_match_iff]. Qed.

Lemma glob_match_decides_witness :
  is_Some (glob_loop (glob_fuel (chars "*.exa?ple.*") (chars "sub.example.org"))
             (chars "*.exa?ple.*") (chars "sub.example.org") None) ∧
  (glob_match "*.exa?ple.*" "sub.example.org" = true ↔
   globs (chars "*.exa?ple.*") (chars "sub.example.org")).
Proof.
  apply (glob_match_decides "*.exa?ple.*" "sub.example.org").
  apply (bool_decide_unpack _). vm_compute. exact I.
Defined.

(** The loop tries a character literally before it reads an
    asterisk as a wildcard, so an asterisk in the text spends the one in the
    pattern: [*] does not match every text, and an ACL that allows everyone
    refuses the name that starts with an asterisk. *)
Theorem glob_asterisk_in_text :
  globs (chars "*") (chars "*x.org") ∧ glob_match "*" "*x.org" = false ∧
  is_allowed (from_content [("allow"%string, JArray [JString "*"])]) "*x.org" = false.
Proof. split; [do 6 apply globs_take; apply globs_skip, globs_nil|by vm_compute]. Qed.

(** C19 (ACL decision): a server whose name has no asterisk is admitted exactly
    when it is not an address where addresses are refused (the port aside), no
    deny entry matches its full name, port included, and some allow entry
    does.  The doc comment of [is_allowed] has the port stripped before
    entries are matched; its body and its tests match the full name. *)
Theorem acl_decision a server :
  Forall (λ c, c ≠ ch_star) (chars server) →
  is_allowed a server = true ↔
  (is_ip_literal (host_without_port server) = true → allow_ip_literals a = true) ∧
  (∀ g, g ∈ acl_deny a → ¬ globs (chars g) (chars server)) ∧
  (∃ g, g ∈ acl_allow a ∧ globs (chars g) (chars server)).
Proof.
  intros Ht. unfold is_allowed.
  assert (Hex : ∀ l, existsb (λ g, glob_match g server) l = true ↔
    ∃ g, g ∈ l ∧ globs (chars g) (chars server)).
  { intros l. rewrite existsb_exists. setoid_rewrite <- list_elem_of_In.
    f_equiv. intros g. by rewrite glob_match_iff. }
  destruct (is_ip_literal (host_without_port server)), (allow_ip_literals a); simpl;
    try (split; [discriminate|intros [Hip _]; by specialize (Hip eq_refl)]).
  all: destruct (existsb _ (acl_deny a)) eqn:Hd.
  all: try (apply Hex in Hd; split; [done|naive_solver]).
  all: rewrite Hex; split; [|naive_solver]; intros Ha; split; [done|]; split; [|done].
  all: intros g Hg Hm; rewrite (proj2 (Hex _)) in Hd; [done|by exists g].
Qed.

Lemma acl_decision_witness :
  is_allowed (from_content [("allow"%string, JArray [JString "*"])]) "matrix.org:8448" = true.
Proof.
  apply (acl_decision (from_content [("allow"%string, JArray [JString "*"])]) "matrix.org:8448").
  - apply (bool_decide_unpack _). vm_compute. exact I.
  - split_and!.
    + vm_compute. discriminate.
    + intros g Hg. vm_compute in Hg. by apply not_elem_of_nil in Hg.
    + exists "*"%string. split; [by left|]. apply glob_match_iff; [|by vm_compute].
      apply (bool_decide_unpack _). vm_compute. exact I.
Defined.
