(* ===== verification/StateRes.v ===== *)
(** * State resolution (saltator-core/src/state_res.rs)

    Every loop whose end depends on the event graph takes the number of its
    iterations as [fuel]; [Diverges] is a loop that ran out of it, and only
    that.  The theorems show that it does not occur. *)

From Stdlib Require Import Ascii.
From S2P Require Import Prelude Json CoreEvent PowerLevels Auth Order.
From stdpp Require Import options.

(** A state map key: event type and state key. *)
Abbreviation Key := (string * string)%type (only parsing).
(** A state snapshot as resolved ids. *)
Abbreviation StateIds := (gmap Key string) (only parsing).

Inductive StateResError : Type :=
  | MissingEvent (id : string)
  | MissingCreate
  | Diverges.

Abbreviation res A := (result StateResError A) (only parsing).

(** [BTreeMap<Key, _>] iterates in the order of the keys. *)
Definition key_le (a b : Key) : bool :=
  match String.compare a.1 b.1 with
  | Lt => true
  | Eq => match String.compare a.2 b.2 with Gt => false | _ => true end
  | Gt => false
  end.

Definition sorted_keys (s : gset Key) : list Key := merge_sort (holds key_le) (elements s).

Definition state_values (s : StateIds) : list string :=
  omap (λ k, s !! k) (sorted_keys (dom s)).

Definition create_key : Key := ("m.room.create"%string, EmptyString).
Definition pl_key : Key := ("m.room.power_levels"%string, EmptyString).

(** ** [partition] *)

Definition unconflicted_at (state_sets : list StateIds) (k : Key) : option string :=
  match state_sets with
  | [] => None
  | s :: _ => v ← s !! k; if forallb (λ s', bool_decide (s' !! k = Some v)) state_sets
                          then Some v else None
  end.

Definition partition_step (state_sets : list StateIds) (acc : StateIds * gset string) (k : Key) :
    StateIds * gset string :=
  match unconflicted_at state_sets k with
  | Some value => (<[k := value]> acc.1, acc.2)
  | None => (acc.1, acc.2 ∪ list_to_set (omap (λ s : StateIds, s !! k) state_sets))
  end.

Definition partition (state_sets : list StateIds) : StateIds * gset string :=
  foldl (partition_step state_sets) (∅, ∅) (sorted_keys (⋃ (dom <$> state_sets))).

Abbreviation ChainCache := (gmap string (gset string)) (only parsing).

(** ** Power events *)

Definition is_power_event (event : Event) : bool :=
  if mem_is (event_type event) ["m.room.power_levels"; "m.room.join_rules"]%string
  then is_str EmptyString (state_key event)
  else if is_type event "m.room.member" then
    match str_prop (content event) "membership" with
    | Some m => mem_is m ["leave"; "ban"]%string
                && negb (is_str (sender event) (state_key event))
    | None => false
    end
  else false.

Definition default_user_level (pl_content : json_object) : Z :=
  match obj_get "users_default" pl_content with Some (JInteger i) => i | _ => 0 end.

Definition user_level_in (pl_content : json_object) (user : string) : Z :=
  match obj_get "users" pl_content with
  | Some (JObject us) =>
      match obj_get user us with Some (JInteger i) => i | _ => default_user_level pl_content end
  | _ => default_user_level pl_content
  end.

(** [auth.event_type() == "m.room.power_levels" && auth.state_key() == Some("")] *)
Definition is_levels (auth : Event) : bool :=
  is_type auth "m.room.power_levels" && is_str EmptyString (state_key auth).

(** [SortKey(Reverse(power), ts, id)] and its derived order. *)
Record SortKey : Type := { sk_power : PowerLevel; sk_ts : N; sk_id : string }.

#[export] Instance sort_key_eq_dec : EqDecision SortKey.
Proof. solve_decision. Defined.

Definition sort_key_cmp (a b : SortKey) : comparison :=
  match power_cmp (sk_power b) (sk_power a) with
  | Eq => match N.compare (sk_ts a) (sk_ts b) with
          | Eq => String.compare (sk_id a) (sk_id b)
          | c => c
          end
  | c => c
  end.

(** Inserting in a [BTreeSet<(&SortKey, _)>]: the id repeats the key's. *)
Fixpoint ready_insert (k : SortKey) (l : list SortKey) : list SortKey :=
  match l with
  | [] => [k]
  | k' :: l' => match sort_key_cmp k k' with
                | Lt => k :: l
                | Eq => l
                | Gt => k' :: ready_insert k l'
                end
  end.

(** ** Mainline order *)

Definition usize_max : N := u64_max.

(** The comparison of [ordered.sort_by]: position descending, then timestamp,
    then id. *)
Definition mainline_le (a b : N * N * string) : bool :=
  let '(pa, ta, ia) := a in let '(pb, tb, ib) := b in
  match N.compare pb pa with
  | Lt => true
  | Gt => false
  | Eq => match N.compare ta tb with
          | Lt => true
          | Gt => false
          | Eq => match String.compare ia ib with Gt => false | _ => true end
          end
  end.

Section Fetch.
Context `{RU : Ruma}.
Context (fetch : string → option Event) (fuel : nat).

(** [fetch(id).ok_or_else(|| MissingEvent(id))] *)
Definition fetched (id : string) : res Event := ok_or (fetch id) (MissingEvent id).

(** ** [auth_chain] *)

(** [!finished.contains(a) && !cache.contains_key(a)] *)
Definition unvisited (cache : ChainCache) (finished : gset string) (a : string) : bool :=
  negb (bool_decide (a ∈ finished)) && negb (bool_decide (is_Some (cache !! a))).

(** The stack is a list, its top first. *)
Fixpoint chain_walk (n : nat) (cache : ChainCache) (order : list string) (finished : gset string)
    (stack : list (string * bool)) : res (list string) :=
  match stack with
  | [] => Ok order
  | (node, post) :: stack =>
      match n with
      | O => Err Diverges
      | S n =>
          if post : bool then
            if bool_decide (node ∈ finished) then chain_walk n cache order finished stack
            else chain_walk n cache (order ++ [node]) ({[node]} ∪ finished) stack
          else if negb (unvisited cache finished node) then chain_walk n cache order finished stack
          else
            let? event := fetched node in
            let pushed := (λ a, (a, false)) <$>
              base.filter (λ a, unvisited cache finished a = true) (auth_events event) in
            chain_walk n cache order finished (rev pushed ++ (node, true) :: stack)
      end
  end.

(** One node of the assembly pass: its auth events are cached by then. *)
Definition chain_of_node (cache : ChainCache) (event : Event) : gset string :=
  foldl (λ chain a, {[a]} ∪ chain ∪ default ∅ (cache !! a)) ∅ (auth_events event).

Definition assemble (cache : ChainCache) (node : string) : res ChainCache :=
  let? event := fetched node in
  Ok (<[node := chain_of_node cache event]> cache).

Definition auth_chain (id : string) (cache : ChainCache) : res (gset string * ChainCache) :=
  match cache !! id with
  | Some chain => Ok (chain, cache)
  | None =>
      let? order := chain_walk fuel cache [] ∅ [(id, false)] in
      let? cache := try_fold assemble cache order in
      Ok (default ∅ (cache !! id), cache)
  end.

(** ** [conflicted_subgraph] *)

Fixpoint forward_edges (n : nat) (edges : gmap string (list string)) (stack : list string) :
    res (gmap string (list string)) :=
  match stack with
  | [] => Ok edges
  | id :: stack =>
      match n with
      | O => Err Diverges
      | S n =>
          if bool_decide (is_Some (edges !! id)) then forward_edges n edges stack
          else
            let? event := fetched id in
            forward_edges n (<[id := auth_events event]> edges) (rev (auth_events event) ++ stack)
      end
  end.

(** Some auth event of the node reaches. *)
Definition leads (reaches : gset string) (auth : list string) : bool :=
  existsb (λ a, bool_decide (a ∈ reaches)) auth.

(** One pass of the loop, in the order of the nodes: [reaches] as the set of
    the nodes it maps to true, and whether the pass changed it. *)
Definition reach_pass (edges : gmap string (list string)) (reaches : gset string) :
    gset string * bool :=
  foldl (λ '(reaches, changed) node,
    if negb (bool_decide (node ∈ reaches)) && leads reaches (default [] (edges !! node))
    then ({[node]} ∪ reaches, true) else (reaches, changed))
    (reaches, false) (btree (dom edges)).

Fixpoint reach_loop (n : nat) (edges : gmap string (list string)) (reaches : gset string) :
    res (gset string) :=
  match n with
  | O => Err Diverges
  | S n =>
      let '(reaches, changed) := reach_pass edges reaches in
      if changed : bool then reach_loop n edges reaches else Ok reaches
  end.

Definition conflicted_subgraph (conflicted : gset string) : res (gset string) :=
  let? edges := forward_edges fuel ∅ (rev (btree conflicted)) in
  let? reaches := reach_loop fuel edges (conflicted ∩ dom edges) in
  Ok (filter (λ id, bool_decide (id ∈ conflicted)
                    || leads reaches (default [] (edges !! id)) = true) (dom edges)).
(** ** Reverse topological power order *)

(** The first of the auth events that is a power-levels event. *)
Fixpoint first_levels (l : list string) : res (option string) :=
  match l with
  | [] => Ok None
  | id :: l =>
      let? auth := fetched id in
      if is_levels auth then Ok (Some id) else first_levels l
  end.

Definition pl_in_auth_events (event : Event) : res (option string) :=
  first_levels (auth_events event).

Definition sender_power_at (v : RoomVersion) (event : Event) (creators : gset string) :
    res PowerLevel :=
  let creator := bool_decide (sender event ∈ creators) in
  if privileged_creators v && creator then Ok PInfinite
  else
    let? pl := pl_in_auth_events event in
    match pl with
    | Some id =>
        let? auth := fetched id in
        Ok (PInt (user_level_in (content auth) (sender event)))
    | None => Ok (PInt (if creator then 100 else 0))
    end.

Record KahnInit : Type := {
  keys : gmap string SortKey;
  pending : gmap string (gset string);
  dependents : gmap string (list string);
  chain_cache : ChainCache;
}.

(** [dependents.entry(d).or_default().push(id)] for each dependency. *)
Definition add_dependents (id : string) (deps : gset string) (m : gmap string (list string)) :
    gmap string (list string) :=
  foldl (λ m d, <[d := default [] (m !! d) ++ [id]]> m) m (btree deps).

Definition kahn_enter (v : RoomVersion) (events creators : gset string) (st : KahnInit)
    (id : string) : res KahnInit :=
  let? event := fetched id in
  let? power := sender_power_at v event creators in
  let? (chain, cache) := auth_chain id (chain_cache st) in
  let deps := chain ∩ events in
  Ok {| keys := <[id := {| sk_power := power; sk_ts := origin_server_ts event; sk_id := id |}]>
                  (keys st);
        pending := <[id := deps]> (pending st);
        dependents := add_dependents id deps (dependents st);
        chain_cache := cache |}.

(** A dependent loses a dependency; the last one makes it ready. *)
Definition release (ks : gmap string SortKey) (id : string)
    (st : gmap string (gset string) * list SortKey) (dependent : string) :
    gmap string (gset string) * list SortKey :=
  let deps := default ∅ (st.1 !! dependent) ∖ {[id]} in
  (<[dependent := deps]> st.1,
   if bool_decide (deps = ∅)
   then match ks !! dependent with Some k => ready_insert k st.2 | None => st.2 end
   else st.2).

Fixpoint kahn_loop (n : nat) (ks : gmap string SortKey) (pend : gmap string (gset string))
    (deps : gmap string (list string)) (ready : list SortKey) (out : list string) :
    res (list string) :=
  match ready with
  | [] => Ok out
  | k :: ready =>
      match n with
      | O => Err Diverges
      | S n =>
          let id := sk_id k in
          let '(pend, ready) := foldl (release ks id) (pend, ready) (default [] (deps !! id)) in
          kahn_loop n ks pend (delete id deps) ready (out ++ [id])
      end
  end.

Definition reverse_topological_power_order (v : RoomVersion) (events creators : gset string)
    (cache : ChainCache) : res (list string * ChainCache) :=
  let? st := try_fold (kahn_enter v events creators)
    {| keys := ∅; pending := ∅; dependents := ∅; chain_cache := cache |} (btree events) in
  let free := filter (λ id, pending st !! id = Some ∅) (btree (dom (pending st))) in
  let ready := foldl (λ l k, ready_insert k l) [] (omap (λ id, keys st !! id) free) in
  let? out := kahn_loop fuel (keys st) (pending st) (dependents st) ready [] in
  Ok (out, chain_cache st).

(** ** Iterative auth checks *)

Definition event_key (e : Event) : Key := (event_type e, default EmptyString (state_key e)).

(** The first of the event's own auth events with the key; unavailable ones
    are passed over. *)
Definition own_auth_event (event : Event) (key : Key) : option Event :=
  find (λ a, bool_decide (event_key a = key)) (omap fetch (auth_events event)).

Definition create_of_room (event : Event) : option Event :=
  room_id ← room_id event;
  let create_id := String "$"%char (str_drop 1 room_id) in
  if event_id_ok create_id then fetch create_id else None.

Definition effective_add (v : RoomVersion) (event : Event) (state : StateIds)
    (effective : gmap Key Event) (key : Key) : res (gmap Key Event) :=
  match state !! key with
  | Some existing => let? e := fetched existing in Ok (<[key := e]> effective)
  | None =>
      let found :=
        if bool_decide (key.1 = "m.room.create"%string) && room_id_is_create_event_id v
        then create_of_room event else own_auth_event event key in
      Ok (match found with Some e => <[key := e]> effective | None => effective end)
  end.

(** The keys the rules may consult. *)
Definition needed_keys (v : RoomVersion) (event : Event) : gset Key :=
  {[create_key]} ∪ auth_types_for_event v (event_type event) (sender event) (state_key event)
                     (content event).

Definition effective_state (v : RoomVersion) (event : Event) (state : StateIds) :
    res (gmap Key Event) :=
  try_fold (effective_add v event state) ∅ (sorted_keys (needed_keys v event)).

Definition auth_step (v : RoomVersion) (state : StateIds) (id : string) : res StateIds :=
  let? event := fetched id in
  let? effective := effective_state v event state in
  if is_ok (check_state_dependent v event (λ t k, effective !! (t, k)))
  then Ok (<[event_key event := id]> state) else Ok state.

Definition iterative_auth_checks (v : RoomVersion) (order : list string) (initial : StateIds) :
    res StateIds :=
  try_fold (auth_step v) initial order.

(** ** Mainline *)

Fixpoint mainline_loop (n : nat) (mainline : gmap string N) (index : N) (current : option string) :
    res (gmap string N) :=
  match current with
  | None => Ok mainline
  | Some id =>
      match n with
      | O => Err Diverges
      | S n =>
          let? event := fetched id in
          let? current := pl_in_auth_events event in
          mainline_loop n (<[id := index]> mainline) (index + 1) current
      end
  end.

Definition build_mainline (start : option string) : res (gmap string N) :=
  mainline_loop fuel ∅ 0 start.

Fixpoint position_loop (n : nat) (mainline cache : gmap string N) (walked : list string)
    (current : option string) : res (N * list string) :=
  match current with
  | None => Ok (usize_max, walked)
  | Some id =>
      match n with
      | O => Err Diverges
      | S n =>
          match mainline !! id with
          | Some i => Ok (i, walked)
          | None =>
              match cache !! id with
              | Some i => Ok (i, walked)
              | None =>
                  let? e := fetched id in
                  let? current := pl_in_auth_events e in
                  position_loop n mainline cache (walked ++ [id]) current
              end
          end
      end
  end.

Definition mainline_position (event : Event) (mainline cache : gmap string N) :
    res (N * gmap string N) :=
  match cache !! event_id event with
  | Some pos => Ok (pos, cache)
  | None =>
      let? current := pl_in_auth_events event in
      let? (pos, walked) := position_loop fuel mainline cache [event_id event] current in
      Ok (pos, foldl (λ cache id, <[id := pos]> cache) cache walked)
  end.

Definition order_step (mainline : gmap string N)
    (acc : list (N * N * string) * gmap string N) (id : string) :
    res (list (N * N * string) * gmap string N) :=
  let? event := fetched id in
  let? (pos, cache) := mainline_position event mainline acc.2 in
  Ok (acc.1 ++ [(pos, origin_server_ts event, id)], cache).

Definition mainline_order (mainline : gmap string N) (remaining : list string) :
    res (list string) :=
  let? (ordered, _) := try_fold (order_step mainline) ([], ∅) remaining in
  Ok (snd <$> merge_sort (holds mainline_le) ordered).

(** ** [resolve] *)

Definition extend_chain (acc : gset string * ChainCache) (id : string) :
    res (gset string * ChainCache) :=
  let? (chain, cache) := auth_chain id acc.2 in
  Ok (acc.1 ∪ chain, cache).

Definition set_chain (acc : list (gset string) * ChainCache) (s : StateIds) :
    res (list (gset string) * ChainCache) :=
  let? (chain, cache) := try_fold extend_chain (∅, acc.2) (state_values s) in
  Ok (acc.1 ++ [chain], cache).

(** [union − intersection] *)
Definition difference_of (chains : list (gset string)) : gset string :=
  filter (λ id, forallb (λ c : gset string, bool_decide (id ∈ c)) chains = false) (⋃ chains).

Definition power_add (full_conflicted : gset string) (acc : gset string * ChainCache)
    (id : string) : res (gset string * ChainCache) :=
  let? event := fetched id in
  if is_power_event event then
    let? (chain, cache) := auth_chain id acc.2 in
    Ok ({[id]} ∪ acc.1 ∪ (chain ∩ full_conflicted), cache)
  else Ok acc.

Definition find_create (unconflicted : StateIds) (state_sets : list StateIds) : option string :=
  match unconflicted !! create_key with
  | Some id => Some id
  | None => head (omap (λ s : StateIds, s !! create_key) state_sets)
  end.

(** Steps 1 to 5, once the full conflicted set is known. *)
Definition resolve_conflicts (v : RoomVersion) (unconflicted : StateIds)
    (full_conflicted creators : gset string) (cache : ChainCache) : res StateIds :=
  let? (power_set, cache) := try_fold (power_add full_conflicted) (∅, cache) (btree full_conflicted) in
  let? (sorted_power, _) := reverse_topological_power_order v power_set creators cache in
  let initial := match state_res v with ResV2 => unconflicted | ResV2_1 => ∅ end in
  let? partial := iterative_auth_checks v sorted_power initial in
  let remaining := btree (full_conflicted ∖ power_set) in
  let? mainline := build_mainline (partial !! pl_key) in
  let? sorted_remaining := mainline_order mainline remaining in
  let? resolved := iterative_auth_checks v sorted_remaining partial in
  Ok (unconflicted ∪ resolved).

Definition resolve (v : RoomVersion) (state_sets : list StateIds) : res StateIds :=
  match state_sets with
  | [] => Ok ∅
  | _ =>
      let '(unconflicted, conflicted) := partition state_sets in
      if bool_decide (conflicted = ∅) then Ok unconflicted
      else
        let? (chains, cache) := try_fold set_chain ([], ∅) state_sets in
        let auth_difference := difference_of chains in
        let? subgraph := match state_res v with
                         | ResV2_1 => conflicted_subgraph conflicted
                         | ResV2 => Ok ∅
                         end in
        let full_conflicted := conflicted ∪ auth_difference ∪ subgraph in
        let? create_id := ok_or (find_create unconflicted state_sets) MissingCreate in
        let? create := fetched create_id in
        resolve_conflicts v unconflicted full_conflicted (creators v create) cache
  end.
End Fetch.
