(* ===== verification/ResGraph.v ===== *)
(** * The auth graph: chains and the conflicted subgraph

    [auth_graph] is what resolution asks of its events: a finite set, closed
    under auth events, without cycles.  On such a set the depth-first walk of
    [auth_chain] ends and returns exactly the ancestors, whatever was cached
    before; and [conflicted_subgraph] is the set of events on a path between
    two conflicted ones. *)

From Stdlib Require Import Ascii.
From S2P Require Import Prelude Json CoreEvent PowerLevels Auth StateRes.
From stdpp Require Import relations.
From stdpp Require Import options.

(** [b] is an auth event of [a]. *)
Definition cites (fetch : string → option Event) (a b : string) : Prop :=
  ∃ e, fetch a = Some e ∧ b ∈ auth_events e.

(** An event's ancestors: [cites], transitively. *)
Definition ancestor (fetch : string → option Event) : string → string → Prop := tc (cites fetch).

Class auth_graph (fetch : string → option Event) (U : gset string) : Prop := {
  graph_known : ∀ a, a ∈ U → ∃ e, fetch a = Some e ∧ event_id e = a;
  graph_closed : ∀ a b, a ∈ U → cites fetch a b → b ∈ U;
  graph_acyclic : ∃ rank : string → nat, ∀ a b, a ∈ U → cites fetch a b → (rank b < rank a)%nat;
}.

(** A cache that answers with the ancestors. *)
Definition chains_ok (fetch : string → option Event) (cache : ChainCache) : Prop :=
  ∀ a s, cache !! a = Some s → ∀ x, x ∈ s ↔ ancestor fetch a x.

Lemma rev_fmap {A B} (f : A → B) l : rev (f <$> l) = f <$> rev l.
Proof. symmetry. apply List.map_rev. Qed.

Lemma unvisited_false cache finished a :
  unvisited cache finished a = false → a ∈ dom cache ∪ finished.
Proof.
  unfold unvisited. intros H. apply elem_of_union.
  case_bool_decide; [by right|]. case_bool_decide; [|done]. left. by apply elem_of_dom.
Qed.

Lemma elem_of_chain_of_node cache e x :
  x ∈ chain_of_node cache e ↔
  ∃ a, a ∈ auth_events e ∧ (x = a ∨ x ∈ (default ∅ (cache !! a) : gset string)).
Proof.
  unfold chain_of_node.
  assert (H : ∀ l (s : gset string),
    x ∈ foldl (λ chain a, {[a]} ∪ chain ∪ default ∅ (cache !! a)) s l ↔
    x ∈ s ∨ ∃ a, a ∈ l ∧ (x = a ∨ x ∈ (default ∅ (cache !! a) : gset string))).
  { induction l as [|a l IH]; intros s; simpl; [set_solver|]. rewrite IH.
    setoid_rewrite elem_of_cons. rewrite !elem_of_union, elem_of_singleton. naive_solver. }
  rewrite H. set_solver.
Qed.

Section Graph.
Set Default Proof Using "Type*".
Context `{RU : Ruma} (fetch : string → option Event) (U : gset string) {G : auth_graph fetch U}.

Lemma ancestor_closed a x : a ∈ U → ancestor fetch a x → x ∈ U.
Proof.
  intros Ha H. induction H as [x y H|x y z H _ IH]; [by eapply graph_closed|].
  apply IH. by eapply graph_closed.
Qed.

Lemma ancestor_cites a x :
  ancestor fetch a x ↔ ∃ b, cites fetch a b ∧ (x = b ∨ ancestor fetch b x).
Proof.
  split.
  - intros H. destruct H as [x y H|x y z H H']; eauto.
  - intros (b & H & [->|H']); [by apply tc_once|by eapply tc_l].
Qed.

Lemma ancestor_rank (rank : string → nat) :
  (∀ a b, a ∈ U → cites fetch a b → (rank b < rank a)%nat) →
  ∀ a x, a ∈ U → ancestor fetch a x → (rank x < rank a)%nat.
Proof.
  intros Hr a x Ha H. induction H as [x y H|x y z H _ IH]; [by apply Hr|].
  etrans; [apply IH; by eapply graph_closed|by apply Hr].
Qed.

Lemma no_cycle a : a ∈ U → ¬ ancestor fetch a a.
Proof.
  intros Ha H. destruct (graph_acyclic (fetch := fetch) (U := U)) as [rank Hr].
  pose proof (ancestor_rank rank Hr a a Ha H). lia.
Qed.

(** ** The walk *)

(** The nodes of an order come after the nodes they cite, or those are in [D]. *)
Fixpoint after_cited (D : gset string) (l : list string) : Prop :=
  match l with
  | [] => True
  | m :: l => m ∈ U ∧ (∀ b, cites fetch m b → b ∈ D) ∧ after_cited ({[m]} ∪ D) l
  end.

Lemma after_cited_app D l1 l2 :
  after_cited D (l1 ++ l2) ↔ after_cited D l1 ∧ after_cited (D ∪ list_to_set l1) l2.
Proof.
  revert D. induction l1 as [|m l1 IH]; intros D; simpl.
  - rewrite union_empty_r_L. tauto.
  - rewrite IH. replace (D ∪ ({[m]} ∪ list_to_set l1)) with ({[m]} ∪ D ∪ list_to_set l1)
      by set_solver. tauto.
Qed.

(** A visit, as a jump of the walk: within [k] steps it leaves an order that
    extends the old one, is still dependency first, and has or finds cached
    every node visited. *)
Definition visits (cache : ChainCache) (w : nat) (nodes : list string) : Prop :=
  ∀ order, after_cited (dom cache) order →
  ∃ k order', (k ≤ w)%nat ∧
    (∀ n stack, chain_walk fetch (k + n) cache order (list_to_set order)
                  (((λ a, (a, false)) <$> nodes) ++ stack) =
                chain_walk fetch n cache order' (list_to_set order') stack) ∧
    after_cited (dom cache) order' ∧ order ⊆ order' ∧
    ∀ a, a ∈ nodes → a ∈ dom cache ∪ list_to_set order'.

Lemma visits_nil cache : visits cache 0 [].
Proof. intros order Ho. exists 0, order. split_and!; try done. intros a Ha. by apply elem_of_nil in Ha. Qed.

Lemma visits_cons cache w1 w2 a l :
  visits cache w1 [a] → visits cache w2 l → visits cache (w1 + w2) (a :: l).
Proof.
  intros H1 H2 order Ho. destruct (H1 order Ho) as (k1 & o1 & Hk1 & E1 & Ho1 & S1 & D1).
  destruct (H2 o1 Ho1) as (k2 & o2 & Hk2 & E2 & Ho2 & S2 & D2).
  exists (k1 + k2)%nat, o2. split_and!; [lia| |done|set_solver|].
  - intros n stack. rewrite <- Nat.add_assoc. rewrite <- E2. rewrite <- E1. done.
  - intros b [->|Hb]%elem_of_cons; [|by apply D2]. specialize (D1 a ltac:(by left)). set_solver.
Qed.

Lemma visits_weaken cache w w' l : (w ≤ w')%nat → visits cache w l → visits cache w' l.
Proof.
  intros Hw H order Ho. destruct (H order Ho) as (k & o & Hk & ?). exists k, o. split; [lia|done].
Qed.

(** Some of the nodes, in reverse order, within the sum of their costs. *)
Lemma visits_some l :
  (∀ b, b ∈ l → ∃ w, ∀ cache, visits cache w [b]) →
  ∃ w, ∀ (P : string → bool) cache, visits cache w (rev (base.filter (λ b, P b = true) l)).
Proof.
  induction l as [|b l IH] using rev_ind; intros Hl.
  - exists 0. intros P cache. apply visits_nil.
  - destruct (Hl b) as [w1 H1]; [set_solver|]. destruct IH as [w2 H2]; [set_solver|].
    exists (w1 + w2)%nat. intros P cache. rewrite filter_app, rev_app_distr.
    rewrite filter_cons, filter_nil. case_decide; simpl.
    + by apply visits_cons.
    + eapply visits_weaken; [|apply H2]. lia.
Qed.

(** Every node of the graph is visited, within a number of steps that does not
    depend on the cache. *)
Lemma visits_known a : a ∈ U → ∃ w, ∀ cache, visits cache w [a].
Proof.
  destruct (graph_acyclic (fetch := fetch) (U := U)) as [rank Hr].
  remember (rank a) as r eqn:Er. revert a Er.
  induction r as [r IH] using lt_wf_ind. intros a -> Ha.
  destruct (graph_known a Ha) as (e & He & _).
  destruct (visits_some (auth_events e)) as [w Hw].
  { intros b Hb. assert (Hc : cites fetch a b) by by exists e.
    exact (IH (rank b) (Hr a b Ha Hc) b eq_refl (graph_closed a b Ha Hc)). }
  exists (S (S w)). intros cache order Ho.
  destruct (decide (unvisited cache (list_to_set order) a = true)) as [Hv|Hv].
  2:{ exists 1, order. split_and!; [lia| |done|done|].
      - intros n stack. simpl. apply not_true_is_false in Hv. by rewrite Hv.
      - intros b ->%list_elem_of_singleton. by apply unvisited_false, not_true_is_false. }
  set (P := λ b, unvisited cache (list_to_set order) b).
  destruct (Hw P cache order Ho) as (k & o & Hk & E & Ho' & Hsub & Hd).
  set (o' := if bool_decide (a ∈ (list_to_set o : gset string)) then o else o ++ [a]).
  assert (Hset : list_to_set o' =@{gset string} list_to_set o ∪ {[a]}).
  { unfold o'. case_bool_decide; [set_solver|]. rewrite list_to_set_app_L. set_solver. }
  exists (S (k + 1)), o'. split_and!; [lia| | | |].
  - intros n stack. cbn [plus fmap list_fmap app chain_walk]. fold (P a). unfold P at 1. rewrite Hv.
    cbn [negb]. unfold fetched. rewrite He. cbn [ok_or]. fold P.
    rewrite rev_fmap, <- Nat.add_assoc. rewrite E. cbn [plus chain_walk].
    unfold o'. case_bool_decide; [done|]. f_equal. rewrite list_to_set_app_L. set_solver.
  - unfold o'. case_bool_decide; [done|]. rewrite after_cited_app. split; [done|]. simpl.
    split_and!; [done| |done]. intros b (e' & He' & Hb). simplify_eq.
    destruct (P b) eqn:HPb; [apply Hd; apply list_elem_of_In; rewrite <- in_rev; apply list_elem_of_In;
      by apply list_elem_of_filter|].
    apply unvisited_false in HPb. apply elem_of_union in HPb as [Hb'|Hb']; apply elem_of_union; [by left|right].
    apply elem_of_list_to_set. apply Hsub. by apply elem_of_list_to_set in Hb'.
  - unfold o'. case_bool_decide; [done|]. set_solver.
  - intros b ->%list_elem_of_singleton. set_solver.
Qed.

(** ** The assembly pass *)

Lemma assemble_ok cache m :
  chains_ok fetch cache → m ∈ U → (∀ b, cites fetch m b → b ∈ dom cache) →
  ∃ cache', assemble fetch cache m = Ok cache' ∧ chains_ok fetch cache' ∧
            dom cache' = {[m]} ∪ dom cache.
Proof.
  intros Hc Hm Hd. destruct (graph_known m Hm) as (e & He & _). unfold assemble, fetched.
  rewrite He. simpl. eexists. split; [done|]. split; [|by rewrite dom_insert_L].
  intros a s. destruct (decide (m = a)) as [->|Hne].
  - rewrite lookup_insert_eq. intros [= <-] x. rewrite elem_of_chain_of_node, ancestor_cites.
    split.
    + intros (b & Hb & Hx). exists b. split; [by exists e|]. destruct Hx as [->|Hx]; [by left|right].
      destruct (cache !! b) as [sb|] eqn:Eb; [by apply (Hc b sb Eb)|set_solver].
    + intros (b & (e' & He' & Hb) & Hx). simplify_eq. exists b. split; [done|].
      destruct Hx as [->|Hx]; [by left|right].
      assert (Hbd : b ∈ dom cache) by (apply Hd; by exists e).
      apply elem_of_dom in Hbd as [sb Eb]. rewrite Eb. by apply (Hc b sb Eb).
  - rewrite lookup_insert_ne by done. apply Hc.
Qed.

Lemma assemble_all order cache :
  chains_ok fetch cache → after_cited (dom cache) order →
  ∃ cache', try_fold (assemble fetch) cache order = Ok cache' ∧ chains_ok fetch cache' ∧
            dom cache' = dom cache ∪ list_to_set order.
Proof.
  revert cache. induction order as [|m order IH]; intros cache Hc Ho; simpl in *.
  - exists cache. split_and!; [done..|set_solver].
  - destruct Ho as (Hm & Hd & Ho). destruct (assemble_ok cache m Hc Hm Hd) as (c1 & -> & Hc1 & Hd1).
    rewrite <- Hd1 in Ho. destruct (IH c1 Hc1 Ho) as (c2 & -> & Hc2 & Hd2).
    exists c2. split_and!; [done..|]. rewrite Hd2, Hd1. set_solver.
Qed.

(** One event: the fuel is enough for any cache, and the answer is the same. *)
Lemma chain_of a :
  a ∈ U → ∃ w chain, (∀ x, x ∈ chain ↔ ancestor fetch a x) ∧
    ∀ fuel cache, (w ≤ fuel)%nat → chains_ok fetch cache →
      ∃ cache', auth_chain fetch fuel a cache = Ok (chain, cache') ∧ chains_ok fetch cache'.
Proof.
  intros Ha. destruct (visits_known a Ha) as [w Hw].
  assert (Hrun : ∀ fuel cache, (w ≤ fuel)%nat → chains_ok fetch cache →
    ∃ chain cache', auth_chain fetch fuel a cache = Ok (chain, cache') ∧
      chains_ok fetch cache' ∧ ∀ x, x ∈ chain ↔ ancestor fetch a x).
  { intros fuel cache Hf Hc. unfold auth_chain. destruct (cache !! a) as [s|] eqn:Es.
    { exists s, cache. split_and!; [done..|]. by apply Hc. }
    destruct (Hw cache [] I) as (k & order & Hk & E & Ho & _ & Hd).
    specialize (E (fuel - k) []). replace (k + (fuel - k)) with fuel in E by lia. simpl in E.
    rewrite E. assert (chain_walk fetch (fuel - k) cache order (list_to_set order) [] = Ok order) as ->
      by by destruct (fuel - k).
    destruct (assemble_all order cache Hc Ho) as (c' & -> & Hc' & Hdom).
    assert (Hda : a ∈ dom c').
    { rewrite Hdom. apply Hd. by left. }
    apply elem_of_dom in Hda as [s Hs]. rewrite Hs. exists s, c'. split_and!; [done..|].
    by apply Hc'. }
  destruct (Hrun w ∅) as (chain & c0 & _ & _ & Hch); [lia|done|].
  exists w, chain. split; [done|]. intros fuel cache Hf Hc.
  destruct (Hrun fuel cache Hf Hc) as (chain' & c' & E & Hc' & Hch').
  assert (chain' = chain) as -> by (apply set_eq; intros x; by rewrite Hch', Hch). eauto.
Qed.

(** All events at once. *)
Lemma graph_chains :
  ∃ w (chain : string → gset string), ∀ a, a ∈ U →
    (∀ x, x ∈ chain a ↔ ancestor fetch a x) ∧
    ∀ fuel cache, (w ≤ fuel)%nat → chains_ok fetch cache →
      ∃ cache', auth_chain fetch fuel a cache = Ok (chain a, cache') ∧ chains_ok fetch cache'.
Proof.
  enough (H : ∀ l : list string, (∀ a, a ∈ l → a ∈ U) → ∃ w (chain : string → gset string), ∀ a, a ∈ l →
    (∀ x, x ∈ chain a ↔ ancestor fetch a x) ∧
    ∀ fuel cache, (w ≤ fuel)%nat → chains_ok fetch cache →
      ∃ cache', auth_chain fetch fuel a cache = Ok (chain a, cache') ∧ chains_ok fetch cache').
  { destruct (H (elements U)) as (w & chain & Hw); [by intros a Ha%elem_of_elements|].
    exists w, chain. intros a Ha. apply Hw. by apply elem_of_elements. }
  induction l as [|a l IH]; intros Hl.
  - exists 0, (λ _, ∅). intros a Ha. by apply elem_of_nil in Ha.
  - destruct IH as (w1 & ch1 & H1); [intros b Hb; apply Hl; by right|].
    destruct (chain_of a) as (w2 & ch2 & Hch2 & H2); [apply Hl; by left|].
    exists (w1 + w2)%nat, (λ b, if decide (b = a) then ch2 else ch1 b).
    intros b Hb. case_decide as Hba.
    + subst b. split; [done|]. intros fuel cache Hf. apply H2. lia.
    + apply elem_of_cons in Hb as [?|Hb]; [done|]. destruct (H1 b Hb) as [Hx Hr].
      split; [done|]. intros fuel cache Hf. apply Hr. lia.
Qed.
End Graph.

(** * The conflicted state subgraph

    The two loops of [conflicted_subgraph] end, and what they compute is the
    set of events lying on a path between two conflicted events. *)

(** ** A pass of the second loop *)

Section Pass.
Context (edges : gmap string (list string)).

Definition pass_step : gset string * bool → string → gset string * bool :=
  λ '(reaches, changed) node,
    if negb (bool_decide (node ∈ reaches)) && leads reaches (default [] (edges !! node))
    then ({[node]} ∪ reaches, true) else (reaches, changed).

Lemma leads_true (reaches : gset string) auth : leads reaches auth = true ↔ ∃ a, a ∈ auth ∧ a ∈ reaches.
Proof.
  unfold leads. rewrite existsb_exists. f_equiv. intros a. rewrite list_elem_of_In.
  by rewrite bool_decide_eq_true.
Qed.

(** A pass only adds nodes that lead to a node of the set. *)
Lemma pass_keeps (P : string → Prop) l R ch :
  (∀ n a, a ∈ default [] (edges !! n) → P a → P n) →
  (∀ x, x ∈ R → P x) → ∀ x, x ∈ (foldl pass_step (R, ch) l).1 → P x.
Proof.
  intros Hp. revert R ch. induction l as [|n l IH]; intros R ch HR x; simpl; [apply HR|].
  destruct (negb _ && _) eqn:E; [|by apply IH]. apply IH. intros y [->%elem_of_singleton|Hy]%elem_of_union;
    [|by apply HR]. apply andb_true_iff in E as [_ E]. apply leads_true in E as (a & Ha & HaR).
  eapply Hp; [done|by apply HR].
Qed.

Lemma pass_grows l R ch : R ⊆ (foldl pass_step (R, ch) l).1.
Proof.
  revert R ch. induction l as [|n l IH]; intros R ch; simpl; [done|].
  destruct (negb _ && _); [|apply IH]. etrans; [|apply IH]. set_solver.
Qed.

Lemma pass_within l R ch : (foldl pass_step (R, ch) l).1 ⊆ R ∪ list_to_set l.
Proof.
  revert R ch. induction l as [|n l IH]; intros R ch; simpl; [set_solver|].
  destruct (negb _ && _); etrans; [apply IH|set_solver|apply IH|set_solver].
Qed.

(** Unchanged, it was closed already; changed, it is larger. *)
Lemma pass_unchanged l R ch :
  (foldl pass_step (R, ch) l).2 = false →
  ch = false ∧ (foldl pass_step (R, ch) l).1 = R ∧
  ∀ n, n ∈ l → leads R (default [] (edges !! n)) = true → n ∈ R.
Proof.
  revert R ch. induction l as [|n l IH]; intros R ch; simpl.
  { intros ->. split_and!; [done..|]. intros n Hn. by apply elem_of_nil in Hn. }
  destruct (negb _ && _) eqn:E; intros H; apply IH in H as (Hch & HR & Hcl); [done|].
  split_and!; [done..|]. intros m [->|Hm]%elem_of_cons Hl; [|by apply Hcl].
  rewrite Hl, andb_true_r in E. by apply negb_false_iff, bool_decide_eq_true in E.
Qed.

Lemma pass_changed l R :
  (foldl pass_step (R, false) l).2 = true →
  ∃ n, n ∈ l ∧ n ∉ R ∧ n ∈ (foldl pass_step (R, false) l).1.
Proof.
  revert R. induction l as [|n l IH]; intros R; simpl; [done|].
  destruct (negb _ && _) eqn:E.
  - intros _. exists n. apply andb_true_iff in E as [E _]. apply negb_true_iff, bool_decide_eq_false in E.
    split_and!; [by left|done|]. apply (pass_grows l ({[n]} ∪ R) true). set_solver.
  - intros (m & Hm & ? & ?)%IH. exists m. split_and!; [by right|done..].
Qed.
End Pass.

(** The loop ends at a set closed under [leads]. *)
Lemma reach_loop_ok edges (P : string → Prop) n R :
  R ⊆ dom edges → (size (dom edges ∖ R) < n)%nat →
  (∀ m a, a ∈ default [] (edges !! m) → P a → P m) → (∀ x, x ∈ R → P x) →
  ∃ R', reach_loop n edges R = Ok R' ∧ R ⊆ R' ∧ R' ⊆ dom edges ∧ (∀ x, x ∈ R' → P x) ∧
    ∀ m a, m ∈ dom edges → a ∈ default [] (edges !! m) → a ∈ R' → m ∈ R'.
Proof.
  intros HR Hn Hp. revert R HR Hn. induction n as [|n IH]; intros R HR Hn HP; [lia|].
  cbn [reach_loop]. unfold reach_pass. change (foldl _ (R, false) _) with
    (foldl (pass_step edges) (R, false) (btree (dom edges))).
  pose proof (pass_grows edges (btree (dom edges)) R false) as Hg.
  pose proof (pass_within edges (btree (dom edges)) R false) as Hw.
  pose proof (pass_keeps edges P (btree (dom edges)) R false Hp HP) as Hk.
  pose proof (pass_unchanged edges (btree (dom edges)) R false) as Hu.
  pose proof (pass_changed edges (btree (dom edges)) R) as Hc.
  destruct (foldl _ _ _) as [R1 ch]. cbn [fst snd] in *.
  assert (HR1 : R1 ⊆ dom edges).
  { etrans; [done|]. intros x [?|Hx]%elem_of_union; [by apply HR|].
    by apply elem_of_list_to_set, elem_of_btree in Hx. }
  destruct ch.
  - destruct (IH R1) as (R' & E & ? & ? & ? & ?); [done| |done|].
    + destruct Hc as (m & Hm & HmR & HmR1); [done|]. apply elem_of_btree in Hm.
      assert (size (dom edges ∖ R1) < size (dom edges ∖ R))%nat; [|lia].
      apply subset_size. split; [set_solver|]. intros Hs. specialize (Hs m). set_solver.
    + exists R'. split_and!; try done. by etrans.
  - destruct Hu as (_ & -> & Hcl); [done|]. exists R. split_and!; try done.
    intros m a Hm Ha HaR. apply Hcl; [by apply elem_of_btree|]. apply leads_true. eauto.
Qed.

(** ** The first loop *)

Section Forward.
Set Default Proof Using "Type*".
Context (fetch : string → option Event) (U : gset string) {G : auth_graph fetch U}.
Context (conflicted : gset string) (Hconf : conflicted ⊆ U).

(** What a node may still push. *)
Definition push_cost (id : string) : nat :=
  match fetch id with Some e => length (auth_events e) | None => 0 end.

Definition unseen_cost (seen : gset string) : nat := sum_list_with push_cost (elements (U ∖ seen)).

Lemma unseen_cost_insert seen id :
  id ∈ U → id ∉ seen → unseen_cost seen = (push_cost id + unseen_cost ({[id]} ∪ seen))%nat.
Proof.
  intros HU Hs. unfold unseen_cost.
  assert (HP : elements (U ∖ seen) ≡ₚ id :: elements (U ∖ ({[id]} ∪ seen))).
  { rewrite <- elements_union_singleton by set_solver. f_equiv.
    intros x. destruct (decide (x = id)); set_solver. }
  by rewrite HP.
Qed.

(** On a path from a conflicted event. *)
Definition from_conflicted (x : string) : Prop :=
  ∃ c, c ∈ conflicted ∧ (x = c ∨ ancestor fetch c x).

Record forward_inv (edges : gmap string (list string)) (stack : list string) : Prop := {
  fw_edges : ∀ id auth, edges !! id = Some auth → id ∈ U ∧ from_conflicted id ∧
    (∀ b, b ∈ auth ↔ cites fetch id b) ∧ ∀ b, b ∈ auth → b ∈ dom edges ∨ b ∈ stack;
  fw_stack : ∀ x, x ∈ stack → x ∈ U ∧ from_conflicted x;
  fw_conflicted : ∀ c, c ∈ conflicted → c ∈ dom edges ∨ c ∈ stack;
}.

Lemma from_conflicted_cites x b : from_conflicted x → cites fetch x b → from_conflicted b.
Proof.
  intros (c & Hc & Hx) Hb. exists c. split; [done|]. right. destruct Hx as [->|Hx].
  - by apply tc_once.
  - by eapply tc_r.
Qed.

Lemma forward_edges_ok n edges stack :
  forward_inv edges stack → (length stack + unseen_cost (dom edges) ≤ n)%nat →
  ∃ edges', forward_edges fetch n edges stack = Ok edges' ∧ forward_inv edges' [].
Proof.
  revert edges stack. induction n as [|n IH]; intros edges stack Hi Hn;
    (destruct stack as [|id stack]; [by exists edges|]); simpl in Hn; [lia|].
  cbn [forward_edges]. case_bool_decide as Hid.
  - apply IH; [|lia]. destruct Hi as [He Hs Hc]. apply elem_of_dom in Hid. split.
    + intros i auth Hia. destruct (He i auth Hia) as (? & ? & ? & Hb). split_and!; try done.
      intros b Hba. destruct (Hb b Hba) as [?|[->|?]%elem_of_cons]; auto.
    + intros x Hx. apply Hs. by right.
    + intros c Hc'. destruct (Hc c Hc') as [?|[->|?]%elem_of_cons]; auto.
  - destruct Hi as [He Hs Hc]. destruct (Hs id) as [HU Hfrom]; [by left|].
    destruct (graph_known id HU) as (e & Hfe & _). unfold fetched. rewrite Hfe. cbn [ok_or].
    apply eq_None_not_Some in Hid. apply not_elem_of_dom in Hid.
    rewrite (unseen_cost_insert _ _ HU Hid) in Hn. unfold push_cost in Hn. rewrite Hfe in Hn.
    apply IH; [|rewrite length_app, length_rev, dom_insert_L; lia].
    assert (Hci : ∀ b, b ∈ auth_events e ↔ cites fetch id b).
    { intros b. split; [by exists e|]. intros (e' & ? & ?). by simplify_eq. }
    assert (Hin : ∀ b, b ∈ rev (auth_events e) ↔ b ∈ auth_events e).
    { intros b. by rewrite !list_elem_of_In, <- in_rev. }
    split.
    + intros i auth. rewrite dom_insert_L. destruct (decide (id = i)) as [<-|Hne].
      * rewrite lookup_insert_eq. intros [= <-]. split_and!; [done..|].
        intros b Hb. right. apply elem_of_app. left. by apply Hin.
      * rewrite lookup_insert_ne by done. intros Hia. destruct (He i auth Hia) as (? & ? & ? & Hb).
        split_and!; try done. intros b Hba. rewrite elem_of_union, elem_of_singleton, elem_of_app.
        destruct (Hb b Hba) as [?|[->|?]%elem_of_cons]; auto.
    + intros x [Hx|Hx]%elem_of_app; [|apply Hs; by right]. apply Hin, Hci in Hx.
      split; [by eapply graph_closed|by eapply from_conflicted_cites].
    + intros c Hc'. rewrite dom_insert_L, elem_of_union, elem_of_singleton, elem_of_app.
      destruct (Hc c Hc') as [?|[->|?]%elem_of_cons]; auto.
Qed.

(** At the end the edges are those of the events reached. *)
Lemma forward_done edges :
  forward_inv edges [] → ∀ x, x ∈ dom edges ↔ from_conflicted x.
Proof.
  intros [He _ Hc] x. split.
  - intros [auth Hx]%elem_of_dom. by apply (He x auth).
  - intros (c & Hcc & Hx). assert (Hcd : c ∈ dom edges).
    { destruct (Hc c Hcc) as [?|H]; [done|by apply elem_of_nil in H]. }
    destruct Hx as [->|Hx]; [done|]. clear Hcc. revert Hcd.
    assert (Hstep : ∀ a b, a ∈ dom edges → cites fetch a b → b ∈ dom edges).
    { intros a b [auth Ha]%elem_of_dom Hb. destruct (He a auth Ha) as (_ & _ & Hci & Hd).
      apply Hci in Hb. destruct (Hd b Hb) as [?|H]; [done|by apply elem_of_nil in H]. }
    induction Hx as [a b Hab|a b d Hab _ IH]; intros Ha; [by eapply Hstep|].
    apply IH. by eapply Hstep.
Qed.

(** Reaches a conflicted event, possibly itself. *)
Definition to_conflicted (x : string) : Prop :=
  ∃ d, d ∈ conflicted ∧ (x = d ∨ ancestor fetch x d).

(** The fuel that both loops need at most. *)
Definition subgraph_fuel : nat :=
  S (length (elements conflicted) + unseen_cost ∅ + size U).

(** The events on a path between two conflicted events, ends included. *)
Lemma conflicted_subgraph_ok fuel :
  (subgraph_fuel ≤ fuel)%nat →
  ∃ s, conflicted_subgraph fetch fuel conflicted = Ok s ∧
    ∀ x, x ∈ s ↔ from_conflicted x ∧ to_conflicted x.
Proof.
  intros Hf. unfold subgraph_fuel in Hf. unfold conflicted_subgraph.
  destruct (forward_edges_ok fuel ∅ (rev (btree conflicted))) as (edges & -> & Hi).
  { split.
    - intros i auth Hia. by rewrite lookup_empty in Hia.
    - intros x Hx. rewrite list_elem_of_In, <- in_rev, <- list_elem_of_In, elem_of_btree in Hx.
      split; [by apply Hconf|]. exists x. auto.
    - intros c Hc. right. by rewrite list_elem_of_In, <- in_rev, <- list_elem_of_In, elem_of_btree. }
  { rewrite length_rev, dom_empty_L. unfold btree. rewrite (Permutation_length (merge_sort_Permutation _ _)).
    lia. }
  pose proof (forward_done edges Hi) as Hdom.
  assert (Hedge : ∀ m a, a ∈ default [] (edges !! m) → cites fetch m a).
  { intros m a Ha. destruct (edges !! m) as [auth|] eqn:Em; simpl in Ha; [|by apply elem_of_nil in Ha].
    by apply (fw_edges _ _ Hi m auth Em). }
  destruct (reach_loop_ok edges to_conflicted fuel (conflicted ∩ dom edges)) as (R & E & HR & HRd & HRt & Hcl).
  { set_solver. }
  { assert (size (dom edges ∖ (conflicted ∩ dom edges)) ≤ size U)%nat; [|lia].
    apply subseteq_size. intros x Hx. apply elem_of_difference in Hx as [[auth Hx]%elem_of_dom _].
    by apply (fw_edges _ _ Hi x auth). }
  { intros m a Ha%Hedge (d & Hd & Had). exists d. split; [done|]. right.
    destruct Had as [->|Had]; [by apply tc_once|by eapply tc_l]. }
  { intros x Hx. exists x. set_solver. }
  rewrite E. eexists. split; [done|]. intros x. rewrite elem_of_filter, orb_true_iff, bool_decide_eq_true,
    leads_true. rewrite Hdom. split.
  - intros [Hx Hfr]. split; [done|]. destruct Hx as [Hx|(a & Ha & HaR)]; [exists x; auto|].
    destruct (HRt a HaR) as (d & Hd & Had). exists d. split; [done|]. right.
    apply Hedge in Ha. destruct Had as [->|Had]; [by apply tc_once|by eapply tc_l].
  - intros [Hfr (d & Hd & Hxd)]. split; [|done]. destruct Hxd as [->|Hxd]; [by left|right].
    assert (HR' : ∀ a, ancestor fetch a d → a ∈ dom edges → a ∈ R ∧
      ∃ b, b ∈ default [] (edges !! a) ∧ b ∈ R).
    { intros a Had. induction Had as [a b Hab|a b e Hab Hbe IH]; intros Hda.
      - assert (Hb : b ∈ R).
        { apply HR. apply elem_of_intersection. split; [done|]. apply Hdom. exists b. auto. }
        assert (b ∈ default [] (edges !! a)).
        { pose proof Hda as [auth Ha]%elem_of_dom. rewrite Ha. by apply (fw_edges _ _ Hi a auth Ha). }
        split; [by eapply Hcl|eauto].
      - assert (b ∈ default [] (edges !! a)).
        { pose proof Hda as [auth Ha]%elem_of_dom. rewrite Ha. by apply (fw_edges _ _ Hi a auth Ha). }
        destruct IH as [Hb _]; [done|done| |].
        { apply Hdom. apply Hdom in Hda. by eapply from_conflicted_cites. }
        split; [by eapply Hcl|eauto]. }
    apply HR'; [done|]. by apply Hdom.
Qed.
End Forward.
