(* ===== verification/ResOrder.v ===== *)
(** * Reverse topological power ordering

    [power_order] is the specification's words: take, again and again, the
    least event all of whose ancestors in the set are already out.  It has at
    most one result; Kahn's algorithm with its counters and its ready queue
    computes it. *)

From Stdlib Require Import Ascii.
From S2P Require Import Prelude Order Json CoreEvent PowerLevels Auth StateRes ResGraph.
From stdpp Require Import options.

#[export] Instance lawful_power : Lawful power_cmp.
Proof.
  split.
  - intros [x|] [y|]; simpl; try done. intros H. by apply Z.compare_eq in H as ->.
  - intros [x|] [y|]; simpl; try done. apply Z.compare_antisym.
  - intros [x|] [y|] [z|]; simpl; try done. apply cmp_trans.
Qed.

Lemma sort_key_lex :
  sort_key_cmp = cmp_lex (cmp_on sk_power (cmp_rev power_cmp))
                   (cmp_lex (cmp_on sk_ts N.compare) (cmp_on sk_id String.compare)).
Proof. reflexivity. Qed.

#[export] Instance lawful_sort_key : Lawful sort_key_cmp.
Proof.
  apply lawful_weak; [rewrite sort_key_lex; apply _|].
  intros [pa ta ia] [pb tb ib]. unfold sort_key_cmp. simpl.
  destruct (power_cmp pb pa) eqn:E1; try done. destruct (N.compare ta tb) eqn:E2; try done.
  intros E3. apply cmp_eq in E1, E2, E3. by subst.
Qed.

Definition key_before (a b : SortKey) : Prop := sort_key_cmp a b = Lt.

(** ** The ready queue *)

Lemma elem_of_ready_insert k l x : x ∈ ready_insert k l ↔ x = k ∨ x ∈ l.
Proof.
  induction l as [|k' l IH]; simpl; [by rewrite list_elem_of_singleton, elem_of_nil; tauto|].
  destruct (sort_key_cmp k k') eqn:E.
  - apply cmp_eq in E as ->. rewrite !elem_of_cons. tauto.
  - rewrite !elem_of_cons. tauto.
  - rewrite !elem_of_cons, IH. tauto.
Qed.

Lemma ready_insert_sorted k l :
  StronglySorted key_before l → StronglySorted key_before (ready_insert k l).
Proof.
  induction 1 as [|k' l Hs IH Hk]; simpl; [by repeat constructor|].
  destruct (sort_key_cmp k k') eqn:E; constructor; try done.
  - by constructor.
  - constructor; [done|]. eapply list.Forall_impl; [exact Hk|]. intros x Hx.
    unfold key_before in *. by eapply cmp_trans.
  - rewrite list.Forall_forall in *. intros x [->|Hx]%elem_of_ready_insert; [by apply cmp_gt|by apply Hk].
Qed.

(** ** The reference order *)

Section Spec.
Context (key : string → SortKey) (deps : string → gset string).

(** Nothing in [R] comes before [x]. *)
Definition free (R : gset string) (x : string) : Prop := x ∈ R ∧ deps x ∩ R = ∅.

Inductive power_order : gset string → list string → Prop :=
  | power_done : power_order ∅ []
  | power_next R x l :
      free R x → (∀ y, free R y → y ≠ x → key_before (key x) (key y)) →
      power_order (R ∖ {[x]}) l → power_order R (x :: l).

Lemma power_order_unique R l1 l2 : power_order R l1 → power_order R l2 → l1 = l2.
Proof.
  intros H. revert l2. induction H as [|R x l Hx Hmin Hl IH]; inversion 1 as [|? y l' Hy Hmin' Hl']; subst.
  - done.
  - by destruct Hy; set_solver.
  - by destruct Hx; set_solver.
  - destruct (decide (x = y)) as [->|Hne]; [f_equal; by apply IH|].
    pose proof (Hmin y Hy ltac:(done)) as H1. pose proof (Hmin' x Hx ltac:(done)) as H2.
    by apply cmp_asym in H1.
Qed.

Lemma power_order_permutation R l : power_order R l → l ≡ₚ elements R.
Proof.
  induction 1 as [|R x l [HR _] _ _ IH]; [by rewrite elements_empty|].
  rewrite IH, <- elements_union_singleton by set_solver. f_equiv.
  intros y. destruct (decide (y = x)); set_solver.
Qed.

(** Ancestors come first. *)
Lemma power_order_ancestors R l i j x y :
  power_order R l → l !! i = Some x → l !! j = Some y → x ∈ deps y → (i < j)%nat ∨ x = y.
Proof.
  intros H. revert i j. induction H as [|R z l [Hz Hf] _ Hl IH]; intros i j Hi Hj Hd; [done|].
  destruct j as [|j]; simpl in Hj.
  - simplify_eq. right. destruct i as [|i]; simpl in Hi; [by simplify_eq|].
    assert (Hx : x ∈ R).
    { apply list_elem_of_lookup_2 in Hi. rewrite (power_order_permutation _ _ Hl), elem_of_elements in Hi.
      set_solver. }
    set_solver.
  - destruct i as [|i]; [left; lia|]. simpl in Hi. destruct (IH i j Hi Hj Hd); [left; lia|by right].
Qed.
End Spec.

Lemma power_order_ext key (deps1 deps2 : string → gset string) R l :
  (∀ x y, x ∈ R → y ∈ R → y ∈ deps1 x ↔ y ∈ deps2 x) →
  power_order key deps1 R l → power_order key deps2 R l.
Proof.
  intros He H. revert He. induction H as [|R x l Hx Hmin Hl IH]; intros He; [constructor|].
  assert (Hf : ∀ y, free deps1 R y ↔ free deps2 R y).
  { intros y. unfold free. split; intros [Hy Hd]; (split; [done|]); apply elem_of_equiv_empty_L;
      intros z [Hz HzR]%elem_of_intersection; apply (He y z Hy HzR) in Hz; set_solver. }
  constructor.
  - by apply Hf.
  - intros y Hy. apply Hmin. by apply Hf.
  - apply IH. intros y z Hy Hz. apply He; set_solver.
Qed.

(** ** Kahn's algorithm *)

Section Release.
Context (ks : gmap string SortKey) (id : string).

Definition left_of (pend : gmap string (gset string)) (x : string) : gset string :=
  default ∅ (pend !! x) ∖ {[id]}.

Lemma release_all l pend ready :
  NoDup l → StronglySorted key_before ready →
  let st := foldl (release ks id) (pend, ready) l in
  (∀ x, st.1 !! x = if decide (x ∈ l) then Some (left_of pend x) else pend !! x) ∧
  StronglySorted key_before st.2 ∧
  ∀ k, k ∈ st.2 ↔ k ∈ ready ∨ ∃ x, x ∈ l ∧ ks !! x = Some k ∧ left_of pend x = ∅.
Proof.
  revert pend ready. induction l as [|y l IH]; intros pend ready Hnd Hs; cbn [foldl].
  { split_and!; [intros x; by rewrite decide_False by apply not_elem_of_nil|done|].
    intros k. split; [by left|]. intros [?|(x & Hx & _)]; [done|by apply elem_of_nil in Hx]. }
  apply list.NoDup_cons in Hnd as [Hy Hnd]. 
  set (ready1 := if bool_decide (left_of pend y = ∅)
    then match ks !! y with Some k => ready_insert k ready | None => ready end else ready).
  change (release ks id (pend, ready) y) with (<[y := left_of pend y]> pend, ready1).
  assert (Hr1 : StronglySorted key_before ready1 ∧
    ∀ k, k ∈ ready1 ↔ k ∈ ready ∨ (ks !! y = Some k ∧ left_of pend y = ∅)).
  { unfold ready1. case_bool_decide; [|naive_solver].
    destruct (ks !! y) as [k0|] eqn:Ek; [|naive_solver].
    split; [by apply ready_insert_sorted|]. intros k. rewrite elem_of_ready_insert. naive_solver. }
  destruct Hr1 as [Hs1 Hr1].
  destruct (IH (<[y := left_of pend y]> pend) ready1 Hnd Hs1) as (H1 & H2 & H3).
  assert (Hsame : ∀ x, x ∈ l → left_of (<[y := left_of pend y]> pend) x = left_of pend x).
  { intros x Hx. unfold left_of at 1. by rewrite lookup_insert_ne by (intros ->; done). }
  split_and!; [|done|].
  - intros x. rewrite H1. destruct (decide (x ∈ l)) as [Hx|Hx].
    + rewrite decide_True by by right. by rewrite Hsame.
    + destruct (decide (x = y)) as [->|Hne].
      * rewrite decide_True by by left. by rewrite lookup_insert_eq.
      * rewrite decide_False by (rewrite elem_of_cons; naive_solver). by rewrite lookup_insert_ne.
  - intros k. rewrite H3, Hr1. setoid_rewrite elem_of_cons. split.
    + intros [[?|[??]]|(x & Hx & ? & Hl)]; [by left|right; exists y; naive_solver|].
      right. exists x. rewrite Hsame in Hl by done. naive_solver.
    + intros [?|(x & [->|Hx] & ? & ?)]; [naive_solver..|]. right. exists x. by rewrite Hsame.
Qed.
End Release.

Section Kahn.
Context (key : string → SortKey) (deps : string → gset string) (events : gset string).
Context (Hkey : ∀ x, sk_id (key x) = x).
Context (rank : string → nat) (Hrank : ∀ x y, y ∈ events → x ∈ deps y → (rank x < rank y)%nat).

Lemma sort_key_inj x y : key x = key y → x = y.
Proof using Hkey. intros H. by rewrite <- (Hkey x), H, Hkey. Qed.

(** Where the loop is, with [R] still to come out. *)
Record kahn_inv (ks : gmap string SortKey) (R : gset string) (pend : gmap string (gset string))
    (dpts : gmap string (list string)) (ready : list SortKey) : Prop := {
  kn_sub : R ⊆ events;
  kn_keys : ∀ x, x ∈ events → ks !! x = Some (key x);
  kn_pending : ∀ x, x ∈ R → pend !! x = Some (deps x ∩ R);
  kn_dependents : ∀ d, d ∈ R → NoDup (default [] (dpts !! d)) ∧
    ∀ x, x ∈ default [] (dpts !! d) ↔ x ∈ R ∧ d ∈ deps x;
  kn_sorted : StronglySorted key_before ready;
  kn_ready : ∀ k, k ∈ ready ↔ ∃ x, k = key x ∧ free deps R x;
}.

Definition rank_le (a b : string) : Prop := (rank a ≤ rank b)%nat.

#[local] Instance rank_le_trans : Transitive rank_le.
Proof. intros a b c. unfold rank_le. lia. Qed.

#[local] Instance rank_le_dec : RelDecision rank_le.
Proof. intros a b. unfold rank_le. apply _. Qed.

(** Something is always free: an event of least rank. *)
Lemma some_free R : R ⊆ events → R ≠ ∅ → ∃ x, free deps R x.
Proof using Hrank.
  intros Hsub Hne. destruct (minimal_exists_elem_of_L rank_le R Hne) as (x & Hx & Hmin).
  { exists x. split; [done|]. apply elem_of_equiv_empty_L. intros y [Hd Hy]%elem_of_intersection.
    pose proof (Hrank y x (Hsub x Hx) Hd). specialize (Hmin y Hy). unfold rank_le in Hmin. lia. }
Qed.

Lemma kahn_step ks R pend dpts k ready :
  kahn_inv ks R pend dpts (k :: ready) →
  ∃ x, k = key x ∧ free deps R x ∧ (∀ y, free deps R y → y ≠ x → key_before (key x) (key y)) ∧
    let st := foldl (release ks x) (pend, ready) (default [] (dpts !! x)) in
    kahn_inv ks (R ∖ {[x]}) st.1 (delete x dpts) st.2.
Proof using Hkey Hrank.
  intros [Hsub Hk Hp Hd Hs Hr]. destruct (proj1 (Hr k)) as (x & -> & Hx); [by left|].
  pose proof Hx as [HxR Hxf].
  apply StronglySorted_inv in Hs as [Hs Hall].
  exists x. split_and!; [done|done| |].
  { intros y Hy Hne. assert (Hin : key y ∈ key x :: ready) by (apply Hr; by exists y).
    apply elem_of_cons in Hin as [E|Hin]; [by apply sort_key_inj in E|].
    rewrite list.Forall_forall in Hall. by apply Hall. }
  destruct (Hd x HxR) as [Hnd Hdx].
  destruct (release_all ks x _ pend ready Hnd Hs) as (H1 & H2 & H3). intros st.
  fold st in H1, H2, H3.
  assert (Hself : x ∉ deps x).
  { intros H. pose proof (Hrank x x (Hsub x HxR) H). lia. }
  assert (Hleft : ∀ y, y ∈ R → left_of x pend y = deps y ∩ (R ∖ {[x]})).
  { intros y Hy. unfold left_of. rewrite (Hp y Hy). simpl. set_solver. }
  split.
  - set_solver.
  - done.
  - intros y [Hy Hyx]%elem_of_difference. rewrite H1. case_decide as Hin; [by rewrite Hleft|].
    rewrite (Hp y Hy). f_equal. assert (x ∉ deps y) by (intros ?; apply Hin; by apply Hdx). set_solver.
  - intros d [Hd' Hdx']%elem_of_difference. rewrite lookup_delete_ne by set_solver.
    destruct (Hd d Hd') as [? Hdd]. split; [done|]. intros y. rewrite Hdd. split; [|set_solver].
    intros [Hy Hyd]. split; [|done]. apply elem_of_difference. split; [done|].
    intros ->%elem_of_singleton. set_solver.
  - done.
  - intros k. rewrite H3. split.
    + intros [Hin|(y & Hy & Hky & Hly)].
      * assert (Hin' : k ∈ key x :: ready) by by right. apply Hr in Hin' as (y & -> & Hy & Hyf).
        exists y. split; [done|]. assert (y ≠ x).
        { intros ->. rewrite list.Forall_forall in Hall. specialize (Hall _ Hin).
          by apply cmp_irrefl in Hall. }
        split; [set_solver|set_solver].
      * apply Hdx in Hy as [HyR Hyd]. rewrite (Hk y (Hsub y HyR)) in Hky. exists y.
        split; [by simplify_eq|]. rewrite Hleft in Hly by done. split; [|done].
        apply elem_of_difference. split; [done|]. intros ->%elem_of_singleton. done.
    + intros (y & -> & [HyR Hyx]%elem_of_difference & Hyf).
      destruct (decide (x ∈ deps y)) as [Hxy|Hxy].
      * right. exists y. split_and!; [by apply Hdx|by apply Hk, Hsub|]. by rewrite Hleft.
      * left. assert (Hin : key y ∈ key x :: ready).
        { apply Hr. exists y. split; [done|]. split; [done|clear -Hyf Hxy; set_solver]. }
        apply elem_of_cons in Hin as [E|?]; [|done]. apply sort_key_inj in E. set_solver.
Qed.

Lemma kahn_loop_ok ks n R pend dpts ready out :
  kahn_inv ks R pend dpts ready → (size R ≤ n)%nat →
  ∃ l, kahn_loop n ks pend dpts ready out = Ok (out ++ l) ∧ power_order key deps R l.
Proof using Hkey Hrank.
  revert R pend dpts ready out. induction n as [|n IH]; intros R pend dpts ready out Hi Hn;
    destruct ready as [|k ready]; cbn [kahn_loop].
  2:{ destruct (kahn_step _ _ _ _ _ _ Hi) as (x & _ & [Hx _] & _).
      assert (H0 : size R = 0) by lia. apply size_empty_inv in H0. set_solver. }
  1,2: assert (R = ∅) as -> by
    (apply dec_stable; intros Hne; destruct (some_free R (kn_sub _ _ _ _ _ Hi) Hne) as [x Hx];
     assert (Hin : key x ∈ []) by (apply (kn_ready _ _ _ _ _ Hi); eauto); by apply elem_of_nil in Hin).
  1,2: exists []; rewrite app_nil_r; split; [done|constructor].
  destruct (kahn_step _ _ _ _ _ _ Hi) as (x & -> & Hx & Hmin & Hi'). rewrite Hkey.
  destruct (foldl _ _ _) as [pend' ready']. simpl in Hi'.
  destruct (IH _ _ _ _ (out ++ [x]) Hi') as (l & E & Hl).
  { destruct Hx as [Hx _]. pose proof (size_difference R {[x]} ltac:(set_solver)).
    rewrite size_singleton in *. assert (size R ≠ 0)%nat; [|lia].
    intros H0. apply size_empty_inv in H0. set_solver. }
  exists (x :: l). rewrite E, <- app_assoc. split; [done|]. by constructor.
Qed.
End Kahn.

(** ** Setting up *)

Lemma add_dependents_spec id deps m d :
  default [] (add_dependents id deps m !! d) =
  if decide (d ∈ deps) then default [] (m !! d) ++ [id] else default [] (m !! d).
Proof.
  unfold add_dependents.
  assert (H : ∀ l (m : gmap string (list string)), NoDup l →
    default [] (foldl (λ m d, <[d := default [] (m !! d) ++ [id]]> m) m l !! d) =
    if decide (d ∈ l) then default [] (m !! d) ++ [id] else default [] (m !! d)).
  { induction l as [|x l IH]; intros m' Hnd; cbn [foldl]; [by rewrite decide_False by apply not_elem_of_nil|].
    apply list.NoDup_cons in Hnd as [Hx Hnd]. rewrite IH by done.
    destruct (decide (d = x)) as [->|Hne].
    - rewrite lookup_insert_eq, decide_False, decide_True by (done || by left). done.
    - rewrite lookup_insert_ne by done. apply decide_ext. rewrite elem_of_cons. naive_solver. }
  rewrite H.
  - apply decide_ext. apply elem_of_btree.
  - unfold btree. rewrite merge_sort_Permutation. apply NoDup_elements.
Qed.

(** * The power ordering of a set of events

    [reverse_topological_power_order] on a closed acyclic set of events: it
    succeeds, and its answer is the order of [power_order] by sender power,
    timestamp and id. *)

Section Order.
Set Default Proof Using "Type*".
Context `{RU : Ruma} (fetch : string → option Event) (U : gset string) {G : auth_graph fetch U}.
Lemma first_levels_ok l :
  (∀ x, x ∈ l → x ∈ U) →
  ∃ o, first_levels fetch l = Ok o ∧ ∀ id, o = Some id → id ∈ l.
Proof.
  induction l as [|x l IH]; intros Hl; simpl; [by exists None|].
  destruct (graph_known x (Hl x ltac:(by left))) as (e & He & _). unfold fetched. rewrite He. simpl.
  destruct (is_levels e).
  - exists (Some x). split; [done|]. intros id [= <-]. by left.
  - destruct IH as (o & Ho & Hin); [intros y Hy; apply Hl; by right|].
    exists o. split; [done|]. intros id Hid. right. by apply Hin.
Qed.

Lemma pl_in_auth_events_ok x e :
  x ∈ U → fetch x = Some e →
  ∃ o, pl_in_auth_events fetch e = Ok o ∧ ∀ id, o = Some id → cites fetch x id ∧ id ∈ U.
Proof.
  intros Hx He. destruct (first_levels_ok (auth_events e)) as (o & Ho & Hin).
  { intros b Hb. eapply graph_closed; [exact Hx|by exists e]. }
  exists o. split; [done|]. intros id Hid. assert (Hc : cites fetch x id) by (exists e; auto).
  split; [done|by eapply graph_closed].
Qed.

Lemma sender_power_at_ok v creators x e :
  x ∈ U → fetch x = Some e → ∃ p, sender_power_at fetch v e creators = Ok p.
Proof.
  intros Hx He. unfold sender_power_at. case_match; [by eexists|].
  destruct (pl_in_auth_events_ok x e Hx He) as (o & -> & Hin). destruct o as [id|]; [|by eexists].
  destruct (Hin id eq_refl) as [_ Hid]. destruct (graph_known id Hid) as (a & Ha & _).
  unfold fetched. rewrite Ha. simpl. by eexists.
Qed.

Context (fuel : nat) (chain : string → gset string).
(** The fuel is enough for every auth chain (see [graph_chains]). *)
Context (Hchain : ∀ a, a ∈ U → (∀ x, x ∈ chain a ↔ ancestor fetch a x) ∧
  ∀ cache, chains_ok fetch cache →
    ∃ cache', auth_chain fetch fuel a cache = Ok (chain a, cache') ∧ chains_ok fetch cache').

Context (v : RoomVersion) (creators events : gset string) (Hev : events ⊆ U).

(** The sort key of an event, and its ancestors in the set. *)
Definition sort_key_of (x : string) : SortKey :=
  match fetch x with
  | Some e =>
      {| sk_power := match sender_power_at fetch v e creators with Ok p => p | Err _ => PInfinite end;
         sk_ts := origin_server_ts e; sk_id := x |}
  | None => {| sk_power := PInfinite; sk_ts := 0; sk_id := x |}
  end.

Definition deps_of (x : string) : gset string := chain x ∩ events.

Lemma sort_key_of_id x : sk_id (sort_key_of x) = x.
Proof using Type. unfold sort_key_of. by case_match. Qed.

(** The tables once the events of [D] are entered. *)
Record entered (D : gset string) (st : KahnInit) : Prop := {
  en_keys : ∀ x, keys st !! x = if decide (x ∈ D) then Some (sort_key_of x) else None;
  en_pending : ∀ x, pending st !! x = if decide (x ∈ D) then Some (deps_of x) else None;
  en_nodup : ∀ d, NoDup (default [] (dependents st !! d));
  en_dependents : ∀ d x, x ∈ default [] (dependents st !! d) ↔ x ∈ D ∧ d ∈ deps_of x;
  en_chains : chains_ok fetch (chain_cache st);
}.

Lemma kahn_enter_ok D st x :
  entered D st → x ∈ events → x ∉ D →
  ∃ st', kahn_enter fetch fuel v events creators st x = Ok st' ∧ entered ({[x]} ∪ D) st'.
Proof.
  intros [Hk Hp Hn Hd Hc] Hx HxD. apply Hev in Hx as HxU.
  destruct (graph_known x HxU) as (e & He & _). unfold kahn_enter, fetched. rewrite He. cbn [ok_or].
  destruct (sender_power_at_ok v creators x e HxU He) as [p Hpw]. rewrite Hpw.
  destruct (Hchain x HxU) as [_ Hrun]. destruct (Hrun _ Hc) as (cache' & -> & Hc').
  eexists. split; [done|]. fold (deps_of x).
  assert (Hkey : {| sk_power := p; sk_ts := origin_server_ts e; sk_id := x |} = sort_key_of x).
  { unfold sort_key_of. by rewrite He, Hpw. }
  split; cbn [keys pending dependents chain_cache]; try done.
  - intros y. rewrite Hkey. destruct (decide (y = x)) as [->|Hne].
    + by rewrite lookup_insert_eq, decide_True by set_solver.
    + rewrite lookup_insert_ne, Hk by done. apply decide_ext. set_solver.
  - intros y. destruct (decide (y = x)) as [->|Hne].
    + by rewrite lookup_insert_eq, decide_True by set_solver.
    + rewrite lookup_insert_ne, Hp by done. apply decide_ext. set_solver.
  - intros d. rewrite add_dependents_spec. case_decide; [|done]. apply list.NoDup_app. split_and!; [done| |].
    + intros y Hy ->%list_elem_of_singleton. by apply Hd in Hy as [? _].
    + apply NoDup_singleton.
  - intros d y. rewrite add_dependents_spec. case_decide as Hdx.
    + rewrite elem_of_app, list_elem_of_singleton, Hd, elem_of_union, elem_of_singleton. naive_solver.
    + rewrite Hd, elem_of_union, elem_of_singleton. naive_solver.
Qed.

Lemma kahn_enter_all l D st :
  entered D st → NoDup l → (∀ x, x ∈ l → x ∈ events ∧ x ∉ D) →
  ∃ st', try_fold (kahn_enter fetch fuel v events creators) st l = Ok st' ∧
         entered (D ∪ list_to_set l) st'.
Proof.
  revert D st. induction l as [|x l IH]; intros D st Hst Hnd Hl; simpl.
  - exists st. split; [done|]. by rewrite union_empty_r_L.
  - apply list.NoDup_cons in Hnd as [Hxl Hnd]. destruct (Hl x) as [Hx HxD]; [by left|].
    destruct (kahn_enter_ok D st x Hst Hx HxD) as (st1 & -> & H1).
    destruct (IH _ st1 H1 Hnd) as (st2 & E & H2).
    { intros y Hy. destruct (Hl y) as [? HyD]; [by right|]. split; [done|].
      intros [->%elem_of_singleton|?]%elem_of_union; done. }
    exists st2. split; [done|].
    by replace (D ∪ ({[x]} ∪ list_to_set l)) with ({[x]} ∪ D ∪ list_to_set l) by (clear; set_solver).
Qed.

Lemma ready_insert_all l q :
  StronglySorted key_before q →
  StronglySorted key_before (foldl (λ q k, ready_insert k q) q l) ∧
  ∀ k, k ∈ foldl (λ q k, ready_insert k q) q l ↔ k ∈ q ∨ k ∈ l.
Proof using Type.
  revert q. induction l as [|x l IH]; intros q Hq; simpl.
  - split; [done|]. intros k. rewrite elem_of_nil. tauto.
  - destruct (IH (ready_insert x q)) as [? H]; [by apply ready_insert_sorted|]. split; [done|].
    intros k. rewrite H, elem_of_ready_insert, elem_of_cons. tauto.
Qed.

Lemma power_order_ok cache :
  chains_ok fetch cache → (size U ≤ fuel)%nat →
  ∃ l cache', reverse_topological_power_order fetch fuel v events creators cache = Ok (l, cache') ∧
    chains_ok fetch cache' ∧ power_order sort_key_of deps_of events l.
Proof.
  intros Hc Hf. unfold reverse_topological_power_order.
  destruct (kahn_enter_all (btree events) ∅
    {| keys := ∅; pending := ∅; dependents := ∅; chain_cache := cache |}) as (st & -> & Hst).
  { split; cbn [keys pending dependents chain_cache]; try done.
    - intros d. rewrite lookup_empty. constructor.
    - intros d x. rewrite lookup_empty. simpl. rewrite elem_of_nil, elem_of_empty. tauto. }
  { unfold btree. rewrite merge_sort_Permutation. apply NoDup_elements. }
  { intros x Hx%elem_of_btree. split; [done|set_solver]. }
  destruct (graph_acyclic (fetch := fetch) (U := U)) as [rank Hr].
  assert (HD : ∅ ∪ list_to_set (btree events) =@{gset string} events).
  { apply set_eq. intros x. rewrite elem_of_union, elem_of_list_to_set, elem_of_btree. set_solver. }
  rewrite HD in Hst. destruct Hst as [Hk Hp Hn Hd Hcc].
  match goal with |- context [foldl ?f [] ?l] =>
    destruct (ready_insert_all l []) as [Hs Hin]; [constructor|]; set (ready := foldl f [] l) in * end.
  destruct (kahn_loop_ok sort_key_of deps_of events sort_key_of_id rank) with
    (ks := keys st) (R := events) (pend := pending st) (dpts := dependents st) (ready := ready)
    (n := fuel) (out := @nil string) as (l & E & Hl).
  - intros x y Hy Hxy. apply elem_of_intersection in Hxy as [Hxy _].
    apply (ancestor_rank fetch U rank Hr); [by apply Hev|]. by apply Hchain; [apply Hev|].
  - split; try done.
    + intros x Hx. by rewrite Hk, decide_True.
    + intros x Hx. rewrite Hp, decide_True by done. f_equal. unfold deps_of. set_solver.
    + intros k. subst ready. rewrite Hin, elem_of_nil, list_elem_of_omap. split.
      * intros [[]|(x & Hx & Hkx)]. apply list_elem_of_filter in Hx as [Hpx _].
        rewrite Hp in Hpx. rewrite Hk in Hkx. case_decide; [|done].
        injection Hkx as <-. injection Hpx as Hpx. exists x. split; [done|]. split; [done|].
        rewrite Hpx. clear. set_solver.
      * intros (x & -> & Hx & Hfree). right. exists x. rewrite Hk, decide_True by done. split; [|done].
        apply list_elem_of_filter. rewrite Hp, decide_True by done. split.
        -- f_equal. unfold deps_of in *. set_solver.
        -- apply elem_of_btree, elem_of_dom. by rewrite Hp, decide_True.
  - etrans; [by apply subseteq_size|done].
  - simpl in E. rewrite E. eauto.
Qed.
End Order.
