(* ===== verification/ResMainline.v ===== *)
(** * Mainline ordering

    The walk along power-levels events ends; positions are those of the walk
    without its memo table; and the ordering is the sorted permutation of its
    input. *)

From Stdlib Require Import Ascii.
From S2P Require Import Prelude Order Json CoreEvent PowerLevels Auth StateRes ResGraph.
From S2P Require Import ResOrder.
From stdpp Require Import options.

(** ** The comparison *)

Definition mainline_cmp : N * N * string → N * N * string → comparison :=
  cmp_lex (cmp_on (fst ∘ fst) (cmp_rev N.compare))
    (cmp_lex (cmp_on (snd ∘ fst) N.compare) (cmp_on snd String.compare)).

#[export] Instance lawful_mainline : Lawful mainline_cmp.
Proof.
  apply lawful_weak; [unfold mainline_cmp; apply _|].
  intros [[pa ta] ia] [[pb tb] ib]. unfold mainline_cmp, cmp_lex, cmp_on, cmp_rev. simpl.
  destruct (N.compare pb pa) eqn:E1; try done. destruct (N.compare ta tb) eqn:E2; try done.
  intros E3. apply cmp_eq in E1, E2, E3. by subst.
Qed.

Lemma mainline_le_cmp a b : mainline_le a b = cmp_le mainline_cmp a b.
Proof.
  destruct a as [[pa ta] ia], b as [[pb tb] ib]. unfold cmp_le, mainline_cmp, cmp_lex, cmp_on, cmp_rev.
  simpl. destruct (N.compare pb pa); [|done..]. by destruct (N.compare ta tb).
Qed.

#[export] Instance mainline_trans : Transitive (holds mainline_le).
Proof. intros a b c. unfold holds. rewrite !mainline_le_cmp. apply cmp_le_trans. Qed.

#[export] Instance mainline_total : Total (holds mainline_le).
Proof. intros a b. unfold holds. rewrite !mainline_le_cmp. apply cmp_le_total. Qed.

#[export] Instance mainline_antisym : AntiSymm (=) (holds mainline_le).
Proof. intros a b. unfold holds. rewrite !mainline_le_cmp. apply cmp_le_antisym. Qed.

Section Mainline.
Set Default Proof Using "Type*".
Context (fetch : string → option Event) (U : gset string) {G : auth_graph fetch U}.

(** The power-levels event among an event's auth events. *)
Definition levels_parent (x : string) : option string :=
  match fetch x with
  | Some e => match pl_in_auth_events fetch e with Ok o => o | Err _ => None end
  | None => None
  end.

Lemma levels_parent_ok x :
  x ∈ U → ∃ e, fetch x = Some e ∧ event_id e = x ∧ pl_in_auth_events fetch e = Ok (levels_parent x) ∧
  ∀ y, levels_parent x = Some y → cites fetch x y ∧ y ∈ U.
Proof.
  intros Hx. destruct (graph_known x Hx) as (e & He & Hid). exists e. split; [done|]. split; [done|].
  destruct (pl_in_auth_events_ok fetch U x e Hx He) as (o & Ho & Hin).
  unfold levels_parent. by rewrite He, Ho.
Qed.

(** The [i]-th power-levels event of the walk. *)
Fixpoint levels_nth (i : nat) (start : option string) : option string :=
  match i with O => start | S i => start ≫= λ x, levels_nth i (levels_parent x) end.

(** The mainline position of a walk that starts at [o]. *)
Inductive position_from (mainline : gmap string N) : option string → N → Prop :=
  | position_end : position_from mainline None usize_max
  | position_hit x i : mainline !! x = Some i → position_from mainline (Some x) i
  | position_walk x p : mainline !! x = None → position_from mainline (levels_parent x) p →
      position_from mainline (Some x) p.

Lemma position_unique m o p q : position_from m o p → position_from m o q → p = q.
Proof using Type.
  intros H. revert q. induction H; inversion 1; simplify_eq; auto.
Qed.

Context (rank : string → nat) (Hr : ∀ a b, a ∈ U → cites fetch a b → (rank b < rank a)%nat).

(** The number of steps a walk from [o] may take. *)
Definition steps_from (o : option string) : nat := match o with Some x => S (rank x) | None => 0 end.

Lemma steps_parent x : x ∈ U → (steps_from (levels_parent x) ≤ rank x)%nat.
Proof.
  intros Hx. destruct (levels_parent_ok x Hx) as (_ & _ & _ & _ & H).
  destruct (levels_parent x) as [y|]; simpl; [|lia]. destruct (H y eq_refl). by apply Hr.
Qed.

Lemma mainline_loop_ok n m i o :
  (∀ x, o = Some x → x ∈ U) → (steps_from o ≤ n)%nat →
  ∃ m', mainline_loop fetch n m i o = Ok m' ∧
    ∀ x j, m' !! x = Some j ↔
      (∃ k, levels_nth k o = Some x ∧ j = (i + N.of_nat k)%N) ∨
      (m !! x = Some j ∧ ∀ k, levels_nth k o ≠ Some x).
Proof.
  revert m i o. induction n as [|n IH]; intros m i o Ho Hn;
    (destruct o as [x|]; [|exists m; split; [done|]; intros y j; split;
      [intros Hy; right; split; [done|]; by intros []|
       intros [([] & ? & _)|[? _]]; done]]); simpl in Hn; [lia|].
  assert (Hx : x ∈ U) by by apply Ho. pose proof (steps_parent x Hx).
  destruct (levels_parent_ok x Hx) as (e & He & _ & Hpl & Hpar). cbn [mainline_loop].
  unfold fetched. rewrite He. cbn [ok_or]. rewrite Hpl.
  destruct (IH (<[x := i]> m) (i + 1)%N (levels_parent x)) as (m' & -> & Hm'); [by apply Hpar|lia|].
  exists m'. split; [done|]. intros y j. rewrite Hm'.
  (* nothing later on the walk is [x] again *)
  assert (Hlater : ∀ k z, levels_nth k (levels_parent x) = Some z → (rank z < rank x)%nat).
  { intros k. clear -Hr Hx G. revert x Hx. induction k as [|k IHk]; intros x Hx z Hz; simpl in Hz.
    - destruct (levels_parent_ok x Hx) as (_ & _ & _ & _ & H). destruct (H z Hz). by apply Hr.
    - destruct (levels_parent_ok x Hx) as (_ & _ & _ & _ & H).
      destruct (levels_parent x) as [w|]; simpl in Hz; [|done]. destruct (H w eq_refl) as [Hc Hw].
      etrans; [by apply (IHk w Hw)|]. by apply Hr. }
  split.
  - intros [(k & Hk & ->)|[Hy Hno]].
    + left. exists (S k). split; [done|lia].
    + destruct (decide (x = y)) as [->|Hne].
      * rewrite lookup_insert_eq in Hy. simplify_eq. left. exists 0%nat. split; [done|lia].
      * rewrite lookup_insert_ne in Hy by done. right. split; [done|].
        intros [|k]; simpl; [by intros [= ->]|apply Hno].
  - intros [([|k] & Hk & ->)|[Hy Hno]].
    + simpl in Hk. simplify_eq. right. rewrite lookup_insert_eq. split; [f_equal; lia|].
      intros k Hk. apply Hlater in Hk. lia.
    + left. exists k. split; [done|lia].
    + right. assert (x ≠ y) by (intros ->; by apply (Hno 0%nat)).
      rewrite lookup_insert_ne by done. split; [done|]. intros k. apply (Hno (S k)).
Qed.

Context (mainline : gmap string N).

(** A memo table of positions. *)
Definition positions_ok (cache : gmap string N) : Prop :=
  ∀ x p, cache !! x = Some p → position_from mainline (levels_parent x) p.

Lemma position_loop_ok n cache walked o :
  positions_ok cache → (∀ x, o = Some x → x ∈ U) → (steps_from o ≤ n)%nat →
  ∃ p more, position_loop fetch n mainline cache walked o = Ok (p, walked ++ more) ∧
    position_from mainline o p ∧ ∀ y, y ∈ more → position_from mainline (levels_parent y) p.
Proof.
  intros Hc. revert walked o. induction n as [|n IH]; intros walked o Ho Hn;
    (destruct o as [x|]; [|exists usize_max, []; rewrite app_nil_r; split_and!;
      [done|constructor|intros y Hy; by apply elem_of_nil in Hy]]); simpl in Hn; [lia|].
  assert (Hx : x ∈ U) by by apply Ho. cbn [position_loop].
  destruct (mainline !! x) as [i|] eqn:Em.
  { exists i, []. rewrite app_nil_r. split_and!; [done|by constructor|].
    intros y Hy. by apply elem_of_nil in Hy. }
  destruct (cache !! x) as [i|] eqn:Ec.
  { exists i, []. rewrite app_nil_r. split_and!; [done| |intros y Hy; by apply elem_of_nil in Hy].
    apply position_walk; [done|]. by apply Hc. }
  pose proof (steps_parent x Hx). destruct (levels_parent_ok x Hx) as (e & He & _ & Hpl & Hpar).
  unfold fetched. rewrite He. cbn [ok_or]. rewrite Hpl.
  destruct (IH (walked ++ [x]) (levels_parent x)) as (p & more & E & Hp & Hm); [by apply Hpar|lia|].
  exists p, (x :: more). rewrite E, <- app_assoc. split_and!; [done|by apply position_walk|].
  intros y [->|Hy]%elem_of_cons; [done|by apply Hm].
Qed.

Lemma positions_memo p l cache :
  positions_ok cache → (∀ y, y ∈ l → position_from mainline (levels_parent y) p) →
  positions_ok (foldl (λ cache id, <[id := p]> cache) cache l).
Proof.
  revert cache. induction l as [|y l IH]; intros cache Hc Hl; simpl; [done|].
  apply IH; [|intros z Hz; apply Hl; by right]. intros z q. destruct (decide (y = z)) as [->|Hne].
  - rewrite lookup_insert_eq. intros [= <-]. apply Hl. by left.
  - rewrite lookup_insert_ne by done. apply Hc.
Qed.

Lemma mainline_position_ok fuel cache x e :
  positions_ok cache → x ∈ U → fetch x = Some e → (rank x ≤ fuel)%nat →
  ∃ p cache', mainline_position fetch fuel e mainline cache = Ok (p, cache') ∧
    position_from mainline (levels_parent x) p ∧ positions_ok cache'.
Proof.
  intros Hc Hx He Hf. destruct (levels_parent_ok x Hx) as (e' & He' & Hid & Hpl & Hpar).
  rewrite He in He'. injection He' as <-. unfold mainline_position. rewrite Hid, Hpl.
  destruct (cache !! x) as [p|] eqn:Ep; [exists p, cache; split_and!; [done|by apply Hc|done]|].
  pose proof (steps_parent _ Hx).
  destruct (position_loop_ok fuel cache [x] (levels_parent x)) as (p & more & -> & Hp & Hm);
    [done|by apply Hpar|lia|].
  eexists p, _. split_and!; [done..|]. apply positions_memo; [done|].
  intros y [->|Hy]%elem_of_cons; [done|by apply Hm].
Qed.

(** The row that an event is sorted by. *)
Definition mainline_row (x : string) (row : N * N * string) : Prop :=
  ∃ e p, fetch x = Some e ∧ position_from mainline (levels_parent x) p ∧
         row = (p, origin_server_ts e, x).

Lemma order_steps_ok fuel l acc cache :
  positions_ok cache → (∀ x, x ∈ l → x ∈ U ∧ (rank x ≤ fuel)%nat) →
  ∃ rows cache', try_fold (order_step fetch fuel mainline) (acc, cache) l = Ok (acc ++ rows, cache') ∧
    Forall2 mainline_row l rows.
Proof.
  revert acc cache. induction l as [|x l IH]; intros acc cache Hc Hl; cbn [try_fold].
  { exists [], cache. by rewrite app_nil_r. }
  destruct (Hl x) as [Hx Hrx]; [by left|]. destruct (graph_known x Hx) as (e & He & _).
  unfold order_step at 1. unfold fetched. rewrite He. cbn [ok_or fst snd].
  destruct (mainline_position_ok fuel cache x e Hc Hx He Hrx) as (p & c1 & -> & Hp & Hc1).
  destruct (IH (acc ++ [(p, origin_server_ts e, x)]) c1 Hc1) as (rows & c2 & E & Hrows).
  { intros y Hy. apply Hl. by right. }
  eexists (_ :: rows), c2. rewrite E, <- app_assoc. split; [done|]. constructor; [by exists e, p|done].
Qed.

Lemma mainline_row_id l rows : Forall2 mainline_row l rows → snd <$> rows = l.
Proof using Type.
  induction 1 as [|x row l rows (e & p & _ & _ & ->) _ IH]; [done|]. by rewrite fmap_cons, IH.
Qed.

(** The ordering: a permutation of the input, sorted by its rows. *)
Lemma mainline_order_ok fuel l :
  (∀ x, x ∈ l → x ∈ U ∧ (rank x ≤ fuel)%nat) →
  ∃ sorted rows, mainline_order fetch fuel mainline l = Ok sorted ∧ sorted ≡ₚ l ∧
    Forall2 mainline_row sorted rows ∧ StronglySorted (holds mainline_le) rows.
Proof.
  intros Hl. unfold mainline_order.
  destruct (order_steps_ok fuel l [] ∅) as (rows & c & -> & Hrows); [by intros x p; rewrite lookup_empty|done|].
  eexists _, (merge_sort (holds mainline_le) rows). split; [done|].
  pose proof (merge_sort_Permutation (holds mainline_le) rows) as HP. split_and!.
  - rewrite <- (mainline_row_id _ _ Hrows). by apply fmap_Permutation.
  - assert (Hrow : ∀ row, row ∈ rows → mainline_row row.2 row).
    { clear -Hrows. induction Hrows as [|x row l rows Hx _ IH]; [by intros row ?%elem_of_nil|].
      intros r [->|Hr]%elem_of_cons; [|by apply IH]. pose proof Hx as (e & p & _ & _ & ->). done. }
    apply Forall2_fmap_l, Forall_Forall2_diag. apply list.Forall_forall. intros row Hin.
    apply Hrow. by rewrite HP in Hin.
  - apply Sorted_StronglySorted; [apply _|]. apply Sorted_merge_sort. apply _.
Qed.
End Mainline.

(** * The iterative auth checks

    On known events the checks are a plain fold: an event enters the state
    when the rules accept it against the working state, completed by the
    event's own auth events. *)

Section Checks.
Context `{RU : Ruma} (fetch : string → option Event).

(** The event that a rule sees at a key. *)
Definition source (v : RoomVersion) (event : Event) (state : StateIds) (key : Key) : option Event :=
  match state !! key with
  | Some id => fetch id
  | None =>
      if bool_decide (key.1 = "m.room.create"%string) && room_id_is_create_event_id v
      then create_of_room fetch event else own_auth_event fetch event key
  end.

(** The rules accept the event against the working state. *)
Definition accepts (v : RoomVersion) (state : StateIds) (event : Event) : bool :=
  is_ok (check_state_dependent v event (λ t k, source v event state (t, k))).

Definition apply_event (v : RoomVersion) (state : StateIds) (id : string) : StateIds :=
  match fetch id with
  | Some event => if accepts v state event then <[event_key event := id]> state else state
  | None => state
  end.

Definition apply_events (v : RoomVersion) (order : list string) (state : StateIds) : StateIds :=
  foldl (apply_event v) state order.

(** ** The working state of one event *)

Lemma effective_add_ok (v : RoomVersion) (event : Event) (state : StateIds) (eff : gmap Key Event) (key : Key) :
  (∀ k id, state !! k = Some id → is_Some (fetch id)) →
  effective_add fetch v event state eff key =
  Ok (match source v event state key with Some e => <[key := e]> eff | None => eff end).
Proof.
  intros Hs. unfold effective_add, source. destruct (state !! key) as [id|] eqn:E; [|done].
  destruct (Hs key id E) as [e He]. unfold fetched. by rewrite He.
Qed.

Lemma effective_state_ok (v : RoomVersion) (event : Event) (state : StateIds) :
  (∀ k id, state !! k = Some id → is_Some (fetch id)) →
  ∃ eff, effective_state fetch v event state = Ok eff ∧
    ∀ k, k ∈ needed_keys v event → eff !! k = source v event state k.
Proof.
  intros Hs. unfold effective_state.
  assert (H : ∀ l eff, NoDup l → (∀ k, k ∈ l → eff !! k = None) →
    ∃ eff', try_fold (effective_add fetch v event state) eff l = Ok eff' ∧
      (∀ k, k ∈ l → eff' !! k = source v event state k) ∧ ∀ k, k ∉ l → eff' !! k = eff !! k).
  { induction l as [|k l IH]; intros eff Hnd Hnone; cbn [try_fold].
    { exists eff. split_and!; [done| |done]. intros k Hk. by apply elem_of_nil in Hk. }
    apply list.NoDup_cons in Hnd as [Hkl Hnd]. rewrite effective_add_ok by done.
    match goal with |- ∃ _, try_fold _ ?e _ = _ ∧ _ => set (eff1 := e) end.
    assert (H1 : eff1 !! k = source v event state k ∧ ∀ k', k' ≠ k → eff1 !! k' = eff !! k').
    { unfold eff1. destruct (source _ _ _ k).
      - rewrite lookup_insert_eq. split; [done|]. intros k' Hk'. by rewrite lookup_insert_ne.
      - split; [apply Hnone; by left|done]. }
    destruct H1 as [H1 H2]. destruct (IH eff1 Hnd) as (eff' & E & Hin & Hout).
    { intros k' Hk'. rewrite H2; [apply Hnone; by right|by intros ->]. }
    exists eff'. split; [done|]. split.
    - intros k' [->|Hk']%elem_of_cons; [by rewrite Hout|by apply Hin].
    - intros k' Hk'. apply not_elem_of_cons in Hk' as [??]. by rewrite Hout, H2. }
  destruct (H (sorted_keys (needed_keys v event)) ∅) as (eff & E & Hin & _).
  { unfold sorted_keys. rewrite merge_sort_Permutation. apply NoDup_elements. }
  { intros k _. apply lookup_empty. }
  exists eff. split; [done|]. intros k Hk. apply Hin. unfold sorted_keys.
  rewrite merge_sort_Permutation. by apply elem_of_elements.
Qed.

(** The rules read only what [needed_keys] holds. *)
Lemma accepts_effective (v : RoomVersion) (event : Event) (state : StateIds) (eff : gmap Key Event) :
  (∀ k, k ∈ needed_keys v event → eff !! k = source v event state k) →
  is_ok (check_state_dependent v event (λ t k, eff !! (t, k))) = accepts v state event.
Proof.
  intros H. unfold accepts. destruct (decide (event_type event = "m.room.create"%string)) as [Ht|Ht].
  - unfold check_state_dependent. by rewrite (proj2 (is_type_true _ _) Ht).
  - f_equal. apply check_state_agree; [done| |].
    + apply H. unfold needed_keys. set_solver.
    + intros k Hk. destruct k as [t k]. apply H. unfold needed_keys. set_solver.
Qed.

Lemma auth_step_ok (v : RoomVersion) (state : StateIds) (id : string) :
  (∀ k i, state !! k = Some i → is_Some (fetch i)) → is_Some (fetch id) →
  auth_step fetch v state id = Ok (apply_event v state id).
Proof.
  intros Hs [e He]. unfold auth_step, apply_event, fetched. rewrite He. cbn [ok_or].
  destruct (effective_state_ok v e state Hs) as (eff & -> & Heff).
  rewrite (accepts_effective v e state eff Heff). by case_match.
Qed.

(** What an applied event leaves: the old state, with at most its own key set. *)
Lemma apply_event_lookup (v : RoomVersion) (state : StateIds) (id : string) k i :
  apply_event v state id !! k = Some i → i = id ∨ state !! k = Some i.
Proof.
  unfold apply_event. destruct (fetch id) as [e|]; [|by right]. destruct (accepts v state e); [|by right].
  rewrite lookup_insert_Some. naive_solver.
Qed.

Lemma apply_events_lookup (v : RoomVersion) (order : list string) (state : StateIds) k i :
  apply_events v order state !! k = Some i → i ∈ order ∨ state !! k = Some i.
Proof.
  revert state. induction order as [|id order IH]; intros state; simpl; [by right|].
  intros [?|H]%IH; [left; by right|]. apply apply_event_lookup in H as [->|?]; [left; by left|by right].
Qed.

Lemma iterative_auth_checks_ok (v : RoomVersion) (order : list string) (state : StateIds) :
  (∀ k i, state !! k = Some i → is_Some (fetch i)) → (∀ i, i ∈ order → is_Some (fetch i)) →
  iterative_auth_checks fetch v order state = Ok (apply_events v order state).
Proof.
  unfold iterative_auth_checks. revert state.
  induction order as [|id order IH]; intros state Hs Ho; simpl; [done|].
  rewrite auth_step_ok; [|done|apply Ho; by left]. apply IH; [|intros i Hi; apply Ho; by right].
  intros k i Hk. apply apply_event_lookup in Hk as [->|Hk]; [apply Ho; by left|by eapply Hs].
Qed.
End Checks.
