(* ===== verification/ResRefine.v ===== *)
(** * What state resolution computes

    [resolution] says it without caches, counters or fuel: the full conflicted
    set from the ancestors, the power ordering of its power events, the auth
    checks as a fold, the mainline ordering of the rest, the unconflicted state
    on top. *)

From Stdlib Require Import Ascii.
From S2P Require Import Prelude Order Json CoreEvent PowerLevels Auth StateRes ResGraph.
From S2P Require Import ResOrder ResMainline.
From stdpp Require Import options.

(** ** Partition *)

(** Every set has [value] at the key. *)
Definition agreed (sets : list StateIds) (k : Key) (value : string) : Prop :=
  sets ≠ [] ∧ ∀ s : StateIds, s ∈ sets → s !! k = Some value.

(** Some set has the event at a key that is not agreed. *)
Definition in_conflict (sets : list StateIds) (x : string) : Prop :=
  ∃ (s : StateIds) k, s ∈ sets ∧ s !! k = Some x ∧ ∀ value, ¬ agreed sets k value.

Lemma unconflicted_at_agreed sets k value :
  unconflicted_at sets k = Some value ↔ agreed sets k value.
Proof.
  unfold agreed. destruct sets as [|s l]; [naive_solver|]. cbn [unconflicted_at].
  destruct (s !! k) as [x|] eqn:Es; cbn [mbind option_bind];
    [|split; [done|]; intros [_ H]; specialize (H s ltac:(by left)); congruence].
  destruct (forallb (λ s' : StateIds, bool_decide (s' !! k = Some x)) (s :: l)) eqn:Eb.
  - rewrite forallb_forall in Eb. split.
    + intros [= <-]. split; [done|]. intros s' Hs'. specialize (Eb s' ltac:(by apply list_elem_of_In)).
      by apply bool_decide_eq_true in Eb.
    + intros [_ H]. specialize (H s ltac:(by left)). congruence.
  - split; [done|]. intros [_ H]. exfalso. apply not_true_iff_false in Eb. apply Eb.
    assert (x = value) as -> by (specialize (H s ltac:(by left)); congruence).
    apply forallb_forall. intros s' Hs'. apply bool_decide_eq_true, H. by apply list_elem_of_In.
Qed.

Lemma unconflicted_at_none sets k :
  unconflicted_at sets k = None ↔ ∀ value, ¬ agreed sets k value.
Proof.
  split.
  - intros H value Ha. apply unconflicted_at_agreed in Ha. congruence.
  - intros H. destruct (unconflicted_at sets k) as [x|] eqn:E; [|done].
    apply unconflicted_at_agreed in E. by apply H in E.
Qed.

Lemma partition_fold sets l acc :
  let p := foldl (partition_step sets) acc l in
  (∀ k, p.1 !! k = if decide (k ∈ l ∧ is_Some (unconflicted_at sets k))
                   then unconflicted_at sets k else acc.1 !! k) ∧
  (∀ x, x ∈ p.2 ↔ x ∈ acc.2 ∨ ∃ k (s : StateIds), k ∈ l ∧ unconflicted_at sets k = None ∧
                                   s ∈ sets ∧ s !! k = Some x).
Proof.
  revert acc. induction l as [|k0 l IH]; intros acc; cbn [foldl].
  - split.
    + intros k. rewrite decide_False; [done|]. intros [H _]. by apply elem_of_nil in H.
    + intros x. split; [by left|]. intros [?|(k & s & H & _)]; [done|]. by apply elem_of_nil in H.
  - destruct (IH (partition_step sets acc k0)) as [H1 H2]. split.
    + intros k. rewrite H1. destruct (decide (k ∈ l ∧ is_Some (unconflicted_at sets k))) as [Hd|Hd].
      * rewrite decide_True; [done|]. split; [right|]; apply Hd.
      * unfold partition_step. destruct (unconflicted_at sets k0) as [v0|] eqn:E0; simpl.
        -- destruct (decide (k = k0)) as [->|Hne].
           ++ rewrite lookup_insert_eq, decide_True; [done|]. split; [by left|by rewrite E0].
           ++ rewrite lookup_insert_ne by done. rewrite decide_False; [done|].
              intros [[?|?]%elem_of_cons ?]; [done|]. by apply Hd.
        -- rewrite decide_False; [done|]. intros [[->|?]%elem_of_cons Hs]; [|by apply Hd].
           rewrite E0 in Hs. by destruct Hs.
    + intros x. rewrite H2. unfold partition_step. setoid_rewrite elem_of_cons.
      destruct (unconflicted_at sets k0) eqn:E0; simpl; [naive_solver|].
      rewrite elem_of_union, elem_of_list_to_set, list_elem_of_omap. naive_solver.
Qed.

Lemma partition_ok sets :
  (∀ k value, (partition sets).1 !! k = Some value ↔ agreed sets k value) ∧
  (∀ x, x ∈ (partition sets).2 ↔ in_conflict sets x).
Proof.
  destruct (partition_fold sets (sorted_keys (⋃ (dom <$> sets))) (∅, ∅)) as [H1 H2].
  assert (Hk : ∀ k, k ∈ sorted_keys (⋃ (dom <$> sets)) ↔ ∃ (s : StateIds), s ∈ sets ∧ is_Some (s !! k)).
  { intros k. unfold sorted_keys. rewrite merge_sort_Permutation, elem_of_elements, elem_of_union_list.
    setoid_rewrite list_elem_of_fmap. setoid_rewrite <- elem_of_dom. naive_solver. }
  fold (partition sets) in H1, H2. split.
  - intros k value. rewrite H1, <- unconflicted_at_agreed. case_decide as Hd; [done|].
    cbn [fst]. rewrite lookup_empty. split; [done|]. intros Hu. exfalso. apply Hd. split; [|by rewrite Hu].
    apply Hk. apply unconflicted_at_agreed in Hu as [Hne Hall].
    destruct sets as [|s l]; [done|]. exists s. split; [by left|]. rewrite Hall by by left. by eexists.
  - intros x. rewrite H2. unfold in_conflict. setoid_rewrite Hk. setoid_rewrite unconflicted_at_none.
    simpl. rewrite elem_of_empty. split.
    + intros [[]|(k & s & _ & ? & ? & ?)]. by exists s, k.
    + intros (s & k & Hs & Hsk & Hn). right. exists k, s. split_and!; [|done..]. exists s.
      split; [done|]. by rewrite Hsk.
Qed.

(** ** The specification *)

Section Spec.
Context `{RU : Ruma} (fetch : string → option Event) (v : RoomVersion).

(** The full auth chain of a state. *)
Definition state_chain (s : StateIds) (x : string) : Prop :=
  ∃ k id, s !! k = Some id ∧ ancestor fetch id x.

(** In the auth chains of some states and not of others. *)
Definition auth_differs (sets : list StateIds) (x : string) : Prop :=
  (∃ s, s ∈ sets ∧ state_chain s x) ∧ ∃ s, s ∈ sets ∧ ¬ state_chain s x.

(** On a path of auth events between two events in conflict. *)
Definition between_conflicts (sets : list StateIds) (x : string) : Prop :=
  (∃ c, in_conflict sets c ∧ (x = c ∨ ancestor fetch c x)) ∧
  ∃ d, in_conflict sets d ∧ (x = d ∨ ancestor fetch x d).

Definition in_full (sets : list StateIds) (x : string) : Prop :=
  in_conflict sets x ∨ auth_differs sets x ∨ (state_res v = ResV2_1 ∧ between_conflicts sets x).

Definition power_event (x : string) : Prop := ∃ e, fetch x = Some e ∧ is_power_event e = true.

(** A power event of the full conflicted set, or an ancestor of one, in it. *)
Definition in_power (full : gset string) (x : string) : Prop :=
  x ∈ full ∧ (power_event x ∨ ∃ y, y ∈ full ∧ power_event y ∧ ancestor fetch y x).

(** Ordered by sender power, ancestors first. *)
Definition ordered_power (creators power : gset string) (l : list string) : Prop :=
  ∃ deps, (∀ x y, x ∈ power → y ∈ deps x ↔ ancestor fetch x y ∧ y ∈ power) ∧
    power_order (sort_key_of fetch v creators) deps power l.

Definition is_mainline (start : option string) (m : gmap string N) : Prop :=
  ∀ x i, m !! x = Some i ↔ ∃ k, levels_nth fetch k start = Some x ∧ i = N.of_nat k.

(** Ordered by mainline position, timestamp, id. *)
Definition ordered_rest (m : gmap string N) (rest : gset string) (l : list string) : Prop :=
  ∃ rows, l ≡ₚ elements rest ∧ Forall2 (mainline_row fetch m) l rows ∧
    StronglySorted (holds mainline_le) rows.

Definition initial_state (unconflicted : StateIds) : StateIds :=
  match state_res v with ResV2 => unconflicted | ResV2_1 => ∅ end.

Inductive resolution (sets : list StateIds) : StateIds → Prop :=
  | resolution_agreed r :
      (∀ k x, r !! k = Some x ↔ agreed sets k x) → (∀ x, ¬ in_conflict sets x) → resolution sets r
  | resolution_conflict unconflicted full power create_id create sorted_power mainline sorted_rest x :
      (∀ k x, unconflicted !! k = Some x ↔ agreed sets k x) → in_conflict sets x →
      (∀ x, x ∈ full ↔ in_full sets x) → (∀ x, x ∈ power ↔ in_power full x) →
      find_create unconflicted sets = Some create_id → fetch create_id = Some create →
      ordered_power (creators v create) power sorted_power →
      let partial := apply_events fetch v sorted_power (initial_state unconflicted) in
      is_mainline (partial !! pl_key) mainline →
      ordered_rest mainline (full ∖ power) sorted_rest →
      resolution sets (unconflicted ∪ apply_events fetch v sorted_rest partial).

(** ** It has at most one result *)

Lemma ordered_power_unique creators power l1 l2 :
  ordered_power creators power l1 → ordered_power creators power l2 → l1 = l2.
Proof.
  intros (d1 & H1 & P1) (d2 & H2 & P2). eapply power_order_unique; [exact P1|].
  eapply power_order_ext; [|exact P2]. intros x y Hx _. by rewrite H1, H2.
Qed.

Lemma mainline_rows_unique m l rows1 rows2 :
  Forall2 (mainline_row fetch m) l rows1 → Forall2 (mainline_row fetch m) l rows2 → rows1 = rows2.
Proof.
  intros H. revert rows2. induction H as [|x row l rows (e & p & He & Hp & ->) _ IH];
    inversion 1 as [|? ? ? ? (e' & p' & He' & Hp' & ->)]; subst; [done|].
  f_equal; [|by apply IH]. simplify_eq. by rewrite (position_unique _ _ _ _ _ Hp Hp').
Qed.

Lemma ordered_rest_unique m rest l1 l2 :
  ordered_rest m rest l1 → ordered_rest m rest l2 → l1 = l2.
Proof.
  intros (rows1 & P1 & F1 & S1) (rows2 & P2 & F2 & S2).
  assert (Hl : l1 ≡ₚ l2) by (by rewrite P1, P2).
  destruct (Permutation_Forall2 Hl F1) as (rows & HP & F).
  rewrite (mainline_rows_unique _ _ _ _ F F2) in HP.
  assert (rows1 = rows2) as ->.
  { eapply (StronglySorted_unique (holds mainline_le)); [done..|exact HP]. }
  by rewrite <- (mainline_row_id _ _ _ _ F1), <- (mainline_row_id _ _ _ _ F2).
Qed.

Lemma agreed_unique (sets : list StateIds) (m1 m2 : StateIds) :
  (∀ k x, m1 !! k = Some x ↔ agreed sets k x) → (∀ k x, m2 !! k = Some x ↔ agreed sets k x) → m1 = m2.
Proof using Type. intros H1 H2. apply map_eq. intros k. apply option_eq. intros x. by rewrite H1, H2. Qed.

Lemma mainline_unique start m1 m2 : is_mainline start m1 → is_mainline start m2 → m1 = m2.
Proof. unfold is_mainline. intros H1 H2. apply map_eq. intros k. apply option_eq. intros i. by rewrite H1, H2. Qed.

Lemma resolution_unique (sets : list StateIds) r1 r2 : resolution sets r1 → resolution sets r2 → r1 = r2.
Proof.
  intros [r Ha Hn|un fu po ci cr sp ml sr x Ha Hx Hf Hp Hci Hcr Hsp partial Hml Hsr];
    intros [r' Ha' Hn'|un' fu' po' ci' cr' sp' ml' sr' x' Ha' Hx' Hf' Hp' Hci' Hcr' Hsp' partial' Hml' Hsr'].
  - by eapply agreed_unique.
  - by apply Hn in Hx'.
  - by apply Hn' in Hx.
  - assert (un = un') as <- by by eapply agreed_unique.
    assert (fu = fu') as <- by (apply set_eq; intros y; by rewrite Hf, Hf').
    assert (po = po') as <- by (apply set_eq; intros y; by rewrite Hp, Hp').
    rewrite Hci in Hci'. injection Hci' as <-. rewrite Hcr in Hcr'. injection Hcr' as <-.
    assert (sp = sp') as <- by by eapply ordered_power_unique.
    subst partial partial'. assert (ml = ml') as <- by by eapply mainline_unique.
    by assert (sr = sr') as <- by by eapply ordered_rest_unique.
Qed.

(** ** It does not see the order of the states *)

Lemma agreed_perm (sets sets' : list StateIds) k x : sets ≡ₚ sets' → agreed sets k x ↔ agreed sets' k x.
Proof using Type.
  intros HP. assert (Hin : ∀ s, s ∈ sets ↔ s ∈ sets') by (intros s; by rewrite HP).
  unfold agreed. setoid_rewrite Hin. f_equiv. split; intros Hne ->; apply Hne.
  - by apply Permutation_nil.
  - apply Permutation_nil. by symmetry.
Qed.

Lemma in_conflict_perm (sets sets' : list StateIds) x : sets ≡ₚ sets' → in_conflict sets x ↔ in_conflict sets' x.
Proof using Type.
  intros HP. assert (Hin : ∀ s, s ∈ sets ↔ s ∈ sets') by (intros s; by rewrite HP).
  unfold in_conflict. setoid_rewrite Hin. assert (Ha : ∀ k y, agreed sets k y ↔ agreed sets' k y) by (intros k y; by apply agreed_perm).
  by setoid_rewrite Ha.
Qed.

Lemma in_full_perm (sets sets' : list StateIds) x : sets ≡ₚ sets' → in_full sets x ↔ in_full sets' x.
Proof.
  intros HP. assert (Hin : ∀ s, s ∈ sets ↔ s ∈ sets') by (intros s; by rewrite HP).
  assert (Hc : ∀ y, in_conflict sets y ↔ in_conflict sets' y) by (intros y; by apply in_conflict_perm).
  unfold in_full, auth_differs, between_conflicts. setoid_rewrite Hc. by setoid_rewrite Hin.
Qed.

Lemma resolution_perm (sets sets' : list StateIds) r create_id :
  sets ≡ₚ sets' → agreed sets create_key create_id → resolution sets r → resolution sets' r.
Proof.
  intros HP Hag [r' Ha Hn|un fu po ci cr sp ml sr x Ha Hx Hf Hp Hci Hcr Hsp partial Hml Hsr].
  - constructor; [intros k x; by rewrite Ha, agreed_perm|]. intros x. by rewrite <- in_conflict_perm.
  - eapply (resolution_conflict sets' un fu po ci cr sp ml sr x); try done.
    + intros k y. by rewrite Ha, agreed_perm.
    + by rewrite <- in_conflict_perm.
    + intros y. by rewrite Hf, in_full_perm.
    + unfold find_create in *. apply Ha in Hag. by rewrite Hag in *.
Qed.
End Spec.

(** * Resolution refines its specification

    On events that form a finite acyclic graph closed under auth events,
    [resolve] returns, with fuel that depends on the graph alone, and what it
    returns is the resolution. *)

Lemma elem_of_state_values (s : StateIds) x : x ∈ state_values s ↔ ∃ k, s !! k = Some x.
Proof.
  unfold state_values, sorted_keys. rewrite list_elem_of_omap.
  setoid_rewrite merge_sort_Permutation. setoid_rewrite elem_of_elements. setoid_rewrite elem_of_dom.
  split; [naive_solver|]. intros [k Hk]. exists k. by rewrite Hk.
Qed.

Lemma difference_ok fetch sets chains :
  Forall2 (λ (s : StateIds) (c : gset string), ∀ x, x ∈ c ↔ state_chain fetch s x) sets chains →
  ∀ x, x ∈ difference_of chains ↔ auth_differs fetch sets x.
Proof.
  intros HF x. unfold difference_of, auth_differs. rewrite elem_of_filter, elem_of_union_list.
  rewrite (and_comm (forallb _ _ = false)). f_equiv.
  - induction HF as [|s c sets chains Hsc _ IH].
    + setoid_rewrite elem_of_nil. naive_solver.
    + setoid_rewrite elem_of_cons. naive_solver.
  - induction HF as [|s c sets chains Hsc _ IH].
    + setoid_rewrite elem_of_nil. naive_solver.
    + simpl. rewrite andb_false_iff, bool_decide_eq_false, IH. setoid_rewrite elem_of_cons. naive_solver.
Qed.

Section Refine.
Set Default Proof Using "Type*".
Context `{RU : Ruma} (fetch : string → option Event) (U : gset string) {G : auth_graph fetch U}.

(** The states name events of the graph. *)
Definition within (sets : list StateIds) : Prop :=
  ∀ (s : StateIds) k x, s ∈ sets → s !! k = Some x → x ∈ U.

Lemma known x : x ∈ U → is_Some (fetch x).
Proof. intros Hx. destruct (graph_known x Hx) as (e & ? & _). by exists e. Qed.

Context (fuel : nat) (chain : string → gset string).
Context (Hchain : ∀ a, a ∈ U → (∀ x, x ∈ chain a ↔ ancestor fetch a x) ∧
  ∀ cache, chains_ok fetch cache →
    ∃ cache', auth_chain fetch fuel a cache = Ok (chain a, cache') ∧ chains_ok fetch cache').

(** ** The auth chains of the states *)

Lemma extend_chain_all l acc cache :
  chains_ok fetch cache → (∀ x, x ∈ l → x ∈ U) →
  ∃ s cache', try_fold (extend_chain fetch fuel) (acc, cache) l = Ok (s, cache') ∧
    chains_ok fetch cache' ∧ ∀ x, x ∈ s ↔ x ∈ acc ∨ ∃ id, id ∈ l ∧ ancestor fetch id x.
Proof.
  revert acc cache. induction l as [|id l IH]; intros acc cache Hc Hl; cbn [try_fold].
  - exists acc, cache. split_and!; [done..|]. intros x. setoid_rewrite elem_of_nil. naive_solver.
  - destruct (Hchain id (Hl id ltac:(by left))) as [Hx Hrun].
    unfold extend_chain at 1. cbn [fst snd]. destruct (Hrun cache Hc) as (c1 & -> & Hc1).
    destruct (IH (acc ∪ chain id) c1 Hc1) as (s & c2 & E & Hc2 & Hs); [intros y Hy; apply Hl; by right|].
    exists s, c2. split_and!; [done..|]. intros x. rewrite Hs, elem_of_union, Hx.
    setoid_rewrite elem_of_cons. naive_solver.
Qed.

Lemma set_chain_all sets acc cache :
  chains_ok fetch cache → within sets →
  ∃ chains cache', try_fold (set_chain fetch fuel) (acc, cache) sets = Ok (acc ++ chains, cache') ∧
    chains_ok fetch cache' ∧
    Forall2 (λ (s : StateIds) (c : gset string), ∀ x, x ∈ c ↔ state_chain fetch s x) sets chains.
Proof.
  revert acc cache. induction sets as [|s sets IH]; intros acc cache Hc Hw; cbn [try_fold].
  - exists [], cache. rewrite app_nil_r. split_and!; [done..|constructor].
  - unfold set_chain at 1. cbn [fst snd].
    destruct (extend_chain_all (state_values s) ∅ cache Hc) as (ch & c1 & -> & Hc1 & Hch).
    { intros x [k Hk]%elem_of_state_values. eapply (Hw s); [by left|done]. }
    destruct (IH (acc ++ [ch]) c1 Hc1) as (chains & c2 & E & Hc2 & HF).
    { intros s' k x Hs'. apply (Hw s'). by right. }
    exists (ch :: chains), c2. rewrite E, <- app_assoc. split_and!; [done..|]. constructor; [|done].
    intros x. rewrite Hch. unfold state_chain. setoid_rewrite elem_of_state_values. set_solver.
Qed.

(** ** The power set *)

Lemma power_add_all full l acc cache :
  chains_ok fetch cache → (∀ x, x ∈ l → x ∈ U) →
  ∃ s cache', try_fold (power_add fetch fuel full) (acc, cache) l = Ok (s, cache') ∧
    chains_ok fetch cache' ∧
    ∀ x, x ∈ s ↔ x ∈ acc ∨
      ∃ y, y ∈ l ∧ power_event fetch y ∧ (x = y ∨ (ancestor fetch y x ∧ x ∈ full)).
Proof.
  revert acc cache. induction l as [|y l IH]; intros acc cache Hc Hl; cbn [try_fold].
  { exists acc, cache. split_and!; [done..|]. intros x. setoid_rewrite elem_of_nil. naive_solver. }
  assert (Hy : y ∈ U) by (apply Hl; by left). destruct (graph_known y Hy) as (e & He & _).
  assert (Hl' : ∀ x, x ∈ l → x ∈ U) by (intros x Hx; apply Hl; by right).
  unfold power_add at 1, fetched. rewrite He. cbn [ok_or].
  assert (Hpe : power_event fetch y ↔ is_power_event e = true).
  { unfold power_event. rewrite He. naive_solver. }
  setoid_rewrite elem_of_cons. destruct (is_power_event e).
  - cbn [fst snd]. destruct (Hchain y Hy) as [Hx Hrun]. destruct (Hrun cache Hc) as (c1 & -> & Hc1).
    destruct (IH ({[y]} ∪ acc ∪ (chain y ∩ full)) c1 Hc1 Hl') as (s & c2 & E & Hc2 & Hs).
    exists s, c2. split_and!; [done..|]. intros x.
    rewrite Hs, !elem_of_union, elem_of_intersection, elem_of_singleton, Hx. clear -Hpe. naive_solver.
  - destruct (IH acc cache Hc Hl') as (s & c2 & E & Hc2 & Hs). exists s, c2.
    split_and!; [done..|]. intros x. rewrite Hs. clear -Hpe. naive_solver.
Qed.

(** ** The five steps *)

Context (v : RoomVersion) (rank : string → nat).
Context (Hr : ∀ a b, a ∈ U → cites fetch a b → (rank b < rank a)%nat).
Context (Hsize : (size U ≤ fuel)%nat) (Hrank : ∀ x, x ∈ U → (rank x < fuel)%nat).

Lemma mainline_ok start :
  (∀ x, start = Some x → x ∈ U) →
  ∃ m, build_mainline fetch fuel start = Ok m ∧ is_mainline fetch start m.
Proof.
  intros Hs. destruct (mainline_loop_ok fetch U rank Hr fuel ∅ 0 start) as (m & E & Hm); [done| |].
  { destruct start as [x|]; simpl; [|lia]. by apply Hrank, Hs. }
  exists m. split; [exact E|]. intros x i. rewrite Hm, lookup_empty. split; [|intros (k & Hk & ->); left; by exists k].
  intros [(k & Hk & ->)|[[=] _]]. by exists k.
Qed.

Lemma rest_ok m rest :
  rest ⊆ U → ∃ l, mainline_order fetch fuel m (btree rest) = Ok l ∧ ordered_rest fetch m rest l.
Proof.
  intros Hrest. destruct (mainline_order_ok fetch U rank Hr m fuel (btree rest)) as (l & rows & E & HP & HF & HS).
  { intros x Hx%elem_of_btree. apply Hrest in Hx. split; [done|]. specialize (Hrank x Hx). lia. }
  exists l. split; [done|]. exists rows. split_and!; [|done..]. rewrite HP. apply merge_sort_Permutation.
Qed.

Lemma resolve_conflicts_ok sets unconflicted full create_id create cache x :
  within sets → chains_ok fetch cache →
  (∀ k x, unconflicted !! k = Some x ↔ agreed sets k x) → in_conflict sets x →
  full ⊆ U → (∀ x, x ∈ full ↔ in_full fetch v sets x) →
  find_create unconflicted sets = Some create_id → fetch create_id = Some create →
  ∃ r, resolve_conflicts fetch fuel v unconflicted full (creators v create) cache = Ok r ∧
       resolution fetch v sets r.
Proof.
  intros Hw Hc Ha Hx HfU Hf Hci Hcr. unfold resolve_conflicts.
  destruct (power_add_all full (btree full) ∅ cache Hc) as (power & c1 & -> & Hc1 & Hp).
  { intros y Hy%elem_of_btree. by apply HfU. }
  assert (Hpow : ∀ y, y ∈ power ↔ in_power fetch full y).
  { intros y. rewrite Hp. setoid_rewrite elem_of_btree. unfold in_power. set_solver. }
  assert (HpU : power ⊆ U) by (intros y [? _]%Hpow; by apply HfU).
  destruct (power_order_ok fetch U fuel chain Hchain v (creators v create) power HpU c1 Hc1 Hsize)
    as (sp & c2 & -> & _ & Hord).
  assert (Hun : ∀ k i, unconflicted !! k = Some i → i ∈ U).
  { intros k i [Hne Hall]%Ha. destruct sets as [|s l]; [done|].
    apply (Hw s k); [by left|]. apply Hall. by left. }
  assert (Hini : ∀ k i, initial_state v unconflicted !! k = Some i → i ∈ U).
  { intros k i. unfold initial_state. destruct (state_res v); [apply Hun|by rewrite lookup_empty]. }
  assert (Hsp : ∀ i, i ∈ sp → i ∈ U).
  { intros i Hi. apply HpU. rewrite (power_order_permutation _ _ _ _ Hord) in Hi. by apply elem_of_elements. }
  fold (initial_state v unconflicted).
  rewrite iterative_auth_checks_ok by eauto using known.
  set (partial := apply_events fetch v sp (initial_state v unconflicted)).
  assert (Hpa : ∀ k i, partial !! k = Some i → i ∈ U).
  { intros k i [Hi|Hi]%apply_events_lookup; [by apply Hsp|by eapply Hini]. }
  destruct (mainline_ok (partial !! pl_key)) as (m & -> & Hm); [by intros y; apply Hpa|].
  destruct (rest_ok m (full ∖ power)) as (sr & -> & Hrest); [set_solver|].
  assert (Hsr : ∀ i, i ∈ sr → i ∈ U).
  { intros i Hi. destruct Hrest as (rows & HP & _). rewrite HP in Hi.
    apply elem_of_elements in Hi. set_solver. }
  rewrite iterative_auth_checks_ok by eauto using known.
  eexists. split; [done|]. eapply resolution_conflict; try done.
  exists (deps_of chain power). split; [|done].
  intros y z Hy. unfold deps_of. rewrite elem_of_intersection.
  by rewrite (proj1 (Hchain y (HpU y Hy))).
Qed.
End Refine.

Lemma rank_bound (U : gset string) (rank : string → nat) : ∃ n, ∀ x, x ∈ U → (rank x < n)%nat.
Proof.
  induction U as [|x U Hx IH] using set_ind_L.
  - exists 0%nat. intros x Hx. by apply elem_of_empty in Hx.
  - destruct IH as [n Hn]. exists (S (rank x) + n)%nat. intros y [->%elem_of_singleton|Hy]%elem_of_union;
      [lia|]. specialize (Hn y Hy). lia.
Qed.

Lemma find_create_some (unconflicted : StateIds) (sets : list StateIds) (s : StateIds) create_id :
  s ∈ sets → s !! create_key = Some create_id → is_Some (find_create unconflicted sets).
Proof.
  intros Hs Hk. unfold find_create. destruct (unconflicted !! create_key); [by eexists|].
  assert (Hin : create_id ∈ omap (λ s : StateIds, s !! create_key) sets).
  { apply list_elem_of_omap. by exists s. }
  destruct (omap _ _); [by apply elem_of_nil in Hin|by eexists].
Qed.

Lemma find_create_in (unconflicted : StateIds) (sets : list StateIds) create_id :
  (∀ k x, unconflicted !! k = Some x ↔ agreed sets k x) →
  find_create unconflicted sets = Some create_id →
  ∃ s, s ∈ sets ∧ s !! create_key = Some create_id.
Proof.
  intros Ha. unfold find_create. destruct (unconflicted !! create_key) as [x|] eqn:E.
  - intros [= <-]. apply Ha in E as [Hne Hall]. destruct sets as [|s l]; [done|].
    exists s. split; [by left|]. apply Hall. by left.
  - intros H%head_Some_elem_of. by apply list_elem_of_omap in H.
Qed.

Section Resolve.
Context `{RU : Ruma} (fetch : string → option Event) (U : gset string) {G : auth_graph fetch U}.

(** A state names a create event. *)
Definition has_create (sets : list StateIds) : Prop :=
  ∃ (s : StateIds) create_id, s ∈ sets ∧ s !! create_key = Some create_id.

Lemma resolve_ok v :
  ∃ fuel0, ∀ fuel sets, (fuel0 ≤ fuel)%nat → within U sets → has_create sets →
    ∃ r, resolve fetch fuel v sets = Ok r ∧ resolution fetch v sets r.
Proof using G.
  destruct (graph_acyclic (fetch := fetch) (U := U)) as [rank Hr].
  destruct (graph_chains fetch U) as (w & chain & Hchain). destruct (rank_bound U rank) as [n Hn].
  exists (S (w + n + size U + size U + unseen_cost fetch U ∅)).
  intros fuel sets Hf Hw (s0 & c0 & Hs0 & Hc0).
  destruct (partition_ok sets) as [Hun Hco]. unfold resolve.
  destruct sets as [|s1 l]; [by apply elem_of_nil in Hs0|]. set (sets := s1 :: l) in *.
  destruct (partition sets) as [unconflicted conflicted]. cbn [fst snd] in Hun, Hco.
  case_bool_decide as Hempty.
  { exists unconflicted. split; [done|]. constructor; [done|]. intros x Hx%Hco. set_solver. }
  apply set_choose_L in Hempty as [x Hx]. apply Hco in Hx.
  assert (Hch : ∀ a, a ∈ U → (∀ x, x ∈ chain a ↔ ancestor fetch a x) ∧
    ∀ cache, chains_ok fetch cache →
      ∃ cache', auth_chain fetch fuel a cache = Ok (chain a, cache') ∧ chains_ok fetch cache').
  { intros a Ha. destruct (Hchain a Ha) as [H1 H2]. split; [done|].
    intros cache. apply H2. lia. }
  destruct (set_chain_all fetch U fuel chain Hch sets [] ∅) as (chains & cache & -> & Hc & HF); [done..|].
  pose proof (difference_ok fetch sets chains HF) as Hdiff. cbn [app].
  assert (HcU : conflicted ⊆ U).
  { intros y (s & k & Hs & Hk & _)%Hco. by eapply Hw. }
  assert (Hsub : ∃ sub, (match state_res v with ResV2_1 => conflicted_subgraph fetch fuel conflicted
                         | ResV2 => Ok ∅ end) = Ok sub ∧
    ∀ y, y ∈ sub ↔ state_res v = ResV2_1 ∧ between_conflicts fetch sets y).
  { destruct (state_res v).
    - exists ∅. split; [done|]. intros y. rewrite elem_of_empty. naive_solver.
    - destruct (conflicted_subgraph_ok fetch U conflicted HcU fuel) as (sub & -> & Hsub).
      { unfold subgraph_fuel. pose proof (subseteq_size _ _ HcU) as Hsz.
        change (length (elements conflicted)) with (size conflicted). lia. }
      exists sub. split; [done|]. intros y. rewrite Hsub. unfold from_conflicted, to_conflicted,
        between_conflicts. setoid_rewrite Hco. naive_solver. }
  destruct Hsub as (sub & -> & Hsub).
  set (full := conflicted ∪ difference_of chains ∪ sub).
  assert (Hfull : ∀ y, y ∈ full ↔ in_full fetch v sets y).
  { intros y. unfold full, in_full. rewrite !elem_of_union, Hco, Hdiff, Hsub. tauto. }
  assert (HfU : full ⊆ U).
  { intros y [Hy|[[(s & Hs & k & id & Hk & Hy) _]|[_ [(c & Hcc & Hy) _]]]]%Hfull.
    - apply HcU. by apply Hco.
    - eapply ancestor_closed; [done|by eapply Hw|done].
    - assert (c ∈ U) by (apply HcU; by apply Hco). destruct Hy as [->|Hy]; [done|].
      by eapply ancestor_closed. }
  destruct (find_create_some unconflicted sets s0 c0 Hs0 Hc0) as [cid Hcid]. rewrite Hcid. cbn [ok_or].
  destruct (find_create_in unconflicted sets cid Hun Hcid) as (sc & Hsc & Hkc).
  destruct (graph_known cid) as (create & Hcr & _); [by eapply Hw|].
  unfold fetched. rewrite Hcr. cbn [ok_or].
  eapply (resolve_conflicts_ok fetch U fuel chain Hch v rank Hr); try done; [lia|].
  intros y Hy. specialize (Hn y Hy). lia.
Qed.
End Resolve.
