(* ===== verification/ResolveSpec.v ===== *)
(** * Properties of state resolution *)

From Stdlib Require Import Ascii.
From S2P Require Import Prelude Json CoreEvent PowerLevels Auth AuthDemo Order StateRes.
From S2P Require Import ResGraph ResOrder ResMainline ResRefine.
From stdpp Require Import options.

(** ** A room whose events form an auth graph

    A store that only ever receives events citing what it holds is an
    [auth_graph]; a concrete forked room for the witnesses. *)

(** A store of events by id. *)
Definition fetch_in (m : gmap string Event) (id : string) : option Event := m !! id.

Definition add_event (m : gmap string Event) (e : Event) : gmap string Event := <[event_id e := e]> m.

(** New, and citing stored events only. *)
Definition cites_stored (m : gmap string Event) (e : Event) : bool :=
  bool_decide (m !! event_id e = None) && forallb (λ a, bool_decide (is_Some (m !! a))) (auth_events e).

Lemma empty_graph : auth_graph (fetch_in ∅) ∅.
Proof.
  split; [set_solver..|]. exists (λ _, 0%nat). set_solver.
Qed.

Lemma add_event_graph m e :
  auth_graph (fetch_in m) (dom m) → cites_stored m e = true →
  auth_graph (fetch_in (add_event m e)) (dom (add_event m e)).
Proof.
  intros [Hk Hc [rank Hr]] [Hnew Hcit]%andb_true_iff. apply bool_decide_eq_true in Hnew.
  rewrite forallb_forall in Hcit.
  assert (Hin : ∀ b, b ∈ auth_events e → b ∈ dom m).
  { intros b Hb. apply elem_of_dom. eapply bool_decide_eq_true, Hcit. by apply list_elem_of_In. }
  assert (Hcites : ∀ a b, cites (fetch_in (add_event m e)) a b →
    (a = event_id e ∧ b ∈ dom m) ∨ (a ≠ event_id e ∧ cites (fetch_in m) a b)).
  { intros a b (x & Hx & Hb). unfold fetch_in, add_event in Hx. destruct (decide (a = event_id e)) as [->|Hne].
    - rewrite lookup_insert_eq in Hx. simplify_eq. left. split; [done|by apply Hin].
    - rewrite lookup_insert_ne in Hx by done. right. split; [done|by exists x]. }
  assert (Hold : ∀ a, a ∈ dom (add_event m e) → a ≠ event_id e → a ∈ dom m).
  { intros a. unfold add_event. rewrite dom_insert_L. set_solver. }
  split.
  - intros a Ha. destruct (decide (a = event_id e)) as [->|Hne].
    + exists e. unfold fetch_in, add_event. by rewrite lookup_insert_eq.
    + destruct (Hk a (Hold a Ha Hne)) as (x & ? & ?). exists x. unfold fetch_in, add_event.
      by rewrite lookup_insert_ne.
  - intros a b Ha Hab. unfold add_event. rewrite dom_insert_L. apply elem_of_union. right.
    apply Hcites in Hab as [[_ ?]|[Hne Hab]]; [done|]. eapply Hc; [by apply Hold|done].
  - destruct (rank_bound (dom m) rank) as [n Hn].
    exists (λ x, if decide (x = event_id e) then n else rank x). intros a b Ha Hab.
    assert (Hb : b ∈ dom m).
    { destruct (Hcites a b Hab) as [[_ ?]|[Hne ?]]; [done|]. eapply Hc; [by apply Hold|done]. }
    assert (b ≠ event_id e) by (intros ->; by apply elem_of_dom in Hb as [? ?]; congruence).
    rewrite (decide_False (P := b = event_id e)) by done. case_decide; [by apply Hn|].
    destruct (Hcites a b Hab) as [[? _]|[Hne Hab']]; [done|]. apply Hr; [by apply Hold|done].
Qed.

Definition store_events (es : list Event) : gmap string Event := foldl add_event ∅ es.

Fixpoint all_cite_stored (m : gmap string Event) (es : list Event) : bool :=
  match es with [] => true | e :: es => cites_stored m e && all_cite_stored (add_event m e) es end.

Lemma store_events_graph es :
  all_cite_stored ∅ es = true →
  auth_graph (fetch_in (store_events es)) (dom (store_events es)).
Proof.
  unfold store_events. intros H.
  assert (G : auth_graph (fetch_in ∅) (dom (∅ : gmap string Event))).
  { rewrite dom_empty_L. apply empty_graph. }
  revert H G. generalize (∅ : gmap string Event). induction es as [|e es IH]; intros m H G; simpl in *; [done|].
  apply andb_true_iff in H as [He Hes]. apply IH; [done|]. by apply add_event_graph.
Qed.

(** ** A fork: Alice bans Bob while Bob sets the topic *)

Definition room_event (id sender type key : string) (ts : N) (c : json_object) (auth : list string) : Event :=
  {| event_id := id; room_id := Some "!r"%string; sender := sender; event_type := type;
     state_key := Some key; content := c; origin_server_ts := ts; auth_events := auth; prev_events := [] |}.

Definition membership_content (m : string) : json_object := [("membership"%string, JString m)].

Definition fork_events : list Event :=
  [room_event "$create" alice "m.room.create" "" 1 [("room_version"%string, JString "11")] [];
   {| event_id := "$alice"; room_id := Some "!r"%string; sender := alice; event_type := "m.room.member";
      state_key := Some alice; content := membership_content "join"; origin_server_ts := 2;
      auth_events := ["$create"%string]; prev_events := ["$create"%string] |};
   room_event "$levels" alice "m.room.power_levels" "" 3
     [("users"%string, JObject [(alice, JInteger 100); (bob, JInteger 50)])] ["$create"; "$alice"]%string;
   room_event "$rules" alice "m.room.join_rules" "" 4 [("join_rule"%string, JString "public")]
     ["$create"; "$alice"; "$levels"]%string;
   room_event "$bob" bob "m.room.member" bob 5 (membership_content "join")
     ["$create"; "$levels"; "$rules"]%string;
   room_event "$ban" alice "m.room.member" bob 6 (membership_content "ban")
     ["$create"; "$levels"; "$alice"; "$bob"]%string;
   room_event "$topic1" alice "m.room.topic" "" 7 [("topic"%string, JString "one")]
     ["$create"; "$levels"; "$alice"]%string;
   room_event "$topic2" bob "m.room.topic" "" 8 [("topic"%string, JString "two")]
     ["$create"; "$levels"; "$bob"]%string].

Definition fork_fetch : string → option Event := fetch_in (store_events fork_events).

Definition fork_known : gset string := dom (store_events fork_events).

#[export] Instance fork_graph : auth_graph fork_fetch fork_known.
Proof. apply store_events_graph. vm_compute. reflexivity. Defined.

Definition fork_base : StateIds := list_to_map
  [(create_key, "$create"); (("m.room.member"%string, alice), "$alice"); (pl_key, "$levels");
   (("m.room.join_rules"%string, EmptyString), "$rules")]%string.

Definition topic_key : Key := ("m.room.topic"%string, EmptyString).
Definition bob_key : Key := ("m.room.member"%string, bob).

(** The branch with the ban, and the one with Bob's topic. *)
Definition fork_states : list StateIds :=
  [<[bob_key := "$ban"%string]> (<[topic_key := "$topic1"%string]> fork_base);
   <[bob_key := "$bob"%string]> (<[topic_key := "$topic2"%string]> fork_base)].

Definition fork_resolved : StateIds :=
  <[bob_key := "$ban"%string]> (<[topic_key := "$topic1"%string]> fork_base).

(** The ban wins, and Bob's topic does not survive it. *)
Example fork_sample :
  match resolve fork_fetch 64 V11 fork_states with
  | Ok r => bool_decide (r = fork_resolved)
  | Err _ => false
  end = true.
Proof. vm_compute. reflexivity. Qed.

Lemma fork_within : within fork_known fork_states.
Proof.
  intros s k x Hs Hk. apply elem_of_dom.
  assert (H : Forall (λ s : StateIds, map_Forall (λ _ x, is_Some (store_events fork_events !! x)) s) fork_states).
  { apply (bool_decide_unpack _). vm_compute. exact I. }
  rewrite list.Forall_forall in H. exact (H s Hs k x Hk).
Qed.

(** ** The properties *)

(** C20 (resolution refines its specification): on events that form a finite
    acyclic graph closed under auth events, [resolve] returns a state, with
    fuel that depends on the graph alone: no loop diverges, no event is
    missing. What it returns is the one resolution of the states: the full
    conflicted set by ancestors, its power events ordered by sender power with
    ancestors first, the auth checks over them, the rest in mainline order, and
    the agreed state on top. *)
Theorem resolve_refines `{RU : Ruma} fetch U `{!auth_graph fetch U} v :
  ∃ fuel0, ∀ fuel sets, (fuel0 ≤ fuel)%nat → within U sets → has_create sets →
    ∃ r, resolve fetch fuel v sets = Ok r ∧ resolution fetch v sets r ∧
         ∀ r', resolution fetch v sets r' → r' = r.
Proof.
  destruct (resolve_ok fetch U v) as [fuel0 H]. exists fuel0. intros fuel sets Hf Hw Hc.
  destruct (H fuel sets Hf Hw Hc) as (r & E & Hr). exists r. split_and!; [done..|].
  intros r' Hr'. by eapply resolution_unique.
Qed.

Lemma fork_has_create : has_create fork_states.
Proof.
  eexists _, "$create"%string. split; [left; reflexivity|]. vm_compute. reflexivity.
Qed.

Lemma resolve_refines_witness :
  ∃ fuel r, resolve fork_fetch fuel V11 fork_states = Ok r ∧ resolution fork_fetch V11 fork_states r.
Proof.
  destruct (resolve_refines fork_fetch fork_known V11) as [fuel0 H].
  destruct (H fuel0 fork_states (le_n _) fork_within fork_has_create) as (r & E & Hr & _).
  exists fuel0, r. exact (conj E Hr).
Defined.

(** C21 (order independence): servers that resolve the same states agree, in
    whatever order each of them holds the forward extremities, as long as the
    states share one create event. *)
Theorem resolve_order_independent `{RU : Ruma} fetch U `{!auth_graph fetch U} v :
  ∃ fuel0, ∀ fuel fuel' sets sets' create_id,
    (fuel0 ≤ fuel)%nat → (fuel0 ≤ fuel')%nat → within U sets → agreed sets create_key create_id →
    sets ≡ₚ sets' → resolve fetch fuel v sets = resolve fetch fuel' v sets'.
Proof.
  destruct (resolve_ok fetch U v) as [fuel0 H]. exists fuel0.
  intros fuel fuel' sets sets' cid Hf Hf' Hw Hag HP.
  assert (Hc : ∀ l, l ≡ₚ sets → has_create l).
  { intros l Hl. destruct Hag as [Hne Hall]. destruct sets as [|s0 l0]; [done|].
    exists s0, cid. rewrite Hl. split; [by left|]. apply Hall. by left. }
  destruct (H fuel sets Hf Hw) as (r & -> & Hr); [by apply Hc|].
  destruct (H fuel' sets' Hf') as (r' & -> & Hr').
  { intros s k x. rewrite <- HP. apply Hw. }
  { by apply Hc. }
  f_equal. eapply resolution_unique; [|exact Hr']. by eapply resolution_perm.
Qed.

Lemma resolve_order_independent_witness :
  ∃ fuel, resolve fork_fetch fuel V11 fork_states = resolve fork_fetch fuel V11 (rev fork_states).
Proof.
  destruct (resolve_order_independent fork_fetch fork_known V11) as [fuel0 H]. exists fuel0.
  apply (H fuel0 fuel0 fork_states (rev fork_states) "$create"%string); [reflexivity|reflexivity| | |].
  - exact fork_within.
  - split; [discriminate|]. intros s Hs.
    apply elem_of_cons in Hs as [->|Hs]; [vm_compute; reflexivity|].
    apply list_elem_of_singleton in Hs as ->. vm_compute. reflexivity.
  - apply Permutation_rev.
Defined.

(** The agreed state always survives; every other
    entry of the result is an event of the full conflicted set, so resolution
    never invents one; and states that do not conflict resolve to what they
    agree on. *)
Theorem resolve_provenance `{RU : Ruma} fetch U `{!auth_graph fetch U} v :
  ∃ fuel0, ∀ fuel sets, (fuel0 ≤ fuel)%nat → within U sets → has_create sets →
    ∃ r, resolve fetch fuel v sets = Ok r ∧
      (∀ k x, agreed sets k x → r !! k = Some x) ∧
      (∀ k x, r !! k = Some x → agreed sets k x ∨ in_full fetch v sets x) ∧
      ((∀ x, ¬ in_conflict sets x) → ∀ k x, r !! k = Some x ↔ agreed sets k x).
Proof.
  destruct (resolve_ok fetch U v) as [fuel0 H]. exists fuel0. intros fuel sets Hf Hw Hc.
  destruct (H fuel sets Hf Hw Hc) as (r & -> & Hr). exists r. split; [done|].
  destruct Hr as [r Ha Hn|un fu po ci cr sp ml sr x Ha Hx Hfu Hp _ _ Hsp partial _ Hsr].
  - split_and!; [intros k x Hx; by apply Ha|intros k x Hx; left; by apply Ha|done].
  - split_and!; [| |by intros Hn; apply Hn in Hx].
    + intros k y Hy. apply lookup_union_Some_raw. left. by apply Ha.
    + intros k y [Hy|[Hnone Hy]]%lookup_union_Some_raw; [left; by apply Ha|right].
      apply apply_events_lookup in Hy as [Hy|Hy].
      * destruct Hsr as (rows & HP & _). rewrite HP in Hy. apply elem_of_elements in Hy.
        apply Hfu. set_solver.
      * apply apply_events_lookup in Hy as [Hy|Hy].
        -- destruct Hsp as (deps & _ & Hord). rewrite (power_order_permutation _ _ _ _ Hord) in Hy.
           apply elem_of_elements, Hp in Hy as [Hy _]. by apply Hfu.
        -- unfold initial_state in Hy. destruct (state_res v); [congruence|].
           by rewrite lookup_empty in Hy.
Qed.

Lemma resolve_provenance_witness :
  ∃ fuel r, resolve fork_fetch fuel V11 fork_states = Ok r ∧
            r !! pl_key = Some "$levels"%string.
Proof.
  destruct (resolve_provenance fork_fetch fork_known V11) as [fuel0 H].
  destruct (H fuel0 fork_states (le_n _) fork_within fork_has_create) as (r & E & Hr & _).
  exists fuel0, r. split; [exact E|]. apply Hr. split; [discriminate|]. intros s Hs.
  apply elem_of_cons in Hs as [->|Hs]; [vm_compute; reflexivity|].
  apply list_elem_of_singleton in Hs as ->. vm_compute. reflexivity.
Defined.

(** The iterative walk ends with fuel that depends on the
    event alone, and whatever was cached before, by earlier calls, returns
    exactly the event's ancestors, leaving a cache that is still right. *)
Theorem auth_chain_exact `{RU : Ruma} fetch U `{!auth_graph fetch U} a :
  a ∈ U →
  ∃ fuel0 chain, (∀ x, x ∈ chain ↔ ancestor fetch a x) ∧
    ∀ fuel cache, (fuel0 ≤ fuel)%nat → chains_ok fetch cache →
      ∃ cache', auth_chain fetch fuel a cache = Ok (chain, cache') ∧ chains_ok fetch cache'.
Proof. intros Ha. by apply (chain_of fetch U). Qed.

Lemma auth_chain_exact_witness :
  ∃ fuel chain cache', auth_chain fork_fetch fuel "$ban" ∅ = Ok (chain, cache') ∧
    ∀ x, x ∈ chain ↔ ancestor fork_fetch "$ban" x.
Proof.
  destruct (auth_chain_exact fork_fetch fork_known "$ban") as (fuel0 & chain & Hch & H).
  { apply elem_of_dom. vm_compute. eexists. reflexivity. }
  destruct (H fuel0 ∅ (le_n _)) as (cache' & E & _); [intros a s Hs; discriminate Hs|].
  exists fuel0, chain, cache'. exact (conj E Hch).
Defined.

(** The events that version 2.1 adds are exactly
    those on a path of auth events between two conflicted events, ends
    included; both loops end. *)
Theorem conflicted_subgraph_paths fetch U `{!auth_graph fetch U} conflicted fuel :
  conflicted ⊆ U → (subgraph_fuel fetch U conflicted ≤ fuel)%nat →
  ∃ s, conflicted_subgraph fetch fuel conflicted = Ok s ∧
    ∀ x, x ∈ s ↔ (∃ c, c ∈ conflicted ∧ (x = c ∨ ancestor fetch c x)) ∧
                 (∃ d, d ∈ conflicted ∧ (x = d ∨ ancestor fetch x d)).
Proof. intros Hc Hf. by apply (conflicted_subgraph_ok fetch U conflicted Hc fuel). Qed.

Lemma conflicted_subgraph_paths_witness :
  ∃ s, conflicted_subgraph fork_fetch (subgraph_fuel fork_fetch fork_known {["$ban"; "$create"]}%string)
         {["$ban"; "$create"]}%string = Ok s ∧
    ∀ x, x ∈ s ↔ (∃ c, c ∈ ({["$ban"; "$create"]}%string : gset string) ∧ (x = c ∨ ancestor fork_fetch c x)) ∧
      (∃ d, d ∈ ({["$ban"; "$create"]}%string : gset string) ∧ (x = d ∨ ancestor fork_fetch x d)).
Proof.
  apply (conflicted_subgraph_paths fork_fetch fork_known {["$ban"; "$create"]}%string); [|reflexivity].
  intros x [->%elem_of_singleton| ->%elem_of_singleton]%elem_of_union;
    apply elem_of_dom; vm_compute; eexists; reflexivity.
Defined.

(** Kahn's algorithm with its counters and ready queue
    outputs each event of the set once, every event after its ancestors in the
    set, and at each step the least of those that are ready, by sender power,
    timestamp and id; no other list has these properties. *)
Theorem power_ordering `{RU : Ruma} fetch U `{!auth_graph fetch U} v creators events :
  events ⊆ U →
  ∃ fuel0, ∀ fuel cache, (fuel0 ≤ fuel)%nat → chains_ok fetch cache →
    ∃ l cache',
      reverse_topological_power_order fetch fuel v events creators cache = Ok (l, cache') ∧
      l ≡ₚ elements events ∧ ordered_power fetch v creators events l ∧
      (∀ l', ordered_power fetch v creators events l' → l' = l) ∧
      ∀ i j x y, l !! i = Some x → l !! j = Some y → ancestor fetch y x → (i < j)%nat.
Proof.
  intros Hev. destruct (graph_chains fetch U) as (w & chain & Hchain).
  exists (w + size U)%nat.
  intros fuel cache Hf Hc.
  destruct (power_order_ok fetch U fuel chain) with (v := v) (creators := creators)
    (events := events) (cache := cache) as (l & cache' & E & _ & Hl); [|done|done|lia|].
  { intros a Ha. destruct (Hchain a Ha) as [? H]. split; [done|]. intros c. apply H. lia. }
  assert (Hord : ordered_power fetch v creators events l).
  { exists (deps_of chain events). split; [|done]. intros x y Hx. unfold deps_of.
    by rewrite elem_of_intersection, (proj1 (Hchain x (Hev x Hx))). }
  exists l, cache'. pose proof (power_order_permutation _ _ _ _ Hl) as HP. split_and!; [done..| |].
  - intros l' Hl'. by eapply ordered_power_unique.
  - intros i j x y Hi Hj Ha.
    assert (Hin : ∀ n z, l !! n = Some z → z ∈ events).
    { intros n z Hz. apply list_elem_of_lookup_2 in Hz. rewrite HP in Hz. by apply elem_of_elements in Hz. }
    destruct (power_order_ancestors _ _ _ _ i j x y Hl Hi Hj) as [?| ->]; [|done|].
    + apply elem_of_intersection. split; [|by eapply Hin]. apply Hchain; [|done]. by eapply Hev, Hin.
    + exfalso. eapply (no_cycle fetch U); [|done]. by eapply Hev, Hin.
Qed.

Lemma power_ordering_witness :
  ∃ fuel l cache', reverse_topological_power_order fork_fetch fuel V11 fork_known {[alice]} ∅ = Ok (l, cache')
    ∧ l ≡ₚ elements fork_known.
Proof.
  destruct (power_ordering fork_fetch fork_known V11 {[alice]} fork_known) as (fuel0 & H); [reflexivity|].
  destruct (H fuel0 ∅ (le_n _)) as (l & cache' & E & HP & _); [intros a s Hs; discriminate Hs|].
  exists fuel0, l, cache'. exact (conj E HP).
Defined.

(** Whatever the memo table of positions does, the
    events come out in one order: by the position of the first mainline event
    on their walk of power-levels events, farthest first, then by timestamp and
    id. *)
Theorem mainline_ordering fetch U `{!auth_graph fetch U} m rest :
  rest ⊆ U →
  ∃ fuel0, ∀ fuel, (fuel0 ≤ fuel)%nat →
    ∃ l, mainline_order fetch fuel m (btree rest) = Ok l ∧ ordered_rest fetch m rest l ∧
         ∀ l', ordered_rest fetch m rest l' → l' = l.
Proof.
  intros Hrest. destruct (graph_acyclic (fetch := fetch) (U := U)) as [rank Hr].
  destruct (rank_bound U rank) as [n Hn]. exists n. intros fuel Hf.
  destruct (mainline_order_ok fetch U rank Hr m fuel (btree rest)) as (l & rows & E & HP & HF & HS).
  { intros x Hx%elem_of_btree. apply Hrest in Hx. split; [done|]. specialize (Hn x Hx). lia. }
  assert (Hl : ordered_rest fetch m rest l).
  { exists rows. split_and!; [|done..]. rewrite HP. apply merge_sort_Permutation. }
  exists l. split_and!; [done..|]. intros l' Hl'. by eapply ordered_rest_unique.
Qed.

Lemma mainline_ordering_witness :
  ∃ fuel l, mainline_order fork_fetch fuel {["$levels"%string := 0%N]} (btree {["$topic1"; "$topic2"]}%string)
    = Ok l ∧ ordered_rest fork_fetch {["$levels"%string := 0%N]} {["$topic1"; "$topic2"]}%string l.
Proof.
  destruct (mainline_ordering fork_fetch fork_known {["$levels"%string := 0%N]}
    {["$topic1"; "$topic2"]}%string) as [fuel0 H].
  { intros x [->%elem_of_singleton| ->%elem_of_singleton]%elem_of_union;
      apply elem_of_dom; vm_compute; eexists; reflexivity. }
  destruct (H fuel0 (le_n _)) as (l & E & Hl & _). exists fuel0, l. exact (conj E Hl).
Defined.
