(* ===== verification/Pdu.v ===== *)
(** * PDUs: typed view, identity and validation

    saltator-core/src/event.rs ([Pdu], [event_id]) and validation.rs.  The
    typed view is what serde's derived deserialiser makes of a canonical
    object; hashing, signatures, redaction and the text form of canonical JSON
    are ruma's and serde_json's (class [EventCrypto]). *)

From Stdlib Require Import Ascii.
From S2P Require Import Prelude Json CoreEvent.
From stdpp Require Import options.

Local Open Scope N_scope.

(** Public keys by entity and key id. *)
Abbreviation PublicKeyMap := (gmap string (gmap string string)) (only parsing).

Class EventCrypto := {
  room_id_ok : string → bool;
  (** [serde_json::to_string] of a canonical object *)
  json_text : json_object → option bytes;
  (** [ruma::signatures::reference_hash] *)
  reference_hash : RoomVersion → json_object → option string;
  (** [ruma::signatures::verify_event]: [Verified::All], [Verified::Signatures]
      or an error *)
  verify_all : PublicKeyMap → RoomVersion → json_object → option bool;
  (** [ruma::canonical_json::redact] *)
  redact_object : RoomVersion → json_object → option json_object;
}.

Record Pdu : Type := {
  pdu_room_id : option string;
  pdu_sender : string;
  pdu_origin_server_ts : N;
  pdu_type : string;
  pdu_state_key : option string;
  pdu_content : json_object;
  pdu_auth_events : list string;
  pdu_prev_events : list string;
  pdu_depth : N;
  pdu_hashes : option string;
  pdu_signatures : json_object;
  pdu_unsigned : option json_object;
}.

Record IdentifiedPdu : Type := { ip_event_id : string; ip_pdu : Pdu }.

(** [impl Event for IdentifiedPdu] *)
Definition as_event (e : IdentifiedPdu) : Event :=
  let p := ip_pdu e in
  {| event_id := ip_event_id e; room_id := pdu_room_id p; sender := pdu_sender p;
     event_type := pdu_type p; state_key := pdu_state_key p; content := pdu_content p;
     origin_server_ts := pdu_origin_server_ts p; auth_events := pdu_auth_events p;
     prev_events := pdu_prev_events p |}.

(** ** Deserialising *)

Definition as_obj (v : json) : option json_object :=
  match v with JObject o => Some o | _ => None end.

(** ruma's [UInt]: an integer of at most 53 bits. *)
Definition as_uint (v : json) : option N :=
  match v with
  | JInteger z => if bool_decide (0 ≤ z < 2 ^ 53)%Z then Some (Z.to_N z) else None
  | _ => None
  end.

(** An identifier type: a string of its grammar. *)
Definition as_id (ok : string → bool) (v : json) : option string :=
  s ← as_str v; if ok s then Some s else None.

Definition as_list {A} (f : json → option A) (v : json) : option (list A) :=
  match v with JArray l => mapM f l | _ => None end.

(** A required property. *)
Definition required {A} (key : string) (f : json → option A) (o : json_object) : option A :=
  v ← obj_get key o; f v.

(** An [Option] property with [#[serde(default)]]: absent and null are [None]. *)
Definition optional {A} (key : string) (f : json → option A) (o : json_object) :
    option (option A) :=
  match obj_get key o with
  | None | Some JNull => Some None
  | Some v => a ← f v; Some (Some a)
  end.

(** [EventHashes]: an object, whose other properties are ignored, or an array
    of the fields. *)
Definition as_hashes (v : json) : option string :=
  match v with
  | JArray [s] => as_str s
  | _ => o ← as_obj v; required "sha256" as_str o
  end.

Section Ruma.
Context `{RU : Ruma, EC : EventCrypto}.

(** [Pdu::from_canonical] *)
Definition pdu_from_canonical (raw : json_object) : option Pdu :=
  rid ← optional "room_id" (as_id room_id_ok) raw;
  snd ← required "sender" (as_id user_id_ok) raw;
  ts ← required "origin_server_ts" as_uint raw;
  ty ← required "type" as_str raw;
  key ← optional "state_key" as_str raw;
  c ← required "content" as_obj raw;
  auth ← required "auth_events" (as_list (as_id event_id_ok)) raw;
  prev ← required "prev_events" (as_list (as_id event_id_ok)) raw;
  d ← required "depth" as_uint raw;
  h ← optional "hashes" as_hashes raw;
  sigs ← match obj_get "signatures" raw with Some v => as_obj v | None => Some [] end;
  uns ← optional "unsigned" as_obj raw;
  Some {| pdu_room_id := rid; pdu_sender := snd; pdu_origin_server_ts := ts; pdu_type := ty;
          pdu_state_key := key; pdu_content := c; pdu_auth_events := auth;
          pdu_prev_events := prev; pdu_depth := d; pdu_hashes := h; pdu_signatures := sigs;
          pdu_unsigned := uns |}.

(** [event::event_id] *)
Definition reference_event_id (raw : json_object) (v : RoomVersion) : option string :=
  h ← reference_hash v raw;
  let id := "$" +:+ h in if event_id_ok id then Some id else None.

(** [event::room_id_for_create] *)
Definition room_id_for_create (raw : json_object) (v : RoomVersion) : option string :=
  h ← reference_hash v raw;
  let id := "!" +:+ h in if room_id_ok id then Some id else None.

(** ** [validation.rs] *)

Definition MAX_PDU_BYTES : N := 65536.
Definition MAX_TYPE_BYTES : N := 255.
Definition MAX_STATE_KEY_BYTES : N := 255.
Definition MAX_AUTH_EVENTS : N := 10.
Definition MAX_PREV_EVENTS : N := 20.

Inductive ValidationError : Type :=
  | TooLarge (n : N)
  | MalformedPdu
  | FieldTooLong (field : string) (limit : N)
  | TooManyRefs (field : string) (count limit : N)
  | MissingField (field : string)
  | CreateWithRoomId.

Definition byte_len (s : string) : N := N.of_nat (String.length s).
Definition count {A} (l : list A) : N := N.of_nat (length l).

Definition field_len (v : RoomVersion) (s : string) : N :=
  if strict_byte_limits v then byte_len s else count (chars s).

Definition is_create_pdu (p : Pdu) : bool :=
  bool_decide (pdu_type p = "m.room.create"%string)
  && bool_decide (pdu_state_key p = Some EmptyString).

(** [if cond { return Err(e) }] *)
Definition refuse_if {E} (cond : bool) (e : E) : result E () := if cond then Err e else Ok ().

Definition validate_pdu (raw : json_object) (v : RoomVersion) : result ValidationError Pdu :=
  let? text := ok_or (json_text raw) MalformedPdu in
  let? _ := refuse_if (MAX_PDU_BYTES <? byte_len text) (TooLarge (byte_len text)) in
  let? pdu := ok_or (pdu_from_canonical raw) MalformedPdu in
  let? _ := refuse_if (MAX_TYPE_BYTES <? field_len v (pdu_type pdu))
              (FieldTooLong "type" MAX_TYPE_BYTES) in
  let? _ := refuse_if
              match pdu_state_key pdu with
              | Some sk => MAX_STATE_KEY_BYTES <? field_len v sk
              | None => false
              end (FieldTooLong "state_key" MAX_STATE_KEY_BYTES) in
  let? _ := refuse_if (MAX_AUTH_EVENTS <? count (pdu_auth_events pdu))
              (TooManyRefs "auth_events" (count (pdu_auth_events pdu)) MAX_AUTH_EVENTS) in
  let? _ := refuse_if (MAX_PREV_EVENTS <? count (pdu_prev_events pdu))
              (TooManyRefs "prev_events" (count (pdu_prev_events pdu)) MAX_PREV_EVENTS) in
  let? _ := refuse_if (negb (is_some (pdu_hashes pdu))) (MissingField "hashes") in
  let? _ := refuse_if (bool_decide (pdu_signatures pdu = [])) (MissingField "signatures") in
  let? _ := if room_id_is_create_event_id v && is_create_pdu pdu
            then refuse_if (is_some (pdu_room_id pdu)) CreateWithRoomId
            else refuse_if (negb (is_some (pdu_room_id pdu))) (MissingField "room_id") in
  Ok pdu.

Inductive VerifyOutcome : Type := Verified | SignedButHashMismatch.

Inductive VerificationError : Type := VerificationFailed.

Definition verify_event (raw : json_object) (v : RoomVersion) (keys : PublicKeyMap) :
    result VerificationError VerifyOutcome :=
  match verify_all keys v raw with
  | Some true => Ok Verified
  | Some false => Ok SignedButHashMismatch
  | None => Err VerificationFailed
  end.

Definition redact (raw : json_object) (v : RoomVersion) : result VerificationError json_object :=
  ok_or (redact_object v raw) VerificationFailed.
End Ruma.
