(* ===== verification/Pipeline.v ===== *)
(** * The event pipeline (saltator-roomserver/src/lib.rs, [RoomServer])

    From a raw event to the command that is proposed to the room shard:
    validation, the auth events and the state before the event, the rules
    against both, the new state groups and forward extremities.  The room lock
    makes one event of a room at a time; the shard may hold other rooms. *)

From Stdlib Require Import Ascii.
From S2P Require Import Prelude Bytes Store Codec Json Shard RoomTypes RoomMachine RoomRead.
From S2P Require Import CoreEvent PowerLevels Auth Order StateRes Pdu.
From stdpp Require Import options.

Local Open Scope N_scope.

Inductive RestrictedDenial : Type := Forbidden | CannotValidate | CannotGrant.

Inductive RoomError : Type :=
  | UnknownRoom (room_id : string)
  | MissingEvents (ids : list string)
  | MissingAuthEvents (ids : list string)
  | Validation (e : ValidationError)
  | Verification (e : VerificationError)
  | Format
  | Version
  | StateResolution (e : StateResError)
  | Sign
  | Malformed
  | CannotAuthoriseJoin (d : RestrictedDenial)
  | ShardFailed
  | Storage (e : store_error)
  | CodecFailed.

Inductive Outcome : Type :=
  | Accepted (event_id : string) (seq : N)
  | RejectedEvent (event_id : string) (why : string)
  | Duplicate (event_id : string).

Definition outcome_event_id (o : Outcome) : string :=
  match o with Accepted i _ | RejectedEvent i _ | Duplicate i => i end.

(** What a call into the pipeline comes to: nothing to do, or a command. *)
Inductive Decision : Type :=
  | Known (event_id : string)
  | Propose (cmd : AppendEvent) (txn : option TxnStamp).

Definition map_err {A E F} (f : E → F) (r : result E A) : result F A :=
  match r with Ok a => Ok a | Err e => Err (f e) end.

Definition storage_err {A} (r : result store_error A) : result RoomError A := map_err Storage r.

(** [CanonicalJsonValue::try_from]: integers of at most 53 bits, no floats. *)
Fixpoint canonical {num} (i64 : num → option Z) (v : jvalue num) : option json :=
  match v with
  | VNull => Some JNull
  | VBool b => Some (JBool b)
  | VNum n => z ← i64 n; if bool_decide (Z.abs z < 2 ^ 53)%Z then Some (JInteger z) else None
  | VStr s => Some (JString s)
  | VArr l =>
      JArray <$> (fix go (l : list (jvalue num)) :=
        match l with
        | [] => Some []
        | v :: l => v ← canonical i64 v; l ← go l; Some (v :: l)
        end) l
  | VObj o =>
      JObject <$> (fix go (o : list (string * jvalue num)) :=
        match o with
        | [] => Some []
        | (k, v) :: o => v ← canonical i64 v; o ← go o; Some ((k, v) :: o)
        end) o
  end.

Section Pipeline.
Context `{RC : RoomCodecs, JT : JsonText, SJ : SerdeJson, RU : Ruma, EC : EventCrypto}.

Definition canonicalize (v : jvalue jnum) : result RoomError json_object :=
  match canonical jnum_i64 v with Some (JObject o) => Ok o | _ => Err Malformed end.

Definition raw_bytes (raw : json_object) : result RoomError bytes := ok_or (json_text raw) CodecFailed.

Definition str_of (obj : json_object) (key : string) : result RoomError string :=
  match obj_get key obj with Some (JString s) => Ok s | _ => Err Malformed end.

Definition room_id_of (raw : json_object) : result RoomError string :=
  let? s := str_of raw "room_id" in
  if room_id_ok s then Ok s else Err Malformed.

Definition parse_stored (event_id : string) (stored : StoredEvent) : result RoomError IdentifiedPdu :=
  let? value := ok_or (from_slice (se_raw stored)) CodecFailed in
  let? raw := canonicalize value in
  let? pdu := ok_or (pdu_from_canonical raw) Format in
  Ok {| ip_event_id := event_id; ip_pdu := pdu |}.

(** ** Reads *)

Section Reads.
Context (store : ReadCtx).

Definition load_raw (event_id : string) : result RoomError (option json_object) :=
  let? o := storage_err (event store event_id) in
  match o with
  | None => Ok None
  | Some stored =>
      match json_parse (se_raw stored) with
      | Some (JObject o) => Ok (Some o)
      | _ => Err CodecFailed
      end
  end.

(** [for (k, v) in map { out.insert(k, OwnedEventId::try_from(v)?) }] *)
Definition checked_ids (map : StateIds) : result RoomError StateIds :=
  if forallb event_id_ok (state_values map) then Ok map else Err CodecFailed.

(** [materialize]; the parent walk needs no more steps than the group's number. *)
Definition materialize (room_id : string) (group : N) : result RoomError StateIds :=
  let? map := storage_err (default (Err (Engine "state group chain"))
                (resolve_group store (S (N.to_nat group)) room_id group)) in
  checked_ids map.

(** [groups_behind_rejected]: the last entry pushed is popped first, so a
    branch is explored to its end before its siblings; [depth > 8] is a
    [budget] used up. *)
Fixpoint groups_behind (budget : nat) (acc : gset N * gset string) (id : string) :
    gset N * gset string :=
  match budget with
  | O => acc
  | S budget =>
      let '(groups, seen) := acc in
      if bool_decide (id ∈ seen) then acc
      else
        let seen := {[id]} ∪ seen in
        match load_raw id with
        | Ok (Some obj) =>
            let prevs := prev_event_ids obj in
            let held := λ prev, match event store prev with Ok o => o | Err _ => None end in
            let found := omap (λ prev, s ← held prev;
              if se_state_group_after s =? 0 then None else Some (se_state_group_after s)) prevs in
            let pending := filter (λ prev, (se_state_group_after <$> held prev) = Some 0) prevs in
            foldl (groups_behind budget) (list_to_set found ∪ groups, seen) (rev pending)
        | _ => (groups, seen)
        end
  end.

Definition groups_behind_rejected (id : string) : gset N := (groups_behind 9 (∅, ∅) id).1.

(** ** 1: validate *)

Definition validated (keys : PublicKeyMap) (raw : json_object) (v : RoomVersion) :
    result RoomError (json_object * Pdu) :=
  let? pdu := map_err Validation (validate_pdu raw v) in
  let? outcome := map_err Verification (verify_event raw v keys) in
  match outcome with
  | Verified => Ok (raw, pdu)
  | SignedButHashMismatch =>
      let? raw := map_err Verification (redact raw v) in
      let? pdu := map_err Validation (validate_pdu raw v) in
      Ok (raw, pdu)
  end.

(** ** 2: fetch what the event cites *)

(** [auth_events] and [missing_auth] *)
Definition fetch_auth (ids : list string) :
    result RoomError (list (IdentifiedPdu * bool) * list string) :=
  try_fold (λ '(found, missing) id,
    let? o := storage_err (event store id) in
    match o with
    | Some se =>
        let? e := parse_stored id se in
        Ok (found ++ [(e, is_some (se_rejected se))], missing)
    | None => Ok (found, missing ++ [id])
    end) ([], []) ids.

(** [prev_groups] and [missing] *)
Definition fetch_prevs (ids : list string) : result RoomError (gset N * list string) :=
  try_fold (λ '(groups, missing) id,
    let? o := storage_err (event store id) in
    match o with
    | Some se =>
        if se_state_group_after se =? 0 then
          let behind := groups_behind_rejected id in
          Ok (if bool_decide (behind = ∅) then (groups, missing ++ [id])
              else (behind ∪ groups, missing))
        else Ok ({[se_state_group_after se]} ∪ groups, missing)
    | None => Ok (groups, missing ++ [id])
    end) (∅, []) ids.

(** The [fetch] closure: events rejected against their own auth chain take no
    part in state resolution. *)
Definition fetch_event (ev : IdentifiedPdu) (id : string) : option IdentifiedPdu :=
  if bool_decide (id = ip_event_id ev) then Some ev
  else
    se ← match event store id with Ok o => o | Err _ => None end;
    match se_rejected se with
    | Some (RejAuthChain _) => None
    | _ => match parse_stored id se with Ok e => Some e | Err _ => None end
    end.

Definition fetch (ev : IdentifiedPdu) (id : string) : option Event := as_event <$> fetch_event ev id.

(** ** 3: the rules *)

Definition view_of (m : gmap Key IdentifiedPdu) : StateView := λ t k, as_event <$> m !! (t, k).

Definition pdu_key (e : IdentifiedPdu) : Key :=
  (pdu_type (ip_pdu e), default EmptyString (pdu_state_key (ip_pdu e))).

(** [auth_events.into_iter().map(..).collect()]: a later entry replaces an
    earlier one at its key. *)
Definition auth_state (found : list (IdentifiedPdu * bool)) : gmap Key IdentifiedPdu :=
  foldl (λ m e, <[pdu_key e.1 := e.1]> m) ∅ found.

(** v12 and later: the create event takes part implicitly.  The room of any
    other event was found before, so its [expect] does not fail. *)
Definition with_create (is_create : bool) (v : RoomVersion) (meta : option RoomMeta)
    (m : gmap Key IdentifiedPdu) : result RoomError (gmap Key IdentifiedPdu) :=
  if negb is_create && negb (create_event_in_auth_events v) then
    match meta with
    | None => Err Malformed
    | Some meta =>
        let create_id := rm_create_event_id meta in
        let? o := storage_err (event store create_id) in
        let? se := ok_or o (MissingEvents [create_id]) in
        let? _ := refuse_if (negb (event_id_ok create_id)) CodecFailed in
        let? e := parse_stored create_id se in
        Ok (<[create_key := e]> m)
    end
  else Ok m.

Definition state_view (ev : IdentifiedPdu) (v : RoomVersion) (state : StateIds) :
    result RoomError (gmap Key IdentifiedPdu) :=
  let p := ip_pdu ev in
  let needed := {[create_key]} ∪
    auth_types_for_event v (pdu_type p) (pdu_sender p) (pdu_state_key p) (pdu_content p) in
  try_fold (λ view key,
    match state !! key with
    | Some id =>
        let? e := ok_or (fetch_event ev id) (MissingEvents [id]) in
        Ok (<[key := e]> view)
    | None => Ok view
    end) ∅ (sorted_keys needed).

(** ** 4 and 5: state groups *)

(** [next_group] and [new_groups] *)
Record Alloc : Type := { al_next : N; al_groups : list (N * StateGroup) }.

Definition alloc (g : StateGroup) (a : Alloc) : N * Alloc :=
  (al_next a, {| al_next := add64 (al_next a) 1; al_groups := al_groups a ++ [(al_next a, g)] |}).

Definition state_rows (state : StateIds) : state_entries :=
  omap (λ k, v ← state !! k; Some (k, v)) (sorted_keys (dom state)).

Definition full_group (state : StateIds) : StateGroup :=
  {| sg_parent := None; sg_chain_len := 0; sg_entries := state_rows state |}.

Definition alloc_full (state : StateIds) (a : Alloc) : N * Alloc := alloc (full_group state) a.

Context (fuel : nat).

Definition resolve_sets (v : RoomVersion) (ev : IdentifiedPdu) (sets : list StateIds) :
    result RoomError StateIds :=
  map_err StateResolution (resolve (fetch ev) fuel v sets).

Definition materialize_all (room_id : string) (groups : list N) : result RoomError (list StateIds) :=
  try_fold (λ sets g, let? s := materialize room_id g in Ok (sets ++ [s])) [] groups.

(** The state before the event and its group, resolving the forks of its
    [prev_events]. *)
Definition before_state (room_id : string) (v : RoomVersion) (is_create : bool)
    (ev : IdentifiedPdu) (prev_groups : gset N) (a : Alloc) :
    result RoomError (StateIds * N * Alloc) :=
  if is_create then Ok (∅, 0, a)
  else
    match ascending prev_groups with
    | [g] => let? s := materialize room_id g in Ok (s, g, a)
    | groups =>
        let? sets := materialize_all room_id groups in
        let? resolved := resolve_sets v ev sets in
        let '(g, a) := alloc_full resolved a in
        Ok (resolved, g, a)
    end.

(** 5a: the state after the event. *)
Definition after_state (room_id : string) (is_create : bool) (ev : IdentifiedPdu)
    (before : StateIds) (before_group : N) (a : Alloc) : result RoomError (N * StateIds * Alloc) :=
  match pdu_state_key (ip_pdu ev) with
  | None => Ok (before_group, before, a)
  | Some sk =>
      let key := (pdu_type (ip_pdu ev), sk) in
      let sa := <[key := ip_event_id ev]> before in
      let? parent := if is_create then Ok None
                     else
                       let? o := storage_err (group_of store room_id before_group) in
                       let? p := ok_or o (Storage (Engine "state group missing")) in
                       Ok (Some p) in
      let full := let '(g, a) := alloc_full sa a in Ok (g, sa, a) in
      match parent with
      | Some p =>
          if add64 (sg_chain_len p) 1 <? MAX_GROUP_CHAIN then
            let '(g, a) := alloc {| sg_parent := Some before_group;
                                    sg_chain_len := add64 (sg_chain_len p) 1;
                                    sg_entries := [(key, ip_event_id ev)] |} a in
            Ok (g, sa, a)
          else full
      | None => full
      end
  end.

(** 5b: the forward extremities, in order. *)
Definition new_extremities (meta : option RoomMeta) (ev : IdentifiedPdu) : gset string :=
  {[ip_event_id ev]} ∪
    (default ∅ ((λ m, list_to_set (rm_extremities m)) <$> meta)
       ∖ list_to_set (pdu_prev_events (ip_pdu ev))).

(** The state of an extremity. *)
Definition extremity_state (room_id : string) (ev : IdentifiedPdu) (after : StateIds) (id : string) :
    result RoomError StateIds :=
  if bool_decide (id = ip_event_id ev) then Ok after
  else
    let? o := storage_err (event store id) in
    let? se := ok_or o (MissingEvents [id]) in
    materialize room_id (se_state_group_after se).

Definition current_state (room_id : string) (v : RoomVersion) (ev : IdentifiedPdu)
    (extremities : list string) (after_group : N) (after : StateIds) (a : Alloc) :
    result RoomError (N * Alloc) :=
  match extremities with
  | [_] => Ok (after_group, a)
  | _ =>
      let? sets := try_fold (λ sets id,
        let? s := extremity_state room_id ev after id in Ok (sets ++ [s])) [] extremities in
      let? resolved := resolve_sets v ev sets in
      if bool_decide (resolved = after) then Ok (after_group, a)
      else Ok (alloc_full resolved a)
  end.

(** ** Redactions *)

Definition sender_may_redact (ev : IdentifiedPdu) (v : RoomVersion) (before : StateIds) :
    result RoomError bool :=
  match id ← before !! create_key; fetch ev id with
  | None => Ok false
  | Some create =>
      let pl := id ← before !! pl_key; fetch ev id in
      match resolve_levels v create pl with
      | Ok p => Ok (satisfies (user_level p (pdu_sender (ip_pdu ev))) (PowerLevels.redact p))
      | Err _ => Err Malformed
      end
  end.

Definition redaction_directive (room_id : string) (ev : IdentifiedPdu) (v : RoomVersion)
    (before : StateIds) : result RoomError (option string) :=
  match str_prop (pdu_content (ip_pdu ev)) "redacts" with
  | None => Ok None
  | Some target_id =>
      if negb (event_id_ok target_id) then Ok None
      else
        let? o := storage_err (event store target_id) in
        match o with
        | None =>
            let? may := sender_may_redact ev v before in
            Ok (Some (encode_directive (Pending target_id may)))
        | Some stored =>
            if is_some (se_rejected stored) then Ok None
            else
              let? target := parse_stored target_id stored in
              if bool_decide (pdu_room_id (ip_pdu target) ≠ Some room_id) then Ok None
              else if bool_decide (pdu_sender (ip_pdu target) = pdu_sender (ip_pdu ev))
              then Ok (Some (encode_directive (Applies target_id)))
              else
                let? may := sender_may_redact ev v before in
                Ok (if (may : bool) then Some (encode_directive (Applies target_id)) else None)
        end
  end.

(** ** [process_inner] *)

(** [propose_rejected_with_state] *)
Definition reject_with_state (room_id : string) (ev : IdentifiedPdu) (raw : json_object)
    (rejected : Rejected) (groups : list (N * StateGroup)) (after next_group : N) :
    result RoomError Decision :=
  let? bytes := raw_bytes raw in
  Ok (Propose
    {| ae_room_id := room_id; ae_event_id := ip_event_id ev; ae_raw := bytes;
       ae_depth := pdu_depth (ip_pdu ev); ae_rejected := Some rejected; ae_new_groups := groups;
       ae_state_group_after := after; ae_new_current_group := 0; ae_new_extremities := [];
       ae_next_group := next_group; ae_create_version := None; ae_redacts := None;
       ae_relay := false |} None).

Definition first_group (meta : option RoomMeta) : N := default 1 (rm_next_group <$> meta).

(** [propose_rejected] *)
Definition reject_event (room_id : string) (ev : IdentifiedPdu) (raw : json_object)
    (why : string) (meta : option RoomMeta) : result RoomError Decision :=
  reject_with_state room_id ev raw (RejAuthChain why) [] 0 (first_group meta).

(** Steps 3b to 5c, on an event that stands against its own auth events. *)
Definition advance_room (room_id : string) (v : RoomVersion) (is_create relay : bool)
    (txn : option TxnStamp) (meta : option RoomMeta) (ev : IdentifiedPdu) (raw : json_object)
    (prev_groups : gset N) : result RoomError Decision :=
  let? (before, before_group, a) :=
    before_state room_id v is_create ev prev_groups
      {| al_next := first_group meta; al_groups := [] |} in
  let? view := state_view ev v before in
  match check_state_dependent v (as_event ev) (view_of view) with
  | Err why =>
      reject_with_state room_id ev raw (RejState why) (al_groups a) before_group (al_next a)
  | Ok _ =>
      let? (after_group, after, a) := after_state room_id is_create ev before before_group a in
      let extremities := btree (new_extremities meta ev) in
      let? (current_group, a) := current_state room_id v ev extremities after_group after a in
      let? redacts := if bool_decide (pdu_type (ip_pdu ev) = "m.room.redaction"%string)
                      then redaction_directive room_id ev v before else Ok None in
      let? bytes := raw_bytes raw in
      Ok (Propose
        {| ae_room_id := room_id; ae_event_id := ip_event_id ev; ae_raw := bytes;
           ae_depth := pdu_depth (ip_pdu ev); ae_rejected := None;
           ae_new_groups := al_groups a; ae_state_group_after := after_group;
           ae_new_current_group := current_group; ae_new_extremities := extremities;
           ae_next_group := al_next a;
           ae_create_version := if is_create then Some (version_str v) else None;
           ae_redacts := redacts; ae_relay := relay |} txn)
  end.

(** The options of [process_inner]. *)
Record Flags : Type := { f_relay : bool; f_reject_missing_auth : bool; f_txn : option TxnStamp }.

Definition judge (keys : PublicKeyMap) (raw : json_object) (v : RoomVersion) (room_id : string)
    (is_create : bool) (fl : Flags) : result RoomError Decision :=
  let? (raw, pdu) := validated keys raw v in
  let? event_id := ok_or (reference_event_id raw v) Format in
  let ev := {| ip_event_id := event_id; ip_pdu := pdu |} in
  let? held := storage_err (event store event_id) in
  if is_some held then Ok (Known event_id)
  else
    let? meta := storage_err (meta store room_id) in
    let? _ := refuse_if (negb is_create && negb (is_some meta)) (UnknownRoom room_id) in
    let? (found, missing_auth) := fetch_auth (pdu_auth_events pdu) in
    let? (prev_groups, missing) := fetch_prevs (pdu_prev_events pdu) in
    if bool_decide (missing ≠ []) then Err (MissingEvents missing)
    else if bool_decide (missing_auth ≠ []) then
      if f_reject_missing_auth fl then reject_event room_id ev raw "unfetchable" meta
      else Err (MissingAuthEvents missing_auth)
    else
      let entries := (λ e, {| entry_event := as_event e.1; entry_rejected := e.2 |}) <$> found in
      match check_auth_events v (as_event ev) entries with
      | Err why => reject_event room_id ev raw why meta
      | Ok _ =>
          let? auth := with_create is_create v meta (auth_state found) in
          match check_state_dependent v (as_event ev) (view_of auth) with
          | Err why => reject_event room_id ev raw why meta
          | Ok _ => advance_room room_id v is_create (f_relay fl) (f_txn fl) meta ev raw prev_groups
          end
      end.

(** [classify]: room version and id of a raw event, and whether it creates
    the room. *)
Definition classify (raw : json_object) : result RoomError (RoomVersion * string * bool) :=
  let? type := str_of raw "type" in
  if bool_decide (type = "m.room.create"%string)
     && is_str EmptyString (str_prop raw "state_key")
  then
    let? content := ok_or (obj_prop raw "content") Malformed in
    let? s := str_of content "room_version" in
    let? v := ok_or (CoreEvent.parse s) Version in
    let? room_id := if room_id_is_create_event_id v
                    then ok_or (room_id_for_create raw v) Format else room_id_of raw in
    Ok (v, room_id, true)
  else
    let? room_id := room_id_of raw in
    let? o := storage_err (meta store room_id) in
    let? m := ok_or o (UnknownRoom room_id) in
    let? v := ok_or (CoreEvent.parse (rm_version m)) Version in
    Ok (v, room_id, false).
End Reads.

(** ** [RoomServer]

    A hosted shard: the keys it trusts, and what Raft gives its proposals. *)

Section Server.
Context `{HR : Raft}.
Context `{!Codec (option LogId), !Codec StoredMembership, !Codec N}.
Context `{!Codec RuntimeCommand, !Codec RuntimeResponse}.
Context (sid : ShardId) (next_id : engine → LogId) (fuel : nat) (keys : PublicKeyMap).

Definition local_store (e : engine) : ReadCtx := {| r_shard := sid; r_engine := e |}.

(** [schema_at_least(2)]; its latch remembers a version that only grows. *)
Definition txn_records_available (e : engine) : bool :=
  match stored_schema_version sid e with Ok v => 2 <=? v | Err _ => false end.

Definition append_command (e : engine) (cmd : AppendEvent) (txn : option TxnStamp) : RoomCommand :=
  match txn with
  | Some txn => if txn_records_available e then AppendStamped cmd txn else Append cmd
  | None => Append cmd
  end.

(** [propose_cmd]: committed and applied alone; an apply error stops the
    state machine. *)
Definition propose_cmd (o : raft_outcome) (cmd : RoomCommand) (e : engine) :
    result RoomError RoomResponse * engine :=
  match o with
  | Refused => (Err ShardFailed, e)
  | _ =>
      match sm_apply sid RoomApp [{| log_id := next_id e; payload := Normal (enc cmd) |}] e with
      | Ok (e', [r], _) =>
          (match o with Done => ok_or (dec r) CodecFailed | _ => Err ShardFailed end, e')
      | _ => (Err ShardFailed, e)
      end
  end.

Definition event_outcome (r : RoomResponse) : result RoomError Outcome :=
  let id s (o : Outcome) := if event_id_ok s then Ok o else Err CodecFailed in
  match r with
  | RAccepted event_id seq => id event_id (Accepted event_id seq)
  | RRejected event_id why => id event_id (RejectedEvent event_id why)
  | RDuplicate event_id => id event_id (Duplicate event_id)
  | _ => Err CodecFailed
  end.

Definition propose (o : raft_outcome) (cmd : AppendEvent) (txn : option TxnStamp) (e : engine) :
    result RoomError Outcome * engine :=
  match propose_cmd o (append_command e cmd txn) e with
  | (Ok r, e') => (event_outcome r, e')
  | (Err x, e') => (Err x, e')
  end.

Definition process_inner (o : raft_outcome) (raw : json_object) (v : RoomVersion) (room_id : string)
    (is_create : bool) (fl : Flags) (e : engine) : result RoomError Outcome * engine :=
  match judge (local_store e) fuel keys raw v room_id is_create fl with
  | Ok (Known event_id) => (Ok (Duplicate event_id), e)
  | Ok (Propose cmd txn) => propose o cmd txn e
  | Err x => (Err x, e)
  end.

Definition no_flags : Flags := {| f_relay := false; f_reject_missing_auth := false; f_txn := None |}.

(** [ingest_pdu], [ingest_pdu_rejecting_missing_auth] and the resident side's
    [send_join] and [send_leave] differ in the flags. *)
Definition ingest (o : raft_outcome) (fl : Flags) (raw : json_object) (e : engine) :
    result RoomError Outcome * engine :=
  match classify (local_store e) raw with
  | Ok (v, room_id, is_create) => process_inner o raw v room_id is_create fl e
  | Err x => (Err x, e)
  end.

Definition ingest_pdu (o : raft_outcome) (raw : json_object) (e : engine) :=
  ingest o no_flags raw e.

Definition ingest_pdu_rejecting_missing_auth (o : raft_outcome) (raw : json_object) (e : engine) :=
  ingest o {| f_relay := false; f_reject_missing_auth := true; f_txn := None |} raw e.

(** [verify_pdu_at], [verify_pdu], [pdu_event_id] *)
Definition verify_pdu_at (v : RoomVersion) (raw : json_object) : bool :=
  match validate_pdu raw v, verify_event raw v keys with
  | Ok _, Ok Verified => true
  | _, _ => false
  end.

Definition verify_pdu (store : ReadCtx) (room_id : string) (raw : json_object) : bool :=
  match meta store room_id with
  | Ok (Some m) => match CoreEvent.parse (rm_version m) with
                   | Some v => verify_pdu_at v raw
                   | None => false
                   end
  | _ => false
  end.

Definition pdu_event_id (store : ReadCtx) (raw : json_object) : option string :=
  match classify store raw with Ok (v, _, _) => reference_event_id raw v | Err _ => None end.

(** ** Local events *)

(** [signer.hash_and_sign_event], the clock, and [RoomId::new_v1]. *)
Context (hash_and_sign : RoomVersion → json_object → option json_object).
Context (now : N) (fresh_room_id : string).

(** A canonical object from its properties. *)
Definition object_of (l : list (string * json)) : json_object :=
  foldl (λ o kv, obj_insert kv.1 kv.2 o) [] l.

(** An unsigned integer in [canonicalize]. *)
Definition uint_json (n : N) : result RoomError json :=
  if bool_decide (n < 2 ^ 53) then Ok (JInteger (Z.of_N n)) else Err Malformed.

Definition strings (l : list string) : json := JArray (JString <$> l).

(** The greatest depth of the extremities. *)
Definition tip_depth (store : ReadCtx) (extremities : list string) : result RoomError N :=
  try_fold (λ depth id,
    let? o := storage_err (event store id) in
    let? prev := ok_or o (MissingEvents [id]) in
    Ok (N.max depth (se_depth prev))) 0 extremities.

Definition build_local (store : ReadCtx) (room_id sender type : string) (state_key : option string)
    (content : jvalue jnum) (ts_override : option N) : result RoomError (json_object * RoomVersion) :=
  let? o := storage_err (meta store room_id) in
  let? m := ok_or o (UnknownRoom room_id) in
  let? v := ok_or (CoreEvent.parse (rm_version m)) Version in
  let? current := storage_err (default (Err (Engine "state group chain"))
    (resolve_group store (S (N.to_nat (rm_current_group m))) room_id (rm_current_group m))) in
  let? depth := tip_depth store (rm_extremities m) in
  let? content_obj := canonicalize content in
  let auth_types := auth_types_for_event v type sender state_key content_obj in
  let auth_events := omap (λ k, current !! k) (sorted_keys auth_types) in
  let? ts := uint_json (default now ts_override) in
  let? depth := uint_json (add64 depth 1) in
  let raw := object_of
    ([("room_id", JString room_id); ("sender", JString sender); ("origin_server_ts", ts);
      ("type", JString type); ("content", JObject content_obj);
      ("auth_events", strings auth_events); ("prev_events", strings (rm_extremities m));
      ("depth", depth)]%string
     ++ match state_key with Some sk => [("state_key"%string, JString sk)] | None => [] end) in
  let? text := ok_or (json_text raw) Malformed in
  let? _ := refuse_if (MAX_PDU_BYTES <? byte_len text) (Validation (TooLarge (byte_len text))) in
  let? raw := ok_or (hash_and_sign v raw) Sign in
  Ok (raw, v).

Definition send_local (o : raft_outcome) (room_id sender type : string) (state_key : option string)
    (content : jvalue jnum) (ts_override : option N) (txn : option TxnStamp) (e : engine) :
    result RoomError Outcome * engine :=
  match build_local (local_store e) room_id sender type state_key content ts_override with
  | Ok (raw, v) =>
      process_inner o raw v room_id false
        {| f_relay := false; f_reject_missing_auth := false; f_txn := txn |} e
  | Err x => (Err x, e)
  end.

Definition send_state (o : raft_outcome) (room_id sender type state_key : string)
    (content : jvalue jnum) (e : engine) :=
  send_local o room_id sender type (Some state_key) content None None e.

Definition send_message_stamped (o : raft_outcome) (room_id sender type : string)
    (content : jvalue jnum) (ts : option N) (txn : option TxnStamp) (e : engine) :=
  send_local o room_id sender type None content ts txn e.

Definition build_create (creator : string) (v : RoomVersion) (content : list (string * jvalue jnum)) :
    result RoomError (string * json_object) :=
  let content := obj_insert "room_version" (VStr (version_str v)) content in
  let content := if creator_in_create_content v
                 then obj_insert "creator" (VStr creator) content else content in
  let? content := canonicalize (VObj content) in
  let? ts := uint_json now in
  let raw := object_of
    ([("sender", JString creator); ("origin_server_ts", ts); ("type", JString "m.room.create");
      ("state_key", JString EmptyString); ("content", JObject content);
      ("auth_events", JArray []); ("prev_events", JArray []); ("depth", JInteger 1)]%string
     ++ (if room_id_is_create_event_id v then [] else [("room_id"%string, JString fresh_room_id)])) in
  let? raw := ok_or (hash_and_sign v raw) Sign in
  let? room_id := if room_id_is_create_event_id v
                  then ok_or (room_id_for_create raw v) Format else room_id_of raw in
  Ok (room_id, raw).

(** [apply_create] *)
Definition apply_create (o : raft_outcome) (room_id : string) (v : RoomVersion) (raw : json_object)
    (e : engine) := process_inner o raw v room_id true no_flags e.

Definition create_room (o : raft_outcome) (creator : string) (v : RoomVersion)
    (content : list (string * jvalue jnum)) (e : engine) :
    result RoomError (string * Outcome) * engine :=
  match build_create creator v content with
  | Ok (room_id, raw) =>
      match apply_create o room_id v raw e with
      | (Ok outcome, e') => (Ok (room_id, outcome), e')
      | (Err x, e') => (Err x, e')
      end
  | Err x => (Err x, e)
  end.
End Server.
End Pipeline.
