(* ===== verification/PipelineDemo.v ===== *)
(** * A room served by the pipeline, for the witnesses

    JSON text is length-prefixed; an event's hash is the one it declares; a
    server's signature is its key. *)

From Stdlib Require Import Ascii.
From stdpp Require Import pretty.
From S2P Require Import Prelude Bytes Store Codec Json Shard Demo RoomTypes RoomMachine RoomRead RoomDemo.
From S2P Require Import CoreEvent PowerLevels Auth AuthDemo Order StateRes Pdu Pipeline.
From stdpp Require Import options.

Local Open Scope N_scope.

(** ** Text *)

Definition netstring (s : string) : string := pretty (byte_len s) +:+ ":" +:+ s.

Fixpoint json_print (v : json) : string :=
  match v with
  | JNull => "n"
  | JBool b => if b then "t" else "f"
  | JInteger z => "i" +:+ (if (z <? 0)%Z then "-" else "+") +:+ pretty (Z.abs_N z) +:+ "."
  | JString s => "s" +:+ netstring s
  | JArray l => "l" +:+ String.concat "" (map json_print l) +:+ "e"
  | JObject o => "d" +:+ String.concat "" (map (λ kv, netstring kv.1 +:+ json_print kv.2) o) +:+ "e"
  end.

(** A decimal number and the character after it dropped. *)
Fixpoint read_number (acc : N) (s : string) : option (N * string) :=
  match s with
  | EmptyString => None
  | String c s =>
      if in_range 48 57 c then read_number (10 * acc + (N_of_ascii c - 48)) s else Some (acc, s)
  end.

Definition read_string (s : string) : option (string * string) :=
  '(n, s) ← read_number 0 s; Some (str_take (N.to_nat n) s, str_drop (N.to_nat n) s).

Fixpoint json_read (fuel : nat) (s : string) : option (json * string) :=
  match fuel, s with
  | S fuel, String c s =>
      if bool_decide (c = "n"%char) then Some (JNull, s)
      else if bool_decide (c = "t"%char) then Some (JBool true, s)
      else if bool_decide (c = "f"%char) then Some (JBool false, s)
      else if bool_decide (c = "i"%char) then
        match s with
        | String sign s =>
            '(n, s) ← read_number 0 s;
            Some (JInteger (if bool_decide (sign = "-"%char) then - Z.of_N n else Z.of_N n), s)
        | EmptyString => None
        end
      else if bool_decide (c = "s"%char) then '(x, s) ← read_string s; Some (JString x, s)
      else if bool_decide (c = "l"%char) then
        (fix items (k : nat) (s : string) (acc : list json) :=
          match k, s with
          | S k, String c s' =>
              if bool_decide (c = "e"%char) then Some (JArray acc, s')
              else '(v, s) ← json_read fuel s; items k s (acc ++ [v])
          | _, _ => None
          end) fuel s []
      else if bool_decide (c = "d"%char) then
        (fix props (k : nat) (s : string) (acc : list (string * json)) :=
          match k, s with
          | S k, String c s' =>
              if bool_decide (c = "e"%char) then Some (JObject acc, s')
              else '(key, s) ← read_string s; '(v, s) ← json_read fuel s;
                   props k s (acc ++ [(key, v)])
          | _, _ => None
          end) fuel s []
      else None
  | _, _ => None
  end.

Definition json_of_text (s : string) : option json := fst <$> json_read 64 s.

Fixpoint json_value (v : json) : jvalue Z :=
  match v with
  | JNull => VNull
  | JBool b => VBool b
  | JInteger z => VNum z
  | JString s => VStr s
  | JArray l => VArr (map json_value l)
  | JObject o => VObj (map (λ kv, (kv.1, json_value kv.2)) o)
  end.

(** In place of [demo_json], the text of the room witnesses. *)
#[export] Instance pipe_json : JsonText := {| json_parse := json_of_text |}.

#[export] Instance pipe_serde : SerdeJson := {|
  jnum := Z; jnum_i64 := Some; jnum_f64_i64 := Some;
  jnum_u64 z := if (z <? 0)%Z then None else Some (Z.to_N z);
  from_slice s := json_value <$> json_of_text s;
  to_vec _ := EmptyString |}.

(** The key that a server signed with. *)
Definition signature_of (o : json_object) : option string :=
  server ← server_part <$> str_prop o "sender";
  sigs ← obj_prop o "signatures"; keys ← obj_prop sigs server; str_prop keys "ed25519:1".

#[export] Instance pipe_crypto : EventCrypto := {|
  room_id_ok s := starts_with "!" s;
  json_text o := Some (json_print (JObject o));
  reference_hash _ o := v ← obj_get "hashes" o; as_hashes v;
  verify_all keys _ o :=
    server ← server_part <$> str_prop o "sender"; known ← keys !! server;
    key ← known !! "ed25519:1"%string; s ← signature_of o;
    if bool_decide (s = key) then Some true else None;
  redact_object _ o := Some ((λ kv : string * json,
    if bool_decide (kv.1 = "content"%string) then ("content"%string, JObject []) else kv) <$> o) |}.

(** ** Events *)

Definition demo_room : string := "!r:a".

Definition demo_keys : PublicKeyMap :=
  {["a"%string := {["ed25519:1"%string := "ka"%string]};
    "b"%string := {["ed25519:1"%string := "kb"%string]}]}.

(** An event [$id], signed by its sender's server. *)
Definition demo_pdu (id sender type : string) (key : option string) (content : json_object)
    (auth prev : list string) (depth : Z) : json_object :=
  let server := server_part sender in
  object_of
    ([("room_id", JString demo_room); ("sender", JString sender);
      ("origin_server_ts", JInteger depth); ("type", JString type); ("content", JObject content);
      ("auth_events", strings auth); ("prev_events", strings prev); ("depth", JInteger depth);
      ("hashes", JObject [("sha256", JString id)]);
      ("signatures", JObject [(server, JObject [("ed25519:1", JString ("k" +:+ server))])])]%string
     ++ match key with Some sk => [("state_key"%string, JString sk)] | None => [] end).

Definition p_create : json_object :=
  demo_pdu "c" alice "m.room.create" (Some EmptyString) [("room_version", JString "11")]%string [] [] 1.
Definition p_alice : json_object :=
  demo_pdu "alice" alice "m.room.member" (Some alice) [("membership", JString "join")]%string
    ["$c"]%string ["$c"]%string 2.
Definition p_rules : json_object :=
  demo_pdu "jr" alice "m.room.join_rules" (Some EmptyString) [("join_rule", JString "public")]%string
    ["$c"; "$alice"]%string ["$alice"]%string 3.
Definition p_topic : json_object :=
  demo_pdu "topic" alice "m.room.topic" (Some EmptyString) [("topic", JString "t")]%string
    ["$c"; "$alice"]%string ["$jr"]%string 4.
Definition p_name : json_object :=
  demo_pdu "name" alice "m.room.name" (Some EmptyString) [("name", JString "n")]%string
    ["$c"; "$alice"]%string ["$jr"]%string 4.
(** Mallory never joined. *)
Definition p_mallory : json_object :=
  demo_pdu "mal" "@mallory:b" "m.room.message" None [("body", JString "x")]%string
    ["$c"]%string ["$jr"]%string 4.
Definition p_merge : json_object :=
  demo_pdu "merge" alice "m.room.message" None [("body", JString "hi")]%string
    ["$c"; "$alice"]%string ["$topic"; "$name"]%string 5.
Definition p_merge_state : json_object :=
  demo_pdu "avatar" alice "m.room.avatar" (Some EmptyString) [("url", JString "u")]%string
    ["$c"; "$alice"]%string ["$topic"; "$name"]%string 5.
(** Another create event of the same room. *)
Definition p_create2 : json_object :=
  demo_pdu "c2" alice "m.room.create" (Some EmptyString)
    [("creator", JString alice); ("room_version", JString "10")]%string [] [] 1.

(** ** The engine they leave *)

Definition demo_next (_ : engine) : @LogId demo_raft := 1.

Definition step (raw : json_object) (e : engine) : result RoomError Outcome * engine :=
  ingest demo_shard demo_next 64 demo_keys Done no_flags raw e.

Definition run_pdus (raws : list json_object) (e : engine) : engine :=
  foldl (λ e raw, (step raw e).2) e raws.

Definition outcomes (raws : list json_object) (e : engine) : list (result RoomError Outcome) :=
  (foldl (λ '(rs, e) raw, let '(r, e) := step raw e in (rs ++ [r], e)) ([], e) raws).1.

Definition forked : list json_object := [p_create; p_alice; p_rules; p_mallory; p_topic; p_name].

Example json_sample : json_of_text (json_print (JObject p_rules)) = Some (JObject p_rules).
Proof. vm_compute. reflexivity. Qed.
