(* ===== verification/RoomCells.v ===== *)
(** * State-group tables

    What a room's group rows mean: a full group is its entries, a delta those
    of its parent overridden by its own.  A well-formed table gives every
    group a state, by a parent walk of bounded length, and stays so when
    groups are allocated at its end; no group ever changes its meaning. *)

From Stdlib Require Import Ascii.
From S2P Require Import Prelude Bytes Store Codec Shard ShardFacts Track Json RoomTypes.
From S2P Require Import RoomMachine RoomAppend RoomRead RoomHistory StateRes.
From stdpp Require Import options.

Local Open Scope N_scope.

Abbreviation table := (N → option StateGroup) (only parsing).

Section Tables.
Implicit Types t : table.

Inductive denotes t : N → StateIds → Prop :=
  | denotes_full g sg :
      t g = Some sg → sg_parent sg = None → denotes t g (add_entries ∅ (sg_entries sg))
  | denotes_delta g sg p s :
      t g = Some sg → sg_parent sg = Some p → denotes t p s →
      denotes t g (add_entries s (sg_entries sg)).

Lemma denotes_unique t g s s' : denotes t g s → denotes t g s' → s = s'.
Proof.
  intros H. revert s'. induction H as [g sg Hg Hp|g sg p s Hg Hp _ IH]; intros s'; inversion 1;
    simplify_eq; [done|]. f_equal. by apply IH.
Qed.

(** One row: where it may point, and how long its chain is. *)
Definition row_ok t (g : N) (sg : StateGroup) : Prop :=
  sg_chain_len sg < MAX_GROUP_CHAIN
  ∧ match sg_parent sg with
    | None => sg_chain_len sg = 0
    | Some p => p < g ∧ ∃ psg, t p = Some psg ∧ sg_chain_len sg = sg_chain_len psg + 1
    end.

(** A table whose groups are numbered from 1, below [next]. *)
Definition table_ok t (next : N) : Prop :=
  ∀ g sg, t g = Some sg → 0 < g < next ∧ row_ok t g sg.

Lemma table_denotes t next g sg : table_ok t next → t g = Some sg → ∃ s, denotes t g s.
Proof.
  intros Ht. revert sg. induction (N.lt_wf_0 g) as [g _ IH]. intros sg Hg.
  destruct (Ht g sg Hg) as [_ [_ Hp]]. destruct (sg_parent sg) as [p|] eqn:Hpar.
  - destruct Hp as (Hlt & psg & Hpsg & _). destruct (IH p Hlt psg Hpsg) as [s Hs].
    eexists. by eapply denotes_delta.
  - eexists. by eapply denotes_full.
Qed.

Lemma denotes_row t g s : denotes t g s → is_Some (t g).
Proof. by destruct 1 as [? ? ->|? ? ? ? ->]. Qed.

(** A table that only gained rows. *)
Definition grows t t' : Prop := ∀ g sg, t g = Some sg → t' g = Some sg.

Lemma denotes_grows t t' g s : grows t t' → denotes t g s → denotes t' g s.
Proof.
  intros Hgr. induction 1 as [g sg Hg Hp|g sg p s Hg Hp _ IH].
  - eapply denotes_full; [by apply Hgr|done].
  - eapply denotes_delta; [by apply Hgr|done|done].
Qed.

(** ** Writing rows *)

Definition put_row t (row : N * StateGroup) : table := λ g, if decide (g = row.1) then Some row.2 else t g.

Definition put_rows t (rows : list (N * StateGroup)) : table := foldl put_row t rows.

Lemma put_rows_snoc t rows row : put_rows t (rows ++ [row]) = put_row (put_rows t rows) row.
Proof. unfold put_rows. by rewrite foldl_app. Qed.

Lemma put_row_fresh t next g sg : table_ok t next → next ≤ g → grows t (put_row t (g, sg)).
Proof.
  intros Ht Hle g' sg' Hg'. unfold put_row. cbn [fst snd]. case_decide as Heq; [|done]. subst g'.
  apply Ht in Hg' as [[_ ?] _]. lia.
Qed.

Lemma table_ok_put t next g sg :
  table_ok t next → 0 < next → next ≤ g → row_ok t g sg → table_ok (put_row t (g, sg)) (g + 1).
Proof.
  intros Ht Hn Hle Hrow. pose proof (put_row_fresh t next g sg Ht Hle) as Hgr.
  assert (∀ g' sg', row_ok t g' sg' → row_ok (put_row t (g, sg)) g' sg') as Hmono.
  { intros g' sg' [Hlen Hp]. split; [done|]. destruct (sg_parent sg'); [|done].
    destruct Hp as (? & psg & Hpsg & ?). split; [done|]. exists psg. split; [by apply Hgr|done]. }
  intros g' sg' Hg'. unfold put_row in Hg'. cbn [fst snd] in Hg'. case_decide as Heq.
  - subst g'. injection Hg' as <-. split; [lia|by apply Hmono].
  - destruct (Ht g' sg' Hg') as [? Hr]. split; [lia|by apply Hmono].
Qed.

Lemma table_ok_weaken t n n' : table_ok t n → n ≤ n' → table_ok t n'.
Proof. intros Ht Hle g sg Hg. destruct (Ht g sg Hg) as [? ?]. split; [lia|done]. Qed.
End Tables.

(** ** Entries of a state *)

Lemma lookup_add_entries m l k :
  add_entries m l !! k = match list.last (filter (λ e, e.1 = k) l) with
                         | Some e => Some e.2 | None => m !! k end.
Proof.
  unfold add_entries. revert m. induction l as [|[k' v] l IH] using rev_ind; intros m; [done|].
  rewrite foldl_app, list.filter_app. cbn [foldl fst snd]. rewrite filter_cons, filter_nil.
  cbn [fst]. destruct (decide (k' = k)) as [->|Hne].
  - by rewrite last_snoc, lookup_insert_eq.
  - by rewrite app_nil_r, lookup_insert_ne, IH.
Qed.

Lemma sorted_keys_elem s k : k ∈ sorted_keys s ↔ k ∈ s.
Proof. unfold sorted_keys. by rewrite merge_sort_Permutation, elem_of_elements. Qed.

Lemma sorted_keys_nodup s : NoDup (sorted_keys s).
Proof. unfold sorted_keys. rewrite merge_sort_Permutation. apply NoDup_elements. Qed.

(** * What an append writes

    [apply_append] and [put_txn] over the cells of a shard: the event's
    record, the new group rows, the room's record, and nothing else of the
    event, group and room tables; then the same for one committed batch. *)

Section Cells.
Context `{RC : RoomCodecs, JT : JsonText}.
Implicit Types f g : cells.

Definition event_cell f (id : string) : option StoredEvent := f T_EVENT id ≫= dec.
Definition room_cell f (room : string) : option RoomMeta := f T_ROOM room ≫= dec.

(** The group table of a room: group numbers are [u64]. *)
Definition group_cell f (room : string) (n : N) : option StateGroup :=
  if decide (n < u64_modulus) then f T_GROUP (room_u64_key room n) ≫= dec else None.

(** The record an append stores, at sequence number [n] when accepted. *)
Definition record_of (cmd : AppendEvent) (n : N) : StoredEvent :=
  match ae_rejected cmd with
  | None => accepted_event cmd n
  | Some why =>
      {| se_raw := ae_raw cmd; se_seq := 0; se_state_group_after := ae_state_group_after cmd;
         se_depth := ae_depth cmd; se_rejected := Some why; se_history_idx := None;
         se_imported := false; se_relay := false |}
  end.

Definition meta_after (cmd : AppendEvent) (m : option RoomMeta) : option RoomMeta :=
  match ae_rejected cmd with
  | Some _ => (λ m, with_next_group m (N.max (rm_next_group m) (ae_next_group cmd))) <$> m
  | None => match ae_create_version cmd with
            | Some version => Some (created_meta cmd version)
            | None => advanced_meta cmd <$> m
            end
  end.

Definition append_response (cmd : AppendEvent) (n : N) : RoomResponse :=
  match ae_rejected cmd with
  | None => RAccepted (ae_event_id cmd) n
  | Some why => RRejected (ae_event_id cmd) (reason why)
  end.

(** Group rows written in order. *)
Definition put_group_row (room : string) (h : bytes → option bytes) (row : N * StateGroup) :
    bytes → option bytes :=
  λ k, if decide (room_u64_key room row.1 = k) then Some (enc row.2) else h k.

Definition put_group_rows (room : string) (rows : list (N * StateGroup)) (h : bytes → option bytes) :=
  foldl (put_group_row room) h rows.

(** From cells [f] to cells [g] by the append [cmd] answered [resp]. *)
Record appended (cmd : AppendEvent) (resp : RoomResponse) f g : Prop := {
  ap_event : ∃ n, resp = append_response cmd n ∧ event_cell g (ae_event_id cmd) = Some (record_of cmd n);
  ap_others : ∀ id, id ≠ ae_event_id cmd → g T_EVENT id = f T_EVENT id;
  ap_groups : ∀ k, g T_GROUP k = put_group_rows (ae_room_id cmd) (ae_new_groups cmd) (f T_GROUP) k;
  ap_rooms : ∀ room, room ≠ ae_room_id cmd → g T_ROOM room = f T_ROOM room;
  ap_room : room_cell g (ae_room_id cmd) = meta_after cmd (room_cell f (ae_room_id cmd));
  ap_known : ae_rejected cmd = None → ae_create_version cmd = None →
    is_Some (room_cell f (ae_room_id cmd));
}.

Lemma put_group_rows_ext room rows h h' k :
  (∀ k, h k = h' k) → put_group_rows room rows h k = put_group_rows room rows h' k.
Proof.
  unfold put_group_rows. revert h h'. induction rows as [|row rows IH]; intros h h' Hh; [by apply Hh|].
  cbn [foldl]. apply IH. intros k'. unfold put_group_row. by case_decide.
Qed.

Lemma wp_groups room rows env c :
  wp (put_groups room rows) env (λ _ c',
    (∀ k, tget env c' T_GROUP k = put_group_rows room rows (tget env c T_GROUP) k) ∧
    frame (λ t _, t ≠ T_GROUP) env c c') c.
Proof.
  unfold put_groups, app_iter. revert c. induction rows as [|[n sg] rows IH]; intros c.
  { apply wp_ret. split; [done|apply frame_refl]. }
  cbn [app_fold]. wp_step. wp_step. eapply wp_mono; [|apply IH]. intros [] c' [Hk Hf]. split.
  - intros k. rewrite Hk. unfold put_group_rows. cbn [foldl]. apply put_group_rows_ext. intros k'.
    rewrite tget_put by done. unfold put_group_row. cbn [fst snd].
    case_decide as H1; case_decide as H2; try done; destruct H1; by try destruct H2.
  - eapply frame_trans; [|done]. apply frame_put; [done|]. intros Hne. by apply Hne.
Qed.

(** Cells of the tables an append leaves to others. *)
Lemma appended_ext cmd resp f g f' g' :
  appended cmd resp f g →
  (∀ t k, t = T_EVENT ∨ t = T_GROUP ∨ t = T_ROOM → f' t k = f t k) →
  (∀ t k, t = T_EVENT ∨ t = T_GROUP ∨ t = T_ROOM → g' t k = g t k) → appended cmd resp f' g'.
Proof.
  intros [He Ho Hg Hr Hm Hk] Hf Hg'. unfold event_cell, room_cell in *. split.
  - destruct He as (n & ? & He). exists n. split; [done|]. unfold event_cell.
    by rewrite Hg' by auto.
  - intros id Hne. rewrite Hg', Hf by auto. by apply Ho.
  - intros k. rewrite Hg' by auto. rewrite Hg. apply put_group_rows_ext. intros k'. by rewrite Hf by auto.
  - intros room Hne. rewrite Hg', Hf by auto. by apply Hr.
  - unfold room_cell. rewrite Hg', Hf by auto. done.
  - unfold room_cell. by rewrite Hf by auto.
Qed.

Lemma append_rejected_cells cmd why env c :
  ae_rejected cmd = Some why →
  wp (append_rejected cmd why) env (λ resp c', appended cmd resp (tget env c) (tget env c')) c.
Proof.
  intros Hr. unfold append_rejected. wp_step. wp_step. set (c1 := with_wb _ _). wp_step.
  eapply wp_mono; [|apply wp_groups]. intros [] c2 [Hg Hf].
  assert (∀ t k, (t < 256)%N → t ≠ T_GROUP → tget env c2 t k = tget env c1 t k) as H21.
  { intros. by apply (fr_cells _ _ _ _ Hf). }
  assert (∀ t k, (t < 256)%N → t ≠ T_EVENT → tget env c1 t k = tget env c t k) as H10.
  { intros. unfold c1. rewrite tget_put_other; [done|done|done|by apply not_eq_sym]. }
  set (m := room_cell (tget env c) (ae_room_id cmd)).
  assert (∀ c3, (∀ t k, (t < 256)%N → (t, k) ≠ (T_ROOM, ae_room_id cmd) → tget env c3 t k = tget env c2 t k) →
    room_cell (tget env c3) (ae_room_id cmd) = meta_after cmd m →
    appended cmd (RRejected (ae_event_id cmd) (reason why)) (tget env c) (tget env c3)) as Hfin.
  { intros c3 H32 Hm. split; [|..|done|].
    - exists 0. unfold append_response, record_of. rewrite Hr. split; [done|].
      unfold event_cell. rewrite H32, H21 by done. unfold c1. rewrite tget_put, decide_True by done.
      simpl. by rewrite dec_enc.
    - intros id Hne. rewrite H32, H21 by done. unfold c1. rewrite tget_put by done. rewrite decide_False; [done|]. intros [_ ?]. congruence.
    - intros k. rewrite H32, Hg by done. apply put_group_rows_ext. intros. by rewrite H10.
    - intros room Hne. rewrite H32, H21, H10 by naive_solver. done.
    - by rewrite Hr. }
  wp_step. apply wp_get_typed. rewrite H21, H10 by done. intros o <- _.
  change (tget env c T_ROOM (ae_room_id cmd) ≫= dec) with m. unfold meta_after in Hfin. rewrite Hr in Hfin.
  destruct m as [m'|] eqn:Em.
  - destruct (N.ltb_spec (rm_next_group m') (ae_next_group cmd)) as [Hlt|Hge].
    + wp_step. wp_step. wp_step. apply Hfin.
      * intros t k Ht Hne. rewrite tget_put by done. rewrite decide_False; [done|]. intros [<- <-]. by apply Hne.
      * unfold room_cell. rewrite tget_put, decide_True by done. simpl. rewrite dec_enc. f_equal.
        unfold with_next_group. by rewrite N.max_r by lia.
    + wp_step. wp_step. apply Hfin; [done|]. unfold room_cell. rewrite H21, H10 by done.
      change (tget env c T_ROOM (ae_room_id cmd) ≫= dec) with m. rewrite Em. simpl. f_equal.
      rewrite N.max_l by lia. by rewrite with_next_group_same.
  - wp_step. wp_step. apply Hfin; [done|]. unfold room_cell. rewrite H21, H10 by done. done.
Qed.

(** The record of the room an accepted append stores. *)
Lemma wp_next_meta cmd env c (Q : RoomMeta → ApplyState → Prop) :
  (∀ m, (match ae_create_version cmd with
         | Some version => Some (created_meta cmd version)
         | None => advanced_meta cmd <$> room_cell (tget env c) (ae_room_id cmd)
         end) = Some m → Q m c) →
  wp (match ae_create_version cmd with
      | Some version => mret (created_meta cmd version)
      | None =>
          o ← get_typed (A := RoomMeta) "room meta decode" T_ROOM (ae_room_id cmd);
          match o with
          | Some m => mret (advanced_meta cmd m)
          | None => fail (Engine "append to unknown room")
          end
      end) env Q c.
Proof.
  intros HQ. destruct (ae_create_version cmd); [by apply wp_ret, HQ|]. wp_step.
  apply wp_get_typed. intros o Ho _. unfold room_cell in HQ. rewrite Ho in HQ.
  destruct o as [m|]; [by apply wp_ret, HQ|by wp_step].
Qed.

Lemma append_accepted_cells cmd env c :
  ae_rejected cmd = None → tget env c T_EVENT (ae_event_id cmd) = None →
  wp (apply_append cmd) env (λ resp c', appended cmd resp (tget env c) (tget env c')) c.
Proof.
  intros Hr Hnew. unfold apply_append. wp_step. wp_step. rewrite Hnew, Hr. cbn [is_some]. wp_step.
  eapply wp_mono; [|apply runs_wp, timeline_run]. intros n c1 (-> & _ & _ & He1 & _ & _ & H10).
  assert (wp (match ae_redacts cmd with Some d => put_redact d (ae_event_id cmd) | None => mret () end) env
    (λ _ c2, frame (λ t _, t ≠ T_REDACT) env c1 c2) c1) as Hred.
  { destruct (ae_redacts cmd); [apply runs_wp, redact_run|apply wp_ret, frame_refl]. }
  wp_step. eapply wp_mono; [|exact Hred]. intros [] c2 F2. wp_step. eapply wp_mono; [|apply wp_groups].
  intros [] c3 [Hg F3]. wp_step.
  assert (∀ t k, t = T_EVENT ∨ t = T_ROOM → tget env c3 t k = tget env c1 t k) as H31.
  { intros t k Ht. by rewrite (fr_cells _ _ _ _ F3), (fr_cells _ _ _ _ F2) by (destruct Ht as [->| ->]; done). }
  assert (∀ k, tget env c3 T_ROOM k = tget env c T_ROOM k) as Hroom.
  { intros k. rewrite H31 by auto. by rewrite H10. }
  apply wp_next_meta. intros m Hm. wp_step. wp_step. wp_step. split.
  - eexists. unfold append_response, record_of. rewrite Hr. split; [done|]. unfold event_cell.
    rewrite tget_put_other by done. rewrite H31 by auto. exact He1.
  - intros id Hne. rewrite tget_put_other by done. rewrite H31 by auto. rewrite H10 by (done || congruence). done.
  - intros k. rewrite tget_put_other, Hg by done. apply put_group_rows_ext. intros k'.
    rewrite (fr_cells _ _ _ _ F2), H10 by done. done.
  - intros room Hne. rewrite tget_put by done. rewrite decide_False; [apply Hroom|]. intros [_ ?]. congruence.
  - unfold room_cell at 1. rewrite tget_put, decide_True by done. simpl. rewrite dec_enc.
    unfold meta_after. rewrite Hr. unfold room_cell in *. by rewrite Hroom in Hm.
  - intros _ Hc. rewrite Hc in Hm. unfold room_cell in *. rewrite Hroom in Hm.
    destruct (tget env c T_ROOM (ae_room_id cmd) ≫= dec); [done|]. done.
Qed.

Lemma append_cells cmd env c :
  tget env c T_EVENT (ae_event_id cmd) = None →
  wp (apply_append cmd) env (λ resp c', appended cmd resp (tget env c) (tget env c')) c.
Proof.
  intros Hnew. destruct (ae_rejected cmd) as [why|] eqn:Hr; [|by apply append_accepted_cells].
  unfold apply_append. wp_step. wp_step. rewrite Hnew, Hr. by apply append_rejected_cells.
Qed.

(** [Append] and [AppendStamped] write the same event, groups and room. *)
Definition append_of (c : RoomCommand) : option AppendEvent :=
  match c with Append a | AppendStamped a _ => Some a | _ => None end.

Lemma append_command_cells c cmd env s :
  append_of c = Some cmd → tget env s T_EVENT (ae_event_id cmd) = None →
  wp (apply_command c) env (λ resp s', appended cmd resp (tget env s) (tget env s')) s.
Proof.
  intros Hc Hnew. destruct c; simplify_eq/=; [by apply append_cells|].
  wp_step. eapply wp_mono; [|by apply append_cells]. intros resp c1 H1. wp_step.
  apply (wp_mono _ _ (λ _ c2, frame not_txn env c1 c2)).
  { intros [] c2 F. wp_step. eapply appended_ext; [exact H1|done|]. intros t k Ht.
    apply (fr_cells _ _ _ _ F); destruct Ht as [->|[->| ->]]; done. }
  destruct resp; try by (wp_step; apply frame_refl). apply (txn_frame c1). apply frame_refl.
Qed.

(** ** Group tables *)

Lemma put_group_rows_table room rows h n :
  (n < u64_modulus) → Forall (λ row, row.1 < u64_modulus) rows →
  put_group_rows room rows h (room_u64_key room n) ≫= dec =
    put_rows (λ n, if decide (n < u64_modulus) then h (room_u64_key room n) ≫= dec else None) rows n.
Proof.
  intros Hn. induction rows as [|row rows IH] using rev_ind; intros Hrows.
  { cbn. by rewrite decide_True. }
  apply Forall_app in Hrows as [Hrows [Hrow _]%list.Forall_cons]. cbn [fst] in Hrow. unfold put_group_rows in *.
  rewrite foldl_app. cbn [foldl]. rewrite put_rows_snoc. unfold put_group_row at 1, put_row.
  case_decide as Hk.
  - apply room_u64_key_inj in Hk as [_ <-]; [|done..]. rewrite decide_True by done. simpl. apply dec_enc.
  - rewrite decide_False by (intros ->; by apply Hk). by apply IH.
Qed.

Lemma put_group_rows_other room rows h room' n :
  room' ≠ room → (n < u64_modulus) → Forall (λ row, row.1 < u64_modulus) rows →
  put_group_rows room rows h (room_u64_key room' n) = h (room_u64_key room' n).
Proof.
  intros Hne Hn. unfold put_group_rows. revert h. induction rows as [|row rows IH]; intros h; [done|].
  intros [Hrow Hrows]%list.Forall_cons. cbn [foldl]. rewrite IH by done. unfold put_group_row.
  rewrite decide_False; [done|]. intros [? _]%room_u64_key_inj; [|done..]. congruence.
Qed.

Lemma appended_groups cmd resp f g n :
  appended cmd resp f g → Forall (λ row, row.1 < u64_modulus) (ae_new_groups cmd) →
  group_cell g (ae_room_id cmd) n = put_rows (group_cell f (ae_room_id cmd)) (ae_new_groups cmd) n.
Proof.
  intros H Hrows. unfold group_cell at 1. case_decide as Hn.
  - rewrite (ap_groups _ _ _ _ H). by apply put_group_rows_table.
  - clear H. induction (ae_new_groups cmd) as [|row rows IH] using rev_ind; [unfold put_rows, group_cell; cbn [foldl]; by rewrite decide_False|].
    apply Forall_app in Hrows as [Hrows [Hrow _]%list.Forall_cons]. rewrite put_rows_snoc. unfold put_row.
    rewrite decide_False by (intros ->; done). by apply IH.
Qed.

Lemma appended_groups_other cmd resp f g room n :
  appended cmd resp f g → Forall (λ row, row.1 < u64_modulus) (ae_new_groups cmd) →
  room ≠ ae_room_id cmd → group_cell g room n = group_cell f room n.
Proof.
  intros H Hrows Hne. unfold group_cell. case_decide; [|done]. rewrite (ap_groups _ _ _ _ H).
  by rewrite put_group_rows_other.
Qed.

Lemma appended_events cmd resp f g id :
  appended cmd resp f g → id ≠ ae_event_id cmd → event_cell g id = event_cell f id.
Proof. intros H Hne. unfold event_cell. by rewrite (ap_others _ _ _ _ H). Qed.

Lemma appended_rooms cmd resp f g room :
  appended cmd resp f g →
  room_cell g room = if decide (room = ae_room_id cmd) then meta_after cmd (room_cell f room)
                     else room_cell f room.
Proof.
  intros H. case_decide as Hr; [subst; apply H|]. unfold room_cell. by rewrite (ap_rooms _ _ _ _ H).
Qed.
End Cells.

(** ** At rest *)

Section Committed.
Context `{RC : RoomCodecs, JT : JsonText, HR : Raft}.
Context `{!Codec (option LogId), !Codec StoredMembership, !Codec N}.
Context `{!Codec RuntimeCommand, !Codec RuntimeResponse}.
Context (sid : ShardId).

Lemma sm_append_cells c cmd id e e' rs pub :
  append_of c = Some cmd → app_command (enc c) →
  eget sid e T_EVENT (ae_event_id cmd) = None →
  sm_apply sid RoomApp [{| log_id := id; payload := Normal (enc c) |}] e = Ok (e', rs, pub) →
  ∃ resp, rs = [enc resp] ∧ appended cmd resp (eget sid e) (eget sid e').
Proof using Type.
  intros Hc Henc Hnew Hrun.
  pose proof (sm_apply_command sid RoomApp (λ _ r c', ∃ resp, r = enc resp ∧
    appended cmd resp (tget (apply_env sid e) (apply_init 0)) (tget (apply_env sid e) c'))
    id (enc c) e Henc) as H.
  rewrite Hrun in H. destruct H as (n & r & c' & _ & -> & (resp & -> & Ha) & _ & Hcells).
  { intros n. cbn [app_apply RoomApp]. unfold room_apply. wp_step. apply wp_lift. unfold dec_or.
    rewrite dec_enc. intros ? [= <-]. wp_step. eapply wp_mono; [|by apply (append_command_cells c cmd)].
    intros resp c' Ha. wp_step. by exists resp. }
  exists resp. split; [done|]. eapply appended_ext; [exact Ha|done|]. intros t k Ht.
  apply Hcells; destruct Ht as [->|[->| ->]]; done.
Qed.

(** The typed reads, over the cells. *)
Context (e : engine).
Abbreviation store := {| r_shard := sid; r_engine := e |}.

Lemma kv_get_cell {A} `{!Codec A} what t k (o : option A) :
  kv_get_typed store what t k = Ok o →
  eget sid e t k ≫= dec = o ∧ (o = None → eget sid e t k = None).
Proof using Type.
  unfold kv_get_typed. change (read_get store t k) with (eget sid e t k).
  destruct (eget sid e t k) as [b|]; [|by intros [= <-]]. unfold dec_or. simpl.
  destruct (dec b); [|done]. by intros [= <-].
Qed.

Lemma event_read id o :
  event store id = Ok o →
  event_cell (eget sid e) id = o ∧ (o = None → eget sid e T_EVENT id = None).
Proof using Type. apply kv_get_cell. Qed.

Lemma meta_read room o : meta store room = Ok o → room_cell (eget sid e) room = o.
Proof using Type. intros H. by apply kv_get_cell in H as [? _]. Qed.

Lemma group_read room n o :
  n < u64_modulus → group_of store room n = Ok o → group_cell (eget sid e) room n = o.
Proof using Type.
  intros Hn H. unfold group_cell. rewrite decide_True by done. by apply kv_get_cell in H as [? _].
Qed.
End Committed.
