(* ===== verification/PipelineFacts.v ===== *)
(** * What the pipeline's reads and decisions mean

    [materialize] against the meaning of a group table, full groups, and the
    commands that [judge] can come to. *)

From Stdlib Require Import Ascii.
From S2P Require Import Prelude Bytes Order Store Codec Shard ShardFacts Track Json RoomTypes.
From S2P Require Import RoomMachine RoomAppend RoomRead CoreEvent PowerLevels Auth StateRes.
From S2P Require Import Pdu Pipeline RoomCells.
From stdpp Require Import options.

Local Open Scope N_scope.

(** ** Full groups *)

Lemma state_rows_lookup s k : add_entries ∅ (state_rows s) !! k = s !! k.
Proof.
  rewrite lookup_add_entries. unfold state_rows.
  assert (filter (λ e : Key * string, e.1 = k)
    (omap (λ k, v ← s !! k; Some (k, v)) (sorted_keys (dom s))) =
    match s !! k with Some v => [(k, v)] | None => [] end) as ->.
  { assert (∀ l, NoDup l → filter (λ e : Key * string, e.1 = k) (omap (λ k, v ← s !! k; Some (k, v)) l) =
      if decide (k ∈ l) then match s !! k with Some v => [(k, v)] | None => [] end else []) as H.
    { induction 1 as [|a l Hni Hnd IH]; [by rewrite decide_False by set_solver|]. cbn [omap list_omap].
      destruct (s !! a) as [v|] eqn:Ha; simpl.
      - rewrite filter_cons. cbn [fst]. destruct (decide (a = k)) as [->|Hne].
        + rewrite IH, decide_False by done. rewrite decide_True by set_solver. by rewrite Ha.
        + rewrite IH. destruct (decide (k ∈ l)); [rewrite decide_True by set_solver|rewrite decide_False by set_solver]; done.
      - rewrite IH. destruct (decide (k ∈ l)); [by rewrite decide_True by set_solver|].
        destruct (decide (a = k)) as [->|Hne]; [rewrite decide_True by set_solver; by rewrite Ha|].
        by rewrite decide_False by set_solver. }
    rewrite H by apply sorted_keys_nodup. case_decide as Hk; [done|].
    rewrite sorted_keys_elem in Hk. apply not_elem_of_dom in Hk. by rewrite Hk. }
  destruct (s !! k); [done|]. simpl. by rewrite lookup_empty.
Qed.

Lemma state_rows_entries s : add_entries ∅ (state_rows s) = s.
Proof. apply map_eq. apply state_rows_lookup. Qed.

Section Reads.
Context `{RC : RoomCodecs, JT : JsonText, SJ : SerdeJson, RU : Ruma, EC : EventCrypto, HR : Raft}.
Context (sid : ShardId) (e : engine).

Abbreviation store := {| r_shard := sid; r_engine := e |}.
Abbreviation groups room := (group_cell (eget sid e) room).

(** ** Reading a group back *)

Lemma group_chain_denotes room next fuel cursor chain res :
  table_ok (groups room) next →
  (∀ g, cursor = Some g → g < u64_modulus) →
  group_chain store fuel room cursor chain = Some (Ok res) →
  ∃ rest, res = chain ++ rest ∧
    match cursor with
    | None => rest = []
    | Some g => denotes (groups room) g (foldl (λ m g, add_entries m (sg_entries g)) ∅ (rev rest))
    end.
Proof.
  intros Ht. revert cursor chain. induction fuel as [|fuel IH]; intros [g|] chain Hg; simpl; try done.
  - intros [= <-]. exists []. by rewrite app_nil_r.
  - specialize (Hg g eq_refl). destruct (group_of store room g) as [[sg|]|] eqn:Hread; [|done..].
    apply group_read in Hread; [|done]. intros Hrec.
    assert (∀ p, sg_parent sg = Some p → p < u64_modulus) as Hpar.
    { intros p Hp. destruct (Ht g sg Hread) as [_ [_ Hrow]]. rewrite Hp in Hrow. lia. }
    apply IH in Hrec as (rest & -> & Hden); [|done]. exists (sg :: rest).
    split; [by rewrite <- app_assoc|]. cbn [rev]. rewrite foldl_app. cbn [foldl].
    destruct (sg_parent sg) as [p|] eqn:Hp.
    + by eapply denotes_delta.
    + subst rest. by eapply denotes_full.
  - intros [= <-]. exists []. by rewrite app_nil_r.
Qed.

Lemma materialize_denotes room next g s :
  table_ok (groups room) next → g < u64_modulus → materialize store room g = Ok s →
  denotes (groups room) g s.
Proof.
  intros Ht Hg. unfold materialize, resolve_group.
  destruct (group_chain _ _ _ _ _) as [[chain|]|] eqn:Hc; [|done..]. simpl.
  unfold checked_ids. destruct (forallb _ _); [|done]. intros [= <-].
  apply (group_chain_denotes room next) in Hc as (rest & -> & H); [done|done|]. by intros ? [= <-].
Qed.

(** A walk down a well-formed table returns. *)
Lemma group_chain_total room next fuel g sg chain :
  table_ok (groups room) next → groups room g = Some sg → (N.to_nat g < fuel)%nat →
  ∃ res, group_chain store fuel room (Some g) chain = Some (Ok res).
Proof.
  intros Ht. revert g sg chain. induction fuel as [|fuel IH]; intros g sg chain Hg Hf; [lia|].
  cbn [group_chain]. unfold group_cell in Hg. case_decide as Hlt; [|done].
  assert (group_of store room g = Ok (Some sg)) as ->.
  { unfold group_of, kv_get_typed. change (read_get store T_GROUP ?k) with (eget sid e T_GROUP k).
    destruct (eget sid e T_GROUP _) as [b|]; [|done]. simpl in Hg. unfold dec_or. by rewrite Hg. }
  assert (groups room g = Some sg) as Hg' by (unfold group_cell; by rewrite decide_True).
  destruct (Ht g sg Hg') as [_ [_ Hrow]]. destruct (sg_parent sg) as [p|]; [|by destruct fuel; eexists].
  destruct Hrow as (Hpg & psg & Hpsg & _). eapply IH; [exact Hpsg|lia].
Qed.

Lemma materialize_total room next g sg :
  table_ok (groups room) next → groups room g = Some sg →
  (∀ s, denotes (groups room) g s → forallb event_id_ok (state_values s) = true) →
  ∃ s, materialize store room g = Ok s ∧ denotes (groups room) g s.
Proof.
  intros Ht Hg Hids.
  destruct (group_chain_total room next (S (N.to_nat g)) g sg [] Ht Hg) as [res Hres]; [lia|].
  assert (g < u64_modulus) as Hlt by (unfold group_cell in Hg; by case_decide).
  pose proof Hres as Hden. apply (group_chain_denotes room next) in Hden as (rest & -> & Hden);
    [|done|by intros ? [= <-]]. eexists. split; [|exact Hden].
  unfold materialize, resolve_group. rewrite Hres. simpl. unfold checked_ids. by rewrite Hids.
Qed.
End Reads.

(** ** Allocating groups *)

Lemma try_fold_inv {E A B} (f : B → A → result E B) (I : B → Prop) l b b' :
  (∀ b a b', a ∈ l → I b → f b a = Ok b' → I b') → I b → try_fold f b l = Ok b' → I b'.
Proof.
  revert b. induction l as [|a l IH]; intros b Hf Hb; simpl; [by intros [= <-]|].
  destruct (f b a) as [b1|] eqn:H1; [|done]. apply IH.
  - intros ? ? ? Hin. apply Hf. by right.
  - eapply Hf; [by left|done|done].
Qed.

(** A fold that appends one result per element. *)
Lemma try_fold_map {E A B} (f : A → result E B) l out out' :
  try_fold (λ out a, match f a with Ok b => Ok (out ++ [b]) | Err e => Err e end) out l = Ok out' →
  ∃ bs, out' = out ++ bs ∧ Forall2 (λ a b, f a = Ok b) l bs.
Proof.
  revert out. induction l as [|a l IH]; intros out; simpl.
  { intros [= <-]. exists []. by rewrite app_nil_r. }
  destruct (f a) as [b|] eqn:Hb; [|done]. intros (bs & -> & Hbs)%IH. exists (b :: bs).
  split; [by rewrite <- app_assoc|]. by constructor.
Qed.

Section Alloc.
Implicit Types t : N → option StateGroup.

(** At most [k] groups were allocated from [n0] on, over table [t]. *)
Record alloc_ok t (n0 k : N) (a : Alloc) : Prop := {
  ao_next : n0 ≤ al_next a ≤ n0 + k;
  ao_table : table_ok (put_rows t (al_groups a)) (al_next a);
  ao_grows : grows t (put_rows t (al_groups a));
  ao_rows : Forall (λ row : N * StateGroup, n0 ≤ row.1 < al_next a) (al_groups a);
}.

Lemma alloc_ok_nil t n0 : table_ok t n0 → alloc_ok t n0 0 {| al_next := n0; al_groups := [] |}.
Proof. intros Ht. split; simpl; [lia|done|by intros ?|constructor]. Qed.

Lemma alloc_ok_weaken t n0 k k' a : k ≤ k' → alloc_ok t n0 k a → alloc_ok t n0 k' a.
Proof. intros Hk [? ? ? ?]. split; [lia|done..]. Qed.

Lemma alloc_step t n0 k sg a g a' :
  0 < n0 → n0 + k + 1 < u64_modulus → alloc_ok t n0 k a →
  row_ok (put_rows t (al_groups a)) (al_next a) sg → alloc sg a = (g, a') →
  g = al_next a ∧ alloc_ok t n0 (k + 1) a' ∧
  grows (put_rows t (al_groups a)) (put_rows t (al_groups a')) ∧ put_rows t (al_groups a') g = Some sg.
Proof.
  intros Hn0 Hlt [Hn Ht Hg Hr] Hrow. unfold alloc. intros [= <- <-]. cbn [al_next al_groups].
  rewrite add64_small by lia. rewrite put_rows_snoc.
  pose proof (put_row_fresh _ _ (al_next a) sg Ht ltac:(lia)) as Hgr. split_and!; [done| |done|].
  - split; simpl; [lia|..]; rewrite ?put_rows_snoc.
    + eapply table_ok_put; [exact Ht|lia|lia|done].
    + intros g sg' H. by apply Hgr, Hg.
    + apply list.Forall_app; split; [|repeat constructor; simpl; lia].
      eapply list.Forall_impl; [exact Hr|]. simpl. lia.
  - unfold put_row. simpl. by rewrite decide_True.
Qed.

Lemma full_row_ok t g s : row_ok t g (full_group s).
Proof. split; [done|]. done. Qed.

Lemma alloc_full_step t n0 k s a g a' :
  0 < n0 → n0 + k + 1 < u64_modulus → alloc_ok t n0 k a → alloc_full s a = (g, a') →
  g = al_next a ∧ alloc_ok t n0 (k + 1) a' ∧
  grows (put_rows t (al_groups a)) (put_rows t (al_groups a')) ∧
  denotes (put_rows t (al_groups a')) g s.
Proof.
  intros Hn0 Hlt Ha Hal. destruct (alloc_step t n0 k _ a g a' Hn0 Hlt Ha (full_row_ok _ _ _) Hal)
    as (? & ? & ? & Hput). split_and!; [done..|].
  rewrite <- (state_rows_entries s). by apply (denotes_full _ g (full_group s)).
Qed.
End Alloc.

(** ** The stages *)

Section Stages.
Context `{RC : RoomCodecs, JT : JsonText, SJ : SerdeJson, RU : Ruma, EC : EventCrypto, HR : Raft}.
Context (sid : ShardId) (e : engine) (fuel : nat).

Abbreviation store := {| r_shard := sid; r_engine := e |}.
Abbreviation groups room := (group_cell (eget sid e) room).

(** A state group that a stored event carries. *)
Definition held_group (g : N) : Prop :=
  g ≠ 0 ∧ ∃ id se, event_cell (eget sid e) id = Some se ∧ se_state_group_after se = g.

Lemma groups_behind_held budget acc id g :
  (∀ g, g ∈ acc.1 → held_group g) → g ∈ (groups_behind store budget acc id).1 → held_group g.
Proof.
  revert acc id g. induction budget as [|budget IH]; intros [gs seen] id g Hacc; [by apply Hacc|].
  cbn [groups_behind]. case_bool_decide; [by apply Hacc|].
  destruct (load_raw store id) as [[obj|]|]; [|by apply Hacc..].
  set (found := omap _ (prev_event_ids obj)). set (pending := filter _ (prev_event_ids obj)).
  assert (∀ g, g ∈ (list_to_set found ∪ gs : gset N) → held_group g) as Hfound.
  { intros g' [Hf|Hf]%elem_of_union; [|by apply Hacc].
    apply elem_of_list_to_set, list_elem_of_omap in Hf as (p & _ & Hp). simpl in Hp.
    destruct (event store p) as [[se|]|] eqn:Hev; try done. simpl in Hp.
    destruct (N.eqb_spec (se_state_group_after se) 0); [done|]. injection Hp as <-.
    split; [done|]. exists p, se. by apply event_read in Hev as [? _]. }
  revert Hfound. generalize (list_to_set found ∪ gs : gset N). generalize ({[id]} ∪ seen).
  clear Hacc. revert g. induction (rev pending) as [|p l IHl]; intros g seen' gs' Hgs'; [by apply Hgs'|].
  cbn [foldl]. destruct (groups_behind store budget (gs', seen') p) as [gs2 seen2] eqn:Hp.
  apply IHl. intros g' Hg'. eapply (IH (gs', seen') p); [by apply Hgs'|]. by rewrite Hp.
Qed.

Lemma fetch_prevs_held ids gs missing g :
  fetch_prevs store ids = Ok (gs, missing) → g ∈ gs → held_group g.
Proof.
  intros Hf Hg. revert g Hg.
  change (∀ g, g ∈ (gs, missing).1 → held_group g).
  revert Hf. apply (try_fold_inv _ (λ acc : gset N * list string, ∀ g, g ∈ acc.1 → held_group g));
    [|set_solver].
  intros [gs1 m1] id [gs2 m2] _ H1. simpl in *.
  destruct (event store id) as [[se|]|] eqn:Hev; simpl; [| |done]; [|by intros [= <- <-]].
  destruct (N.eqb_spec (se_state_group_after se) 0).
  - case_bool_decide; intros [= <- <-]; [done|]. intros g [Hg|Hg]%elem_of_union; [|by apply H1].
    eapply groups_behind_held, Hg. set_solver.
  - intros [= <- <-] g [->%elem_of_singleton|Hg]%elem_of_union; [|by apply H1].
    split; [done|]. exists id, se. by apply event_read in Hev as [? _].
Qed.

(** The state an event is judged in. *)
Definition state_before (room : string) (v : RoomVersion) (is_create : bool) (ev : IdentifiedPdu)
    (prev_groups : gset N) (s : StateIds) : Prop :=
  if is_create then s = ∅
  else match ascending prev_groups with
       | [g] => denotes (groups room) g s
       | gs => ∃ sets, Forall2 (denotes (groups room)) gs sets ∧
                 resolve (fetch store ev) fuel v sets = Ok s
       end.

Lemma materialize_all_denotes room next gs sets :
  table_ok (groups room) next → (∀ g, g ∈ gs → g < u64_modulus) →
  materialize_all store room gs = Ok sets → Forall2 (denotes (groups room)) gs sets.
Proof.
  intros Ht Hgs H. apply try_fold_map in H as (sets' & -> & H). rewrite app_nil_l.
  induction H as [|g s gs sets' Hg _ IH]; constructor.
  - eapply materialize_denotes; [exact Ht|apply Hgs; by left|exact Hg].
  - apply IH. intros g' Hin. apply Hgs. by right.
Qed.

Lemma resolve_sets_ok v ev sets s :
  resolve_sets store fuel v ev sets = Ok s → resolve (fetch store ev) fuel v sets = Ok s.
Proof. unfold resolve_sets. destruct (resolve _ _ _ _); [|done]. by intros [= <-]. Qed.

(** Where the room's table stands before the event. *)
Record room_ready (room : string) (n0 : N) : Prop := {
  rr_pos : 0 < n0;
  rr_bound : n0 + 3 < u64_modulus;
  rr_table : table_ok (groups room) n0;
}.

Lemma before_state_spec room n0 v (is_create : bool) ev prev_groups s g a :
  room_ready room n0 → (∀ g, g ∈ prev_groups → g < u64_modulus) →
  before_state store fuel room v is_create ev prev_groups {| al_next := n0; al_groups := [] |}
    = Ok (s, g, a) →
  state_before room v is_create ev prev_groups s ∧ alloc_ok (groups room) n0 1 a ∧
  (if is_create then g = 0 else denotes (put_rows (groups room) (al_groups a)) g s) ∧
  g < u64_modulus.
Proof.
  intros [Hn0 Hb Ht] Hgs. pose proof (alloc_ok_nil _ _ Ht) as Ha0. unfold before_state, state_before.
  destruct is_create.
  { intros [= <- <- <-]. split_and!; [done| |done|done]. by eapply alloc_ok_weaken, Ha0. }
  assert (∀ g, g ∈ ascending prev_groups → g < u64_modulus) as Hgs'.
  { intros g' Hg'. by apply Hgs, elem_of_ascending. }
  assert ((∃ g0, ascending prev_groups = [g0]) ∨ ¬ ∃ g0, ascending prev_groups = [g0])
    as [[g0 Hone]|Hmany].
  { destruct (ascending prev_groups) as [|g1 [|]]; [right|left|right]; naive_solver. }
  { rewrite Hone in *. destruct (materialize store room g0) as [s0|] eqn:Hm; [|done].
    intros [= <- <- <-]. assert (g0 < u64_modulus) as Hg0 by (apply Hgs'; by left).
    pose proof (materialize_denotes _ _ _ _ _ _ Ht Hg0 Hm) as Hd.
    split_and!; [done| |exact Hd|done]. by eapply alloc_ok_weaken, Ha0. }
  intros H.
  assert (∃ sets resolved, materialize_all store room (ascending prev_groups) = Ok sets ∧
    resolve_sets store fuel v ev sets = Ok resolved ∧ s = resolved ∧
    alloc_full resolved {| al_next := n0; al_groups := [] |} = (g, a)) as (sets & resolved & Hm & Hr & -> & Hal).
  { destruct (ascending prev_groups) as [|g1 [|g2 gs]]; [|by destruct Hmany; eexists|];
      (destruct (materialize_all _ _ _) as [sets|]; [|done]; exists sets;
       destruct (resolve_sets _ _ _ _ _) as [resolved|] eqn:Hr; [|done]; exists resolved;
       split_and!; [done..| |]; destruct (alloc_full resolved _) as [? ?]; by injection H as <- <- <-). }
  apply alloc_full_step with (t := groups room) (n0 := n0) (k := 0) in Hal as (-> & Ha & _ & Hd); [|done|lia|done].
  split_and!; [|done|exact Hd|pose proof (ao_next _ _ _ _ Ha0); cbn [al_next] in *; lia].
  apply (materialize_all_denotes _ _ _ _ Ht Hgs') in Hm. apply resolve_sets_ok in Hr.
  destruct (ascending prev_groups) as [|g1 [|g2 gs]]; [|by destruct Hmany; eexists|]; by exists sets.
Qed.

(** The state after an accepted event. *)
Definition state_after (ev : IdentifiedPdu) (before : StateIds) : StateIds :=
  match pdu_state_key (ip_pdu ev) with
  | Some sk => <[(pdu_type (ip_pdu ev), sk) := ip_event_id ev]> before
  | None => before
  end.

Lemma alloc_bound t n0 k a : n0 + 3 < u64_modulus → k ≤ 3 → alloc_ok t n0 k a → al_next a < u64_modulus.
Proof. intros ? ? [? _ _ _]. lia. Qed.

Lemma after_state_spec room n0 (is_create : bool) ev before g a g' after a' :
  room_ready room n0 → alloc_ok (groups room) n0 1 a → g < u64_modulus →
  (if is_create then g = 0 else denotes (put_rows (groups room) (al_groups a)) g before) →
  after_state store room is_create ev before g a = Ok (g', after, a') →
  after = state_after ev before ∧ alloc_ok (groups room) n0 2 a' ∧ g' < u64_modulus ∧
  grows (put_rows (groups room) (al_groups a)) (put_rows (groups room) (al_groups a')) ∧
  (is_create = false ∨ pdu_state_key (ip_pdu ev) ≠ None →
    denotes (put_rows (groups room) (al_groups a')) g' after).
Proof.
  intros [Hn0 Hb Ht] Ha Hg Hd. unfold after_state, state_after.
  destruct (pdu_state_key (ip_pdu ev)) as [sk|].
  2: { intros [= <- <- <-]. split_and!; [done|by eapply alloc_ok_weaken, Ha|done|by intros ?|].
       intros [->|Hne]; [exact Hd|done]. }
  set (key := (pdu_type (ip_pdu ev), sk)). set (sa := <[key := ip_event_id ev]> before).
  assert (∀ g1 a1, alloc_full sa a = (g1, a1) →
    sa = sa ∧ alloc_ok (groups room) n0 2 a1 ∧ g1 < u64_modulus ∧
    grows (put_rows (groups room) (al_groups a)) (put_rows (groups room) (al_groups a1)) ∧
    (is_create = false ∨ Some sk ≠ None → denotes (put_rows (groups room) (al_groups a1)) g1 sa)) as Hfull.
  { intros g1 a1 Hal. apply alloc_full_step with (t := groups room) (n0 := n0) (k := 1) in Hal
      as (-> & Ha1 & Hgr & Hden); [|done|lia|done].
    split_and!; [done|exact Ha1|by apply (alloc_bound (groups room) n0 1)|exact Hgr|done]. }
  destruct is_create.
  { destruct (alloc_full sa a) as [g1 a1]. intros [= <- <- <-]. by apply Hfull. }
  destruct (group_of store room g) as [o|] eqn:Hp; [|done].
  destruct o as [p|]; [|done]. cbn [storage_err map_err ok_or].
  destruct (N.ltb_spec (add64 (sg_chain_len p) 1) MAX_GROUP_CHAIN) as [Hlen|_];
    [|destruct (alloc_full sa a) as [g1 a1]; intros [= <- <- <-]; by apply Hfull].
  destruct (alloc _ a) as [g1 a1] eqn:Hal. intros [= <- <- <-].
  apply group_read in Hp; [|done]. destruct (Ht g p Hp) as [Hgn [Hplen _]].
  assert (add64 (sg_chain_len p) 1 = sg_chain_len p + 1) as Hadd.
  { apply add64_small. unfold MAX_GROUP_CHAIN, u64_modulus in *. lia. }
  rewrite Hadd in *.
  eapply alloc_step with (t := groups room) (n0 := n0) (k := 1) in Hal as (-> & Ha1 & Hgr & Hput);
    [|done|lia|done|].
  - split_and!; [done|exact Ha1|by apply (alloc_bound (groups room) n0 1)|exact Hgr|]. intros _.
    change sa with (add_entries before [(key, ip_event_id ev)]).
    eapply (denotes_delta _ _ _ g before Hput); [done|]. by eapply denotes_grows, Hd.
  - split; [done|]. cbn [sg_parent sg_chain_len]. split; [pose proof (ao_next _ _ _ _ Ha); lia|].
    exists p. split; [|done]. by apply (ao_grows _ _ _ _ Ha).
Qed.

(** The room's current state: that of its one extremity, or the resolution
    of its extremities' states. *)
Definition state_now (room : string) (v : RoomVersion) (ev : IdentifiedPdu)
    (extremities : list string) (after now : StateIds) : Prop :=
  match extremities with
  | [_] => now = after
  | _ => ∃ sets, Forall2 (λ id s, extremity_state store room ev after id = Ok s) extremities sets ∧
           resolve (fetch store ev) fuel v sets = Ok now
  end.

Lemma current_state_spec room n0 v ev extremities g after a g' a' (P : Prop) :
  room_ready room n0 → alloc_ok (groups room) n0 2 a → g < u64_modulus →
  (P → denotes (put_rows (groups room) (al_groups a)) g after) →
  current_state store fuel room v ev extremities g after a = Ok (g', a') →
  alloc_ok (groups room) n0 3 a' ∧ g' < u64_modulus ∧
  grows (put_rows (groups room) (al_groups a)) (put_rows (groups room) (al_groups a')) ∧
  (P → ∃ now, state_now room v ev extremities after now ∧
         denotes (put_rows (groups room) (al_groups a')) g' now).
Proof.
  intros [Hn0 Hb Ht] Ha Hg Hd. unfold current_state, state_now.
  assert (alloc_ok (groups room) n0 3 a) as Ha3 by (by eapply alloc_ok_weaken, Ha).
  assert ((∃ x, extremities = [x]) ∨ ¬ ∃ x, extremities = [x]) as [[x ->]|Hmany].
  { destruct extremities as [|x [|]]; [right|left|right]; naive_solver. }
  { intros [= <- <-]. split_and!; [done|done|by intros ?|]. intros HP. exists after. by split; [|apply Hd]. }
  intros H.
  assert (∃ sets resolved, Forall2 (λ id s, extremity_state store room ev after id = Ok s) extremities sets ∧
    resolve_sets store fuel v ev sets = Ok resolved ∧
    (if bool_decide (resolved = after) then Ok (g, a) else Ok (alloc_full resolved a))
      = @Ok RoomError _ (g', a')) as (sets & resolved & Hs & Hr & Hend).
  { destruct extremities as [|x1 [|x2 xs]]; [|by destruct Hmany; eexists|];
      (destruct (try_fold _ _ _) as [sets|] eqn:Hsets in H; [|done]; exists sets;
       destruct (resolve_sets _ _ _ _ _) as [resolved|] eqn:Hr in H; [|done]; exists resolved;
       apply try_fold_map in Hsets as (sets' & -> & Hsets); rewrite app_nil_l; by split_and!). }
  clear H. apply resolve_sets_ok in Hr.
  assert (∀ now, now = resolved → match extremities with
    | [_] => now = after
    | _ => ∃ sets, Forall2 (λ id s, extremity_state store room ev after id = Ok s) extremities sets ∧
             resolve (fetch store ev) fuel v sets = Ok now end) as Hnow.
  { intros now ->. destruct extremities as [|x1 [|x2 xs]]; [|by destruct Hmany; eexists|]; by exists sets. }
  case_bool_decide as Heq.
  - injection Hend as <- <-. split_and!; [done|done|by intros ?|]. intros HP. exists resolved.
    split; [by apply Hnow|]. rewrite Heq. by apply Hd.
  - assert (alloc_full resolved a = (g', a')) as Hal by congruence. clear Hend.
    apply alloc_full_step with (t := groups room) (n0 := n0) (k := 2) in Hal
      as (-> & Ha1 & Hgr & Hden); [|done|lia|done].
    split_and!; [done|by apply (alloc_bound (groups room) n0 2)|done|]. intros _. exists resolved.
    split; [by apply Hnow|done].
Qed.
End Stages.

(** * The cases of the pipeline

    Every decision of [judge], and every command it proposes, by the stage
    that made it; what the command does to the room's group table. *)

Section Cases.
Context `{RC : RoomCodecs, JT : JsonText, SJ : SerdeJson, RU : Ruma, EC : EventCrypto, HR : Raft}.
Context (sid : ShardId) (e : engine) (fuel : nat) (keys : PublicKeyMap).

Abbreviation store := {| r_shard := sid; r_engine := e |}.
Abbreviation groups room := (group_cell (eget sid e) room).

Definition entries_of (found : list (IdentifiedPdu * bool)) : list AuthEntry :=
  (λ e, {| entry_event := as_event e.1; entry_rejected := e.2 |}) <$> found.

(** The event was new, and everything it cites is held. *)
Record complete (raw raw' : json_object) (v : RoomVersion) (room : string) (is_create : bool)
    (ev : IdentifiedPdu) (found : list (IdentifiedPdu * bool)) (prev_groups : gset N) : Prop := {
  co_valid : validated keys raw v = Ok (raw', ip_pdu ev);
  co_id : reference_event_id raw' v = Some (ip_event_id ev);
  co_new : eget sid e T_EVENT (ip_event_id ev) = None;
  co_room : is_create = false → is_Some (room_cell (eget sid e) room);
  co_auth : fetch_auth store (pdu_auth_events (ip_pdu ev)) = Ok (found, []);
  co_prevs : fetch_prevs store (pdu_prev_events (ip_pdu ev)) = Ok (prev_groups, []);
}.

(** It stands against its own auth events. *)
Definition stands_alone (v : RoomVersion) (room : string) (is_create : bool) (ev : IdentifiedPdu)
    (found : list (IdentifiedPdu * bool)) : Prop :=
  check_auth_events v (as_event ev) (entries_of found) = Ok () ∧
  ∃ auth, with_create store is_create v (room_cell (eget sid e) room) (auth_state found) = Ok auth ∧
    check_state_dependent v (as_event ev) (view_of auth) = Ok ().

(** A rejection of the event for its own auth chain. *)
Record turned_away (room : string) (ev : IdentifiedPdu) (cmd : AppendEvent) : Prop := {
  ta_room : ae_room_id cmd = room;
  ta_id : ae_event_id cmd = ip_event_id ev;
  ta_why : ∃ why, ae_rejected cmd = Some (RejAuthChain why);
  ta_groups : ae_new_groups cmd = [];
  ta_after : ae_state_group_after cmd = 0;
  ta_next : ae_next_group cmd = first_group (room_cell (eget sid e) room);
}.

Lemma reject_event_cases room ev raw why m cmd txn :
  reject_event room ev raw why m = Ok (Propose cmd txn) →
  m = room_cell (eget sid e) room → turned_away room ev cmd ∧ txn = None.
Proof.
  unfold reject_event, reject_with_state. destruct (raw_bytes raw); [|done].
  intros [= <- <-] ->. split; [|done]. split; try done. by eexists.
Qed.

Lemma reject_never_known room ev raw rej gs g n id :
  reject_with_state room ev raw rej gs g n ≠ Ok (Known id).
Proof. unfold reject_with_state. by destruct (raw_bytes raw). Qed.

Lemma advance_never_known room v is_create relay txn m ev raw gs id :
  advance_room store fuel room v is_create relay txn m ev raw gs ≠ Ok (Known id).
Proof.
  unfold advance_room. destruct (before_state _ _ _ _ _ _ _ _) as [[[? ?] ?]|]; [|done].
  destruct (state_view _ _ _ _); [|done]. destruct (check_state_dependent _ _ _).
  - destruct (after_state _ _ _ _ _ _ _) as [[[? ?] ?]|]; [|done].
    destruct (current_state _ _ _ _ _ _ _ _ _) as [[? ?]|]; [|done].
    destruct (if bool_decide _ then _ else _); [|done]. by destruct (raw_bytes raw).
  - apply reject_never_known.
Qed.

Definition judged (raw : json_object) (v : RoomVersion) (room : string) (is_create : bool)
    (fl : Flags) (d : Decision) : Prop :=
  match d with
  | Known id => ∃ raw' pdu, validated keys raw v = Ok (raw', pdu) ∧
      reference_event_id raw' v = Some id ∧ is_Some (event_cell (eget sid e) id)
  | Propose cmd txn => ∃ raw' ev, eget sid e T_EVENT (ip_event_id ev) = None ∧
      validated keys raw v = Ok (raw', ip_pdu ev) ∧ reference_event_id raw' v = Some (ip_event_id ev) ∧
      ((turned_away room ev cmd ∧ txn = None) ∨
       ∃ found prev_groups, complete raw raw' v room is_create ev found prev_groups ∧
         stands_alone v room is_create ev found ∧
         advance_room store fuel room v is_create (f_relay fl) (f_txn fl)
           (room_cell (eget sid e) room) ev raw' prev_groups = Ok (Propose cmd txn))
  end.

Lemma judge_cases raw v room is_create fl d :
  judge store fuel keys raw v room is_create fl = Ok d → judged raw v room is_create fl d.
Proof.
  unfold judge. destruct (validated keys raw v) as [[raw' pdu]|] eqn:Hval; [|done].
  destruct (reference_event_id raw' v) as [id|] eqn:Hid; [|done]. cbn [ok_or].
  set (ev := {| ip_event_id := id; ip_pdu := pdu |}).
  destruct (event store id) as [held|] eqn:Hheld; [|done]. cbn [storage_err map_err].
  apply event_read in Hheld as [Hcell Hnone]. destruct held as [se|]; cbn [is_some].
  { intros [= <-]. exists raw', pdu. split_and!; [done..|]. rewrite Hcell. by eexists. }
  specialize (Hnone eq_refl).
  destruct (RoomRead.meta store room) as [m|] eqn:Hm; [|done]. cbn [storage_err map_err]. apply meta_read in Hm.
  unfold refuse_if at 1. destruct (negb is_create && negb (is_some m)) eqn:Hknown; [done|].
  destruct (fetch_auth store (pdu_auth_events pdu)) as [[found missing_auth]|] eqn:Hauth; [|done].
  destruct (fetch_prevs store (pdu_prev_events pdu)) as [[prev_groups missing]|] eqn:Hprevs; [|done].
  case_bool_decide as Hmiss; [done|]. subst missing.
  assert (∀ why, reject_event room ev raw' why m = Ok d → judged raw v room is_create fl d) as Hrej.
  { intros why Hd. destruct d as [?|cmd txn]; [by apply reject_never_known in Hd|].
    exists raw', ev. split_and!; [done..|]. left. by eapply reject_event_cases. }
  case_bool_decide as Hma; [destruct (f_reject_missing_auth fl); [by apply Hrej|done]|].
  subst missing_auth.
  destruct (check_auth_events _ _ _) as [[]|why] eqn:Hentries; [|by apply Hrej].
  destruct (with_create _ _ _ _ _) as [auth|] eqn:Hwith; [|done].
  destruct (check_state_dependent _ _ _) as [[]|why] eqn:Hrules; [|by apply Hrej].
  intros Hadv. destruct d as [?|cmd txn]; [by apply advance_never_known in Hadv|].
  exists raw', ev. split_and!; [done..|]. right. exists found, prev_groups. split_and!.
  - split; try done. intros ->. rewrite Hm. destruct m; [by eexists|done].
  - split; [done|]. exists auth. rewrite Hm. by split.
  - by rewrite Hm.
Qed.

(** ** What the room is told *)

(** A rejection in the state before the event. *)
Definition refused_here (room : string) (ev : IdentifiedPdu) (g : N) (a : Alloc)
    (cmd : AppendEvent) : Prop :=
  (∃ why, ae_rejected cmd = Some (RejState why)) ∧ ae_state_group_after cmd = g ∧
  ae_new_groups cmd = al_groups a ∧ ae_next_group cmd = al_next a.

(** An acceptance: the groups of the state after and of the room, and the
    new extremities. *)
Record let_in (room : string) (v : RoomVersion) (is_create relay : bool) (m : option RoomMeta)
    (ev : IdentifiedPdu) (before : StateIds) (g : N) (a : Alloc) (cmd : AppendEvent) : Prop := {
  li_rejected : ae_rejected cmd = None;
  li_relay : ae_relay cmd = relay;
  li_version : ae_create_version cmd = if is_create then Some (version_str v) else None;
  li_extremities : ae_new_extremities cmd = btree (new_extremities m ev);
  li_groups : ∃ after_group after a1 current_group a2,
    after_state store room is_create ev before g a = Ok (after_group, after, a1) ∧
    current_state store fuel room v ev (ae_new_extremities cmd) after_group after a1
      = Ok (current_group, a2) ∧
    ae_state_group_after cmd = after_group ∧ ae_new_current_group cmd = current_group ∧
    ae_new_groups cmd = al_groups a2 ∧ ae_next_group cmd = al_next a2;
}.

Lemma advance_cases room v is_create relay txn m ev raw prev_groups cmd txn' :
  advance_room store fuel room v is_create relay txn m ev raw prev_groups = Ok (Propose cmd txn') →
  ae_room_id cmd = room ∧ ae_event_id cmd = ip_event_id ev ∧ raw_bytes raw = Ok (ae_raw cmd) ∧
  ∃ before g a view,
    before_state store fuel room v is_create ev prev_groups
      {| al_next := first_group m; al_groups := [] |} = Ok (before, g, a) ∧
    state_view store ev v before = Ok view ∧
    match check_state_dependent v (as_event ev) (view_of view) with
    | Ok _ => let_in room v is_create relay m ev before g a cmd
    | Err _ => refused_here room ev g a cmd
    end.
Proof.
  unfold advance_room. destruct (before_state _ _ _ _ _ _ _ _) as [[[before g] a]|]; [|done].
  destruct (state_view _ _ _ _) as [view|] eqn:Hview; [|done].
  destruct (check_state_dependent _ _ _) as [[]|why] eqn:Hrules.
  - destruct (after_state _ _ _ _ _ _ _) as [[[ag after] a1]|] eqn:Hafter; [|done].
    destruct (current_state _ _ _ _ _ _ _ _ _) as [[cg a2]|] eqn:Hcur; [|done].
    destruct (if bool_decide _ then _ else _) as [redacts|]; [|done].
    destruct (raw_bytes raw) as [bs|] eqn:Hraw; [|done]. intros [= <- <-]. split_and!; [done..|].
    exists before, g, a, view. split_and!; [done..|]. rewrite Hrules. split; try done.
    by exists ag, after, a1, cg, a2.
  - unfold reject_with_state. destruct (raw_bytes raw) as [bs|] eqn:Hraw; [|done].
    intros [= <- <-]. split_and!; [done..|]. exists before, g, a, view. split_and!; [done..|].
    rewrite Hrules. split_and!; try done. by eexists.
Qed.

Lemma judged_ids raw v room is_create fl cmd txn :
  judged raw v room is_create fl (Propose cmd txn) →
  ae_room_id cmd = room ∧ ∃ raw' ev, ae_event_id cmd = ip_event_id ev ∧
    eget sid e T_EVENT (ip_event_id ev) = None ∧ validated keys raw v = Ok (raw', ip_pdu ev) ∧
    reference_event_id raw' v = Some (ip_event_id ev).
Proof.
  intros (raw' & ev & Hnew & Hval & Hid & [[Hta _]|(found & pg & _ & _ & Hadv)]).
  - destruct Hta as [<- Hcid _ _ _ _]. split; [done|]. by exists raw', ev.
  - apply advance_cases in Hadv as (<- & Hcid & _). split; [done|]. by exists raw', ev.
Qed.
End Cases.
