(* ===== verification/PipelineSpec.v ===== *)
(** * What the pipeline guarantees (saltator-roomserver/src/lib.rs)

    One event through [process_inner]: it is accepted only when authorised,
    its state groups mean what resolution says, the group tables of the shard
    stay well formed, and nothing is processed twice. *)

From Stdlib Require Import Ascii.
From S2P Require Import Prelude Bytes Store Codec Json Shard ShardFacts Track.
From S2P Require Import RoomTypes RoomMachine RoomAppend RoomRead RoomCells.
From S2P Require Import CoreEvent PowerLevels Auth Order StateRes Pdu Pipeline.
From S2P Require Import PipelineFacts.
From stdpp Require Import options.

Local Open Scope N_scope.

(** ** The invariant of a room shard's groups *)

Section Invariant.
Context `{RC : RoomCodecs, JT : JsonText}.
Implicit Types f : cells.

Record groups_ok f : Prop := {
  go_tables : ∀ room m, room_cell f room = Some m →
    0 < rm_next_group m ∧ table_ok (group_cell f room) (rm_next_group m);
  go_empty : ∀ room n, room_cell f room = None → group_cell f room n = None;
  go_events : ∀ id se, event_cell f id = Some se → se_state_group_after se < u64_modulus;
}.

Lemma groups_ok_first f room :
  groups_ok f → 0 < first_group (room_cell f room) ∧
    table_ok (group_cell f room) (first_group (room_cell f room)).
Proof.
  intros [Ht He _]. unfold first_group. destruct (room_cell f room) as [m|] eqn:Hm; simpl; [by apply Ht|].
  split; [done|]. intros g sg Hg. by rewrite He in Hg.
Qed.

(** What an append may do to the groups of its room. *)
Record groups_step f (cmd : AppendEvent) : Prop := {
  gs_alloc : alloc_ok (group_cell f (ae_room_id cmd)) (first_group (room_cell f (ae_room_id cmd))) 3
    {| al_next := ae_next_group cmd; al_groups := ae_new_groups cmd |};
  gs_bound : first_group (room_cell f (ae_room_id cmd)) + 3 < u64_modulus;
  gs_after : ae_state_group_after cmd < u64_modulus;
  gs_idle : room_cell f (ae_room_id cmd) = None → ae_rejected cmd ≠ None → ae_new_groups cmd = [];
}.

Lemma groups_step_rows f cmd :
  groups_step f cmd → Forall (λ row : N * StateGroup, row.1 < u64_modulus) (ae_new_groups cmd).
Proof.
  intros [[Hn _ _ Hr] Hb _ _]. simpl in *. eapply list.Forall_impl; [exact Hr|]. simpl. lia.
Qed.

Lemma groups_step_grows f cmd resp g room :
  groups_step f cmd → appended cmd resp f g → grows (group_cell f room) (group_cell g room).
Proof.
  intros Hs Ha n sg Hn. pose proof (groups_step_rows f cmd Hs) as Hrows.
  destruct (decide (room = ae_room_id cmd)) as [->|Hne].
  - rewrite (appended_groups _ _ _ _ _ Ha Hrows). by apply (ao_grows _ _ _ _ (gs_alloc _ _ Hs)).
  - by rewrite (appended_groups_other _ _ _ _ _ _ Ha Hrows Hne).
Qed.

Lemma table_ok_ext (t t' : N → option StateGroup) n :
  (∀ g, t' g = t g) → table_ok t n → table_ok t' n.
Proof.
  intros Hx Ht g sg Hg. rewrite Hx in Hg. destruct (Ht g sg Hg) as [? [? Hp]]. split; [done|].
  split; [done|]. destruct (sg_parent sg); [|done]. destruct Hp as (? & psg & ? & ?).
  split; [done|]. exists psg. by rewrite Hx.
Qed.

Lemma groups_step_ok f cmd resp g :
  groups_ok f → groups_step f cmd → appended cmd resp f g → groups_ok g.
Proof.
  intros Hf Hs Ha. pose proof (groups_step_rows f cmd Hs) as Hrows.
  destruct Hs as [[Hn Hat Hg _] Hb Hafter Hidle]. cbn [al_next al_groups] in *.
  destruct (groups_ok_first f (ae_room_id cmd) Hf) as [Hpos _]. split.
  - intros room m Hm. rewrite (appended_rooms _ _ _ _ _ Ha) in Hm. case_decide as Hroom.
    + subst room. assert (table_ok (group_cell g (ae_room_id cmd)) (ae_next_group cmd)) as Ht.
      { eapply table_ok_ext, Hat. intros n. by rewrite (appended_groups _ _ _ _ _ Ha Hrows). }
      assert (ae_next_group cmd ≤ rm_next_group m) as Hle.
      { unfold meta_after in Hm. destruct (ae_rejected cmd).
        - apply fmap_Some in Hm as (m0 & _ & ->). simpl. lia.
        - destruct (ae_create_version cmd); [by simplify_eq/=|].
          apply fmap_Some in Hm as (m0 & _ & ->). simpl. lia. }
      split; [lia|]. by eapply table_ok_weaken.
    + destruct (go_tables f Hf room m Hm) as [? Ht]. split; [done|]. eapply table_ok_ext, Ht.
      intros n. by rewrite (appended_groups_other _ _ _ _ _ _ Ha Hrows Hroom).
  - intros room n Hm. rewrite (appended_rooms _ _ _ _ _ Ha) in Hm. case_decide as Hroom.
    + subst room. rewrite (appended_groups _ _ _ _ _ Ha Hrows). unfold meta_after in Hm.
      pose proof (ap_known _ _ _ _ Ha) as Hk.
      destruct (ae_rejected cmd) eqn:Hr.
      * apply fmap_None in Hm. rewrite Hidle by done. unfold put_rows; simpl. by apply Hf.
      * destruct (ae_create_version cmd) eqn:Hc; [done|]. apply fmap_None in Hm.
        destruct (Hk eq_refl eq_refl) as [m Hm']. congruence.
    + rewrite (appended_groups_other _ _ _ _ _ _ Ha Hrows Hroom). by apply Hf.
  - intros id se Hse. destruct (decide (id = ae_event_id cmd)) as [->|Hne].
    + destruct (ap_event _ _ _ _ Ha) as (n & _ & He). rewrite He in Hse. injection Hse as <-.
      unfold record_of. by destruct (ae_rejected cmd).
    + rewrite (appended_events _ _ _ _ _ Ha Hne) in Hse. by eapply Hf.
Qed.
End Invariant.

(** ** One event *)

Section Spec.
Context `{RC : RoomCodecs, JT : JsonText, SJ : SerdeJson, RU : Ruma, EC : EventCrypto, HR : Raft}.
Context `{!Codec (option LogId), !Codec StoredMembership, !Codec N}.
Context `{!Codec RuntimeCommand, !Codec RuntimeResponse}.
Context (sid : ShardId) (next_id : engine → LogId) (fuel : nat) (keys : PublicKeyMap).

(** postcard writes a command's variant first: never the runtime's prefix. *)
Definition commands_marked : Prop := ∀ c : RoomCommand, app_command (enc c).

Abbreviation local e := {| r_shard := sid; r_engine := e |}.

Lemma propose_effect o cmd txn e r e' :
  commands_marked → eget sid e T_EVENT (ae_event_id cmd) = None →
  propose sid next_id o cmd txn e = (r, e') →
  (e' = e ∧ r = Err ShardFailed) ∨
  ∃ resp, appended cmd resp (eget sid e) (eget sid e') ∧
    (r = Err ShardFailed ∨ r = event_outcome resp).
Proof using Type.
  intros Hmark Hnew. unfold propose, propose_cmd.
  assert (append_of (append_command sid e cmd txn) = Some cmd) as Hof.
  { unfold append_command. destruct txn; [|done]. by destruct (txn_records_available sid e). }
  assert (∀ o, match o with Refused => False | _ => True end →
    (let (r, e'') := match sm_apply sid RoomApp
        [{| log_id := next_id e; payload := Normal (enc (append_command sid e cmd txn)) |}] e with
      | Ok (e', [r], _) => (match o with Done => ok_or (dec r) CodecFailed | _ => Err ShardFailed end, e')
      | _ => (Err ShardFailed, e)
      end in match r with Ok r => (event_outcome r, e'') | Err x => (Err x, e'') end) = (r, e') →
    (e' = e ∧ r = Err ShardFailed) ∨ ∃ resp, appended cmd resp (eget sid e) (eget sid e') ∧
      (r = Err ShardFailed ∨ r = event_outcome resp)) as Hgen.
  { intros o' Ho. destruct (sm_apply _ _ _ _) as [[[e1 rs] pub]|] eqn:Hrun;
      [|intros [= <- <-]; by left].
    eapply sm_append_cells in Hrun as (resp & -> & Ha); [|exact Hof|done|done]. rewrite dec_enc.
    intros Heq. right. exists resp. destruct o'; [|done|]; cbn in Heq; injection Heq as <- <-; auto. }
  destruct o; [by apply (Hgen Done)| |by apply (Hgen Unknown)]. intros [= <- <-]. by left.
Qed.

(** What a call of [process_inner] comes to. *)
Lemma process_effect o raw v room is_create fl e r e' :
  commands_marked →
  process_inner sid next_id fuel keys o raw v room is_create fl e = (r, e') →
  (e' = e ∧ (∀ id n, r ≠ Ok (Accepted id n))) ∨
  ∃ cmd txn resp, judge (local e) fuel keys raw v room is_create fl = Ok (Propose cmd txn) ∧
    judged sid e fuel keys raw v room is_create fl (Propose cmd txn) ∧
    appended cmd resp (eget sid e) (eget sid e') ∧ (r = Err ShardFailed ∨ r = event_outcome resp).
Proof using Type.
  intros Hmark. unfold process_inner, local_store.
  destruct (judge _ _ _ _ _ _ _ _) as [[id|cmd txn]|] eqn:Hj; [intros [= <- <-]; by left| |intros [= <- <-]; by left].
  pose proof (judge_cases _ _ _ _ _ _ _ _ _ _ Hj) as Hcase. intros Hp.
  assert (eget sid e T_EVENT (ae_event_id cmd) = None) as Hnew.
  { by apply judged_ids in Hcase as (_ & raw' & ev & -> & Hnew & _). }
  apply propose_effect in Hp as [[-> ->]|(resp & Ha & Hr)]; [by left|right|done|done].
  by exists cmd, txn, resp.
Qed.

(** There is room for the groups one event may need. *)
Definition group_room (e : engine) (room : string) : Prop :=
  first_group (room_cell (eget sid e) room) + 3 < u64_modulus.

Lemma ready e room :
  groups_ok (eget sid e) → group_room e room →
  room_ready sid e room (first_group (room_cell (eget sid e) room)).
Proof using Type. intros Hok Hb. destruct (groups_ok_first _ room Hok). by split. Qed.

Lemma prev_groups_bound e ids gs missing g :
  groups_ok (eget sid e) → fetch_prevs (local e) ids = Ok (gs, missing) → g ∈ gs → g < u64_modulus.
Proof using Type.
  intros Hok Hf Hg. destruct (fetch_prevs_held _ _ _ _ _ _ Hf Hg) as (_ & id & se & Hse & <-).
  by apply (go_events _ Hok) in Hse.
Qed.

(** The commands of the pipeline are group steps. *)
Lemma judged_step e raw v room is_create fl cmd txn :
  groups_ok (eget sid e) → group_room e room →
  judged sid e fuel keys raw v room is_create fl (Propose cmd txn) →
  ae_room_id cmd = room ∧ groups_step (eget sid e) cmd.
Proof using Type.
  intros Hok Hb (raw' & ev & _ & _ & _ & Hcase). pose proof (ready e room Hok Hb) as Hrdy.
  pose proof (rr_table _ _ _ _ Hrdy) as Ht.
  destruct Hcase as [[Hta _]|(found & pg & Hco & _ & Hadv)].
  - destruct Hta as [<- _ _ Hgs Hafter Hnext]. split; [done|]. split.
    + rewrite Hgs, Hnext. eapply alloc_ok_weaken, alloc_ok_nil, Ht. lia.
    + done.
    + by rewrite Hafter.
    + done.
  - apply advance_cases in Hadv as (<- & _ & _ & before & g & a & view & Hbefore & _ & Hcase).
    split; [done|].
    assert (∀ g, g ∈ pg → g < u64_modulus) as Hpg.
    { intros g' Hg'. eapply prev_groups_bound; [done|apply Hco|done]. }
    destruct (before_state_spec _ _ _ _ _ _ _ _ _ _ _ _ Hrdy Hpg Hbefore) as (_ & Ha & Hd & Hg).
    destruct (check_state_dependent _ _ _) as [[]|].
    + destruct Hcase as [Hrej _ _ _ (ag & after & a1 & cg & a2 & Haft & Hcur & Hsg & _ & Hgs & Hnext)].
      destruct (after_state_spec _ _ _ _ _ _ _ _ _ _ _ _ Hrdy Ha Hg Hd Haft)
        as (-> & Ha1 & Hag & _ & _).
      destruct (current_state_spec _ _ _ _ _ _ _ _ _ _ _ _ _ False Hrdy Ha1 Hag ltac:(done) Hcur)
        as (Ha2 & _ & _ & _).
      split; [|done|by rewrite Hsg|done]. rewrite Hgs, Hnext. by destruct a2.
    + destruct Hcase as (_ & Hsg & Hgs & Hnext). split; [|done|by rewrite Hsg|].
      * rewrite Hgs, Hnext. destruct a. eapply alloc_ok_weaken, Ha. lia.
      * intros Hm _. destruct is_create; [|by destruct (co_room _ _ _ _ _ _ _ _ _ _ _ Hco eq_refl); congruence].
        unfold before_state in Hbefore. injection Hbefore as _ _ <-. done.
Qed.

(** Shared by the theorem below and by the runs of the witnesses. *)
Lemma process_groups o raw v room is_create fl e r e' :
  commands_marked → groups_ok (eget sid e) → group_room e room →
  process_inner sid next_id fuel keys o raw v room is_create fl e = (r, e') →
  groups_ok (eget sid e') ∧
  ∀ room', grows (group_cell (eget sid e) room') (group_cell (eget sid e') room').
Proof using Type.
  intros Hmark Hok Hb Hp. apply process_effect in Hp as [[-> _]|(cmd & txn & resp & _ & Hj & Ha & _)];
    [split; [done|by intros ? ? ?]|split|done].
  - eapply groups_step_ok; [done| |done]. by eapply judged_step.
  - intros room'. eapply groups_step_grows, Ha. by eapply judged_step.
Qed.

(** C24 (lib.rs, [process_inner]): whatever an event is and however it ends,
    accepted, rejected, a duplicate, an error, or a proposal whose answer is
    lost, the state groups of the shard stay well formed (numbered below
    their room's allocator, deltas pointing at older groups of the same room
    over chains of fewer than 32), and no group that a stored event or room
    may name changes the state it stands for. *)
Theorem processing_keeps_groups o raw v room is_create fl e r e' :
  commands_marked → groups_ok (eget sid e) → group_room e room →
  process_inner sid next_id fuel keys o raw v room is_create fl e = (r, e') →
  groups_ok (eget sid e') ∧
  ∀ room' g s, denotes (group_cell (eget sid e) room') g s →
    denotes (group_cell (eget sid e') room') g s.
Proof using Type.
  intros Hmark Hok Hb Hp. destruct (process_groups _ _ _ _ _ _ _ _ _ Hmark Hok Hb Hp) as [Hok' Hgr].
  split; [done|]. intros room' g s. by apply denotes_grows.
Qed.

(** The event that a call accepted. *)
Definition accepted_now (e e' : engine) (id : string) (se : StoredEvent) : Prop :=
  event_cell (eget sid e) id = None ∧ event_cell (eget sid e') id = Some se ∧ se_rejected se = None.

Lemma accepted_case o raw v room is_create fl e r e' id se :
  commands_marked →
  process_inner sid next_id fuel keys o raw v room is_create fl e = (r, e') →
  accepted_now e e' id se →
  ∃ cmd txn resp raw' ev found pg, appended cmd resp (eget sid e) (eget sid e') ∧
    ip_event_id ev = id ∧ ae_event_id cmd = id ∧ ae_rejected cmd = None ∧
    (∃ n, se = accepted_event cmd n) ∧
    complete sid e keys raw raw' v room is_create ev found pg ∧
    stands_alone sid e v room is_create ev found ∧
    advance_room (local e) fuel room v is_create (f_relay fl) (f_txn fl)
      (room_cell (eget sid e) room) ev raw' pg = Ok (Propose cmd txn) ∧
    judged sid e fuel keys raw v room is_create fl (Propose cmd txn).
Proof using Type.
  intros Hmark Hp (Hnone & Hse & Hacc).
  apply process_effect in Hp as [[-> _]|(cmd & txn & resp & _ & Hj & Ha & _)]; [congruence| |done].
  assert (id = ae_event_id cmd) as ->.
  { destruct (decide (id = ae_event_id cmd)) as [|Hne]; [done|].
    rewrite (appended_events _ _ _ _ _ Ha Hne) in Hse. congruence. }
  destruct (ap_event _ _ _ _ Ha) as (n & _ & Hrec). rewrite Hrec in Hse. injection Hse as <-.
  unfold record_of in Hacc |- *. destruct (ae_rejected cmd) as [why|] eqn:Hrej; [done|].
  pose proof Hj as (raw' & ev & _ & _ & _ & [[Hta _]|(found & pg & Hco & Hst & Hadv)]).
  { destruct (ta_why _ _ _ _ _ Hta) as [why Hw]. congruence. }
  pose proof (advance_cases _ _ _ _ _ _ _ _ _ _ _ _ _ _ Hadv) as (_ & Hid & _).
  exists cmd, txn, resp, raw', ev, found, pg. split_and!; try done. by exists n.
Qed.

(** C22 (lib.rs, [process_inner] with saltator-core's rules): in a shard with
    well-formed state groups, which the pipeline keeps so (C24), a run of the
    pipeline on an event, [process_inner], puts an event on the timeline only
    if its signatures and format hold, everything it cites is stored, its auth
    events are the ones its rules ask for, and the authorisation rules accept
    it twice: in the state its auth events make, and in the state before it,
    which is the one its [prev_events] carry, or the resolution of theirs.
    Events that come with the import of a room or of a segment do not go
    through [process_inner], and nothing is claimed of them. *)
Theorem accepted_is_authorised o raw v room is_create fl e r e' id se :
  commands_marked → groups_ok (eget sid e) → group_room e room →
  process_inner sid next_id fuel keys o raw v room is_create fl e = (r, e') →
  accepted_now e e' id se →
  ∃ raw' ev found pg before view, ip_event_id ev = id ∧ raw_bytes raw' = Ok (se_raw se) ∧
    complete sid e keys raw raw' v room is_create ev found pg ∧
    stands_alone sid e v room is_create ev found ∧
    state_before sid e fuel room v is_create ev pg before ∧
    state_view (local e) ev v before = Ok view ∧
    check_state_dependent v (as_event ev) (view_of view) = Ok ().
Proof using Type.
  intros Hmark Hok Hb Hp Hacc.
  destruct (accepted_case _ _ _ _ _ _ _ _ _ _ _ Hmark Hp Hacc)
    as (cmd & txn & resp & raw' & ev & found & pg & Ha & <- & _ & Hrej & [n ->] & Hco & Hst & Hadv & _).
  apply advance_cases in Hadv as (_ & _ & Hraw & before & g & a & view & Hbefore & Hview & Hcase).
  exists raw', ev, found, pg, before, view. split_and!; [done|exact Hraw|done|done| |done|].
  - eapply before_state_spec; [by apply ready| |exact Hbefore]. intros g' Hg'.
    eapply prev_groups_bound; [done|apply Hco|done].
  - destruct (check_state_dependent _ _ _) as [[]|]; [done|].
    destruct Hcase as ([why Hw] & _). congruence.
Qed.

(** C23 (lib.rs, [process_inner], steps 4 to 5b): once an event is accepted,
    the group recorded with it stands for the state before it with the event
    itself at its key, and the room's current group for that state when the
    event is the only forward extremity, for the resolution of the states of
    all the extremities otherwise. *)
Theorem accepted_moves_state o raw v room is_create fl e r e' id se :
  commands_marked → groups_ok (eget sid e) → group_room e room →
  process_inner sid next_id fuel keys o raw v room is_create fl e = (r, e') →
  accepted_now e e' id se →
  ∃ ev pg before m,
    ip_event_id ev = id ∧ fetch_prevs (local e) (pdu_prev_events (ip_pdu ev)) = Ok (pg, []) ∧
    state_before sid e fuel room v is_create ev pg before ∧
    room_cell (eget sid e') room = Some m ∧
    rm_extremities m = btree (new_extremities (room_cell (eget sid e) room) ev) ∧
    (is_create = false ∨ pdu_state_key (ip_pdu ev) ≠ None →
      denotes (group_cell (eget sid e') room) (se_state_group_after se) (state_after ev before) ∧
      ∃ now, state_now sid e fuel room v ev (rm_extremities m) (state_after ev before) now ∧
        denotes (group_cell (eget sid e') room) (rm_current_group m) now).
Proof using Type.
  intros Hmark Hok Hb Hp Hacc.
  destruct (accepted_case _ _ _ _ _ _ _ _ _ _ _ Hmark Hp Hacc)
    as (cmd & txn & resp & raw' & ev & found & pg & Ha & <- & _ & Hrej & [n ->] & Hco & _ & Hadv & Hj).
  pose proof (judged_step _ _ _ _ _ _ _ _ Hok Hb Hj) as [Hroom Hstep].
  apply advance_cases in Hadv as (_ & _ & _ & before & g & a & view & Hbefore & _ & Hcase).
  destruct (check_state_dependent _ _ _) as [[]|]; [|destruct Hcase as ([why Hw] & _); congruence].
  destruct Hcase as [_ _ Hver Hext (ag & after & a1 & cg & a2 & Haft & Hcur & Hsg & Hcg & Hgs & Hnext)].
  pose proof (ready e room Hok Hb) as Hrdy.
  assert (∀ g, g ∈ pg → g < u64_modulus) as Hpg.
  { intros g' Hg'. eapply prev_groups_bound; [done|apply Hco|done]. }
  destruct (before_state_spec _ _ _ _ _ _ _ _ _ _ _ _ Hrdy Hpg Hbefore) as (Hsb & Ha0 & Hd & Hg).
  destruct (after_state_spec _ _ _ _ _ _ _ _ _ _ _ _ Hrdy Ha0 Hg Hd Haft) as (-> & Ha1 & Hag & _ & Hda).
  destruct (current_state_spec _ _ _ _ _ _ _ _ _ _ _ _ _ _ Hrdy Ha1 Hag Hda Hcur)
    as (_ & _ & Hgr & Hdc).
  assert (grows (put_rows (group_cell (eget sid e) room) (al_groups a2)) (group_cell (eget sid e') room)) as Hcells.
  { intros n' sg Hn'. rewrite <- Hroom in *.
    rewrite (appended_groups _ _ _ _ _ Ha (groups_step_rows _ _ Hstep)), Hgs. exact Hn'. }
  assert (∃ m, room_cell (eget sid e') room = Some m ∧ rm_extremities m = ae_new_extremities cmd ∧
    rm_current_group m = ae_new_current_group cmd) as (m & Hm & Hme & Hmc).
  { rewrite (appended_rooms _ _ _ _ _ Ha), decide_True by done. unfold meta_after. rewrite Hrej, Hver.
    destruct is_create; [by eexists|]. pose proof (co_room _ _ _ _ _ _ _ _ _ _ _ Hco eq_refl) as [m Hm].
    rewrite Hm. by eexists. }
  exists ev, pg, before, m. split_and!; [done|apply Hco|done|done|by rewrite Hme|].
  intros Hkey. rewrite Hme, Hmc, Hcg. cbn [accepted_event se_state_group_after]. rewrite Hsg. split.
  - eapply denotes_grows; [exact Hcells|]. eapply denotes_grows; [exact Hgr|]. by apply Hda.
  - destruct (Hdc Hkey) as (now & Hnow & Hden). exists now. split; [exact Hnow|].
    by eapply denotes_grows.
Qed.

(** ** Processing twice *)

(** Reading back what a cell holds. *)
Lemma event_held e id se : event_cell (eget sid e) id = Some se → event (local e) id = Ok (Some se).
Proof using Type.
  unfold event_cell, event, kv_get_typed. change (read_get (local e) T_EVENT id) with (eget sid e T_EVENT id).
  destruct (eget sid e T_EVENT id) as [b|]; [|done]. simpl. unfold dec_or. by intros ->.
Qed.

Lemma meta_held e room m : room_cell (eget sid e) room = Some m → RoomRead.meta (local e) room = Ok (Some m).
Proof using Type.
  unfold room_cell, RoomRead.meta, kv_get_typed.
  change (read_get (local e) T_ROOM room) with (eget sid e T_ROOM room).
  destruct (eget sid e T_ROOM room) as [b|]; [|done]. simpl. unfold dec_or. by intros ->.
Qed.

(** A held event is a duplicate, whatever the room looks like. *)
Lemma judge_held e raw v room is_create fl raw' pdu id :
  validated keys raw v = Ok (raw', pdu) → reference_event_id raw' v = Some id →
  is_Some (event_cell (eget sid e) id) →
  judge (local e) fuel keys raw v room is_create fl = Ok (Known id).
Proof using Type.
  intros Hval Hid [se Hse]. unfold judge. rewrite Hval, Hid. cbn [ok_or].
  by rewrite (event_held _ _ _ Hse).
Qed.

(** The room's version outlives every event of the room but a create event. *)
Lemma version_kept cmd resp f g room m :
  appended cmd resp f g → room_cell f room = Some m →
  (room = ae_room_id cmd → ae_rejected cmd = None → ae_create_version cmd = None) →
  ∃ m', room_cell g room = Some m' ∧ rm_version m' = rm_version m.
Proof using Type.
  intros Ha Hm Hv. rewrite (appended_rooms _ _ _ _ _ Ha). case_decide as Hr; [|by exists m].
  rewrite Hm. unfold meta_after. destruct (ae_rejected cmd) eqn:Hrej; [by eexists|].
  rewrite Hv by done. by eexists.
Qed.

Lemma classify_stable e e' raw v room is_create :
  classify (local e) raw = Ok (v, room, is_create) →
  (is_create = false → ∀ m, room_cell (eget sid e) room = Some m →
    ∃ m', room_cell (eget sid e') room = Some m' ∧ rm_version m' = rm_version m) →
  classify (local e') raw = Ok (v, room, is_create).
Proof using Type.
  intros Hc Hm. unfold classify in *. destruct (str_of raw "type") as [ty|]; [|done].
  destruct (_ && _); [exact Hc|].
  destruct (room_id_of raw) as [rid|]; [|done].
  destruct (RoomRead.meta (local e) rid) as [[m|]|] eqn:Hmeta; [|done..].
  cbn [storage_err map_err ok_or] in *. destruct (CoreEvent.parse (rm_version m)) eqn:Hp; [|done].
  injection Hc as <- <- <-. apply meta_read in Hmeta. destruct (Hm eq_refl m Hmeta) as (m' & Hm' & Hver).
  rewrite (meta_held _ _ _ Hm'). cbn [storage_err map_err ok_or]. by rewrite Hver, Hp.
Qed.

(** C25 (lib.rs, [ingest_pdu], [process_inner]): an event is processed once.
    After a call that changed the shard or reported an outcome, also when its
    proposal was committed but the answer lost, handing the same event in
    again finds it, answers with its id and changes nothing. *)
Theorem processed_once o o' raw fl fl' e r e' :
  commands_marked →
  ingest sid next_id fuel keys o fl raw e = (r, e') → (e' ≠ e ∨ is_ok r = true) →
  ∃ id, ingest sid next_id fuel keys o' fl' raw e' = (Ok (Duplicate id), e') ∧
    ∀ outcome, r = Ok outcome → outcome_event_id outcome = id.
Proof using Type.
  intros Hmark. unfold ingest, local_store.
  destruct (classify (local e) raw) as [[[v room] is_create]|] eqn:Hclass; [|by intros [= <- <-] [|]].
  unfold process_inner at 1. unfold local_store.
  destruct (judge (local e) _ _ _ _ _ _ _) as [d|] eqn:Hj; [|by intros [= <- <-] [|]].
  pose proof (judge_cases _ _ _ _ _ _ _ _ _ _ Hj) as Hcase. destruct d as [id|cmd txn].
  { intros [= <- <-] _. rewrite Hclass. destruct Hcase as (raw' & pdu & Hval & Hid & Hheld). exists id.
    unfold process_inner, local_store. rewrite (judge_held _ _ _ _ _ _ _ _ _ Hval Hid Hheld).
    split; [done|]. by intros ? [= <-]. }
  destruct Hcase as (raw' & ev & Hnew & Hval & Hid & Hcase). intros Hp Hdone.
  assert (ae_event_id cmd = ip_event_id ev ∧ (ae_room_id cmd = room) ∧
    (ae_rejected cmd = None → is_create = false → ae_create_version cmd = None)) as (Hcid & Hcroom & Hver).
  { destruct Hcase as [[Hta _]|(found & pg & _ & _ & Hadv)].
    - destruct Hta as [<- -> [why Hw] _ _ _]. split_and!; try done. congruence.
    - apply advance_cases in Hadv as (<- & -> & _ & before & g & a & view & _ & _ & Hc).
      split_and!; try done. intros Hr ->. destruct (check_state_dependent _ _ _) as [[]|].
      + by rewrite (li_version _ _ _ _ _ _ _ _ _ _ _ _ _ Hc).
      + destruct Hc as ([why Hw] & _). congruence. }
  rewrite <- Hcid in Hnew. apply propose_effect in Hp as [[-> ->]|(resp & Ha & Hr)];
    [by destruct Hdone| |done|done].
  exists (ip_event_id ev). destruct (ap_event _ _ _ _ Ha) as (n & Hresp & Hcell). rewrite Hcid in Hcell.
  rewrite (classify_stable e e' _ _ _ _ Hclass).
  2: { intros -> m Hm. eapply version_kept; [exact Ha|exact Hm|]. intros _ Hrej. by apply Hver. }
  unfold process_inner, local_store. erewrite judge_held; [|done|done|by eexists].
  split; [done|]. intros outcome ->. destruct Hr as [|Hr]; [done|].
  subst resp. unfold event_outcome, append_response in Hr. rewrite Hcid in Hr.
  destruct (ae_rejected cmd); destruct (event_id_ok _); by simplify_eq/=.
Qed.
End Spec.

(** ** The demo room *)

From S2P Require Import Demo AuthDemo RoomDemo PipelineDemo.

Lemma demo_marked : commands_marked.
Proof. intros []; discriminate. Qed.

Lemma empty_groups : groups_ok (eget demo_shard ∅).
Proof. split; [done| |done]. intros room n _. unfold group_cell. by case_decide. Qed.

(** Every step of a run has room for its groups. *)
Fixpoint run_fits (raws : list json_object) (e : engine) : bool :=
  match raws with
  | [] => true
  | raw :: raws =>
      match classify (local_store demo_shard e) raw with
      | Ok (_, room, _) => first_group (room_cell (eget demo_shard e) room) + 3 <? u64_modulus
      | Err _ => true
      end && run_fits raws (step raw e).2
  end.

Lemma run_groups raws e :
  groups_ok (eget demo_shard e) → run_fits raws e = true → groups_ok (eget demo_shard (run_pdus raws e)).
Proof.
  revert e. induction raws as [|raw raws IH]; intros e Hok; [done|].
  cbn [run_fits run_pdus foldl]. intros [Hfit Hrest]%andb_true_iff. apply IH; [|exact Hrest].
  unfold step, ingest. destruct (classify _ raw) as [[[v room] is_create]|]; [|done].
  destruct (process_inner _ _ _ _ _ _ _ _ _ _ _) as [r e'] eqn:Hp. cbn [snd].
  eapply (process_groups demo_shard); [apply demo_marked|done| |exact Hp]. by apply N.ltb_lt in Hfit.
Qed.

Definition forked_engine : engine := run_pdus forked ∅.

Lemma forked_groups : groups_ok (eget demo_shard forked_engine).
Proof. apply run_groups; [apply empty_groups|]. vm_compute. reflexivity. Qed.

(** A message of Alice's that cites both branches. *)
Definition call (o : raft_outcome) (raw : json_object) (is_create : bool) (e : engine) :=
  process_inner demo_shard demo_next 64 demo_keys o raw V11 demo_room is_create no_flags e.

Definition merged_engine : engine := (call Done p_merge false forked_engine).2.

Definition stored_at (e : engine) (id : string) : StoredEvent :=
  default (support_event {| ie_event_id := ""; ie_raw := ""; ie_depth := 0 |})
    (event_cell (eget demo_shard e) id).

Lemma merge_accepted :
  accepted_now demo_shard forked_engine merged_engine "$merge" (stored_at merged_engine "$merge").
Proof. split_and!; vm_compute; reflexivity. Qed.

Lemma forked_room : group_room demo_shard forked_engine demo_room.
Proof. vm_compute. reflexivity. Qed.

Lemma processing_keeps_groups_witness : groups_ok (eget demo_shard merged_engine).
Proof.
  eapply (processing_keeps_groups demo_shard demo_next 64 demo_keys Done p_merge V11 demo_room
    false no_flags forked_engine); [apply demo_marked|apply forked_groups|apply forked_room|].
  apply surjective_pairing.
Defined.

Lemma accepted_is_authorised_witness :
  ∃ raw' ev found pg before,
    ip_event_id ev = "$merge"%string ∧
    complete demo_shard forked_engine demo_keys p_merge raw' V11 demo_room false ev found pg ∧
    state_before demo_shard forked_engine 64 demo_room V11 false ev pg before.
Proof.
  destruct (accepted_is_authorised demo_shard demo_next 64 demo_keys Done p_merge V11 demo_room
    false no_flags forked_engine _ merged_engine _ _ demo_marked forked_groups forked_room
    (surjective_pairing _) merge_accepted) as (raw' & ev & found & pg & before & view & ? & _ & ? & _ & ? & _).
  exists raw', ev, found, pg, before. split_and!; assumption.
Defined.

Lemma accepted_moves_state_witness :
  ∃ s, denotes (group_cell (eget demo_shard merged_engine) demo_room)
    (se_state_group_after (stored_at merged_engine "$merge")) s.
Proof.
  destruct (accepted_moves_state demo_shard demo_next 64 demo_keys Done p_merge V11 demo_room
    false no_flags forked_engine _ merged_engine _ _ demo_marked forked_groups forked_room
    (surjective_pairing _) merge_accepted) as (ev & pg & before & m & _ & _ & _ & _ & _ & H).
  exists (state_after ev before). apply H. left. reflexivity.
Defined.

(** The proposal is committed, its answer lost, and the event sent again. *)
Definition lost_answer := ingest demo_shard demo_next 64 demo_keys Unknown no_flags p_merge forked_engine.

Lemma processed_once_witness :
  lost_answer.1 = Err ShardFailed ∧
  ∃ id, ingest demo_shard demo_next 64 demo_keys Done no_flags p_merge lost_answer.2
    = (Ok (Duplicate id), lost_answer.2).
Proof.
  split; [vm_compute; reflexivity|].
  destruct (processed_once demo_shard demo_next 64 demo_keys Unknown Done p_merge no_flags no_flags
    forked_engine lost_answer.1 lost_answer.2 demo_marked (surjective_pairing _)) as (id & H & _).
  - left. intros Heq. assert (event_cell (eget demo_shard lost_answer.2) "$merge" =
      event_cell (eget demo_shard forked_engine) "$merge") as Hc by (rewrite Heq; reflexivity).
    vm_compute in Hc. discriminate Hc.
  - exists id. exact H.
Defined.
