(* ===== verification/PipelineRoom.v ===== *)
(** * A room's graph under the pipeline (saltator-roomserver/src/lib.rs)

    Forward extremities over a run of events, what a create event does to a
    room that exists, and which state events a fork lets in. *)

From Stdlib Require Import Ascii.
From S2P Require Import Prelude Bytes Store Codec Json Shard ShardFacts Track.
From S2P Require Import RoomTypes RoomMachine RoomAppend RoomRead RoomCells.
From S2P Require Import CoreEvent PowerLevels Auth Order StateRes Pdu Pipeline.
From S2P Require Import PipelineFacts PipelineSpec.
From stdpp Require Import options.

Local Open Scope N_scope.

Section Room.
Context `{RC : RoomCodecs, JT : JsonText, SJ : SerdeJson, RU : Ruma, EC : EventCrypto, HR : Raft}.
Context `{!Codec (option LogId), !Codec StoredMembership, !Codec N}.
Context `{!Codec RuntimeCommand, !Codec RuntimeResponse}.
Context (sid : ShardId) (next_id : engine → LogId) (fuel : nat).

Abbreviation local e := {| r_shard := sid; r_engine := e |}.

(** ** Forward extremities *)

Definition id_of (ev : IdentifiedPdu) : string := ip_event_id ev.
Definition prevs_of (ev : IdentifiedPdu) : list string := pdu_prev_events (ip_pdu ev).

(** What is left of the extremities [base] after the events of [log]: those
    that no event cites, and the events that none cites. *)
Definition tips (base : gset string) (log : list IdentifiedPdu) : gset string :=
  (base ∪ list_to_set (id_of <$> log)) ∖ list_to_set (log ≫= prevs_of).

(** The extremities a room's record names. *)
Definition extremities_at (e : engine) (room : string) : option (list string) :=
  rm_extremities <$> room_cell (eget sid e) room.

(** A run of the pipeline on the shard from [e0] on, whatever made [e0], with
    the events it accepted into [room]; the keys may change on the way. *)
Inductive room_run (room : string) (e0 : engine) : engine → list IdentifiedPdu → Prop :=
  | run_start : room_run room e0 e0 []
  | run_skip e log keys o raw v room' is_create fl r e' :
      room_run room e0 e log →
      process_inner sid next_id fuel keys o raw v room' is_create fl e = (r, e') →
      room' ≠ room ∨ (∀ id se, ¬ accepted_now sid e e' id se) →
      room_run room e0 e' log
  | run_accept e log keys o raw v is_create fl r e' raw' ev se :
      room_run room e0 e log →
      process_inner sid next_id fuel keys o raw v room is_create fl e = (r, e') →
      accepted_now sid e e' (id_of ev) se → validated keys raw v = Ok (raw', ip_pdu ev) →
      room_run room e0 e' (log ++ [ev]).

(** Events once stored stay. *)
Lemma held_stays cmd resp f g id :
  appended cmd resp f g → f T_EVENT id ≠ None → g T_EVENT id ≠ None.
Proof using Type.
  intros Ha Hf. destruct (decide (id = ae_event_id cmd)) as [->|Hne].
  - destruct (ap_event _ _ _ _ Ha) as (n & _ & He). unfold event_cell in He.
    by destruct (g T_EVENT (ae_event_id cmd)).
  - by rewrite (ap_others _ _ _ _ Ha).
Qed.

Lemma process_held keys o raw v room is_create fl e r e' id :
  commands_marked → process_inner sid next_id fuel keys o raw v room is_create fl e = (r, e') →
  eget sid e T_EVENT id ≠ None → eget sid e' T_EVENT id ≠ None.
Proof using Type.
  intros Hmark Hp. apply process_effect in Hp as [[-> _]|(cmd & txn & resp & _ & _ & Ha & _)]; [done| |done].
  by eapply held_stays.
Qed.

(** What is cited is stored. *)
Lemma fetch_prevs_stored e ids gs id :
  fetch_prevs (local e) ids = Ok (gs, []) → id ∈ ids → eget sid e T_EVENT id ≠ None.
Proof using Type.
  unfold fetch_prevs. match goal with |- try_fold ?f _ _ = _ → _ => set (step := f) end.
  assert (∀ (gs0 gs : gset N) (m0 m : list string), try_fold step (gs0, m0) ids = Ok (gs, m) →
    (∃ m1, m = m0 ++ m1) ∧ (m = [] → ∀ id, id ∈ ids → eget sid e T_EVENT id ≠ None)) as H;
    [|intros Hf; by apply (H ∅ gs [] [] Hf)].
  clear gs id. induction ids as [|x ids IH]; intros gs0 gs m0 m; cbn [try_fold].
  { intros [= <- <-]. split; [by exists []; rewrite app_nil_r|]. set_solver. }
  unfold step at 1. destruct (event (local e) x) as [o|] eqn:Hx; [|done]. cbn [storage_err map_err].
  apply event_read in Hx as [Hcell _].
  assert (∀ gs1 m1, try_fold step (gs1, m0 ++ m1) ids = Ok (gs, m) → (m1 = [] → is_Some o) →
    (∃ m1, m = m0 ++ m1) ∧ (m = [] → ∀ id, id ∈ x :: ids → eget sid e T_EVENT id ≠ None)) as Hnext.
  { intros gs1 m1 [[m2 ->] Hin]%IH Ho. split; [exists (m1 ++ m2); by rewrite app_assoc|].
    intros Hm y [->|Hy]%elem_of_cons; [|by apply Hin]. apply app_nil in Hm as [[_ Hm1]%app_nil _].
    destruct (Ho Hm1) as [se ->]. unfold event_cell in Hcell. by destruct (eget sid e T_EVENT x). }
  destruct o as [se|]; [|intros H1; by apply (Hnext gs0 [x] H1)].
  assert (∀ gs1, try_fold step (gs1, m0) ids = Ok (gs, m) →
    (∃ m1, m = m0 ++ m1) ∧ (m = [] → ∀ id, id ∈ x :: ids → eget sid e T_EVENT id ≠ None)) as Hkeep.
  { intros gs1 H1. apply (Hnext gs1 []); [by rewrite app_nil_r|by exists se]. }
  destruct (se_state_group_after se =? 0); [|apply Hkeep].
  case_bool_decide; [intros H1; apply (Hnext gs0 [x] H1); by exists se|apply Hkeep].
Qed.

(** What the extremities are, along a run. *)
Record run_inv (room : string) (e0 e : engine) (log : list IdentifiedPdu) : Prop := {
  ri_held : ∀ ev, ev ∈ log → eget sid e T_EVENT (id_of ev) ≠ None;
  ri_cited : ∀ ev id, ev ∈ log → id ∈ prevs_of ev → eget sid e T_EVENT id ≠ None;
  ri_still : log = [] → extremities_at e room = extremities_at e0 room;
  ri_tips : log ≠ [] → extremities_at e room =
    Some (btree (tips (list_to_set (default [] (extremities_at e0 room))) log));
}.

Lemma tips_snoc base log ev :
  id_of ev ∉ (list_to_set (log ≫= prevs_of) : gset string) → id_of ev ∉ prevs_of ev →
  tips base (log ++ [ev]) = {[id_of ev]} ∪ (tips base log ∖ list_to_set (prevs_of ev)).
Proof using Type.
  intros H1 H2. unfold tips. rewrite fmap_app, bind_app, !list_to_set_app_L. cbn [fmap list_fmap mbind list_bind].
  rewrite app_nil_r. cbn [list_to_set]. rewrite (right_id_L ∅ (∪) {[id_of ev]}).
  apply set_eq. intros x. rewrite !elem_of_union, !elem_of_difference, !elem_of_union.
  rewrite elem_of_singleton, !elem_of_list_to_set. destruct (decide (x = id_of ev)) as [->|]; [|tauto].
  rewrite elem_of_list_to_set in H1. tauto.
Qed.

Lemma skip_extremities keys o raw v room room' is_create fl e r e' :
  commands_marked → process_inner sid next_id fuel keys o raw v room' is_create fl e = (r, e') →
  room' ≠ room ∨ (∀ id se, ¬ accepted_now sid e e' id se) →
  extremities_at e' room = extremities_at e room.
Proof using Type.
  intros Hmark Hp Hskip. unfold extremities_at.
  apply process_effect in Hp as [[-> _]|(cmd & txn & resp & _ & Hj & Ha & _)]; [done| |done].
  apply judged_ids in Hj as (Hroom & raw' & ev & Hid & Hnew & _).
  rewrite (appended_rooms _ _ _ _ _ Ha). case_decide as Hr; [|done]. unfold meta_after.
  destruct (ae_rejected cmd) as [why|] eqn:Hrej; [by destruct (room_cell (eget sid e) room)|].
  destruct Hskip as [Hne|Hno]; [congruence|]. destruct (ap_event _ _ _ _ Ha) as (n & _ & Hev).
  exfalso. eapply (Hno (ae_event_id cmd)). split_and!; [|exact Hev|by unfold record_of; rewrite Hrej].
  unfold event_cell. by rewrite Hid, Hnew.
Qed.

Lemma accept_extremities keys o raw v room is_create fl e r e' raw' ev se :
  commands_marked → process_inner sid next_id fuel keys o raw v room is_create fl e = (r, e') →
  accepted_now sid e e' (id_of ev) se → validated keys raw v = Ok (raw', ip_pdu ev) →
  extremities_at e' room = Some (btree (new_extremities (room_cell (eget sid e) room) ev)) ∧
  eget sid e T_EVENT (id_of ev) = None ∧
  ∀ id, id ∈ prevs_of ev → eget sid e T_EVENT id ≠ None.
Proof using Type.
  intros Hmark Hp Hacc Hval.
  destruct (accepted_case _ _ _ _ _ _ _ _ _ _ _ _ _ _ _ Hmark Hp Hacc)
    as (cmd & txn & resp & raw2 & ev2 & found & pg & Ha & Hid & _ & Hrej & _ & Hco & _ & Hadv & _).
  assert (ev2 = ev) as ->.
  { destruct ev2 as [id2 p2], ev as [id p]. unfold id_of in Hid. simpl in *.
    pose proof (co_valid _ _ _ _ _ _ _ _ _ _ _ Hco) as Hval2. simpl in Hval2. congruence. }
  pose proof (advance_cases _ _ _ _ _ _ _ _ _ _ _ _ _ _ Hadv)
    as (Hroom & _ & _ & before & g & a & view & _ & _ & Hc).
  destruct (check_state_dependent _ _ _) as [[]|]; [|destruct Hc as ([why Hw] & _); congruence].
  split_and!; [|apply Hco|].
  - unfold extremities_at. rewrite (appended_rooms _ _ _ _ _ Ha), decide_True by done.
    unfold meta_after. rewrite Hrej, (li_version _ _ _ _ _ _ _ _ _ _ _ _ _ Hc).
    rewrite <- (li_extremities _ _ _ _ _ _ _ _ _ _ _ _ _ Hc).
    destruct is_create; [done|]. by destruct (co_room _ _ _ _ _ _ _ _ _ _ _ Hco eq_refl) as [m ->].
  - intros id. eapply fetch_prevs_stored, Hco.
Qed.

Lemma extremities_before room e0 e log :
  let base := list_to_set (default [] (extremities_at e0 room)) in
  (log = [] → extremities_at e room = extremities_at e0 room) →
  (log ≠ [] → extremities_at e room = Some (btree (tips base log))) →
  list_to_set (default [] (extremities_at e room)) = tips base log.
Proof using Type.
  intros base Hs Ht. destruct log as [|ev log].
  - rewrite Hs by done. unfold tips. cbn [fmap list_fmap mbind list_bind list_to_set].
    by rewrite union_empty_r_L, difference_empty_L.
  - rewrite Ht by done. cbn [default from_option id]. apply set_eq. intros x.
    by rewrite elem_of_list_to_set, elem_of_btree.
Qed.

Lemma run_inv_holds room e0 e log :
  commands_marked → room_run room e0 e log → run_inv room e0 e log.
Proof using Type.
  intros Hmark. induction 1 as [|e log keys o raw v room' is_create fl r e' _ IH Hp Hskip
    |e log keys o raw v is_create fl r e' raw' ev se _ IH Hp Hacc Hval].
  - split; [set_solver..|done|done].
  - pose proof (λ id, process_held _ _ _ _ _ _ _ _ _ _ id Hmark Hp) as Hheld.
    pose proof (skip_extremities _ _ _ _ _ _ _ _ _ _ _ Hmark Hp Hskip) as Hx.
    destruct IH as [Hh Hc Hs Ht]. split; [naive_solver..| |]; rewrite Hx; [exact Hs|exact Ht].
  - pose proof (λ id, process_held _ _ _ _ _ _ _ _ _ _ id Hmark Hp) as Hheld.
    destruct (accept_extremities _ _ _ _ _ _ _ _ _ _ _ _ _ Hmark Hp Hacc Hval) as (Hx & Hnew & Hprevs).
    destruct IH as [Hh Hc Hs Ht]. split.
    + intros ev' [Hin|Hin]%elem_of_app; [by apply Hheld, Hh|]. apply list_elem_of_singleton in Hin as ->.
      destruct Hacc as (_ & Hse & _). unfold event_cell in Hse. by destruct (eget sid e' T_EVENT _).
    + intros ev' id [Hin|Hin]%elem_of_app Hid; [by eapply Hheld, Hc|].
      apply list_elem_of_singleton in Hin as ->. by apply Hheld, Hprevs.
    + by destruct log.
    + intros _. rewrite Hx. f_equal. f_equal. rewrite tips_snoc.
      * unfold new_extremities. f_equal. f_equal. rewrite <- (extremities_before room e0 e log Hs Ht).
        unfold extremities_at. by destruct (room_cell (eget sid e) room).
      * intros (id & Hid & Hin)%elem_of_list_to_set%list_elem_of_bind. by eapply Hc.
      * intros Hin. by eapply Hprevs.
Qed.

(** C26 (lib.rs, [process_inner], step 5b): over any run of the pipeline, from
    any state of the shard (a room still to be created, or one that was just
    imported or healed), and whatever is rejected, refused or repeated on the
    way, a room's forward extremities end as those it began with and the
    events the run accepted into it, less the ones that an event of the run
    cites: in order and each once, as soon as one event was accepted.  An
    import is not a step of such a run: it sets the extremities anew. *)
Theorem extremities_are_tips room e0 e log m :
  commands_marked → room_run room e0 e log → room_cell (eget sid e) room = Some m →
  let base := default [] (extremities_at e0 room) in
  (log = [] → rm_extremities m = base) ∧
  (log ≠ [] → rm_extremities m = btree (tips (list_to_set base) log)).
Proof using Type.
  intros Hmark Hrun Hm. destruct (run_inv_holds room e0 e log Hmark Hrun) as [_ _ Hs Ht].
  assert (extremities_at e room = Some (rm_extremities m)) as He by (unfold extremities_at; by rewrite Hm).
  rewrite He in Hs, Ht. split; [intros H; by rewrite <- (Hs H)|]. intros H. by injection (Ht H).
Qed.

(** ** Forks and state events *)

(** A state event whose
    [prev_events] span several state groups is never accepted, whatever the
    rules say: the group resolution allocates for the state before it is not
    stored yet when the delta over it looks its chain length up. *)
Theorem state_event_cannot_merge keys o raw v room fl e r e' raw' ev pg :
  commands_marked → groups_ok (eget sid e) → group_room sid e room →
  process_inner sid next_id fuel keys o raw v room false fl e = (r, e') →
  validated keys raw v = Ok (raw', ip_pdu ev) →
  pdu_state_key (ip_pdu ev) ≠ None →
  fetch_prevs (local e) (prevs_of ev) = Ok (pg, []) → size pg ≠ 1%nat →
  ∀ se, ¬ accepted_now sid e e' (id_of ev) se.
Proof using Type.
  intros Hmark Hok Hb Hp Hval Hkey Hprevs Hsize se Hacc.
  destruct (accepted_case _ _ _ _ _ _ _ _ _ _ _ _ _ _ _ Hmark Hp Hacc)
    as (cmd & txn & resp & raw2 & ev2 & found & pg2 & Ha & Hid & _ & Hrej & _ & Hco & _ & Hadv & _).
  pose proof (co_valid _ _ _ _ _ _ _ _ _ _ _ Hco) as Hval2.
  assert (ip_pdu ev2 = ip_pdu ev) as Heq by congruence.
  pose proof (co_prevs _ _ _ _ _ _ _ _ _ _ _ Hco) as Hprevs2. rewrite Heq in Hprevs2.
  unfold prevs_of in Hprevs. assert (pg2 = pg) as -> by congruence.
  apply advance_cases in Hadv as (Hroom & _ & _ & before & g & a & view & Hbefore & _ & Hc).
  destruct (check_state_dependent _ _ _) as [[]|]; [|destruct Hc as ([why Hw] & _); congruence].
  destruct (li_groups _ _ _ _ _ _ _ _ _ _ _ _ _ Hc) as (ag & after & a1 & cg & a2 & Haft & _).
  unfold after_state in Haft. rewrite Heq in Haft. destruct (pdu_state_key (ip_pdu ev)) as [sk|]; [|done].
  destruct (group_of (local e) room g) as [o1|] eqn:Hg; [|done].
  destruct o1 as [p|]; [|done].
  pose proof (ready sid e room Hok Hb) as Hrdy.
  assert (∃ s, alloc_full s {| al_next := first_group (room_cell (eget sid e) room); al_groups := [] |}
    = (g, a)) as [s Hal].
  { unfold before_state in Hbefore.
    assert (length (ascending pg) ≠ 1%nat) as Hlen.
    { unfold ascending. rewrite sort_by_perm. exact Hsize. }
    destruct (ascending pg) as [|g1 [|g2 gs]]; [|done|];
      (destruct (materialize_all _ _ _); [|done]; destruct (resolve_sets _ _ _ _ _) as [s|]; [|done];
       exists s; destruct (alloc_full s _); by injection Hbefore as _ -> ->). }
  apply (alloc_full_step (group_cell (eget sid e) room) (first_group (room_cell (eget sid e) room)) 0)
    in Hal as (-> & _);
    [|apply Hrdy|pose proof (rr_bound _ _ _ _ Hrdy); lia|apply alloc_ok_nil, Hrdy].
  cbn [al_next] in Hg. apply group_read in Hg; [|pose proof (rr_bound _ _ _ _ Hrdy); lia].
  apply (rr_table _ _ _ _ Hrdy) in Hg as [[_ ?] _]. lia.
Qed.

(** ** Creating a room that exists *)

(** The pipeline
    does not ask whether the room of a create event is new: a second create
    event that is accepted replaces the room's record, with its own version
    and id, and the bookkeeping of the backfilled history starts over. *)
Theorem create_refounds keys o raw v room fl e r e' id se m :
  commands_marked → process_inner sid next_id fuel keys o raw v room true fl e = (r, e') →
  room_cell (eget sid e) room = Some m → accepted_now sid e e' id se →
  ∃ m', room_cell (eget sid e') room = Some m' ∧ rm_version m' = version_str v ∧
    rm_create_event_id m' = id ∧ rm_history_frontier m' = [] ∧ rm_next_history_idx m' = 1 ∧
    rm_gap_markers m' = [].
Proof using Type.
  intros Hmark Hp Hm Hacc.
  destruct (accepted_case _ _ _ _ _ _ _ _ _ _ _ _ _ _ _ Hmark Hp Hacc)
    as (cmd & txn & resp & raw2 & ev & found & pg & Ha & _ & Hid & Hrej & _ & _ & _ & Hadv & _).
  apply advance_cases in Hadv as (Hroom & _ & _ & before & g & a & view & _ & _ & Hc).
  destruct (check_state_dependent _ _ _) as [[]|]; [|destruct Hc as ([why Hw] & _); congruence].
  rewrite (appended_rooms _ _ _ _ _ Ha), decide_True by done. unfold meta_after.
  rewrite Hrej, (li_version _ _ _ _ _ _ _ _ _ _ _ _ _ Hc). by eexists.
Qed.
End Room.

(** ** The demo room *)

From S2P Require Import Demo AuthDemo RoomDemo PipelineDemo.

Definition pdu_of (id : string) (raw : json_object) : IdentifiedPdu :=
  {| ip_event_id := id;
     ip_pdu := default {| pdu_room_id := None; pdu_sender := ""; pdu_origin_server_ts := 0;
       pdu_type := ""; pdu_state_key := None; pdu_content := []; pdu_auth_events := [];
       pdu_prev_events := []; pdu_depth := 0; pdu_hashes := None; pdu_signatures := [];
       pdu_unsigned := None |} (pdu_from_canonical raw) |}.

Definition created_engine : engine := (call Done p_create true ∅).2.
Definition joined_engine : engine := (call Done p_alice false created_engine).2.
Definition joined_log : list IdentifiedPdu := [pdu_of "$c" p_create; pdu_of "$alice" p_alice].

Lemma joined_run : room_run demo_shard demo_next 64 demo_room ∅ joined_engine joined_log.
Proof.
  eapply (run_accept _ _ _ _ _ created_engine [pdu_of "$c" p_create] demo_keys Done p_alice V11 false no_flags
    _ _ p_alice (pdu_of "$alice" p_alice) (stored_at joined_engine "$alice"));
    [|apply surjective_pairing|split_and!; vm_compute; reflexivity|vm_compute; reflexivity].
  eapply (run_accept _ _ _ _ _ ∅ [] demo_keys Done p_create V11 true no_flags
    _ _ p_create (pdu_of "$c" p_create) (stored_at created_engine "$c"));
    [|apply surjective_pairing|split_and!; vm_compute; reflexivity|vm_compute; reflexivity].
  apply run_start.
Qed.

Lemma extremities_are_tips_witness :
  ∃ m, room_cell (eget demo_shard joined_engine) demo_room = Some m ∧
    rm_extremities m = btree (tips ∅ joined_log) ∧ rm_extremities m = ["$alice"%string].
Proof.
  destruct (room_cell (eget demo_shard joined_engine) demo_room) as [m|] eqn:Hm;
    [|vm_compute in Hm; discriminate Hm].
  exists m. split_and!; [reflexivity| |vm_compute in Hm; injection Hm as <-; reflexivity].
  apply (extremities_are_tips demo_shard demo_next 64 demo_room ∅ joined_engine joined_log m
    demo_marked joined_run Hm). discriminate.
Defined.

(** Alice sets the avatar on top of both branches: nothing is wrong with the
    event, and the call fails. *)
Definition merging_state := call Done p_merge_state false forked_engine.

Lemma state_event_cannot_merge_witness :
  merging_state.1 = Err (Storage (Engine "state group missing")) ∧
  ∀ se, ¬ accepted_now demo_shard forked_engine merging_state.2 "$avatar" se.
Proof.
  split; [vm_compute; reflexivity|].
  apply (state_event_cannot_merge demo_shard demo_next 64 demo_keys Done p_merge_state V11 demo_room
    no_flags forked_engine merging_state.1 merging_state.2 p_merge_state (pdu_of "$avatar" p_merge_state)
    (default ∅ (fst <$> match fetch_prevs {| r_shard := demo_shard; r_engine := forked_engine |}
       ["$topic"; "$name"]%string with Ok x => Some x | Err _ => None end))
    demo_marked forked_groups forked_room (surjective_pairing _)); try (vm_compute; reflexivity).
  - vm_compute. discriminate.
  - vm_compute. discriminate.
Defined.

(** A second create event, of another version, by the room's server. *)
Definition refounding := process_inner demo_shard demo_next 64 demo_keys Done p_create2 V10 demo_room
  true no_flags forked_engine.

Lemma create_refounds_witness :
  ∃ m m', room_cell (eget demo_shard forked_engine) demo_room = Some m ∧ rm_version m = "11"%string ∧
    room_cell (eget demo_shard refounding.2) demo_room = Some m' ∧ rm_version m' = "10"%string ∧
    rm_create_event_id m' = "$c2"%string.
Proof.
  destruct (room_cell (eget demo_shard forked_engine) demo_room) as [m|] eqn:Hm;
    [|vm_compute in Hm; discriminate Hm].
  destruct (create_refounds demo_shard demo_next 64 demo_keys Done p_create2 V10 demo_room no_flags
    forked_engine refounding.1 refounding.2 "$c2"%string (stored_at refounding.2 "$c2") m
    demo_marked (surjective_pairing _) Hm) as (m' & Hm' & Hv & Hid & _).
  { split_and!; vm_compute; reflexivity. }
  exists m, m'. split_and!; [reflexivity|vm_compute in Hm; injection Hm as <-; reflexivity|exact Hm'|exact Hv|exact Hid].
Defined.
