(* ===== verification/MetaGroup.v ===== *)
(** * The metadata group (saltator-cluster/src/types.rs, lib.rs)

    The control plane's replicated key-value store: shard [Meta/0] with
    [MetaApp] as its state machine, and from schema version 2 a journalled
    change stream. *)

From Stdlib Require Import Ascii.
From S2P Require Import Prelude Bytes Store Codec Shard ShardFacts.
From stdpp Require Import options.

Inductive MetaCommand : Type :=
  | MetaSet (key : string) (value : bytes)
  | MetaDelete (key : string).

Record MetaResponse : Type := { previous : option bytes }.

Record MetaChange : Type := { changed_key : string }.

Definition T_KV : N := APP_TABLE_FIRST.
(** [seq (u64 BE) → MetaChange]. *)
Definition T_CHANGES : N := APP_TABLE_FIRST + 1.
Definition META_SCHEMA_VERSION : N := 3.

(** Postcard writes an enum's variant index first, so that a two-variant
    command never starts with the runtime's prefix byte. *)
Class MetaCodecs := {
  #[global] codec_meta_command :: Codec MetaCommand;
  #[global] codec_meta_response :: Codec MetaResponse;
  #[global] codec_meta_change :: Codec MetaChange;
  #[global] codec_meta_u32 :: Codec N;
  meta_command_marked : ∀ cmd : MetaCommand, app_command (enc cmd);
}.

Section App.
Context `{MC : MetaCodecs}.

(** The stored schema version, read through the apply context. *)
Definition stored_meta_schema : app N :=
  o ← ctx_get T_SCHEMA K_SCHEMA_VERSION;
  match o with
  | Some b => lift (dec_or "schema cell decode" b)
  | None => mret 1%N
  end.

(** The write of a command: the key it touched and the value before it. *)
Definition meta_write (cmd : MetaCommand) : app (string * option bytes) :=
  match cmd with
  | MetaSet key value =>
      prev ← ctx_get T_KV key;
      ctx_put T_KV key value;;
      mret (key, prev)
  | MetaDelete key =>
      prev ← ctx_get T_KV key;
      ctx_delete T_KV key;;
      mret (key, prev)
  end.

Definition meta_apply (command : bytes) : app bytes :=
  cmd ← lift (dec_or "meta command decode" command);
  '(key, prev) ← meta_write cmd;
  schema ← stored_meta_schema;
  (if (2 <=? schema)%N then
     let payload := enc {| changed_key := key |} in
     n ← ctx_emit payload;
     ctx_put T_CHANGES (be64 n) payload
   else mret ());;
  mret (enc {| previous := prev |}).

Definition meta_migrate (to : N) : app () :=
  if (to =? 2)%N then mret ()
  else if (to =? 3)%N then mret ()
  else fail (Engine "no migration registered for meta schema step").

(** [copy_from_slice(&k[..8])] panics on a shorter key, an error here; the
    row keys, written by [meta_apply] alone, have eight bytes. *)
Definition meta_replay (ctx : ReadCtx) (from_seq limit : N) :
    result store_error (list (N * bytes)) :=
  try_fold (λ out '(k, v),
    let? n := ok_or (from_be64 (str_take 8 k)) (Engine "seq key width") in
    Ok (out ++ [(n, v)]))
  [] (read_scan ctx T_CHANGES (be64 (add64 from_seq 1)) EmptyString limit false).

Definition MetaApp : ShardApp := {|
  app_schema_version := META_SCHEMA_VERSION;
  app_apply := meta_apply;
  app_migrate := meta_migrate;
  app_replay := meta_replay;
|}.

(** The app reads through [get] alone. *)
#[export] Instance meta_coherent : CoherentApp MetaApp.
Proof.
  split.
  - intros cmd. simpl. unfold meta_apply, meta_write, stored_meta_schema. solve_coherent.
  - intros to. simpl. unfold meta_migrate. solve_coherent.
Qed.
End App.
