(* ===== verification/Placement.v ===== *)
(** * Shard placement (saltator-cluster/src/placement.rs)

    The cluster's topology and roster, the pure roster transitions the
    control plane commits, and the assignment of replicas to shard groups
    and blobs by rendezvous hashing. *)

From Stdlib Require Import Ascii.
From S2P Require Import Prelude Order Store Codec Shard.
From stdpp Require Import options.

Local Open Scope N_scope.

Abbreviation NodeId := N (only parsing).

(** ** Topology and roster *)

Record ClusterConfig : Type := {
  room_shards : N;
  user_shards : N;
  replication_factor : N;
}.

Definition default_config : ClusterConfig :=
  {| room_shards := 1; user_shards := 1; replication_factor := 3 |}.

(** [0..n] *)
Definition range (n : N) : list N := N.of_nat <$> List.seq 0 (N.to_nat n).

Definition data_groups (c : ClusterConfig) : list N :=
  ((λ i, group {| keyspace := Room; index := i |}) <$> range (room_shards c))
  ++ ((λ i, group {| keyspace := User; index := i |}) <$> range (user_shards c))
  ++ [group {| keyspace := FedOut; index := 0 |}].

Inductive NodeStatus : Type := Active | Draining | Unreachable.

#[export] Instance node_status_eq_dec : EqDecision NodeStatus.
Proof. solve_decision. Defined.

Record NodeInfo : Type := { advertise_addr : string; status : NodeStatus }.

#[export] Instance node_info_eq_dec : EqDecision NodeInfo.
Proof. solve_decision. Defined.

Abbreviation Roster := (gmap N NodeInfo) (only parsing).

Definition active_nodes (r : Roster) : gset N :=
  dom (filter (λ p, status p.2 = Active) r).

Inductive RosterError : Type := UnknownNode | LastActiveNode | NotDraining.

#[export] Instance roster_error_eq_dec : EqDecision RosterError.
Proof. solve_decision. Defined.

(** [next.entry(node).and_modify(|i| i.status = s)] on a clone. *)
Definition with_status (s : NodeStatus) (node : NodeId) (r : Roster) : Roster :=
  alter (λ i, {| advertise_addr := advertise_addr i; status := s |}) node r.

Definition plan_drain (r : Roster) (node : NodeId) : result RosterError Roster :=
  let? info := ok_or (r !! node) UnknownNode in
  if bool_decide (status info = Active) && bool_decide (size (active_nodes r) ≤ 1)%nat
  then Err LastActiveNode
  else Ok (with_status Draining node r).

Definition plan_undrain (r : Roster) (node : NodeId) : result RosterError Roster :=
  match r !! node with
  | None => Err UnknownNode
  | Some _ => Ok (with_status Active node r)
  end.

Definition plan_mark_unreachable (r : Roster) (node : NodeId) : result RosterError Roster :=
  let? info := ok_or (r !! node) UnknownNode in
  if bool_decide (status info ≠ Active) then Ok r
  else if bool_decide (size (active_nodes r) ≤ 1)%nat then Err LastActiveNode
  else Ok (with_status Unreachable node r).

Definition plan_mark_reachable (r : Roster) (node : NodeId) : result RosterError Roster :=
  let? info := ok_or (r !! node) UnknownNode in
  if bool_decide (status info ≠ Unreachable) then Ok r
  else Ok (with_status Active node r).

Definition plan_removal (r : Roster) (node : NodeId) : result RosterError Roster :=
  let? info := ok_or (r !! node) UnknownNode in
  if bool_decide (status info ≠ Draining) then Err NotDraining
  else Ok (delete node r).

(** ** Rendezvous hashing *)

Definition wrapping_mul (a b : N) : N := wrap64 (a * b).

(** [score]: a splitmix64 mix of group and node. *)
Definition score (group node : N) : N :=
  let x := N.lxor (wrapping_mul group 0x9E3779B97F4A7C15)
                  (wrapping_mul node 0xD6E8FEB86659FD93) in
  let x := wrapping_mul (N.lxor x (N.shiftr x 30)) 0xBF58476D1CE4E5B9 in
  let x := wrapping_mul (N.lxor x (N.shiftr x 27)) 0x94D049BB133111EB in
  N.lxor x (N.shiftr x 31).

(** [blob_key]: FNV-1a over the bytes of the id, then a domain separator. *)
Fixpoint fnv1a (h : N) (s : bytes) : N :=
  match s with
  | EmptyString => h
  | String b s => fnv1a (wrapping_mul (N.lxor h (N_of_ascii b)) 0x00000100000001B3) s
  end.

Definition blob_key (blob_id : string) : N :=
  N.lxor (fnv1a 0xCBF29CE484222325 blob_id) 0x424C4F42424C4F42.

(** [|a, b| score(g, *b).cmp(&score(g, *a)).then(a.cmp(b))]: higher scores
    first, then lower ids. *)
Definition rank_cmp (key : N) : NodeId → NodeId → comparison :=
  cmp_lex (cmp_on (score key) (cmp_rev N.compare)) N.compare.

Definition ranked (key : N) (nodes : gset N) : list NodeId :=
  sort_by (rank_cmp key) (ascending nodes).

(** [assign] ranks for a group and [blob_replicas] for a blob: rank all,
    then [truncate]. *)
Definition top (key : N) (rf : nat) (nodes : gset N) : list NodeId :=
  take rf (ranked key nodes).

(** ** Placement *)

Abbreviation Placement := (gmap N (list NodeId)) (only parsing).

(** [Placement::replicas] *)
Definition replicas (p : Placement) (group : N) : list NodeId := default [] (p !! group).

(** [Placement::groups_for]: in ascending order of the group. *)
Definition groups_for (p : Placement) (node : NodeId) : list N :=
  ascending (dom (filter (λ e, node ∈ e.2) p)).

(** [rf.min(nodes.len()).max(1)] *)
Definition capped (rf : N) (nodes : gset N) : nat :=
  Nat.max (Nat.min (N.to_nat rf) (size nodes)) 1.

Definition room_rf (c : ClusterConfig) (rf_cap : option N) (nodes : gset N) : nat :=
  match rf_cap with
  | Some cap => Nat.max (N.to_nat cap) 1
  | None => capped (replication_factor c) nodes
  end.

Definition is_room (g : N) : bool :=
  match from_group g with
  | Some s => bool_decide (keyspace s = Room)
  | None => false
  end.

(** The size [assign] truncates the ranking of group [g] to. *)
Definition group_rf (c : ClusterConfig) (rf_cap : option N) (nodes : gset N) (g : N) : nat :=
  if is_room g then room_rf c rf_cap nodes else size nodes.

Definition assign (c : ClusterConfig) (rf_cap : option N) (nodes : gset N) : Placement :=
  foldl (λ groups g, <[g := top g (group_rf c rf_cap nodes g) nodes]> groups)
    ∅ (data_groups c).

Definition blob_replicas (blob_id : string) (rf : N) (nodes : gset N) : list NodeId :=
  top (blob_key blob_id) (capped rf nodes) nodes.

Definition may_evict (r : Roster) (node : NodeId) : bool := bool_decide (node ∈ active_nodes r).

Definition blob_quorum (replicas : nat) : nat := (replicas / 2 + 1)%nat.

(** * What placement promises

    The replica set of a group is the best-ranked [rf] active nodes, in
    order; a node that joins or leaves moves only itself (and, where the set
    was full, the one node it displaces); the roster transitions always
    leave a node to place on. *)

(** ** Rankings *)

#[export] Instance rank_cmp_lawful key : Lawful (rank_cmp key).
Proof.
  apply lawful_weak; [|].
  - apply weak_lex; [apply _|]. apply (weak_on id N.compare _).
  - intros a b. unfold rank_cmp, cmp_lex. destruct (cmp_on _ _ a b); try done.
    apply N.compare_eq.
Qed.

(** [a] ranks before [b] for [key]. *)
Definition outranks (key : N) (a b : NodeId) : Prop :=
  score key b < score key a ∨ score key a = score key b ∧ a < b.

Lemma outranks_cmp key a b : outranks key a b ↔ rank_cmp key a b = Lt.
Proof.
  unfold outranks, rank_cmp, cmp_lex, cmp_on, cmp_rev.
  destruct (N.compare_spec (score key b) (score key a)) as [H|H|H].
  - rewrite N.compare_lt_iff. lia.
  - split; [done|]. auto.
  - split; [|done]. lia.
Qed.

Lemma ranked_perm key nodes : ranked key nodes ≡ₚ elements nodes.
Proof. unfold ranked, ascending. by rewrite !sort_by_perm. Qed.

Lemma elem_of_ranked key nodes n : n ∈ ranked key nodes ↔ n ∈ nodes.
Proof. by rewrite ranked_perm, elem_of_elements. Qed.

Lemma ranked_length key nodes : length (ranked key nodes) = size nodes.
Proof. by rewrite ranked_perm. Qed.

Lemma ranked_nodup key nodes : NoDup (ranked key nodes).
Proof. rewrite ranked_perm. apply NoDup_elements. Qed.

Lemma ranked_sorted key nodes : StronglySorted (outranks key) (ranked key nodes).
Proof.
  pose proof (sort_by_sorted (cmp := rank_cmp key) (ascending nodes)) as HS.
  pose proof (ranked_nodup key nodes) as HN. unfold ranked in *.
  induction HS as [|x l Hl IH Hx]; [constructor|]. apply list.NoDup_cons in HN as [Hn HN].
  constructor; [by apply IH|]. apply list.Forall_forall. intros y Hy.
  rewrite outranks_cmp. eapply list.Forall_forall in Hx; [|done].
  unfold holds, cmp_le in Hx. destruct (rank_cmp key x y) eqn:E; try done.
  apply cmp_eq in E as ->. done.
Qed.

(** The ranking is determined by the set of nodes. *)
Lemma ranked_unique key nodes l :
  StronglySorted (outranks key) l → l ≡ₚ elements nodes → ranked key nodes = l.
Proof.
  intros Hl HP. unfold ranked, ascending. apply sort_by_unique; [|by rewrite !sort_by_perm, HP].
  clear HP. induction Hl as [|x l Hl IH Hx]; constructor; [done|].
  eapply list.Forall_impl; [done|]. intros y Hy%outranks_cmp. unfold holds, cmp_le. by rewrite Hy.
Qed.

Lemma strongly_sorted_take {A} (R : A → A → Prop) k l :
  StronglySorted R l → StronglySorted R (take k l).
Proof.
  intros H. revert k. induction H as [|x l Hl IH Hx]; intros [|k]; simpl; try constructor; [done|].
  by apply list.Forall_take.
Qed.

Lemma strongly_sorted_cut {A} (R : A → A → Prop) k l a b :
  StronglySorted R l → a ∈ take k l → b ∈ drop k l → R a b.
Proof.
  intros H. revert k. induction H as [|x l Hl IH Hx]; intros [|k]; simpl; try set_solver.
  intros [->|Ha]%elem_of_cons Hb; [|by eapply IH].
  eapply list.Forall_forall in Hx; [done|]. rewrite <-(take_drop k l). apply elem_of_app. by right.
Qed.

(** ** The best [rf] nodes *)

Lemma elem_of_top key rf nodes n : n ∈ top key rf nodes → n ∈ nodes.
Proof.
  unfold top. intros Hn. rewrite <-(elem_of_ranked key), <-(take_drop rf). apply elem_of_app. by left.
Qed.

Lemma top_length key rf nodes : length (top key rf nodes) = Nat.min rf (size nodes).
Proof. unfold top. by rewrite length_take, ranked_length. Qed.

Lemma top_nodup key rf nodes : NoDup (top key rf nodes).
Proof.
  pose proof (ranked_nodup key nodes) as H. rewrite <-(take_drop rf) in H.
  by apply list.NoDup_app in H as [? _].
Qed.

(** [l] is the list of the best [rf] of [nodes] for [key], best first. *)
Record best_of (key : N) (rf : nat) (nodes : gset N) (l : list NodeId) : Prop := {
  best_sorted : StronglySorted (outranks key) l;
  best_nodes : ∀ n, n ∈ l → n ∈ nodes;
  best_length : length l = Nat.min rf (size nodes);
  best_first : ∀ a b, a ∈ l → b ∈ nodes → b ∉ l → outranks key a b;
}.

Lemma top_best key rf nodes : best_of key rf nodes (top key rf nodes).
Proof.
  split.
  - apply strongly_sorted_take, ranked_sorted.
  - apply elem_of_top.
  - apply top_length.
  - intros a b Ha Hb Hn. eapply strongly_sorted_cut; [apply ranked_sorted|done|].
    rewrite <-(elem_of_ranked key), <-(take_drop rf) in Hb. apply elem_of_app in Hb as [Hb|Hb]; done.
Qed.

(** ** Replica sets *)

Lemma nonempty_size (nodes : gset N) : size nodes ≠ 0%nat ↔ nodes ≠ ∅.
Proof. rewrite size_non_empty_iff. split; intros H ?; apply H; [set_solver|by apply leibniz_equiv]. Qed.

Lemma assign_fold (f : N → list NodeId) gs (m : Placement) g :
  foldl (λ p g, <[g := f g]> p) m gs !! g = if decide (g ∈ gs) then Some (f g) else m !! g.
Proof.
  revert m. induction gs as [|g' gs IH]; intros m; cbn [foldl].
  { case_decide as H; [by apply elem_of_nil in H|done]. }
  rewrite IH. destruct (decide (g ∈ gs)) as [Hg|Hg].
  - rewrite (decide_True (P := g ∈ _ :: _)); [done|by right].
  - destruct (decide (g = g')) as [->|Hne].
    + rewrite lookup_insert_eq. rewrite (decide_True (P := g' ∈ _)); [done|by left].
    + rewrite lookup_insert_ne by done. rewrite (decide_False (P := g ∈ _)); [done|].
      intros [?|?]%elem_of_cons; done.
Qed.

Lemma replicas_assign c cap nodes g :
  replicas (assign c cap nodes) g =
    if decide (g ∈ data_groups c) then top g (group_rf c cap nodes g) nodes else [].
Proof.
  unfold replicas, assign.
  rewrite (assign_fold (λ g, top g (group_rf c cap nodes g) nodes)). by case_decide.
Qed.

Lemma room_rf_pos c cap nodes : (1 ≤ room_rf c cap nodes)%nat.
Proof. unfold room_rf, capped. destruct cap; lia. Qed.

Lemma group_rf_pos c cap nodes g : nodes ≠ ∅ → (1 ≤ group_rf c cap nodes g)%nat.
Proof.
  intros Hn. unfold group_rf. destruct (is_room g); [apply room_rf_pos|].
  assert (size nodes ≠ 0%nat) by (by rewrite nonempty_size). lia.
Qed.

(** A placed group's replicas are the best-ranked active
    nodes in rank order, as many as the replication factor asks for (all of
    them for user and fed-out groups, at most [replication_factor] or the
    debug cap for room groups), and never none while a node is active; a
    group that the topology does not have is unplaced. *)
Theorem assign_best c cap nodes g :
  (g ∈ data_groups c → best_of g (group_rf c cap nodes g) nodes (replicas (assign c cap nodes) g))
  ∧ (g ∈ data_groups c → nodes ≠ ∅ → replicas (assign c cap nodes) g ≠ [])
  ∧ (g ∉ data_groups c → replicas (assign c cap nodes) g = []).
Proof.
  rewrite replicas_assign. split_and!; intros Hg; [rewrite decide_True by done..|by rewrite decide_False].
  - apply top_best.
  - intros Hn Hnil. pose proof (top_length g (group_rf c cap nodes g) nodes) as HL.
    rewrite Hnil in HL. pose proof (group_rf_pos c cap nodes g Hn).
    assert (size nodes ≠ 0%nat) by (by rewrite nonempty_size). simpl in HL. lia.
Qed.

(** ** A node joins or leaves *)

Lemma ranked_without key nodes n :
  n ∉ nodes → filter (.≠ n) (ranked key ({[n]} ∪ nodes)) = ranked key nodes.
Proof.
  intros Hn. symmetry. apply ranked_unique.
  - apply sorted_filter, ranked_sorted.
  - rewrite ranked_perm, elements_union_singleton by done.
    rewrite filter_cons, decide_False by (by intros H; apply H).
    rewrite list_filter_all; [done|]. intros m Hm%elem_of_elements ->. done.
Qed.

Lemma filter_other_length (l : list N) n :
  NoDup l → (length l ≤ S (length (filter (.≠ n) l)))%nat.
Proof.
  induction 1 as [|x l Hx Hl IH]; [simpl; lia|]. rewrite filter_cons. case_decide as E; simpl; [lia|].
  subst x.
  rewrite list_filter_all; [done|]. by intros y Hy ->.
Qed.

(** [small] and [big] are the rankings' best before and after [n] joins:
    without [n] the new list is the start of the old one, at most one node
    is pushed off its end, and nothing moves unless [n] got a place. *)
Record moves_only (n : NodeId) (small big : list NodeId) : Prop := {
  mo_prefix : filter (.≠ n) big `prefix_of` small;
  mo_displaced : (length small ≤ S (length (filter (.≠ n) big)))%nat;
  mo_still : n ∉ big → big = small;
}.

Lemma top_moves_only key rf rf' nodes n :
  n ∉ nodes → (rf ≤ rf')%nat → (rf' = rf ∨ size nodes ≤ rf)%nat →
  moves_only n (top key rf nodes) (top key rf' ({[n]} ∪ nodes)).
Proof.
  intros Hn Hle Hrf.
  assert (size ({[n]} ∪ nodes) = S (size nodes)) as Hsz
    by (rewrite size_union, size_singleton by set_solver; lia).
  assert (filter (.≠ n) (top key rf' ({[n]} ∪ nodes)) `prefix_of` top key rf nodes) as Hpre.
  { assert (filter (.≠ n) (top key rf' ({[n]} ∪ nodes)) `prefix_of` ranked key nodes) as Hp.
    { rewrite <-(ranked_without key nodes n) by done. apply filter_prefix.
      exists (drop rf' (ranked key ({[n]} ∪ nodes))). unfold top. by rewrite take_drop. }
    apply prefix_take; [done|]. destruct Hrf as [->|Hrf].
    - etrans; [apply length_filter|]. rewrite top_length. lia.
    - apply prefix_length in Hp. rewrite ranked_length in Hp. lia. }
  split; [done|..].
  - pose proof (filter_other_length _ n (top_nodup key rf' ({[n]} ∪ nodes))) as H.
    rewrite top_length, Hsz in H. rewrite top_length. lia.
  - intros Hout. rewrite list_filter_all in Hpre by (by intros m Hm ->).
    apply prefix_length_eq; [done|]. rewrite !top_length, Hsz. lia.
Qed.

Lemma capped_grows rf (nodes : gset N) n : n ∉ nodes →
  (capped rf nodes ≤ capped rf ({[n]} ∪ nodes))%nat
  ∧ (capped rf ({[n]} ∪ nodes) = capped rf nodes ∨ size nodes ≤ capped rf nodes)%nat.
Proof. intros Hn. unfold capped. rewrite size_union, size_singleton by set_solver. lia. Qed.

(** When a node joins the active set (or, read the other way
    round, leaves it) every group and every blob keeps its other replicas in
    their order: at most the last of them gives way, and a group or blob the
    node does not enter keeps its replica list unchanged. *)
Theorem minimal_disruption c cap nodes n g blob rf :
  n ∉ nodes →
  moves_only n (replicas (assign c cap nodes) g) (replicas (assign c cap ({[n]} ∪ nodes)) g)
  ∧ moves_only n (blob_replicas blob rf nodes) (blob_replicas blob rf ({[n]} ∪ nodes)).
Proof.
  intros Hn. pose proof (λ r, capped_grows r nodes n Hn) as HC. split.
  - rewrite !replicas_assign. case_decide; [|by split; [apply prefix_nil|simpl; lia|]].
    apply top_moves_only; [done|..]; unfold group_rf, room_rf; destruct (is_room g), cap;
      try apply HC; rewrite ?size_union, ?size_singleton by set_solver; lia.
  - apply top_moves_only; [done|..]; apply HC.
Qed.

Lemma minimal_disruption_witness :
  replicas (assign default_config None {[1; 2; 3]}) 65536 = [1; 2; 3]
  ∧ moves_only 4 (replicas (assign default_config None {[1; 2; 3]}) 65536)
      (replicas (assign default_config None ({[4]} ∪ {[1; 2; 3]})) 65536).
Proof.
  split; [vm_compute; reflexivity|].
  refine (proj1 (minimal_disruption default_config None {[1; 2; 3]} 4 65536 EmptyString 3 _)).
  set_solver.
Defined.

(** ** Blobs *)

(** Two quorums of one replica set meet. *)
Lemma quorums_meet (l a b : list N) :
  NoDup a → NoDup b → a ⊆ l → b ⊆ l →
  (blob_quorum (length l) ≤ length a)%nat → (blob_quorum (length l) ≤ length b)%nat →
  ∃ n, n ∈ a ∧ n ∈ b.
Proof.
  intros Ha Hb Hal Hbl Qa Qb.
  destruct (decide (Exists (λ n, n ∈ b) a)) as [H|H]; [by apply list.Exists_exists in H|].
  exfalso. apply (not_Exists_Forall (λ n, n ∈ b)) in H.
  assert (NoDup (a ++ b)) as HN.
  { apply list.NoDup_app. split_and!; try done. intros x Hx.
    by apply (proj1 (list.Forall_forall _ _) H). }
  assert (length (a ++ b) ≤ length l)%nat as HL.
  { apply submseteq_length, NoDup_submseteq; [done|]. intros x [Hx|Hx]%elem_of_app; auto. }
  rewrite length_app in HL. unfold blob_quorum in *.
  pose proof (Nat.div_mod_eq (length l) 2). pose proof (Nat.mod_upper_bound (length l) 2). lia.
Qed.

(** ** Roster transitions *)

Lemma elem_of_active r n : n ∈ active_nodes r ↔ ∃ i, r !! n = Some i ∧ status i = Active.
Proof.
  unfold active_nodes. rewrite elem_of_dom. unfold is_Some. setoid_rewrite map_lookup_filter_Some. done.
Qed.

Lemma may_evict_active r n : may_evict r n = true ↔ ∃ i, r !! n = Some i ∧ status i = Active.
Proof. unfold may_evict. by rewrite bool_decide_eq_true, elem_of_active. Qed.

Lemma lookup_with_status s n r m :
  with_status s n r !! m =
    if decide (n = m) then (λ i, {| advertise_addr := advertise_addr i; status := s |}) <$> r !! m
    else r !! m.
Proof.
  unfold with_status. case_decide as H; [subst m; by rewrite lookup_alter_eq|by rewrite lookup_alter_ne].
Qed.

Lemma dom_with_status s n (r : Roster) : dom (with_status s n r) = dom r.
Proof. unfold with_status. apply dom_alter_L. Qed.

(** Taking a node out of service keeps the others in it. *)
Lemma active_others s n r m : m ≠ n → m ∈ active_nodes r → m ∈ active_nodes (with_status s n r).
Proof.
  intros Hne (i & Hi & Hs)%elem_of_active. apply elem_of_active. exists i.
  by rewrite lookup_with_status, decide_False.
Qed.

Lemma another_active r n : ¬ (size (active_nodes r) ≤ 1)%nat → ∃ m, m ≠ n ∧ m ∈ active_nodes r.
Proof.
  intros Hs. destruct (decide (active_nodes r ∖ {[n]} = ∅)) as [He|He].
  - exfalso. apply Hs. rewrite <-(size_singleton (C := gset N) n). apply subseteq_size.
    clear Hs. intros m Hm. destruct (decide (m = n)); set_solver.
  - apply set_choose_L in He as [m Hm]. exists m. set_solver.
Qed.

Lemma leave_floor s n r :
  ¬ (size (active_nodes r) ≤ 1)%nat → active_nodes (with_status s n r) ≠ ∅.
Proof.
  intros Hs He. destruct (another_active r n Hs) as (m & Hne & Hm).
  apply (active_others s n) in Hm; [|done]. set_solver.
Qed.

Lemma inactive_floor s n r i :
  r !! n = Some i → status i ≠ Active → active_nodes r ≠ ∅ → active_nodes (with_status s n r) ≠ ∅.
Proof.
  intros Hi Hs Hr He. apply set_choose_L in Hr as [m Hm].
  assert (m ≠ n). { intros ->. apply elem_of_active in Hm as (j & Hj & ?). congruence. }
  apply (active_others s n) in Hm; [|done]. set_solver.
Qed.

Lemma active_floor n r i : r !! n = Some i → active_nodes (with_status Active n r) ≠ ∅.
Proof.
  intros Hi He. enough (n ∈ active_nodes (with_status Active n r)) by set_solver.
  apply elem_of_active. eexists. by rewrite lookup_with_status, decide_True, Hi.
Qed.
