(* ===== verification/ControlPlane.v ===== *)
(** * The control plane (saltator-cluster/src/lib.rs, [MetadataHandle])

    The operations on the cluster's roster and placement, as the metadata
    leader runs them: reads of the applied state and proposals to the
    metadata group, one after another under the [updates] lock.  Each call
    into Raft may fail, and a failed proposal may still have been committed. *)

From Stdlib Require Import Ascii.
From S2P Require Import Prelude Bytes Store Codec Shard MetaGroup Placement.
From stdpp Require Import options.

Local Open Scope N_scope.

Inductive ClusterError : Type :=
  | ErrRaft
  | ErrStorage
  | ErrCodec
  | ErrRoster (e : RosterError).

Definition K_CONFIG : string := "cluster/config".
Definition K_ROSTER : string := "cluster/roster".
Definition K_PLACEMENT : string := "cluster/placement".

(** The metadata group as its leader sees it: the applied state, the voters
    of the group (its learners are Raft's own business: the handle never reads
    them), and how the next calls into Raft will fare; past the end of the
    list they are refused. *)
Record plane : Type := {
  p_engine : engine;
  p_voters : gset N;
  p_raft : list raft_outcome;
}.

Definition with_engine (e : engine) (p : plane) : plane :=
  {| p_engine := e; p_voters := p_voters p; p_raft := p_raft p |}.
Definition with_voters (v : gset N) (p : plane) : plane :=
  {| p_engine := p_engine p; p_voters := v; p_raft := p_raft p |}.
Definition with_raft (o : list raft_outcome) (p : plane) : plane :=
  {| p_engine := p_engine p; p_voters := p_voters p; p_raft := o |}.

(** A computation of the handle; an error keeps what was done before it. *)
Definition ctl (A : Type) : Type := plane → result ClusterError A * plane.

#[export] Instance ctl_ret : MRet ctl := λ A a p, (Ok a, p).
#[export] Instance ctl_bind : MBind ctl := λ A B f m p,
  match m p with (Ok a, p') => f a p' | (Err e, p') => (Err e, p') end.

Definition throw {A} (e : ClusterError) : ctl A := λ p, (Err e, p).

Definition of_result {A} (r : result ClusterError A) : ctl A := λ p, (r, p).

(** One call into Raft whose effect, when it takes place, is [f]. *)
Definition raft_call {A} (f : plane → option (A * plane)) : ctl A := λ p,
  match p_raft p with
  | [] | Refused :: _ =>
      (Err ErrRaft, with_raft (tail (p_raft p)) p)
  | o :: rest =>
      let p1 := with_raft rest p in
      match f p1 with
      | None => (Err ErrRaft, p1)
      | Some (a, p2) => (match o with Done => Ok a | _ => Err ErrRaft end, p2)
      end
  end.

Class PlaneCodecs := {
  #[global] codec_config :: Codec ClusterConfig;
  #[global] codec_roster :: Codec Roster;
  #[global] codec_placement :: Codec Placement;
}.

Section Handle.
Context `{MC : MetaCodecs} `{PC : PlaneCodecs} `{HR : Raft}.
Context `{!Codec (option LogId), !Codec StoredMembership}.
Context `{!Codec RuntimeCommand, !Codec RuntimeResponse}.

(** The log id Raft gives the next entry; the handle's own node id; and
    [rf_cap], set at most once at boot. *)
Context (next_id : engine → LogId) (self : NodeId) (rf_cap : option N).

(** [ShardHandle::propose]: the entry is committed and applied alone.  An
    apply error stops the state machine. *)
Definition propose (cmd : bytes) : ctl bytes := raft_call (λ p,
  match sm_apply METADATA MetaApp
          [{| log_id := next_id (p_engine p); payload := Normal cmd |}] (p_engine p) with
  | Ok (e', [r], _) => Some (r, with_engine e' p)
  | _ => None
  end).

Definition ensure_linearizable : ctl () := raft_call (λ p, Some (tt, p)).

Definition add_learner (node : NodeId) (addr : string) : ctl () := raft_call (λ p, Some (tt, p)).

Definition set_voters (voters : gset N) : ctl () :=
  raft_call (λ p, Some (tt, with_voters voters p)).

(** The source reads the voters from the last metrics that Raft published;
    they are taken to be current here. *)
Definition voter_ids : ctl (gset N) := λ p, (Ok (p_voters p), p).

(** ** Typed records *)

Definition write (cmd : MetaCommand) : ctl MetaResponse :=
  resp ← propose (enc cmd);
  of_result (ok_or (dec resp) ErrCodec).

Definition read_local (key : string) : ctl (option bytes) := λ p,
  (Ok (read_get {| r_shard := METADATA; r_engine := p_engine p |} T_KV key), p).

Definition read (key : string) : ctl (option bytes) :=
  ensure_linearizable;; read_local key.

Definition decode_blob {T} `{!Codec T} (b : option bytes) : result ClusterError (option T) :=
  match b with
  | Some b => let? t := ok_or (dec b) ErrCodec in Ok (Some t)
  | None => Ok None
  end.

Definition get_blob {T} `{!Codec T} (key : string) : ctl (option T) :=
  b ← read key; of_result (decode_blob b).

Definition get_blob_local {T} `{!Codec T} (key : string) : ctl (option T) :=
  b ← read_local key; of_result (decode_blob b).

Definition set_blob {T} `{!Codec T} (key : string) (value : T) : ctl () :=
  _ ← write (MetaSet key (enc value)); mret tt.

Definition cluster_config : ctl (option ClusterConfig) := get_blob K_CONFIG.

Definition roster : ctl Roster := o ← get_blob K_ROSTER; mret (default ∅ o).
Definition placement : ctl Placement := o ← get_blob K_PLACEMENT; mret (default ∅ o).
Definition placement_local : ctl Placement :=
  o ← get_blob_local K_PLACEMENT; mret (default ∅ o).
Definition roster_local : ctl Roster := o ← get_blob_local K_ROSTER; mret (default ∅ o).
Definition cluster_config_local : ctl (option ClusterConfig) := get_blob_local K_CONFIG.

(** ** Roster transitions *)

Definition write_roster (r : Roster) : ctl () :=
  config ← cluster_config;
  let p := assign (default default_config config) rf_cap (active_nodes r) in
  set_blob K_ROSTER r;;
  set_blob K_PLACEMENT p.

Definition of_plan (r : result RosterError Roster) : ctl Roster :=
  of_result (match r with Ok a => Ok a | Err e => Err (ErrRoster e) end).

Definition update_roster (plan : Roster → result RosterError Roster) : ctl Roster :=
  r ← roster;
  next ← of_plan (plan r);
  (if bool_decide (next ≠ r) then write_roster next else mret tt);;
  mret next.

Definition admit_node (node : NodeId) (addr : string) : ctl () :=
  add_learner node addr;;
  voters ← voter_ids;
  set_voters ({[node]} ∪ voters);;
  r ← roster;
  write_roster (<[node := {| advertise_addr := addr; status := Active |}]> r).

Definition drain_node (node : NodeId) : ctl Roster := update_roster (λ r, plan_drain r node).
Definition undrain_node (node : NodeId) : ctl Roster := update_roster (λ r, plan_undrain r node).

Definition remove_node (node : NodeId) : ctl Roster :=
  r ← roster;
  next ← of_plan (plan_removal r node);
  voters ← voter_ids;
  (if bool_decide (node ∈ voters) then set_voters (voters ∖ {[node]}) else mret tt);;
  write_roster next;;
  mret next.

(** [r[&node].status == s]; the plans only return rosters that hold [node]. *)
Definition has_status (s : NodeStatus) (node : NodeId) (r : Roster) : bool :=
  match r !! node with Some i => bool_decide (status i = s) | None => false end.

Definition mark_unreachable (node : NodeId) : ctl bool :=
  r ← update_roster (λ r, plan_mark_unreachable r node);
  mret (has_status Unreachable node r).

Definition mark_reachable (node : NodeId) : ctl bool :=
  r ← update_roster (λ r, plan_mark_reachable r node);
  mret (has_status Active node r).

Definition bootstrap_cluster (config : ClusterConfig) (self_addr : string) : ctl () :=
  set_blob K_CONFIG config;;
  write_roster {[self := {| advertise_addr := self_addr; status := Active |}]}.

(** The calls that change the control plane once it is founded. *)
Inductive call : Type :=
  | Admit (node : NodeId) (addr : string)
  | Drain (node : NodeId)
  | Undrain (node : NodeId)
  | Remove (node : NodeId)
  | MarkUnreachable (node : NodeId)
  | MarkReachable (node : NodeId).

Definition run_call (c : call) : ctl () :=
  match c with
  | Admit n a => admit_node n a
  | Drain n => _ ← drain_node n; mret tt
  | Undrain n => _ ← undrain_node n; mret tt
  | Remove n => _ ← remove_node n; mret tt
  | MarkUnreachable n => _ ← mark_unreachable n; mret tt
  | MarkReachable n => _ ← mark_reachable n; mret tt
  end.

End Handle.
