(* ===== verification/ControlPlaneSpec.v ===== *)
(** * The control plane keeps its records straight

    Whatever Raft does to its calls, a call of the control plane moves the
    stored roster along its plan or leaves it, never leaves the cluster
    without a node to place on, and on success leaves the placement that the
    roster implies - unless the roster already was what the plan asks for:
    then a placement that an earlier failure left behind stays behind. *)

From Stdlib Require Import Ascii.
From S2P Require Import Prelude Bytes Order Store Codec Shard ShardFacts.
From S2P Require Import MetaGroup Placement ControlPlane.
From stdpp Require Import options.

Local Open Scope N_scope.

(** ** Reasoning about the handle *)

Definition cwp {A} (m : ctl A) (Q : result ClusterError A → plane → Prop) (p : plane) : Prop :=
  let '(r, p') := m p in Q r p'.

Lemma cwp_ret {A} (a : A) (Q : result ClusterError A → plane → Prop) p :
  Q (Ok a) p → cwp (mret a) Q p.
Proof. done. Qed.

Lemma cwp_bind {A B} (m : ctl A) (f : A → ctl B) Q p :
  cwp m (λ r p', match r with Ok a => cwp (f a) Q p' | Err e => Q (Err e) p' end) p →
  cwp (m ≫= f) Q p.
Proof. unfold cwp, mbind, ctl_bind. by destruct (m p) as [[a|e] p']. Qed.

Lemma cwp_mono {A} (m : ctl A) (Q Q' : result ClusterError A → plane → Prop) p :
  (∀ r p', Q r p' → Q' r p') → cwp m Q p → cwp m Q' p.
Proof. unfold cwp. destruct (m p). auto. Qed.

Lemma cwp_result {A} (r : result ClusterError A) Q p : Q r p → cwp (of_result r) Q p.
Proof. done. Qed.

Section Spec.
Context `{MC : MetaCodecs} `{PC : PlaneCodecs} `{HR : Raft}.
Context `{!Codec (option LogId), !Codec StoredMembership}.
Context `{!Codec RuntimeCommand, !Codec RuntimeResponse}.
Context (next_id : engine → LogId) (self : NodeId) (rf_cap : option N).

(** A cell of the metadata table. *)
Definition kv (p : plane) (k : string) : option bytes :=
  p_engine p !! ctx_key METADATA T_KV k.

(** ** Writes *)

Lemma wp_stored_meta_schema env (Q : N → ApplyState → Prop) c :
  (∀ n, Q n c) → wp stored_meta_schema env Q c.
Proof.
  intros HQ. unfold stored_meta_schema. repeat wp_step.
  destruct (tget _ _ _ _); [by apply wp_lift|by apply wp_ret].
Qed.

Lemma meta_apply_set k v env c :
  wp (meta_apply (enc (MetaSet k v))) env (λ _ c',
    ∀ k', tget env c' T_KV k' = if decide (k = k') then Some v else tget env c T_KV k') c.
Proof.
  unfold meta_apply. rewrite dec_or_enc. apply wp_bind, wp_lift. intros ? [= <-].
  cbn [meta_write]. repeat wp_step. apply wp_stored_meta_schema. intros n.
  assert (∀ k', tget env (with_wb (wb_put (ctx_key (shard env) T_KV k) v (wb c)) c) T_KV k' =
    if decide (k = k') then Some v else tget env c T_KV k') as Hput.
  { intros k'. rewrite tget_put by done.
    destruct (decide (k = k')); [by rewrite decide_True|]. rewrite decide_False; [done|naive_solver]. }
  destruct (2 <=? n)%N; repeat wp_step; intros k'; [|apply Hput].
  rewrite tget_put_other by done. apply Hput.
Qed.

Lemma propose_set k v p :
  cwp (propose next_id (enc (MetaSet k v))) (λ r p',
    p_voters p' = p_voters p
    ∧ (∀ k', k' ≠ k → kv p' k' = kv p k')
    ∧ (kv p' k = Some v ∨ kv p' k = kv p k ∧ r = Err ErrRaft)) p.
Proof.
  unfold cwp, propose, raft_call.
  pose proof (sm_apply_command METADATA MetaApp (λ n _ c', ∀ k', tget (apply_env METADATA (p_engine p)) c' T_KV k' =
    if decide (k = k') then Some v else tget (apply_env METADATA (p_engine p)) (apply_init n) T_KV k')
    (next_id (p_engine p)) _ (p_engine p) (meta_command_marked (MetaSet k v))
    (λ n, meta_apply_set k v _ _)) as HA.
  destruct (p_raft p) as [|[] rest]; try (split_and!; by auto).
  all: cbn [p_engine with_raft];
    destruct (sm_apply _ _ _ _) as [[[e' rs] pub]|]; try (split_and!; by auto).
  all: destruct HA as (n & r & c & _ & -> & HQ & _ & Hcells).
  all: assert (∀ k', e' !! ctx_key METADATA T_KV k' = if decide (k = k') then Some v else kv p k') as He
    by (intros k'; rewrite Hcells by done; by rewrite HQ).
  all: unfold kv; cbn [p_engine with_engine]; split_and!; [done|..].
  all: first [intros k' Hk'; by rewrite He, decide_False | left; by rewrite He, decide_True].
Qed.

Lemma set_blob_spec {T} `{!Codec T} k (t : T) p :
  cwp (set_blob next_id k t) (λ r p',
    p_voters p' = p_voters p
    ∧ (∀ k', k' ≠ k → kv p' k' = kv p k')
    ∧ (kv p' k = Some (enc t) ∨ kv p' k = kv p k ∧ is_ok r = false)) p.
Proof.
  unfold set_blob, write. apply cwp_bind, cwp_bind. eapply cwp_mono; [|apply propose_set].
  intros r p' (Hv & Ho & Hk). destruct r as [resp|e].
  - assert (kv p' k = Some (enc t)) as Hk' by (destruct Hk as [?|[_ ?]]; done).
    apply cwp_result. destruct (dec resp); simpl; [apply cwp_ret|]; by auto.
  - split_and!; [done..|]. destruct Hk as [?|[? _]]; auto.
Qed.

Lemma get_blob_spec {T} `{!Codec T} k p :
  cwp (get_blob (T := T) k) (λ r p',
    p_engine p' = p_engine p ∧ p_voters p' = p_voters p
    ∧ ∀ o, r = Ok o → decode_blob (kv p k) = Ok o) p.
Proof.
  unfold get_blob, read, ensure_linearizable. apply cwp_bind, cwp_bind.
  unfold cwp at 1, raft_call. destruct (p_raft p) as [|[] rest]; done.
Qed.

(** ** The stored records *)

Record records (p : plane) (c : ClusterConfig) (r : Roster) (pl : Placement) : Prop := {
  rec_config : kv p K_CONFIG = Some (enc c);
  rec_roster : kv p K_ROSTER = Some (enc r);
  rec_placement : kv p K_PLACEMENT = Some (enc pl);
}.

Lemma records_engine p p' c r pl :
  p_engine p' = p_engine p → records p c r pl → records p' c r pl.
Proof. intros He [H1 H2 H3]. unfold kv in *. split; unfold kv; by rewrite He. Qed.

Lemma records_with_raft o p c r pl : records p c r pl → records (with_raft o p) c r pl.
Proof. by apply records_engine. Qed.

(** Local reads return the records. *)
Lemma get_blob_local_spec {T} `{!Codec T} k (t : T) p :
  kv p k = Some (enc t) → get_blob_local k p = (Ok (Some t), p).
Proof.
  intros Hk. unfold get_blob_local, read_local, mbind, ctl_bind, of_result.
  change (read_get _ T_KV k) with (kv p k). rewrite Hk. cbn [decode_blob]. by rewrite dec_enc.
Qed.

Lemma roster_local_spec p c r pl : records p c r pl → roster_local p = (Ok r, p).
Proof.
  intros [_ H _]. unfold roster_local, mbind, ctl_bind. by rewrite (get_blob_local_spec _ r).
Qed.

Lemma placement_local_spec p c r pl : records p c r pl → placement_local p = (Ok pl, p).
Proof.
  intros [_ _ H]. unfold placement_local, mbind, ctl_bind. by rewrite (get_blob_local_spec _ pl).
Qed.

Definition implied (c : ClusterConfig) (r : Roster) : Placement :=
  assign c rf_cap (active_nodes r).

(** How far the write of a roster and its placement got: not at all, half
    way, or through; only then does the caller hear of success. *)
Inductive progress (c : ClusterConfig) (r : Roster) (pl : Placement) (next : Roster) :
    Roster → Placement → bool → Prop :=
  | before : progress c r pl next r pl false
  | between : progress c r pl next next pl false
  | complete ok : progress c r pl next next (implied c next) ok.

Lemma write_roster_spec c r pl next p :
  records p c r pl →
  cwp (write_roster next_id rf_cap next) (λ res p',
    p_voters p' = p_voters p
    ∧ ∃ r' pl', records p' c r' pl' ∧ progress c r pl next r' pl' (is_ok res)) p.
Proof.
  intros Hrec. unfold write_roster, cluster_config.
  apply cwp_bind. eapply cwp_mono; [|apply get_blob_spec]. intros res p1 (He & Hv & Hc).
  apply (records_engine p p1) in Hrec; [|done].
  rewrite <-Hv. destruct res as [o|e]; [|split; [done|]; exists r, pl; split; [done|constructor]].
  specialize (Hc o eq_refl). destruct Hrec as [H1 H2 H3].
  assert (kv p K_CONFIG = Some (enc c)) as Hp by (rewrite <-H1; unfold kv; by rewrite He).
  rewrite Hp in Hc. cbn [decode_blob] in Hc. rewrite dec_enc in Hc. injection Hc as <-.
  cbn [default]. clear He Hp Hv p. apply cwp_bind. eapply cwp_mono; [|apply set_blob_spec].
  intros res p2 (<- & Ho & Hr).
  assert (∀ r', kv p2 K_ROSTER = Some (enc r') → records p2 c r' pl) as Hrec
    by (intros r' Hr'; split; [by rewrite Ho|done|by rewrite Ho]).
  destruct res as [[]|e].
  2:{ split; [done|]. destruct Hr as [Hr|[Hr _]].
      - exists next, pl. split; [by apply Hrec|constructor].
      - exists r, pl. split; [apply Hrec; congruence|constructor]. }
  assert (records p2 c next pl) as [G1 G2 G3] by (apply Hrec; by destruct Hr as [?|[_ ?]]).
  clear Hr Ho Hrec. eapply cwp_mono; [|apply set_blob_spec]. intros res p3 (<- & Ho & Hr).
  split; [done|].
  assert (∀ q, kv p3 K_PLACEMENT = Some (enc q) → records p3 c next q) as Hrec
    by (intros q Hq; split; [by rewrite Ho..|done]).
  destruct Hr as [Hr|[Hr Hres]].
  - eexists _, _. split; [by apply Hrec|constructor].
  - rewrite Hres. exists next, pl. split; [apply Hrec; congruence|constructor].
Qed.

(** ** The abstract calls *)

Definition call_plan (c : call) (r : Roster) : result RosterError Roster :=
  match c with
  | Admit n a => Ok (<[n := {| advertise_addr := a; status := Active |}]> r)
  | Drain n => plan_drain r n
  | Undrain n => plan_undrain r n
  | Remove n => plan_removal r n
  | MarkUnreachable n => plan_mark_unreachable r n
  | MarkReachable n => plan_mark_reachable r n
  end.

(** Whether a call writes a roster that is the one stored already. *)
Definition rewrites (c : call) : bool :=
  match c with Admit _ _ | Remove _ => true | _ => false end.

(** What one call may do to the records: a refused plan does nothing; a plan
    whose roster is the stored one is not written (unless the call always
    writes); any other is written as far as Raft lets it. *)
Inductive call_step (cfg : ClusterConfig) (r : Roster) (pl : Placement) (c : call) :
    Roster → Placement → bool → Prop :=
  | step_failed : call_step cfg r pl c r pl false
  | step_same : call_plan c r = Ok r → rewrites c = false → call_step cfg r pl c r pl true
  | step_written next r' pl' ok :
      call_plan c r = Ok next → (rewrites c = false → next ≠ r) →
      progress cfg r pl next r' pl' ok → call_step cfg r pl c r' pl' ok.

Definition voters_follow (p p' : plane) (c : call) (r r' : Roster) : Prop :=
  match c with
  | Remove n => (n ∈ dom r → n ∉ dom r' → n ∉ p_voters p') ∧ p_voters p' ⊆ p_voters p
  | Admit n _ => (r' ≠ r → n ∈ p_voters p') ∧ p_voters p ⊆ p_voters p'
  | _ => p_voters p' = p_voters p
  end.

Lemma roster_spec c r pl p :
  records p c r pl →
  cwp roster (λ res p', records p' c r pl ∧ p_voters p' = p_voters p ∧ (∀ r1, res = Ok r1 → r1 = r)) p.
Proof.
  intros Hrec. unfold roster. apply cwp_bind. eapply cwp_mono; [|apply get_blob_spec].
  intros res p1 (He & Hv & Hr). apply (records_engine p p1) in Hrec as Hrec1; [|done].
  destruct res as [o|e]; [|by split_and!]. apply cwp_ret. split_and!; [done..|].
  intros r1 [= <-]. specialize (Hr o eq_refl). rewrite (rec_roster _ _ _ _ Hrec) in Hr.
  cbn [decode_blob] in Hr. rewrite dec_enc in Hr. by injection Hr as <-.
Qed.

Lemma update_roster_spec cl c r pl p :
  rewrites cl = false → records p c r pl →
  cwp (update_roster next_id rf_cap (call_plan cl)) (λ res p',
    p_voters p' = p_voters p
    ∧ ∃ r' pl', records p' c r' pl' ∧ call_step c r pl cl r' pl' (is_ok res)) p.
Proof.
  intros Hw Hrec. unfold update_roster. apply cwp_bind.
  eapply cwp_mono; [|by apply roster_spec]. intros res p1 (Hrec1 & <- & Hr).
  assert (p_voters p1 = p_voters p1 ∧ ∃ r' pl', records p1 c r' pl' ∧ call_step c r pl cl r' pl' false)
    as Hfail by (split; [done|]; exists r, pl; split; [done|constructor]).
  destruct res as [r1|e]; [|done]. specialize (Hr r1 eq_refl) as ->.
  apply cwp_bind, cwp_result. destruct (call_plan cl r) as [next|e] eqn:Hplan; [|done].
  apply cwp_bind. case_bool_decide as Hne.
  - eapply cwp_mono; [|by apply write_roster_spec]. intros res p2 (<- & r' & pl' & Hrec2 & Hpr).
    assert (call_step c r pl cl r' pl' (is_ok res)) as Hs by (by eapply step_written).
    destruct res; [apply cwp_ret|]; (split; [done|]; by exists r', pl').
  - apply cwp_ret, cwp_ret. split; [done|]. exists r, pl. split; [done|].
    destruct (decide (next = r)) as [->|]; [|by destruct Hne]. by apply step_same.
Qed.

Lemma add_learner_spec n a p :
  cwp (add_learner n a) (λ _ p', p_engine p' = p_engine p ∧ p_voters p' = p_voters p) p.
Proof. unfold cwp, add_learner, raft_call. by destruct (p_raft p) as [|[] rest]. Qed.

Lemma set_voters_spec v p :
  cwp (set_voters v) (λ res p', p_engine p' = p_engine p
    ∧ (p_voters p' = v ∨ p_voters p' = p_voters p ∧ is_ok res = false)) p.
Proof.
  unfold cwp, set_voters, raft_call. destruct (p_raft p) as [|[] rest]; simpl; auto.
Qed.

(** Written calls, after what they do to the membership. *)
Lemma write_call_spec cl next c r pl p :
  records p c r pl → call_plan cl r = Ok next → rewrites cl = true →
  cwp (write_roster next_id rf_cap next) (λ res p', p_voters p' = p_voters p
    ∧ ∃ r' pl', records p' c r' pl' ∧ call_step c r pl cl r' pl' (is_ok res)
        ∧ (r' = r ∨ r' = next)) p.
Proof.
  intros Hrec Hplan Hw. eapply cwp_mono; [|by apply write_roster_spec].
  intros res p' (Hv & r' & pl' & Hrec' & Hpr). split; [done|]. exists r', pl'.
  split_and!; [done|..|by inversion Hpr; auto].
  eapply step_written; [done|by rewrite Hw|done].
Qed.

Lemma admit_spec n a c r pl p :
  records p c r pl →
  cwp (admit_node next_id rf_cap n a) (λ res p', ∃ r' pl', records p' c r' pl'
    ∧ call_step c r pl (Admit n a) r' pl' (is_ok res) ∧ voters_follow p p' (Admit n a) r r') p.
Proof.
  intros Hrec. unfold admit_node. apply cwp_bind. eapply cwp_mono; [|apply add_learner_spec].
  intros res p1 (He1 & Hv1). apply (records_engine p p1) in Hrec as Hrec1; [|done].
  assert (∀ p', records p' c r pl → p_voters p ⊆ p_voters p' → ∃ r' pl', records p' c r' pl'
    ∧ call_step c r pl (Admit n a) r' pl' false ∧ voters_follow p p' (Admit n a) r r') as Hfail.
  { intros p' Hr' Hs. exists r, pl. split_and!; [done|constructor|]. by split. }
  destruct res as [[]|e]; [|apply Hfail; [done|by rewrite Hv1]].
  apply cwp_bind. cbn [cwp voter_ids]. unfold cwp at 1, voter_ids.
  apply cwp_bind. eapply cwp_mono; [|apply set_voters_spec]. intros res p2 (He2 & Hv2).
  apply (records_engine p1 p2) in Hrec1 as Hrec2; [|done]. rewrite Hv1 in Hv2.
  assert (p_voters p ⊆ p_voters p2) as Hsub by (destruct Hv2 as [->|[-> _]]; set_solver).
  destruct res as [[]|e]; [|by apply Hfail].
  assert (n ∈ p_voters p2) as Hn by (destruct Hv2 as [->|[_ ?]]; [set_solver|done]).
  apply cwp_bind. eapply cwp_mono; [|by apply roster_spec]. intros res p3 (Hrec3 & Hv3 & Hr).
  rewrite <-Hv3 in Hsub, Hn. destruct res as [r1|e]; [|by apply Hfail].
  specialize (Hr r1 eq_refl) as ->.
  eapply cwp_mono; [|by eapply (write_call_spec (Admit n a))].
  intros res p' (Hv & r' & pl' & Hrec' & Hs & _). exists r', pl'. split_and!; [done..|].
  split; rewrite Hv; [done|done].
Qed.

Lemma remove_spec n c r pl p :
  records p c r pl →
  cwp (remove_node next_id rf_cap n) (λ res p', ∃ r' pl', records p' c r' pl'
    ∧ call_step c r pl (Remove n) r' pl' (is_ok res) ∧ voters_follow p p' (Remove n) r r') p.
Proof.
  intros Hrec. unfold remove_node. apply cwp_bind. eapply cwp_mono; [|by apply roster_spec].
  intros res p1 (Hrec1 & Hv1 & Hr).
  assert (∀ p', records p' c r pl → p_voters p' ⊆ p_voters p → ∃ r' pl', records p' c r' pl'
    ∧ call_step c r pl (Remove n) r' pl' false ∧ voters_follow p p' (Remove n) r r') as Hfail.
  { intros p' Hr' Hs. exists r, pl. split_and!; [done|constructor|]. by split. }
  destruct res as [r1|e]; [|apply Hfail; [done|by rewrite Hv1]]. specialize (Hr r1 eq_refl) as ->.
  apply cwp_bind, cwp_result. destruct (plan_removal r n) as [next|e] eqn:Hplan;
    [|apply Hfail; [done|by rewrite Hv1]].
  apply cwp_bind. unfold cwp at 1, voter_ids. apply cwp_bind.
  apply (cwp_mono _ (λ res p2, records p2 c r pl ∧ p_voters p2 ⊆ p_voters p
    ∧ (is_ok res = true → n ∉ p_voters p2))).
  - intros res p2 (Hrec2 & Hsub & Hn). destruct res as [[]|e]; [|by apply Hfail].
    specialize (Hn eq_refl). apply cwp_bind.
    eapply cwp_mono; [|by eapply (write_call_spec (Remove n))].
    intros res p3 (Hv3 & r' & pl' & Hrec3 & Hs & _). rewrite <-Hv3 in Hsub, Hn.
    destruct res as [[]|e]; [apply cwp_ret|]; exists r', pl'; by split_and!.
  - rewrite Hv1. case_bool_decide as Hin;
      [|apply cwp_ret; split_and!; [done|by rewrite Hv1|by rewrite Hv1]].
    eapply cwp_mono; [|apply set_voters_spec]. intros res p2 (He2 & Hv2).
    split; [by eapply records_engine|]. rewrite Hv1 in Hv2.
    destruct Hv2 as [->|[-> Hres]]; split; [set_solver..|]. intros Hok. congruence.
Qed.

(** C37 (refinement): each call of the control plane, whatever Raft makes of
    its proposals, takes the stored records along one abstract step: a refused
    plan changes nothing, an accepted one is written roster first, and a call
    that reports success has also written the placement its roster implies,
    unless it had nothing to change.  A node leaves the roster only after it
    lost its vote, and enters it only after it got one. *)
Theorem control_plane_step cl c r pl p :
  records p c r pl →
  cwp (run_call next_id rf_cap cl) (λ res p', ∃ r' pl', records p' c r' pl'
    ∧ call_step c r pl cl r' pl' (is_ok res) ∧ voters_follow p p' cl r r') p.
Proof.
  intros Hrec. destruct cl as [n a|n|n|n|n|n]; cbn [run_call].
  1: by apply admit_spec.
  3: { apply cwp_bind. eapply cwp_mono; [|by apply remove_spec].
       intros [] p' Hp'; [by apply cwp_ret|done]. }
  all: apply cwp_bind.
  3, 4: unfold mark_unreachable, mark_reachable; apply cwp_bind.
  all: eapply cwp_mono; [|first [by apply (update_roster_spec (Drain n))
    | by apply (update_roster_spec (Undrain n)) | by apply (update_roster_spec (MarkUnreachable n))
    | by apply (update_roster_spec (MarkReachable n))]].
  all: intros [] p' (Hv & r' & pl' & Hrec' & Hs); repeat apply cwp_ret; exists r', pl'; done.
Qed.

(** ** There is always somewhere to place *)

Lemma plan_floor cl r next :
  active_nodes r ≠ ∅ → call_plan cl r = Ok next → active_nodes next ≠ ∅.
Proof.
  intros Hr. destruct cl as [n a|n|n|n|n|n]; cbn [call_plan];
    unfold plan_drain, plan_undrain, plan_removal, plan_mark_unreachable, plan_mark_reachable.
  1: { intros [= <-] He. enough (n ∈ active_nodes (<[n:={| advertise_addr := a; status := Active |}]> r))
         by set_solver. apply elem_of_active. eexists. by rewrite lookup_insert_eq. }
  all: destruct (r !! n) as [i|] eqn:Hi; cbn [ok_or]; [|done]; repeat case_bool_decide; cbn [andb];
    intros [= <-]; eauto using leave_floor, inactive_floor, active_floor.
  intros He. apply set_choose_L in Hr as [m Hm].
  assert (m ≠ n). { intros ->. apply elem_of_active in Hm as (j & Hj & ?). congruence. }
  enough (m ∈ active_nodes (delete n r)) by set_solver.
  apply elem_of_active in Hm as (j & Hj & ?). apply elem_of_active. exists j.
  by rewrite lookup_delete_ne.
Qed.

(** The records of a founded cluster: a roster with an active node, and the
    placement of such a roster (this one, or an earlier one). *)
Definition founded (c : ClusterConfig) (p : plane) : Prop :=
  ∃ r pl r0, records p c r pl ∧ active_nodes r ≠ ∅
    ∧ active_nodes r0 ≠ ∅ ∧ pl = implied c r0.

Lemma call_step_founded c r pl cl r' pl' ok r0 :
  call_step c r pl cl r' pl' ok → active_nodes r ≠ ∅ →
  active_nodes r0 ≠ ∅ → pl = implied c r0 →
  active_nodes r' ≠ ∅ ∧ ∃ r0', active_nodes r0' ≠ ∅ ∧ pl' = implied c r0'.
Proof.
  intros Hs Hr Hr0 Hpl. destruct Hs as [| |next r' pl' ok Hplan _ Hpr]; [by eauto..|].
  pose proof (plan_floor _ _ _ Hr Hplan) as Hn. destruct Hpr; by eauto.
Qed.

(** A history: calls, each with what Raft makes of its proposals. *)
Definition run_history (h : list (call * list raft_outcome)) (p : plane) : plane :=
  foldl (λ p '(cl, o), (run_call next_id rf_cap cl (with_raft o p)).2) p h.

Lemma founded_history c h p : founded c p → founded c (run_history h p).
Proof.
  unfold run_history. revert p. induction h as [|[cl o] h IH]; intros p Hp; [done|]. cbn [foldl].
  apply IH. destruct Hp as (r & pl & r0 & Hrec & Hr & Hr0 & Hpl).
  apply (records_engine p (with_raft o p)) in Hrec; [|done].
  pose proof (control_plane_step cl c r pl _ Hrec) as Hs. unfold cwp in Hs.
  destruct (run_call next_id rf_cap cl (with_raft o p)) as [res p'].
  destruct Hs as (r' & pl' & Hrec' & Hs & _). cbn [snd].
  destruct (call_step_founded _ _ _ _ _ _ _ _ Hs Hr Hr0 Hpl) as (? & r0' & ? & ?).
  by exists r', pl', r0'.
Qed.

(** After any history of control-plane calls, with any failures
    of Raft in between, the stored roster still has an active node and the
    stored placement gives every data group of the topology at least one
    replica. *)
Theorem always_placed c h p :
  founded c p →
  ∃ r pl, records (run_history h p) c r pl ∧ active_nodes r ≠ ∅
    ∧ ∀ g, g ∈ data_groups c → replicas pl g ≠ [].
Proof.
  intros Hp. destruct (founded_history c h p Hp) as (r & pl & r0 & Hrec & Hr & Hr0 & ->).
  exists r, (implied c r0). split_and!; [done..|]. intros g Hg.
  by apply (assign_best c rf_cap (active_nodes r0) g).
Qed.

(** Bootstrapping founds the cluster. *)
Lemma bootstrap_founds c addr p :
  cwp (bootstrap_cluster next_id self rf_cap c addr) (λ res p', is_ok res = true → founded c p') p.
Proof.
  unfold bootstrap_cluster. apply cwp_bind. eapply cwp_mono; [|apply set_blob_spec].
  intros [[]|e] p1 (_ & _ & Hc); [|done].
  assert (kv p1 K_CONFIG = Some (enc c)) as Hcfg by (by destruct Hc as [?|[_ ?]]). clear Hc.
  unfold write_roster, cluster_config. apply cwp_bind. eapply cwp_mono; [|apply get_blob_spec].
  intros [o|e] p2 (He & _ & Ho); [|done]. specialize (Ho o eq_refl). rewrite Hcfg in Ho.
  cbn [decode_blob] in Ho. rewrite dec_enc in Ho. injection Ho as <-. cbn [default].
  set (r := {[self := _]} : Roster).
  assert (kv p2 K_CONFIG = Some (enc c)) as Hc2 by (unfold kv; by rewrite He).
  apply cwp_bind. eapply cwp_mono; [|apply set_blob_spec]. intros [[]|e] p3 (_ & Ho3 & Hr3); [|done].
  assert (kv p3 K_ROSTER = Some (enc r)) as Hros by (by destruct Hr3 as [?|[_ ?]]).
  eapply cwp_mono; [|apply set_blob_spec]. intros [[]|e] p4 (_ & Ho4 & Hr4); [|done]. intros _.
  assert (active_nodes r ≠ ∅) as Hact.
  { intros Hemp. enough (self ∈ active_nodes r) by set_solver. apply elem_of_active.
    eexists. unfold r. by rewrite lookup_singleton_eq. }
  exists r, (implied c r), r. split_and!; [|done..]. split.
  - rewrite Ho4, Ho3; done.
  - by rewrite Ho4.
  - by destruct Hr4 as [?|[_ ?]].
Qed.

(** ** What a retry does not repair *)

Lemma plan_drain_again r n i :
  r !! n = Some i → status i = Draining → plan_drain r n = Ok r.
Proof.
  intros Hi Hs. unfold plan_drain. rewrite Hi. cbn [ok_or]. rewrite Hs. cbn [andb].
  rewrite bool_decide_false by done. cbn [andb]. f_equal. apply map_eq. intros m.
  rewrite lookup_with_status. case_decide as Hm; [|done]. subst m. rewrite Hi. cbn. f_equal.
  destruct i as [a st]. cbn in *. by subst st.
Qed.

(** Once a node is stored as draining, draining it again writes
    nothing, however often it is retried and whatever Raft does.  So when a
    drain failed after its roster was written and before its placement was,
    retrying it reports success and leaves the node among the replicas of its
    groups, until some other call changes the roster. *)
Theorem drain_retry_writes_nothing n c r pl p h :
  records p c r pl → (∃ i, r !! n = Some i ∧ status i = Draining) →
  records (run_history ((λ o, (Drain n, o)) <$> h) p) c r pl
  ∧ p_engine (run_history ((λ o, (Drain n, o)) <$> h) p) = p_engine p.
Proof.
  intros Hrec (i & Hi & Hs). unfold run_history. revert p Hrec.
  induction h as [|o h IH]; intros p Hrec; [done|]. cbn [fmap list_fmap foldl].
  assert (p_engine (run_call next_id rf_cap (Drain n) (with_raft o p)).2 = p_engine p) as He.
  { enough (cwp (run_call next_id rf_cap (Drain n)) (λ _ p', p_engine p' = p_engine p) (with_raft o p))
      as Hc by (unfold cwp in Hc; by destruct (run_call _ _ _ _)).
    cbn [run_call]. apply cwp_bind. unfold drain_node, update_roster. apply cwp_bind.
    unfold roster. apply cwp_bind. eapply cwp_mono; [|apply get_blob_spec].
    intros [o1|e] p1 (He1 & _ & Ho); [|done]. specialize (Ho o1 eq_refl).
    change (kv (with_raft o p) K_ROSTER) with (kv p K_ROSTER) in Ho.
    rewrite (rec_roster _ _ _ _ Hrec) in Ho. cbn [decode_blob] in Ho. rewrite dec_enc in Ho.
    injection Ho as <-. cbn [default]. apply cwp_ret, cwp_bind.
    change (id r) with r.
    rewrite (plan_drain_again r n i) by done. apply cwp_result, cwp_bind.
    rewrite bool_decide_false by (intros H; by apply H). by repeat apply cwp_ret. }
  destruct (IH (run_call next_id rf_cap (Drain n) (with_raft o p)).2) as [H1 H2].
  { by eapply records_engine. }
  split; [done|]. by rewrite H2.
Qed.

(** The failure detector moves nodes between active and unreachable only: it
    adds and removes none, and keeps every drain. *)
Lemma detector_keeps_drains n next r cl m :
  cl = MarkUnreachable n ∨ cl = MarkReachable n → call_plan cl r = Ok next →
  dom next = dom r
  ∧ has_status Draining m next = has_status Draining m r
  ∧ advertise_addr <$> next !! m = advertise_addr <$> r !! m.
Proof.
  intros [-> | ->]; cbn [call_plan]; unfold plan_mark_unreachable, plan_mark_reachable;
    destruct (r !! n) as [i|] eqn:Hi; try done; cbn [ok_or]; repeat case_bool_decide;
    intros [= <-]; try done.
  all: rewrite dom_with_status; unfold has_status; rewrite !lookup_with_status; (split; [done|]);
    case_decide as Hm; [|done]; subst m; rewrite Hi; cbn [fmap option_fmap option_map status advertise_addr];
    (split; [|done]).
  all: by match goal with H : status _ = _ |- _ => rewrite H end.
Qed.
End Spec.

(** ** A two-node cluster, for the witnesses

    Concrete codecs of the control-plane records, and a cluster that is
    founded on node 1, admits node 2, and drains it while Raft fails between
    the two writes. *)

From S2P Require Import Demo.

Definition codec_gmap {A} (CA : Codec A) : Codec (gmap N A).
Proof.
  refine (codec_iso (codec_list (codec_pair codec_nat CA)) map_to_list list_to_map _).
  abstract (intros m; apply list_to_map_to_list).
Defined.

Definition codec_meta_cmd : Codec MetaCommand.
Proof.
  refine (codec_iso (codec_sum (codec_pair codec_string codec_string) codec_string)
    (λ c, match c with MetaSet k v => inl (k, v) | MetaDelete k => inr k end)
    (λ x, match x with inl (k, v) => MetaSet k v | inr k => MetaDelete k end) _).
  abstract (by intros []).
Defined.

Definition codec_meta_resp : Codec MetaResponse.
Proof.
  refine (codec_iso (codec_option codec_string) previous (λ o, {| previous := o |}) _).
  abstract (by intros []).
Defined.

Definition codec_meta_chg : Codec MetaChange.
Proof.
  refine (codec_iso codec_string changed_key (λ o, {| changed_key := o |}) _).
  abstract (by intros []).
Defined.

#[export] Instance demo_meta_codecs : MetaCodecs.
Proof.
  refine {| codec_meta_command := codec_meta_cmd; codec_meta_response := codec_meta_resp;
            codec_meta_change := codec_meta_chg; codec_meta_u32 := codec_nat |}.
  by intros [].
Defined.

Definition codec_status : Codec NodeStatus.
Proof.
  refine (codec_iso codec_nat
    (λ s, match s with Active => 0 | Draining => 1 | Unreachable => 2 end)
    (λ n, if n =? 0 then Active else if n =? 1 then Draining else Unreachable) _).
  abstract (by intros []).
Defined.

Definition codec_info : Codec NodeInfo.
Proof.
  refine (codec_iso (codec_pair codec_string codec_status)
    (λ i, (advertise_addr i, status i))
    (λ '(a, s), {| advertise_addr := a; status := s |}) _).
  abstract (by intros []).
Defined.

Definition codec_cfg : Codec ClusterConfig.
Proof.
  refine (codec_iso (codec_pair codec_nat (codec_pair codec_nat codec_nat))
    (λ c, (room_shards c, (user_shards c, replication_factor c)))
    (λ '(a, (b, r)), {| room_shards := a; user_shards := b; replication_factor := r |}) _).
  abstract (by intros []).
Defined.

#[export] Instance demo_plane_codecs : PlaneCodecs := {|
  codec_config := codec_cfg;
  codec_roster := codec_gmap codec_info;
  codec_placement := codec_gmap (codec_list codec_nat);
|}.

Definition demo_next : engine → @LogId demo_raft := λ _, 1%N.

Definition all_done : list raft_outcome := replicate 12 Done.

Definition blank : plane := {| p_engine := ∅; p_voters := {[1]}; p_raft := all_done |}.

Definition founded_plane : plane := (bootstrap_cluster demo_next 1 None default_config "a:1" blank).2.

Definition two_nodes : plane :=
  (run_call demo_next None (Admit 2 "b:1") (with_raft all_done founded_plane)).2.

(** The roster is read and written, the config read, and then Raft refuses
    the placement. *)
Definition half_drained : plane :=
  (run_call demo_next None (Drain 2) (with_raft [Done; Done; Done; Refused] two_nodes)).2.

Definition room_group : N := group {| keyspace := Room; index := 0 |}.

(** What node 2 is in the stored roster, and whether the room group is
    placed on it. *)
Definition seen (p : plane) : option NodeStatus * bool :=
  let '(r, _) := roster_local p in
  let '(pl, _) := placement_local p in
  (match r with Ok r => status <$> r !! 2 | Err _ => None end,
   match pl with Ok pl => bool_decide (2 ∈ replicas pl room_group) | Err _ => false end).

Example cluster_life :
  (seen two_nodes, seen half_drained,
   seen (run_call demo_next None (Drain 2) (with_raft all_done half_drained)).2,
   is_ok (run_call demo_next None (Drain 2) (with_raft all_done half_drained)).1)
  = ((Some Active, true), (Some Draining, true), (Some Draining, true), true).
Proof. vm_compute. reflexivity. Qed.

(** The same cluster migrated to schema 3, and a round of node 1's detector
    in which node 2 does not answer. *)
Definition v3_nodes : plane :=
  with_raft all_done (with_engine
    (<[ctx_key METADATA T_SCHEMA K_SCHEMA_VERSION := enc 3]> (p_engine two_nodes)) two_nodes).

Lemma cwp_run {A} (m : ctl A) Q p : cwp m Q p → Q (m p).1 (m p).2.
Proof. unfold cwp. by destruct (m p). Qed.

Lemma demo_founded : founded None default_config founded_plane.
Proof.
  apply (cwp_run _ _ _ (bootstrap_founds demo_next 1 None default_config "a:1" blank)).
  vm_compute. reflexivity.
Qed.

Lemma founded_call cl o p :
  founded None default_config p →
  founded None default_config (run_call demo_next None cl (with_raft o p)).2.
Proof. apply (founded_history demo_next None default_config [(cl, o)]). Qed.

Lemma half_drained_founded : founded None default_config half_drained.
Proof. apply founded_call, founded_call, demo_founded. Qed.

(** What [seen] shows of the records. *)
Lemma seen_records p c r pl :
  records p c r pl →
  seen p = (status <$> r !! 2, bool_decide (2 ∈ replicas pl room_group)).
Proof.
  intros Hrec. unfold seen. by rewrite (roster_local_spec p c r pl), (placement_local_spec p c r pl).
Qed.

Lemma control_plane_step_witness :
  ∃ r pl, records two_nodes default_config r pl ∧ ∃ r' pl',
    records half_drained default_config r' pl'
    ∧ call_step None default_config r pl (Drain 2) r' pl' false.
Proof.
  assert (founded None default_config two_nodes) as (r & pl & _ & Hrec & _)
    by apply founded_call, demo_founded.
  exists r, pl. split; [done|].
  pose proof (cwp_run _ _ _ (control_plane_step demo_next None (Drain 2) default_config r pl
    (with_raft [Done; Done; Done; Refused] two_nodes) (records_with_raft _ _ _ _ _ Hrec)))
    as (r' & pl' & Hrec' & Hs & _).
  exists r', pl'. split; [done|]. exact Hs.
Defined.

Lemma always_placed_witness :
  ∃ r pl, records (run_history demo_next None
      [(Admit 2 "b:1", all_done); (Drain 2, [Done; Done; Done; Refused]); (Remove 2, all_done)]
      founded_plane) default_config r pl
    ∧ active_nodes r ≠ ∅ ∧ replicas pl room_group ≠ [].
Proof.
  destruct (always_placed demo_next None default_config
    [(Admit 2 "b:1", all_done); (Drain 2, [Done; Done; Done; Refused]); (Remove 2, all_done)]
    founded_plane demo_founded) as (r & pl & H1 & H2 & H3).
  exists r, pl. split_and!; [done..|]. apply H3. vm_compute. by left.
Defined.

Lemma drain_retry_writes_nothing_witness :
  ∃ r pl, records half_drained default_config r pl
    ∧ records (run_history demo_next None [(Drain 2, all_done); (Drain 2, all_done)] half_drained)
        default_config r pl
    ∧ status <$> r !! 2 = Some Draining ∧ 2 ∈ replicas pl room_group.
Proof.
  destruct half_drained_founded as (r & pl & _ & Hrec & _). exists r, pl. split; [done|].
  pose proof (seen_records _ _ _ _ Hrec) as Hseen.
  assert (seen half_drained = (Some Draining, true)) as Hs by (vm_compute; reflexivity).
  rewrite Hs in Hseen. injection Hseen as H1 H2. symmetry in H1, H2.
  apply bool_decide_eq_true in H2. split; [|split; assumption].
  refine (proj1 (drain_retry_writes_nothing demo_next None 2 default_config r pl half_drained
    [all_done; all_done] Hrec _)).
  apply fmap_Some in H1 as (i & Hi & Hd). exists i. split; [exact Hi|symmetry; exact Hd].
Defined.
