(* ===== verification/Liveness.v ===== *)
(** * Dead-node detection (saltator-cluster/src/liveness.rs)

    The hysteresis tracker and one round of the detector that the metadata
    leader runs.  Instants and durations are numbers of one clock;
    [duration_since] saturates at zero. *)

From Stdlib Require Import Ascii.
From S2P Require Import Prelude Bytes Order Store Codec Shard ShardFacts MetaGroup Placement.
From S2P Require Import ControlPlane ControlPlaneSpec.
From stdpp Require Import options.

Local Open Scope N_scope.

Definition RECOVERY_STREAK : N := 3.

Inductive Verdict : Type := VMarkUnreachable | VMarkReachable | VNone.

#[export] Instance verdict_eq_dec : EqDecision Verdict.
Proof. solve_decision. Defined.

Record Observed : Type := { failing_since : option N; ok_streak : N }.

#[export] Instance observed_eq_dec : EqDecision Observed.
Proof. solve_decision. Defined.

Definition observed_default : Observed := {| failing_since := None; ok_streak := 0 |}.

Record Tracker : Type := { grace : N; nodes : gmap N Observed }.

Definition tracker_new (g : N) : Tracker := {| grace := g; nodes := ∅ |}.

Definition with_nodes (m : gmap N Observed) (t : Tracker) : Tracker :=
  {| grace := grace t; nodes := m |}.

Definition reset (t : Tracker) : Tracker := with_nodes ∅ t.

Definition observe (node : NodeId) (st : NodeStatus) (ok : bool) (now : N) (t : Tracker) :
    Verdict * Tracker :=
  let entry := default observed_default (nodes t !! node) in
  let removed := with_nodes (delete node (nodes t)) t in
  let set o := with_nodes (<[node := o]> (nodes t)) t in
  match st with
  | Draining => (VNone, removed)
  | Active =>
      if ok then (VNone, removed)
      else
        let since := default now (failing_since entry) in
        if grace t <=? now - since then (VMarkUnreachable, removed)
        else (VNone, set {| failing_since := Some since; ok_streak := 0 |})
  | Unreachable =>
      if negb ok then (VNone, set {| failing_since := None; ok_streak := 0 |})
      else
        let streak := ok_streak entry + 1 in
        if RECOVERY_STREAK <=? streak then (VMarkReachable, removed)
        else (VNone, set {| failing_since := None; ok_streak := streak |})
  end.

Definition retain (r : Roster) (t : Tracker) : Tracker :=
  with_nodes (filter (λ p, is_Some (r !! p.1)) (nodes t)) t.

(** ** One round of [spawn]'s loop *)

(** What a round meets: whether this node leads, what each ping returned and
    when. *)
Record Round : Type := {
  leads : bool;
  ping : NodeId → bool;
  clock : NodeId → N;
}.

Section Detector.
Context `{MC : MetaCodecs} `{PC : PlaneCodecs} `{HR : Raft}.
Context `{!Codec (option LogId), !Codec StoredMembership}.
Context `{!Codec RuntimeCommand, !Codec RuntimeResponse}.
Context (next_id : engine → LogId) (self : NodeId) (rf_cap : option N).

(** [match m.await { Ok(..) => log, Err(e) => log }] *)
Definition logged {A} (m : ctl A) : ctl () := λ p, let '(_, p') := m p in (Ok tt, p').

Definition act (v : Verdict) (node : NodeId) : ctl () :=
  match v with
  | VMarkUnreachable => logged (mark_unreachable next_id rf_cap node)
  | VMarkReachable => logged (mark_reachable next_id rf_cap node)
  | VNone => mret tt
  end.

Definition visit (o : Round) (t : Tracker) (node : NodeId) (info : NodeInfo) : ctl Tracker :=
  if node =? self then
    (if bool_decide (status info = Unreachable)
     then logged (mark_reachable next_id rf_cap node) else mret tt);;
    mret t
  else
    let '(v, t') := observe node (status info) (ping o node) (clock o node) t in
    act v node;; mret t'.

(** [for (id, info) in &roster]: in ascending order of the id. *)
Fixpoint visit_all (o : Round) (t : Tracker) (l : list NodeId) (r : Roster) : ctl Tracker :=
  match l with
  | [] => mret t
  | node :: l =>
      match r !! node with
      | Some info => t' ← visit o t node info; visit_all o t' l r
      | None => visit_all o t l r
      end
  end.

Definition detector_round (o : Round) (t : Tracker) (was_leader : bool) : ctl (Tracker * bool) :=
  if negb (leads o) then mret (reset t, false)
  else
    let t := if was_leader then t else reset t in
    λ p, match stored_schema_version METADATA (p_engine p) with
         | Ok stored =>
             if 3 <=? stored then
               match roster_local p with
               | (Ok r, _) =>
                   (t' ← visit_all o t (ascending (dom r)) r; mret (retain r t', true)) p
               | (Err _, _) => (Ok (t, true), p)
               end
             else (Ok (t, true), p)
         | Err _ => (Ok (t, true), p)
         end.
End Detector.

(** * When the failure detector speaks

    A node is condemned only after failing without a break for the grace
    period, and is condemned by then; it is restored only after three answers
    in a row, and is restored by then; and a round of the detector touches
    neither the members of the cluster nor an operator's drain. *)

(** ** Traces of a tracker *)

Inductive event : Type :=
  | EObserve (node : NodeId) (st : NodeStatus) (ok : bool) (now : N)
  | EReset
  | ERetain (r : Roster).

Definition feed (t : Tracker) (e : event) : Verdict * Tracker :=
  match e with
  | EObserve n st ok now => observe n st ok now t
  | EReset => (VNone, reset t)
  | ERetain r => (VNone, retain r t)
  end.

Definition run (g : N) (tr : list event) : Tracker :=
  foldl (λ t e, (feed t e).2) (tracker_new g) tr.

(** The events that bear on what the tracker knows of [n]. *)
Definition about (n : NodeId) (e : event) : Prop :=
  match e with
  | EObserve m _ _ _ => m = n
  | EReset => True
  | ERetain r => r !! n = None
  end.

#[export] Instance about_dec n e : Decision (about n e).
Proof. destruct e; simpl; apply _. Defined.

Definition failing (n : NodeId) (e : event) : Prop := ∃ now, e = EObserve n Active false now.
Definition answering (n : NodeId) (e : event) : Prop := ∃ now, e = EObserve n Unreachable true now.

Definition history (n : NodeId) (tr : list event) : list event := filter (about n) tr.

(** [n] has failed without a break since [t0], its record says. *)
Definition failing_from (n : NodeId) (t0 : N) (h : list event) : Prop :=
  ∃ pre post, h = pre ++ EObserve n Active false t0 :: post ∧ Forall (failing n) post.

(** The last [k] events about [n] are answers. *)
Definition answered (n : NodeId) (k : N) (h : list event) : Prop :=
  ∃ pre post, h = pre ++ post ∧ N.of_nat (length post) = k ∧ Forall (answering n) post.

Lemma run_snoc g tr e : run g (tr ++ [e]) = (feed (run g tr) e).2.
Proof. unfold run. by rewrite foldl_app. Qed.

(** Goes through the branches of [observe]. *)
Ltac observe_cases :=
  unfold observe;
  repeat match goal with
    | |- context [match ?st with Active => _ | Draining => _ | Unreachable => _ end] => destruct st
    | |- context [negb ?b] => destruct b; cbn [negb]
    | |- context [if ?b then _ else _] => destruct b eqn:?
    end.

Lemma grace_run g tr : grace (run g tr) = g.
Proof.
  induction tr as [|e tr IH] using rev_ind; [done|]. rewrite run_snoc. etrans; [|exact IH].
  destruct e as [n st ok now| |r]; [|done..]. cbn [feed]. by observe_cases.
Qed.

Lemma history_snoc n tr e :
  history n (tr ++ [e]) = history n tr ++ (if decide (about n e) then [e] else []).
Proof. unfold history. by rewrite list.filter_app. Qed.

Lemma failing_from_snoc n t0 h now :
  failing_from n t0 h → failing_from n t0 (h ++ [EObserve n Active false now]).
Proof.
  intros (pre & post & -> & HF). exists pre, (post ++ [EObserve n Active false now]).
  rewrite <-app_assoc. split; [done|]. apply Forall_app. split; [done|].
  constructor; [by exists now|constructor].
Qed.

Lemma failing_from_last n h now : failing_from n now (h ++ [EObserve n Active false now]).
Proof. exists h, []. split; [done|constructor]. Qed.

Lemma answered_zero n h : answered n 0 h.
Proof. exists h, []. rewrite app_nil_r. by split_and!; [..|constructor]. Qed.

Lemma answered_snoc n k h now :
  answered n k h → answered n (k + 1) (h ++ [EObserve n Unreachable true now]).
Proof.
  intros (pre & post & -> & Hl & HF). exists pre, (post ++ [EObserve n Unreachable true now]).
  rewrite <-app_assoc, length_app. split_and!; [done|simpl; lia|]. apply Forall_app. split; [done|].
  constructor; [by exists now|constructor].
Qed.

(** What the tracker keeps of a node is a fact of its history. *)
Definition faithful (n : NodeId) (h : list event) (o : option Observed) : Prop :=
  match o with
  | Some o => (∀ t0, failing_since o = Some t0 → failing_from n t0 h) ∧ answered n (ok_streak o) h
  | None => True
  end.

Lemma faithful_default n h o : faithful n h o →
  (∀ t0, failing_since (default observed_default o) = Some t0 → failing_from n t0 h)
  ∧ answered n (ok_streak (default observed_default o)) h.
Proof. destruct o; [done|]. intros _. split; [done|apply answered_zero]. Qed.

Lemma observe_other m n st ok now t :
  m ≠ n → nodes (observe m st ok now t).2 !! n = nodes t !! n.
Proof.
  intros Hne. observe_cases; simpl; by rewrite ?lookup_insert_ne, ?lookup_delete_ne by done.
Qed.

Lemma feed_other n e t : ¬ about n e → nodes (feed t e).2 !! n = nodes t !! n.
Proof.
  destruct e as [m st ok now| |r]; cbn [about feed]; intros Hne.
  - by apply observe_other.
  - by destruct Hne.
  - simpl. apply option_eq. intros o. rewrite map_lookup_filter_Some. split; [by intros [? _]|].
    intros Ho. split; [done|]. cbn. destruct (r !! n); [done|by destruct Hne].
Qed.

Lemma faithful_run g tr n : faithful n (history n tr) (nodes (run g tr) !! n).
Proof.
  induction tr as [|e tr IH] using rev_ind; [done|].
  rewrite run_snoc, history_snoc. case_decide as Hab.
  2: { rewrite feed_other by done. by rewrite app_nil_r. }
  destruct e as [m st ok now| |r]; cbn [feed snd about] in *.
  - subst m. apply faithful_default in IH as [IHf IHa]. observe_cases; subst;
      simpl; rewrite ?lookup_delete_eq, ?lookup_insert_eq; try done; cbn [faithful failing_since ok_streak];
      (split; [|first [apply answered_zero|by apply answered_snoc]]); try done.
    intros t0 [= <-]. destruct (failing_since _) as [s|] eqn:Hs; cbn [default].
    + by apply failing_from_snoc, IHf.
    + apply failing_from_last.
  - simpl. by rewrite lookup_empty.
  - simpl. rewrite map_lookup_filter_None_2; [done|]. right. intros x _ [? Hx]. cbn in Hx. congruence.
Qed.

(** ** Verdicts are earned *)

Lemma answered_fewer n j k h : j ≤ k → answered n k h → answered n j h.
Proof.
  intros Hle (pre & post & -> & Hl & HF).
  exists (pre ++ take (length post - N.to_nat j) post), (drop (length post - N.to_nat j) post).
  rewrite <-app_assoc, take_drop, length_drop. split_and!; [done|lia|by apply list.Forall_drop].
Qed.

(** The detector condemns a node only on a failed ping of an
    active node, when every observation of it since some instant at least the
    grace period ago was a failed ping too (no success, no drain, no change of
    leadership in between); and restores one only on the third of three
    answers in a row while it was unreachable. *)
Theorem verdict_sound g tr n st ok now :
  match (observe n st ok now (run g tr)).1 with
  | VMarkUnreachable => st = Active ∧ ok = false ∧ ∃ t0, g ≤ now - t0
      ∧ failing_from n t0 (history n (tr ++ [EObserve n st ok now]))
  | VMarkReachable => st = Unreachable ∧ ok = true
      ∧ answered n RECOVERY_STREAK (history n (tr ++ [EObserve n st ok now]))
  | VNone => True
  end.
Proof.
  pose proof (faithful_run g tr n) as HF. apply faithful_default in HF as [HFf HFa].
  pose proof (grace_run g tr) as Hg. rewrite history_snoc, decide_True by done.
  observe_cases; simpl; try done;
    (split_and!; [done..|]);
    match goal with H : (_ <=? _) = true |- _ => rewrite ?Hg in H; apply N.leb_le in H end.
  - eexists. split; [eassumption|]. destruct (failing_since _) as [s|] eqn:Hs; cbn [default].
    + by apply failing_from_snoc, HFf.
    + apply failing_from_last.
  - eapply answered_fewer; [eassumption|]. by apply answered_snoc.
Qed.

(** ** And they come in time *)

(** [e] is an observation of [n] with this verdict, after [tr]. *)
Definition says (g : N) (tr : list event) (e : event) (v : Verdict) : Prop :=
  (feed (run g tr) e).1 = v.

(** Observations of active nodes are stamped by one clock. *)
Definition stamps (tr : list event) : list N :=
  omap (λ e, match e with EObserve _ _ _ now => Some now | _ => None end) tr.

Lemma failing_from_stamp n t0 h : failing_from n t0 h → t0 ∈ stamps h.
Proof.
  intros (pre & post & -> & _). unfold stamps. rewrite omap_app, elem_of_app. right. left.
Qed.

(** Somewhere in [w], after [pre], the tracker gave [v] on [n]. *)
Definition said (g : N) (n : NodeId) (pre w : list event) (v : Verdict) : Prop :=
  ∃ w1 e w2, w = w1 ++ e :: w2 ∧ about n e ∧ (feed (run g (pre ++ w1)) e).1 = v.

Lemma said_snoc g n pre w e v : said g n pre w v → said g n pre (w ++ [e]) v.
Proof.
  intros (w1 & e' & w2 & -> & Hab & Hv). exists w1, e', (w2 ++ [e]). by rewrite <-app_assoc.
Qed.

Lemma said_last g n pre w e v :
  about n e → (feed (run g (pre ++ w)) e).1 = v → said g n pre (w ++ [e]) v.
Proof. intros. exists w, e, []. done. Qed.

Lemma snoc_history n w e :
  (about n e ∧ history n (w ++ [e]) = history n w ++ [e]) ∨
  (¬ about n e ∧ history n (w ++ [e]) = history n w).
Proof. rewrite history_snoc. case_decide; [by left|]. right. by rewrite app_nil_r. Qed.

Section Complete.
Context (g : N) (n : NodeId) (pre : list event).

Definition since (o : option Observed) : option N := o ≫= failing_since.

Lemma failing_observation t now :
  grace t = g →
  (observe n Active false now t).1 = VMarkUnreachable ∧ g ≤ now - default now (since (nodes t !! n))
  ∨ (observe n Active false now t).1 = VNone ∧ now - default now (since (nodes t !! n)) < g
    ∧ since (nodes (observe n Active false now t).2 !! n) = Some (default now (since (nodes t !! n))).
Proof.
  intros Hg. assert (failing_since (default observed_default (nodes t !! n)) = since (nodes t !! n)) as Hs
    by (by destruct (nodes t !! n)).
  unfold observe. rewrite Hs, Hg. destruct (N.leb_spec g (now - default now (since (nodes t !! n)))).
  - left. done.
  - right. simpl. rewrite lookup_insert_eq. done.
Qed.

Lemma stamp_before tr t0 s :
  StronglySorted N.le (stamps (tr ++ [EObserve n Active false t0])) →
  since (nodes (run g tr) !! n) = Some s → s ≤ t0.
Proof.
  intros HS Hs. assert (s ∈ stamps tr) as Hin.
  { pose proof (faithful_run g tr n) as HF. destruct (nodes (run g tr) !! n) as [o|]; [|done].
    destruct HF as [HF _]. apply HF, failing_from_stamp in Hs. unfold stamps in *.
    apply list_elem_of_omap in Hs as (e & He & Hst). apply list_elem_of_omap. exists e.
    split; [|done]. by apply list_elem_of_filter in He as [_ ?]. }
  unfold stamps in HS. rewrite omap_app in HS. fold (stamps tr) in HS. clear Hs. revert HS Hin.
  generalize (stamps tr) as l. intros l. induction l as [|x l IH]; [set_solver|].
  inversion_clear 1 as [|? ? Hl Hx]. intros [->|Hin]%elem_of_cons; [|by apply IH].
  eapply list.Forall_forall in Hx; [done|]. apply elem_of_app. right. by left.
Qed.

(** A run of failures from [t0] on keeps a start no later than [t0]. *)
Lemma failing_window t0 post :
  StronglySorted N.le (stamps (pre ++ [EObserve n Active false t0])) →
  Forall (failing n) (history n post) →
  said g n pre (EObserve n Active false t0 :: post) VMarkUnreachable
  ∨ ∃ s, s ≤ t0 ∧ since (nodes (run g (pre ++ EObserve n Active false t0 :: post)) !! n) = Some s.
Proof.
  intros HS. induction post as [|e post IH] using rev_ind; intros HF.
  - destruct (failing_observation (run g pre) t0 (grace_run g pre)) as [[Hv _]|(_ & _ & Hn)].
    + left. apply (said_last g n pre []); [done|by rewrite app_nil_r].
    + right. rewrite run_snoc. eexists. split; [|exact Hn].
      destruct (since (nodes (run g pre) !! n)) as [s|] eqn:Hs; cbn [default]; [|done].
      by eapply stamp_before.
  - change (EObserve n Active false t0 :: post ++ [e])
      with ((EObserve n Active false t0 :: post) ++ [e]). rewrite app_assoc, run_snoc.
    destruct (snoc_history n post e) as [[Hab Hh]|[Hab Hh]]; rewrite Hh in HF.
    2: { rewrite feed_other by done. destruct (IH HF) as [Hl|Hr]; [left; by apply said_snoc|by right]. }
    apply Forall_app in HF as [HF He]. destruct (IH HF) as [Hl|(s & Hle & Hs)];
      [left; by apply said_snoc|]. inversion_clear He as [|? ? [now ->] _].
    destruct (failing_observation (run g (pre ++ EObserve n Active false t0 :: post)) now (grace_run _ _))
      as [[Hv _]|(_ & _ & Hn)]; [left; by apply said_last|].
    right. exists s. split; [done|]. cbn [feed]. by rewrite Hn, Hs.
Qed.

Definition streak (o : option Observed) : N := default 0 (ok_streak <$> o).

Lemma answering_observation t now :
  (observe n Unreachable true now t).1 = VMarkReachable
  ∨ streak (nodes t !! n) + 1 < RECOVERY_STREAK
    ∧ streak (nodes (observe n Unreachable true now t).2 !! n) = streak (nodes t !! n) + 1.
Proof.
  assert (ok_streak (default observed_default (nodes t !! n)) = streak (nodes t !! n)) as Hs
    by (by destruct (nodes t !! n)).
  unfold observe. cbn [negb]. rewrite Hs.
  destruct (N.leb_spec RECOVERY_STREAK (streak (nodes t !! n) + 1)); [by left|].
  right. simpl. by rewrite lookup_insert_eq.
Qed.

(** Unless it spoke, the tracker has counted every answer. *)
Lemma answering_window w :
  Forall (answering n) (history n w) →
  said g n pre w VMarkReachable
  ∨ w = [] ∨ history n w = []
  ∨ N.of_nat (length (history n w)) ≤ streak (nodes (run g (pre ++ w)) !! n) < RECOVERY_STREAK.
Proof.
  induction w as [|e w IH] using rev_ind; intros HF; [by right; left|].
  rewrite app_assoc, run_snoc. destruct (snoc_history n w e) as [[Hab Hh]|[Hab Hh]]; rewrite Hh in *.
  2: { rewrite feed_other by done.
       destruct (IH HF) as [Hl|[-> |[Hl|Hr]]]; [left; by apply said_snoc|by right; right; left..|].
       by right; right; right. }
  apply Forall_app in HF as [HF He]. inversion_clear He as [|? ? [now ->] _]. cbn [feed].
  destruct (answering_observation (run g (pre ++ w)) now) as [Hv|[Hlt Hn]]; [left; by apply said_last|].
  rewrite Hn, length_app. cbn [length].
  destruct (IH HF) as [Hl|[-> |[Hl|Hr]]]; [left; by apply said_snoc|right; right; right..].
  - unfold history in *; simpl. lia.
  - rewrite Hl. simpl. lia.
  - lia.
Qed.
End Complete.

(** C38 (liveness): while this node keeps leading, an active node whose pings
    all fail over a window at least as long as the grace period (its ends two
    of them, on one clock) is condemned within the window; and an unreachable
    node that answers three times in a row is restored within them. *)
Theorem verdict_complete g n pre t0 mid t1 w :
  (StronglySorted N.le (stamps (pre ++ [EObserve n Active false t0])) →
   Forall (failing n) (history n mid) → g ≤ t1 - t0 →
   said g n pre (EObserve n Active false t0 :: mid ++ [EObserve n Active false t1]) VMarkUnreachable)
  ∧ (Forall (answering n) (history n w) → (3 ≤ length (history n w))%nat →
     said g n pre w VMarkReachable).
Proof.
  split.
  - intros HS HF Hg. rewrite app_comm_cons.
    destruct (failing_window g n pre t0 mid HS HF) as [Hl|(s & Hle & Hs)]; [by apply said_snoc|].
    apply said_last; [done|]. cbn [feed].
    destruct (failing_observation g n (run g (pre ++ EObserve n Active false t0 :: mid)) t1
      (grace_run _ _)) as [[Hv _]|(_ & Hlt & _)]; [done|].
    rewrite Hs in Hlt. cbn [default] in Hlt. change (id s) with s in Hlt. lia.
  - intros HF Hlen. destruct (answering_window g n pre w HF) as [?|[-> |[Hn|Hr]]]; [done|..].
    + simpl in Hlen. lia.
    + rewrite Hn in Hlen. simpl in Hlen. lia.
    + unfold RECOVERY_STREAK in Hr. lia.
Qed.

Lemma verdict_complete_witness :
  said 10 2 [] [EObserve 2 Active false 5; EObserve 1 Active true 6; EObserve 2 Active false 15]
    VMarkUnreachable
  ∧ said 10 2 [] [EObserve 2 Unreachable true 1; EObserve 2 Unreachable true 2;
                   EObserve 2 Unreachable true 3] VMarkReachable.
Proof.
  destruct (verdict_complete 10 2 [] 5 [EObserve 1 Active true 6] 15
    [EObserve 2 Unreachable true 1; EObserve 2 Unreachable true 2; EObserve 2 Unreachable true 3])
    as [H1 H2]. split.
  - apply H1; [repeat constructor|constructor|done].
  - apply H2; [|by vm_compute; lia]. repeat constructor; by eexists.
Defined.

(** ** A round of the detector *)

Section Round.
Context `{MC : MetaCodecs} `{PC : PlaneCodecs} `{HR : Raft}.
Context `{!Codec (option LogId), !Codec StoredMembership}.
Context `{!Codec RuntimeCommand, !Codec RuntimeResponse}.
Context (next_id : engine → LogId) (self : NodeId) (rf_cap : option N).
Context (c : ClusterConfig) (r0 : Roster) (v0 : gset N).

(** What operators decided: who is in the cluster, where, and who drains. *)
Definition same_intent (r : Roster) : Prop :=
  dom r = dom r0 ∧ ∀ m, has_status Draining m r = has_status Draining m r0
    ∧ advertise_addr <$> r !! m = advertise_addr <$> r0 !! m.

Definition calm (p : plane) : Prop :=
  p_voters p = v0 ∧ ∃ r pl r1, records p c r pl ∧ same_intent r
    ∧ active_nodes r ≠ ∅ ∧ active_nodes r1 ≠ ∅ ∧ pl = implied rf_cap c r1.

Lemma calm_call cl n p :
  cl = MarkUnreachable n ∨ cl = MarkReachable n → calm p →
  cwp (run_call next_id rf_cap cl) (λ _ p', calm p') p.
Proof.
  intros Hcl (Hv & r & pl & r1 & Hrec & [Hd Hi] & Ha & Ha1 & Hpl).
  eapply cwp_mono; [|by apply (control_plane_step next_id rf_cap cl c r pl)].
  intros res p' (r' & pl' & Hrec' & Hs & Hvf). split; [destruct Hcl as [-> | ->]; cbn in Hvf; congruence|].
  destruct (call_step_founded _ _ _ _ _ _ _ _ _ Hs Ha Ha1 Hpl) as (Ha' & r1' & Ha1' & Hpl').
  exists r', pl', r1'. split_and!; [done| |done..].
  destruct Hs as [| |next r' pl' ok Hplan _ Hpr]; [by split..|].
  assert (same_intent next) as Hn.
  { split; [by rewrite (proj1 (detector_keeps_drains n next r cl n Hcl Hplan))|]. intros m.
    destruct (detector_keeps_drains n next r cl m Hcl Hplan) as (_ & Hm & Hadr).
    by rewrite Hm, Hadr. }
  destruct Hpr; [by split|done..].
Qed.

Lemma calm_logged {A} (m : ctl A) p :
  cwp m (λ _ p', calm p') p → cwp (logged m) (λ res p', res = Ok tt ∧ calm p') p.
Proof. unfold cwp, logged. by destruct (m p). Qed.

Lemma calm_mark cl (m : ctl bool) n p :
  cl = MarkUnreachable n ∨ cl = MarkReachable n →
  run_call next_id rf_cap cl = (_ ← m; mret tt) → calm p →
  cwp (logged m) (λ res p', res = Ok tt ∧ calm p') p.
Proof.
  intros Hcl Hm Hp. apply calm_logged. pose proof (calm_call cl n p Hcl Hp) as H. rewrite Hm in H.
  unfold cwp, mbind, ctl_bind in *. by destruct (m p) as [[]].
Qed.

Lemma calm_reach n p :
  calm p → cwp (logged (mark_reachable next_id rf_cap n)) (λ res p', res = Ok tt ∧ calm p') p.
Proof. apply (calm_mark (MarkReachable n) _ n); auto. Qed.

Lemma calm_unreach n p :
  calm p → cwp (logged (mark_unreachable next_id rf_cap n)) (λ res p', res = Ok tt ∧ calm p') p.
Proof. apply (calm_mark (MarkUnreachable n) _ n); auto. Qed.

Lemma calm_then {A} (m : ctl ()) (a : A) p :
  cwp m (λ res p', res = Ok tt ∧ calm p') p →
  cwp (m;; mret a) (λ res p', is_ok res = true ∧ calm p') p.
Proof. intros H. apply cwp_bind. eapply cwp_mono; [|exact H]. by intros ? p' [-> ?]. Qed.

Lemma calm_visit o t n i p :
  calm p → cwp (visit next_id self rf_cap o t n i) (λ res p', is_ok res = true ∧ calm p') p.
Proof.
  intros Hp. unfold visit. destruct (n =? self).
  - apply calm_then. case_bool_decide; [by apply calm_reach|by apply cwp_ret].
  - destruct (observe n (status i) (ping o n) (clock o n) t) as [v t'].
    apply calm_then. destruct v; [by apply calm_unreach|by apply calm_reach|by apply cwp_ret].
Qed.

Lemma calm_visit_all o l r t p :
  calm p → cwp (visit_all next_id self rf_cap o t l r) (λ res p', is_ok res = true ∧ calm p') p.
Proof.
  revert t p. induction l as [|n l IH]; intros t p Hp; [by apply cwp_ret|]. cbn [visit_all].
  destruct (r !! n) as [i|]; [|by apply IH]. apply cwp_bind.
  eapply cwp_mono; [|by apply calm_visit]. intros [t'|e] p' [? Hp']; [by apply IH|done].
Qed.
End Round.

(** A round of the detector, whatever the pings say and
    whatever Raft does, ends without an error and leaves the cluster with the
    same members at the same addresses, the same voters, the same nodes
    draining, a node to place on and a placement of such a roster. *)
Theorem detector_keeps_intent `{MC : MetaCodecs} `{PC : PlaneCodecs} `{HR : Raft}
    `{!Codec (option LogId), !Codec StoredMembership}
    `{!Codec RuntimeCommand, !Codec RuntimeResponse}
    (next_id : engine → LogId) (self : NodeId) (rf_cap : option N) c r0 v0 o t was p :
  calm rf_cap c r0 v0 p →
  cwp (detector_round next_id self rf_cap o t was) (λ res p',
    is_ok res = true ∧ calm rf_cap c r0 v0 p') p.
Proof.
  intros Hp. unfold detector_round. destruct (leads o); [|by apply cwp_ret]. cbn [negb].
  set (t1 := if was then t else reset t). unfold cwp at 1.
  destruct (stored_schema_version METADATA (p_engine p)) as [s|]; [|done].
  destruct (3 <=? s); [|done]. destruct (roster_local p) as [[r|e] q]; [|done].
  change (cwp (t' ← visit_all next_id self rf_cap o t1 (ascending (dom r)) r; mret (retain r t', true))
    (λ res p', is_ok res = true ∧ calm rf_cap c r0 v0 p') p).
  apply cwp_bind. eapply cwp_mono; [|by apply calm_visit_all].
  intros [t'|e'] p' [? ?]; [by apply cwp_ret|done].
Qed.

From S2P Require Import Demo.

Definition silent_round : Round := {| leads := true; ping := λ _, false; clock := λ _, 7 |}.

Lemma v3_calm : ∃ r, calm None default_config r (p_voters v3_nodes) v3_nodes.
Proof.
  assert (founded None default_config two_nodes) as (r & pl & r1 & Hrec & Ha & Ha1 & Hpl)
    by apply founded_call, demo_founded.
  exists r. split; [reflexivity|]. exists r, pl, r1. split; [|split; [by split|split; [exact Ha|by split]]].
  assert (∀ k, kv v3_nodes k = kv two_nodes k) as Hk.
  { intros k. unfold kv, v3_nodes. cbn [p_engine with_engine with_raft].
    rewrite lookup_insert_ne; [done|]. by intros [? _]%ctx_key_inj. }
  destruct Hrec as [H1 H2 H3]. split; rewrite Hk; assumption.
Qed.

Lemma detector_keeps_intent_witness :
  ∃ r, cwp (detector_round demo_next 1 None silent_round (tracker_new 0) true)
    (λ res p', is_ok res = true ∧ calm None default_config r (p_voters v3_nodes) p') v3_nodes
  ∧ seen (detector_round demo_next 1 None silent_round (tracker_new 0) true v3_nodes).2
    = (Some Unreachable, false).
Proof.
  destruct v3_calm as [r Hr]. exists r. split.
  - apply (detector_keeps_intent demo_next 1 None default_config r (p_voters v3_nodes)
      silent_round (tracker_new 0) true v3_nodes Hr).
  - vm_compute. reflexivity.
Defined.
