(* ===== verification/FedOut.v ===== *)
(** * The federation-out shard (saltator-fedout/src/lib.rs)

    Durable ownership of what has been promised to whom: delivery cursors per
    destination and per application service, the outbox of ephemeral events,
    and the marker of the outbox move. *)

From Stdlib Require Import Ascii.
From S2P Require Import Prelude Bytes Order Store Codec Shard ShardFacts Track.
From stdpp Require Import options.

Definition FED_OUT_SHARD : ShardId := {| keyspace := FedOut; index := 0 |}.
Definition FED_SCHEMA_VERSION : N := 2.

(** [room_shard (u16 BE) ++ destination → u64] *)
Definition T_PDU_CURSOR : N := APP_TABLE_FIRST.
(** [destination ++ 0x00 ++ seq (u64 BE) → EDU JSON] *)
Definition T_EDU_OUTBOX : N := APP_TABLE_FIRST + 1.
Definition T_DRAIN : N := APP_TABLE_FIRST + 2.
(** [as_id ++ 0x00 ++ room_shard (u16 BE) → u64] *)
Definition T_AS_CURSOR : N := APP_TABLE_FIRST + 3.
Definition K_DRAIN_MARKER : bytes := "user_outbox_drained".

Record OutboundEdu : Type := { destination : string; edu_json : bytes }.

Inductive FedOutCommand : Type :=
  | EnqueueEdus (entries : list OutboundEdu)
  | AckEdus (dest : string) (up_to : N)
  | AdvancePduCursor (room_shard : N) (dest : string) (up_to : N)
  | SetDrainMarker (up_to : N)
  | AdvanceAsCursor (as_id : string) (room_shard : N) (up_to : N).

Inductive FedOutResponse : Type := FedOutOk.

Class FedOutCodecs := {
  fc_command :: Codec FedOutCommand;
  fc_response :: Codec FedOutResponse;
  fc_u64 :: Codec N;
  fc_command_marked : ∀ cmd : FedOutCommand,
    match enc cmd with String c _ => c ≠ RUNTIME_CMD_PREFIX | EmptyString => True end;
}.

Definition dest_key (dest : string) (rest : bytes) : bytes := dest +:+ String b0 rest.
Definition as_cursor_key (as_id : string) (room_shard : N) : bytes :=
  as_id +:+ String b0 (be16 room_shard).
Definition cursor_key (room_shard : N) (dest : string) : bytes := be16 room_shard +:+ dest.

Section App.
Context `{FC : FedOutCodecs}.

(** A monotonic cell: a stale value must not rewind it. *)
Definition advance (what : string) (t : N) (key : bytes) (up_to : N) : app () :=
  o ← ctx_get t key;
  current ← match o with
            | Some b => lift (dec_or what b)
            | None => mret 0%N
            end;
  if (current <? up_to)%N then ctx_put t key (enc up_to) else mret tt.

Definition enqueue (edu : OutboundEdu) : app () :=
  n ← ctx_emit (edu_json edu);
  ctx_put T_EDU_OUTBOX (dest_key (destination edu) (be64 n)) (edu_json edu).

Definition fed_command (cmd : FedOutCommand) : app () :=
  match cmd with
  | EnqueueEdus entries => app_iter enqueue entries
  | AckEdus dest up_to =>
      l ← ctx_range T_EDU_OUTBOX (dest_key dest EmptyString) (dest_key dest (be64 (add64 up_to 1)));
      app_iter (λ kv, ctx_delete T_EDU_OUTBOX kv.1) l
  | AdvancePduCursor room_shard dest up_to =>
      advance "cursor decode" T_PDU_CURSOR (cursor_key room_shard dest) up_to
  | AdvanceAsCursor as_id room_shard up_to =>
      advance "as cursor decode" T_AS_CURSOR (as_cursor_key as_id room_shard) up_to
  | SetDrainMarker up_to => advance "marker decode" T_DRAIN K_DRAIN_MARKER up_to
  end.

Definition fed_apply (command : bytes) : app bytes :=
  cmd ← lift (dec_or "fedout command decode" command);
  fed_command cmd;;
  mret (enc FedOutOk).

Definition fed_migrate (to : N) : app () :=
  if (to =? 2)%N then mret tt
  else fail (Engine "no migration registered for fedout schema step").

(** The trait's default [replay] refuses. *)
Definition FedOutApp : ShardApp := {|
  app_schema_version := FED_SCHEMA_VERSION;
  app_apply := fed_apply;
  app_migrate := fed_migrate;
  app_replay _ _ _ := Err (Engine "this shard app does not support change replay");
|}.

(** ** [FedOutStore] *)

Context `{UL : Utf8Lossy}.

(** Destinations with pending rows, each run of equal names once. *)
Definition edu_destinations (r : ReadCtx) : list string :=
  foldl (λ out kv,
    let dest := from_utf8_lossy (split_once b0 kv.1).1 in
    if bool_decide (list.last out = Some dest) then out else out ++ [dest])
    [] (read_range r T_EDU_OUTBOX EmptyString EmptyString).

Fixpoint outbox_loop (limit : nat) (skip : nat) (l : list (bytes * bytes))
    (out : list (N * bytes)) : result store_error (list (N * bytes)) :=
  match l with
  | [] => Ok out
  | (k, v) :: l =>
      if bool_decide (limit ≤ length out) then Ok out
      else
        let? n := ok_or (from_be64 (str_drop skip k)) (Engine "outbox key: bad seq") in
        outbox_loop limit skip l (out ++ [(n, v)])
  end.

Definition edu_outbox (r : ReadCtx) (dest : string) (limit : nat) :
    result store_error (list (N * bytes)) :=
  let start := dest_key dest EmptyString in
  outbox_loop limit (String.length start)
    (read_range r T_EDU_OUTBOX start (dest +:+ str1 b1)) [].

Definition read_u64 (what : string) (r : ReadCtx) (t : N) (key : bytes) :
    result store_error (option N) :=
  match read_get r t key with
  | Some b => let? n := dec_or what b in Ok (Some n)
  | None => Ok None
  end.

Definition pdu_cursor (r : ReadCtx) (room_shard : N) (dest : string) :
    result store_error (option N) :=
  read_u64 "cursor decode" r T_PDU_CURSOR (cursor_key room_shard dest).

(** [u16::from_be_bytes([k[0], k[1]])] *)
Definition from_be16 (k : bytes) : N :=
  match k with
  | String a (String b _) => N_of_ascii a * 256 + N_of_ascii b
  | _ => 0
  end%N.

Definition pdu_cursors (r : ReadCtx) : result store_error (list (N * string * N)) :=
  try_fold (λ out '(k, v),
    if bool_decide (String.length k < 2) then Ok out
    else
      let? n := dec_or "cursor decode" v in
      Ok (out ++ [(from_be16 k, from_utf8_lossy (str_drop 2 k), n)]))
  [] (read_range r T_PDU_CURSOR EmptyString EmptyString).

Definition as_cursor (r : ReadCtx) (as_id : string) (room_shard : N) :
    result store_error (option N) :=
  read_u64 "as cursor decode" r T_AS_CURSOR (as_cursor_key as_id room_shard).

Definition drain_marker (r : ReadCtx) : result store_error N :=
  let? o := read_u64 "marker decode" r T_DRAIN K_DRAIN_MARKER in Ok (default 0%N o).
End App.

(** * What the federation-out shard keeps

    Cursors only move forward, to the largest position ever acknowledged,
    however the proposals were ordered or batched; the outbox of a destination
    is a queue from which only an acknowledgement removes. *)

(** ** Keys *)

Lemma be16_length v : String.length (be16 v) = 2.
Proof. apply be_bytes_length. Qed.

Lemma cursor_key_inj s d s' d' :
  (s < 65536)%N → (s' < 65536)%N → cursor_key s d = cursor_key s' d' → s = s' ∧ d = d'.
Proof.
  intros Hs Hs' [He ->]%str_app_inj_len; [|by rewrite !be16_length]. by apply be16_inj in He.
Qed.

Lemma dest_key_inj d d' n n' :
  nul_free d = true → nul_free d' = true → (n < u64_modulus)%N → (n' < u64_modulus)%N →
  dest_key d (be64 n) = dest_key d' (be64 n') → d = d' ∧ n = n'.
Proof. intros Hd Hd' Hn Hn' [-> He]%nul_split_inj; [|done..]. by apply be64_inj in He. Qed.

Section Cursors.
Context `{FC : FedOutCodecs, UL : Utf8Lossy}.

(** ** Monotonic cells *)

Definition bump (o : option N) (up_to : N) : option N :=
  if (default 0 o <? up_to)%N then Some up_to else o.

(** The positions a command reports for a cell. *)
Definition reports (t : N) (k : bytes) (cmd : FedOutCommand) : option N :=
  match cmd with
  | AdvancePduCursor s d u => if bool_decide (t = T_PDU_CURSOR ∧ k = cursor_key s d) then Some u else None
  | AdvanceAsCursor a s u => if bool_decide (t = T_AS_CURSOR ∧ k = as_cursor_key a s) then Some u else None
  | SetDrainMarker u => if bool_decide (t = T_DRAIN ∧ k = K_DRAIN_MARKER) then Some u else None
  | _ => None
  end.

Definition reported (t : N) (k : bytes) (cmds : list bytes) : list N :=
  omap (λ b, cmd ← dec (A := FedOutCommand) b; reports t k cmd) cmds.

(** The largest of the positions, none when there is none above zero. *)
Definition furthest (o : option N) (us : list N) : option N := foldl bump o us.

Lemma furthest_le o us : (default 0 o ≤ default 0 (furthest o us))%N.
Proof.
  revert o. induction us as [|u us IH]; intros o; simpl; [done|].
  etrans; [|apply IH]. unfold bump. destruct (N.ltb_spec (default 0 o)%N u); simpl in *; lia.
Qed.

Lemma furthest_max o us :
  default 0%N (furthest o us) = foldr N.max (default 0%N o) us.
Proof.
  revert o. induction us as [|u us IH]; intros o; [done|]. cbn [furthest foldl].
  fold (furthest (bump o u) us). rewrite IH. simpl. clear IH.
  assert (default 0%N (bump o u) = N.max u (default 0%N o)) as ->.
  { unfold bump. destruct (N.ltb_spec (default 0%N o) u); simpl; lia. }
  induction us as [|v us IH]; simpl; [done|]. rewrite IH. lia.
Qed.

Lemma furthest_none us : furthest None us = None ↔ Forall (λ u, u = 0%N) us.
Proof.
  split.
  - intros H. pose proof (furthest_max None us) as Hm. rewrite H in Hm. simpl in Hm. clear H.
    induction us as [|u us IH]; [constructor|]. simpl in Hm. constructor; [lia|apply IH; lia].
  - induction 1 as [|u us -> _ IH]; [done|]. exact IH.
Qed.

(** Only the set of the positions counts. *)
Lemma furthest_perm o us vs : us ≡ₚ vs → default 0%N (furthest o us) = default 0%N (furthest o vs).
Proof.
  intros HP. rewrite !furthest_max. induction HP; simpl; lia.
Qed.

Definition cell_num (o : option bytes) : option N := o ≫= dec.

Lemma advance_cell what t k u t' k' env c :
  (8 < t < 256)%N → (8 < t' < 256)%N →
  wp (advance what t k u) env (λ _ c', cell_num (tget env c' t' k') =
    if bool_decide (t' = t ∧ k' = k) then bump (cell_num (tget env c t' k')) u
    else cell_num (tget env c t' k')) c.
Proof.
  intros Ht Ht'. unfold advance. wp_step. wp_step. wp_step.
  apply (wp_mono _ _ (λ n c1, c1 = c ∧ default 0%N (cell_num (tget env c t k)) = n)).
  - intros n ? [-> Hn]. case_bool_decide as Hk.
    + destruct Hk as [-> ->]. unfold bump. rewrite Hn.
      destruct (n <? u)%N; [|by apply wp_ret]. wp_step. rewrite tget_put by lia.
      rewrite decide_True by done. simpl. by rewrite dec_enc.
    + destruct (n <? u)%N; [|by apply wp_ret]. wp_step. rewrite tget_put by lia.
      rewrite decide_False; [done|]. intros [-> ->]. by apply Hk.
  - destruct (tget env c t k) as [b|]; [|by apply wp_ret]. apply wp_lift. intros n Hn.
    unfold dec_or in Hn. simpl. by destruct (dec b); simplify_eq/=.
Qed.

Lemma fed_command_cell t k cmd env c :
  (8 < t < 256)%N → t ≠ T_EDU_OUTBOX →
  wp (fed_command cmd) env (λ _ c', cell_num (tget env c' t k) =
    match reports t k cmd with
    | Some u => bump (cell_num (tget env c t k)) u
    | None => cell_num (tget env c t k)
    end) c.
Proof.
  intros Ht Hne. destruct cmd as [entries|d u|s d u|u|a s u]; cbn [fed_command reports].
  - apply (wp_fold _ _ (λ _ c', cell_num (tget env c' t k) = cell_num (tget env c t k))); [|done].
    intros [] edu c1 _ H1. unfold enqueue. repeat wp_step. by rewrite tget_put_other by (done || lia).
  - wp_step. unfold wp at 1, ctx_range. destruct (range_bounds _ _ _ _).
    apply (wp_fold _ _ (λ _ c', cell_num (tget env c' t k) = cell_num (tget env c t k))); [|done].
    intros [] kv c1 _ H1. unfold wp, ctx_delete. by rewrite tget_delete_other by (done || lia).
  - eapply wp_mono; [|by apply advance_cell]. intros [] c' ->. by case_bool_decide.
  - eapply wp_mono; [|by apply advance_cell]. intros [] c' ->. by case_bool_decide.
  - eapply wp_mono; [|by apply advance_cell]. intros [] c' ->. by case_bool_decide.
Qed.

Context `{HR : Raft}.
Context `{!Codec (option LogId), !Codec StoredMembership}.
Context `{!Codec RuntimeCommand, !Codec RuntimeResponse}.

(** One command, on the cell [t], [k]. *)
Definition report_step (t : N) (k : bytes) (cmd : bytes) (o : option N) : option N :=
  match dec (A := FedOutCommand) cmd ≫= reports t k with Some u => bump o u | None => o end.

Lemma fed_tracks t k :
  (8 < t < 256)%N → t ≠ T_EDU_OUTBOX →
  tracks FED_OUT_SHARD FedOutApp (λ o env c, cell_num (tget env c t k) = o)
    (report_step t k) (λ _, True).
Proof.
  intros Ht Hne. split.
  - intros o env c c' <- _ Hc. by rewrite Hc.
  - intros cmd o env c _ _ <-. simpl. unfold fed_apply. wp_step. apply wp_lift. intros cm Hcm.
    unfold dec_or in Hcm. unfold report_step. destruct (dec cmd) as [cm'|]; [|done].
    injection Hcm as ->. wp_step. eapply wp_mono; [|by apply fed_command_cell].
    intros [] c' Hc. by wp_step.
  - intros to o env c _ Ho. simpl. unfold fed_migrate. destruct (to =? 2)%N; by wp_step.
Qed.

Lemma track_reports t k cmds o :
  track (report_step t k) cmds o = furthest o (reported t k cmds).
Proof.
  revert o. induction cmds as [|cmd cmds IH]; intros o; [done|].
  unfold track in *. simpl. rewrite IH. unfold report_step, reported, furthest. simpl.
  by destruct (dec cmd ≫= reports t k).
Qed.

Lemma cell_apply t k l e e' rs pub :
  (8 < t < 256)%N → t ≠ T_EDU_OUTBOX →
  sm_apply FED_OUT_SHARD FedOutApp l e = Ok (e', rs, pub) →
  cell_num (eget FED_OUT_SHARD e' t k) =
    furthest (cell_num (eget FED_OUT_SHARD e t k)) (reported t k (commands l)).
Proof.
  intros Ht Hne Hap. apply (sm_apply_inv FED_OUT_SHARD FedOutApp) in Hap as (n & c & _ & _ & Hrun & _ & Heq).
  rewrite <-Heq by lia.
  pose proof (track_entries _ _ _ _ _ (fed_tracks t k Ht Hne) l
    (cell_num (eget FED_OUT_SHARD e t k)) (apply_env FED_OUT_SHARD e) (apply_init n)) as HW.
  unfold wp in HW. rewrite Hrun in HW. rewrite <-track_reports. apply HW; [|done..].
  apply list.Forall_forall. done.
Qed.

(** However the fed-out shard's committed entries are
    batched, each cursor (of a destination or an application service, on any
    room shard) and the drain marker end at the largest position among the
    stored one and all those reported for it: reordered and repeated reports
    change nothing, no cursor ever moves back, and one stays absent exactly
    when no position above zero was ever reported. *)
Theorem cursors_are_maxima t k batches e e' log :
  t ∈ [T_PDU_CURSOR; T_AS_CURSOR; T_DRAIN] →
  sm_run FED_OUT_SHARD FedOutApp batches e = Ok (e', log) →
  let before := cell_num (eget FED_OUT_SHARD e t k) in
  let after := cell_num (eget FED_OUT_SHARD e' t k) in
  let us := reported t k (commands (concat batches)) in
  after = furthest before us
  ∧ default 0%N after = foldr N.max (default 0%N before) us
  ∧ (before = None → after = None ↔ Forall (λ u, u = 0%N) us).
Proof.
  intros Ht Hrun before after us.
  assert ((8 < t < 256)%N ∧ t ≠ T_EDU_OUTBOX) as [Ht8 Hne].
  { repeat (apply elem_of_cons in Ht as [->|Ht]; [done|]). by apply elem_of_nil in Ht. }
  enough (after = furthest before us) as He.
  { split_and!; [done|by rewrite He, furthest_max|]. intros ->. rewrite He. apply furthest_none. }
  unfold before, after, us. clear before after us. revert Hrun. unfold sm_run.
  generalize (@nil (N * bytes)) as pub0. revert e.
  induction batches as [|l batches IH]; intros e pub0; cbn [try_fold concat].
  { by intros [= <- _]. }
  destruct (sm_apply FED_OUT_SHARD FedOutApp l e) as [[[e1 rs] pub]|] eqn:Hap; [|done]. intros Hrun.
  rewrite (IH _ _ Hrun), (cell_apply t k l e e1 rs pub) by done.
  unfold furthest. rewrite <-foldl_app. f_equal. unfold reported, commands. by rewrite !omap_app.
Qed.
End Cursors.
