(* ===== verification/Delivery.v ===== *)
(** * Outbound federation delivery (saltator-federation/src/delivery.rs)

    The worker that runs where the fed-out shard leads: it scans each room
    shard's timeline from an in-memory floor and sends every destination its
    events in transactions, and drains the outbox of ephemeral events.  What a
    pass meets (the answers of the peers, the fate of the proposals, the
    clock) is a parameter; destinations, which share nothing but the pass, are
    served one after another. *)

From Stdlib Require Import Ascii.
From S2P Require Import Prelude Bytes Order Store Codec Json Shard RoomTypes RoomMachine RoomRead.
From S2P Require Import CoreEvent FedOut.
From stdpp Require Import pretty options.

Local Open Scope N_scope.

Definition BACKOFF_MIN : N := 500.
Definition BACKOFF_MAX : N := 8000.
Definition MAX_EDUS_PER_TXN : nat := 100.
Definition MAX_PDUS_PER_TXN : nat := 50.
Definition SCAN_BATCH : N := 256.

(** ** Backoff: until when, and the last penalty *)

Abbreviation Backoff := (gmap string (N * N)) (only parsing).

Definition ready (b : Backoff) (now : N) (dest : string) : bool :=
  match b !! dest with None => true | Some (at_, _) => at_ <=? now end.

Definition failure (now : N) (dest : string) (b : Backoff) : Backoff :=
  let next := match b !! dest with
              | Some (_, d) => N.min (d * 2) BACKOFF_MAX
              | None => BACKOFF_MIN
              end in
  <[dest := (now + next, next)]> b.

(** [success] and [mark_alive] *)
Definition success (dest : string) (b : Backoff) : Backoff := delete dest b.

Definition backed_off (b : Backoff) (now : N) : nat := size (filter (λ e, now < e.2.1) b).

(** What a pass meets.  A put is named by destination and transaction path;
    a proposal that is not committed only costs a log line. *)
Record Net : Type := {
  put : string → string → bool;
  committed : string → string → bool;
  ready_at : string → N;
  failed_at : string → N;
}.

(** The worker's world: the fed-out shard it leads, its penalties, and the
    transactions peers accepted (destination, path, sequence numbers). *)
Record Worker : Type := {
  w_fed : engine;
  w_backoff : Backoff;
  w_sent : list (string * string * list N);
}.

(** [slice::chunks(n)] *)
Fixpoint chunks_aux {A} (fuel : nat) (n : nat) (l : list A) : list (list A) :=
  match fuel, l with
  | S fuel, _ :: _ => take n l :: chunks_aux fuel n (drop n l)
  | _, _ => []
  end.
Definition chunks {A} (n : nat) (l : list A) : list (list A) := chunks_aux (length l) n l.

Section Worker.
Context `{RC : RoomCodecs, SJ : SerdeJson, RU : Ruma}.
Context `{FC : FedOutCodecs, UL : Utf8Lossy}.
Context `{HR : Raft}.
Context `{!Codec (option LogId), !Codec StoredMembership}.
Context `{!Codec RuntimeCommand, !Codec RuntimeResponse}.
Context (next_id : engine → LogId) (server_name : string).

(** ** Whom an event goes to *)

Section Rooms.
Context (rooms : ReadCtx).

(** [raw["content"]["membership"].as_str()] *)
Definition membership_of (raw : jvalue jnum) : option string :=
  c ← vget "content" raw; m ← vget "membership" c; vstr m.

(** [UserId::parse(s).ok().map(|u| u.server_name())] *)
Definition server_of (user : string) : option string :=
  if user_id_ok user then Some (user_server user) else None.

(** [RoomServer::remote_servers_in_room] (saltator-roomserver/src/lib.rs).  The
    parent walk needs no more steps than the group's number. *)
Definition remote_servers_in_room (room_id exclude : string) : result store_error (list string) :=
  let? m := meta rooms room_id in
  match m with
  | None => Ok []
  | Some m =>
      let? state := default (Err (Engine "state group chain"))
        (resolve_group rooms (S (N.to_nat (rm_current_group m))) room_id (rm_current_group m)) in
      let? servers := try_fold (λ (servers : gset string) '((event_type, state_key), event_id),
        if bool_decide (event_type ≠ "m.room.member"%string) then Ok servers
        else
          let? stored := event rooms event_id in
          match stored with
          | None => Ok servers
          | Some stored =>
              let? raw := ok_or (from_slice (se_raw stored)) (Engine "codec") in
              if bool_decide (membership_of raw ≠ Some "join"%string) then Ok servers
              else match server_of state_key with
                   | Some s => Ok (if bool_decide (s = exclude) then servers else {[s]} ∪ servers)
                   | None => Ok servers
                   end
          end) ∅ (map_to_list state) in
      Ok (btree servers)
  end.

Definition event_destinations (room_id event_id : string) :
    option (jvalue jnum * list string) :=
  stored ← match event rooms event_id with Ok o => o | Err _ => None end;
  raw ← from_slice (se_raw stored);
  if se_imported stored then Some (raw, [])
  else
    let sender_server := s ← vget "sender" raw; u ← vstr s; server_of u in
    if bool_decide (sender_server ≠ Some server_name) && negb (se_relay stored) then Some (raw, [])
    else
      let destinations :=
        match remote_servers_in_room room_id server_name with Ok l => l | Err _ => [] end in
      let destinations := filter (λ d, Some d ≠ sender_server) destinations in
      let is_member := bool_decide ((t ← vget "type" raw; vstr t) = Some "m.room.member"%string) in
      let invited := bool_decide (membership_of raw ∈
        [Some "leave"%string; Some "ban"%string; Some "invite"%string]) in
      Some (raw,
        if is_member && invited then
          match (k ← vget "state_key" raw; u ← vstr k; server_of u) with
          | Some t =>
              if bool_decide (t ≠ server_name) && bool_decide (Some t ≠ sender_server)
                 && bool_decide (t ∉ destinations)
              then destinations ++ [t] else destinations
          | None => destinations
          end
        else destinations).
End Rooms.

(** ** Proposals to the fed-out shard *)

Definition propose_fed (cmd : FedOutCommand) (e : engine) : engine :=
  match sm_apply FED_OUT_SHARD FedOutApp
          [{| log_id := next_id e; payload := Normal (enc cmd) |}] e with
  | Ok (e', _, _) => e'
  | Err _ => e
  end.

Definition fed_ctx (e : engine) : ReadCtx := {| r_shard := FED_OUT_SHARD; r_engine := e |}.

(** [initial_scan_pos]: the least durable cursor of the shard, or its tip. *)
Definition initial_scan_pos (fed : engine) (room_shard tip : N) : N :=
  let cursors := match pdu_cursors (fed_ctx fed) with Ok l => l | Err _ => [] end in
  match (λ c, c.2) <$> filter (λ c, c.1.1 = room_shard) cursors with
  | [] => tip
  | n :: ns => foldl N.min n ns
  end.

(** ** One destination *)

Definition txn_path (room_shard first last : N) : string :=
  "/_matrix/federation/v1/send/" +:+ pretty room_shard +:+ "_" +:+ pretty first +:+ "_" +:+ pretty last.

Abbreviation queued_pdus := (list (N * jvalue jnum)) (only parsing).

(** The chunks in order: what stopped the delivery short, if anything. *)
Fixpoint send_chunks (net : Net) (room_shard : N) (dest : string) (l : list queued_pdus)
    (acked : N) (w : Worker) : option N * Worker :=
  match l with
  | [] => (None, w)
  | chunk :: l =>
      match chunk, list.last chunk with
      | (first, _) :: _, Some (last, _) =>
          let path := txn_path room_shard first last in
          if put net dest path then
            send_chunks net room_shard dest l last
              {| w_fed := if committed net dest path
                          then propose_fed (AdvancePduCursor room_shard dest last) (w_fed w)
                          else w_fed w;
                 w_backoff := success dest (w_backoff w);
                 w_sent := w_sent w ++ [(dest, path, chunk.*1)] |}
          else
            (Some acked, {| w_fed := w_fed w;
                            w_backoff := failure (failed_at net dest) dest (w_backoff w);
                            w_sent := w_sent w |})
      | _, _ => (None, w)
      end
  end.

Definition deliver_pdus_to (net : Net) (room_shard : N) (dest : string)
    (queued : queued_pdus) (acked : N) (w : Worker) : option N * Worker :=
  if negb (ready (w_backoff w) (ready_at net dest) dest) then (Some acked, w)
  else send_chunks net room_shard dest (chunks MAX_PDUS_PER_TXN queued) acked w.

(** ** One pass over a room shard *)

(** The cursors and queues a pass collects. *)
Record Scan : Type := { sc_cursors : gmap string N; sc_queues : gmap string queued_pdus }.

Definition queue_event (fed : engine) (room_shard seq : N) (raw : jvalue jnum)
    (s : Scan) (dest : string) : Scan :=
  let cursor := match sc_cursors s !! dest with
                | Some c => c
                | None =>
                    default (saturating_sub64 seq 1)
                      match pdu_cursor (fed_ctx fed) room_shard dest with
                      | Ok o => o
                      | Err _ => None
                      end
                end in
  {| sc_cursors := <[dest := cursor]> (sc_cursors s);
     sc_queues := if (seq <=? cursor)%N then sc_queues s
                  else <[dest := default [] (sc_queues s !! dest) ++ [(seq, raw)]]> (sc_queues s) |}.

(** [dests] is [event_destinations] on the room shard as the pass reads it. *)
Definition scan_entry (dests : string → string → option (jvalue jnum * list string))
    (fed : engine) (room_shard : N) (s : Scan) (e : N * SeqEntry) : Scan :=
  match e.2 with
  | SeqEvent room_id event_id =>
      match dests room_id event_id with
      | Some (raw, ds) => foldl (queue_event fed room_shard e.1 raw) s ds
      | None => s
      end
  | _ => s
  end.

Definition scan_batch (dests : string → string → option (jvalue jnum * list string))
    (fed : engine) (room_shard : N) (batch : list (N * SeqEntry)) : Scan :=
  foldl (scan_entry dests fed room_shard) {| sc_cursors := ∅; sc_queues := ∅ |} batch.

(** Every destination's task, and the pull-backs they return. *)
Definition run_tasks (net : Net) (room_shard : N) (s : Scan) (w : Worker) : list N * Worker :=
  foldl (λ '(pulls, w) dest,
    let '(pull, w') := deliver_pdus_to net room_shard dest
      (default [] (sc_queues s !! dest)) (default 0 (sc_cursors s !! dest)) w in
    (pulls ++ option_list pull, w'))
  ([], w) (btree (dom (sc_queues s))).

(** [deliver_pdus] on a batch that was read: the new floor and world. *)
Definition deliver_batch (dests : string → string → option (jvalue jnum * list string))
    (net : Net) (room_shard : N) (batch : list (N * SeqEntry)) (scan_pos : N) (w : Worker) :
    N * Worker :=
  match list.last batch with
  | None => (scan_pos, w)
  | Some (last, _) =>
      let s := scan_batch dests (w_fed w) room_shard batch in
      let '(pulls, w') := run_tasks net room_shard s w in
      (N.max (foldl N.min last pulls) scan_pos, w')
  end.

Definition deliver_pdus (rooms : ReadCtx) (net : Net) (room_shard scan_pos : N) (w : Worker) :
    N * Worker :=
  match timeline rooms scan_pos SCAN_BATCH with
  | Err _ => (scan_pos, w)
  | Ok batch => deliver_batch (event_destinations rooms) net room_shard batch scan_pos w
  end.

(** ** Ephemeral events *)

Definition edu_path (last_seq : N) : string := "/_matrix/federation/v1/send/edu" +:+ pretty last_seq.

Definition deliver_edus_to (net : Net) (dest : string) (w : Worker) : Worker :=
  if negb (ready (w_backoff w) (ready_at net dest) dest) then w
  else
    match edu_outbox (fed_ctx (w_fed w)) dest MAX_EDUS_PER_TXN with
    | Ok batch =>
        match list.last batch with
        | Some (last_seq, _) =>
            let path := edu_path last_seq in
            if put net dest path then
              {| w_fed := if committed net dest path
                          then propose_fed (AckEdus dest last_seq) (w_fed w) else w_fed w;
                 w_backoff := success dest (w_backoff w);
                 w_sent := w_sent w
                   ++ [(dest, path, (filter (λ r, is_Some (from_slice r.2)) batch).*1)] |}
            else {| w_fed := w_fed w;
                    w_backoff := failure (failed_at net dest) dest (w_backoff w);
                    w_sent := w_sent w |}
        | None => w
        end
    | Err _ => w
    end.

Definition deliver_edus (net : Net) (w : Worker) : Worker :=
  foldl (λ w dest, deliver_edus_to net dest w) w (edu_destinations (fed_ctx (w_fed w))).

End Worker.
