(* ===== verification/FedOutDemo.v ===== *)
(** * A fed-out shard, and a room to deliver from it, for the witnesses *)

From Stdlib Require Import Ascii.
From S2P Require Import Prelude Store Codec Shard ShardFacts Demo FedOut.
From stdpp Require Import options.

Local Open Scope N_scope.

Definition codec_edu : Codec OutboundEdu.
Proof.
  refine (codec_iso (codec_pair codec_string codec_string)
    (λ e, (destination e, edu_json e)) (λ '(d, j), {| destination := d; edu_json := j |}) _).
  abstract (by intros []).
Defined.

Definition codec_fed_cmd : Codec FedOutCommand.
Proof.
  refine (codec_iso
    (codec_sum (codec_list codec_edu) (codec_sum (codec_pair codec_string codec_nat)
      (codec_sum (codec_pair codec_nat (codec_pair codec_string codec_nat))
        (codec_sum codec_nat (codec_pair codec_string (codec_pair codec_nat codec_nat))))))
    (λ c, match c with
          | EnqueueEdus l => inl l
          | AckEdus d u => inr (inl (d, u))
          | AdvancePduCursor s d u => inr (inr (inl (s, (d, u))))
          | SetDrainMarker u => inr (inr (inr (inl u)))
          | AdvanceAsCursor a s u => inr (inr (inr (inr (a, (s, u)))))
          end)
    (λ x, match x with
          | inl l => EnqueueEdus l
          | inr (inl (d, u)) => AckEdus d u
          | inr (inr (inl (s, (d, u)))) => AdvancePduCursor s d u
          | inr (inr (inr (inl u))) => SetDrainMarker u
          | inr (inr (inr (inr (a, (s, u))))) => AdvanceAsCursor a s u
          end) _).
  abstract (by intros []).
Defined.

Definition codec_fed_resp : Codec FedOutResponse.
Proof.
  refine (codec_iso codec_unit (λ _, tt) (λ _, FedOutOk) _). abstract (by intros []).
Defined.

#[export] Instance demo_fed_codecs : FedOutCodecs.
Proof.
  refine {| fc_command := codec_fed_cmd; fc_response := codec_fed_resp; fc_u64 := codec_nat |}.
  by intros [].
Defined.

Definition fed_entry (id : N) (cmd : FedOutCommand) : Entry := demo_entry id (enc cmd).

Definition edu (d j : string) : OutboundEdu := {| destination := d; edu_json := j |}.

Definition fed_batches : list (list Entry) :=
  [[fed_entry 1 (EnqueueEdus [edu "a" "1"; edu "b" "2"; edu "a" "3"])];
   [fed_entry 2 (AckEdus "a" 1); fed_entry 3 (EnqueueEdus [edu "a" "4"]);
    fed_entry 4 (AdvancePduCursor 0 "a" 7); fed_entry 5 (AdvancePduCursor 0 "a" 5)];
   [fed_entry 6 (AdvanceAsCursor "irc" 0 0)]].

Definition fed_end : engine :=
  match sm_run FED_OUT_SHARD FedOutApp fed_batches ∅ with Ok (e, _) => e | Err _ => ∅ end.

(** ** A room to deliver

    Hal on server [h] writes in a room that Ann of [a] and Carol of [c] have
    joined; [c] accepts nothing. *)

From S2P Require Import Bytes Json RoomTypes RoomMachine RoomDemo RoomRead.
From S2P Require Import CoreEvent AuthDemo Delivery.


(** Text is a list of fields, repeated under [content]. *)
Definition fed_serde : SerdeJson := {|
  jnum := Z; jnum_i64 z := Some z; jnum_f64_i64 z := Some z;
  jnum_u64 z := if (z <? 0)%Z then None else Some (Z.to_N z);
  from_slice s :=
    l ← dec (A := list (string * string)) (Codec := demo_fields) s;
    let fields := (λ kv : string * string, (kv.1, VStr kv.2)) <$> l in
    Some (VObj (("content"%string, VObj fields) :: fields));
  to_vec _ := EmptyString |}.

Definition stored (l : list (string * string)) : StoredEvent := {|
  se_raw := demo_raw l; se_seq := 0; se_state_group_after := 1; se_depth := 1; se_rejected := None;
  se_history_idx := None; se_imported := false; se_relay := false |}.

Definition joined : StoredEvent := stored [("membership", "join")]%string.
Definition message : StoredEvent := stored [("sender", "@hal:h"); ("type", "m.room.message")]%string.

Definition members : StateGroup := {|
  sg_parent := None; sg_chain_len := 0;
  sg_entries := [(("m.room.member", "@ann:a"), "$ma"); (("m.room.member", "@carol:c"), "$mc")] |}%string.

Definition room_rec : RoomMeta := {|
  rm_version := "12"; rm_create_event_id := "$c"; rm_current_group := 1; rm_next_group := 2;
  rm_extremities := []; rm_history_frontier := []; rm_next_history_idx := 0; rm_gap_markers := [] |}.

(** The room, with [count] messages on the timeline. *)
Definition fed_rooms (count : nat) : ReadCtx := {|
  r_shard := demo_shard;
  r_engine := list_to_map
    ((ctx_key demo_shard T_ROOM "!r", enc room_rec)
     :: (ctx_key demo_shard T_GROUP (room_u64_key "!r" 1), enc members)
     :: (ctx_key demo_shard T_EVENT "$ma", enc joined)
     :: (ctx_key demo_shard T_EVENT "$mc", enc joined)
     :: (ctx_key demo_shard T_EVENT "$m", enc message)
     :: ((λ n, (ctx_key demo_shard T_SEQ (be64 (N.of_nat n)), enc (SeqEvent "!r" "$m"))) <$> List.seq 1 count))%string |}.

Definition only_a : Net := {|
  put d _ := bool_decide (d = "a"%string); committed _ _ := true; ready_at _ := 0; failed_at _ := 0 |}.

Definition fed_worker (e : engine) : Worker := {| w_fed := e; w_backoff := ∅; w_sent := [] |}.

#[local] Existing Instance fed_serde.

Example fed_dests : event_destinations "h" (fed_rooms 3) "!r" "$m" =
  Some (default VNull (from_slice (se_raw message)), ["a"; "c"]%string).
Proof. vm_compute. reflexivity. Qed.

Definition log_one : engine → LogId (Raft := demo_raft) := λ _, 1.

Example fed_first_pass :
  let '(pos, w) := deliver_pdus log_one "h" (fed_rooms 9) only_a 0 0 (fed_worker fed_end) in
  pos = 0 ∧ w_sent w = [("a", "/_matrix/federation/v1/send/0_8_9", [8; 9])]%string.
Proof. vm_compute. split; reflexivity. Qed.
