(* ===== verification/Outbox.v ===== *)
(** * The outbox is a queue per destination

    The outbox rows of the fed-out shard represent a finite map from
    destination and sequence number to EDU; commands act on the map, and what
    the delivery worker reads is the map's queue for its destination. *)

From Stdlib Require Import Ascii.
From S2P Require Import Prelude Bytes Order Store Codec Shard ShardFacts Track FedOut.
From S2P Require Import FedOut.
From stdpp Require Import options.

Local Open Scope N_scope.

(** ** The abstract outbox *)

Abbreviation outbox := (gmap (string * N) bytes) (only parsing).

Definition queue_seqs (O : outbox) (d : string) : gset N :=
  set_map snd (filter (λ p, p.1 = d) (dom O)).

Definition queue (O : outbox) (d : string) : list (N * bytes) :=
  (λ n, (n, default EmptyString (O !! (d, n)))) <$> ascending (queue_seqs O d).

Lemma elem_of_queue_seqs O d n : n ∈ queue_seqs O d ↔ is_Some (O !! (d, n)).
Proof.
  unfold queue_seqs. rewrite elem_of_map. setoid_rewrite elem_of_filter. setoid_rewrite elem_of_dom.
  split.
  - intros ([d' n'] & -> & Hd & H). simpl in *. by subst d'.
  - intros H. by exists (d, n).
Qed.

Lemma elem_of_queue O d n v : (n, v) ∈ queue O d ↔ O !! (d, n) = Some v.
Proof.
  unfold queue. rewrite list_elem_of_fmap. setoid_rewrite elem_of_ascending.
  setoid_rewrite elem_of_queue_seqs. split.
  - intros (m & [= -> ->] & [w Hw]). by rewrite Hw.
  - intros H. exists n. split; [by rewrite H|by eexists].
Qed.

(** What each command does: the number of records emitted, and the rows. *)
Definition enqueue_spec (x : N * outbox) (edu : OutboundEdu) : N * outbox :=
  (x.1 + 1, <[(destination edu, x.1 + 1) := edu_json edu]> x.2).

Definition outbox_spec (cmd : FedOutCommand) (x : N * outbox) : N * outbox :=
  match cmd with
  | EnqueueEdus entries => foldl enqueue_spec x entries
  | AckEdus d u => (x.1, filter (λ r, ¬ (r.1.1 = d ∧ r.1.2 ≤ u)) x.2)
  | _ => x
  end.

(** Server names hold no NUL. *)
Definition plain_dests (cmd : FedOutCommand) : Prop :=
  match cmd with
  | EnqueueEdus entries => Forall (λ edu, nul_free (destination edu) = true) entries
  | AckEdus d _ => nul_free d = true
  | _ => True
  end.

(** Acknowledgements of rows that were read: they are at most the number of
    records emitted before the batch. *)
Definition acks_read (n : N) (cmd : FedOutCommand) : Prop :=
  match cmd with AckEdus _ u => u ≤ n | _ => True end.

Definition row_key (p : string * N) : bytes := dest_key p.1 (be64 p.2).

(** [f], the table's cells, are the rows of [O], numbered up to [n]. *)
Record represents (f : bytes → option bytes) (n : N) (O : outbox) : Prop := {
  rep_row : ∀ p v, O !! p = Some v → f (row_key p) = Some v;
  rep_only : ∀ k v, f k = Some v → ∃ p, k = row_key p ∧ O !! p = Some v;
  rep_plain : ∀ p v, O !! p = Some v → nul_free p.1 = true ∧ p.2 ≤ n;
}.

Lemma row_key_inj n p q :
  n + 1 < u64_modulus → nul_free p.1 = true → nul_free q.1 = true → p.2 ≤ n + 1 → q.2 ≤ n + 1 →
  row_key p = row_key q → p = q.
Proof.
  destruct p as [d i], q as [d' j]. unfold row_key; simpl. intros Hn Hd Hd' Hi Hj He.
  apply dest_key_inj in He as [-> ->]; [done|done|done|lia|lia].
Qed.

Lemma represents_put f n O d v :
  n + 1 < u64_modulus → nul_free d = true → represents f n O →
  represents (λ k, if decide (row_key (d, n + 1) = k) then Some v else f k) (n + 1)
    (<[(d, n + 1) := v]> O).
Proof.
  intros Hn Hd [H1 H2 H3]. split.
  - intros p w Hp. apply lookup_insert_Some in Hp as [[<- <-]|[Hne Hp]]; [by rewrite decide_True|].
    destruct (H3 _ _ Hp) as [Hp1 Hp2]. rewrite decide_False; [by apply H1|].
    intros He. apply Hne. eapply (row_key_inj n); simpl; (done || lia || exact He).
  - intros k w. case_decide as Hk.
    + intros [= <-]. exists (d, n + 1). by rewrite lookup_insert_eq.
    + intros Hw. destruct (H2 _ _ Hw) as (p & -> & Hp). exists p. split; [done|].
      rewrite lookup_insert_ne; [done|]. by intros <-.
  - intros p w Hp. apply lookup_insert_Some in Hp as [[<- _]|[_ Hp]]; [by split; [|simpl; lia]|].
    destruct (H3 _ _ Hp). split; [done|lia].
Qed.

(** A row lies in the range of an acknowledgement exactly when it is one of
    the destination's rows up to the acknowledged one. *)
Lemma ack_range d u p :
  nul_free d = true → nul_free p.1 = true → u + 1 < u64_modulus → p.2 < u64_modulus →
  String.leb (dest_key d EmptyString) (row_key p) = true
    ∧ below (dest_key d (be64 (u + 1))) (row_key p) = true ↔ p.1 = d ∧ p.2 ≤ u.
Proof.
  destruct p as [d' m]. unfold row_key; simpl. intros Hd Hd' Hu Hm.
  assert (∀ r, dest_key d r = dest_key d EmptyString +:+ r) as Hk.
  { intros r. unfold dest_key. by rewrite str_app_assoc. }
  assert (∀ s, below (dest_key d (be64 (u + 1))) s = String.ltb s (dest_key d (be64 (u + 1)))) as Hb.
  { intros s. unfold dest_key, below. by destruct (d +:+ _) eqn:E; destruct d. }
  rewrite Hb. split.
  - intros [H1 H2]. rewrite (Hk (be64 (u + 1))) in H2.
    destruct (between_common_prefix (dest_key d EmptyString) EmptyString (be64 (u + 1))
      (dest_key d' (be64 m))) as [k' Hk'].
    { rewrite str_app_nil_r. unfold between. by rewrite H1, H2. }
    assert (dest_key d' (be64 m) = d +:+ String b0 k') as He.
    { rewrite Hk'. unfold dest_key. by rewrite str_app_assoc. }
    apply nul_split_inj in He as [-> <-]; [|done..]. split; [done|].
    rewrite (Hk (be64 m)), sltb_app, be64_ltb in H2 by done. apply N.ltb_lt in H2. lia.
  - intros [-> Hle]. rewrite (Hk (be64 m)), (Hk (be64 (u + 1))), sltb_app, be64_ltb by done.
    rewrite <-(str_app_nil_r (dest_key d EmptyString)) at 1. rewrite sleb_app, sleb_nil.
    split; [done|]. apply N.ltb_lt. lia.
Qed.

Lemma represents_ack f (g : bytes → option bytes) n O d u (ks : list bytes) :
  represents f n O → nul_free d = true → u + 1 < u64_modulus → n < u64_modulus →
  (∀ k, k ∈ ks ↔ is_Some (g k)
    ∧ String.leb (dest_key d EmptyString) k = true ∧ below (dest_key d (be64 (u + 1))) k = true) →
  (∀ p v, O !! p = Some v → p.2 ≤ u → is_Some (g (row_key p))) →
  represents (λ k, if decide (k ∈ ks) then None else f k) n
    (filter (λ r, ¬ (r.1.1 = d ∧ r.1.2 ≤ u)) O).
Proof.
  intros [H1 H2 H3] Hd Hu Hn Hks Hg.
  assert (∀ p v, O !! p = Some v → row_key p ∈ ks ↔ p.1 = d ∧ p.2 ≤ u) as Hin.
  { intros p v Hp. destruct (H3 _ _ Hp) as [Hpl Hpn]. rewrite Hks.
    rewrite <-(ack_range d u p Hd Hpl Hu) by lia. split; [by intros [_ ?]|]. intros Hr.
    split; [|done]. apply (ack_range d u p Hd Hpl Hu) in Hr as [_ Hle]; [|lia]. by eapply Hg. }
  split.
  - intros p v [Hp Hf]%map_lookup_filter_Some. rewrite decide_False; [by apply H1|].
    rewrite (Hin p v Hp). by simpl in Hf.
  - intros k v. case_decide as Hk; [done|]. intros Hf. destruct (H2 _ _ Hf) as (p & -> & Hp).
    exists p. split; [done|]. apply map_lookup_filter_Some. split; [done|]. simpl.
    by rewrite <-(Hin p v Hp).
  - intros p v [Hp _]%map_lookup_filter_Some. by apply (H3 _ v).
Qed.

(** ** Commands act on the map *)

Section Outbox.
Context `{FC : FedOutCodecs, UL : Utf8Lossy}.
Context `{HR : Raft}.
Context `{!Codec (option LogId), !Codec StoredMembership}.
Context `{!Codec RuntimeCommand, !Codec RuntimeResponse}.

Section Batch.
Context (e0 : engine) (n0 : N).

(** The invariant of a batch that started on [e0] with [n0] records. *)
Definition outbox_rel (x : N * outbox) (env : ApplyEnv) (c : ApplyState) : Prop :=
  shard env = FED_OUT_SHARD ∧ ctx_engine env = e0 ∧
  (x.1 + 1 < u64_modulus →
    seq c = x.1 ∧ n0 ≤ x.1 ∧ represents (tget env c T_EDU_OUTBOX) x.1 x.2
    ∧ ∀ p v, x.2 !! p = Some v → p.2 ≤ n0 →
        is_Some (eget FED_OUT_SHARD e0 T_EDU_OUTBOX (row_key p))).

Lemma represents_ext f g n O : (∀ k, f k = g k) → represents f n O → represents g n O.
Proof.
  intros He [H1 H2 H3]. split; [|intros k v; rewrite <-He; apply H2|done].
  intros p v Hp. rewrite <-He. by apply H1.
Qed.

Lemma enqueue_grows entries x : x.1 ≤ (foldl enqueue_spec x entries).1.
Proof.
  revert x. induction entries as [|edu entries IH]; intros x; simpl; [lia|].
  etrans; [|apply IH]. simpl. lia.
Qed.

Lemma outbox_enqueue entries x env c :
  Forall (λ edu, nul_free (destination edu) = true) entries → outbox_rel x env c →
  wp (app_iter enqueue entries) env (λ _ c', outbox_rel (foldl enqueue_spec x entries) env c') c.
Proof.
  intros Hpl Hx. remember (foldl enqueue_spec x entries) as xf eqn:Hxf0. unfold app_iter.
  eapply wp_mono; cycle 1.
  - apply (wp_fold_rest _ _ (λ l _ c, ∃ x, outbox_rel x env c ∧ foldl enqueue_spec x l = xf
      ∧ Forall (λ edu, nul_free (destination edu) = true) l)); [|by exists x].
    clear x Hpl Hx Hxf0. intros [] edu l c1 (x & (Hs & He & Hrel) & Hxf & Hpl).
    inversion_clear Hpl as [|? ? Hd Hl]. unfold enqueue. wp_step. wp_step. wp_step.
    exists (enqueue_spec x edu). split_and!; [|done|done]. split; [done|]. split; [done|].
    cbn [enqueue_spec fst snd]. intros Hn. destruct (Hrel ltac:(lia)) as (Hseq & Hle & Hrep & Hold).
    rewrite Hseq, add64_small by lia. split_and!; [done|lia| |].
    + apply (represents_ext (λ k, if decide (row_key (destination edu, x.1 + 1) = k)
        then Some (edu_json edu) else tget env c1 T_EDU_OUTBOX k)); [|by apply represents_put; [lia|..]].
      intros k. rewrite tget_put by done. unfold row_key; simpl.
      destruct (decide (dest_key _ _ = k)) as [Hk|Hk].
      * by rewrite decide_True.
      * rewrite decide_False by naive_solver. done.
    + intros p v Hp Hpn. apply lookup_insert_Some in Hp as [[<- _]|[_ Hp]]; [simpl in Hpn; lia|].
      by eapply Hold.
  - intros [] c' (x' & Hx' & <- & _). done.
Qed.

Lemma delete_all ks env c :
  wp (app_iter (λ kv : bytes * bytes, ctx_delete T_EDU_OUTBOX kv.1) ks) env (λ _ c',
    seq c' = seq c ∧ ∀ k, tget env c' T_EDU_OUTBOX k =
      if decide (k ∈ ks.*1) then None else tget env c T_EDU_OUTBOX k) c.
Proof.
  unfold app_iter. revert c. induction ks as [|[k0 v0] ks IH]; intros c; cbn [app_fold].
  { apply wp_ret. split; [done|]. intros k. rewrite decide_False; [done|]. apply not_elem_of_nil. }
  wp_step. unfold wp at 1, ctx_delete. eapply wp_mono; [|apply IH].
  intros [] c' [Hs Hk]. split; [done|]. intros k. rewrite Hk. cbn [fmap list_fmap fst].
  rewrite tget_delete by done. destruct (decide (k ∈ ks.*1)) as [Hin|Hin].
  - rewrite decide_True; [done|by right].
  - destruct (decide (k0 = k)) as [->|Hne].
    + rewrite decide_True by done. rewrite decide_True; [done|by left].
    + rewrite decide_False by naive_solver. rewrite decide_False; [done|].
      intros [?|?]%elem_of_cons; [congruence|done].
Qed.

Lemma outbox_ack d u x env c :
  nul_free d = true → u ≤ n0 → outbox_rel x env c →
  wp (fed_command (AckEdus d u)) env (λ _ c', outbox_rel (outbox_spec (AckEdus d u) x) env c') c.
Proof.
  intros Hd Hu (Hs & He & Hrel). cbn [fed_command outbox_spec].
  set (rs := rows FED_OUT_SHARD T_EDU_OUTBOX (dest_key d EmptyString) (dest_key d (be64 (add64 u 1))) e0).
  assert (ctx_range T_EDU_OUTBOX (dest_key d EmptyString) (dest_key d (be64 (add64 u 1))) env c = Ok (rs, c))
    as Hrange.
  { unfold ctx_range, rs, rows. rewrite Hs, He. by destruct (range_bounds _ _ _ _). }
  wp_step. unfold wp at 1. rewrite Hrange. eapply wp_mono; [|apply delete_all].
  intros [] c' [Hseq Hk]. split; [done|]. split; [done|]. cbn [fst snd]. intros Hn.
  destruct (Hrel Hn) as (Hseq0 & Hle & Hrep & Hold). split_and!; [congruence|done| |].
  - eapply represents_ext; [intros k; symmetry; apply Hk|].
    apply (represents_ack _ (eget FED_OUT_SHARD e0 T_EDU_OUTBOX)); [done|done|lia|lia| |].
    + intros k. unfold rs. rewrite add64_small by lia. rewrite list_elem_of_fmap. split.
      * intros ([k' v] & -> & Hin). apply elem_of_rows in Hin as (Hin & H1 & H2); [|done].
        split; [by eexists|done].
      * intros ([v Hv] & H1 & H2). exists (k, v). split; [done|]. by apply elem_of_rows.
    + intros p v Hp Hpu. eapply Hold; [done|lia].
  - intros p v [Hp _]%map_lookup_filter_Some. by eapply Hold.
Qed.
End Batch.

(** ** Batches *)

Definition outbox_step (cmd : bytes) (x : N * outbox) : N * outbox :=
  match dec (A := FedOutCommand) cmd with Some cm => outbox_spec cm x | None => x end.

(** What the batch that starts with [n] records may hold. *)
Definition proper (n : N) (cmd : bytes) : Prop :=
  ∀ cm, dec (A := FedOutCommand) cmd = Some cm → plain_dests cm ∧ acks_read n cm.

Lemma outbox_rel_ext e0 n0 x env c c' :
  outbox_rel e0 n0 x env c → seq c' = seq c →
  (∀ t k, 8 < t < 256 → tget env c' t k = tget env c t k) → outbox_rel e0 n0 x env c'.
Proof.
  intros (Hs & He & Hrel) Hseq Hk. split; [done|]. split; [done|]. intros Hn.
  destruct (Hrel Hn) as (? & ? & Hrep & ?). split_and!; [congruence|done| |done].
  eapply represents_ext; [|exact Hrep]. intros k. by rewrite Hk.
Qed.

Lemma outbox_advance e0 n0 x what t key u env c :
  8 < t < 256 → t ≠ T_EDU_OUTBOX → outbox_rel e0 n0 x env c →
  wp (advance what t key u) env (λ _ c', outbox_rel e0 n0 x env c') c.
Proof.
  intros Ht Hne Hx. unfold advance. wp_step. wp_step. wp_step.
  apply (wp_mono _ _ (λ _ c1, c1 = c)).
  2: { destruct (tget _ _ _ _); [by apply wp_lift|by apply wp_ret]. }
  intros m ? ->. destruct (m <? u); wp_step; [|done].
  destruct Hx as (Hs & He & Hrel). split; [done|]. split; [done|]. intros Hn.
  destruct (Hrel Hn) as (? & ? & Hrep & ?). split_and!; [done..| |done].
  eapply represents_ext; [|exact Hrep]. intros k. by rewrite tget_put_other by (done || lia).
Qed.

Lemma outbox_tracks e0 n0 :
  tracks FED_OUT_SHARD FedOutApp (outbox_rel e0 n0) outbox_step (proper n0).
Proof.
  split.
  - intros. by eapply outbox_rel_ext.
  - intros cmd x env c Hok _ Hx. simpl. unfold fed_apply. wp_step. apply wp_lift. intros cm Hcm.
    unfold dec_or in Hcm. unfold outbox_step, proper in *. destruct (dec cmd) as [cm'|]; [|done].
    injection Hcm as ->. destruct (Hok cm eq_refl) as [Hpl Hack]. wp_step.
    apply (wp_mono _ _ (λ _ c', outbox_rel e0 n0 (outbox_spec cm x) env c')).
    { intros [] c' H. by wp_step. }
    destruct cm; [by apply outbox_enqueue|by apply outbox_ack|by apply outbox_advance..].
  - intros to x env c _ Hx. simpl. unfold fed_migrate. destruct (to =? 2); by wp_step.
Qed.

Lemma untouched_fed cmd : keeps (untouched FED_OUT_SHARD) (fed_apply cmd).
Proof.
  unfold fed_apply. apply keeps_bind; [apply keeps_lift|]. intros []; cbn [fed_command];
    unfold enqueue, advance; solve_keeps.
Qed.

(** The engine's outbox at rest. *)
Definition outbox_at (e : engine) (x : N * outbox) : Prop :=
  x.1 + 1 < u64_modulus →
  sm_seq FED_OUT_SHARD e = Ok x.1 ∧ represents (eget FED_OUT_SHARD e T_EDU_OUTBOX) x.1 x.2.

Lemma spec_grows cmds x : x.1 ≤ (track outbox_step cmds x).1.
Proof.
  revert x. induction cmds as [|cmd cmds IH]; intros x; [done|]. unfold track in *. simpl.
  etrans; [|apply IH]. unfold outbox_step. destruct (dec cmd) as [[]|]; simpl; try lia.
  apply enqueue_grows.
Qed.

Lemma outbox_apply l e e' rs pub x :
  outbox_at e x → Forall (proper x.1) (commands l) →
  sm_apply FED_OUT_SHARD FedOutApp l e = Ok (e', rs, pub) →
  outbox_at e' (track outbox_step (commands l) x).
Proof.
  intros He Hok Hap Hn. pose proof (spec_grows (commands l) x) as Hgr.
  destruct (He ltac:(lia)) as [Hseq Hrep].
  apply (sm_apply_inv FED_OUT_SHARD FedOutApp) in Hap as (n & c & Hn0 & _ & Hrun & He' & Heq).
  assert (n = x.1) as -> by congruence.
  pose proof (track_entries _ _ _ _ _ (outbox_tracks e x.1) l x (apply_env FED_OUT_SHARD e)
    (apply_init x.1) Hok eq_refl) as HW.
  unfold wp in HW. rewrite Hrun in HW. destruct HW as (_ & _ & HW).
  { split; [done|]. split; [done|]. intros _. split_and!; [done|lia|exact Hrep|].
    intros p v Hp _. eexists. by apply Hrep. }
  destruct (HW Hn) as (Hseq' & _ & Hrep' & _). split.
  - rewrite <-Hseq'. eapply sm_apply_seq; [| |exact Hseq|exact Hrun|exact He'].
    + apply untouched_fed.
    + intros to. simpl. unfold fed_migrate. solve_keeps.
  - eapply represents_ext; [|exact Hrep']. intros k. by rewrite Heq.
Qed.

(** ** Reading a queue *)

Definition queue_row (d : string) (r : N * bytes) : bytes * bytes := (row_key (d, r.1), r.2).

Lemma queue_sorted O d : StronglySorted (λ a b : N * bytes, a.1 < b.1) (queue O d).
Proof.
  unfold queue. pose proof (ascending_sorted (queue_seqs O d)) as HS. induction HS as [|n l Hl IH Hn];
    [constructor|]. simpl. constructor; [done|]. apply list.Forall_fmap.
  eapply list.Forall_impl; [exact Hn|]. done.
Qed.

Lemma dest_range d k :
  String.leb (dest_key d EmptyString) k = true ∧ below (d +:+ str1 b1) k = true ↔
  ∃ t, k = dest_key d t.
Proof.
  assert (below (d +:+ str1 b1) k = String.ltb k (d +:+ str1 b1)) as -> by (by destruct d).
  pose proof (between_prefix d b0 k eq_refl) as HB. unfold between in HB.
  rewrite andb_true_iff, starts_with_spec in HB.
  change (byte_of (N_of_ascii b0 + 1)) with b1 in HB.
  change (dest_key d EmptyString) with (d +:+ str1 b0). rewrite HB.
  split; intros [t ->]; exists t; unfold dest_key; by rewrite str_app_assoc.
Qed.

Lemma queue_rows e n O d :
  represents (eget FED_OUT_SHARD e T_EDU_OUTBOX) n O → n < u64_modulus → nul_free d = true →
  rows FED_OUT_SHARD T_EDU_OUTBOX (dest_key d EmptyString) (d +:+ str1 b1) e = queue_row d <$> queue O d.
Proof.
  intros [H1 H2 H3] Hn Hd.
  assert (∀ r, r ∈ queue O d → r.1 ≤ n ∧ O !! (d, r.1) = Some r.2) as Hq.
  { intros [m v] Hr%elem_of_queue. split; [|done]. by apply (H3 (d, m) v). }
  assert (∀ a b, a ∈ queue O d → b ∈ queue O d → row_key (d, a.1) = row_key (d, b.1) → a.1 = b.1) as Hinj.
  { intros a b Ha Hb He. apply dest_key_inj in He as [_ ?]; [done|done|done|..];
      [apply Hq in Ha|apply Hq in Hb]; simpl in *; lia. }
  pose proof (queue_sorted O d) as HS. apply rows_unique; [done|..].
  - revert HS Hq. clear Hinj. induction 1 as [|a l Hl IH Ha]; intros Hq; [constructor|]. simpl.
    constructor; [apply IH; intros; apply Hq; by right|]. apply list.Forall_fmap, list.Forall_forall.
    intros b Hb. eapply list.Forall_forall in Ha; [|done]. unfold kv_le; simpl.
    apply sleb_le. unfold row_key, dest_key; simpl. rewrite sleb_app.
    change (String.leb (str1 b0 +:+ be64 a.1) (str1 b0 +:+ be64 b.1) = true).
    rewrite sleb_app. destruct (Hq a ltac:(by left)) as [? _], (Hq b ltac:(by right)) as [? _].
    rewrite be64_leb by lia. apply N.leb_le. lia.
  - revert HS Hinj. clear Hq. induction 1 as [|a l Hl IH Ha]; intros Hinj; [constructor|]. simpl.
    constructor; [|apply IH; intros ????; apply Hinj; by right].
    intros (b & He & Hb)%list_elem_of_fmap. eapply list.Forall_forall in Ha; [|done].
    apply (f_equal fst) in He. apply Hinj in He; [lia|by left|by right].
  - intros k v. rewrite list_elem_of_fmap, dest_range. split.
    + intros ([m w] & [= -> ->] & Hr). apply Hq in Hr as [_ Hr]. simpl in *.
      split; [by apply H1|by exists (be64 m)].
    + intros [Hk [t ->]]. destruct (H2 _ _ Hk) as ([d' m] & He & Hp).
      destruct (H3 _ _ Hp) as [Hpl _]. unfold row_key, dest_key in He; simpl in *.
      apply nul_split_inj in He as [<- ->]; [|done..]. exists (m, v). split; [done|].
      by apply elem_of_queue.
Qed.

Lemma outbox_loop_rows d q limit out :
  (∀ r, r ∈ q → r.1 < u64_modulus) →
  outbox_loop limit (String.length (dest_key d EmptyString)) (queue_row d <$> q) out =
    Ok (out ++ take (limit - length out) q).
Proof.
  revert out. induction q as [|[m v] q IH]; intros out Hq; cbn [fmap list_fmap outbox_loop].
  { by rewrite take_nil, app_nil_r. }
  unfold queue_row at 1; cbn [fst snd]. case_bool_decide as Hl.
  { replace (limit - length out)%nat with 0%nat by lia. by rewrite take_0, app_nil_r. }
  assert (str_drop (String.length (dest_key d EmptyString)) (row_key (d, m)) = be64 m) as ->.
  { unfold row_key; simpl. change (dest_key d (be64 m)) with (d +:+ (str1 b0 +:+ be64 m)).
    rewrite <-str_app_assoc. apply str_drop_app. }
  rewrite from_be64_be64 by (apply (Hq (m, v)); by left). cbn [ok_or]. fold (queue_row d).
  rewrite IH by (intros r Hr; apply Hq; by right). rewrite length_app; simpl. rewrite <-app_assoc.
  replace (limit - length out)%nat with (S (limit - (length out + 1)))%nat by lia. done.
Qed.

(** Every batch is proper for what the ones before it emitted. *)
Fixpoint in_time (x : N * outbox) (batches : list (list Entry)) : Prop :=
  match batches with
  | [] => True
  | l :: batches =>
      Forall (proper x.1) (commands l) ∧ in_time (track outbox_step (commands l) x) batches
  end.

Lemma outbox_run batches e e' pub0 log x :
  outbox_at e x → in_time x batches →
  try_fold (λ '(e, log) l, let? (e', _, pub) := sm_apply FED_OUT_SHARD FedOutApp l e in
    Ok (e', log ++ pub)) (e, pub0) batches = Ok (e', log) →
  outbox_at e' (track outbox_step (commands (concat batches)) x).
Proof.
  revert e pub0 x. induction batches as [|l batches IH]; intros e pub0 x He; cbn [in_time try_fold concat].
  { by intros _ [= <- _]. }
  intros [Hl Hb]. destruct (sm_apply _ _ _ _) as [[[e1 rs] pub]|] eqn:Hap; [|done]. intros Hrun.
  unfold commands. rewrite omap_app. unfold track. rewrite foldl_app.
  eapply IH; [|exact Hb|exact Hrun]. by eapply outbox_apply.
Qed.

(** C39 (refinement): run any batches of committed entries on an empty fed-out
    shard, where acknowledgements are of rows that were applied before their
    batch.  What the delivery worker then reads for a destination is its queue
    in the abstract outbox, oldest first and cut at the limit: the EDUs
    enqueued for it, in order, numbered by their records, less those an
    acknowledgement covered. *)
Theorem outbox_is_a_queue batches e log d limit :
  sm_run FED_OUT_SHARD FedOutApp batches ∅ = Ok (e, log) →
  in_time (0, ∅) batches →
  let x := track outbox_step (commands (concat batches)) (0, ∅) in
  x.1 + 1 < u64_modulus → nul_free d = true →
  edu_outbox {| r_shard := FED_OUT_SHARD; r_engine := e |} d limit = Ok (take limit (queue x.2 d)).
Proof.
  intros Hrun Hin x Hx Hd.
  assert (outbox_at ∅ (0, ∅)) as H0.
  { intros _. split; [done|]. split; [by intros p v Hp|by intros k v Hk|by intros p v Hp]. }
  destruct (outbox_run batches ∅ e [] log (0, ∅) H0 Hin Hrun Hx) as [_ Hrep]. fold x in Hrep.
  unfold edu_outbox. rewrite read_range_rows, (queue_rows e x.1 x.2 d Hrep) by (done || lia).
  rewrite outbox_loop_rows, Nat.sub_0_r; [done|]. intros [m v] Hr%elem_of_queue.
  destruct (rep_plain _ _ _ Hrep _ _ Hr) as [_ ?]. simpl in *. lia.
Qed.
End Outbox.

From S2P Require Import Demo FedOutDemo.

Lemma fed_run_ok : ∃ log, sm_run FED_OUT_SHARD FedOutApp fed_batches ∅ = Ok (fed_end, log).
Proof.
  unfold fed_end. assert (is_ok (sm_run FED_OUT_SHARD FedOutApp fed_batches ∅) = true) as H
    by (vm_compute; reflexivity).
  destruct (sm_run FED_OUT_SHARD FedOutApp fed_batches ∅) as [[e log]|]; [by exists log|done].
Qed.

Lemma commands_fed id cmd l : commands (fed_entry id cmd :: l) = enc cmd :: commands l.
Proof.
  unfold commands, app_payload, fed_entry, demo_entry. cbn [omap list_omap payload].
  pose proof (fc_command_marked cmd) as Hm. destruct (enc cmd); [done|]. by rewrite bool_decide_false.
Qed.

Lemma proper_enc n cmd : plain_dests cmd → acks_read n cmd → proper n (enc cmd).
Proof. intros ?? cm Hc. rewrite dec_enc in Hc. by injection Hc as <-. Qed.

Lemma fed_in_time : in_time (0, ∅) fed_batches.
Proof.
  unfold fed_batches. cbn [in_time]. rewrite !commands_fed. change (commands []) with (@nil bytes).
  split; [|split; [|split; [|done]]]; rewrite ?list.Forall_cons; repeat (split; [apply proper_enc|]);
    try apply list.Forall_nil_2; try done.
  all: first [by repeat constructor | by vm_compute].
Qed.

Lemma outbox_is_a_queue_witness :
  edu_outbox {| r_shard := FED_OUT_SHARD; r_engine := fed_end |} "a" 5 =
    Ok [(3, "3"%string); (4, "4"%string)].
Proof.
  destruct fed_run_ok as [log Hrun].
  etransitivity; [apply (outbox_is_a_queue (FC := demo_fed_codecs) fed_batches fed_end log "a" 5 Hrun fed_in_time);
    vm_compute; reflexivity|].
  vm_compute. reflexivity.
Defined.

Lemma cursors_are_maxima_witness :
  cell_num (eget FED_OUT_SHARD fed_end T_PDU_CURSOR (cursor_key 0 "a")) = Some 7
  ∧ cell_num (eget FED_OUT_SHARD fed_end T_AS_CURSOR (as_cursor_key "irc" 0)) = None.
Proof.
  destruct fed_run_ok as [log Hrun]. split.
  - etransitivity; [exact (proj1 (cursors_are_maxima (FC := demo_fed_codecs) T_PDU_CURSOR (cursor_key 0 "a") fed_batches ∅ fed_end
      log ltac:(by left) Hrun))|]. vm_compute. reflexivity.
  - etransitivity; [exact (proj1 (cursors_are_maxima (FC := demo_fed_codecs) T_AS_CURSOR (as_cursor_key "irc" 0) fed_batches ∅
      fed_end log ltac:(by right; left) Hrun))|]. vm_compute. reflexivity.
Defined.
