(* ===== verification/Projection.v ===== *)
(** * The membership projection (saltator-userserver/src/lib.rs)

    The user shard indexes who is in which room.  A task on every node reads
    the room shard's timeline from the user shard's cursor, extracts the
    membership events and proposes them as one command; here is the task, and
    the system it runs in: replicas that lag, proposals that arrive late,
    more than once or never. *)

From Stdlib Require Import Ascii.
From S2P Require Import Prelude Bytes Store Codec Json Shard ShardFacts Track ShardSpec.
From S2P Require Import RoomTypes RoomMachine RoomRead RoomTimeline CoreEvent.
From S2P Require Import UserTypes UserMachine UserKeys UserQueues UserApply UserLog.
From stdpp Require Import pretty options.
Set Warnings "-register-all,-clear-no-such-hyp".

Local Open Scope N_scope.

(** [room_source] *)
Definition room_source (idx : N) : string := "room/" +:+ pretty idx.

Definition PROJECTION_BATCH : N := 512.

(** [UserError], without the texts. *)
Inductive UserError : Type :=
| UStorage (e : store_error)
| UCodec
| UInternal
| EUserExists
| EInvalidUsername
| EInvalidPassword
| EForbidden
| EInvalidGrant
| ENotFound
| EInvalidState
| EUiaRequestMismatch
| EInvalidToken
| ETokenExists
| EExternalIdInUse (owner : string)
| EAliasExists
| EShard.

Definition storage_err {A} (r : result store_error A) : result UserError A :=
  match r with Ok a => Ok a | Err e => Err (UStorage e) end.

Section Projection.
Context `{RC : RoomCodecs, UC : UserCodecs, SJ : SerdeJson, UL : Utf8Lossy, RU : Ruma}.

(** [UserStore::cursor] *)
Definition cursor (users : ReadCtx) (source : string) : result store_error N :=
  match read_get users T_CURSOR source with
  | Some b => ok_or (from_be64 b) (Engine "cursor width")
  | None => Ok 0
  end.

(** [UserStore::membership] *)
Definition membership (users : ReadCtx) (user_id room_id : string) :
    result store_error (option MembershipEntry) :=
  match read_get users T_MEMBERSHIP (user_key user_id room_id) with
  | Some b => let? m := dec_or (A := MembershipEntry) "membership decode" b in Ok (Some m)
  | None => Ok None
  end.

(** [v.get(key).and_then(|v| v.as_str())] *)
Definition vget_str (key : string) (v : jvalue jnum) : option string := x ← vget key v; vstr x.

(** The change an event's JSON is, if it is one. *)
Definition change_of_raw (raw : jvalue jnum) (room_id event_id : string) (room_seq : N) :
    option MembershipChange :=
  if bool_decide (vget_str "type" raw ≠ Some "m.room.member"%string) then None
  else
    state_key ← vget_str "state_key" raw;
    if negb (user_id_ok state_key) then None
    else
      membership ← (c ← vget "content" raw; vget_str "membership" c);
      let sender := default EmptyString (vget_str "sender" raw) in
      Some {| mc_user_id := state_key; mc_room_id := room_id; mc_membership := membership;
              mc_event_id := event_id; mc_sender := sender; mc_room_seq := room_seq |}.

(** [membership_change] *)
Definition membership_change (rooms : ReadCtx) (room_id event_id : string) (room_seq : N) :
    result UserError (option MembershipChange) :=
  let? stored := storage_err (event rooms event_id) in
  match stored with
  | None => Ok None
  | Some stored =>
      let? raw := ok_or (from_slice (se_raw stored)) UCodec in
      Ok (change_of_raw raw room_id event_id room_seq)
  end.

(** The loop over a batch of timeline entries. *)
Definition batch_changes (rooms : ReadCtx) (batch : list (N * SeqEntry)) :
    result UserError (list MembershipChange) :=
  try_fold (λ changes_out '(room_seq, entry),
    match entry with
    | SeqEvent room_id event_id =>
        let? change := membership_change rooms room_id event_id room_seq in
        Ok (match change with Some c => changes_out ++ [c] | None => changes_out end)
    | SeqReceipt _ _ _ _ _ => Ok changes_out
    end) [] batch.

(** One pass of the inner loop of [run_membership_projection]: what it
    proposes, or nothing when it has caught up. *)
Definition projection_pass (idx : N) (users rooms : ReadCtx) :
    result UserError (option UserCommand) :=
  let source := room_source idx in
  let? cur := storage_err (cursor users source) in
  let? batch := storage_err (timeline rooms cur PROJECTION_BATCH) in
  match list.last batch with
  | None => Ok None
  | Some (upto_seq, _) =>
      let? changes := batch_changes rooms batch in
      Ok (Some (ApplyRoomChanges source upto_seq changes))
  end.

(** What [apply_room_changes] of the front makes of the answer. *)
Definition changes_outcome (r : UserResponse) : result UserError () :=
  match r with UOk | Stale => Ok () | _ => Err UInternal end.

Context `{HR : Raft}.
Context `{!Codec (option LogId), !Codec StoredMembership}.
Context `{!Codec RuntimeCommand, !Codec RuntimeResponse}.
Context (usid rsid : ShardId) (idx : N) (next_id : engine → LogId).

Definition user_reads (e : engine) : ReadCtx := {| r_shard := usid; r_engine := e |}.
Definition room_reads (e : engine) : ReadCtx := {| r_shard := rsid; r_engine := e |}.

Definition user_entry_of (e : engine) (cmd : UserCommand) : Entry :=
  {| log_id := next_id e; payload := Normal (enc cmd) |}.

(** A proposal, committed and applied alone. *)
Definition propose_user (cmd : UserCommand) (e : engine) : result UserError (UserResponse * engine) :=
  let? (e', rs, _) := storage_err (sm_apply usid UserApp [user_entry_of e cmd] e) in
  match rs with
  | [r] => let? resp := ok_or (dec (A := UserResponse) r) UCodec in Ok (resp, e')
  | _ => Err UInternal
  end.

(** The catch-up loop, to where nothing is left to read; [None] is running
    out of fuel. *)
Fixpoint catch_up (fuel : nat) (rooms : ReadCtx) (e : engine) : option (result UserError engine) :=
  match fuel with
  | O => None
  | S fuel =>
      match projection_pass idx (user_reads e) rooms with
      | Err err => Some (Err err)
      | Ok None => Some (Ok e)
      | Ok (Some cmd) =>
          match propose_user cmd e with
          | Err err => Some (Err err)
          | Ok (resp, e') =>
              match changes_outcome resp with
              | Ok _ => catch_up fuel rooms e'
              | Err err => Some (Err err)
              end
          end
      end
  end.

(** The test of [wait_for_projection]'s loop. *)
Definition projected (users : ReadCtx) (seq : N) : result UserError bool :=
  let? cur := storage_err (cursor users (room_source idx)) in Ok (seq <=? cur).
End Projection.
