(* ===== verification/ProjectionSpec.v ===== *)
(** * The membership index follows the timeline

    What the projection of [Projection] keeps: in any run of the system, in
    which replicas lag and proposals are late, repeated or lost, the row of a
    user in a room is the last membership event of the timeline up to the
    cursor. *)

From Stdlib Require Import Ascii.
From S2P Require Import Prelude Bytes Store Codec Json Shard ShardFacts Track ShardSpec.
From S2P Require Import RoomTypes RoomMachine RoomReplay RoomRead RoomTimeline CoreEvent.
From S2P Require Import UserTypes UserMachine UserKeys UserQueues UserApply UserLog UserSafety Projection.
From stdpp Require Import pretty options.
Set Warnings "-register-all,-clear-no-such-hyp".

Local Open Scope N_scope.

(** ** The membership changes of a timeline *)

Lemma omap_step {A B} (f : A → option B) a l :
  omap f (a :: l) = match f a with Some b => b :: omap f l | None => omap f l end.
Proof. done. Qed.

Lemma take_filter_last (l : list (N * bytes)) n x :
  StronglySorted num_lt l → list.last (take n l) = Some x →
  take n l = filter (λ y, y.1 ≤ x.1) l.
Proof.
  intros HS. revert n. induction HS as [|y l HS IH Hy]; intros [|n] Hx; try done.
  cbn [take] in *. rewrite filter_cons.
  assert (y.1 ≤ x.1) as Hle.
  { destruct (take n l) as [|z l'] eqn:Ht; [by injection Hx as <-|].
    assert (x ∈ take n l) as Hin by (rewrite Ht; by apply last_Some_elem_of).
    apply elem_of_take in Hin as (i & Hi & _). apply list_elem_of_lookup_2 in Hi.
    rewrite list.Forall_forall in Hy. specialize (Hy x Hi). unfold num_lt in Hy. lia. }
  rewrite decide_True by done. f_equal. destruct (take n l) as [|z l'] eqn:Ht.
  - injection Hx as ->. symmetry. clear -Hy. induction Hy as [|z l Hz Hy IH]; [done|].
    rewrite filter_cons, decide_False; [done|]. unfold num_lt in Hz. lia.
  - rewrite <- Ht. apply IH. by rewrite Ht.
Qed.

Section Feed.
Context `{RC : RoomCodecs, JT : JsonText, UC : UserCodecs, SJ : SerdeJson, UL : Utf8Lossy, RU : Ruma}.
Context `{HR : Raft}.
Context `{!Codec (option LogId), !Codec StoredMembership}.
Context `{!Codec RuntimeCommand, !Codec RuntimeResponse}.
Context (rsid : ShardId) (room_of : string → string).

Implicit Types (e : engine) (log : list (N * bytes)).

(** The change a published record stands for. *)
Definition change_at (f : cells) (r : N * bytes) : option MembershipChange :=
  match dec (A := ChangePayload) r.2 with
  | Some (ChangeEvent room id) =>
      raw ← text_at f id; v ← from_slice raw; change_of_raw v room id r.1
  | _ => None
  end.

(** All the membership changes of a timeline, and those past [lo] up to [hi]. *)
Definition changes (f : cells) log : list MembershipChange := omap (change_at f) log.

Definition window (lo hi : N) (l : list MembershipChange) : list MembershipChange :=
  filter (λ c, lo < mc_room_seq c ≤ hi) l.

Lemma change_at_seq f r c : change_at f r = Some c → mc_room_seq c = r.1.
Proof using Type.
  unfold change_at. destruct (dec r.2) as [[room id|]|]; [|done..].
  destruct (text_at f id) as [raw|]; [|done]. simpl. destruct (from_slice raw) as [v|]; [|done]. simpl.
  unfold change_of_raw. case_bool_decide; [done|]. destruct (vget_str "state_key" v); [|done]. simpl.
  destruct (negb _); [done|]. destruct (vget "content" v ≫= _); [|done]. simpl. by intros [= <-].
Qed.

Lemma changes_window f lo hi log :
  changes f (filter (λ r, lo < r.1 ≤ hi) log) = window lo hi (changes f log).
Proof using Type.
  unfold changes, window. induction log as [|r log IH]; [done|].
  rewrite filter_cons, (omap_step _ r log). destruct (change_at f r) as [c|] eqn:Hc.
  - rewrite filter_cons, (change_at_seq _ _ _ Hc). case_decide; [|done]. by rewrite omap_step, Hc, IH.
  - case_decide; [|done]. by rewrite omap_step, Hc.
Qed.

(** Changes come in the order of their numbers. *)
Definition seq_lt (a b : MembershipChange) : Prop := mc_room_seq a < mc_room_seq b.

Lemma changes_sorted f log : StronglySorted num_lt log → StronglySorted seq_lt (changes f log).
Proof using Type.
  unfold changes. induction 1 as [|r log HS IH Hr]; [constructor|]. rewrite omap_step.
  destruct (change_at f r) as [c|] eqn:Hc; [|done]. constructor; [done|].
  apply list.Forall_forall. intros c' (r' & Hr' & Hc')%list_elem_of_omap.
  rewrite list.Forall_forall in Hr. specialize (Hr _ Hr'). unfold seq_lt, num_lt in *.
  by rewrite (change_at_seq _ _ _ Hc), (change_at_seq _ _ _ Hc').
Qed.

Lemma log_sorted e log :
  timeline_ok rsid room_of e log → N.of_nat (length log) < u64_modulus → StronglySorted num_lt log.
Proof using Type.
  intros [Hl _] Hb. destruct (Hl Hb) as [_ Hs]. apply (nums_sorted log 1). intros i m p Hi.
  by rewrite (sl_nums _ _ _ Hs _ _ _ Hi).
Qed.

Lemma log_bound e log r :
  timeline_ok rsid room_of e log → N.of_nat (length log) < u64_modulus → r ∈ log →
  1 ≤ r.1 ≤ N.of_nat (length log).
Proof using Type.
  intros [Hl _] Hb Hr. destruct (Hl Hb) as [_ Hs]. destruct r as [m p]. by eapply seq_log_bound.
Qed.

(** ** A page of the timeline, from the record of what was published *)

Definition entry_at e (r : N * bytes) : N * SeqEntry :=
  (r.1, default (SeqReceipt EmptyString EmptyString EmptyString EmptyString 0)
          (eget rsid e T_SEQ (be64 r.1) ≫= dec)).

Lemma entry_at_payload e log r :
  timeline_ok rsid room_of e log → N.of_nat (length log) < u64_modulus → r ∈ log →
  eget rsid e T_SEQ (be64 r.1) = Some (enc (entry_at e r).2) ∧ r.2 = enc (change_of (entry_at e r).2).
Proof using Type.
  intros [Hl _] Hb Hr. destruct (Hl Hb) as [_ Hs]. destruct r as [m p].
  destruct (sl_rows _ _ _ Hs _ _ Hr) as (en & Hen & ->). unfold entry_at, eget. cbn [fst snd].
  rewrite Hen. simpl. by rewrite dec_enc.
Qed.

Lemma timeline_page e log lo limit :
  timeline_ok rsid room_of e log → N.of_nat (length log) < u64_modulus → lo + 1 < u64_modulus →
  timeline (reads rsid e) lo limit = Ok (map (entry_at e) (take (N.to_nat limit) (after lo log))).
Proof using Type.
  intros Hok Hb Hlo. destruct (to_log _ _ _ _ Hok Hb) as [_ Hs]. unfold timeline.
  rewrite add64_small by done. unfold reads. rewrite read_scan_rows.
  rewrite (replay_rows _ _ _ _ _ Hs) by done. rewrite firstn_map.
  assert (∀ r, r ∈ take (N.to_nat limit) (after lo log) → r ∈ log) as Hin.
  { intros r (i & Hi & _)%elem_of_take. apply list_elem_of_lookup_2, list_elem_of_filter in Hi. by destruct Hi. }
  revert Hin. generalize (take (N.to_nat limit) (after lo log)) as l.
  enough (∀ l acc, (∀ r, r ∈ l → r ∈ log) →
    try_fold (λ out '(k, v),
      let? seq := ok_or (from_be64 k) (Engine "seq key width") in
      let? entry := dec_or (A := SeqEntry) "seq entry decode" v in
      Ok (out ++ [(seq, entry)])) acc (map (RoomReplay.row_of rsid e) l) = Ok (acc ++ map (entry_at e) l)) as H
    by (intros l Hl; by rewrite H).
  induction l as [|r l IH]; intros acc Hl; [by simpl; rewrite app_nil_r|]. cbn [map try_fold].
  destruct (entry_at_payload e log r Hok Hb) as [Hrow _]; [apply Hl; by left|].
  pose proof (log_bound _ _ _ Hok Hb (Hl r ltac:(by left))).
  unfold RoomReplay.row_of at 1. rewrite from_be64_be64 by lia. cbn [ok_or].
  unfold eget in Hrow. rewrite Hrow.
  change (default EmptyString (Some (enc (entry_at e r).2))) with (enc (entry_at e r).2).
  rewrite dec_or_enc. rewrite IH.
  - by rewrite <- app_assoc.
  - intros r' Hr'. apply Hl. by right.
Qed.

(** ** What a pass proposes *)

Lemma change_of_event e log m room id :
  timeline_ok rsid room_of e log → N.of_nat (length log) < u64_modulus →
  (m, enc (ChangeEvent room id)) ∈ log →
  match membership_change (reads rsid e) room id m with
  | Ok o => change_at (eget rsid e) (m, enc (ChangeEvent room id)) = o
  | Err _ => True
  end.
Proof using Type.
  intros Hok Hb Hin. destruct (pl_row _ _ _ _ _ (to_placed _ _ _ _ Hok Hb) _ _ _ Hin) as [_ [raw Hraw]].
  destruct (text_event _ _ _ _ Hraw) as (s & Hs & Hr & _).
  unfold membership_change, change_at. cbn [fst snd]. rewrite Hs. cbn [storage_err]. rewrite Hr, dec_enc, Hraw.
  simpl. by destruct (from_slice raw).
Qed.

Lemma batch_changes_log e log l acc out :
  timeline_ok rsid room_of e log → N.of_nat (length log) < u64_modulus → (∀ r, r ∈ l → r ∈ log) →
  try_fold (λ changes_out '(room_seq, entry),
    match entry with
    | SeqEvent room_id event_id =>
        let? change := membership_change (reads rsid e) room_id event_id room_seq in
        Ok (match change with Some c => changes_out ++ [c] | None => changes_out end)
    | SeqReceipt _ _ _ _ _ => Ok changes_out
    end) acc (map (entry_at e) l) = Ok out →
  out = acc ++ changes (eget rsid e) l.
Proof using Type.
  intros Hok Hb. revert acc. induction l as [|r l IH]; intros acc Hl.
  { simpl. intros [= <-]. by rewrite app_nil_r. }
  cbn [map try_fold]. destruct (entry_at_payload e log r Hok Hb (Hl r ltac:(by left))) as [_ Hp].
  assert (entry_at e r = (r.1, (entry_at e r).2)) as -> by done. unfold changes. rewrite omap_step.
  assert (change_at (eget rsid e) r = change_at (eget rsid e) (r.1, enc (change_of (entry_at e r).2))) as Hch
    by (rewrite <- Hp; by destruct r).
  rewrite Hch. destruct (entry_at e r).2 as [room id|] eqn:He; simpl change_of in *.
  - assert ((r.1, enc (ChangeEvent room id)) ∈ log) as Hin by (rewrite <- Hp; destruct r; apply Hl; by left).
    pose proof (change_of_event e log r.1 room id Hok Hb Hin) as Hc.
    destruct (membership_change _ room id r.1) as [o|]; [|done]. rewrite Hc. cbn [snd].
    intros Hf%IH; [|intros r' Hr'; apply Hl; by right]. rewrite Hf. destruct o; [by rewrite <- app_assoc|done].
  - unfold change_at at 1. cbn [snd]. rewrite dec_enc. intros Hf%IH; [done|]. intros r' Hr'. apply Hl. by right.
Qed.

Lemma pass_window idx users e log lo cmd :
  timeline_ok rsid room_of e log → N.of_nat (length log) < u64_modulus → lo + 1 < u64_modulus →
  cursor users (room_source idx) = Ok lo →
  projection_pass idx users (reads rsid e) = Ok (Some cmd) →
  ∃ upto, cmd = ApplyRoomChanges (room_source idx) upto (window lo upto (changes (eget rsid e) log)) ∧
    lo < upto ≤ N.of_nat (length log).
Proof using Type.
  intros Hok Hb Hlo Hcur. unfold projection_pass. rewrite Hcur. cbn [storage_err].
  rewrite (timeline_page e log) by done. cbn [storage_err].
  rewrite <- firstn_map, firstn_map. set (l := take _ _).
  destruct (list.last (map (entry_at e) l)) as [[upto en]|] eqn:Hlast; [|done].
  destruct (batch_changes _ _) as [out|] eqn:Hbc; [|done]. intros [= <-].
  assert (∃ r, list.last l = Some r ∧ r.1 = upto) as (r & Hr & <-).
  { change (map (entry_at e) l) with (entry_at e <$> l) in Hlast. rewrite fmap_last in Hlast.
    destruct (list.last l) as [r|]; [|done]. exists r. split; [done|]. by injection Hlast as <- _. }
  assert (l = filter (λ r', lo < r'.1 ≤ r.1) log) as Hl.
  { transitivity (filter (λ y, y.1 ≤ r.1) (after lo log)).
    { apply take_filter_last; [|exact Hr]. apply sorted_filter. by eapply log_sorted. }
    unfold after. rewrite list_filter_filter. apply list_filter_iff. intros x. lia. }
  assert (r ∈ log ∧ lo < r.1) as [Hin Hgt].
  { apply last_Some_elem_of in Hr. rewrite Hl in Hr. apply list_elem_of_filter in Hr as [? ?]. split; [done|lia]. }
  pose proof (log_bound _ _ _ Hok Hb Hin). exists r.1. split; [|lia].
  apply (batch_changes_log e log l []) in Hbc; [|done|done|].
  - rewrite Hbc, Hl, changes_window. done.
  - intros r' Hr'. rewrite Hl in Hr'. apply list_elem_of_filter in Hr'. by destruct Hr'.
Qed.
End Feed.

(** ** The last change of each pair *)

Definition about (u r : string) (c : MembershipChange) : Prop := mc_user_id c = u ∧ mc_room_id c = r.
#[export] Instance about_dec u r c : Decision (about u r c).
Proof. unfold about. apply _. Defined.

Section Last.
Implicit Types L : list MembershipChange.

(** The last change of [u] in [r] with a number up to [k]. *)
Definition last_change L (k : N) (u r : string) : option MembershipChange :=
  list.last (filter (λ c, about u r c ∧ mc_room_seq c ≤ k) L).

Lemma split_at L ch :
  StronglySorted seq_lt L → ch ∈ L →
  ∃ L1 L2, L = L1 ++ ch :: L2 ∧ Forall (λ c, mc_room_seq c < mc_room_seq ch) L1 ∧
    Forall (λ c, mc_room_seq ch < mc_room_seq c) L2.
Proof.
  intros HS (L1 & L2 & ->)%list_elem_of_split. exists L1, L2. split; [done|].
  induction L1 as [|a L1 IH]; simpl in *.
  - split; [constructor|]. by inversion HS.
  - inversion_clear HS as [|? ? HS' Ha]. destruct (IH HS') as [H1 H2]. split; [|done].
    constructor; [|done]. apply list.Forall_app in Ha as [_ Ha]. by inversion Ha.
Qed.

Lemma filter_none {A} (P : A → Prop) `{!∀ x, Decision (P x)} l : Forall (λ x, ¬ P x) l → filter P l = [].
Proof. induction 1 as [|x l Hx Hl IH]; [done|]. by rewrite filter_cons, decide_False. Qed.

Lemma filter_same {A} (P Q : A → Prop) `{!∀ x, Decision (P x), !∀ x, Decision (Q x)} l :
  Forall (λ x, P x ↔ Q x) l → filter P l = filter Q l.
Proof.
  induction 1 as [|x l Hx Hl IH]; [done|]. rewrite !filter_cons, IH. by rewrite (decide_ext _ _ _ _ Hx).
Qed.

(** A change that is not past [k] has been counted. *)
Lemma last_counts L k ch :
  StronglySorted seq_lt L → ch ∈ L → mc_room_seq ch ≤ k →
  ∃ c, last_change L k (mc_user_id ch) (mc_room_id ch) = Some c ∧ mc_room_seq ch ≤ mc_room_seq c.
Proof.
  intros HS Hin Hk. destruct (split_at L ch HS Hin) as (L1 & L2 & -> & _ & H2). unfold last_change.
  rewrite list.filter_app, filter_cons, decide_True by (split; [by split|done]).
  rewrite last_app_cons, last_cons. destruct (list.last (filter _ L2)) as [c|] eqn:Hc.
  - apply last_Some_elem_of, list_elem_of_filter in Hc as [_ Hc]. rewrite list.Forall_forall in H2.
    exists c. split; [done|]. specialize (H2 _ Hc). lia.
  - exists ch. split; [done|lia].
Qed.

(** The next change past [k]. *)
Lemma last_next L k ch u r :
  StronglySorted seq_lt L → ch ∈ L → k < mc_room_seq ch →
  (∀ c, c ∈ L → k < mc_room_seq c → mc_room_seq ch ≤ mc_room_seq c) →
  last_change L (mc_room_seq ch) u r = if decide (about u r ch) then Some ch else last_change L k u r.
Proof.
  intros HS Hin Hk Hnext. destruct (split_at L ch HS Hin) as (L1 & L2 & HL & H1 & H2). unfold last_change.
  rewrite list.Forall_forall in H1, H2.
  assert (filter (λ c, about u r c ∧ mc_room_seq c ≤ mc_room_seq ch) L1
    = filter (λ c, about u r c ∧ mc_room_seq c ≤ k) L1) as Hf1.
  { apply filter_same, list.Forall_forall. intros c Hc. specialize (H1 c Hc).
    assert (c ∈ L) as HcL by (rewrite HL, elem_of_app; by left). specialize (Hnext c HcL).
    split; intros [? ?]; (split; [done|]); [apply N.nlt_ge; intros Hlt; specialize (Hnext Hlt); lia|lia]. }
  assert (filter (λ c, about u r c ∧ mc_room_seq c ≤ mc_room_seq ch) L2 = []) as Hf2.
  { apply filter_none, list.Forall_forall. intros c Hc [_ ?]. specialize (H2 c Hc). lia. }
  assert (filter (λ c, about u r c ∧ mc_room_seq c ≤ k) (ch :: L2) = []) as Hf3.
  { apply filter_none, list.Forall_forall. intros c Hc [_ ?]. apply elem_of_cons in Hc as [->|Hc]; [lia|].
    specialize (H2 c Hc). lia. }
  rewrite HL, !list.filter_app, Hf1, Hf3, app_nil_r, filter_cons, Hf2. case_decide as Hd.
  - rewrite decide_True by (by destruct Hd). by rewrite last_snoc.
  - rewrite decide_False by (intros Ha; apply Hd; split; [done|lia]). by rewrite app_nil_r.
Qed.

Lemma last_same L k k' u r :
  k ≤ k' → (∀ c, c ∈ L → ¬ k < mc_room_seq c ≤ k') → last_change L k' u r = last_change L k u r.
Proof.
  intros Hk Hno. unfold last_change. f_equal. apply filter_same, list.Forall_forall. intros c Hc.
  specialize (Hno c Hc). split; intros [? ?]; (split; [done|lia]).
Qed.

(** What comes later in the timeline does not count before its number. *)
Lemma last_prefix L L' k u r :
  Forall (λ c, k < mc_room_seq c) L' → last_change (L ++ L') k u r = last_change L k u r.
Proof.
  intros HL. unfold last_change. rewrite list.filter_app, (filter_none _ L'), app_nil_r; [done|].
  rewrite list.Forall_forall in HL |- *. intros c Hc [_ ?]. specialize (HL c Hc). lia.
Qed.
End Last.

(** ** Index rows *)

Section Index.
Context `{UC : UserCodecs, SJ : SerdeJson, UL : Utf8Lossy}.
Implicit Types (L : list MembershipChange) (f : cells).

(** An index row shows a change. *)
Definition shows (m : MembershipEntry) (c : MembershipChange) : Prop :=
  me_membership m = mc_membership c ∧ me_event_id m = mc_event_id c ∧
  me_sender m = mc_sender c ∧ me_room_seq m = mc_room_seq c.

Definition row_is (o : option bytes) (ch : option MembershipChange) : Prop :=
  match ch with
  | None => o = None
  | Some c => ∃ m, o ≫= dec (A := MembershipEntry) = Some m ∧ shows m c
  end.

Definition cursor_is f (source : string) (k : N) : Prop :=
  match f T_CURSOR source with Some b => from_be64 b = Some k | None => k = 0 end.

(** Every row of a pair in [mine] shows the last change up to [k]. *)
Definition rows_at (mine : string → string → Prop) f L (k : N) : Prop :=
  ∀ u r, nul_free u = true → mine u r → row_is (f T_MEMBERSHIP (user_key u r)) (last_change L k u r).

Lemma rows_at_mono (mine mine' : string → string → Prop) f L k :
  (∀ u r, mine' u r → mine u r) → rows_at mine f L k → rows_at mine' f L k.
Proof. intros Hm H u r Hu Hr. auto. Qed.

Lemma rows_at_ext mine f g L k :
  (∀ key, g T_MEMBERSHIP key = f T_MEMBERSHIP key) → rows_at mine f L k → rows_at mine g L k.
Proof. intros Heq H u r Hu Hr. rewrite Heq. auto. Qed.

Definition change_key (ch : MembershipChange) : bytes := user_key (mc_user_id ch) (mc_room_id ch).

(** What [room_change] does to the index: nothing, when the row is as new,
    or else it writes the row. *)
Lemma room_change_effect ch env c :
  wp (room_change ch) env (λ _ c',
    let o := tget env c T_MEMBERSHIP (change_key ch) in
    (∀ src, tget env c' T_CURSOR src = tget env c T_CURSOR src) ∧
    (∀ key, key ≠ change_key ch → tget env c' T_MEMBERSHIP key = tget env c T_MEMBERSHIP key) ∧
    ((∃ m, o ≫= dec (A := MembershipEntry) = Some m ∧ mc_room_seq ch ≤ me_room_seq m ∧
       tget env c' T_MEMBERSHIP (change_key ch) = o) ∨
     (∀ m, o ≫= dec (A := MembershipEntry) = Some m → me_room_seq m < mc_room_seq ch) ∧
     ∃ m, tget env c' T_MEMBERSHIP (change_key ch) = Some (enc m) ∧ shows m ch)) c.
Proof.
  unfold room_change, get_membership. fold (change_key ch). wp_step. apply wp_get_typed. intros o Ho _.
  destruct o as [m|]; [destruct (N.leb_spec (mc_room_seq ch) (me_room_seq m)) as [Hle|Hgt]|].
  { wp_step. split_and!; [done..|]. left. by exists m. }
  all: unfold emit_user_change, put_key_change; do 2 wp_step; destruct (Bool.eqb _ _);
    repeat wp_step; (split_and!;
    [intros; by rewrite !tget_put_other
    |intros key Hkey; rewrite tget_put by done; rewrite decide_False by naive_solver; by rewrite ?tget_put_other
    |right; split; [intros m' Hm'; rewrite Ho in Hm'; by simplify_eq
                   |rewrite tget_put, decide_True by done; eexists; split; [done|by split_and!]]]).
Qed.

Lemma row_enc m c : shows m c → row_is (Some (enc m)) (Some c).
Proof. intros Hm. exists m. split; [|done]. simpl. by rewrite dec_enc. Qed.

(** The next change of the timeline, or one that was counted. *)
Lemma room_change_rows mine L k ch env c :
  StronglySorted seq_lt L → ch ∈ L → nul_free (mc_user_id ch) = true →
  (∀ x, x ∈ L → k < mc_room_seq x → mc_room_seq ch ≤ mc_room_seq x) →
  rows_at mine (tget env c) L k →
  wp (room_change ch) env (λ _ c', rows_at mine (tget env c') L (N.max k (mc_room_seq ch)) ∧
    ∀ src, tget env c' T_CURSOR src = tget env c T_CURSOR src) c.
Proof.
  intros HS Hin Hnul Hnext Hrows. eapply wp_mono; [|apply room_change_effect]. cbv zeta.
  intros _ c' (Hcur & Hother & Hown). split; [|done]. intros u r Hu Hm. specialize (Hrows u r Hu Hm).
  destruct (decide (about u r ch)) as [[<- <-]|Hab].
  - destruct Hown as [(m & Hdec & Hle & Hkeep)|(Hlt & m & Hnew & Hs)].
    + (* a row at least as new shows a change past [k] *)
      unfold change_key in *. rewrite Hkeep. rewrite N.max_l; [done|]. apply N.nlt_ge. intros Hk.
      destruct (last_change L k _ _) as [c0|] eqn:Hl.
      * destruct Hrows as (m' & Hm' & Hsh). rewrite Hm' in Hdec. injection Hdec as ->.
        apply last_Some_elem_of, list_elem_of_filter in Hl as [[_ Hle0] _].
        destruct Hsh as (_ & _ & _ & Hseq). rewrite Hseq in Hle. lia.
      * simpl in Hrows. by rewrite Hrows in Hdec.
    + unfold change_key in Hnew. rewrite Hnew. destruct (N.le_gt_cases (mc_room_seq ch) k) as [Hk|Hk].
      * destruct (last_counts L k ch HS Hin Hk) as (c0 & Hl & Hle). rewrite Hl in Hrows.
        destruct Hrows as (m' & Hm' & _ & _ & _ & Hseq). apply Hlt in Hm'. lia.
      * rewrite N.max_r by lia. rewrite (last_next L k) by done. rewrite decide_True by done. by apply row_enc.
  - rewrite Hother by (intros Hkey; apply user_key_inj in Hkey; [|done|done]; apply Hab; by destruct Hkey as [-> ->]).
    destruct (N.le_gt_cases (mc_room_seq ch) k) as [Hk|Hk]; [by rewrite N.max_l|].
    rewrite N.max_r by lia. rewrite (last_next L k) by done. by rewrite decide_False.
Qed.

(** A change of a pair that is not ours. *)
Lemma foreign_change_rows mine L k ch env c :
  nul_free (mc_user_id ch) = true → ¬ mine (mc_user_id ch) (mc_room_id ch) →
  rows_at mine (tget env c) L k →
  wp (room_change ch) env (λ _ c', rows_at mine (tget env c') L k ∧
    ∀ src, tget env c' T_CURSOR src = tget env c T_CURSOR src) c.
Proof.
  intros Hnul Hno Hrows. eapply wp_mono; [|apply room_change_effect]. cbv zeta.
  intros _ c' (Hcur & Hother & _). split; [|done]. intros u r Hu Hm. rewrite Hother; [by apply Hrows|].
  intros Hkey. apply user_key_inj in Hkey; [|done|done]. by destruct Hkey as [-> ->].
Qed.

(** A window of the timeline that starts where rows are counted. *)
Lemma window_rows mine L k lo upto env c :
  StronglySorted seq_lt L → Forall (λ ch, nul_free (mc_user_id ch) = true) L →
  lo ≤ k → k ≤ upto → rows_at mine (tget env c) L k →
  wp (app_iter room_change (window lo upto L)) env (λ _ c', rows_at mine (tget env c') L upto ∧
    ∀ src, tget env c' T_CURSOR src = tget env c T_CURSOR src) c.
Proof.
  intros HS Hnul Hlo Hk Hrows.
  set (I := λ (rest : list MembershipChange) (_ : ()) (c' : ApplyState),
    (∀ src, tget env c' T_CURSOR src = tget env c T_CURSOR src) ∧
    ∃ k', k ≤ k' ≤ upto ∧ rows_at mine (tget env c') L k' ∧ StronglySorted seq_lt rest ∧
      (∀ ch, ch ∈ rest → ch ∈ L ∧ mc_room_seq ch ≤ upto) ∧
      ∀ ch, ch ∈ L → k' < mc_room_seq ch ≤ upto → ch ∈ rest).
  apply (wp_mono _ _ (I [])).
  { intros [] c' (Hcur & k' & Hk' & Hr & _ & _ & Hall). split; [|done]. intros u r Hu Hm.
    rewrite (last_same L k' upto); [by apply Hr|lia|]. intros ch Hin Hrange. specialize (Hall ch Hin Hrange).
    by apply elem_of_nil in Hall. }
  apply (wp_fold_rest (λ _ a, room_change a) env I).
  - intros [] ch rest c1 (Hcur & k' & Hk' & Hr & HSr & Hin & Hall).
    destruct (Hin ch ltac:(by left)) as [HchL Hchu]. inversion_clear HSr as [|? ? HS' Hch].
    pose proof (proj1 (list.Forall_forall _ _) Hch) as Hch'. pose proof (proj1 (list.Forall_forall _ _) Hnul) as Hnul'.
    eapply wp_mono; [|apply (room_change_rows mine L k'); [done|done|by apply Hnul'| |done]].
    + intros [] c2 [Hr2 Hcur2]. split; [intros src; by rewrite Hcur2|]. exists (N.max k' (mc_room_seq ch)).
      split_and!; [lia|lia|done|done|intros x Hx; apply Hin; by right|].
      intros x HxL Hx. assert (x ∈ ch :: rest) as [->|Hx']%elem_of_cons by (apply Hall; [done|lia]); [lia|done].
    + intros x HxL Hx. destruct (N.le_gt_cases (mc_room_seq x) upto) as [Hxu|Hxu]; [|lia].
      assert (x ∈ ch :: rest) as [->|Hx']%elem_of_cons by (apply Hall; [done|lia]); [lia|]. apply N.lt_le_incl, (Hch' x Hx').
  - split; [done|]. exists k. split_and!; [lia|lia|done| | |].
    + unfold window. by apply sorted_filter.
    + intros ch [Hw Hin]%list_elem_of_filter. split; [done|lia].
    + intros ch Hin Hr. apply list_elem_of_filter. split; [lia|done].
Qed.

(** ** Commands *)

Context (owner : string → N) (idx : N).

(** The pair whose row a command writes outside the projection. *)
Definition remote_command (cmd : UserCommand) : option (string * string) :=
  match cmd with
  | RecordRemoteInvite u r _ _ _ | RecordRemoteKnock u r _ _ _ | RecordRemoteLeave u r => Some (u, r)
  | _ => None
  end.

Definition untouched_pair (tr : list (UserCommand * UserResponse)) (u r : string) : Prop :=
  Forall (λ x, remote_command x.1 ≠ Some (u, r)) tr.

(** The pairs whose rows come from shard [idx] alone. *)
Definition mine (tr : list (UserCommand * UserResponse)) (u r : string) : Prop :=
  owner r = idx ∧ untouched_pair tr u r.

(** What the user shard is given: windows of the timeline [L] that start no
    later than [k0], changes from other shards' rooms, and anything else. *)
Definition permitted (L : list MembershipChange) (k0 top : N) (cmd : UserCommand) : Prop :=
  match cmd with
  | ApplyRoomChanges source upto chs =>
      (source = room_source idx ∧ ∃ lo, lo ≤ k0 ∧ upto ≤ top ∧ chs = window lo upto L) ∨
      (source ≠ room_source idx ∧
       Forall (λ c, owner (mc_room_id c) ≠ idx ∧ nul_free (mc_user_id c) = true) chs)
  | RecordRemoteInvite u _ _ _ _ | RecordRemoteKnock u _ _ _ _ | RecordRemoteLeave u _
  | ForgetRoom u _ => nul_free u = true
  | _ => True
  end.

Definition index_inv (L : list MembershipChange) (k0 top : N)
    (tr : list (UserCommand * UserResponse)) f : Prop :=
  ∃ k, k0 ≤ k ≤ top ∧ cursor_is f (room_source idx) k ∧ rows_at (mine tr) f L k.

Lemma mine_snoc tr x u r : mine (tr ++ [x]) u r → mine tr u r ∧ remote_command x.1 ≠ Some (u, r).
Proof.
  intros [Ho Hu]. apply list.Forall_app in Hu as [Hu Hx]. inversion_clear Hx. by repeat split.
Qed.

Lemma index_inv_ext L k0 top tr x f g :
  index_inv L k0 top tr f → (∀ k, g T_CURSOR k = f T_CURSOR k) →
  (∀ u r, nul_free u = true → remote_command x.1 ≠ Some (u, r) →
     ∀ ch, row_is (f T_MEMBERSHIP (user_key u r)) ch → row_is (g T_MEMBERSHIP (user_key u r)) ch) →
  index_inv L k0 top (tr ++ [x]) g.
Proof.
  intros (k & Hk & Hc & Hr) Hcur Hrow. exists k. split_and!; [lia|lia|unfold cursor_is; by rewrite Hcur|].
  intros u r Hu [Hm Hx]%mine_snoc. apply Hrow; [done|done|]. by apply Hr.
Qed.

Lemma index_inv_equiv L k0 top tr f g : cells_equiv f g → index_inv L k0 top tr f → index_inv L k0 top tr g.
Proof.
  intros Heq (k & Hk & Hcur & Hrows). exists k. split_and!; [lia|lia| |].
  - unfold cursor_is in *. by rewrite <- Heq.
  - intros u r Hu Hm. rewrite <- Heq by done. by apply Hrows.
Qed.

Lemma changes_inv L k0 top tr source upto chs env c :
  StronglySorted seq_lt L → Forall (λ ch, nul_free (mc_user_id ch) = true) L → top < u64_modulus →
  permitted L k0 top (ApplyRoomChanges source upto chs) → index_inv L k0 top tr (tget env c) →
  wp (apply_room_changes source upto chs) env (λ _ c', index_inv L k0 top tr (tget env c')) c.
Proof.
  intros HS Hnul Htop Hok (k & Hk & Hcur & Hrows). unfold apply_room_changes. do 2 wp_step.
  assert (index_inv L k0 top tr (tget env c)) as Hinv by (by exists k).
  destruct Hok as [[-> (lo & Hlo & Hup & ->)]|[Hsrc Hfor]].
  - apply wp_bind. apply (wp_mono _ _ (λ cur c', c' = c ∧ cur = k)).
    2: { unfold cursor_is in Hcur. destruct (tget env c T_CURSOR (room_source idx)) as [b|].
         - apply wp_lift. intros a Ha. rewrite Hcur in Ha. by injection Ha as <-.
         - by apply wp_ret. }
    intros cur c' [-> ->]. destruct (N.leb_spec upto k) as [Hle|Hgt]; [by apply wp_ret|].
    wp_step. eapply wp_mono; [|apply (window_rows (mine tr) L k); [done|done|lia|lia|done]].
    intros [] c1 [Hr1 Hc1]. do 2 wp_step. wp_step. exists upto. split_and!; [lia|lia| |].
    + unfold cursor_is. rewrite tget_put, decide_True by done. apply from_be64_be64. lia.
    + intros u r Hu Hm. rewrite tget_put_other by done. by apply Hr1.
  - apply wp_bind. apply (wp_mono _ _ (λ _ c', c' = c)).
    2: { destruct (tget env c T_CURSOR source); [by apply wp_lift|by apply wp_ret]. }
    intros cur c' ->. destruct (upto <=? cur); [by apply wp_ret|]. wp_step.
    apply (wp_mono _ _ (λ _ c', rows_at (mine tr) (tget env c') L k ∧
      ∀ src, tget env c' T_CURSOR src = tget env c T_CURSOR src)).
    2: { unfold app_iter. apply (wp_fold _ _ (λ _ c', rows_at (mine tr) (tget env c') L k ∧
           ∀ src, tget env c' T_CURSOR src = tget env c T_CURSOR src)); [|done].
         intros [] ch c1 Hch [Hr1 Hc1]. rewrite list.Forall_forall in Hfor. destruct (Hfor ch Hch) as [Ho Hn].
         eapply wp_mono; [|apply (foreign_change_rows (mine tr) L k); [done|by intros [? _]|done]].
         intros [] c2 [Hr2 Hc2]. split; [done|]. intros src. by rewrite Hc2. }
    intros [] c1 [Hr1 Hc1]. do 2 wp_step. wp_step. exists k. split_and!; [lia|lia| |].
    + unfold cursor_is in *. rewrite tget_put by done. rewrite decide_False by naive_solver. by rewrite Hc1.
    + intros u r Hu Hm. rewrite tget_put_other by done. by apply Hr1.
Qed.

(** A command that writes one index row. *)
Definition one_row (key : bytes) (env : ApplyEnv) (c c' : ApplyState) : Prop :=
  (∀ k, tget env c' T_CURSOR k = tget env c T_CURSOR k) ∧
  ∀ k, k ≠ key → tget env c' T_MEMBERSHIP k = tget env c T_MEMBERSHIP k.

Lemma record_remote_row m u room sender id stripped env c :
  wp (record_remote m u room sender id stripped) env (λ _ c', one_row (user_key u room) env c c') c.
Proof.
  clear owner idx. unfold record_remote, emit_user_change. repeat wp_step. split.
  - intros k. by rewrite !tget_put_other.
  - intros k Hk. rewrite tget_put_other by done. rewrite tget_put by done.
    by rewrite decide_False by naive_solver.
Qed.

Lemma record_leave_row u room env c :
  wp (record_remote_leave u room) env (λ _ c', one_row (user_key u room) env c c') c.
Proof.
  clear owner idx. unfold record_remote_leave, emit_user_change, get_membership. do 2 wp_step. wp_step.
  apply wp_get_typed. intros o _ _. wp_step.
  apply (wp_mono _ _ (λ _ c', ∀ t k, t < 256 → t ≠ T_KEY_CHANGE → tget env c' t k = tget env c t k)).
  2: { unfold put_key_change. destruct o as [e|]; [destruct (is_join _)|]; wp_step; try done.
       intros t k Ht Hne. by rewrite tget_put_other. }
  intros _ c1 H1. do 2 wp_step. apply wp_bind. unfold ctx_delete at 1, wp at 1. wp_step. split.
  - intros k. rewrite tget_delete_other, tget_put_other by done. by apply H1.
  - intros k Hk. rewrite tget_delete_other by done. rewrite tget_put by done.
    rewrite decide_False by naive_solver. by apply H1.
Qed.

Lemma one_row_inv L k0 top tr cmd env c (m : Shard.app UserResponse) u room :
  nul_free u = true → remote_command cmd = Some (u, room) → index_inv L k0 top tr (tget env c) →
  wp m env (λ _ c', one_row (user_key u room) env c c') c →
  wp m env (λ r c', index_inv L k0 top (tr ++ [(cmd, r)]) (tget env c')) c.
Proof.
  intros Hu Hcmd Hinv Hm. eapply wp_mono; [|exact Hm]. intros r c' [Hc Hr].
  eapply index_inv_ext; [exact Hinv|done|]. intros u' r' Hu' Hne ch. rewrite Hr; [done|].
  intros Hkey. apply user_key_inj in Hkey as [-> ->]; [by apply Hne|done|done].
Qed.

(** Forgetting a room leaves what the row shows. *)
Lemma forget_inv L k0 top tr cmd u room env c :
  nul_free u = true → index_inv L k0 top tr (tget env c) →
  wp (forget_room u room) env (λ r c', index_inv L k0 top (tr ++ [(cmd, r)]) (tget env c')) c.
Proof.
  intros Hu Hinv. unfold forget_room, get_membership. wp_step. apply wp_get_typed. intros o Ho _.
  destruct o as [m|]; repeat wp_step.
  - eapply index_inv_ext; [exact Hinv|intros k; by rewrite tget_put_other|].
    intros u' r' Hu' _ ch Hrow. rewrite tget_put by done. case_decide as Hd; [|done].
    destruct Hd as [_ [-> ->]%user_key_inj]; [|done|done]. destruct ch as [ch|]; simpl in *.
    + destruct Hrow as (m' & Hm' & Hs). rewrite Ho in Hm'. injection Hm' as <-. eexists. rewrite dec_enc.
      by split.
    + by rewrite Hrow in Ho.
  - eapply index_inv_ext; [exact Hinv|done|done].
Qed.

Lemma index_step sid L k0 top :
  StronglySorted seq_lt L → Forall (λ ch, nul_free (mc_user_id ch) = true) L → top < u64_modulus →
  log_step sid (permitted L k0 top) (λ _ _, True) (index_inv L k0 top).
Proof.
  intros HS Hnul Htop tr cmd env c Hok _ _ Hinv.
  destruct (bool_decide (T_MEMBERSHIP ∈ command_writes cmd)) eqn:Hw.
  - only_writers cmd Hw; cbn [user_command].
    + eapply wp_mono; [|by apply changes_inv]. intros r c' Hinv'.
      eapply index_inv_ext; [exact Hinv'|done|done].
    + by eapply one_row_inv; [exact Hok|done|done|apply record_remote_row].
    + by eapply one_row_inv; [exact Hok|done|done|apply record_remote_row].
    + by eapply one_row_inv; [exact Hok|done|done|apply record_leave_row].
    + by apply forget_inv.
  - destruct (bool_decide (T_CURSOR ∈ command_writes cmd)) eqn:Hw'.
    { by only_writers cmd Hw'. }
    pose proof (command_leaves cmd T_MEMBERSHIP env c eq_refl Hw) as H1.
    pose proof (command_leaves cmd T_CURSOR env c eq_refl Hw') as H2.
    unfold wp in *. destruct (user_command cmd env c) as [[r c']|]; [|done].
    eapply index_inv_ext; [exact Hinv|done|]. intros u r' _ _ ch. by rewrite H1.
Qed.
End Index.

(** ** The system *)

Section World.
Context `{RC : RoomCodecs, JT : JsonText, UC : UserCodecs, SJ : SerdeJson, UL : Utf8Lossy, RU : Ruma}.
Context `{HR : Raft}.
Context `{!Codec (option LogId), !Codec StoredMembership}.
Context `{!Codec RuntimeCommand, !Codec RuntimeResponse}.
Context (usid rsid : ShardId) (idx : N) (room_of : string → string) (owner : string → N).

(** Every state the two shards went through, the latest first (a replica
    holds some state of the past), and what the tasks have proposed so far. *)
Record World : Type := {
  w_rooms : list (engine * list (N * bytes));
  w_users : list (engine * list (UserCommand * UserResponse));
  w_sent : list UserCommand;
}.

Definition start : World := {| w_rooms := [(∅, [])]; w_users := [(∅, [])]; w_sent := [] |}.

(** What may be committed on the user shard: as projections of [idx], what
    was proposed; as projections of other shards, changes in their rooms. *)
Definition committable (sent : list UserCommand) (cmd : UserCommand) : Prop :=
  match cmd with
  | ApplyRoomChanges source _ chs =>
      (source = room_source idx ∧ cmd ∈ sent) ∨
      (source ≠ room_source idx ∧
       Forall (λ c, owner (mc_room_id c) ≠ idx ∧ nul_free (mc_user_id c) = true) chs)
  | RecordRemoteInvite u _ _ _ _ | RecordRemoteKnock u _ _ _ _ | RecordRemoteLeave u _
  | ForgetRoom u _ => nul_free u = true
  | _ => True
  end.

Inductive sys_step : World → World → Prop :=
| sys_room l er log ers er' rs pub eus sent :
    Forall (entry_conforms room_of) l → sm_apply rsid RoomApp l er = Ok (er', rs, pub) →
    sys_step {| w_rooms := (er, log) :: ers; w_users := eus; w_sent := sent |}
      {| w_rooms := (er', log ++ pub) :: (er, log) :: ers; w_users := eus; w_sent := sent |}
| sys_pass er log eu tr ers eus sent cmd :
    (er, log) ∈ ers → (eu, tr) ∈ eus →
    projection_pass idx (user_reads usid eu) (room_reads rsid er) = Ok (Some cmd) →
    sys_step {| w_rooms := ers; w_users := eus; w_sent := sent |}
      {| w_rooms := ers; w_users := eus; w_sent := cmd :: sent |}
| sys_user l eu tr eus eu' rs pub ers sent :
    Forall user_entry l → Forall (entry_ok (committable sent)) l →
    sm_apply usid UserApp l eu = Ok (eu', rs, pub) →
    sys_step {| w_rooms := ers; w_users := (eu, tr) :: eus; w_sent := sent |}
      {| w_rooms := ers; w_users := (eu', tr ++ outcomes l rs) :: (eu, tr) :: eus; w_sent := sent |}.

Context (Hids : ∀ u, user_id_ok u = true → nul_free u = true).

(** The 64-bit counter has room for one more. *)
Definition roomy (log : list (N * bytes)) : Prop := N.of_nat (length log) + 1 < u64_modulus.

Lemma changes_nul f log : Forall (λ c, nul_free (mc_user_id c) = true) (changes f log).
Proof using Hids.
  apply list.Forall_forall. intros c (r & _ & Hc)%list_elem_of_omap. unfold change_at in Hc.
  destruct (dec r.2) as [[room id|]|]; [|done..]. destruct (text_at f id) as [raw|]; [|done]. simpl in Hc.
  destruct (from_slice raw) as [v|]; [|done]. simpl in Hc. unfold change_of_raw in Hc.
  case_bool_decide; [done|]. destruct (vget_str "state_key" v) as [u|]; [|done]. simpl in Hc.
  destruct (user_id_ok u) eqn:Hu; [|done]. simpl in Hc.
  destruct (vget "content" v ≫= _); [|done]. simpl in Hc. injection Hc as <-. by apply Hids.
Qed.

Lemma changes_kept e log f :
  timeline_ok rsid room_of e log → N.of_nat (length log) < u64_modulus →
  kept (eget rsid e) f → changes f log = changes (eget rsid e) log.
Proof using Type.
  intros Hok Hb Hk. unfold changes.
  assert (∀ r, r ∈ log → change_at f r = change_at (eget rsid e) r) as Heq.
  { intros r Hr. unfold change_at. destruct (entry_at_payload rsid room_of e log r Hok Hb Hr) as [_ Hp].
    rewrite Hp, dec_enc. destruct (entry_at rsid e r).2 as [room id|] eqn:He; [|done]. simpl change_of in *.
    assert ((r.1, enc (ChangeEvent room id)) ∈ log) as Hin by (rewrite <- Hp; by destruct r).
    destruct (pl_row _ _ _ _ _ (to_placed _ _ _ _ Hok Hb) _ _ _ Hin) as [_ [raw Hraw]].
    by rewrite Hraw, (Hk _ _ Hraw). }
  clear Hok Hb. induction log as [|r log IH]; [done|]. rewrite !omap_step, Heq by by left.
  rewrite IH; [done|]. intros r' Hr'. apply Heq. by right.
Qed.

(** The changes of a timeline that grew: the ones there were, then later ones. *)
Lemma changes_grow e log rest f :
  timeline_ok rsid room_of e log → N.of_nat (length log) < u64_modulus →
  kept (eget rsid e) f → Forall (λ r, N.of_nat (length log) < r.1) rest →
  ∃ new, changes f (log ++ rest) = changes (eget rsid e) log ++ new ∧
    Forall (λ c, N.of_nat (length log) < mc_room_seq c) new.
Proof using Type.
  intros Hok Hb Hk Hrest. exists (changes f rest). split.
  - unfold changes. rewrite omap_app. f_equal. by apply changes_kept.
  - apply list.Forall_forall. intros c (r & Hr & Hc)%list_elem_of_omap. rewrite list.Forall_forall in Hrest.
    rewrite (change_at_seq _ _ _ Hc). by apply Hrest.
Qed.

Lemma later_numbers e log rest :
  timeline_ok rsid room_of e (log ++ rest) → N.of_nat (length (log ++ rest)) < u64_modulus →
  Forall (λ r, N.of_nat (length log) < r.1) rest.
Proof using Type.
  intros Hok Hb. destruct (to_log _ _ _ _ Hok Hb) as [_ Hs]. apply list.Forall_forall.
  intros [m p] [i Hi]%list_elem_of_lookup.
  rewrite (sl_nums _ _ _ Hs (length log + i)%nat m p); [simpl; lia|].
  rewrite lookup_app_r by lia. by replace (length log + i - length log)%nat with i by lia.
Qed.

Lemma window_prefix lo hi L new n :
  hi ≤ n → Forall (λ c, n < mc_room_seq c) new → window lo hi (L ++ new) = window lo hi L.
Proof using Type.
  intros Hn Hnew. unfold window. rewrite list.filter_app, (filter_none _ new), app_nil_r; [done|].
  rewrite list.Forall_forall in Hnew |- *. intros c Hc ?. specialize (Hnew c Hc). lia.
Qed.

(** The state of the system: its heads, and how the past relates to them. *)
Record consistent (er : engine) (log : list (N * bytes)) (eu : engine)
    (tr : list (UserCommand * UserResponse)) (k : N) (w : World) : Prop := {
  co_rooms : ∀ e l, (e, l) ∈ w_rooms w →
    timeline_ok rsid room_of e l ∧ (∃ rest, log = l ++ rest) ∧ kept (eget rsid e) (eget rsid er);
  co_users : ∀ e t, (e, t) ∈ w_users w → ∃ k', k' ≤ k ∧ cursor_is (eget usid e) (room_source idx) k';
  co_cursor : cursor_is (eget usid eu) (room_source idx) k;
  co_top : k ≤ N.of_nat (length log);
  co_rows : rows_at (mine owner idx tr) (eget usid eu) (changes (eget rsid er) log) k;
  co_sent : ∀ cmd, cmd ∈ w_sent w →
    ∃ lo upto, cmd = ApplyRoomChanges (room_source idx) upto (window lo upto (changes (eget rsid er) log)) ∧
      lo ≤ k ∧ upto ≤ N.of_nat (length log);
}.

Definition sys_inv (w : World) : Prop :=
  ∃ er log ers eu tr eus, w_rooms w = (er, log) :: ers ∧ w_users w = (eu, tr) :: eus ∧
    timeline_ok rsid room_of er log ∧ (roomy log → ∃ k, consistent er log eu tr k w).

Lemma sys_inv_start : sys_inv start.
Proof using Type.
  exists ∅, [], [], ∅, [], []. split_and!; [done|done|apply timeline_ok_empty|]. intros _. exists 0. split.
  - intros e l [= -> ->]%list_elem_of_singleton. split_and!; [apply timeline_ok_empty|by exists []|by intros ?].
  - intros e t [= -> ->]%list_elem_of_singleton. exists 0. split; [done|].
    unfold cursor_is, eget. by rewrite lookup_empty.
  - unfold cursor_is, eget. by rewrite lookup_empty.
  - done.
  - intros u r _ _. simpl. unfold eget. by rewrite lookup_empty.
  - by intros cmd ?%elem_of_nil.
Qed.

Lemma room_step_inv er log er' pub eu tr k ers eus sent :
  timeline_ok rsid room_of er log → timeline_ok rsid room_of er' (log ++ pub) → roomy (log ++ pub) →
  kept (eget rsid er) (eget rsid er') →
  consistent er log eu tr k {| w_rooms := ers; w_users := eus; w_sent := sent |} →
  consistent er' (log ++ pub) eu tr k
    {| w_rooms := (er', log ++ pub) :: ers; w_users := eus; w_sent := sent |}.
Proof using Type.
  intros Hok Hok' Hb Hk [C1 C2 C3 C4 C5 C6]. unfold roomy in Hb. cbn [w_rooms w_users w_sent] in *.
  assert (N.of_nat (length log) < u64_modulus) as Hb0 by (rewrite length_app in Hb; lia).
  destruct (changes_grow er log pub (eget rsid er') Hok Hb0 Hk) as (new & Hch & Hnew).
  { eapply later_numbers; [done|lia]. }
  split; cbn [w_rooms w_users w_sent]; [|done|done|rewrite length_app; lia| |].
  - intros e l [[= -> ->]|Hin]%elem_of_cons.
    { split_and!; [done|exists []; by rewrite app_nil_r|apply kept_refl]. }
    destruct (C1 e l Hin) as (? & [rest ->] & ?). split_and!; [done|exists (rest ++ pub); by rewrite app_assoc|].
    by eapply kept_trans.
  - intros u r Hu Hm. rewrite Hch, last_prefix; [by apply C5|].
    rewrite list.Forall_forall in Hnew |- *. intros c Hc. specialize (Hnew c Hc). lia.
  - intros cmd (lo & upto & -> & Hlo & Hup)%C6. exists lo, upto. rewrite Hch.
    rewrite (window_prefix _ _ _ new (N.of_nat (length log))) by done.
    split_and!; [done|lia|rewrite length_app; lia].
Qed.

Lemma cursor_reads e k :
  cursor_is (eget usid e) (room_source idx) k → cursor (user_reads usid e) (room_source idx) = Ok k.
Proof using Type.
  unfold cursor_is, cursor, eget, read_get, user_reads. cbn [r_shard r_engine].
  destruct (e !! _); [by intros ->|by intros ->].
Qed.

Lemma pass_step_inv er log eu tr k ers eus sent e l e' t cmd :
  timeline_ok rsid room_of er log → roomy log → (e, l) ∈ ers → (e', t) ∈ eus →
  projection_pass idx (user_reads usid e') (room_reads rsid e) = Ok (Some cmd) →
  consistent er log eu tr k {| w_rooms := ers; w_users := eus; w_sent := sent |} →
  consistent er log eu tr k {| w_rooms := ers; w_users := eus; w_sent := cmd :: sent |}.
Proof using Type.
  intros Hok' Hb He He' Hpass [C1 C2 C3 C4 C5 C6]. split; [done..|]. cbn [w_rooms w_users w_sent] in *.
  intros cmd' [->|Hin]%elem_of_cons; [|by apply C6].
  destruct (C1 e l He) as (Hok & [rest ->] & Hk). destruct (C2 e' t He') as (lo & Hlo & Hcur).
  unfold roomy in Hb. rewrite length_app in Hb, C4.
  destruct (pass_window rsid room_of idx (user_reads usid e') e l lo cmd) as (upto & -> & Hup);
    [done|lia|lia|by apply cursor_reads|done|].
  destruct (changes_grow e l rest (eget rsid er) Hok ltac:(lia) Hk) as (new & Hch & Hnew).
  { eapply later_numbers; [done|rewrite length_app; lia]. }
  exists lo, upto. rewrite Hch. rewrite (window_prefix _ _ _ new (N.of_nat (length l))) by (done || lia).
  split_and!; [done|done|rewrite length_app; lia].
Qed.

Lemma user_step_inv er log eu tr k ers eus sent l eu' rs pub :
  timeline_ok rsid room_of er log → roomy log →
  Forall user_entry l → Forall (entry_ok (committable sent)) l →
  sm_apply usid UserApp l eu = Ok (eu', rs, pub) →
  consistent er log eu tr k {| w_rooms := ers; w_users := (eu, tr) :: eus; w_sent := sent |} →
  ∃ k', consistent er log eu' (tr ++ outcomes l rs) k'
    {| w_rooms := ers; w_users := (eu', tr ++ outcomes l rs) :: (eu, tr) :: eus; w_sent := sent |}.
Proof using Hids.
  intros Hok Hb Hen Hgiven Hs [C1 C2 C3 C4 C5 C6]. cbn [w_rooms w_users w_sent] in *. unfold roomy in Hb.
  set (L := changes (eget rsid er) log) in *. set (top := N.of_nat (length log)) in *.
  apply (sm_apply_inv usid UserApp) in Hs as (n & c & _ & _ & Hr & _ & Heq).
  assert (StronglySorted seq_lt L) as HS by (eapply changes_sorted, log_sorted; [done|lia]).
  pose proof (entries_step usid (index_inv owner idx L k top)) as Hstep.
  assert (Forall (entry_ok (permitted owner idx L k top)) l) as Hperm.
  { eapply list.Forall_impl; [exact Hgiven|]. intros en. unfold entry_ok.
    destruct (payload en) as [|bs|]; [done| |done]. intros Hcmd cmd Hd. specialize (Hcmd cmd Hd).
    destruct cmd; try done. destruct Hcmd as [[-> Hin]|Hf]; [left|by right]. split; [done|].
    apply C6 in Hin as (lo & upto & [= -> ->] & ? & ?). by exists lo. }
  specialize (Hstep ltac:(intros; by eapply index_inv_equiv) _ l tr [] (apply_env usid eu) (apply_init n)
    (index_step owner idx usid L k top HS (changes_nul _ _) ltac:(lia)) Hen Hperm eq_refl).
  unfold wp in Hstep. unfold apply_entries in Hr. rewrite Hr in Hstep.
  destruct Hstep as (rs' & -> & k' & Hk' & Hcur & Hrows).
  { exists k. split_and!; [lia|lia|exact C3|exact C5]. }
  exists k'. cbn [app] in *. split; cbn [w_rooms w_users w_sent]; [done| | |lia| |].
  - intros e t [[= -> ->]|Hin]%elem_of_cons.
    + exists k'. split; [done|]. unfold cursor_is in *. by rewrite <- Heq.
    + destruct (C2 e t Hin) as (k1 & ? & ?). exists k1. split; [lia|done].
  - unfold cursor_is in *. by rewrite <- Heq.
  - intros u r Hu Hm. rewrite <- Heq by done. by apply Hrows.
  - intros cmd (lo & upto & -> & ? & ?)%C6. exists lo, upto. split_and!; [done|lia|done].
Qed.

Lemma sys_step_inv w w' : sys_step w w' → sys_inv w → sys_inv w'.
Proof using Hids.
  intros Hstep (er & log & ers & eu & tr & eus & Hr & Hu & Hok & Hc).
  destruct Hstep as [l er0 log0 ers0 er' rs pub eus0 sent Hl Hs|e l e' t ers0 eus0 sent cmd He He' Hp
    |l eu0 tr0 eus0 eu' rs pub ers0 sent Hen Hg Hs]; cbn [w_rooms w_users w_sent] in *; simplify_eq.
  - pose proof (timeline_ok_apply _ _ _ _ _ _ _ _ Hok Hl Hs) as [Hok' Hk].
    exists er', (log ++ pub). eexists _, eu, tr, _. split_and!; [done|done|done|]. intros Hb.
    assert (roomy log) as Hb0 by (unfold roomy in *; rewrite length_app in Hb; lia).
    destruct (Hc Hb0) as [k Hk0]. exists k. eapply room_step_inv; [done|done|done| |done].
    apply Hk. unfold roomy in Hb. lia.
  - exists er, log. eexists _, eu, tr, _. split_and!; [done|done|done|]. intros Hb.
    destruct (Hc Hb) as [k Hk]. exists k. by eapply pass_step_inv.
  - exists er, log. eexists _, eu', _, _. split_and!; [done|done|done|]. intros Hb.
    destruct (Hc Hb) as [k Hk]. by eapply user_step_inv.
Qed.

Lemma sys_run_inv w : rtc sys_step start w → sys_inv w.
Proof using Hids.
  intros Hrun. remember start as s. assert (sys_inv s) as Hs by (subst; apply sys_inv_start). clear Heqs.
  induction Hrun as [|w1 w2 w3 Hstep _ IH]; [done|]. apply IH. by eapply sys_step_inv.
Qed.

(** C6 (refinement): the index follows the timeline.  However the two shards
    run, with tasks on many nodes that read replicas of any age and propose
    the same stretch of the timeline late, again or never: the user shard
    stands at a position [k] of the room shard's timeline, and the row of a
    user in a room of that shard is the last membership event of the two up
    to [k], and there is a row only if there is such an event.  A row that a
    federated invite, knock or leave wrote by itself is left out. *)
Theorem index_follows_timeline w er log ers eu tr eus :
  rtc sys_step start w →
  w_rooms w = (er, log) :: ers → w_users w = (eu, tr) :: eus → roomy log →
  ∃ k, cursor (user_reads usid eu) (room_source idx) = Ok k ∧ k ≤ N.of_nat (length log) ∧
    ∀ u r, nul_free u = true → owner r = idx → untouched_pair tr u r →
      match last_change (changes (eget rsid er) log) k u r with
      | None => membership (user_reads usid eu) u r = Ok None
      | Some c => ∃ m, membership (user_reads usid eu) u r = Ok (Some m) ∧ shows m c
      end.
Proof using Hids.
  intros Hrun Hr Hu Hb. destruct (sys_run_inv w Hrun) as (er' & log' & ers' & eu' & tr' & eus' & Hr' & Hu' & _ & Hc).
  rewrite Hr in Hr'. rewrite Hu in Hu'. injection Hr' as <- <- <-. injection Hu' as <- <- <-. destruct (Hc Hb) as [k [_ _ Hcur Htop Hrows _]].
  exists k. split_and!; [by apply cursor_reads|done|]. intros u r Hnul Hown Hun.
  specialize (Hrows u r Hnul (conj Hown Hun)). unfold membership, read_get, user_reads. cbn [r_shard r_engine].
  fold (eget usid eu T_MEMBERSHIP (user_key u r)).
  destruct (last_change _ k u r) as [c|]; simpl in Hrows.
  - destruct Hrows as (m & Hm & Hs). exists m. split; [|done].
    destruct (eget usid eu T_MEMBERSHIP _) as [b|]; [|done]. simpl in Hm. unfold dec_or. by rewrite Hm.
  - by rewrite Hrows.
Qed.
End World.

(** ** Catching up *)

Section Catchup.
Context `{RC : RoomCodecs, JT : JsonText, UC : UserCodecs, SJ : SerdeJson, UL : Utf8Lossy, RU : Ruma}.
Context `{HR : Raft}.
Context `{!Codec (option LogId), !Codec StoredMembership}.
Context `{!Codec RuntimeCommand, !Codec RuntimeResponse}.
Context (usid rsid : ShardId) (idx : N) (room_of : string → string) (next_id : engine → LogId).

(** Command bytes are not taken for the runtime's own. *)
Context (Hfree : ∀ cmd : UserCommand, app_command (enc cmd)).

(** Every row of the index decodes. *)
Definition decodes (f : cells) : Prop :=
  ∀ key b, f T_MEMBERSHIP key = Some b → is_Some (dec (A := MembershipEntry) b).

Lemma room_change_runs ch env c :
  decodes (tget env c) →
  runs (room_change ch) env (λ _ c', decodes (tget env c') ∧
    ∀ src, tget env c' T_CURSOR src = tget env c T_CURSOR src) c.
Proof using Type.
  intros Hd. unfold room_change, get_membership. run_step. apply runs_get_typed; [intros b; apply Hd|].
  destruct (tget env c T_MEMBERSHIP _ ≫= _) as [m|].
  1: destruct (_ <=? _); [by apply runs_ret|].
  all: unfold emit_user_change, put_key_change; do 2 run_step; destruct (Bool.eqb _ _); repeat run_step;
    (split; [|intros src; by rewrite !tget_put_other]);
    intros key b; rewrite tget_put by done; (case_decide; [intros [= <-]; rewrite dec_enc; by eexists|]);
    rewrite ?tget_put_other by done; apply Hd.
Qed.

Lemma changes_run source upto chs k env c :
  decodes (tget env c) → cursor_is (tget env c) source k → k < upto → upto < u64_modulus →
  runs (apply_room_changes source upto chs) env (λ r c', r = UOk ∧ decodes (tget env c') ∧
    cursor_is (tget env c') source upto) c.
Proof using Type.
  intros Hd Hk Hlt Hup. unfold apply_room_changes. run_step. apply runs_get. run_step.
  apply (runs_mono _ _ (λ cur c', c' = c ∧ cur = k)).
  2: { unfold cursor_is in Hk. destruct (tget env c T_CURSOR source) as [b|].
       - rewrite Hk. by eexists _, _.
       - by apply runs_ret. }
  intros cur c' [-> ->]. destruct (N.leb_spec upto k); [lia|]. run_step.
  apply (runs_mono _ _ (λ _ c', decodes (tget env c'))).
  2: { unfold app_iter. apply (runs_fold _ _ (λ _ _ c', decodes (tget env c'))); [|done].
       intros [] ch l c1 H1. eapply runs_mono; [|by apply room_change_runs]. by intros [] c2 [? _]. }
  intros [] c1 H1. repeat run_step. split_and!; [done| |].
  - intros key b. rewrite tget_put_other by done. apply H1.
  - unfold cursor_is. rewrite tget_put, decide_True by done. by apply from_be64_be64.
Qed.

Lemma changes_untouched source upto chs : keeps (untouched usid) (apply_room_changes source upto chs).
Proof using Type.
  unfold apply_room_changes, room_change, get_membership, emit_user_change, put_key_change. solve_keeps.
Qed.

(** A user shard that reads well, standing at [k]. *)
Record healthy (e : engine) (k : N) : Prop := {
  he_seq : ∃ n, sm_seq usid e = Ok n;
  he_cursor : cursor_is (eget usid e) (room_source idx) k;
  he_rows : decodes (eget usid e);
}.

Lemma propose_runs upto chs k e :
  healthy e k → k < upto → upto < u64_modulus →
  ∃ e', propose_user usid next_id (ApplyRoomChanges (room_source idx) upto chs) e = Ok (UOk, e') ∧ healthy e' upto.
Proof using Hfree.
  intros [[n Hn] Hk Hd] Hlt Hup. set (cmd := ApplyRoomChanges (room_source idx) upto chs).
  unfold propose_user, user_entry_of, sm_apply. rewrite Hn. rewrite apply_entries_one.
  rewrite (apply_entry_command usid UserApp) by apply Hfree. cbn [app_apply UserApp].
  pose proof (changes_run (room_source idx) upto chs k (apply_env usid e) (apply_init n) Hd Hk Hlt Hup)
    as (r & c & Hrun & -> & Hd' & Hk').
  pose proof (changes_untouched (room_source idx) upto chs (apply_env usid e) (apply_init n)) as Hun.
  unfold wp in Hun. rewrite Hrun in Hun. destruct Hun as [_ Hun]; [by split|].
  assert (user_apply (enc cmd) (apply_env usid e) (apply_init n) = Ok (enc UOk, c)) as ->.
  { unfold user_apply, mbind, app_bind, lift. rewrite dec_or_enc. cbn [user_command cmd]. by rewrite Hrun. }
  cbn [storage_err]. rewrite dec_enc. cbn [ok_or]. eexists. split; [reflexivity|]. split.
  - exists (Shard.seq c). apply sm_seq_finish; [done|]. apply Hun. by right.
  - unfold cursor_is, eget. by rewrite (finish_cells usid).
  - intros key b. unfold eget. rewrite (finish_cells usid) by done. apply Hd'.
Qed.

Lemma batch_changes_total e log l acc :
  timeline_ok rsid room_of e log → N.of_nat (length log) < u64_modulus → (∀ r, r ∈ l → r ∈ log) →
  (∀ id raw, text_at (eget rsid e) id = Some raw → is_Some (from_slice raw)) →
  ∃ out, try_fold (λ changes_out '(room_seq, entry),
    match entry with
    | SeqEvent room_id event_id =>
        let? change := membership_change (reads rsid e) room_id event_id room_seq in
        Ok (match change with Some c => changes_out ++ [c] | None => changes_out end)
    | SeqReceipt _ _ _ _ _ => Ok changes_out
    end) acc (map (entry_at rsid e) l) = Ok out.
Proof using Type.
  intros Hok Hb Hl Htext. revert acc. induction l as [|r l IH]; intros acc; [by eexists|]. cbn [map try_fold].
  assert (entry_at rsid e r = (r.1, (entry_at rsid e r).2)) as -> by done.
  destruct (entry_at_payload rsid room_of e log r Hok Hb (Hl r ltac:(by left))) as [_ Hp].
  destruct (entry_at rsid e r).2 as [room id|] eqn:He; [|apply IH; intros ? ?; apply Hl; by right].
  assert ((r.1, enc (ChangeEvent room id)) ∈ log) as Hin.
  { simpl change_of in Hp. rewrite <- Hp. destruct r. apply Hl. by left. }
  destruct (pl_row _ _ _ _ _ (to_placed _ _ _ _ Hok Hb) _ _ _ Hin) as [_ [raw Hraw]].
  destruct (text_event _ _ _ _ Hraw) as (s & Hs & Hr & _). destruct (Htext _ _ Hraw) as [v Hv].
  unfold membership_change. rewrite Hs. cbn [storage_err]. rewrite Hr, Hv. cbn [ok_or].
  apply IH. intros ? ?. apply Hl. by right.
Qed.

(** C7 (termination): the catch-up loop ends at the end of the timeline.  On
    a room shard whose event texts parse and a user shard whose rows decode,
    the loop comes to a stop, without an error, with the cursor at the last
    number, in at most one pass per entry it has to read and one more. *)
Theorem catch_up_reaches_end er log eu k fuel :
  timeline_ok rsid room_of er log → roomy log →
  (∀ id raw, text_at (eget rsid er) id = Some raw → is_Some (from_slice raw)) →
  healthy eu k → k ≤ N.of_nat (length log) → (length log - N.to_nat k < fuel)%nat →
  ∃ eu', catch_up usid idx next_id fuel (room_reads rsid er) eu = Some (Ok eu') ∧
    cursor (user_reads usid eu') (room_source idx) = Ok (N.of_nat (length log)).
Proof using Hfree.
  intros Hok Hb Htext. unfold roomy in Hb. revert eu k. induction fuel as [|fuel IH]; intros eu k He Hk Hf; [lia|].
  cbn [catch_up]. pose proof (cursor_reads usid idx _ _ (he_cursor _ _ He)) as Hcur.
  unfold projection_pass. rewrite Hcur. cbn [storage_err].
  pose proof (timeline_page rsid room_of er log k PROJECTION_BATCH Hok ltac:(lia) ltac:(lia)) as Hpage.
  unfold reads in Hpage. unfold room_reads at 1. rewrite Hpage. cbn [storage_err].
  set (l := take _ _) in *.
  assert (∀ r, r ∈ l → r ∈ log ∧ k < r.1) as Hin.
  { intros r (i & Hi & _)%elem_of_take. apply list_elem_of_lookup_2, list_elem_of_filter in Hi. tauto. }
  change (map (entry_at rsid er) l) with (entry_at rsid er <$> l) at 1. rewrite fmap_last.
  destruct (list.last l) as [r|] eqn:Hlast; cbn [fmap option_fmap option_map].
  - destruct (batch_changes_total er log l [] Hok ltac:(lia) ltac:(intros ? [? _]%Hin; done) Htext) as [out Hout].
    unfold batch_changes. unfold reads in Hout. unfold room_reads at 1. rewrite Hout. cbn [fst entry_at].
    apply last_Some_elem_of in Hlast. apply Hin in Hlast as [Hlog Hgt].
    pose proof (log_bound rsid room_of er log r Hok ltac:(lia) Hlog).
    destruct (propose_runs r.1 out k eu He Hgt ltac:(lia)) as (eu' & -> & He'). cbn [changes_outcome].
    apply (IH eu' r.1); [done|lia|lia].
  - exists eu. split; [done|]. rewrite Hcur. f_equal.
    apply last_None in Hlast. destruct (N.eq_dec k (N.of_nat (length log))) as [|Hne]; [done|exfalso].
    destruct (lookup_lt_is_Some_2 log (N.to_nat k)) as [[m p] Hm]; [lia|].
    destruct (to_log _ _ _ _ Hok ltac:(lia)) as [_ Hs]. pose proof (sl_nums _ _ _ Hs _ _ _ Hm).
    assert ((m, p) ∈ after k log) as Ha.
    { apply list_elem_of_filter. split; [simpl; lia|by eapply list_elem_of_lookup_2]. }
    unfold l in Hlast. destruct (after k log); [by apply elem_of_nil in Ha|]. done.
Qed.
End Catchup.

(** ** A room with one member, for the witness *)

From S2P Require Import Demo RoomDemo UserDemo FedOutDemo.

#[local] Existing Instance fed_serde.

Definition index_ruma : Ruma := {|
  user_id_ok s := starts_with "@" s && nul_free s; event_id_ok s := starts_with "$" s;
  user_server s := s; room_server s := Some s; json_for_signing _ := None;
  base64_parse s := Some s; ed25519_verify _ _ _ := true |}.
#[local] Existing Instance index_ruma.

Lemma index_ruma_ids u : user_id_ok u = true → nul_free u = true.
Proof. by intros [_ ?]%andb_true_iff. Qed.

Definition member_append (id membership : string) : AppendEvent := {|
  ae_room_id := "!r"; ae_event_id := id;
  ae_raw := demo_raw [("type", "m.room.member"); ("state_key", "@ann:a"); ("sender", "@ann:a");
                      ("membership", membership)]%string;
  ae_depth := 2; ae_rejected := None; ae_new_groups := []; ae_state_group_after := 1;
  ae_new_current_group := 1; ae_new_extremities := [id]; ae_next_group := 2;
  ae_create_version := None; ae_redacts := None; ae_relay := false |}.

Definition index_batch : list Entry :=
  [room_entry 1 (Append (demo_append "!r" "$c" (Some "12"%string)));
   room_entry 2 (Append (member_append "$j" "join"))].

Lemma index_conforms : Forall (entry_conforms (λ _, "!r"%string)) index_batch.
Proof. repeat constructor; intros cmd Hd; vm_compute in Hd; injection Hd as <-; vm_compute; done. Qed.

Abbreviation index_pass er := (projection_pass 0 (user_reads user_shard ∅) (room_reads demo_shard er)) (only parsing).

Definition own_source (cmd : UserCommand) : bool :=
  match cmd with ApplyRoomChanges source _ _ => bool_decide (source = room_source 0) | _ => false end.

(** One pass over the batch, committed: Ann has joined. *)
Definition index_sample : bool :=
  match sm_apply demo_shard RoomApp index_batch ∅ with
  | Ok (er, _, log) =>
      bool_decide (length log = 2)%nat &&
      match index_pass er with
      | Ok (Some cmd) =>
          own_source cmd &&
          match sm_apply user_shard UserApp [user_cmd cmd] ∅ with
          | Ok (eu, _, _) =>
              match cursor (user_reads user_shard eu) (room_source 0) with
              | Ok k => match last_change (changes (eget demo_shard er) log) k "@ann:a" "!r" with
                        | Some c => bool_decide (mc_membership c = "join"%string)
                        | None => false
                        end
              | Err _ => false
              end
          | Err _ => false
          end
      | _ => false
      end
  | Err _ => false
  end.

Lemma own_committable cmd : own_source cmd = true → entry_ok (committable 0 (λ _, 0) [cmd]) (user_cmd cmd).
Proof.
  intros Ho. unfold entry_ok, user_cmd. cbn [payload]. intros cmd' Hd. rewrite dec_enc in Hd. injection Hd as <-.
  destruct cmd; try done. apply bool_decide_eq_true in Ho as ->. left. split; [done|by left].
Qed.

Lemma own_untouched cmd rs u r : own_source cmd = true → untouched_pair (outcomes [user_cmd cmd] rs) u r.
Proof.
  intros Ho. unfold untouched_pair, outcomes. destruct rs as [|b rs]; [constructor|]. cbn [zip_with concat].
  rewrite app_nil_r. unfold outcome, user_cmd. cbn [payload]. rewrite dec_enc.
  destruct (dec b) as [resp|]; [|constructor]. repeat constructor. by destruct cmd.
Qed.

Lemma index_follows_timeline_witness :
  ∃ w er log ers eu tr eus, rtc (sys_step user_shard demo_shard 0 (λ _, "!r"%string) (λ _, 0)) start w ∧
    w_rooms w = (er, log) :: ers ∧ w_users w = (eu, tr) :: eus ∧ roomy log ∧
    ∃ m, membership (user_reads user_shard eu) "@ann:a" "!r" = Ok (Some m) ∧ me_membership m = "join"%string.
Proof.
  assert (index_sample = true) as Hs by (vm_compute; reflexivity). unfold index_sample in Hs.
  destruct (sm_apply demo_shard RoomApp index_batch ∅) as [[[er rs] log]|] eqn:Hr; [|done].
  apply andb_true_iff in Hs as [Hlen%bool_decide_eq_true Hs].
  destruct (index_pass er) as [[cmd|]|] eqn:Hp; [|done..]. apply andb_true_iff in Hs as [Ho Hs].
  destruct (sm_apply user_shard UserApp [user_cmd cmd] ∅) as [[[eu rs'] pub]|] eqn:Hu; [|done].
  set (w := {| w_rooms := [(er, log); (∅, [])];
    w_users := [(eu, outcomes [user_cmd cmd] rs'); (∅, [])]; w_sent := [cmd] |}).
  assert (rtc (sys_step user_shard demo_shard 0 (λ _, "!r"%string) (λ _, 0)) start w) as Hrun.
  { eapply rtc_l; [apply (sys_room _ _ _ _ _ index_batch ∅ [] [] er rs log); [apply index_conforms|exact Hr]|].
    eapply rtc_l; [eapply (sys_pass _ _ _ _ _ er log ∅ [] _ _ _ cmd); [by left|by left|exact Hp]|].
    eapply rtc_l; [eapply (sys_user _ _ _ _ _ [user_cmd cmd] ∅ [] [] eu rs' pub)|apply rtc_refl].
    - repeat constructor. apply demo_user_entry.
    - repeat constructor. by apply own_committable.
    - exact Hu. }
  assert (roomy log) as Hb by (unfold roomy; rewrite Hlen; done).
  exists w, er, log. eexists. exists eu. eexists _, _. split_and!; [exact Hrun|reflexivity|reflexivity|exact Hb|].
  destruct (index_follows_timeline user_shard demo_shard 0 (λ _, "!r"%string) (λ _, 0) index_ruma_ids
    w er log _ eu _ _ Hrun eq_refl eq_refl Hb) as (k & Hk & _ & Hrows).
  specialize (Hrows "@ann:a"%string "!r"%string eq_refl eq_refl (own_untouched _ _ _ _ Ho)).
  rewrite Hk in Hs. destruct (last_change _ k _ _) as [c|]; [|done]. apply bool_decide_eq_true in Hs.
  destruct Hrows as (m & Hm & Hsh & _). exists m. split; [exact Hm|]. by rewrite Hsh.
Defined.

(** Every stored event of the batch parses. *)
Definition texts_parse (e : engine) : bool :=
  forallb (λ kv : bytes * bytes,
    match dec (A := StoredEvent) kv.2 with
    | Some s => negb (starts_with (ctx_key demo_shard T_EVENT EmptyString) kv.1) || is_some (from_slice (se_raw s))
    | None => true
    end) (map_to_list e).

Lemma texts_parse_spec e id raw :
  texts_parse e = true → text_at (eget demo_shard e) id = Some raw → is_Some (from_slice raw).
Proof.
  unfold texts_parse, text_at, eget. rewrite forallb_forall. intros Hall.
  destruct (e !! ctx_key demo_shard T_EVENT id) as [b|] eqn:Hb; cbn [mbind option_bind]; [|done].
  destruct (dec b) as [s|] eqn:Hs; [|done]. cbn [mbind option_bind]. case_match; [|done]. intros [= <-].
  specialize (Hall (ctx_key demo_shard T_EVENT id, b)). cbn [fst snd] in Hall. rewrite Hs in Hall.
  rewrite ctx_key_prefix, starts_with_app in Hall. cbn [negb orb] in Hall.
  assert (is_some (from_slice (se_raw s)) = true) as Hp.
  { apply Hall. apply list_elem_of_In, elem_of_map_to_list. by rewrite <- ctx_key_prefix. }
  by destruct (from_slice (se_raw s)).
Qed.

Lemma catch_up_reaches_end_witness :
  ∃ (er : engine) (log : list (N * bytes)) (eu' : engine), length log = 2%nat ∧
    catch_up user_shard 0 log_one 3 (room_reads demo_shard er) ∅ = Some (Ok eu') ∧
    cursor (user_reads user_shard eu') (room_source 0) = Ok 2.
Proof.
  assert (match sm_apply demo_shard RoomApp index_batch ∅ with
          | Ok (er, _, log) => bool_decide (length log = 2)%nat && texts_parse er
          | Err _ => false end = true) as Hs by (vm_compute; reflexivity).
  destruct (sm_apply demo_shard RoomApp index_batch ∅) as [[[er rs] log]|] eqn:Hr; [|done].
  apply andb_true_iff in Hs as [Hlen%bool_decide_eq_true Hp].
  pose proof (timeline_ok_apply demo_shard (λ _, "!r"%string) _ _ _ _ _ _ (timeline_ok_empty _ _)
    index_conforms Hr) as [Hok _].
  destruct (catch_up_reaches_end user_shard demo_shard 0 (λ _, "!r"%string) log_one) with
    (er := er) (log := log) (eu := (∅ : engine)) (k := 0) (fuel := 3%nat) as (eu' & Hc & Hk).
  - intros cmd. pose proof (demo_user_entry cmd) as He. unfold user_entry, user_cmd in He. cbn [payload] in He.
    unfold app_command. by destruct (enc cmd).
  - exact Hok.
  - unfold roomy. by rewrite Hlen.
  - intros id raw. by apply texts_parse_spec.
  - split.
    + by exists 0.
    + reflexivity.
    + intros key b. unfold eget. by rewrite lookup_empty.
  - lia.
  - rewrite Hlen. simpl. lia.
  - exists er, log, eu'. split_and!; [done|exact Hc|]. rewrite Hk, Hlen. reflexivity.
Defined.

(** ** Where the index goes wrong *)

Definition batch_after (l : list Entry) (e : engine) (sid : ShardId) : engine :=
  match sm_apply sid RoomApp l e with Ok (e', _, _) => e' | Err _ => ∅ end.

Definition left_room : engine :=
  batch_after (index_batch ++ [room_entry 3 (Append (member_append "$l" "leave"))]) ∅ demo_shard.
Definition left_room_later : engine :=
  batch_after [room_entry 4 (Append (demo_append "!r" "$m" None))] left_room demo_shard.

(** The memberships a row shows as commands are committed one by one. *)
Definition row_after (cmds : list UserCommand) : option string :=
  match membership (user_reads user_shard (demo_end (map (λ c, [c]) cmds))) "@ann:a" "!r" with
  | Ok (Some m) => Some (me_membership m)
  | _ => None
  end.

(** A proposal that arrives late reverts an invite: two nodes read the
    timeline from the same cursor, one up to Ann's leave, the other one event
    further.  Between the two commits a federated invite is recorded, with
    room position 0; the second commit applies the leave once more. *)
Example late_proposal_reverts_invite :
  match index_pass left_room, index_pass left_room_later with
  | Ok (Some first), Ok (Some second) =>
      let invite := RecordRemoteInvite "@ann:a" "!r" "@bob:b" "$i" [] in
      row_after [first] = Some "leave"%string ∧ row_after [first; invite] = Some "invite"%string ∧
      row_after [first; invite; second] = Some "leave"%string
  | _, _ => False
  end.
Proof. vm_compute. by split_and!. Qed.

Definition imported : ImportRoom := {|
  ir_room_id := "!r"; ir_version := "12"; ir_create_event_id := "$c";
  ir_events := [{| ie_event_id := "$b"; ie_raw := demo_raw [("type", "m.room.member");
      ("state_key", "@bob:b"); ("sender", "@bob:b"); ("membership", "join")]; ie_depth := 2 |}];
  ir_join_event_id := "$j"; ir_join_raw := ae_raw (member_append "$j" "join"); ir_join_depth := 3;
  ir_state := [(("m.room.member", "@ann:a"), "$j"); (("m.room.member", "@bob:b"), "$b")];
  ir_history_frontier := [] |}%string.

(** The members of a room joined over federation are in its state, and not
    in the index: only the join itself is on the timeline. *)
Example imported_members_not_indexed :
  match index_pass (batch_after [room_entry 1 (Import imported)] ∅ demo_shard) with
  | Ok (Some (ApplyRoomChanges _ upto chs)) => upto = 1 ∧ mc_user_id <$> chs = ["@ann:a"%string]
  | _ => False
  end.
Proof. vm_compute. by split. Qed.
