(* ===== verification/DeliverySpec.v ===== *)
(** * What delivery promises, and what it does not

    Within one term of leadership the floor of a room shard never passes an
    event that a destination still has to get, and each destination is served
    in order.  But the floor is shared: a peer that stays down stops delivery
    to all of them a scan batch later; and it is recomputed from the durable
    cursors, which know nothing of a peer that never answered. *)

From Stdlib Require Import Ascii.
From S2P Require Import Prelude Bytes Order Store Codec Json Shard ShardFacts Track.
From S2P Require Import RoomTypes RoomMachine RoomRead TimelineSpec CoreEvent FedOut Delivery.
From stdpp Require Import options.

Local Open Scope N_scope.

(** ** Chunks *)

Lemma chunks_aux_concat {A} fuel n (l : list A) :
  (length l ≤ fuel)%nat → (0 < n)%nat → concat (chunks_aux fuel n l) = l.
Proof.
  revert l. induction fuel as [|fuel IH]; intros [|x l] Hl Hn; simpl in *; [done|lia|done|].
  destruct n as [|n]; [lia|]. cbn [take drop]. rewrite IH; [|rewrite length_drop; lia|lia].
  simpl. by rewrite take_drop.
Qed.

Lemma chunks_concat {A} n (l : list A) : (0 < n)%nat → concat (chunks n l) = l.
Proof. by apply chunks_aux_concat. Qed.

Lemma chunks_aux_nonempty {A} fuel n (l : list A) :
  (0 < n)%nat → Forall (.≠ []) (chunks_aux fuel n l).
Proof.
  intros Hn. revert l. induction fuel as [|fuel IH]; intros [|x l]; simpl; try constructor; [|done].
  by destruct n; [lia|].
Qed.

Section Spec.
Context `{RC : RoomCodecs, SJ : SerdeJson, RU : Ruma}.
Context `{FC : FedOutCodecs, UL : Utf8Lossy}.
Context `{HR : Raft}.
Context `{!Codec (option LogId), !Codec StoredMembership}.
Context `{!Codec RuntimeCommand, !Codec RuntimeResponse}.
Context (next_id : engine → LogId).

Abbreviation destinations := (string → string → option (jvalue jnum * list string)) (only parsing).

(** ** One destination *)

(** The transactions a run of chunks makes. *)
Definition txns (sh : N) (dest : string) (l : list (list (N * jvalue jnum))) :
    list (string * string * list N) :=
  (λ ch : list (N * jvalue jnum), (dest, txn_path sh (hd 0 (ch.*1)) (List.last (ch.*1) 0), ch.*1)) <$> l.

Lemma txns_cons sh dest ch l :
  txns sh dest (ch :: l) = (dest, txn_path sh (hd 0 (ch.*1)) (List.last (ch.*1) 0), ch.*1) :: txns sh dest l.
Proof. done. Qed.

Lemma last_app_default {A} (l k : list A) d : List.last (l ++ k) d = List.last k (List.last l d).
Proof.
  induction k as [|x k IH] using rev_ind; [by rewrite app_nil_r|]. by rewrite app_assoc, !last_last.
Qed.

Lemma last_fst (l : list (N * jvalue jnum)) p d : list.last l = Some p → List.last (l.*1) d = p.1.
Proof.
  intros Hl. apply last_Some in Hl as [l' ->]. rewrite fmap_app. simpl. by rewrite last_last.
Qed.

(** A peer that accepts some transaction. *)
Definition accepts (net : Net) (dest : string) : Prop := ∃ path, put net dest path = true.

(** Chunks go out in order until one fails; the pull-back is the last
    sequence number that went out. *)
Lemma send_chunks_spec net sh dest l acked w :
  Forall (.≠ []) l →
  let '(pull, w') := send_chunks next_id net sh dest l acked w in
  ∃ sent rest, l = sent ++ rest ∧ w_sent w' = w_sent w ++ txns sh dest sent
    ∧ (sent = [] ∨ accepts net dest)
    ∧ match pull with
      | None => rest = []
      | Some a => rest ≠ [] ∧ a = List.last ((concat sent).*1) acked
      end.
Proof.
  intros Hl. revert acked w. induction Hl as [|ch l Hch Hl IH]; intros acked w; cbn [send_chunks].
  { exists [], []. simpl. rewrite app_nil_r. auto. }
  destruct ch as [|[first raw] ch]; [done|].
  destruct (list.last ((first, raw) :: ch)) as [[last raw']|] eqn:Hlast; [|by apply last_None in Hlast].
  destruct (put net dest (txn_path sh first last)) eqn:Hput.
  - specialize (IH last {| w_fed := if committed net dest (txn_path sh first last)
        then propose_fed next_id (AdvancePduCursor sh dest last) (w_fed w) else w_fed w;
      w_backoff := success dest (w_backoff w);
      w_sent := w_sent w ++ [(dest, txn_path sh first last, ((first, raw) :: ch).*1)] |}).
    destruct (send_chunks _ _ _ _ _ _ _) as [pull w'].
    destruct IH as (sent & rest & -> & Hs & _ & Hpull).
    exists (((first, raw) :: ch) :: sent), rest. split_and!; [done| |right; by eexists|].
    + rewrite Hs, txns_cons. cbn [w_sent]. rewrite <-app_assoc. by rewrite (last_fst _ _ _ Hlast).
    + destruct pull as [a|]; [|done]. destruct Hpull as [Hr ->]. split; [done|].
      cbn [concat]. rewrite fmap_app, last_app_default. by rewrite (last_fst _ _ _ Hlast).
  - exists [], (((first, raw) :: ch) :: l). simpl. rewrite app_nil_r. auto.
Qed.

(** The sequence numbers a peer was sent, in order. *)
Definition sent_to (d : string) (l : list (string * string * list N)) : list N :=
  concat ((λ t, t.2) <$> filter (λ t, t.1.1 = d) l).

Lemma sent_to_app d l k : sent_to d (l ++ k) = sent_to d l ++ sent_to d k.
Proof. unfold sent_to. by rewrite list.filter_app, fmap_app, concat_app. Qed.

Lemma sent_to_txns sh dest l d :
  sent_to d (txns sh dest l) = if decide (d = dest) then (concat l).*1 else [].
Proof.
  induction l as [|ch l IH]; [by case_decide|]. rewrite txns_cons. unfold sent_to in *.
  rewrite filter_cons. cbn [fst]. destruct (decide (dest = d)) as [->|Hne].
  - rewrite decide_True in * by done. cbn [fmap list_fmap concat]. rewrite IH.
    cbn [concat snd]. by rewrite fmap_app.
  - rewrite decide_False in * by congruence. exact IH.
Qed.

Lemma max_pdus_pos : (0 < MAX_PDUS_PER_TXN)%nat.
Proof. unfold MAX_PDUS_PER_TXN. lia. Qed.

Lemma deliver_pdus_to_spec net sh dest queued acked w :
  let '(pull, w') := deliver_pdus_to next_id net sh dest queued acked w in
  ∃ new out rest, w_sent w' = w_sent w ++ new ∧ queued = out ++ rest
    ∧ (∀ d, sent_to d new = if decide (d = dest) then out.*1 else [])
    ∧ (out = [] ∨ accepts net dest)
    ∧ match pull with None => rest = [] | Some a => a = List.last (out.*1) acked end.
Proof.
  unfold deliver_pdus_to. destruct (negb _).
  { exists [], [], queued. rewrite app_nil_r. split_and!; auto. intros d. by case_decide. }
  pose proof (send_chunks_spec net sh dest (chunks MAX_PDUS_PER_TXN queued) acked w
    (chunks_aux_nonempty _ _ _ max_pdus_pos)) as H.
  destruct (send_chunks _ _ _ _ _ _ _) as [pull w']. destruct H as (sent & rest & Hl & Hs & Ha & Hp).
  exists (txns sh dest sent), (concat sent), (concat rest). split_and!; [done| | | |].
  - rewrite <-concat_app, <-Hl, chunks_concat; [done|]. apply max_pdus_pos.
  - intros d. apply sent_to_txns.
  - destruct Ha as [->|Ha]; auto.
  - destruct pull; [by destruct Hp|]. by subst rest.
Qed.

(** ** All destinations *)

Lemma run_tasks_spec net sh s l pulls w :
  NoDup l →
  let '(pulls', w') := foldl (λ '(pulls, w) dest,
    let '(pull, w') := deliver_pdus_to next_id net sh dest
      (default [] (sc_queues s !! dest)) (default 0 (sc_cursors s !! dest)) w in
    (pulls ++ option_list pull, w')) (pulls, w) l in
  ∃ new, w_sent w' = w_sent w ++ new ∧ pulls ⊆ pulls'
    ∧ (∀ d, d ∉ l → sent_to d new = [])
    ∧ (∀ d, d ∈ l → ∃ out rest, default [] (sc_queues s !! d) = out ++ rest
        ∧ sent_to d new = out.*1 ∧ (out = [] ∨ accepts net d)
        ∧ (rest = [] ∨ List.last (out.*1) (default 0 (sc_cursors s !! d)) ∈ pulls')).
Proof.
  intros Hl. revert pulls w. induction Hl as [|x l Hx Hl IH]; intros pulls w; cbn [foldl].
  { exists []. rewrite app_nil_r. split_and!; [done..|]. by intros d H%elem_of_nil. }
  pose proof (deliver_pdus_to_spec net sh x (default [] (sc_queues s !! x))
    (default 0 (sc_cursors s !! x)) w) as H1.
  destruct (deliver_pdus_to _ _ _ _ _ _ _) as [pull w1].
  destruct H1 as (new1 & out & rest & Hw1 & Hq & Hs1 & Ha & Hpull).
  specialize (IH (pulls ++ option_list pull) w1).
  destruct (foldl _ _ l) as [pulls' w']. destruct IH as (new & Hw & Hsub & Hno & Hyes).
  exists (new1 ++ new). split_and!.
  - by rewrite Hw, Hw1, app_assoc.
  - intros p Hp. apply Hsub, elem_of_app. by left.
  - intros d Hd. apply not_elem_of_cons in Hd as [Hne Hd].
    rewrite sent_to_app, Hs1, decide_False, Hno by done. done.
  - intros d [->|Hd]%elem_of_cons.
    + exists out, rest. split_and!; [done| |done|].
      * rewrite sent_to_app, Hs1, decide_True, Hno, app_nil_r by done. done.
      * destruct pull as [a|]; [right|by left]. subst a. apply Hsub, elem_of_app. right.
        by apply list_elem_of_singleton.
    + destruct (Hyes d Hd) as (out' & rest' & Hq' & Hs' & Ha' & Hp').
      exists out', rest'. split_and!; [done| |done|done].
      rewrite sent_to_app, Hs1, decide_False by (by intros ->). done.
Qed.

(** ** What a pass queues

    The durable cursor of a destination, and the events of a batch that are
    due to it: those it is among the destinations of, past that cursor. *)

Section Scanned.
Context (dests : destinations) (fed : engine) (sh : N).
Context (dests_nodup : ∀ r e raw ds, dests r e = Some (raw, ds) → NoDup ds).

Definition known (d : string) : option N :=
  match pdu_cursor (fed_ctx fed) sh d with Ok o => o | Err _ => None end.

(** The event that [e] holds for [d]. *)
Definition for_dest (d : string) (e : N * SeqEntry) : option (jvalue jnum) :=
  match e.2 with
  | SeqEvent r i =>
      match dests r i with
      | Some (raw, ds) => if bool_decide (d ∈ ds) then Some raw else None
      | None => None
      end
  | _ => None
  end.

Definition past_cursor (d : string) (n : N) : bool :=
  match known d with Some c => c <? n | None => true end.

Definition due (d : string) (batch : list (N * SeqEntry)) : list (N * jvalue jnum) :=
  omap (λ e, raw ← for_dest d e; if past_cursor d e.1 then Some (e.1, raw) else None) batch.

(** What the scan knows of one destination, and how an event changes it. *)
Definition view (s : Scan) (d : string) : option N * option (list (N * jvalue jnum)) :=
  (sc_cursors s !! d, sc_queues s !! d).

Definition queue_step (d : string) (n : N) (raw : jvalue jnum)
    (v : option N * option (list (N * jvalue jnum))) :=
  let c := match v.1 with Some c => c | None => default (n - 1) (known d) end in
  (Some c, if n <=? c then v.2 else Some (default [] v.2 ++ [(n, raw)])).

Lemma view_queue_event n raw s x d :
  view (queue_event fed sh n raw s x) d = if decide (d = x) then queue_step x n raw (view s x) else view s d.
Proof.
  unfold view, queue_event, queue_step. cbn [sc_cursors sc_queues fst snd].
  set (c := match sc_cursors s !! x with Some c => c | None => _ end).
  destruct (decide (d = x)) as [->|Hne].
  - rewrite lookup_insert_eq. f_equal. destruct (n <=? c); [done|]. by rewrite lookup_insert_eq.
  - rewrite lookup_insert_ne by done. f_equal. destruct (n <=? c); [done|]. by rewrite lookup_insert_ne.
Qed.

Lemma view_queue_all n raw ds s d :
  NoDup ds →
  view (foldl (queue_event fed sh n raw) s ds) d =
    if bool_decide (d ∈ ds) then queue_step d n raw (view s d) else view s d.
Proof.
  intros Hds. revert s. induction Hds as [|x ds Hx Hds IH]; intros s; cbn [foldl].
  { by rewrite bool_decide_false by apply not_elem_of_nil. }
  rewrite IH, view_queue_event. destruct (decide (d = x)) as [->|Hne].
  - rewrite bool_decide_false by done. by rewrite bool_decide_true by (by left).
  - destruct (decide (d ∈ ds)) as [Hd|Hd].
    + rewrite !bool_decide_true; [done|by right|done].
    + rewrite !bool_decide_false; [done| |done]. by intros [?|?]%elem_of_cons.
Qed.

Lemma view_scan_entry s e d :
  view (scan_entry dests fed sh s e) d =
    match for_dest d e with Some raw => queue_step d e.1 raw (view s d) | None => view s d end.
Proof using Type*.
  unfold scan_entry, for_dest. destruct e.2 as [r i|]; [|done].
  destruct (dests r i) as [[raw ds]|] eqn:Hd; [|done].
  rewrite view_queue_all by (by eapply dests_nodup). by case_bool_decide.
Qed.

(** The batch's numbers: positive and ascending. *)
Definition ascending_batch (batch : list (N * SeqEntry)) : Prop :=
  StronglySorted (λ a b : N * SeqEntry, a.1 < b.1) batch ∧ Forall (λ e, 0 < e.1) batch.

Lemma ascending_snoc batch e : ascending_batch (batch ++ [e]) →
  ascending_batch batch ∧ 0 < e.1 ∧ Forall (λ x, x.1 < e.1) batch.
Proof.
  intros [HS HP]. apply Forall_app in HP as [HP He]. split_and!.
  - split; [|done]. clear HP He. induction batch as [|x batch IH]; [constructor|].
    inversion_clear HS as [|? ? Hs Hx]. apply Forall_app in Hx as [Hx _]. constructor; auto.
  - by inversion He.
  - clear HP He. induction batch as [|x batch IH]; [constructor|].
    inversion_clear HS as [|? ? Hs Hx]. apply Forall_app in Hx as [_ Hx].
    constructor; [by inversion Hx|by apply IH].
Qed.

(** The cached cursor of [d] after a batch. *)
Definition cached (d : string) (batch : list (N * SeqEntry)) (c : option N) : Prop :=
  match c with
  | None => omap (for_dest d) batch = []
  | Some c =>
      match known d with
      | Some k => c = k
      | None => (∃ e, e ∈ batch ∧ c < e.1) ∧ Forall (λ x, c < x.1) (due d batch)
      end
  end.

Lemma scan_spec d batch :
  ascending_batch batch →
  let v := view (scan_batch dests fed sh batch) d in
  default [] v.2 = due d batch ∧ (is_Some v.2 ↔ due d batch ≠ []) ∧ cached d batch v.1.
Proof using Type*.
  induction batch as [|e batch IH] using rev_ind; intros Hasc; cbv zeta.
  { unfold scan_batch, view; simpl. rewrite !lookup_empty. split_and!; [done| |done].
    split; [by intros [? ?]|done]. }
  apply ascending_snoc in Hasc as (Hasc & Hpos & Hlt). destruct (IH Hasc) as (H1 & H2 & H3). clear IH.
  unfold scan_batch in *. rewrite foldl_app. cbn [foldl]. rewrite view_scan_entry.
  set (v := view (foldl _ _ batch) d) in *.
  assert (due d (batch ++ [e]) = due d batch ++
    match for_dest d e with
    | Some raw => if past_cursor d e.1 then [(e.1, raw)] else []
    | None => [] end) as Hdue.
  { unfold due. rewrite omap_app. simpl. destruct (for_dest d e); [|done]. simpl.
    by destruct (past_cursor d e.1). }
  assert (omap (for_dest d) (batch ++ [e]) = omap (for_dest d) batch ++ option_list (for_dest d e)) as Hom.
  { rewrite omap_app. simpl. by destruct (for_dest d e). }
  destruct (for_dest d e) as [raw|].
  2: { rewrite Hdue, app_nil_r. split_and!; [done..|]. unfold cached in *. destruct v.1 as [c|].
       - destruct (known d); [done|]. destruct H3 as [(x & Hx & Hc) H3]. rewrite Hdue, app_nil_r.
         split; [|done]. exists x. split; [|done]. apply elem_of_app. by left.
       - by rewrite Hom, app_nil_r. }
  set (c := match v.1 with Some c => c | None => default (e.1 - 1) (known d) end).
  assert ((e.1 <=? c) = negb (past_cursor d e.1) ∧ (known d = None → c < e.1)
    ∧ ∀ k, known d = Some k → c = k) as (Hc & Hcn & Hck).
  { unfold c, past_cursor, cached in *. rewrite N.ltb_antisym, negb_involutive || idtac.
    destruct v.1 as [c'|], (known d) as [k|]; cbn [default].
    - subst c'. rewrite N.ltb_antisym, negb_involutive. split_and!; [done|done|]. by intros ? [= <-].
    - destruct H3 as [(x & Hx & Hxc) _]. eapply list.Forall_forall in Hlt; [|done].
      split_and!; [apply N.leb_gt; lia|lia|done].
    - change (id k) with k. rewrite N.ltb_antisym, negb_involutive. split_and!; [done|done|].
      by intros ? [= <-].
    - split_and!; [apply N.leb_gt; lia|lia|done]. }
  unfold queue_step. fold c. rewrite Hc, Hdue. cbn [fst snd].
  assert (cached d (batch ++ [e]) (Some c)) as Hcached.
  { unfold cached. destruct (known d) as [k|] eqn:Hk; [by apply Hck|]. specialize (Hcn eq_refl). split.
    - exists e. split; [|done]. apply elem_of_app. right. by left.
    - rewrite Hdue. apply Forall_app. split; [|destruct (past_cursor d e.1); by repeat constructor].
      unfold cached in H3. destruct v.1 as [c'|] eqn:Hv; [by rewrite Hk in H3; destruct H3 as [_ H3]|].
      unfold due. clear -H3. induction batch as [|x batch IH]; [constructor|]. simpl in *.
      destruct (for_dest d x); [done|]. by apply IH. }
  destruct (past_cursor d e.1); cbn [negb].
  - split_and!; [by rewrite H1| |done]. split; [|by eexists]. intros _. by destruct (due d batch).
  - rewrite app_nil_r. split_and!; done.
Qed.

(** ** The floor *)

Lemma batch_le_last batch e x :
  ascending_batch batch → list.last batch = Some e → x ∈ batch → x.1 ≤ e.1.
Proof using Type.
  intros Hasc [l' ->]%last_Some Hx. apply ascending_snoc in Hasc as (_ & _ & Hlt).
  apply elem_of_app in Hx as [Hx| ->%list_elem_of_singleton]; [|done].
  eapply list.Forall_forall in Hlt; [|done]. lia.
Qed.

Lemma due_elem d batch n : n ∈ (due d batch).*1 → ∃ e, e ∈ batch ∧ e.1 = n ∧ is_Some (for_dest d e)
  ∧ past_cursor d n = true.
Proof using Type.
  intros ([n' raw] & -> & (e & He & Hd)%list_elem_of_omap)%list_elem_of_fmap.
  destruct (for_dest d e) as [raw'|] eqn:Hf; [|done]. simpl in Hd.
  destruct (past_cursor d e.1) eqn:Hp; simplify_eq/=. exists e. by rewrite Hf.
Qed.

Lemma due_sorted d batch : ascending_batch batch → StronglySorted N.lt ((due d batch).*1).
Proof using Type.
  intros [HS _]. induction HS as [|e batch HS IH He]; [constructor|]. unfold due in *; simpl.
  destruct (for_dest d e) as [raw|]; [|done]. simpl. destruct (past_cursor d e.1); [|done].
  simpl. constructor; [done|]. apply list.Forall_forall. intros n Hn.
  apply (due_elem d batch) in Hn as (x & Hx & <- & _). eapply list.Forall_forall in He; done.
Qed.

(** The cached cursor of a destination that has events due lies below them. *)
Lemma cached_below d batch c :
  cached d batch (Some c) → Forall (λ n, c < n) ((due d batch).*1).
Proof using Type.
  intros Hc. apply list.Forall_forall. intros n Hn.
  pose proof (due_elem d batch n Hn) as (e & He & <- & _ & Hp). unfold cached, past_cursor in *.
  destruct (known d) as [k|]; [subst c; by apply N.ltb_lt|]. destruct Hc as [_ Hc].
  apply list_elem_of_fmap in Hn as (x & Hx1 & Hx). rewrite Hx1. eapply list.Forall_forall in Hc; done.
Qed.

Lemma last_below (l k : list N) c :
  StronglySorted N.lt (l ++ k) → Forall (λ n, c < n) (l ++ k) → Forall (λ n, List.last l c < n) k.
Proof using Type.
  intros HS HF. destruct l as [|x l _] using rev_ind; [done|]. rewrite last_last.
  clear HF. induction l as [|y l IH]; simpl in HS; inversion_clear HS as [|? ? HS' Hx]; [done|by apply IH].
Qed.

Lemma min_le (l : list N) n : (foldl N.min n l ≤ n) ∧ ∀ x, x ∈ l → foldl N.min n l ≤ x.
Proof using Type.
  revert n. induction l as [|y l IH]; intros n; cbn [foldl]; [split; [done|by intros x ?%elem_of_nil]|].
  destruct (IH (N.min n y)) as [H1 H2]. split; [lia|]. intros x [->|Hx]%elem_of_cons; [lia|by apply H2].
Qed.

(** What one pass owes: it sends a destination its due events in order, and
    those it still owes lie above the new floor. *)
Definition owes (net : Net) (batch : list (N * SeqEntry)) (floor : N)
    (new : list (string * string * list N)) : Prop :=
  ∀ d, (∃ held, (due d batch).*1 = sent_to d new ++ held ∧ Forall (λ n, floor < n) held)
    ∧ (sent_to d new = [] ∨ accepts net d).

Lemma deliver_batch_spec net batch pos w :
  w_fed w = fed → ascending_batch batch → Forall (λ e, pos < e.1) batch →
  let '(pos', w') := deliver_batch next_id dests net sh batch pos w in
  pos ≤ pos' ∧ ∃ new, w_sent w' = w_sent w ++ new ∧ owes net batch pos' new
    ∧ pos' ≤ match list.last batch with Some e => N.max pos e.1 | None => pos end.
Proof using Type*.
  intros Hfed Hasc Hpos. unfold deliver_batch. rewrite Hfed.
  destruct (list.last batch) as [[last en]|] eqn:Hlast.
  2: { apply last_None in Hlast as ->. split; [done|]. exists []. rewrite app_nil_r. split_and!; [done| |done].
       intros d. split; [by exists []|by left]. }
  set (s := scan_batch dests fed sh batch). unfold run_tasks.
  assert (NoDup (btree (dom (sc_queues s)))) as Hnd.
  { unfold btree. rewrite merge_sort_Permutation. apply NoDup_elements. }
  pose proof (run_tasks_spec net sh s (btree (dom (sc_queues s))) [] w Hnd) as H.
  destruct (foldl _ ([], w) _) as [pulls w']. destruct H as (new & Hw & _ & Hno & Hyes).
  destruct (min_le pulls last) as [Hmin0 Hmin].
  split; [lia|]. exists new. split_and!; [done| |simpl; lia]. intros d.
  destruct (scan_spec d batch Hasc) as (Hq & Hdom & Hc). fold s in Hq, Hdom, Hc.
  unfold view in Hq, Hdom, Hc. cbn [fst snd] in Hq, Hdom, Hc.
  destruct (decide (d ∈ btree (dom (sc_queues s)))) as [Hd|Hd].
  - destruct (Hyes d Hd) as (out & rest & Hor & Hs & Ha & Hpull). rewrite Hq in Hor.
    split; [|destruct Ha as [->|Ha]; auto]. exists rest.*1. rewrite Hs, <-fmap_app, <-Hor. split; [done|].
    destruct Hpull as [->|Hpull]; [constructor|]. apply Hmin in Hpull.
    assert (is_Some (sc_cursors s !! d)) as [c Hcs].
    { destruct (sc_cursors s !! d) as [c|]; [by eexists|]. exfalso.
      apply elem_of_btree, elem_of_dom in Hd. apply Hdom in Hd. apply Hd. simpl in Hc.
      destruct (due d batch) as [|p l] eqn:Hdue; [done|].
      assert (p.1 ∈ (due d batch).*1) as (e & He & _ & [raw Hf] & _)%due_elem by (rewrite Hdue; by left).
      exfalso. assert (raw ∈ omap (for_dest d) batch) as Hin by (apply list_elem_of_omap; eauto).
      rewrite Hc in Hin. by apply elem_of_nil in Hin. }
    rewrite Hcs in Hc, Hpull. cbn [default] in Hpull.
    assert (Forall (λ n, List.last (out.*1) c < n) rest.*1) as HF.
    { apply last_below; rewrite <-fmap_app, <-Hor; [by apply due_sorted|by apply cached_below]. }
    apply list.Forall_forall. intros n Hn.
    assert (n ∈ (due d batch).*1) as (e & He & <- & _)%due_elem.
    { rewrite Hor, fmap_app. apply elem_of_app. by right. }
    eapply list.Forall_forall in HF; [|done]. eapply list.Forall_forall in Hpos; [|done].
    unfold id in *. lia.
  - rewrite Hno by done. split; [|by left]. exists []. rewrite app_nil_r. split; [|constructor].
    assert (¬ due d batch ≠ []) as Hnil.
    { intros Hn. apply Hd, elem_of_btree, elem_of_dom. by apply Hdom. }
    destruct (due d batch); [done|]. by destruct Hnil.
Qed.
End Scanned.

(** ** The cursor table *)

Lemma known_cell fed s d :
  known fed s d = cell_num (eget FED_OUT_SHARD fed T_PDU_CURSOR (cursor_key s d)).
Proof using Type.
  unfold known, pdu_cursor, read_u64, read_get, fed_ctx, eget, cell_num. cbn [r_engine r_shard].
  destruct (fed !! _) as [b|]; [|done]. unfold dec_or. simpl. by destruct (dec b).
Qed.

(** The cursor table as the shard writes it. *)
Definition cursors_wf (fed : engine) : Prop :=
  ∀ k v, fed !! ctx_key FED_OUT_SHARD T_PDU_CURSOR k = Some v →
    (∃ s d, s < 65536 ∧ k = cursor_key s d) ∧ is_Some (dec (A := N) v).

Lemma from_be16_key s d : s < 65536 → from_be16 (cursor_key s d) = s.
Proof using Type.
  intros Hs. unfold cursor_key, be16. cbn [be_bytes String.append from_be16].
  rewrite !N_of_byte_of. change (256 ^ N.of_nat 1) with 256. change (256 ^ N.of_nat 0) with 1.
  rewrite N.div_1_r. rewrite (N.mod_small (s / 256)) by (apply N.Div0.div_lt_upper_bound; lia).
  pose proof (N.div_mod s 256). lia.
Qed.

Lemma pdu_cursors_spec fed :
  cursors_wf fed → ∃ l, pdu_cursors (fed_ctx fed) = Ok l
    ∧ ∀ s n, s < 65536 → (∃ d, (s, d, n) ∈ l) ↔ ∃ d, known fed s d = Some n.
Proof using Type.
  intros Hwf. unfold pdu_cursors, fed_ctx. rewrite read_range_rows.
  set (l := rows _ _ _ _ _). set (f := λ (out : list (N * string * N)) '((k, v) : bytes * bytes), _).
  assert (∀ k v, (k, v) ∈ l ↔ fed !! ctx_key FED_OUT_SHARD T_PDU_CURSOR k = Some v) as Hl.
  { intros k v. unfold l. rewrite elem_of_rows by done. cbn [below]. rewrite sleb_nil.
    split; [by intros (? & _)|done]. }
  assert (∀ l0 acc, (∀ kv, kv ∈ l0 → kv ∈ l) → ∃ r, try_fold f acc l0 = Ok (acc ++ r)
    ∧ ∀ s n, s < 65536 → (∃ d, (s, d, n) ∈ r) ↔
        ∃ d v, (cursor_key s d, v) ∈ l0 ∧ dec v = Some n) as Hf.
  { induction l0 as [|[k v] l0 IH]; intros acc Hin; cbn [try_fold].
    { exists []. rewrite app_nil_r. split; [done|]. intros s n _.
      split; [by intros (d & ?%elem_of_nil)|by intros (d & v & ?%elem_of_nil & _)]. }
    destruct (Hwf k v) as [(s0 & d0 & Hs0 & ->) [n0 Hn0]]; [apply Hl, Hin; by left|].
    destruct (IH (acc ++ [(s0, from_utf8_lossy (str_drop 2 (cursor_key s0 d0)), n0)])) as (r & Hr & Hiff).
    { intros kv Hkv. apply Hin. by right. }
    exists ((s0, from_utf8_lossy (str_drop 2 (cursor_key s0 d0)), n0) :: r). split.
    - unfold f at 1. rewrite bool_decide_false by (unfold cursor_key, be16; cbn; lia).
      unfold dec_or. rewrite Hn0. cbn [ok_or]. rewrite (from_be16_key s0 d0) by done. rewrite Hr.
      by rewrite <-app_assoc.
    - intros s n Hs. specialize (Hiff s n Hs). split.
      + intros [d [Heq|Hd]%elem_of_cons].
        * injection Heq as -> _ ->. exists d0, v. split; [by left|done].
        * destruct (proj1 Hiff) as (d' & v' & ? & ?); [by exists d|]. exists d', v'. split; [by right|done].
      + intros (d & v' & [Heq|Hd]%elem_of_cons & Hn).
        * apply pair_equal_spec in Heq as [Hk ->]. apply cursor_key_inj in Hk as [-> ->]; [|done..].
          rewrite Hn0 in Hn. injection Hn as ->. eexists. by left.
        * destruct (proj2 Hiff) as (d' & ?); [by exists d, v'|]. exists d'. by right. }
  destruct (Hf l [] ltac:(done)) as (r & Hr & Hiff). exists r. split; [done|].
  intros s n Hs. rewrite Hiff by done. split; intros [d Hd]; exists d.
  - destruct Hd as (v & Hv & Hn). rewrite known_cell. unfold eget. apply Hl in Hv. by rewrite Hv.
  - rewrite known_cell in Hd. unfold eget, cell_num in Hd.
    destruct (fed !! _) as [v|] eqn:Hv; [|done]. exists v. split; [by apply Hl|done].
Qed.

(** ** Passes over a room shard *)

Section Passes.
Context (server_name : string) (sh : N).

Lemma btree_nodup s : NoDup (btree s).
Proof using Type. unfold btree. rewrite merge_sort_Permutation. apply NoDup_elements. Qed.

Lemma remote_servers_nodup rooms room_id exclude l :
  remote_servers_in_room rooms room_id exclude = Ok l → NoDup l.
Proof using Type.
  unfold remote_servers_in_room. destruct (meta rooms room_id) as [[m|]|]; [|intros [= <-]; constructor|done].
  destruct (default _ _) as [state|]; [|done]. destruct (try_fold _ ∅ _); [|done]. intros [= <-].
  apply btree_nodup.
Qed.

Lemma event_destinations_nodup rooms r i raw ds :
  event_destinations server_name rooms r i = Some (raw, ds) → NoDup ds.
Proof using Type.
  unfold event_destinations. destruct (match event rooms i with Ok o => o | Err _ => None end) as [st|]; [|done].
  cbn [mbind option_bind]. destruct (from_slice (se_raw st)) as [raw'|]; [|done]. cbn [mbind option_bind].
  destruct (se_imported st); [by intros [= _ <-]; constructor|].
  destruct (bool_decide _ && negb (se_relay st)); [by intros [= _ <-]; constructor|].
  intros [= _ <-].
  assert (NoDup (match remote_servers_in_room rooms r server_name with Ok l => l | Err _ => [] end)) as Hnd.
  { destruct (remote_servers_in_room _ _ _) eqn:Hr; [by eapply remote_servers_nodup|constructor]. }
  apply (list.NoDup_filter (λ d, Some d ≠ (s ← vget "sender" raw'; u ← vstr s; server_of u))) in Hnd.
  destruct (_ && _); [|done]. destruct (k ← vget "state_key" raw'; _) as [t|]; [|done].
  destruct (bool_decide (t ≠ server_name) && _); [|done]. cbn [andb].
  case_bool_decide; [|done]. apply list.NoDup_app. split_and!; [done| |by apply NoDup_singleton].
  by intros x Hx ->%list_elem_of_singleton.
Qed.

(** The page a pass reads, and what is due of it to a destination. *)
Definition due_now (rooms : ReadCtx) (fed : engine) (d : string) (page : list (N * SeqEntry)) : list N :=
  (due (event_destinations server_name rooms) fed sh d page).*1.

Lemma pass_spec rooms net pos w page :
  pos + 1 < u64_modulus → timeline rooms pos SCAN_BATCH = Ok page →
  let '(pos', w') := deliver_pdus next_id server_name rooms net sh pos w in
  pos ≤ pos' ∧ ∃ new, w_sent w' = w_sent w ++ new
    ∧ owes (event_destinations server_name rooms) (w_fed w) sh net page pos' new
    ∧ pos' ≤ match list.last page with Some e => N.max pos e.1 | None => pos end.
Proof using Type.
  intros Hpos Hpage. destruct (timeline_ascending _ _ _ _ Hpos Hpage) as [HS HF].
  unfold deliver_pdus. rewrite Hpage. apply deliver_batch_spec; [|done| |done].
  - intros r i raw ds. apply event_destinations_nodup.
  - split; [done|]. eapply list.Forall_impl; [exact HF|]. simpl. lia.
Qed.

(** C40 (invariant): one pass of the delivery worker over a room shard, with
    any mix of peers that answer, refuse or sit out a penalty, never moves its
    floor back, and splits the events of the page it read that are due to a
    destination (those it is among the destinations of, past its durable
    cursor) in two: a prefix that it has sent it, each once and in the order of
    the timeline, and the rest, all of which lie above the new floor and so
    are read again.  It sends nothing else. *)
Theorem pass_loses_nothing rooms net pos w page :
  pos + 1 < u64_modulus → timeline rooms pos SCAN_BATCH = Ok page →
  let '(pos', w') := deliver_pdus next_id server_name rooms net sh pos w in
  pos ≤ pos' ∧ ∃ new, w_sent w' = w_sent w ++ new ∧ ∀ d, ∃ held,
    due_now rooms (w_fed w) d page = sent_to d new ++ held ∧ Forall (λ n, pos' < n) held.
Proof using Type.
  intros Hpos Hpage. pose proof (pass_spec rooms net pos w page Hpos Hpage) as H.
  destruct (deliver_pdus _ _ _ _ _ _ _) as [pos' w']. destruct H as (Hle & new & Hw & Ho & _).
  split; [done|]. exists new. split; [done|]. intros d. by destruct (Ho d).
Qed.

(** ** Cursors of others *)

Context (sh_u16 : sh < 65536).

Lemma known_advance fed c d n :
  c ≠ d → known (propose_fed next_id (AdvancePduCursor sh d n) fed) sh c = known fed sh c.
Proof using sh_u16.
  intros Hne. unfold propose_fed.
  destruct (sm_apply _ _ _ fed) as [[[e rs] pub]|] eqn:Hap; [|done].
  rewrite !known_cell, (cell_apply T_PDU_CURSOR (cursor_key sh c) _ fed e rs pub) by done.
  unfold commands, app_payload. cbn [omap list_omap payload].
  pose proof (fc_command_marked (AdvancePduCursor sh d n)) as Hm.
  destruct (enc (AdvancePduCursor sh d n)) as [|ch rest] eqn:He; cbn [reported omap list_omap].
  all: try rewrite bool_decide_false by done; unfold reported; cbn [omap list_omap]; rewrite <-He, dec_enc.
  all: cbn [mbind option_bind reports]; rewrite bool_decide_false; [done|].
  all: intros [_ Hk]; apply cursor_key_inj in Hk as [_ Hk]; done.
Qed.

Lemma known_send_chunks net c d l acked w :
  ¬ accepts net c → known (w_fed (send_chunks next_id net sh d l acked w).2) sh c = known (w_fed w) sh c.
Proof using sh_u16.
  intros Hc. revert acked w. induction l as [|ch l IH]; intros acked w; [done|]. cbn [send_chunks].
  destruct ch as [|[first raw] ch]; [done|]. destruct (list.last _) as [[last raw']|]; [|done].
  destruct (put net d _) eqn:Hput; [|done]. rewrite IH. cbn [w_fed].
  destruct (committed _ _ _); [|done]. apply known_advance. intros ->. apply Hc. by eexists.
Qed.

Lemma known_pass rooms net c pos w :
  ¬ accepts net c →
  known (w_fed (deliver_pdus next_id server_name rooms net sh pos w).2) sh c = known (w_fed w) sh c.
Proof using sh_u16.
  intros Hc. unfold deliver_pdus. destruct (timeline _ _ _) as [page|]; [|done].
  unfold deliver_batch. destruct (list.last page) as [[last en]|]; [|done]. unfold run_tasks.
  generalize (@nil N) as pulls.
  generalize (btree (dom (sc_queues (scan_batch (event_destinations server_name rooms) (w_fed w) sh page)))).
  generalize (scan_batch (event_destinations server_name rooms) (w_fed w) sh page). intros s l.
  revert w. induction l as [|d l IH]; intros w pulls; [done|]. cbn [foldl].
  assert (known (w_fed (deliver_pdus_to next_id net sh d (default [] (sc_queues s !! d))
    (default 0 (sc_cursors s !! d)) w).2) sh c = known (w_fed w) sh c) as Hd.
  { unfold deliver_pdus_to. destruct (negb _); [done|]. by apply known_send_chunks. }
  destruct (deliver_pdus_to _ _ _ _ _ _ _) as [pull w']. cbn [snd] in Hd. rewrite <-Hd. apply IH.
Qed.

(** ** Many passes *)

Definition passes (run : list (ReadCtx * Net)) (p : N * Worker) : N * Worker :=
  foldl (λ p s, deliver_pdus next_id server_name s.1 s.2 sh p.1 p.2) p run.

(** What a pass sends lies on the page it read. *)
Lemma sent_on_page rooms net w page new pos' d n :
  owes (event_destinations server_name rooms) (w_fed w) sh net page pos' new →
  n ∈ sent_to d new → ∃ e, e ∈ page ∧ e.1 = n.
Proof using Type.
  intros Ho Hn. destruct (Ho d) as [(held & Hd & _) _].
  assert (n ∈ (due (event_destinations server_name rooms) (w_fed w) sh d page).*1) as Hin.
  { rewrite Hd. apply elem_of_app. by left. }
  apply due_elem in Hin as (e & He & <- & _). by exists e.
Qed.

(** A peer that accepts nothing is among the destinations of the event at
    [n0], the first of a full page. *)
Definition starving (c : string) (n0 : N) (room_id event_id : string) (page : list (N * SeqEntry))
    (s : ReadCtx * Net) : Prop :=
  timeline s.1 (n0 - 1) SCAN_BATCH = Ok ((n0, SeqEvent room_id event_id) :: page)
  ∧ is_Some (for_dest (event_destinations server_name s.1) c (n0, SeqEvent room_id event_id))
  ∧ ¬ accepts s.2 c.

Lemma starving_pass c n0 room_id event_id page rooms net pos w :
  length page = 255%nat → pos < n0 → n0 < u64_modulus →
  past_cursor (w_fed w) sh c n0 = true → starving c n0 room_id event_id page (rooms, net) →
  let '(pos', w') := deliver_pdus next_id server_name rooms net sh pos w in
  pos' < n0 ∧ past_cursor (w_fed w') sh c n0 = true ∧ ∃ new, w_sent w' = w_sent w ++ new
    ∧ ∀ d n, n ∈ sent_to d new → ∃ e, e ∈ (n0, SeqEvent room_id event_id) :: page ∧ n ≤ e.1.
Proof using sh_u16.
  intros Hlen Hpos Hn0 Hpast (Hpage & [raw Hfor] & Hno). cbn [fst snd] in *.
  pose proof (known_pass rooms net c pos w Hno) as Hk.
  destruct (timeline rooms pos SCAN_BATCH) as [batch|] eqn:Hb.
  2: { unfold deliver_pdus in *. rewrite Hb. split_and!; [done..|]. exists []. rewrite app_nil_r.
       split; [done|]. by intros d n ?%elem_of_nil. }
  pose proof (pass_spec rooms net pos w batch ltac:(lia) Hb) as H.
  destruct (deliver_pdus _ _ _ _ _ _ _) as [pos' w']. cbn [snd] in Hk.
  destruct H as (_ & new & Hw & Ho & Hle). split_and!.
  - assert ((n0, SeqEvent room_id event_id) ∈ (n0, SeqEvent room_id event_id) :: page) as Hin by by left.
    destruct (page_reaches rooms pos (n0 - 1) _ _ _ _ _ ltac:(lia) ltac:(lia) Hb Hpage Hin) as [Hon|Hbefore].
    + destruct (Ho c) as [(held & Hd & Hheld) Hs]. destruct Hs as [Hs|Hs]; [|done].
      rewrite Hs in Hd. simpl in Hd. rewrite <-Hd in Hheld. rewrite list.Forall_forall in Hheld.
      apply Hheld, list_elem_of_fmap. exists (n0, raw). split; [done|].
      apply list_elem_of_omap. exists (n0, SeqEvent room_id event_id). split; [done|].
      rewrite Hfor. simpl. by rewrite Hpast.
    + destruct (list.last batch) as [e|] eqn:Hlast; [|lia].
      rewrite list.Forall_forall in Hbefore. specialize (Hbefore e). cbn [fst] in Hbefore.
      apply last_Some_elem_of in Hlast. specialize (Hbefore Hlast). lia.
  - unfold past_cursor in *. by rewrite Hk.
  - exists new. split; [done|]. intros d n Hn.
    destruct (sent_on_page _ _ _ _ _ _ _ _ Ho Hn) as (e & He & <-).
    eapply page_stops; [| |exact Hb|exact Hpage| |done]; [lia|lia|]. simpl. by rewrite Hlen.
Qed.

(** A destination that is down holds up all the others.  While it
    accepts nothing and is owed the event at number [n0], no number of passes
    over a timeline that goes on past it, whatever the other peers answer,
    moves the floor to [n0], and nothing beyond the page of 256 rows that
    starts there is ever sent to anybody. *)
Theorem one_peer_starves_all c n0 room_id event_id page run pos w :
  length page = 255%nat → pos < n0 → n0 < u64_modulus →
  past_cursor (w_fed w) sh c n0 = true →
  Forall (starving c n0 room_id event_id page) run →
  let '(pos', w') := passes run (pos, w) in
  pos' < n0 ∧ ∃ new, w_sent w' = w_sent w ++ new
    ∧ ∀ d n, n ∈ sent_to d new → ∃ e, e ∈ (n0, SeqEvent room_id event_id) :: page ∧ n ≤ e.1.
Proof using sh_u16.
  intros Hlen Hpos Hn0 Hpast Hrun. revert pos w Hpos Hpast.
  induction Hrun as [|[rooms net] run Hs Hrun IH]; intros pos w Hpos Hpast; cbn [passes foldl fst snd].
  { split; [done|]. exists []. rewrite app_nil_r. split; [done|]. by intros d n ?%elem_of_nil. }
  pose proof (starving_pass c n0 room_id event_id page rooms net pos w Hlen Hpos Hn0 Hpast Hs) as H.
  destruct (deliver_pdus _ _ _ _ _ _ _) as [pos1 w1]. destruct H as (Hpos1 & Hpast1 & new1 & Hw1 & Hs1).
  specialize (IH pos1 w1 Hpos1 Hpast1). unfold passes in IH.
  destruct (foldl _ (pos1, w1) run) as [pos' w']. destruct IH as (Hpos' & new & Hw & Hs').
  split; [done|]. exists (new1 ++ new). split; [by rewrite Hw, Hw1, app_assoc|].
  intros d n. rewrite sent_to_app. intros [Hn|Hn]%elem_of_app; eauto.
Qed.

(** ** Taking over *)

Lemma initial_scan_pos_spec fed tip :
  cursors_wf fed →
  let p := initial_scan_pos fed sh tip in
  (∀ d k, known fed sh d = Some k → p ≤ k)
  ∧ ((∀ d, known fed sh d = None) ∧ p = tip ∨ ∃ d, known fed sh d = Some p).
Proof using sh_u16.
  intros Hwf p. destruct (pdu_cursors_spec fed Hwf) as (l & Hl & Hiff).
  assert (∀ n, n ∈ (λ c : N * string * N, c.2) <$> filter (λ c, c.1.1 = sh) l ↔ ∃ d, known fed sh d = Some n) as Hc.
  { intros n. rewrite <-Hiff by done. rewrite list_elem_of_fmap. split.
    - intros ([[s d] n'] & -> & [Hs Hin]%list_elem_of_filter). simpl in *. subst s. by exists d.
    - intros [d Hd]. exists (sh, d, n). split; [done|]. by apply list_elem_of_filter. }
  unfold p, initial_scan_pos. rewrite Hl. clear p. revert Hc.
  generalize ((λ c : N * string * N, c.2) <$> filter (λ c, c.1.1 = sh) l). intros cs Hc.
  destruct cs as [|n ns].
  - assert (∀ d, known fed sh d = None) as Hnone.
    { intros d. destruct (known fed sh d) eqn:Hd; [|done]. exfalso.
      eapply (not_elem_of_nil n), Hc. by exists d. }
    split; [intros d k Hd; by rewrite Hnone in Hd|]. by left.
  - destruct (min_le ns n) as [H0 H1]. split.
    + intros d k Hd. assert (k ∈ n :: ns) as [->|Hk]%elem_of_cons by (apply Hc; by exists d); [done|auto].
    + assert (foldl N.min n ns ∈ n :: ns) as Hin.
      { clear. revert n. induction ns as [|m ns IH]; intros n; [by left|]. cbn [foldl].
        specialize (IH (N.min n m)). apply elem_of_cons in IH as [->|IH]; [|by do 2 right].
        destruct (N.min_spec n m) as [[_ ->]|[_ ->]]; [by left|right; by left]. }
      apply Hc in Hin as [d Hd]. right. by exists d.
Qed.

(** No sequence number is the last one there is. *)
Definition bounded (s : ReadCtx * Net) : Prop :=
  ∀ pos page e, timeline s.1 pos SCAN_BATCH = Ok page → e ∈ page → e.1 + 1 < u64_modulus.

Lemma passes_above run pos w :
  Forall bounded run → pos + 1 < u64_modulus →
  let '(pos', w') := passes run (pos, w) in
  pos ≤ pos' ∧ ∃ new, w_sent w' = w_sent w ++ new ∧ ∀ d n, n ∈ sent_to d new → pos < n.
Proof using sh_u16.
  intros Hrun. revert pos w.
  induction Hrun as [|[rooms net] run Hs Hrun IH]; intros pos w Hpos; cbn [passes foldl fst snd].
  { split; [done|]. exists []. rewrite app_nil_r. split; [done|]. by intros d n ?%elem_of_nil. }
  destruct (timeline rooms pos SCAN_BATCH) as [page|] eqn:Hb.
  2: { unfold deliver_pdus at 2. rewrite Hb. by apply IH. }
  pose proof (pass_spec rooms net pos w page Hpos Hb) as H.
  destruct (deliver_pdus _ _ _ _ _ pos w) as [pos1 w1]. destruct H as (Hle & new1 & Hw1 & Ho & Hmax).
  assert (pos1 + 1 < u64_modulus) as Hpos1.
  { destruct (list.last page) as [e|] eqn:He; [|lia]. apply last_Some_elem_of in He.
    specialize (Hs _ _ _ Hb He). lia. }
  specialize (IH pos1 w1 Hpos1). unfold passes in IH.
  destruct (foldl _ (pos1, w1) run) as [pos' w']. destruct IH as (Hpos' & new & Hw & Hs').
  split; [lia|]. exists (new1 ++ new). split; [by rewrite Hw, Hw1, app_assoc|].
  intros d n. rewrite sent_to_app. intros [Hn|Hn]%elem_of_app.
  - destruct (sent_on_page _ _ _ _ _ _ _ _ Ho Hn) as (e & He & <-).
    destruct (timeline_ascending _ _ _ _ Hpos Hb) as [_ HF]. by eapply list.Forall_forall in HF.
  - specialize (Hs' d n Hn). lia.
Qed.

(** A node that takes over delivery of a room shard starts from
    the least durable cursor, or from the tip when there is none.  A
    destination with a cursor therefore loses nothing: what it is owed lies
    above that floor.  But nothing at or below the floor is ever sent again,
    to anybody, whatever the passes after it meet, and a destination that has
    never acknowledged a transaction has no cursor to hold the floor back:
    what it was owed there is lost. *)
Theorem taking_over run tip w :
  let fed := w_fed w in
  let floor := initial_scan_pos fed sh tip in
  cursors_wf fed → Forall bounded run → floor + 1 < u64_modulus →
  (∀ d k n, known fed sh d = Some k → k < n → floor < n)
  ∧ ((∀ d, known fed sh d = None) ∧ floor = tip ∨ ∃ d, known fed sh d = Some floor)
  ∧ let '(_, w') := passes run (floor, w) in
    ∃ new, w_sent w' = w_sent w ++ new ∧ ∀ d n, n ≤ floor → n ∉ sent_to d new.
Proof using sh_u16.
  intros fed floor Hwf Hrun Hfloor. destruct (initial_scan_pos_spec fed tip Hwf) as [H1 H2].
  split_and!; [intros d k n Hk Hn; specialize (H1 d k Hk); unfold floor; lia|done|].
  pose proof (passes_above run floor w Hrun Hfloor) as H.
  destruct (passes run (floor, w)) as [pos' w']. destruct H as (_ & new & Hw & Hs).
  exists new. split; [done|]. intros d n Hn Hin. specialize (Hs d n Hin). lia.
Qed.
End Passes.
End Spec.

(** ** Witnesses *)

From S2P Require Import Demo RoomDemo AuthDemo FedOutDemo.

#[local] Existing Instance fed_serde.

Definition page_of (rooms : ReadCtx) (pos : N) : list (N * SeqEntry) :=
  match timeline rooms pos SCAN_BATCH with Ok page => page | Err _ => [] end.

Lemma pass_loses_nothing_witness :
  let w := fed_worker fed_end in
  let '(pos', w') := deliver_pdus log_one "h" (fed_rooms 9) only_a 0 0 w in
  0 ≤ pos' ∧ ∃ new, w_sent w' = w_sent w ++ new ∧ ∀ d, ∃ held,
    due_now "h" 0 (fed_rooms 9) (w_fed w) d (page_of (fed_rooms 9) 0) = sent_to d new ++ held
    ∧ Forall (λ n, pos' < n) held.
Proof.
  apply (pass_loses_nothing (FC := demo_fed_codecs) log_one "h" 0 (fed_rooms 9) only_a 0
    (fed_worker fed_end) (page_of (fed_rooms 9) 0)); vm_compute; reflexivity.
Defined.

Lemma only_a_not_c : ¬ accepts only_a "c".
Proof. intros [path Hp]. by vm_compute in Hp. Qed.

Lemma one_peer_starves_all_witness :
  let page := page_of (fed_rooms 300) 0 in
  let '(pos', w') := passes log_one "h" 0 [(fed_rooms 300, only_a); (fed_rooms 300, only_a)]
    (0, fed_worker fed_end) in
  pos' < 1 ∧ ∃ new, w_sent w' = [] ++ new
    ∧ ∀ d n, n ∈ sent_to d new → ∃ e, e ∈ (1, SeqEvent "!r" "$m") :: tail page ∧ n ≤ e.1.
Proof.
  assert (starving "h" "c" 1 "!r" "$m" (tail (page_of (fed_rooms 300) 0)) (fed_rooms 300, only_a)) as Hs.
  { split; [|split].
    - vm_compute. reflexivity.
    - vm_compute. eexists. reflexivity.
    - exact only_a_not_c. }
  apply (one_peer_starves_all (FC := demo_fed_codecs) log_one "h" 0 eq_refl "c" 1 "!r" "$m"
    (tail (page_of (fed_rooms 300) 0)) [(fed_rooms 300, only_a); (fed_rooms 300, only_a)] 0
    (fed_worker fed_end)).
  - vm_compute. reflexivity.
  - reflexivity.
  - reflexivity.
  - vm_compute. reflexivity.
  - constructor; [exact Hs|]. constructor; [exact Hs|constructor].
Defined.

Lemma fed_end_wf : cursors_wf fed_end.
Proof.
  intros k v Hk.
  assert ((k, v) ∈ rows FED_OUT_SHARD T_PDU_CURSOR EmptyString EmptyString fed_end) as Hin.
  { apply elem_of_rows; [reflexivity|]. split; [exact Hk|]. split; [apply sleb_nil|reflexivity]. }
  clear Hk. assert (rows FED_OUT_SHARD T_PDU_CURSOR EmptyString EmptyString fed_end =
    [(cursor_key 0 "a", enc 7)]) as Hr by (vm_compute; reflexivity).
  rewrite Hr in Hin. clear Hr. apply list_elem_of_singleton, pair_equal_spec in Hin as [Hk Hv].
  rewrite Hk, Hv. split; [exists 0, "a"%string; by split|]. rewrite dec_enc. by eexists.
Qed.

Lemma bounded_rows s :
  Forall (λ kv, default 0 (from_be64 kv.1) + 1 < u64_modulus)
    (rows (r_shard s.1) T_SEQ EmptyString EmptyString (r_engine s.1)) → bounded s.
Proof.
  intros HF pos page e Hp (v & Hv & Hlt & Hin)%(row_in_page _ _ _ _ _ Hp).
  apply elem_of_take in Hin as (i & Hi & _). apply list_elem_of_lookup_2, elem_of_rows in Hi as (Hi & _); [|done].
  rewrite list.Forall_forall in HF. specialize (HF (be64 e.1, v)). cbn [fst] in HF.
  rewrite from_be64_be64 in HF by done. apply HF, elem_of_rows; [done|]. by rewrite sleb_nil.
Qed.

Lemma taking_over_witness :
  initial_scan_pos fed_end 0 9 = 7 ∧
  let '(_, w') := passes log_one "h" 0 [(fed_rooms 9, only_a)] (7, fed_worker fed_end) in
  ∃ new, w_sent w' = [] ++ new ∧ ∀ d n, n ≤ 7 → n ∉ sent_to d new.
Proof.
  split; [vm_compute; reflexivity|].
  assert (Forall bounded [(fed_rooms 9, only_a)]) as Hb.
  { constructor; [|constructor]. apply bounded_rows. apply (bool_decide_unpack _). vm_compute. exact I. }
  assert (initial_scan_pos fed_end 0 9 = 7) as He by (vm_compute; reflexivity).
  pose proof (taking_over (FC := demo_fed_codecs) log_one "h" 0 eq_refl [(fed_rooms 9, only_a)] 9
    (fed_worker fed_end) fed_end_wf Hb) as H.
  change (w_fed (fed_worker fed_end)) with fed_end in H. rewrite He in H.
  exact (proj2 (proj2 (H eq_refl))).
Defined.
