(* ===== verification/RoomServe.v ===== *)
(** * What the room server answers (saltator-roomserver/src/lib.rs)

    The reads behind federation and client endpoints: walks over the event
    graph, history visibility, server ACLs, the decision on restricted joins;
    the membership handshakes; and the imports, which assemble the commands
    that [RoomMachine] applies. *)

From Stdlib Require Import Ascii.
From S2P Require Import Prelude Bytes Store Codec Json Shard RoomTypes RoomMachine RoomRead.
From S2P Require Import CoreEvent PowerLevels Auth Acl Order StateRes Pdu Pipeline Delivery.
From stdpp Require Import options.

Local Open Scope N_scope.

Inductive RestrictedAuth : Type :=
  | NotNeeded
  | Authorised (user : string)
  | FailsConditions
  | CannotValidateJoin
  | CannotGrantJoin.

Definition KNOCK_STATE_TYPES : list string :=
  ["m.room.create"; "m.room.join_rules"; "m.room.canonical_alias"; "m.room.name";
   "m.room.avatar"; "m.room.topic"; "m.room.encryption"]%string.

(** [obj.get("content")..as_object()..get(key)..as_str()] *)
Definition content_str (obj : json_object) (key : string) : option string :=
  c ← obj_prop obj "content"; str_prop c key.

(** [.as_integer().and_then(|i| u64::try_from(i).ok()).unwrap_or(0)] *)
Definition uint_or_zero (obj : json_object) (key : string) : N :=
  match obj_get key obj with
  | Some (JInteger z) => if (z <? 0)%Z then 0 else Z.to_N z
  | _ => 0
  end.

(** [serde_json::Value]'s [as_u64] *)
Definition vu64 `{SJ : SerdeJson} (v : jvalue jnum) : option N :=
  match v with VNum n => jnum_u64 n | _ => None end.

Section Serve.
Context `{RC : RoomCodecs, JT : JsonText, SJ : SerdeJson, RU : Ruma, EC : EventCrypto}.

Section Reads.
Context (store : ReadCtx).

(** [resolve_group], as everywhere: the parent walk needs no more steps than
    the group's number. *)
Definition room_state (room_id : string) (group : N) : result RoomError StateIds :=
  storage_err (default (Err (Engine "state group chain"))
    (resolve_group store (S (N.to_nat group)) room_id group)).

Definition current_state_of (room_id : string) (m : RoomMeta) : result RoomError StateIds :=
  room_state room_id (rm_current_group m).

Definition known_room (room_id : string) : result RoomError RoomMeta :=
  let? o := storage_err (meta store room_id) in ok_or o (UnknownRoom room_id).

Definition room_extremities (room_id : string) : result RoomError (list string) :=
  let? o := storage_err (meta store room_id) in Ok (default [] (rm_extremities <$> o)).

Definition history_frontier (room_id : string) : result RoomError (list string) :=
  let? o := storage_err (meta store room_id) in Ok (default [] (rm_history_frontier <$> o)).

Definition state_event_content (state : StateIds) (ty sk : string) :
    result RoomError (option json_object) :=
  match state !! (ty, sk) with
  | None => Ok None
  | Some id => load_raw store id
  end.

Definition membership_in (state : StateIds) (user : string) : result RoomError string :=
  let? o := state_event_content state "m.room.member" user in
  Ok (default "leave"%string (obj ← o; content_str obj "membership")).

(** ** The auth chain *)

Definition ChainState : Type := gset string * list string * list (string * json_object).

(** One turn of [collect_auth_chain]; the stack's top is the list's head. *)
Definition chain_step (s : ChainState) :
    ChainState + result RoomError (list (string * json_object)) :=
  let '(seen, queue, chain) := s in
  match queue with
  | [] => inr (Ok chain)
  | id :: queue =>
      if bool_decide (id ∈ seen) then inl (seen, queue, chain)
      else
        let seen := {[id]} ∪ seen in
        match load_raw store id with
        | Err x => inr (Err x)
        | Ok None => inl (seen, queue, chain)
        | Ok (Some obj) =>
            inl (seen, rev (filter (λ a, a ∉ seen) (auth_event_ids obj)) ++ queue,
                 chain ++ [(id, obj)])
        end
  end.

(** With the ids that the stored objects were found under. *)
Definition collect_auth_chain (fuel : nat) (seed : gset string) :
    option (result RoomError (list (string * json_object))) :=
  loop chain_step fuel (∅, rev (btree seed), []).

Definition event_auth_chain (fuel : nat) (event_id : string) :
    option (result RoomError (option (list json_object))) :=
  match load_raw store event_id with
  | Err x => Some (Err x)
  | Ok None => Some (Ok None)
  | Ok (Some obj) =>
      r ← collect_auth_chain fuel (list_to_set (auth_event_ids obj));
      Some (let? chain := r in Ok (Some chain.*2))
  end.

(** ** Walking back *)

(** An event that a peer may be given. *)
Definition serveable (id : string) : result RoomError (option StoredEvent) :=
  let? o := storage_err (event store id) in
  Ok (match o with
      | Some ev => if is_some (se_rejected ev) then None else Some ev
      | None => None
      end).

Definition depth_cmp : N * string → N * string → comparison :=
  cmp_lex (cmp_on fst N.compare) (cmp_on snd String.compare).

(** [frontier.iter().next_back()] *)
Definition deepest (frontier : gset (N * string)) : option (N * string) :=
  list.last (sort_by depth_cmp (elements frontier)).

(** The ids of a list that join the frontier. *)
Definition widen (seen : gset string) (frontier : gset (N * string)) (ids : list string) :
    result RoomError (gset (N * string)) :=
  try_fold (λ (frontier : gset (N * string)) id,
    if bool_decide (id ∈ seen) then Ok frontier
    else
      let? o := serveable id in
      Ok (match o with Some ev => {[(se_depth ev, id)]} ∪ frontier | None => frontier end))
    frontier ids.

Definition WalkState : Type := gset string * gset (N * string) * list (string * json_object).

(** One turn of [walk_back]. *)
Definition walk_step (limit : nat) (min_depth : N) (s : WalkState) :
    WalkState + result RoomError (list (string * json_object)) :=
  let '(seen, frontier, out) := s in
  if bool_decide (limit ≤ length out)%nat then inr (Ok out)
  else
    match deepest frontier with
    | None => inr (Ok out)
    | Some (depth, id) =>
        let frontier := frontier ∖ {[(depth, id)]} in
        if bool_decide (id ∈ seen) then inl (seen, frontier, out)
        else
          let seen := {[id]} ∪ seen in
          match storage_err (event store id) with
          | Err x => inr (Err x)
          | Ok None => inl (seen, frontier, out)
          | Ok (Some stored) =>
              if is_some (se_rejected stored) || (se_depth stored <? min_depth)
              then inl (seen, frontier, out)
              else
                match ok_or (json_parse (se_raw stored)) CodecFailed with
                | Ok (JObject raw) =>
                    match widen seen frontier (prev_event_ids raw) with
                    | Ok frontier => inl (seen, frontier, out ++ [(id, raw)])
                    | Err x => inr (Err x)
                    end
                | _ => inr (Err CodecFailed)
                end
          end
    end.

Definition walk_back (fuel : nat) (seed : list string) (stop : gset string) (limit : nat)
    (min_depth : N) : option (result RoomError (list (string * json_object))) :=
  match widen stop ∅ seed with
  | Err x => Some (Err x)
  | Ok frontier => loop (walk_step limit min_depth) fuel (stop, frontier, [])
  end.

Definition backfill (fuel : nat) (start : list string) (limit : nat) :
    option (result RoomError (list json_object)) :=
  r ← walk_back fuel start ∅ limit 0; Some (let? out := r in Ok out.*2).

(** The parents of the latest events. *)
Definition latest_parents (latest : list string) : result RoomError (list string) :=
  try_fold (λ seed id,
    let? o := load_raw store id in
    Ok (match o with Some raw => seed ++ prev_event_ids raw | None => seed end)) [] latest.

Definition get_missing_events (fuel : nat) (earliest latest : list string) (limit : nat)
    (min_depth : N) : option (result RoomError (list json_object)) :=
  match latest_parents latest with
  | Err x => Some (Err x)
  | Ok seed =>
      r ← walk_back fuel seed (list_to_set (earliest ++ latest)) limit min_depth;
      Some (let? out := r in Ok (rev out.*2))
  end.

(** ** The event closest to a time *)

(** A position across history and timeline: history lies below, and its
    indexes grow older. *)
Definition Position : Type := N * N.

Definition pos_cmp : N * Position → N * Position → comparison :=
  cmp_lex (cmp_on fst N.compare)
    (cmp_lex (cmp_on (λ x, x.2.1) N.compare) (cmp_on (λ x, x.2.2) N.compare)).

Definition origin_ts (stored : StoredEvent) : option N :=
  raw ← from_slice (se_raw stored); t ← vget "origin_server_ts" raw; vu64 t.

(** The candidate's update of [best]. *)
Definition closer (ts : N) (backward : bool) (best : option (N * Position * string))
    (pos : Position) (id : string) (ots : N) : option (N * Position * string) :=
  if negb (if backward then ots <=? ts else ts <=? ots) then best
  else
    let better :=
      match best with
      | None => true
      | Some (bts, bpos, _) =>
          match pos_cmp (ots, pos) (bts, bpos) with
          | Gt => backward
          | Lt => negb backward
          | Eq => false
          end
      end in
    if better then Some (ots, pos, id) else best.

Definition candidates (room_id : string) (include_history : bool) :
    result RoomError (list (Position * string)) :=
  let? timeline := storage_err (room_timeline store room_id 0 None usize_max false) in
  let? history := if include_history
                  then storage_err (room_history store room_id 0 None usize_max false) else Ok [] in
  Ok (((λ e, ((1, e.1), e.2)) <$> timeline) ++ ((λ e, ((0, u64_max - e.1), e.2)) <$> history)).

Definition timestamp_to_event (room_id : string) (ts : N) (backward include_history : bool) :
    result RoomError (option (string * N)) :=
  let? cs := candidates room_id include_history in
  let? best := try_fold (λ best '(pos, id),
    let? o := storage_err (event store id) in
    Ok (match stored ← o; origin_ts stored with
        | Some ots => closer ts backward best pos id ots
        | None => best
        end)) None cs in
  Ok ((λ b, (b.2, b.1.1)) <$> best).

(** ** Which servers are in a room *)

Definition server_in_room (room_id server : string) : result RoomError bool :=
  let? servers := storage_err (remote_servers_in_room store room_id EmptyString) in
  Ok (bool_decide (server ∈ servers)).

(** [for ((ty, sk), id) in &state]: the first entry that answers. *)
Fixpoint first_member {A} (f : string → string → result RoomError (option A))
    (keys : list Key) (state : StateIds) : result RoomError (option A) :=
  match keys with
  | [] => Ok None
  | (ty, sk) :: keys =>
      if bool_decide (ty = "m.room.member"%string) then
        match state !! (ty, sk) with
        | Some id =>
            let? a := f sk id in
            match a with Some a => Ok (Some a) | None => first_member f keys state end
        | None => first_member f keys state
        end
      else first_member f keys state
  end.

Definition members_of (state : StateIds) : list Key := sorted_keys (dom state).

Definition server_invited_to_room (room_id server : string) : result RoomError bool :=
  let? o := storage_err (meta store room_id) in
  match o with
  | None => Ok false
  | Some m =>
      let? state := current_state_of room_id m in
      let? found := first_member (λ sk id,
        if negb (ends_with (":" +:+ server) sk) then Ok None
        else
          let? o := storage_err (event store id) in
          match o with
          | None => Ok None
          | Some stored =>
              let? raw := ok_or (from_slice (se_raw stored)) CodecFailed in
              Ok (if bool_decide (membership_of raw = Some "invite"%string) then Some () else None)
          end) (members_of state) state in
      Ok (is_some found)
  end.

(** ** History visibility *)

(** The memberships that let a server see an event; [None] is everybody. *)
Definition required_membership (vis : string) : option (list string) :=
  if bool_decide (vis = "joined"%string) then Some ["join"%string]
  else if bool_decide (vis = "invited"%string) then Some ["join"; "invite"]%string
  else None.

(** [self.load_raw(..).await.ok().flatten()]: an unreadable event counts as
    none. *)
Definition visibility_of (state : StateIds) : string :=
  default "shared"%string
    (id ← state !! ("m.room.history_visibility"%string, EmptyString);
     obj ← match load_raw store id with Ok o => o | Err _ => None end;
     content_str obj "history_visibility").

(** Has [server] a user with one of the memberships? *)
Definition server_has (state : StateIds) (server : string) (required : list string) :
    result RoomError bool :=
  let? found := first_member (λ sk id,
    if negb (user_id_ok sk) then Ok None
    else if bool_decide (user_server sk ≠ server) then Ok None
    else
      let? o := load_raw store id in
      Ok (match obj ← o; content_str obj "membership" with
          | Some m => if bool_decide (m ∈ required) then Some () else None
          | None => None
          end)) (members_of state) state in
  Ok (is_some found).

Definition visible_to (room_id server : string) (raw : json_object) : result RoomError bool :=
  match pdu_event_id store raw with
  | None => Ok true
  | Some id =>
      let? o := storage_err (event store id) in
      match o with
      | None => Ok true
      | Some stored =>
          if se_state_group_after stored =? 0 then Ok true
          else
            let? state := room_state room_id (se_state_group_after stored) in
            match required_membership (visibility_of state) with
            | None => Ok true
            | Some required => server_has state server required
            end
      end
  end.

Definition filter_events_for_server (room_id server : string) (events : list json_object) :
    result RoomError (list json_object) :=
  let? o := storage_err (meta store room_id) in
  match o with
  | None => Ok events
  | Some m =>
      let? v := ok_or (CoreEvent.parse (rm_version m)) Version in
      try_fold (λ out raw,
        let? visible := visible_to room_id server raw in
        let? raw := if (visible : bool) then Ok raw
                    else match redact raw v with Ok raw => Ok raw | Err _ => Err Malformed end in
        Ok (out ++ [raw])) [] events
  end.

(** ** Server ACLs *)

Definition server_acl (room_id : string) : result RoomError (option ServerAcl) :=
  let? o := storage_err (meta store room_id) in
  match o with
  | None => Ok None
  | Some m =>
      let? current := current_state_of room_id m in
      match current !! ("m.room.server_acl"%string, EmptyString) with
      | None => Ok None
      | Some id =>
          let? o := load_raw store id in
          Ok (raw ← o; from_content <$> obj_prop raw "content")
      end
  end.

(** An unknown room, a room without an ACL and an unreadable one deny nobody. *)
Definition server_acl_denies (room_id server : string) : bool :=
  match server_acl room_id with
  | Ok (Some acl) => negb (is_allowed acl server)
  | _ => false
  end.
End Reads.
End Serve.
