(* ===== verification/RoomJoin.v ===== *)
(** * Joining and importing rooms (saltator-roomserver/src/lib.rs)

    The decision on restricted joins and the membership templates; the
    handshakes a resident serves; the imports of a joined room, of backfilled
    history and of a segment past a gap, from raw events to the command; and
    the state before an event, as federation asks for it. *)

From Stdlib Require Import Ascii.
From S2P Require Import Prelude Bytes Store Codec Json Shard RoomTypes RoomMachine RoomRead.
From S2P Require Import CoreEvent PowerLevels Auth Acl Order StateRes Pdu Pipeline Delivery RoomServe.
From stdpp Require Import options.

Local Open Scope N_scope.

Record SendJoinResult : Type := {
  sj_event : json_object; sj_state : list json_object; sj_auth_chain : list json_object }.

Section Join.
Context `{RC : RoomCodecs, JT : JsonText, SJ : SerdeJson, RU : Ruma, EC : EventCrypto}.

(** [IdentifiedPdu::from_canonical] *)
Definition identified (raw : json_object) (v : RoomVersion) : option IdentifiedPdu :=
  id ← reference_event_id raw v; pdu ← pdu_from_canonical raw;
  Some {| ip_event_id := id; ip_pdu := pdu |}.

(** [OwnedUserId::try_from(sk)], on [our_name]'s server. *)
Definition local_user (our_name sk : string) : bool :=
  user_id_ok sk && bool_decide (user_server sk = our_name).

(** ** Restricted joins *)

Section Restricted.
Context (store : ReadCtx) (peers : string → ReadCtx) (our_name : string).

(** Is one of our users joined to the room of this state? *)
Definition participating (allow_store : ReadCtx) (s2 : StateIds) : result RoomError bool :=
  let? found := first_member (λ sk _,
    if local_user our_name sk then
      let? m := membership_in allow_store s2 sk in
      Ok (if bool_decide (m = "join"%string) then Some () else None)
    else Ok None) (members_of s2) s2 in
  Ok (is_some found).

Inductive Condition : Type := Met | Unmet | Uncheckable.

(** One [m.room_membership] entry of [allow]. *)
Definition check_condition (allowed_room joiner : string) : result RoomError Condition :=
  let allow_store := peers allowed_room in
  let? o := storage_err (meta allow_store allowed_room) in
  match o with
  | None => Ok Uncheckable
  | Some m2 =>
      let? s2 := current_state_of allow_store allowed_room m2 in
      let? here := participating allow_store s2 in
      if negb here then Ok Uncheckable
      else
        let? m := membership_in allow_store s2 joiner in
        Ok (if bool_decide (m = "join"%string) then Met else Unmet)
  end.

(** The room that an entry names. *)
Definition allowed_room (entry : json) : option string :=
  o ← as_obj entry;
  if is_str "m.room_membership" (str_prop o "type") then str_prop o "room_id" else None.

(** The loop over [allow]: [condition_met] and [uncheckable]. *)
Fixpoint check_allow (entries : list json) (joiner : string) (uncheckable : bool) :
    result RoomError (bool * bool) :=
  match entries with
  | [] => Ok (false, uncheckable)
  | entry :: entries =>
      match allowed_room entry with
      | None => check_allow entries joiner uncheckable
      | Some room =>
          let? c := check_condition room joiner in
          match c with
          | Met => Ok (true, uncheckable)
          | Unmet => check_allow entries joiner uncheckable
          | Uncheckable => check_allow entries joiner true
          end
      end
  end.

(** The loop over the members, best candidate so far. *)
Fixpoint best_local (keys : list Key) (state : StateIds) (power : RoomPowerLevels)
    (best : option (string * PowerLevel)) : result RoomError (option (string * PowerLevel)) :=
  match keys with
  | [] => Ok best
  | (ty, sk) :: keys =>
      if bool_decide (ty = "m.room.member"%string) && local_user our_name sk then
        let? m := membership_in store state sk in
        if bool_decide (m = "join"%string) then
          let level := user_level power sk in
          let better := match best with Some (_, b) => power_lt b level | None => true end in
          best_local keys state power
            (if satisfies level (invite power) && better then Some (sk, level) else best)
        else best_local keys state power best
      else best_local keys state power best
  end.

Definition power_of (v : RoomVersion) (state : StateIds) : result RoomError RoomPowerLevels :=
  let? o := state_event_content store state "m.room.create" "" in
  let? create_raw := ok_or o Malformed in
  let? create := ok_or (identified create_raw v) Malformed in
  let? o := state_event_content store state "m.room.power_levels" "" in
  let? pl := match o with
             | None => Ok None
             | Some raw => let? p := ok_or (identified raw v) Malformed in Ok (Some (as_event p))
             end in
  match resolve_levels v (as_event create) pl with Ok p => Ok p | Err _ => Err Malformed end.

Definition restricted_rule (rule : string) : bool :=
  bool_decide (rule = "restricted"%string) || bool_decide (rule = "knock_restricted"%string).

Definition restricted_join_authoriser (room_id joiner : string) : result RoomError RestrictedAuth :=
  let? o := storage_err (meta store room_id) in
  match o with
  | None => Ok NotNeeded
  | Some m =>
      let? v := ok_or (CoreEvent.parse (rm_version m)) Version in
      let? state := current_state_of store room_id m in
      let? join_rules := state_event_content store state "m.room.join_rules" "" in
      let jr_content := ev ← join_rules; obj_prop ev "content" in
      let join_rule := default "invite"%string (c ← jr_content; str_prop c "join_rule") in
      if negb (restricted_rule join_rule) then Ok NotNeeded
      else
        let? membership := membership_in store state joiner in
        if bool_decide (membership = "join"%string) || bool_decide (membership = "invite"%string)
        then Ok NotNeeded
        else
          match c ← jr_content; obj_get "allow" c with
          | Some (JArray entries) =>
              let? (condition_met, uncheckable) := check_allow entries joiner false in
              if negb condition_met
              then Ok (if uncheckable then CannotValidateJoin else FailsConditions)
              else
                let? power := power_of v state in
                let? best := best_local (members_of state) state power None in
                Ok (match best with Some (u, _) => Authorised u | None => CannotGrantJoin end)
          | _ => Ok FailsConditions
          end
  end.

(** ** Templates *)

Context (now : N).

Definition make_membership_template (room_id user_id membership : string)
    (authoriser : option string) : result RoomError (RoomVersion * json_object) :=
  let? m := known_room store room_id in
  let? v := ok_or (CoreEvent.parse (rm_version m)) Version in
  let? current := current_state_of store room_id m in
  let? depth := tip_depth store (rm_extremities m) in
  let content :=
    object_of ([("membership"%string, JString membership)]
      ++ match authoriser with
         | Some u => [("join_authorised_via_users_server"%string, JString u)]
         | None => []
         end) in
  let auth_types := auth_types_for_event v "m.room.member" user_id (Some user_id) content in
  let auth_events := omap (λ k, current !! k) (sorted_keys auth_types) in
  let? ts := uint_json now in
  let? depth := uint_json (add64 depth 1) in
  Ok (v, object_of
    [("room_id", JString room_id); ("sender", JString user_id); ("state_key", JString user_id);
     ("origin_server_ts", ts); ("type", JString "m.room.member"); ("content", JObject content);
     ("auth_events", strings auth_events); ("prev_events", strings (rm_extremities m));
     ("depth", depth)]%string).

Definition make_join_template (room_id user_id : string) : result RoomError (RoomVersion * json_object) :=
  let? a := restricted_join_authoriser room_id user_id in
  let? authoriser := match a with
    | NotNeeded => Ok None
    | Authorised u => Ok (Some u)
    | FailsConditions => Err (CannotAuthoriseJoin Forbidden)
    | CannotValidateJoin => Err (CannotAuthoriseJoin CannotValidate)
    | CannotGrantJoin => Err (CannotAuthoriseJoin CannotGrant)
    end in
  make_membership_template room_id user_id "join" authoriser.

Definition make_leave_template (room_id user_id : string) :=
  make_membership_template room_id user_id "leave" None.

Definition make_knock_template (room_id user_id : string) :=
  make_membership_template room_id user_id "knock" None.
End Restricted.

(** ** The state before an event *)

Section Before.
Context (store : ReadCtx).

(** [raw.get(key).and_then(|v| v.as_str())] of a [serde_json::Value] *)
Definition vprop (key : string) (raw : jvalue jnum) : option string := v ← vget key raw; vstr v.

Definition vstrings (key : string) (raw : jvalue jnum) : list string :=
  match vget key raw with Some (VArr l) => omap vstr l | _ => [] end.

(** The auth event that holds the same state entry. *)
Fixpoint superseded (auth_ids : list string) (ty sk : string) : result RoomError (option string) :=
  match auth_ids with
  | [] => Ok None
  | id :: auth_ids =>
      let? o := load_raw store id in
      match o with
      | Some ae =>
          if is_str ty (str_prop ae "type") && is_str sk (str_prop ae "state_key")
          then Ok (Some id) else superseded auth_ids ty sk
      | None => superseded auth_ids ty sk
      end
  end.

(** [state_group_after] includes a state event itself: back it out. *)
Definition back_out (raw : jvalue jnum) (state : StateIds) : result RoomError StateIds :=
  match vprop "type" raw, vprop "state_key" raw with
  | Some ty, Some sk =>
      let? o := superseded (vstrings "auth_events" raw) ty sk in
      Ok (match o with Some id => <[(ty, sk) := id]> state | None => delete (ty, sk) state end)
  | _, _ => Ok state
  end.

(** The pairs of the state, and the seed of its auth chain. *)
Definition load_all (ids : list string) :
    result RoomError (list (string * json_object) * gset string) :=
  try_fold (λ '(pdus, seed) id,
    let? o := load_raw store id in
    Ok (match o with
        | Some obj => (pdus ++ [(id, obj)], list_to_set (auth_event_ids obj) ∪ seed)
        | None => (pdus, seed)
        end)) ([], ∅) ids.

Definition state_ids_before (room_id event_id : string) : result RoomError (option StateIds) :=
  let? o := storage_err (event store event_id) in
  match o with
  | None => Ok None
  | Some stored =>
      if se_state_group_after stored =? 0 then Ok None
      else
        let? raw := ok_or (from_slice (se_raw stored)) CodecFailed in
        if bool_decide (vprop "room_id" raw ≠ Some room_id) then Ok None
        else
          let? state := room_state store room_id (se_state_group_after stored) in
          let? state := back_out raw state in
          Ok (Some state)
  end.

Definition state_before_event (fuel : nat) (room_id event_id : string) :
    option (result RoomError (option (list (string * json_object) * list (string * json_object)))) :=
  match state_ids_before room_id event_id with
  | Err x => Some (Err x)
  | Ok None => Some (Ok None)
  | Ok (Some state) =>
      match load_all (state_values state) with
      | Err x => Some (Err x)
      | Ok (pdus, seed) =>
          r ← collect_auth_chain store fuel seed;
          Some (let? chain := r in
                Ok (Some (pdus, omap (λ obj, id ← pdu_event_id store obj; Some (id, obj)) chain.*2)))
      end
  end.

(** The content and sender of the entry that an event replaced. *)
Fixpoint prev_content_in (auth_ids : list string) (ty sk : string) :
    result RoomError (option (jvalue jnum * string)) :=
  match auth_ids with
  | [] => Ok None
  | id :: auth_ids =>
      let? o := storage_err (event store id) in
      match o with
      | None => prev_content_in auth_ids ty sk
      | Some ae =>
          let? aev := ok_or (from_slice (se_raw ae)) CodecFailed in
          if bool_decide (vprop "type" aev = Some ty) && bool_decide (vprop "state_key" aev = Some sk)
          then Ok (Some (default VNull (vget "content" aev), default EmptyString (vprop "sender" aev)))
          else prev_content_in auth_ids ty sk
      end
  end.

Definition prev_state_content (event_id : string) :
    result RoomError (option (jvalue jnum * string)) :=
  let? o := storage_err (event store event_id) in
  match o with
  | None => Ok None
  | Some stored =>
      let? raw := ok_or (from_slice (se_raw stored)) CodecFailed in
      match vprop "type" raw, vprop "state_key" raw with
      | Some ty, Some sk => prev_content_in (vstrings "auth_events" raw) ty sk
      | _, _ => Ok None
      end
  end.
End Before.

(** ** Imports: the commands *)

Definition import_event (v : RoomVersion) (obj : json_object) : result RoomError ImportEvent :=
  let? id := ok_or (reference_event_id obj v) Format in
  let? raw := raw_bytes obj in
  Ok {| ie_event_id := id; ie_raw := raw; ie_depth := uint_or_zero obj "depth" |}.

(** A state event's key. *)
Definition state_entry_of (obj : json_object) : option Key :=
  ty ← str_prop obj "type"; sk ← str_prop obj "state_key"; Some (ty, sk).

Definition put_entry (obj : json_object) (id : string) (m : StateIds) : StateIds :=
  match state_entry_of obj with Some k => <[k := id]> m | None => m end.

(** The loop over the auth chain and the state of a [send_join] answer. *)
Definition gather (v : RoomVersion) (objs : list json_object) :
    result RoomError (list ImportEvent * gset string * StateIds) :=
  try_fold (λ '(events, seen, state_map) obj,
    let? id := ok_or (reference_event_id obj v) Format in
    let? (events, seen) :=
      if bool_decide (id ∈ seen) then Ok (events, seen)
      else let? ev := import_event v obj in Ok (events ++ [ev], {[id]} ∪ seen) in
    Ok (events, seen, put_entry obj id state_map)) ([], ∅, ∅) objs.

Definition import_command (v : RoomVersion) (join : json_object)
    (state auth_chain : list json_object) : result RoomError ImportRoom :=
  let? join_id := ok_or (reference_event_id join v) Format in
  let? room_id := str_of join "room_id" in
  let? (events, seen, state_map) := gather v (auth_chain ++ state) in
  let? sender := str_of join "sender" in
  let state_map := <[("m.room.member"%string, sender) := join_id]> state_map in
  let? create_event_id := ok_or (state_map !! create_key) Malformed in
  let? join_raw := raw_bytes join in
  Ok {| ir_room_id := room_id; ir_version := version_str v; ir_create_event_id := create_event_id;
        ir_events := events; ir_join_event_id := join_id; ir_join_raw := join_raw;
        ir_join_depth := uint_or_zero join "depth"; ir_state := state_rows state_map;
        ir_history_frontier := filter (λ id, id ∉ seen) (prev_event_ids join) |}.

(** Newest first: by depth, time and id, downwards. *)
Definition history_cmp : N * N * string * ImportEvent → N * N * string * ImportEvent → comparison :=
  cmp_rev (cmp_lex (cmp_on (λ x, x.1.1.1) N.compare)
    (cmp_lex (cmp_on (λ x, x.1.1.2) N.compare) (cmp_on (λ x, x.1.2) String.compare))).

(** The loop over the backfilled events. *)
Definition gather_history (room_id : string) (v : RoomVersion) (pdus : list json_object) :
    result RoomError (list (N * N * string * ImportEvent)) :=
  let? (events, _) := try_fold (λ '(events, seen) obj,
    if match obj_get "room_id" obj with
       | Some (JString r) => bool_decide (r ≠ room_id)
       | _ => false
       end then Ok (events, seen)
    else
      match reference_event_id obj v with
      | None => Ok (events, seen)
      | Some id =>
          if bool_decide (id ∈ (seen : gset string)) then Ok (events, seen)
          else
            let? ev := import_event v obj in
            Ok (events ++ [(ie_depth ev, uint_or_zero obj "origin_server_ts", id, ev)], {[id]} ∪ seen)
      end) ([], ∅) pdus in
  Ok events.

Definition history_command (store : ReadCtx) (room_id : string) (pdus : list json_object) :
    result RoomError ImportHistory :=
  let? o := storage_err (meta store room_id) in
  let? m := ok_or o Malformed in
  let? v := ok_or (CoreEvent.parse (rm_version m)) Version in
  let? events := gather_history room_id v pdus in
  Ok {| ih_room_id := room_id; ih_events := snd <$> sort_by history_cmp events |}.

(** *** A segment past a gap *)

Section Segment.
Context (store : ReadCtx) (fetched_auth : gmap string (list string)).

Definition VerdictState : Type := list string * gset string * gmap string bool.

(** One turn of [resolvable]; the stack's top is the list's head. *)
Definition resolvable_step (seed : string) (s : VerdictState) :
    VerdictState + bool * gmap string bool :=
  let '(pending, visiting, verdict) := s in
  match pending with
  | [] => inr (true, set_fold (λ id m, <[id := true]> m) verdict visiting)
  | id :: pending =>
      if bool_decide (verdict !! id = Some false) then inr (false, <[seed := false]> verdict)
      else if is_some (verdict !! id) || bool_decide (id ∈ visiting)
      then inl (pending, visiting, verdict)
      else
        let visiting := {[id]} ∪ visiting in
        match fetched_auth !! id with
        | Some refs => inl (rev refs ++ pending, visiting, verdict)
        | None =>
            match event store id with
            | Ok (Some _) => inl (pending, visiting, <[id := true]> verdict)
            | _ => inr (false, <[seed := false]> (<[id := false]> verdict))
            end
        end
  end.

Definition resolvable (fuel : nat) (verdict : gmap string bool) (seed : string) :
    option (bool * gmap string bool) :=
  loop (resolvable_step seed) fuel ([seed], ∅, verdict).

(** The loop over the auth chain and the snapshot: only the snapshot's own
    entries define the state. *)
Fixpoint snapshot (fuel : nat) (v : RoomVersion) (objs : list (bool * json_object))
    (verdict : gmap string bool) (events : list ImportEvent) (seen : gset string)
    (state_map : StateIds) : option (list ImportEvent * StateIds) :=
  match objs with
  | [] => Some (events, state_map)
  | (is_state, obj) :: objs =>
      match import_event v obj with
      | Err _ => snapshot fuel v objs verdict events seen state_map
      | Ok ev =>
          '(ok, verdict) ← resolvable fuel verdict (ie_event_id ev);
          if negb ok then snapshot fuel v objs verdict events seen state_map
          else
            let state_map := if (is_state : bool) then put_entry obj (ie_event_id ev) state_map
                             else state_map in
            if bool_decide (ie_event_id ev ∈ seen)
            then snapshot fuel v objs verdict events seen state_map
            else snapshot fuel v objs verdict (events ++ [ev]) ({[ie_event_id ev]} ∪ seen) state_map
      end
  end.
End Segment.

Definition fetched_auth_of (v : RoomVersion) (objs : list json_object) : gmap string (list string) :=
  foldl (λ m obj, match reference_event_id obj v with
                  | Some id => <[id := auth_event_ids obj]> m
                  | None => m
                  end) ∅ objs.

Definition segment_timeline (v : RoomVersion) (chain : list json_object) : list ImportEvent :=
  omap (λ obj, match import_event v obj with Ok ev => Some ev | Err _ => None end) chain.

(** The parents of the oldest event, if it can be imported. *)
Definition segment_frontier (v : RoomVersion) (chain : list json_object) : list string :=
  match chain with
  | obj :: _ => match import_event v obj with Ok _ => prev_event_ids obj | Err _ => [] end
  | [] => []
  end.

Definition segment_command (fuel : nat) (store : ReadCtx) (room_id : string)
    (state auth_chain chain : list json_object) : option (result RoomError ImportSegment) :=
  match (let? o := storage_err (meta store room_id) in
         let? m := ok_or o Malformed in ok_or (CoreEvent.parse (rm_version m)) Version) with
  | Err x => Some (Err x)
  | Ok v =>
      let fetched := fetched_auth_of v (auth_chain ++ state ++ chain) in
      '(events, state_map) ← snapshot store fetched fuel v
        (((λ o, (false, o)) <$> auth_chain) ++ ((λ o, (true, o)) <$> state)) ∅ [] ∅ ∅;
      Some (Ok {| is_room_id := room_id; is_events := events; RoomTypes.is_state := state_rows state_map;
                  is_timeline := segment_timeline v chain;
                  is_frontier_add := segment_frontier v chain |})
  end.

(** ** On a hosted shard *)

Section Server.
Context `{HR : Raft}.
Context `{!Codec (option LogId), !Codec StoredMembership, !Codec N}.
Context `{!Codec RuntimeCommand, !Codec RuntimeResponse}.
Context (sid : ShardId) (next_id : engine → LogId) (fuel : nat) (keys : PublicKeyMap).
Context (hash_and_sign : RoomVersion → json_object → option json_object).

Abbreviation local e := {| r_shard := sid; r_engine := e |}.

(** [self.propose_cmd(&cmd).await?] and the match on the response. *)
Definition propose_for {A} (o : raft_outcome) (cmd : RoomCommand)
    (k : RoomResponse → result RoomError A) (e : engine) : result RoomError A * engine :=
  match propose_cmd sid next_id o cmd e with
  | (Ok r, e') => (k r, e')
  | (Err x, e') => (Err x, e')
  end.

Definition import_room (o : raft_outcome) (v : RoomVersion) (join : json_object)
    (state auth_chain : list json_object) (e : engine) : result RoomError Outcome * engine :=
  match import_command v join state auth_chain with
  | Err x => (Err x, e)
  | Ok cmd =>
      propose_for o (Import cmd) (λ r,
        match r with
        | RAccepted id seq => if event_id_ok id then Ok (Accepted id seq) else Err Malformed
        | RDuplicate id => if event_id_ok id then Ok (Duplicate id) else Err Malformed
        | _ => Err CodecFailed
        end) e
  end.

Definition import_history (o : raft_outcome) (room_id : string) (pdus : list json_object)
    (e : engine) : result RoomError (N * bool) * engine :=
  match history_command (local e) room_id pdus with
  | Err x => (Err x, e)
  | Ok cmd =>
      propose_for o (ImportHistoryCmd cmd) (λ r,
        match r with RHistory n c => Ok (n, c) | _ => Err CodecFailed end) e
  end.

Definition import_segment (o : raft_outcome) (room_id : string)
    (state auth_chain chain : list json_object) (e : engine) :
    option (result RoomError N * engine) :=
  r ← segment_command fuel (local e) room_id state auth_chain chain;
  Some (match r with
        | Err x => (Err x, e)
        | Ok cmd => propose_for o (ImportSegmentCmd cmd) (λ r,
            match r with RSegment n => Ok n | _ => Err CodecFailed end) e
        end).

Definition write_receipt (o : raft_outcome) (cmd : ReceiptCmd) (e : engine) :
    result RoomError N * engine :=
  propose_for o (Receipt cmd) (λ r, match r with RReceipt seq => Ok seq | _ => Err CodecFailed end) e.

(** [process] with [relay] set: a resident's membership handshake. *)
Definition relayed : Flags := {| f_relay := true; f_reject_missing_auth := false; f_txn := None |}.

Definition send_leave (o : raft_outcome) (raw : json_object) (e : engine) :
    result RoomError Outcome * engine :=
  match classify (local e) raw with
  | Err x => (Err x, e)
  | Ok (v, room_id, _) => process_inner sid next_id fuel keys o raw v room_id false relayed e
  end.

(** The state of the room and the auth chain behind it. *)
Definition join_answer (store : ReadCtx) (room_id : string) (signed : json_object) :
    option (result RoomError SendJoinResult) :=
  match (let? m := known_room store room_id in
         let? state := current_state_of store room_id m in
         load_all store (state_values state)) with
  | Err x => Some (Err x)
  | Ok (pdus, seed) =>
      r ← collect_auth_chain store fuel seed;
      Some (let? chain := r in
            Ok {| sj_event := signed; sj_state := pdus.*2; sj_auth_chain := chain.*2 |})
  end.

Definition send_join (o : raft_outcome) (raw : json_object) (e : engine) :
    option (result RoomError SendJoinResult * engine) :=
  match (let? (v, room_id, _) := classify (local e) raw in
         let? signed := ok_or (hash_and_sign v raw) Sign in Ok (v, room_id, signed)) with
  | Err x => Some (Err x, e)
  | Ok (v, room_id, signed) =>
      match process_inner sid next_id fuel keys o signed v room_id false relayed e with
      | (Err x, e') => Some (Err x, e')
      | (Ok (RejectedEvent _ _), e') => Some (Err Malformed, e')
      | (Ok _, e') => r ← join_answer (local e') room_id signed; Some (r, e')
      end
  end.

(** The keys that [stripped_state_event] keeps. *)
Definition stripped_keys (raw : json_object) : list string :=
  if is_str "m.room.create" (str_prop raw "type")
  then ["content"; "sender"; "state_key"; "type"; "origin_server_ts"; "auth_events"; "depth";
        "hashes"; "prev_events"; "signatures"]%string
  else ["content"; "sender"; "state_key"; "type"]%string.

Definition stripped_state_event (raw : json_object) : json_object :=
  object_of (omap (λ k, v ← obj_get k raw; Some (k, v)) (stripped_keys raw)).

Definition send_knock (o : raft_outcome) (raw : json_object) (e : engine) :
    result RoomError (list json_object) * engine :=
  match (let? (v, room_id, _) := classify (local e) raw in
         let? knocker := str_of raw "state_key" in Ok (v, room_id, knocker)) with
  | Err x => (Err x, e)
  | Ok (v, room_id, knocker) =>
      match process_inner sid next_id fuel keys o raw v room_id false relayed e with
      | (Err x, e') => (Err x, e')
      | (Ok (RejectedEvent _ _), e') => (Err Malformed, e')
      | (Ok _, e') =>
          (let? m := known_room (local e') room_id in
           let? state := current_state_of (local e') room_id m in
           try_fold (λ out key,
             match state !! key with
             | None => Ok out
             | Some id =>
                 let? o := load_raw (local e') id in
                 Ok (match o with Some obj => out ++ [stripped_state_event obj] | None => out end)
             end) []
             (((λ t, (t, EmptyString)) <$> KNOCK_STATE_TYPES) ++ [("m.room.member"%string, knocker)]),
           e')
      end
  end.

(** [build_invite]: signed, not applied. *)
Definition build_invite (now : N) (room_id sender target : string)
    (content : list (string * jvalue jnum)) (e : engine) : result RoomError (RoomVersion * json_object) :=
  let? (raw, v) := build_local hash_and_sign now (local e) room_id sender "m.room.member"
    (Some target) (VObj (obj_insert "membership" (VStr "invite") content)) None in
  Ok (v, raw).
End Server.
End Join.
