(* ===== verification/RoomServeDemo.v ===== *)
(** * Two rooms for the witnesses of the reads and the handshakes

    A restricted room that only its members may read back, and the room whose
    members it lets in; they live on different shards' stores. *)

From S2P Require Import Prelude Bytes Store Codec Json Shard RoomTypes RoomMachine RoomRead.
From S2P Require Import CoreEvent PowerLevels Auth StateRes Pdu Pipeline RoomServe RoomJoin Demo RoomDemo AuthDemo PipelineDemo.
From stdpp Require Import options.

Local Open Scope N_scope.

(** The same event in another room. *)
Definition moved (room : string) (o : json_object) : json_object :=
  (λ kv, if bool_decide (kv.1 = "room_id"%string) then ("room_id"%string, JString room) else kv) <$> o.
Definition p_restricted : json_object :=
  demo_pdu "jr" alice "m.room.join_rules" (Some EmptyString)
    [("allow", JArray [JObject [("room_id", JString "!s:a"); ("type", JString "m.room_membership")]]);
     ("join_rule", JString "restricted")]%string ["$c"; "$alice"]%string ["$alice"]%string 3.
Definition p_joined_only : json_object :=
  demo_pdu "vis" alice "m.room.history_visibility" (Some EmptyString)
    [("history_visibility", JString "joined")]%string ["$c"; "$alice"]%string ["$jr"]%string 4.
Definition p_talk : json_object :=
  demo_pdu "talk" alice "m.room.message" None [("body", JString "hi")]%string
    ["$c"; "$alice"]%string ["$vis"]%string 5.
Definition p_bob : json_object :=
  demo_pdu "bob" "@bob:b" "m.room.member" (Some "@bob:b"%string) [("membership", JString "join")]%string
    ["$c"; "$jr"]%string ["$jr"]%string 4.
Definition restricted_engine := run_pdus [p_create; p_alice; p_restricted; p_joined_only; p_talk] ∅.
Definition allowed_engine := run_pdus (moved "!s:a" <$> [p_create; p_alice; p_rules; p_bob]) ∅.
Definition ctx e := {| r_shard := demo_shard; r_engine := e |}.
Definition demo_peers (room : string) : ReadCtx :=
  if bool_decide (room = "!s:a"%string) then ctx allowed_engine else ctx restricted_engine.

(** [bob]'s join in the name of [alice]. *)
Definition p_vouched : json_object :=
  demo_pdu "vouched" "@bob:b" "m.room.member" (Some "@bob:b"%string)
    [("join_authorised_via_users_server", JString alice); ("membership", JString "join")]%string
    ["$c"; "$jr"; "$alice"]%string ["$talk"]%string 6.

Definition event_of (raw : json_object) : option Event :=
  pdu ← pdu_from_canonical raw; id ← reference_event_id raw V11;
  Some (as_event {| ip_event_id := id; ip_pdu := pdu |}).

(** The view of a state that holds every event that can be read. *)
Definition view_at (store : ReadCtx) (state : StateIds) : StateView := λ ty sk,
  id ← state !! (ty, sk); raw ← match load_raw store id with Ok o => o | Err _ => None end; event_of raw.

(** What the room is now. *)
Definition room_now (store : ReadCtx) : option (RoomMeta * StateIds * RoomPowerLevels) :=
  m ← match meta store demo_room with Ok o => o | Err _ => None end;
  s ← match current_state_of store demo_room m with Ok s => Some s | Err _ => None end;
  p ← match power_of store V11 s with Ok p => Some p | Err _ => None end;
  Some (m, s, p).

(** Every event of the state that can be read parses. *)
Definition all_parse (store : ReadCtx) (state : StateIds) : bool :=
  forallb (λ kv, match load_raw store kv.2 with
                 | Ok (Some raw) => is_some (event_of raw)
                 | _ => true
                 end) (map_to_list state).

Lemma room_now_spec store m s p :
  room_now store = Some (m, s, p) →
  meta store demo_room = Ok (Some m) ∧ current_state_of store demo_room m = Ok s ∧
  power_of store V11 s = Ok p.
Proof.
  unfold room_now. destruct (meta _ _) as [[m0|]|]; simpl; [|done..].
  destruct (current_state_of _ _ m0) as [s0|] eqn:Hs; simpl; [|done].
  destruct (power_of _ _ s0) as [p0|] eqn:Hp; simpl; [|done]. by intros [= <- <- <-].
Qed.

Lemma event_of_content raw ev : event_of raw = Some ev → obj_prop raw "content" = Some (content ev).
Proof.
  unfold event_of. rewrite bind_Some. intros (pdu & Hp & H). rewrite bind_Some in H.
  destruct H as (id & _ & [= <-]). cbn [as_event content ip_pdu]. unfold pdu_from_canonical in Hp.
  do 6 (rewrite bind_Some in Hp; destruct Hp as (? & ? & Hp)).
  do 6 (rewrite bind_Some in Hp; destruct Hp as (? & _ & Hp)).
  injection Hp as <-. cbn [pdu_content]. unfold required in *. unfold obj_prop.
  match goal with H : obj_get "content" raw ≫= _ = _ |- _ =>
    rewrite bind_Some in H; destruct H as (j & -> & Hj) end.
  destruct j; try discriminate Hj. by injection Hj as ->.
Qed.

(** The topic is set twice. *)
Definition p_topic2 : json_object :=
  demo_pdu "topic2" alice "m.room.topic" (Some EmptyString) [("topic", JString "u")]%string
    ["$c"; "$alice"]%string ["$topic"]%string 5.

Definition retopic_engine := run_pdus [p_create; p_alice; p_rules; p_topic; p_topic2] ∅.

(** Bob joins, leaves, and leaves again in the name of his join. *)
Definition p_bob_joins : json_object :=
  demo_pdu "bob" "@bob:b" "m.room.member" (Some "@bob:b"%string) [("membership", JString "join")]%string
    ["$c"; "$jr"]%string ["$topic"]%string 5.
Definition p_bob_leaves (id : string) (prev : string) (depth : Z) : json_object :=
  demo_pdu id "@bob:b" "m.room.member" (Some "@bob:b"%string) [("membership", JString "leave")]%string
    ["$c"; "$bob"]%string [prev] depth.

Definition refused_engine :=
  run_pdus [p_create; p_alice; p_rules; p_topic; p_bob_joins; p_bob_leaves "left" "$bob" 6;
    p_bob_leaves "again" "$left" 7] ∅.
