(* ===== verification/RoomServeSpec.v ===== *)
(** * What a peer is given (saltator-roomserver/src/lib.rs)

    The auth chain and the backward walk against reachability in the stored
    event graph, on any stored data. *)

From S2P Require Import Prelude Bytes Order Store Codec Json Shard RoomTypes RoomMachine RoomRead.
From S2P Require Import CoreEvent Auth Acl StateRes Pdu Pipeline PipelineFacts RoomServe.
From stdpp Require Import options.

Section Stored.
Context `{RC : RoomCodecs, JT : JsonText}.
Context (store : ReadCtx).

(** The names under which anything may be stored. *)
Definition names : gset string := set_map (str_drop 4) (dom (r_engine store)).

Lemma event_named id ev : event store id = Ok (Some ev) → id ∈ names.
Proof.
  unfold event, kv_get_typed, read_get. destruct (_ !! _) as [b|] eqn:Hb; [|done]. intros _.
  unfold names. apply elem_of_map. eexists. split; [|by apply elem_of_dom_2 in Hb].
  unfold ctx_key, key. cbn [str_drop]. unfold be16. simpl. by rewrite ?str_app_nil_r.
Qed.

Lemma load_raw_stored id : match load_raw store id with
  | Ok (Some _) => ∃ ev, event store id = Ok (Some ev)
  | Ok None => event store id = Ok None
  | Err _ => True
  end.
Proof.
  unfold load_raw, storage_err. destruct (event store id) as [[ev|]|]; cbn [map_err]; try done.
  destruct (json_parse _) as [[]|]; eauto.
Qed.

(** What remains to be visited. *)
Lemma unseen_less (seen : gset string) id :
  id ∈ names → id ∉ seen → (size (names ∖ ({[id]} ∪ seen)) < size (names ∖ seen))%nat.
Proof. intros. apply subset_size. set_solver. Qed.

Lemma unseen_le (seen : gset string) id :
  (size (names ∖ ({[id]} ∪ seen)) ≤ size (names ∖ seen))%nat.
Proof. apply subseteq_size. set_solver. Qed.
End Stored.

(** ** The auth chain *)

Section Chain.
Context `{RC : RoomCodecs, JT : JsonText}.
Context (store : ReadCtx).

(** What a stored event cites. *)
Definition cited (id : string) : list string :=
  match load_raw store id with Ok (Some obj) => auth_event_ids obj | _ => [] end.

Record chain_inv (seed : gset string) (s : ChainState) : Prop := {
  ci_explores : exploring cited (.∈ seed) s.1.1 (.∈ s.1.2);
  ci_distinct : NoDup s.2.*1;
  ci_chain id obj : (id, obj) ∈ s.2 ↔ id ∈ s.1.1 ∧ load_raw store id = Ok (Some obj);
}.

Lemma chain_inv_start seed : chain_inv seed (∅, rev (btree seed), []).
Proof.
  split; simpl; [|constructor|set_solver].
  destruct (exploring_start cited (.∈ seed)) as [H1 H2 H3 H4].
  assert (Heq : ∀ x, x ∈ rev (btree seed) ↔ x ∈ seed).
  { intros x. rewrite elem_of_rev. apply elem_of_btree. }
  split; [|set_solver|done|].
  - intros x [?|?]%H1; [by left|right]. by apply Heq.
  - intros x Hx%Heq. by apply H4.
Qed.

Definition chain_lt : ChainState → ChainState → Prop :=
  lex2 (λ s, size (names store ∖ s.1.1)) (λ s, length s.1.2).

Lemma chain_step_ok seed s s' :
  chain_inv seed s → chain_step store s = inl s' → chain_inv seed s' ∧ chain_lt s' s.
Proof.
  destruct s as [[seen queue] chain]. intros [He Hd Hc]. cbn [fst snd] in *.
  unfold chain_step. destruct queue as [|id queue]; [done|]. case_bool_decide as Hseen.
  { intros [= <-]. split; [split; cbn [fst snd]; [|done|done]|right; simpl; lia].
    eapply exploring_skip; [exact He|exact Hseen| |]; set_solver. }
  assert (Hfresh : ∀ obj, (id, obj) ∉ chain) by (intros obj [? _]%Hc; done).
  pose proof (load_raw_stored store id) as Hst.
  destruct (load_raw store id) as [[obj|]|] eqn:Hl; [| |done]; intros [= <-].
  - split.
    + assert (Hcited : cited id = auth_event_ids obj) by (unfold cited; by rewrite Hl).
      split; cbn [fst snd].
      * eapply (exploring_visit _ _ _ _ _ id); [exact He|set_solver| | |];
          intros y; rewrite ?elem_of_app, ?elem_of_rev, ?list_elem_of_filter, ?Hcited.
        -- set_solver.
        -- set_solver.
        -- intros Hy. destruct (decide (y ∈ {[id]} ∪ seen)); [by left|right; by left].
      * rewrite fmap_app. apply list.NoDup_app. split; [done|]. split; [|apply NoDup_singleton].
        intros x Hx Hx'. assert (x = id) as -> by set_solver.
        apply list_elem_of_fmap in Hx as [[x o] [-> Hx]]. by apply Hfresh in Hx.
      * intros id' obj'. rewrite elem_of_app, Hc, list_elem_of_singleton. split.
        -- intros [[? ?]|[= -> ->]]; [split; [set_solver|done]|split; [set_solver|done]].
        -- intros [[->%elem_of_singleton|?]%elem_of_union Hl'].
           { right. rewrite Hl in Hl'. by injection Hl' as ->. } by left.
    + left. cbn [fst snd]. destruct Hst as [ev Hev]. apply unseen_less; [by eapply event_named|done].
  - split.
    + assert (Hcited : cited id = []) by (unfold cited; by rewrite Hl).
      split; cbn [fst snd]; [|done|].
      * eapply (exploring_visit _ _ _ _ _ id); [exact He|set_solver|set_solver|set_solver|].
        rewrite Hcited. set_solver.
      * intros id' obj'. rewrite Hc. split; [set_solver|].
        intros [[->%elem_of_singleton|?]%elem_of_union Hl']; [congruence|done].
    + destruct (decide (id ∈ names store)) as [Hin|Hin].
      * left. cbn [fst snd]. by apply unseen_less.
      * right. cbn [fst snd]. split; [|simpl; lia]. f_equal. set_solver.
Qed.

(** What [collect_auth_chain] answers. *)
Definition chain_answer (seed : gset string) (r : result RoomError (list (string * json_object))) : Prop :=
  match r with
  | Ok chain =>
      NoDup chain.*1 ∧
      ∀ id obj, (id, obj) ∈ chain ↔ reachable cited (.∈ seed) id ∧ load_raw store id = Ok (Some obj)
  | Err x => ∃ id, reachable cited (.∈ seed) id ∧ load_raw store id = Err x
  end.

Lemma chain_exit seed s r :
  chain_inv seed s → chain_step store s = inr r → chain_answer seed r.
Proof.
  destruct s as [[seen queue] chain]. intros [He Hd Hc]. cbn [fst snd] in *.
  unfold chain_step. destruct queue as [|id queue].
  - intros [= <-]. split; [done|]. intros id obj. rewrite Hc.
    by rewrite (exploring_done _ _ _ _ id He) by set_solver.
  - case_bool_decide; [done|]. destruct (load_raw store id) as [[obj|]|x] eqn:Hl; [done|done|].
    intros [= <-]. exists id. split; [|done]. apply (ex_pending _ _ _ _ He). set_solver.
Qed.

(** Collecting an auth chain always ends, and answers with
    exactly the stored events that the seed leads to along [auth_events], each
    once, in any stored graph, cycles and dangling references included; it
    fails only if one of those events cannot be read. *)
Theorem auth_chain_closed seed :
  ∃ n r, (∀ fuel, (n ≤ fuel)%nat → collect_auth_chain store fuel seed = Some r) ∧ chain_answer seed r.
Proof.
  destruct (loop_total (chain_step store) chain_lt (chain_inv seed) (∅, rev (btree seed), []))
    as (n & r & Hn).
  - apply lex2_wf.
  - intros s s' Hs Hb. by apply (chain_step_ok seed).
  - apply chain_inv_start.
  - exists n, r. split; [done|].
    apply (loop_inv (chain_step store) (chain_inv seed) (chain_answer seed) n
             (∅, rev (btree seed), [])); [| |apply chain_inv_start|by apply Hn].
    + intros s s' Hs Hb. by destruct (chain_step_ok seed s s' Hs Hb).
    + intros s r' Hs Hb. by eapply chain_exit.
Qed.
End Chain.

(** ** The backward walk *)

#[export] Instance lawful_depth : Lawful depth_cmp.
Proof.
  apply lawful_weak; [unfold depth_cmp; apply _|]. unfold depth_cmp, cmp_lex, cmp_on.
  intros [d x] [d' x']; cbn [fst snd]. destruct (N.compare d d') eqn:E; try done. intros E'.
  apply cmp_eq in E as ->. by apply cmp_eq in E' as ->.
Qed.

Lemma sorted_last {A} (R : A → A → Prop) l x y :
  StronglySorted R l → list.last l = Some x → y ∈ l → y = x ∨ R y x.
Proof.
  intros Hs Hl Hy. apply last_Some in Hl as [l' ->].
  apply elem_of_app in Hy as [Hy|Hy]; [right|left; set_solver].
  induction l' as [|z l' IH]; [set_solver|]. inversion Hs as [|? ? Hs' Hz]; subst.
  apply elem_of_cons in Hy as [->|Hy]; [|by apply IH].
  eapply list.Forall_forall in Hz; [exact Hz|]. set_solver.
Qed.

Lemma deepest_spec f : match deepest f with
  | Some x => x ∈ f ∧ ∀ y, y ∈ f → y = x ∨ depth_cmp y x = Lt
  | None => f = ∅
  end.
Proof.
  unfold deepest. destruct (list.last _) as [x|] eqn:Hl.
  - assert (Hin : ∀ y, y ∈ sort_by depth_cmp (elements f) ↔ y ∈ f).
    { intros y. by rewrite sort_by_perm, elem_of_elements. }
    split; [apply Hin; apply last_Some in Hl as [? ->]; set_solver|]. intros y Hy%Hin.
    destruct (sorted_last _ _ _ _ (sort_by_sorted (elements f)) Hl Hy) as [?|HR]; [by left|].
    unfold holds, cmp_le in HR. destruct (depth_cmp y x) eqn:E; [left; by apply cmp_eq|by right|done].
  - apply last_None in Hl. apply set_eq. intros y.
    rewrite <- elem_of_elements, <- (sort_by_perm (cmp := depth_cmp)), Hl. set_solver.
Qed.

Section Walk.
Context `{RC : RoomCodecs, JT : JsonText}.
Context (store : ReadCtx).

(** An event that is stored and was not rejected. *)
Definition held (id : string) : option StoredEvent :=
  match event store id with
  | Ok (Some ev) => if is_some (se_rejected ev) then None else Some ev
  | _ => None
  end.

Lemma serveable_held id : match serveable store id with
  | Ok o => o = held id
  | Err x => load_raw store id = Err x
  end.
Proof. unfold serveable, held, load_raw. by destruct (event store id) as [[ev|]|]. Qed.

Lemma widen_spec seen f ids : match widen store seen f ids with
  | Ok f' => ∀ d x, (d, x) ∈ f' ↔ (d, x) ∈ f ∨
      x ∈ ids ∧ x ∉ seen ∧ ∃ ev, held x = Some ev ∧ se_depth ev = d
  | Err x => ∃ id, load_raw store id = Err x
  end.
Proof.
  unfold widen. revert f. induction ids as [|id ids IH]; intros f; simpl; [set_solver|].
  case_bool_decide as Hs.
  - specialize (IH f). destruct (try_fold _ f ids); [|done]. intros d x. rewrite IH. set_solver.
  - pose proof (serveable_held id) as Hsv. destruct (serveable store id) as [o|e]; [|eauto]. subst o.
    set (f1 := match held id with Some ev => {[(se_depth ev, id)]} ∪ f | None => f end).
    specialize (IH f1). destruct (try_fold _ f1 ids); [|done]. intros d x. rewrite IH.
    assert (H1 : (d, x) ∈ f1 ↔ (d, x) ∈ f ∨ x = id ∧ ∃ ev, held x = Some ev ∧ se_depth ev = d).
    { unfold f1. destruct (held id) eqn:Hh; rewrite ?elem_of_union, ?elem_of_singleton; naive_solver. }
    rewrite H1, elem_of_cons. naive_solver.
Qed.

Section Query.
Context (stop : gset string) (limit : nat) (min_depth : N).

(** What the walk gives out of the events it holds. *)
Definition shown (id : string) : option json_object :=
  ev ← held id;
  if (se_depth ev <? min_depth)%N then None
  else match json_parse (se_raw ev) with Some (JObject raw) => Some raw | _ => None end.

Definition may_visit (id : string) : Prop := id ∉ stop ∧ is_some (held id) = true.

(** The edges the walk follows: from an event it gives out, to the events it
    cites that are held, not rejected and not in [stop].  A rejected or too
    shallow event has no edges. *)
Definition behind (id : string) : list string :=
  match shown id with Some raw => filter may_visit (prev_event_ids raw) | None => [] end.

Definition start (seed : list string) (id : string) : Prop := id ∈ seed ∧ may_visit id.

Definition depth_of (id : string) : N := default 0%N (se_depth <$> held id).

(** Deeper, or later by id at the same depth. *)
Definition newer (a b : string) : Prop := depth_cmp (depth_of b, b) (depth_of a, a) = Lt.

Definition depths_fall : Prop :=
  ∀ id p, p ∈ behind id → (depth_of p < depth_of id)%N.

Record walk_inv (seed : list string) (s : WalkState) : Prop := {
  wi_stop : stop ⊆ s.1.1;
  wi_explores : exploring behind (start seed) (s.1.1 ∖ stop) (λ x, (depth_of x, x) ∈ s.1.2);
  wi_frontier d x : (d, x) ∈ s.1.2 → x ∉ s.1.1 ∧ is_some (held x) = true ∧ d = depth_of x;
  wi_distinct : NoDup s.2.*1;
  wi_out id raw : (id, raw) ∈ s.2 ↔ id ∈ s.1.1 ∖ stop ∧ shown id = Some raw;
  wi_bound : (length s.2 ≤ limit)%nat;
  wi_newest : depths_fall →
    StronglySorted newer s.2.*1 ∧ ∀ id x, id ∈ s.2.*1 → (depth_of x, x) ∈ s.1.2 → newer id x;
}.

Record walk_answer (seed : list string) (out : list (string * json_object)) : Prop := {
  wa_bound : (length out ≤ limit)%nat;
  wa_distinct : NoDup out.*1;
  wa_sound id raw : (id, raw) ∈ out → reachable behind (start seed) id ∧ shown id = Some raw;
  wa_complete : (length out < limit)%nat →
    ∀ id raw, reachable behind (start seed) id → shown id = Some raw → (id, raw) ∈ out;
  wa_newest : depths_fall → StronglySorted newer out.*1 ∧
    ∀ id raw, reachable behind (start seed) id → shown id = Some raw →
      (id, raw) ∈ out ∨ ∀ x, x ∈ out.*1 → newer x id;
}.

Lemma newer_trans a b c : newer a b → newer b c → newer a c.
Proof. unfold newer. intros H1 H2. by eapply cmp_trans. Qed.

Lemma newer_depth a b : (depth_of b < depth_of a)%N → newer a b.
Proof.
  unfold newer, depth_cmp, cmp_lex, cmp_on. cbn [fst snd]. intros H.
  by apply N.compare_lt_iff in H as ->.
Qed.

Lemma sorted_snoc {A} (R : A → A → Prop) l x :
  StronglySorted R l → (∀ y, y ∈ l → R y x) → StronglySorted R (l ++ [x]).
Proof.
  induction 1 as [|y l Hl IH Hy]; intros Hx; simpl; [repeat constructor|].
  constructor; [apply IH; set_solver|]. apply list.Forall_app. split; [done|].
  repeat constructor. apply Hx. set_solver.
Qed.

(** One event is visited: given out if it is shown, and its parents wait. *)
Lemma walk_visit seed seen frontier frontier' out id :
  walk_inv seed (seen, frontier, out) → (length out < limit)%nat →
  (depth_of id, id) ∈ frontier → (∀ y, y ∈ frontier → y = (depth_of id, id) ∨ depth_cmp y (depth_of id, id) = Lt) →
  (∀ d x, (d, x) ∈ frontier' ↔ (d, x) ∈ frontier ∖ {[(depth_of id, id)]} ∨
    x ∈ behind id ∧ x ∉ {[id]} ∪ seen ∧ d = depth_of x) →
  walk_inv seed ({[id]} ∪ seen, frontier',
    out ++ match shown id with Some raw => [(id, raw)] | None => [] end).
Proof.
  intros [Hstop He Hf Hd Ho Hb Hn] Hlim Hid Hmax Hf'. cbn [fst snd] in *.
  destruct (Hf _ _ Hid) as (Hunseen & Hheld & _).
  assert (Hfresh : ∀ raw, (id, raw) ∉ out) by (intros raw [? _]%Ho; set_solver).
  assert (Hids : (out ++ match shown id with Some raw => [(id, raw)] | None => [] end).*1 =
    out.*1 ++ if is_some (shown id) then [id] else []) by (rewrite fmap_app; by destruct (shown id)).
  assert (Hnew : id ∉ out.*1).
  { intros [[x o] [-> Hx]]%list_elem_of_fmap. by apply Hfresh in Hx. }
  assert (Hsame : (({[id]} ∪ seen) ∖ stop : gset string) = {[id]} ∪ (seen ∖ stop)) by set_solver.
  split; cbn [fst snd].
  - set_solver.
  - rewrite Hsame. eapply exploring_visit; [exact He|exact Hid| | |].
    + intros y Hy. destruct (decide (y = id)) as [->|]; [by left|right]. apply Hf'. left.
      apply elem_of_difference. split; [done|]. rewrite elem_of_singleton. congruence.
    + intros y [?|[? _]]%Hf'; [left; set_solver|by right].
    + intros y Hy. destruct (decide (y ∈ {[id]} ∪ seen)) as [Hs|Hs]; [left|right; apply Hf'; naive_solver].
      assert (y ∉ stop); [|set_solver]. unfold behind in Hy. destruct (shown id); [|set_solver].
      by apply list_elem_of_filter in Hy as [[? _] _].
  - intros d x [Hx|(Hx & Hs & ->)]%Hf'.
    + apply elem_of_difference in Hx as [Hx Hne]. destruct (Hf _ _ Hx) as (Hxs & Hh & ->).
      split_and!; [|done|done]. rewrite elem_of_union, elem_of_singleton. set_solver.
    + split_and!; [done| |done]. unfold behind in Hx. destruct (shown id); [|set_solver].
      by apply list_elem_of_filter in Hx as [[_ ?] _].
  - rewrite Hids. apply list.NoDup_app. split; [done|]. split; [|destruct (is_some (shown id)); [apply NoDup_singleton|constructor]].
    intros x Hx Hx'. assert (x = id) as -> by (destruct (is_some (shown id)); set_solver). done.
  - intros x raw. rewrite Hsame, elem_of_app, Ho, elem_of_union, elem_of_singleton. split.
    + intros [[? ?]|Hx]; [auto|]. destruct (shown id) eqn:Hsh; [|set_solver].
      apply list_elem_of_singleton in Hx as [= -> ->]. auto.
    + intros [[->|?] Hsh]; [right; rewrite Hsh; by left|by left].
  - rewrite length_app. destruct (shown id); simpl; lia.
  - intros Hfall. destruct (Hn Hfall) as [Hs Hlt]. rewrite Hids. split.
    + destruct (is_some (shown id)); [|by rewrite app_nil_r]. apply sorted_snoc; [done|].
      intros y Hy. by apply Hlt.
    + intros y x Hy [Hx|(Hx & _ & _)]%Hf'.
      * apply elem_of_difference in Hx as [Hx Hne]. apply elem_of_app in Hy as [Hy|Hy]; [by apply Hlt|].
        assert (y = id) as -> by (destruct (is_some (shown id)); set_solver).
        destruct (Hmax _ Hx) as [?|?]; [set_solver|done].
      * assert (newer id x) by (by apply newer_depth, Hfall). apply elem_of_app in Hy as [Hy|Hy].
        { apply newer_trans with id; [by apply Hlt|done]. }
        by assert (y = id) as -> by (destruct (is_some (shown id)); set_solver).
Qed.

Lemma walk_start seed frontier :
  widen store stop ∅ seed = Ok frontier → walk_inv seed (stop, frontier, []).
Proof.
  intros Hw. pose proof (widen_spec stop ∅ seed) as Hf. rewrite Hw in Hf.
  assert (Hin : ∀ d x, (d, x) ∈ frontier ↔ start seed x ∧ d = depth_of x).
  { intros d x. rewrite Hf. unfold start, may_visit, depth_of.
    destruct (held x); simpl; split; [set_solver|naive_solver|set_solver|naive_solver]. }
  split; cbn [fst snd].
  - done.
  - destruct (exploring_start behind (start seed)) as [H1 H2 H3 H4].
    assert (stop ∖ stop = ∅) as -> by set_solver. split; [|done|done|].
    + intros x Hx. right. by apply Hin.
    + intros x [Hx _]%Hin. by constructor.
  - intros d x [[? [? ?]] ->]%Hin. done.
  - constructor.
  - intros id raw. set_solver.
  - simpl. lia.
  - intros _. split; [constructor|set_solver].
Qed.

Definition walk_lt : WalkState → WalkState → Prop :=
  lex2 (λ s, size (names store ∖ s.1.1)) (λ _, 0%nat).

Lemma held_event id : is_some (held id) = true →
  ∃ ev, held id = Some ev ∧ event store id = Ok (Some ev) ∧ se_rejected ev = None.
Proof.
  unfold held. destruct (event store id) as [[ev|]|]; try done.
  destruct (se_rejected ev) eqn:Hr; [done|]. eauto.
Qed.

(** The parents that [widen] adds. *)
Lemma parents_wait id raw (seen : gset string) d x :
  shown id = Some raw → stop ⊆ seen →
  x ∈ prev_event_ids raw ∧ x ∉ seen ∧ (∃ ev, held x = Some ev ∧ se_depth ev = d) ↔
  x ∈ behind id ∧ x ∉ seen ∧ d = depth_of x.
Proof.
  intros Hsh Hstop. unfold behind. rewrite Hsh, list_elem_of_filter. unfold may_visit, depth_of.
  destruct (held x) as [ev|]; simpl.
  - split.
    + intros (Hp & Hs & ev' & [= <-] & Hd). split_and!; [set_solver|done|done|done|done].
    + intros ([[_ _] Hp] & Hs & Hd). split_and!; [done|done|]. by exists ev.
  - split; [by intros (_ & _ & ? & ? & _)|by intros ([[_ ?] _] & _)].
Qed.

(** A turn of the loop visits the deepest event that waits. *)
Lemma walk_step_ok seed s :
  walk_inv seed s →
  match walk_step store limit min_depth s with
  | inl s' => walk_inv seed s' ∧ walk_lt s' s
  | inr (Ok out) => walk_answer seed out
  | inr (Err x) => ∃ id, load_raw store id = Err x
  end.
Proof.
  intros Hinv. destruct s as [[seen frontier] out]. unfold walk_step.
  case_bool_decide as Hlim.
  { destruct Hinv as [_ He _ Hd Ho Hb Hn]; cbn [fst snd] in *. split; [done|done| |lia|].
    - intros id raw [Hs ?]%Ho. split; [|done]. by apply (ex_seen _ _ _ _ He).
    - intros Hfall. destruct (Hn Hfall) as [? Hlt]. split; [done|]. intros id raw Hr Hsh.
      destruct (exploring_behind _ _ _ _ _ He Hr) as [?|(y & Hy & Hyr)]; [left; by apply Ho|right].
      intros x Hx. apply (Hlt x) in Hy; [|done]. clear -Hy Hyr Hfall.
      induction Hyr as [? <-|a b _ IH Hb]; [done|]. eapply newer_trans; [exact IH|].
      by apply newer_depth, Hfall. }
  pose proof (deepest_spec frontier) as Hdeep. destruct (deepest frontier) as [[d id]|].
  - destruct Hdeep as [Hid Hmax]. destruct (wi_frontier _ _ Hinv _ _ Hid) as (Hunseen & Hh & ->).
    cbn [fst snd] in *. rewrite bool_decide_eq_false_2 by done.
    destruct (held_event _ Hh) as (ev & Hhev & Hev & Hrej). rewrite Hev. cbn [storage_err map_err].
    rewrite Hrej. cbn [is_some orb].
    assert (Hlt : ∀ f o, walk_lt ({[id]} ∪ seen, f, o) (seen, frontier, out)).
    { intros f o. left. apply unseen_less; [by eapply event_named|done]. }
    assert (Hgo := λ f', walk_visit seed seen frontier f' out id Hinv ltac:(lia) Hid Hmax).
    assert (Hsh : shown id = if (se_depth ev <? min_depth)%N then None
      else match json_parse (se_raw ev) with Some (JObject raw) => Some raw | _ => None end).
    { unfold shown. by rewrite Hhev. }
    destruct (se_depth ev <? min_depth)%N.
    { specialize (Hgo (frontier ∖ {[(depth_of id, id)]})). rewrite Hsh, app_nil_r in Hgo.
      split; [|done]. apply Hgo. unfold behind. rewrite Hsh. set_solver. }
    assert (Hload : load_raw store id = match json_parse (se_raw ev) with
      Some (JObject o) => Ok (Some o) | _ => Err CodecFailed end) by (unfold load_raw; by rewrite Hev).
    destruct (json_parse (se_raw ev)) as [[]|]; cbn [ok_or]; try by exists id.
    rewrite Hsh in Hgo.
    pose proof (widen_spec ({[id]} ∪ seen) (frontier ∖ {[(depth_of id, id)]}) (prev_event_ids o)) as Hw.
    destruct (widen _ _ _ _) as [f'|]; [|done]. split; [|done]. apply Hgo. intros d x. rewrite Hw.
    rewrite (parents_wait id o ({[id]} ∪ seen) d x); [done|done|].
    pose proof (wi_stop _ _ Hinv) as Hstop. cbn [fst] in Hstop. clear -Hstop. set_solver.
  - subst frontier. destruct Hinv as [_ He _ Hd Ho Hb Hn]; cbn [fst snd] in *.
    assert (Hall : ∀ id raw, reachable behind (start seed) id → shown id = Some raw → (id, raw) ∈ out).
    { intros id raw Hr Hsh. apply Ho. split; [|done].
      apply (exploring_done _ _ _ _ id He); [set_solver|done]. }
    split; [done|done| |auto|].
    + intros id raw [Hs ?]%Ho. split; [|done]. by apply (ex_seen _ _ _ _ He).
    + intros Hfall. destruct (Hn Hfall) as [? _]. split; [done|]. left. by apply Hall.
Qed.

(** C36 (termination): walking back always ends, whatever the stored graph,
    with the error of an event that is held but cannot be read, or with an
    answer.  Call an event eligible when it is held, not rejected, and of the
    depth asked for.  The answer has at most [limit] events, no event twice,
    each one eligible and reached from the start along [prev_events] through
    eligible events outside [stop] alone: the walk ends at a rejected event and
    at one that is not deep enough, so what is held only behind these is never
    given.  When it gives fewer than [limit], it gives all that is reached that
    way.  Where depths fall along these edges, the events come newest first,
    and any it leaves out are older than all it gives. *)
Theorem walk_back_exact seed :
  ∃ n r, (∀ fuel, (n ≤ fuel)%nat → walk_back store fuel seed stop limit min_depth = Some r) ∧
    match r with
    | Ok out => walk_answer seed out
    | Err x => ∃ id, load_raw store id = Err x
    end.
Proof.
  unfold walk_back. pose proof (walk_start seed) as Hs. pose proof (widen_spec stop ∅ seed) as Hw.
  destruct (widen store stop ∅ seed) as [frontier|x]; [|by exists 0%nat, (Err x)].
  destruct (loop_total (walk_step store limit min_depth) walk_lt (walk_inv seed) (stop, frontier, []))
    as (n & r & Hn).
  - apply lex2_wf.
  - intros s s' Hi Hb. pose proof (walk_step_ok seed s Hi) as H. by rewrite Hb in H.
  - by apply Hs.
  - exists n, r. split; [done|].
    apply (loop_inv (walk_step store limit min_depth) (walk_inv seed)
             (λ r, match r with Ok out => walk_answer seed out | Err x => ∃ id, load_raw store id = Err x end)
             n (stop, frontier, [])); [| |by apply Hs|by apply Hn].
    + intros s s' Hi Hb. pose proof (walk_step_ok seed s Hi) as H. rewrite Hb in H. by destruct H.
    + intros s r' Hi Hb. pose proof (walk_step_ok seed s Hi) as H. by rewrite Hb in H.
Qed.
End Query.
End Walk.
