(* ===== verification/RoomAccess.v ===== *)
(** * Who may see and who may join (saltator-roomserver/src/lib.rs)

    Redaction for servers that were not there, and the decision on restricted
    joins with what it promises to the authorisation rules. *)

From S2P Require Import Prelude Bytes Order Store Codec Json Shard RoomTypes RoomMachine RoomRead.
From S2P Require Import CoreEvent PowerLevels Auth Acl StateRes ResOrder Pdu Pipeline PipelineFacts RoomServe.
From S2P Require Import RoomCells RoomJoin.
From stdpp Require Import options.

Local Open Scope N_scope.

Lemma try_fold_ext {E A B} (f g : B → A → result E B) l b :
  (∀ b a, f b a = g b a) → try_fold f b l = try_fold g b l.
Proof.
  intros H. revert b. induction l as [|a l IH]; intros b; simpl; [done|].
  rewrite H. by destruct (g b a).
Qed.

Lemma restricted_rule_spec rule :
  restricted_rule rule = true ↔ rule ∈ ["restricted"; "knock_restricted"]%string.
Proof.
  unfold restricted_rule. rewrite orb_true_iff, !bool_decide_eq_true. set_solver.
Qed.

(** ** Searching the members of a state *)

(** [f]'s first answer: one that it gave, or none on any member. *)
Lemma first_member_spec {A} (f : string → string → result RoomError (option A)) keys state o :
  first_member f keys state = Ok o →
  match o with
  | Some a => ∃ sk id, ("m.room.member"%string, sk) ∈ keys ∧
      state !! ("m.room.member"%string, sk) = Some id ∧ f sk id = Ok (Some a)
  | None => ∀ sk id, ("m.room.member"%string, sk) ∈ keys →
      state !! ("m.room.member"%string, sk) = Some id → f sk id = Ok None
  end.
Proof.
  induction keys as [|[ty sk] keys IH]; simpl; [by intros [= <-]; set_solver|].
  case_bool_decide as Hty.
  - subst ty. destruct (state !! _) as [id|] eqn:Hid.
    + destruct (f sk id) as [[a|]|] eqn:Hf; [intros [= <-]|intros H|done].
      * exists sk, id. split; [by left|done].
      * specialize (IH H). destruct o as [a|].
        -- destruct IH as (sk' & id' & Hk & ?). exists sk', id'. split; [by right|done].
        -- intros sk' id' [[= ->]|Hk]%elem_of_cons; [congruence|by apply IH].
    + intros H. specialize (IH H). destruct o as [a|].
      * destruct IH as (sk' & id' & Hk & ?). exists sk', id'. split; [by right|done].
      * intros sk' id' [[= ->]|Hk]%elem_of_cons; [congruence|by apply IH].
  - intros H. specialize (IH H). destruct o as [a|].
    + destruct IH as (sk' & id' & Hk & ?). exists sk', id'. split; [by right|done].
    + intros sk' id' [Heq|Hk]%elem_of_cons; [by injection Heq as <- _|by apply IH].
Qed.

Lemma members_of_elem state k : k ∈ members_of state ↔ is_Some (state !! k).
Proof. unfold members_of. by rewrite sorted_keys_elem, elem_of_dom. Qed.

Section Access.
Context `{RC : RoomCodecs, JT : JsonText, SJ : SerdeJson, RU : Ruma, EC : EventCrypto}.

(** ** History visibility *)

Section Visibility.
Context (store : ReadCtx) (room_id server : string).

(** A user of [server] has one of the memberships in [state]. *)
Definition has_member (state : StateIds) (required : list string) : Prop :=
  ∃ user id obj m, state !! ("m.room.member"%string, user) = Some id ∧
    user_id_ok user = true ∧ user_server user = server ∧
    load_raw store id = Ok (Some obj) ∧ content_str obj "membership" = Some m ∧ m ∈ required.

(** The state recorded with the event asks for a membership that no user of
    [server] had. *)
Definition hidden (raw : json_object) : Prop :=
  ∃ id stored state required,
    pdu_event_id store raw = Some id ∧ event store id = Ok (Some stored) ∧
    se_state_group_after stored ≠ 0 ∧
    room_state store room_id (se_state_group_after stored) = Ok state ∧
    required_membership (visibility_of store state) = Some required ∧
    ¬ has_member state required.

Lemma server_has_spec state required b :
  server_has store state server required = Ok b → b = true ↔ has_member state required.
Proof.
  unfold server_has. destruct (first_member _ _ _) as [o|] eqn:Hf; [|done]. intros [= <-].
  apply first_member_spec in Hf. destruct o as [[]|]; simpl; split; try done.
  - intros _. destruct Hf as (sk & id & _ & Hid & Hf). exists sk, id.
    destruct (user_id_ok sk) eqn:Hu; [|done]. cbn [negb] in Hf. case_bool_decide as Hs; [done|].
    destruct (load_raw store id) as [[obj|]|] eqn:Hl; [|done..]. simpl in Hf.
    destruct (content_str obj "membership") as [m|] eqn:Hm; [|done]. case_bool_decide; [|done].
    by exists obj, m.
  - intros (user & id & obj & m & Hid & Hu & Hs & Hl & Hm & Hin). exfalso.
    specialize (Hf user id ltac:(by apply members_of_elem) Hid). cbv beta in Hf.
    rewrite Hu, bool_decide_eq_false_2, Hl in Hf by (by intros ?). simpl in Hf.
    rewrite Hm, bool_decide_eq_true_2 in Hf by done. done.
Qed.

Lemma visible_to_spec raw b : visible_to store room_id server raw = Ok b → b = false ↔ hidden raw.
Proof.
  unfold visible_to, hidden. destruct (pdu_event_id store raw) as [id|] eqn:Hid.
  2: { intros [= <-]. naive_solver. }
  destruct (event store id) as [[stored|]|] eqn:Hev; cbn [storage_err map_err]; [| |done].
  2: { intros [= <-]. split; [done|]. intros (? & ? & ? & ? & [= <-] & Hev' & _). congruence. }
  destruct (N.eqb_spec (se_state_group_after stored) 0) as [Hz|Hz].
  { intros [= <-]. split; [done|]. intros (? & x0 & ? & ? & [= <-] & Hev' & Hne & _).
    assert (stored = x0) as <- by congruence. done. }
  destruct (room_state _ _ _) as [state|] eqn:Hst; [|done].
  destruct (required_membership _) as [required|] eqn:Hreq.
  - intros Hb. apply server_has_spec in Hb. split.
    + intros ->. exists id, stored, state, required. split_and!; try done. by intros Hh%Hb.
    + intros (? & x0 & x1 & x2 & [= <-] & Hev' & _ & Hst' & Hreq' & Hno).
      destruct b; [|done]. exfalso. apply Hno.
      assert (stored = x0) as <- by congruence. assert (state = x1) as <- by congruence.
      assert (required = x2) as <- by congruence. by apply Hb.
  - intros [= <-]. split; [done|]. intros (? & x0 & x1 & x2 & [= <-] & Hev' & _ & Hst' & Hreq' & _).
    assert (stored = x0) as <- by congruence. assert (state = x1) as <- by congruence. congruence.
Qed.

(** C31 (safety): of the events asked for on behalf of a server, exactly those
    are redacted whose recorded state restricts history to members and holds no
    fitting member of that server; every other one is passed on as it is, and
    none is lost or moved. *)
Theorem absent_servers_see_redacted events m v out :
  meta store room_id = Ok (Some m) → CoreEvent.parse (rm_version m) = Some v →
  filter_events_for_server store room_id server events = Ok out →
  Forall2 (λ raw given,
    (hidden raw ∧ redact raw v = Ok given) ∨ (¬ hidden raw ∧ given = raw)) events out.
Proof.
  intros Hm Hv. unfold filter_events_for_server. rewrite Hm. cbn [storage_err map_err].
  rewrite Hv. cbn [ok_or].
  set (f raw := let? visible := visible_to store room_id server raw in
    if (visible : bool) then Ok raw
    else match redact raw v with Ok raw => Ok raw | Err _ => Err Malformed end).
  intros Hout. assert (Hmap : try_fold (λ out a, match f a with
      Ok b => Ok (out ++ [b]) | Err e => Err e end) [] events = Ok out).
  { rewrite <- Hout. apply try_fold_ext. intros b raw. unfold f.
    destruct (visible_to _ _ _ _) as [[]|]; [done| |done]. by destruct (redact raw v). }
  apply try_fold_map in Hmap as (bs & -> & Hall). eapply Forall2_impl; [|exact Hall].
  intros raw given. unfold f. destruct (visible_to _ _ _ _) as [b|] eqn:Hb; [|done].
  apply visible_to_spec in Hb. destruct b.
  - intros [= <-]. right. split; [|done]. by intros Hh%Hb.
  - destruct (redact raw v) eqn:Hr; [|done]. intros [= <-]. left. split; [by apply Hb|done].
Qed.
End Visibility.

(** ** Restricted joins *)

Section Restricted.
Context (store : ReadCtx) (peers : string → ReadCtx) (our_name : string).

Definition joined (s : ReadCtx) (state : StateIds) (user : string) : Prop :=
  membership_in s state user = Ok "join"%string.

(** One of our users is joined, so that our copy of the room is current. *)
Definition we_participate (s : ReadCtx) (state : StateIds) : Prop :=
  ∃ user, is_Some (state !! ("m.room.member"%string, user)) ∧
    local_user our_name user = true ∧ joined s state user.

(** What [allow] asks of a room, in the shard that the room itself lives in. *)
Definition vouched_in (room joiner : string) : Prop :=
  ∃ m state, meta (peers room) room = Ok (Some m) ∧
    current_state_of (peers room) room m = Ok state ∧
    we_participate (peers room) state ∧ joined (peers room) state joiner.

(** Our copy of a room says nothing about it. *)
Definition stale (room : string) : Prop :=
  meta (peers room) room = Ok None ∨
  ∃ m state, meta (peers room) room = Ok (Some m) ∧
    current_state_of (peers room) room m = Ok state ∧ ¬ we_participate (peers room) state.

Lemma participating_spec s state b :
  participating our_name s state = Ok b → b = true ↔ we_participate s state.
Proof.
  unfold participating. destruct (first_member _ _ _) as [o|] eqn:Hf; [|done]. intros [= <-].
  apply first_member_spec in Hf. unfold we_participate, joined. destruct o as [[]|]; simpl; split; try done.
  - intros _. destruct Hf as (sk & id & _ & Hid & Hf). exists sk. split; [done|].
    destruct (local_user our_name sk); [|done]. split; [done|].
    destruct (membership_in s state sk) as [m|]; [|done]. case_bool_decide; [by subst|done].
  - intros (user & [id Hid] & Hl & Hj). specialize (Hf user id ltac:(by apply members_of_elem) Hid).
    cbv beta in Hf. rewrite Hl, Hj in Hf. done.
Qed.

Lemma check_condition_spec room joiner c :
  check_condition peers our_name room joiner = Ok c →
  match c with
  | Met => vouched_in room joiner
  | Unmet => ¬ vouched_in room joiner ∧ ¬ stale room
  | Uncheckable => stale room
  end.
Proof.
  unfold check_condition, vouched_in, stale. destruct (meta (peers room) room) as [[m|]|]; cbn [storage_err map_err];
    [|intros [= <-]; by left|done].
  destruct (current_state_of _ _ _) as [state|] eqn:Hst; [|done].
  destruct (participating _ _ _) as [here|] eqn:Hp; [|done]. apply participating_spec in Hp.
  destruct here; cbn [negb].
  - assert (Hwe : we_participate (peers room) state) by (by apply Hp).
    destruct (membership_in _ _ _) as [mem|] eqn:Hmem; [|done]. intros [= <-]. case_bool_decide as Hj.
    + subst mem. by exists m, state.
    + split.
      * intros (? & ? & [= <-] & Hst' & _ & Hj'). rewrite Hst in Hst'. injection Hst' as <-.
        unfold joined in Hj'. congruence.
      * intros [?|(? & ? & [= <-] & Hst' & Hno)]; [done|]. by rewrite Hst in Hst'; injection Hst' as <-.
  - intros [= <-]. right. exists m, state. split_and!; [done|done|]. intros Hwe. by apply Hp in Hwe.
Qed.

(** A room that an entry of [allow] names. *)
Definition allows (entries : list json) (room : string) : Prop :=
  ∃ entry, entry ∈ entries ∧ allowed_room entry = Some room.

Lemma check_allow_spec entries joiner unc met unc' :
  check_allow peers our_name entries joiner unc = Ok (met, unc') →
  if (met : bool) then ∃ room, allows entries room ∧ vouched_in room joiner
  else (∀ room, allows entries room → stale room ∨ ¬ vouched_in room joiner ∧ ¬ stale room) ∧
       (unc' = true ↔ unc = true ∨ ∃ room, allows entries room ∧ stale room).
Proof.
  revert unc. induction entries as [|entry entries IH]; intros unc; simpl.
  { intros [= <- <-]. unfold allows. split; [set_solver|]. split; [by left|]. intros [?|(? & (? & ? & _) & _)]; [done|set_solver]. }
  assert (Hall : ∀ room, allows (entry :: entries) room ↔ allowed_room entry = Some room ∨ allows entries room).
  { intros room. unfold allows. setoid_rewrite elem_of_cons. naive_solver. }
  destruct (allowed_room entry) as [room|].
  - destruct (check_condition _ _ room joiner) as [c|] eqn:Hc; [|done].
    apply check_condition_spec in Hc. destruct c.
    + intros [= <- <-]. exists room. split; [by apply Hall; left|done].
    + intros H. apply IH in H. destruct met; setoid_rewrite Hall; [naive_solver|].
      destruct H as [H1 H2]. destruct Hc as [Hc1 Hc2]. split.
      * intros r [[= <-]|?]; auto.
      * rewrite H2. naive_solver.
    + intros H. apply IH in H. destruct met; setoid_rewrite Hall; [naive_solver|].
      destruct H as [H1 H2]. split.
      * intros r [[= <-]|?]; auto.
      * rewrite H2. naive_solver.
  - intros H. apply IH in H. destruct met; setoid_rewrite Hall; naive_solver.
Qed.

(** ** The authorising user *)

Section Best.
Context (state : StateIds) (power : RoomPowerLevels).

(** A joined user of ours with the level for invites. *)
Definition grantor (user : string) : Prop :=
  is_Some (state !! ("m.room.member"%string, user)) ∧ local_user our_name user = true ∧
  joined store state user ∧ satisfies (user_level power user) (invite power) = true.

Definition outranked (level : PowerLevel) (user : string) : Prop :=
  power_lt level (user_level power user) = true.

Lemma power_lt_spec a b : power_lt a b = true ↔ power_cmp a b = Lt.
Proof. unfold power_lt. by destruct (power_cmp a b). Qed.

(** One turn of the loop: the entry changes nothing, or takes the lead. *)
Lemma best_local_step ty sk keys best best' :
  is_Some (state !! (ty, sk)) →
  best_local store our_name ((ty, sk) :: keys) state power best = Ok best' →
  ∃ best1, best_local store our_name keys state power best1 = Ok best' ∧
    (best1 = best ∧ (ty = "m.room.member"%string → grantor sk →
       ∃ u b, best = Some (u, b) ∧ power_lt b (user_level power sk) = false) ∨
     ty = "m.room.member"%string ∧ grantor sk ∧ best1 = Some (sk, user_level power sk) ∧
       ∀ u b, best = Some (u, b) → power_lt b (user_level power sk) = true).
Proof.
  clear peers. intros Hk. simpl. unfold grantor, joined. case_bool_decide as Hty; cbn [andb].
  2: { intros Hb. exists best. split; [done|]. left. done. }
  subst ty. destruct (local_user our_name sk); cbn [andb].
  2: { intros Hb. exists best. split; [done|]. left. split; [done|]. naive_solver. }
  destruct (membership_in store state sk) as [m|]; [|done]. case_bool_decide as Hm.
  2: { intros Hb. exists best. split; [done|]. left. split; [done|]. naive_solver. }
  subst m. destruct (satisfies _ _); cbn [andb].
  2: { intros Hb. exists best. split; [done|]. left. split; [done|]. naive_solver. }
  destruct best as [[u b]|].
  - destruct (power_lt b _) eqn:Hlt; intros Hb; (eexists; split; [exact Hb|]); [right|left]; naive_solver.
  - intros Hb. eexists; split; [exact Hb|]. right. naive_solver.
Qed.

Lemma power_lt_trans a b c : power_lt a b = true → power_lt b c = true → power_lt a c = true.
Proof. rewrite !power_lt_spec. apply cmp_trans. Qed.

(** Nobody above [b] is above anything that is not below [b]. *)
Lemma power_lt_max l b c : power_lt l b = false → power_lt b c = false → power_lt l c = false.
Proof.
  intros H1 H2. destruct (power_lt l c) eqn:H3; [|done]. rewrite power_lt_spec in H3.
  unfold power_lt in H2. destruct (power_cmp b c) eqn:H4; [|done|].
  - apply cmp_eq in H4 as ->. unfold power_lt in H1. by rewrite H3 in H1.
  - apply cmp_gt in H4. unfold power_lt in H1. by rewrite (cmp_trans _ _ _ H3 H4) in H1.
Qed.

Lemma best_local_spec keys best best' :
  (∀ k, k ∈ keys → is_Some (state !! k)) →
  best_local store our_name keys state power best = Ok best' →
  match best' with
  | Some (u, l) =>
      (best = Some (u, l) ∨ grantor u ∧ l = user_level power u) ∧
      (∀ u', ("m.room.member"%string, u') ∈ keys → grantor u' → power_lt l (user_level power u') = false) ∧
      (∀ u' b, best = Some (u', b) → power_lt l b = false)
  | None => best = None ∧ ∀ u', ("m.room.member"%string, u') ∈ keys → ¬ grantor u'
  end.
Proof.
  revert best. induction keys as [|[ty sk] keys IH]; intros best Hk.
  { intros [= <-]. destruct best as [[u l]|]; [|split; [done|set_solver]].
    split_and!; [by left|set_solver|]. intros ? ? [= <- <-]. unfold power_lt. by rewrite cmp_refl. }
  intros Hb. apply best_local_step in Hb as (best1 & Hb & Hcase); [|apply Hk; by left].
  apply IH in Hb; [|intros; apply Hk; by right].
  destruct best' as [[u l]|].
  - destruct Hb as (Hu & Hmax & Hold). destruct Hcase as [[-> Hno]|(-> & Hg & -> & Hlt)].
    + split_and!; [done| |done]. intros u' [Heq|Hin]%elem_of_cons Hg'; [|by apply Hmax].
      injection Heq as <- <-. destruct (Hno eq_refl Hg') as (u0 & b & -> & Hlt).
      eapply power_lt_max; [by eapply Hold|done].
    + specialize (Hold _ _ eq_refl). split_and!.
      * right. destruct Hu as [[= -> ->]|?]; [done|done].
      * intros u' [Heq|Hin]%elem_of_cons Hg'; [|by apply Hmax]. by injection Heq as ->.
      * intros u0 b Hbest. destruct (power_lt l b) eqn:Hlb; [|done].
        by rewrite (power_lt_trans _ _ _ Hlb (Hlt _ _ Hbest)) in Hold.
  - destruct Hb as [-> Hno']. destruct Hcase as [[<- Hno]|(_ & _ & ? & _)]; [|done].
    split; [done|]. intros u' [Heq|Hin]%elem_of_cons; [|by apply Hno'].
    injection Heq as <- <-. intros Hg. by destruct (Hno eq_refl Hg) as (? & ? & ? & _).
Qed.
End Best.

(** ** The decision *)

(** The room's rule is restricted and [joiner] is neither joined nor invited. *)
Record restricted_for (room_id joiner : string) (m : RoomMeta) (v : RoomVersion)
    (state : StateIds) (rules : json_object) : Prop := {
  rf_meta : meta store room_id = Ok (Some m);
  rf_version : CoreEvent.parse (rm_version m) = Some v;
  rf_state : current_state_of store room_id m = Ok state;
  rf_rules : ∃ ev, state_event_content store state "m.room.join_rules" "" = Ok (Some ev) ∧
    obj_prop ev "content" = Some rules;
  rf_rule : default "invite"%string (str_prop rules "join_rule") ∈ ["restricted"; "knock_restricted"]%string;
  rf_member : ∃ mem, membership_in store state joiner = Ok mem ∧ mem ∉ ["join"; "invite"]%string;
}.

(** Some room of [allow] that we can speak for has [joiner] in it. *)
Definition condition_met (joiner : string) (rules : json_object) : Prop :=
  ∃ entries room, obj_get "allow" rules = Some (JArray entries) ∧ allows entries room ∧
    vouched_in room joiner.

Definition some_stale (rules : json_object) : Prop :=
  ∃ entries room, obj_get "allow" rules = Some (JArray entries) ∧ allows entries room ∧ stale room.

Definition verdict (joiner : string) (v : RoomVersion) (state : StateIds) (rules : json_object)
    (r : RestrictedAuth) : Prop :=
  match r with
  | NotNeeded => False
  | FailsConditions => ¬ condition_met joiner rules ∧ ¬ some_stale rules
  | CannotValidateJoin => some_stale rules
  | CannotGrantJoin => condition_met joiner rules ∧
      ∃ power, power_of store v state = Ok power ∧ ∀ u, ¬ grantor state power u
  | Authorised u => condition_met joiner rules ∧
      ∃ power, power_of store v state = Ok power ∧ grantor state power u ∧
        ∀ u', grantor state power u' → power_lt (user_level power u) (user_level power u') = false
  end.

Lemma restricted_decides room_id joiner r :
  restricted_join_authoriser store peers our_name room_id joiner = Ok r →
  (r = NotNeeded ∧ ∀ m v state rules, ¬ restricted_for room_id joiner m v state rules) ∨
  ∃ m v state rules, restricted_for room_id joiner m v state rules ∧ verdict joiner v state rules r.
Proof.
  unfold restricted_join_authoriser. destruct (meta store room_id) as [[m|]|] eqn:Hm; cbn [storage_err map_err]; [| |done].
  2: { intros [= <-]. left. split; [done|]. intros ? ? ? ? [Hm' _ _ _ _ _]. congruence. }
  destruct (CoreEvent.parse _) as [v|] eqn:Hv; cbn [ok_or]; [|done].
  destruct (current_state_of _ _ _) as [state|] eqn:Hst; [|done].
  assert (Heq : ∀ m' v' state' rules', restricted_for room_id joiner m' v' state' rules' →
    m' = m ∧ v' = v ∧ state' = state).
  { intros m' v' state' rules' [Hm' Hv' Hst' _ _ _]. assert (m' = m) as -> by congruence.
    assert (v' = v) as -> by congruence. assert (state' = state) as -> by congruence. done. }
  destruct (state_event_content _ _ _ _) as [jr|] eqn:Hjr; [|done].
  set (content := ev ← jr; obj_prop ev "content").
  destruct (restricted_rule _) eqn:Hrule; cbn [negb].
  2: { intros [= <-]. left. split; [done|]. intros m' v' state' rules' Hr.
       destruct (Heq _ _ _ _ Hr) as (-> & -> & ->). destruct Hr as [_ _ _ (ev & He & Hc) Hin _].
       rewrite Hjr in He. injection He as ->. subst content. cbn in Hrule. rewrite Hc in Hrule. cbn in Hrule.
       apply restricted_rule_spec in Hin. congruence. }
  destruct (membership_in _ _ joiner) as [mem|] eqn:Hmem; [|done].
  destruct (bool_decide (mem = _) || bool_decide (mem = _)) eqn:Hji.
  { intros [= <-]. left. split; [done|]. intros m' v' state' rules' Hr.
    destruct (Heq _ _ _ _ Hr) as (-> & -> & ->). destruct Hr as [_ _ _ _ _ (mem' & He & Hni)].
    rewrite Hmem in He. injection He as <-. rewrite orb_true_iff, !bool_decide_eq_true in Hji. set_solver. }
  rewrite orb_false_iff, !bool_decide_eq_false in Hji.
  destruct content as [rules|] eqn:Hcontent; subst content.
  2: { exfalso. by cbn in Hrule. }
  assert (Hrf : restricted_for room_id joiner m v state rules).
  { split; [done..| | |].
    - destruct jr as [ev|]; [|done]. by exists ev.
    - by apply restricted_rule_spec.
    - exists mem. split; [done|]. set_solver. }
  cbn [mbind option_bind]. intros Hr. right. exists m, v, state, rules. split; [done|]. revert Hr.
  assert (Hnone : (∀ entries, obj_get "allow" rules ≠ Some (JArray entries)) →
    ¬ condition_met joiner rules ∧ ¬ some_stale rules).
  { intros Hno. split; [intros (? & ? & ? & _)|intros (? & ? & ? & _)]; by eapply Hno. }
  destruct (obj_get "allow" rules) as [[| | | |entries|]|] eqn:Hallow;
    try (intros [= <-]; apply Hnone; congruence). clear Hnone.
  destruct (check_allow _ _ _ _ _) as [[met unc]|] eqn:Hca; [|done]. apply check_allow_spec in Hca.
  destruct met; cbn [negb].
  - destruct Hca as (room & Hin & Hvouch).
    assert (Hmet : condition_met joiner rules) by (by exists entries, room).
    destruct (power_of _ _ _) as [power|] eqn:Hpow; [|done].
    destruct (best_local _ _ _ _ _ _) as [best|] eqn:Hbest; [|done].
    apply best_local_spec in Hbest; [|intros; by apply members_of_elem].
    assert (Hall : ∀ u, grantor state power u → ("m.room.member"%string, u) ∈ members_of state).
    { intros u [? _]. by apply members_of_elem. }
    destruct best as [[u l]|]; intros [= <-]; (split; [done|]); exists power; (split; [done|]).
    + destruct Hbest as ([?|[Hg ->]] & Hmax & _); [done|]. split; [done|]. intros u' Hu'. by apply Hmax; [apply Hall|].
    + intros u Hu. destruct Hbest as [_ Hno]. by apply (Hno u (Hall u Hu)).
  - destruct Hca as [Hno Hunc]. destruct unc; intros [= <-]; simpl.
    + destruct Hunc as [[?|(room & Hin & Hs)] _]; [done|done|]. by exists entries, room.
    + assert (Hns : ¬ some_stale rules).
      { intros (entries' & room & Ha & Hin & Hs). rewrite Hallow in Ha. injection Ha as <-.
        assert (false = true); [|done]. apply Hunc. right. by exists room. }
      split; [|done]. intros (entries' & room & Ha & Hin & Hv'). rewrite Hallow in Ha. injection Ha as <-.
      destruct (Hno room Hin) as [Hs|[? _]]; [|done]. apply Hns. by exists entries, room.
Qed.

(** What the server says about a join of a restricted room.
    It needs no authoriser only if the room is not held, not restricted, or
    the joiner is joined or invited already.  It authorises only when a room
    of [allow], in whose own shard one of our users is still joined, has the
    joiner in it, and it then names a joined user of ours with the level for
    invites and nobody above; it says the conditions fail only when every room
    of [allow] could be checked and none has the joiner. *)
Theorem restricted_join_verdict room_id joiner r :
  restricted_join_authoriser store peers our_name room_id joiner = Ok r →
  (r = NotNeeded ∧ ∀ m v state rules, ¬ restricted_for room_id joiner m v state rules) ∨
  ∃ m v state rules, restricted_for room_id joiner m v state rules ∧ verdict joiner v state rules r.
Proof. apply restricted_decides. Qed.

(** ** What the rules make of it *)

(** [view] holds, with its content, every event of [state] that can be read. *)
Definition sees (view : StateView) (state : StateIds) : Prop :=
  ∀ ty sk id raw c, state !! (ty, sk) = Some id → load_raw store id = Ok (Some raw) →
    obj_prop raw "content" = Some c → ∃ ev, view ty sk = Some ev ∧ content ev = c.

Lemma joined_seen view state u :
  sees view state → joined store state u → membership view u = "join"%string.
Proof.
  unfold joined, membership_in, state_event_content, membership. intros Hs.
  destruct (state !! _) as [id|] eqn:Hid; [|done].
  destruct (load_raw store id) as [[raw|]|] eqn:Hl; [|done..]. cbn.
  unfold content_str. destruct (obj_prop raw "content") as [c|] eqn:Hc; [|done]. intros [= H].
  destruct (Hs _ _ _ _ _ Hid Hl Hc) as (ev & -> & <-). simpl. cbn in H. by destruct (str_prop (content ev) _).
Qed.

(** C30 (refinement): the server only vouches for joins that the authorisation
    rules let through.  When it authorises [joiner] in the name of [u], then a
    join by [joiner] that names [u] passes the rules for joins on any view of
    the room's current state, at the levels of that state, unless the joiner
    is banned. *)
Theorem vouched_join_allowed room_id joiner u m v state power view ev create :
  restricted_join_authoriser store peers our_name room_id joiner = Ok (Authorised u) →
  meta store room_id = Ok (Some m) → CoreEvent.parse (rm_version m) = Some v →
  current_state_of store room_id m = Ok state → power_of store v state = Ok power →
  sees view state → sender ev = joiner →
  str_prop (content ev) "join_authorised_via_users_server" = Some u →
  membership view joiner ≠ "ban"%string →
  check_join v ev create view power joiner (membership view joiner)
    (default "invite"%string (opt_prop (view "m.room.join_rules"%string EmptyString) "join_rule")) = Ok ().
Proof.
  intros Hr Hm Hv Hst Hp Hsees Hsend Hu Hban.
  assert (Hsplit : ∃ m v state rules, restricted_for room_id joiner m v state rules ∧
    verdict joiner v state rules (Authorised u)).
  { by destruct (restricted_decides _ _ _ Hr) as [[? _]|?]. }
  destruct Hsplit as (m' & v' & state' & rules & [Hm' Hv' Hst' (jr & Hjr & Hrules) Hrule _] & _ & power' & Hp' & Hg & _).
  assert (m' = m) as -> by congruence. assert (v' = v) as -> by congruence.
  assert (state' = state) as -> by congruence. assert (power' = power) as -> by congruence.
  destruct Hg as (_ & Hlocal & Hj & Hsat).
  assert (Hview : default "invite"%string (opt_prop (view "m.room.join_rules"%string EmptyString) "join_rule")
    = default "invite"%string (str_prop rules "join_rule")).
  { unfold state_event_content in Hjr. destruct (state !! _) as [id|] eqn:Hid; [|done].
    by destruct (Hsees _ _ _ _ _ Hid Hjr Hrules) as (jev & -> & <-). }
  rewrite Hview. unfold check_join. destruct (_ && _); [done|].
  rewrite Hsend, bool_decide_eq_true_2 by done. cbn [negb].
  rewrite bool_decide_eq_false_2 by done. unfold mem_is.
  rewrite (bool_decide_eq_false_2 (_ ∈ ["invite"; "knock"]%string)).
  2: { rewrite !elem_of_cons in Hrule |- *. rewrite elem_of_nil in Hrule |- *.
       destruct Hrule as [->|[->|[]]]; naive_solver. }
  rewrite (bool_decide_eq_true_2 (_ ∈ ["restricted"; "knock_restricted"]%string)) by done.
  case_bool_decide; [done|]. unfold check_restricted. rewrite Hu.
  unfold local_user in Hlocal. apply andb_true_iff in Hlocal as [-> _]. cbn [negb].
  rewrite (joined_seen view state u Hsees Hj), bool_decide_eq_true_2 by done. cbn [negb].
  by rewrite Hsat.
Qed.
End Restricted.
End Access.

(** ** Witnesses *)

From S2P Require Import Demo RoomDemo AuthDemo PipelineDemo RoomServeDemo.

Lemma absent_servers_see_redacted_witness :
  let store := ctx restricted_engine in
  ∃ m out, meta store demo_room = Ok (Some m) ∧ CoreEvent.parse (rm_version m) = Some V11 ∧
    filter_events_for_server store demo_room "b" [p_alice; p_talk] = Ok out ∧ out ≠ [p_alice; p_talk] ∧
    Forall2 (λ raw given, (hidden store demo_room "b" raw ∧ redact raw V11 = Ok given) ∨
      (¬ hidden store demo_room "b" raw ∧ given = raw)) [p_alice; p_talk] out.
Proof.
  intros store.
  destruct (meta store demo_room) as [[m|]|] eqn:Hm; [|vm_compute in Hm; discriminate..].
  destruct (filter_events_for_server store demo_room "b" [p_alice; p_talk]) as [out|] eqn:Hf;
    [|vm_compute in Hf; discriminate].
  assert (Hv : CoreEvent.parse (rm_version m) = Some V11)
    by (vm_compute in Hm; injection Hm as <-; reflexivity).
  exists m, out. split; [done|]. split; [exact Hv|]. split; [done|]. split.
  - vm_compute in Hf. injection Hf as <-. vm_compute. discriminate.
  - by apply (absent_servers_see_redacted store demo_room "b" _ m V11).
Defined.

Lemma restricted_join_verdict_witness :
  let store := ctx restricted_engine in
  restricted_join_authoriser store demo_peers "a" demo_room "@bob:b" = Ok (Authorised alice) ∧
  ∃ m v state rules, restricted_for store demo_room "@bob:b" m v state rules ∧
    verdict store demo_peers "a" "@bob:b" v state rules (Authorised alice).
Proof.
  intros store.
  assert (Hr : restricted_join_authoriser store demo_peers "a" demo_room "@bob:b" = Ok (Authorised alice))
    by (vm_compute; reflexivity).
  split; [exact Hr|]. by destruct (restricted_join_verdict _ _ _ _ _ _ Hr) as [[? _]|?].
Defined.

Lemma all_parse_sees store state : all_parse store state = true → sees store (view_at store state) state.
Proof.
  intros Hall ty sk id raw c Hid Hl Hc. unfold all_parse in Hall. rewrite forallb_forall in Hall.
  specialize (Hall ((ty, sk), id)). simpl in Hall. rewrite Hl in Hall.
  unfold view_at. rewrite Hid. simpl. rewrite Hl. simpl.
  destruct (event_of raw) as [ev|] eqn:Hev.
  - exists ev. split; [done|]. apply event_of_content in Hev. congruence.
  - discriminate Hall. by apply list_elem_of_In, elem_of_map_to_list.
Qed.

Lemma vouched_join_allowed_witness :
  let store := ctx restricted_engine in
  ∃ m state power ev, room_now store = Some (m, state, power) ∧ event_of p_vouched = Some ev ∧
    check_join V11 ev ev (view_at store state) power "@bob:b"
      (membership (view_at store state) "@bob:b")
      (default "invite"%string
        (opt_prop (view_at store state "m.room.join_rules"%string EmptyString) "join_rule")) = Ok ().
Proof.
  intros store.
  assert (Hsample : match room_now store with
    | Some (m, state, _) => bool_decide (CoreEvent.parse (rm_version m) = Some V11) &&
        all_parse store state && bool_decide (membership (view_at store state) "@bob:b" = "leave"%string)
    | None => false
    end = true) by (vm_compute; reflexivity).
  assert (Hauth : restricted_join_authoriser store demo_peers "a" demo_room "@bob:b" = Ok (Authorised alice))
    by (vm_compute; reflexivity).
  destruct (event_of p_vouched) as [ev|] eqn:Hev; [|vm_compute in Hev; discriminate Hev].
  assert (Hsender : sender ev = "@bob:b"%string ∧
    str_prop (content ev) "join_authorised_via_users_server" = Some alice).
  { vm_compute in Hev. injection Hev as <-. vm_compute. auto. }
  clearbody store. destruct (room_now store) as [[[m state] power]|] eqn:Hnow; [|discriminate Hsample].
  apply andb_true_iff in Hsample as [[Hv Hall]%andb_true_iff Hmem].
  apply bool_decide_eq_true in Hv, Hmem.
  destruct (room_now_spec _ _ _ _ Hnow) as (Hmeta & Hst & Hp). destruct Hsender as [Hs Hu].
  exists m, state, power, ev. split; [reflexivity|]. split; [reflexivity|].
  apply (vouched_join_allowed store demo_peers "a" demo_room "@bob:b" alice m V11 state power
    (view_at store state) ev ev); try assumption.
  - by apply all_parse_sees.
  - rewrite Hmem. discriminate.
Defined.
