(* ===== verification/RoomImportSpec.v ===== *)
(** * Imports, before they are proposed (saltator-roomserver/src/lib.rs)

    A segment's snapshot admits an event only when everything behind it is
    fetched or stored; the state given for an event. *)

From S2P Require Import Prelude Bytes Order Store Codec Json Shard RoomTypes RoomMachine RoomRead.
From S2P Require Import CoreEvent PowerLevels Auth Acl StateRes Pdu Pipeline PipelineFacts RoomCells.
From S2P Require Import RoomServe RoomJoin RoomServeSpec.
From stdpp Require Import options.

Local Open Scope N_scope.

(** ** The verdicts of a segment import *)

Lemma set_fold_true (s : gset string) (m : gmap string bool) x :
  set_fold (λ id m, <[id := true]> m) m s !! x = if decide (x ∈ s) then Some true else m !! x.
Proof.
  set (P := λ (r : gmap string bool) (s : gset string),
    r !! x = if decide (x ∈ s) then Some true else m !! x).
  apply (set_fold_ind_L P); unfold P; clear P.
  - by rewrite decide_False by set_solver.
  - intros id s' r Hid IH. destruct (decide (x = id)) as [->|Hne].
    + by rewrite lookup_insert_eq, decide_True by set_solver.
    + rewrite lookup_insert_ne, IH by done. destruct (decide (x ∈ s')).
      * by rewrite decide_True by set_solver.
      * by rewrite decide_False by set_solver.
Qed.

Section Verdict.
Context `{RC : RoomCodecs, JT : JsonText}.
Context (store : ReadCtx) (fetched : gmap string (list string)).

Definition cites (id : string) : list string := default [] (fetched !! id).

(** In this fetch, or ours already. *)
Definition present (id : string) : Prop :=
  is_Some (fetched !! id) ∨ ∃ ev, event store id = Ok (Some ev).

(** Everything behind an event is present. *)
Definition resolves (id : string) : Prop := ∀ x, reachable cites (eq id) x → present x.

Lemma resolves_present id : resolves id → present id.
Proof. intros H. apply H. by constructor. Qed.

Lemma resolves_reached id x : resolves id → reachable cites (eq id) x → resolves x.
Proof.
  intros H Hx y Hy. apply H. induction Hy as [? <-|a b _ IH Hb]; [done|]. by eapply reach_step.
Qed.

Definition verdicts_ok (verdict : gmap string bool) : Prop :=
  ∀ x b, verdict !! x = Some b → b = true ↔ resolves x.

Lemma verdicts_insert verdict x b :
  verdicts_ok verdict → (b = true ↔ resolves x) → verdicts_ok (<[x := b]> verdict).
Proof. intros H Hb y b'. rewrite lookup_insert_Some. intros [[<- <-]|[_ ?]]; [done|by apply H]. Qed.

Record resolve_inv (seed : string) (s : VerdictState) : Prop := {
  ri_verdicts : verdicts_ok s.2;
  ri_seed : seed ∈ s.1.2 ∨ seed ∈ s.1.1 ∨ resolves seed;
  ri_present x : x ∈ s.1.2 → present x;
  ri_closed x y : x ∈ s.1.2 → y ∈ cites x → y ∈ s.1.2 ∨ y ∈ s.1.1 ∨ resolves y;
  ri_pending x : x ∈ s.1.1 → reachable cites (eq seed) x;
}.

Definition resolve_lt : VerdictState → VerdictState → Prop :=
  lex2 (λ s, size ((dom fetched ∪ names store) ∖ s.1.2)) (λ s, length s.1.1).

(** The walk over: whatever it visited resolves. *)
Lemma visited_resolve seed visiting verdict x :
  resolve_inv seed ([], visiting, verdict) → x ∈ visiting → resolves x.
Proof.
  intros [_ _ Hp Hc _] Hx y Hy. cbn [fst snd] in *.
  assert (y ∈ visiting ∨ resolves y) as [?|?%resolves_present]; [|by apply Hp|done].
  induction Hy as [? <-|a b _ IH Hb]; [by left|]. destruct IH as [IH|IH].
  - destruct (Hc a b IH Hb) as [?|[?|?]]; [by left|set_solver|by right].
  - right. apply (resolves_reached a); [done|]. eapply reach_step; [by constructor|done].
Qed.

Lemma resolvable_step_ok seed s :
  resolve_inv seed s →
  match resolvable_step store fetched seed s with
  | inl s' => resolve_inv seed s' ∧ resolve_lt s' s
  | inr (b, verdict) => verdicts_ok verdict ∧ (b = true ↔ resolves seed)
  end.
Proof.
  destruct s as [[pending visiting] verdict]. intros Hinv. unfold resolvable_step.
  destruct pending as [|id pending].
  { assert (Hall := λ x, visited_resolve _ _ _ x Hinv). destruct Hinv as [Hv Hseed _ _ _]. cbn [fst snd] in *.
    split.
    - intros x b. rewrite set_fold_true. case_decide as Hx; [|by apply Hv].
      intros [= <-]. split; [by intros _; apply Hall|done].
    - split; [|done]. intros _. destruct Hseed as [?|[?|?]]; [by apply Hall|set_solver|done]. }
  destruct Hinv as [Hv Hseed Hp Hc Hr]. cbn [fst snd] in *.
  assert (Hid : reachable cites (eq seed) id) by (apply Hr; by left).
  assert (Hfail : ∀ verdict', verdicts_ok verdict' → ¬ resolves id →
    verdicts_ok (<[seed := false]> verdict') ∧ (false = true ↔ resolves seed)).
  { intros verdict' Hv' Hno. assert (false = true ↔ resolves seed) as Hs.
    { split; [done|]. intros Hs. destruct Hno. by eapply resolves_reached. }
    split; [|done]. by apply verdicts_insert. }
  case_bool_decide as Hfalse.
  { apply Hfail; [done|]. intros H. apply Hv in Hfalse. by apply Hfalse in H. }
  destruct (is_some (verdict !! id) || bool_decide (id ∈ visiting)) eqn:Hseen.
  - split; [|right; simpl; lia].
    assert (Hdone : id ∈ visiting ∨ resolves id).
    { apply orb_true_iff in Hseen as [Hs|Hs%bool_decide_eq_true]; [right|by left].
      destruct (verdict !! id) as [[]|] eqn:Hvd; [|done..]. by apply Hv in Hvd as [Hvd _]; apply Hvd. }
    split; cbn [fst snd]; [done| |done| |].
    + rewrite elem_of_cons in Hseed. naive_solver.
    + intros x y Hx Hy. specialize (Hc x y Hx Hy). rewrite elem_of_cons in Hc. naive_solver.
    + intros x Hx. apply Hr. by right.
  - apply orb_false_iff in Hseen as [Hnv Hnvis%bool_decide_eq_false].
    destruct (fetched !! id) as [refs|] eqn:Hf.
    + assert (Hcites : cites id = refs) by (unfold cites; by rewrite Hf).
      split.
      * split; cbn [fst snd]; [done| | | |].
        -- rewrite elem_of_cons in Hseed. rewrite elem_of_app. set_solver.
        -- intros x [->%elem_of_singleton|Hx]%elem_of_union; [left; by eexists|by apply Hp].
        -- intros x y [->%elem_of_singleton|Hx]%elem_of_union Hy; rewrite elem_of_app, elem_of_rev.
           ++ right. left. left. congruence.
           ++ specialize (Hc x y Hx Hy). rewrite elem_of_cons in Hc. set_solver.
        -- intros x. rewrite elem_of_app, elem_of_rev. intros [Hx|Hx]; [|apply Hr; by right].
           eapply reach_step; [exact Hid|congruence].
      * left. cbn [fst snd]. apply subset_size. apply elem_of_dom_2 in Hf. set_solver.
    + destruct (event store id) as [[ev|]|] eqn:Hev.
      * assert (Hpres : present id) by (right; by eexists).
        assert (Hres : resolves id).
        { intros x Hx. assert (x = id) as ->; [|done]. clear -Hx Hf.
          induction Hx as [? <-|a b _ IH Hb]; [done|]. subst a. unfold cites in Hb. rewrite Hf in Hb. set_solver. }
        split.
        -- split; cbn [fst snd].
           ++ by apply verdicts_insert.
           ++ rewrite elem_of_cons in Hseed. set_solver.
           ++ intros x [->%elem_of_singleton|Hx]%elem_of_union; [done|by apply Hp].
           ++ intros x y [->%elem_of_singleton|Hx]%elem_of_union Hy.
              ** unfold cites in Hy. rewrite Hf in Hy. set_solver.
              ** specialize (Hc x y Hx Hy). rewrite elem_of_cons in Hc. set_solver.
           ++ intros x Hx. apply Hr. by right.
        -- left. cbn [fst snd]. apply subset_size. apply event_named in Hev. set_solver.
      * apply Hfail; [apply verdicts_insert; [done|]|].
        all: assert (¬ resolves id) by (intros [[? ?]|[? ?]]%resolves_present; congruence).
        { split; [done|]. intros ?; contradiction. } done.
      * apply Hfail; [apply verdicts_insert; [done|]|].
        all: assert (¬ resolves id) by (intros [[? ?]|[? ?]]%resolves_present; congruence).
        { split; [done|]. intros ?; contradiction. } done.
Qed.

Lemma resolvable_exact verdict seed :
  verdicts_ok verdict →
  ∃ n b verdict', (∀ fuel, (n ≤ fuel)%nat → resolvable store fetched fuel verdict seed = Some (b, verdict')) ∧
    verdicts_ok verdict' ∧ (b = true ↔ resolves seed).
Proof.
  intros Hv. assert (Hstart : resolve_inv seed ([seed], ∅, verdict)).
  { split; cbn [fst snd]; [done|right; left; by left|set_solver|set_solver|].
    intros x ->%list_elem_of_singleton. by constructor. }
  destruct (loop_total (resolvable_step store fetched seed) resolve_lt (resolve_inv seed) ([seed], ∅, verdict))
    as (n & [b verdict'] & Hn).
  - apply lex2_wf.
  - intros s s' Hs Hb. pose proof (resolvable_step_ok seed s Hs) as H. by rewrite Hb in H.
  - done.
  - exists n, b, verdict'. split; [exact Hn|].
    apply (loop_inv (resolvable_step store fetched seed) (resolve_inv seed)
      (λ r, verdicts_ok r.2 ∧ (r.1 = true ↔ resolves seed)) n ([seed], ∅, verdict) (b, verdict'));
      [| |done|by apply Hn].
    + intros s s' Hs Hb. pose proof (resolvable_step_ok seed s Hs) as H. rewrite Hb in H. by destruct H.
    + intros s [b' v'] Hs Hb. pose proof (resolvable_step_ok seed s Hs) as H. by rewrite Hb in H.
Qed.
End Verdict.

(** ** The snapshot *)

Section Snapshot.
Context `{RC : RoomCodecs, JT : JsonText, SJ : SerdeJson, RU : Ruma, EC : EventCrypto}.
Context (store : ReadCtx) (fetched : gmap string (list string)) (v : RoomVersion).

(** An event that can be imported and has everything behind it present. *)
Definition admitted (obj : json_object) (id : string) : Prop :=
  (∃ ev, import_event v obj = Ok ev ∧ ie_event_id ev = id) ∧ resolves store fetched id.

(** What is left of a list once every other event is dropped. *)
Inductive screened : list json_object → list (json_object * string) → Prop :=
  | screened_nil : screened [] []
  | screened_in obj id objs kept :
      admitted obj id → screened objs kept → screened (obj :: objs) ((obj, id) :: kept)
  | screened_out obj objs kept :
      (∀ id, ¬ admitted obj id) → screened objs kept → screened (obj :: objs) kept.

(** The state that a list of events sets out: the last entry at each key. *)
Definition put_all (m : StateIds) (kept : list (json_object * string)) : StateIds :=
  foldl (λ m x, put_entry x.1 x.2 m) m kept.

Definition of_state (objs : list (bool * json_object)) : list json_object :=
  omap (λ x, if (x.1 : bool) then Some x.2 else None) objs.

(** Events of an import, each once. *)
Definition imports (events : list ImportEvent) (objs : list (bool * json_object))
    (events' : list ImportEvent) : Prop :=
  NoDup (ie_event_id <$> events') ∧
  (∀ id, id ∈ ie_event_id <$> events' ↔
     id ∈ ie_event_id <$> events ∨ ∃ b obj, (b, obj) ∈ objs ∧ admitted obj id) ∧
  ∀ ev, ev ∈ events' → ev ∈ events ∨ ∃ b obj, (b, obj) ∈ objs ∧ import_event v obj = Ok ev.

Lemma imports_none events obj objs events' b :
  (∀ id, ¬ admitted obj id) → imports events objs events' → imports events ((b, obj) :: objs) events'.
Proof.
  intros Hno (Hd & Hids & Hev). split_and!; [done| |].
  - intros id. rewrite Hids. setoid_rewrite elem_of_cons. split; [naive_solver|].
    intros [?|(b' & o & [[= -> ->]|?] & Ha)]; [by left|by destruct (Hno id)|right; by exists b', o].
  - intros ev [?|(b' & o & ? & ?)]%Hev; [by left|right]. exists b', o. split; [by right|done].
Qed.

Lemma imports_one events obj objs events' b ev :
  import_event v obj = Ok ev → resolves store fetched (ie_event_id ev) →
  imports (if decide (ie_event_id ev ∈ ie_event_id <$> events) then events else events ++ [ev]) objs events' →
  imports events ((b, obj) :: objs) events'.
Proof.
  intros Hi Hr (Hd & Hids & Hev). set (id0 := ie_event_id ev) in *.
  assert (Ha : ∀ id, admitted obj id ↔ id = id0).
  { intros id. split; [intros [(ev' & He & <-) _]; by assert (ev' = ev) as -> by congruence|]. intros ->. split; [by exists ev|done]. }
  assert (Hmem : ∀ id, id ∈ ie_event_id <$>
      (if decide (id0 ∈ ie_event_id <$> events) then events else events ++ [ev]) ↔
    id ∈ ie_event_id <$> events ∨ id = id0).
  { intros id. case_decide as Hin; [|rewrite fmap_app, elem_of_app; simpl; set_solver].
    split; [by left|]. by intros [?| ->]. }
  split_and!; [done| |].
  - intros id. rewrite Hids, Hmem. setoid_rewrite elem_of_cons. split.
    + intros [[?| ->]|(b' & o & ? & ?)]; [by left|right; exists b, obj; split; [by left|by apply Ha]|].
      right. exists b', o. split; [by right|done].
    + intros [?|(b' & o & [[= -> ->]|?] & Hadm)]; [by left; left| |right; by exists b', o].
      left. right. by apply Ha.
  - intros ev' [Hin|(b' & o & ? & ?)]%Hev.
    + case_decide; [by left|]. apply elem_of_app in Hin as [?| ->%list_elem_of_singleton]; [by left|].
      right. exists b, obj. split; [by left|done].
    + right. exists b', o. split; [by right|done].
Qed.

Lemma imports_nil events : NoDup (ie_event_id <$> events) → imports events [] events.
Proof. intros Hd. split_and!; [done|set_solver|by left]. Qed.

Lemma snapshot_exact objs verdict events seen state_map :
  verdicts_ok store fetched verdict → (∀ id, id ∈ seen ↔ id ∈ ie_event_id <$> events) →
  NoDup (ie_event_id <$> events) →
  ∃ n events' kept,
    (∀ fuel, (n ≤ fuel)%nat → snapshot store fetched fuel v objs verdict events seen state_map =
       Some (events', put_all state_map kept)) ∧
    imports events objs events' ∧ screened (of_state objs) kept.
Proof.
  revert verdict events seen state_map. induction objs as [|[b obj] objs IH];
    intros verdict events seen state_map Hv Hseen Hd; cbn [snapshot].
  { exists 0%nat, events, []. split_and!; [done|by apply imports_nil|constructor]. }
  assert (Hdrop : ∀ kept, (∀ id, ¬ admitted obj id) → screened (of_state objs) kept →
    screened (of_state ((b, obj) :: objs)) kept).
  { intros kept Hno Hk. unfold of_state. simpl. destruct b; [by constructor|done]. }
  destruct (import_event v obj) as [ev|x] eqn:Hi.
  2: { destruct (IH verdict events seen state_map Hv Hseen Hd) as (n & events' & kept & Hn & He & Hk).
       assert (∀ id, ¬ admitted obj id) as Hno by (intros id [(ev & Hev & _) _]; congruence).
       exists n, events', kept. split_and!; [done|by apply imports_none|by apply Hdrop]. }
  destruct (resolvable_exact store fetched verdict (ie_event_id ev) Hv) as (n1 & ok & verdict' & Hn1 & Hv' & Hok).
  destruct ok.
  - assert (Hr : resolves store fetched (ie_event_id ev)) by (by apply Hok).
    set (state1 := if b then put_entry obj (ie_event_id ev) state_map else state_map).
    set (events1 := if decide (ie_event_id ev ∈ ie_event_id <$> events) then events else events ++ [ev]).
    set (seen1 := {[ie_event_id ev]} ∪ seen).
    assert (Hseen1 : ∀ id, id ∈ seen1 ↔ id ∈ ie_event_id <$> events1).
    { intros id. unfold seen1, events1. rewrite elem_of_union, elem_of_singleton, Hseen.
      case_decide; [|rewrite fmap_app, elem_of_app; simpl; set_solver]. split; [by intros [->|?]|by right]. }
    assert (Hd1 : NoDup (ie_event_id <$> events1)).
    { unfold events1. case_decide; [done|]. rewrite fmap_app. apply list.NoDup_app. split; [done|].
      split; [set_solver|apply NoDup_singleton]. }
    destruct (IH verdict' events1 seen1 state1 Hv' Hseen1 Hd1) as (n2 & events' & kept & Hn2 & He & Hk).
    exists (n1 `max` n2)%nat, events', (if b then (obj, ie_event_id ev) :: kept else kept).
    split_and!.
    + intros fuel Hf. rewrite Hn1 by lia. cbn [mbind option_bind negb].
      assert (put_all state_map (if b then (obj, ie_event_id ev) :: kept else kept) = put_all state1 kept) as ->
        by (by unfold put_all, state1; destruct b).
      case_bool_decide as Hin.
      * rewrite <- (Hn2 fuel) by lia. unfold events1. rewrite decide_True by (by apply Hseen).
        assert (seen1 = seen) as -> by (unfold seen1; set_solver). done.
      * rewrite <- (Hn2 fuel) by lia. unfold events1. rewrite decide_False by (by rewrite <- Hseen). done.
    + by eapply imports_one.
    + unfold of_state. simpl. destruct b; [|done]. constructor; [|done]. split; [by exists ev|done].
  - destruct (IH verdict' events seen state_map Hv' Hseen Hd) as (n2 & events' & kept & Hn2 & He & Hk).
    assert (∀ id, ¬ admitted obj id) as Hno.
    { intros id [(ev' & Hev & <-) Hr]. assert (ev' = ev) as -> by congruence. by apply Hok in Hr. }
    exists (n1 `max` n2)%nat, events', kept. split_and!; [|by apply imports_none|by apply Hdrop].
    intros fuel Hf. rewrite Hn1 by lia. cbn [mbind option_bind negb]. apply Hn2. lia.
Qed.
End Snapshot.

Section Segment.
Context `{RC : RoomCodecs, JT : JsonText, SJ : SerdeJson, RU : Ruma, EC : EventCrypto}.
Context (store : ReadCtx).

(** What the command of a segment holds. *)
Definition vouched_segment (room_id : string) (state auth_chain chain : list json_object)
    (cmd : ImportSegment) : Prop :=
  ∃ m v kept, meta store room_id = Ok (Some m) ∧ CoreEvent.parse (rm_version m) = Some v ∧
    let fetched := fetched_auth_of v (auth_chain ++ state ++ chain) in
    screened store fetched v state kept ∧
    RoomTypes.is_state cmd = state_rows (put_all ∅ kept) ∧
    NoDup (ie_event_id <$> is_events cmd) ∧
    (∀ id, id ∈ ie_event_id <$> is_events cmd ↔
       ∃ obj, obj ∈ auth_chain ++ state ∧ admitted store fetched v obj id) ∧
    ∀ ev, ev ∈ is_events cmd → resolves store fetched (ie_event_id ev).

Lemma of_state_tagged (auth_chain state : list json_object) :
  of_state (((λ o, (false, o)) <$> auth_chain) ++ ((λ o, (true, o)) <$> state)) = state.
Proof.
  unfold of_state. rewrite omap_app. induction auth_chain as [|o l IH]; [simpl|done].
  induction state as [|o l IH]; simpl; [done|]. by f_equal.
Qed.

Lemma tagged_elem (auth_chain state : list json_object) obj :
  (∃ b, (b, obj) ∈ ((λ o, (false, o)) <$> auth_chain) ++ ((λ o, (true, o)) <$> state)) ↔
  obj ∈ auth_chain ++ state.
Proof.
  rewrite elem_of_app. setoid_rewrite elem_of_app. setoid_rewrite list_elem_of_fmap. split.
  - intros [b [(o & [= -> ->] & ?)|(o & [= -> ->] & ?)]]; auto.
  - intros [?|?]; [exists false; left|exists true; right]; by exists obj.
Qed.

(** Of the state and the auth chain fetched for a segment, exactly
    the events are taken whose whole transitive auth chain is in the fetch or
    stored already; whatever crosses a hole is dropped, from the events and
    from the state alike, and each key of the state goes to its last remaining
    entry of the state list, never to one of the auth chain.  The screening
    ends on any fetch, cyclic references included. *)
Theorem segment_screens_state room_id state auth_chain chain :
  ∃ n r, (∀ fuel, (n ≤ fuel)%nat →
      segment_command fuel store room_id state auth_chain chain = Some r) ∧
    ∀ cmd, r = Ok cmd → vouched_segment room_id state auth_chain chain cmd.
Proof.
  unfold segment_command, vouched_segment.
  destruct (meta store room_id) as [[m|]|x] eqn:Hm; cbn [storage_err map_err ok_or];
    [|by exists 0%nat, (Err Malformed)|by exists 0%nat, (Err (Storage x))].
  destruct (CoreEvent.parse (rm_version m)) as [v|] eqn:Hv; cbn [ok_or];
    [|by exists 0%nat, (Err Version)].
  set (fetched := fetched_auth_of v _). set (objs := ((λ o, (false, o)) <$> auth_chain) ++ _).
  destruct (snapshot_exact store fetched v objs ∅ [] ∅ ∅) as (n & events & kept & Hn & (Hd & Hids & _) & Hk);
    [by intros ? ?; rewrite lookup_empty|set_solver|constructor|].
  assert (Hadm : ∀ id, id ∈ ie_event_id <$> events ↔
    ∃ obj, obj ∈ auth_chain ++ state ∧ admitted store fetched v obj id).
  { intros id. rewrite Hids. setoid_rewrite <- tagged_elem. fold objs. split.
    - intros [?|(b & obj & ? & ?)]; [set_solver|]. exists obj. split; [by exists b|done].
    - intros (obj & [b ?] & ?). right. by exists b, obj. }
  eexists n, _. split.
  - intros fuel Hf. rewrite Hn by done. reflexivity.
  - intros cmd [= <-]. cbn [RoomTypes.is_state is_events]. exists m, v, kept.
    unfold objs in Hk. rewrite of_state_tagged in Hk. split_and!; try done.
    intros ev Hev. assert (ie_event_id ev ∈ ie_event_id <$> events) as (obj & _ & _ & Hr)%Hadm; [|done].
    by apply list_elem_of_fmap_2.
Qed.
End Segment.

(** ** The state before an event *)

Section Before.
Context `{RC : RoomCodecs, JT : JsonText, SJ : SerdeJson, RU : Ruma, EC : EventCrypto}.
Context (store : ReadCtx).

(** The state given as that before a state event is the
    recorded state with the event's own entry put back to what its auth events
    hold at that key.  It is the state before the event exactly when they hold
    what stood there: an entry that the event does not cite, a topic or a name,
    is lost, whether the event replaced it or was rejected and did not. *)
Theorem state_before_only_by_auth room_id event_id stored raw ty sk after before prev :
  event store event_id = Ok (Some stored) → se_state_group_after stored ≠ 0 →
  from_slice (se_raw stored) = Some raw → vprop "room_id" raw = Some room_id →
  vprop "type" raw = Some ty → vprop "state_key" raw = Some sk →
  room_state store room_id (se_state_group_after stored) = Ok after →
  (∀ k, k ≠ (ty, sk) → after !! k = before !! k) →
  superseded store (vstrings "auth_events" raw) ty sk = Ok prev →
  ∃ given, state_ids_before store room_id event_id = Ok (Some given) ∧
    given !! (ty, sk) = prev ∧ (∀ k, k ≠ (ty, sk) → given !! k = before !! k) ∧
    (given = before ↔ before !! (ty, sk) = prev).
Proof.
  intros Hev Hg Hraw Hroom Hty Hsk Hst Hafter Hsup. unfold state_ids_before. rewrite Hev. cbn [storage_err map_err].
  rewrite (proj2 (N.eqb_neq _ _) Hg), Hraw. cbn [ok_or]. rewrite bool_decide_eq_false_2 by (by intros []).
  rewrite Hst. unfold back_out. rewrite Hty, Hsk, Hsup.
  set (given := match prev with Some p => _ | None => _ end). exists given. split; [done|].
  assert (Hkey : given !! (ty, sk) = prev).
  { unfold given. destruct prev; [by rewrite lookup_insert_eq|by rewrite lookup_delete_eq]. }
  assert (Hrest : ∀ k, k ≠ (ty, sk) → given !! k = before !! k).
  { intros k Hne. unfold given.
    destruct prev; [rewrite lookup_insert_ne by congruence|rewrite lookup_delete_ne by congruence]; by apply Hafter. }
  split_and!; [done|done|]. split; [by intros Hgb; rewrite <- Hgb|]. intros Hb. apply map_eq. intros k.
  destruct (decide (k = (ty, sk))) as [->|Hne]; [congruence|by apply Hrest].
Qed.
End Before.

(** ** Witnesses *)

From S2P Require Import Demo RoomDemo AuthDemo PipelineDemo RoomServeDemo.

(** Alice changes the topic: the state given as that before the change has no
    topic, though it had one. *)
Lemma state_before_only_by_auth_witness :
  let store := ctx retopic_engine in
  ∃ stored raw before given, event store "$topic2" = Ok (Some stored) ∧
    from_slice (se_raw stored) = Some raw ∧
    before !! ("m.room.topic"%string, EmptyString) = Some "$topic"%string ∧
    state_ids_before store demo_room "$topic2" = Ok (Some given) ∧
    given !! ("m.room.topic"%string, EmptyString) = None ∧ given ≠ before.
Proof.
  intros store.
  assert (Hsample : match event store "$topic2" with
    | Ok (Some stored) =>
        match from_slice (se_raw stored), room_state store demo_room (se_state_group_after stored) with
        | Some raw, Ok after =>
            negb (se_state_group_after stored =? 0) &&
            bool_decide (vprop "room_id" raw = Some demo_room) &&
            bool_decide (vprop "type" raw = Some "m.room.topic"%string) &&
            bool_decide (vprop "state_key" raw = Some EmptyString) &&
            bool_decide (after !! ("m.room.topic"%string, EmptyString) = Some "$topic2"%string) &&
            match superseded store (vstrings "auth_events" raw) "m.room.topic" EmptyString with
            | Ok None => true | _ => false end
        | _, _ => false
        end
    | _ => false
    end = true) by (vm_compute; reflexivity).
  clearbody store. destruct (event store "$topic2") as [[stored|]|] eqn:Hev; try discriminate Hsample.
  destruct (from_slice (se_raw stored)) as [raw|] eqn:Hraw; [|discriminate Hsample].
  destruct (room_state store demo_room (se_state_group_after stored)) as [after|] eqn:Hst; [|discriminate Hsample].
  rewrite !andb_true_iff, !bool_decide_eq_true in Hsample.
  destruct Hsample as [[[[[Hg Hroom] Hty] Hsk] Hafter] Hsup].
  destruct (superseded _ _ _ _) as [[|]|] eqn:Hs; try discriminate Hsup.
  set (before := <[("m.room.topic"%string, EmptyString) := "$topic"%string]> after).
  assert (Hb : ∀ k, k ≠ ("m.room.topic"%string, EmptyString) → after !! k = before !! k).
  { intros k Hk. unfold before. by rewrite lookup_insert_ne. }
  apply negb_true_iff, N.eqb_neq in Hg.
  destruct (state_before_only_by_auth store demo_room "$topic2" stored raw "m.room.topic" EmptyString
    after before None Hev Hg Hraw Hroom Hty Hsk Hst Hb Hs) as (given & Hgiven & Hnone & _ & Hiff).
  exists stored, raw, before, given. split_and!; try done.
  - unfold before. by rewrite lookup_insert_eq.
  - intros Heq. apply Hiff in Heq. unfold before in Heq. by rewrite lookup_insert_eq in Heq.
Defined.

(** Bob's second leave is rejected by the state; asked for the state before it,
    the server gives one in which he is still joined. *)
Example rejected_event_reverts :
  let store := ctx refused_engine in
  let bob := ("m.room.member"%string, "@bob:b"%string) in
  match event store "$again", meta store demo_room, state_ids_before store demo_room "$again" with
  | Ok (Some stored), Ok (Some m), Ok (Some given) =>
      match se_rejected stored, current_state_of store demo_room m with
      | Some (RejState _), Ok now =>
          bool_decide (now !! bob = Some "$left"%string) && bool_decide (given !! bob = Some "$bob"%string)
      | _, _ => false
      end
  | _, _, _ => false
  end = true.
Proof. vm_compute. reflexivity. Qed.
