(* ===== verification/RoomHeal.v ===== *)
(** * Healing of inbound events (saltator-roomserver/src/heal.rs)

    An event that cites what the server does not hold makes it ask the origin
    for the gap, for events by id, and for a state to anchor the gap on; holes
    that stay are settled as rejections.  The origin may answer anything. *)

From S2P Require Import Prelude Bytes Store Codec Json Shard RoomTypes RoomMachine RoomRead.
From S2P Require Import CoreEvent PowerLevels Auth Order StateRes Pdu Pipeline RoomServe RoomJoin RoomImportSpec.
From stdpp Require Import options.

Local Open Scope N_scope.

Definition GAP_FILL_LIMIT : N := 50.

(** The transport: what the origin answers to the n-th call, and what trusting
    servers' keys makes of the trusted set. *)
Record EventFetcher : Type := {
  ef_get_missing_events :
    nat → string → string → list string → string → N → result string (list json_object);
  ef_state_ids : nat → string → string → string → result string (list string * list string);
  ef_state : nat → string → string → string → result string (list json_object * list json_object);
  ef_event : nat → string → string → result string (option json_object);
  ef_trust_origin_keys : nat → string → PublicKeyMap → PublicKeyMap;
  ef_trust_event_servers : nat → list json_object → PublicKeyMap → PublicKeyMap;
}.

(** The room shard, the keys it trusts, and how many calls and proposals were
    made. *)
Record Healing : Type := {
  hl_engine : engine; hl_keys : PublicKeyMap; hl_calls : nat; hl_proposals : nat }.

(** A step of healing; [None] is running out of fuel. *)
Definition heal (A : Type) : Type := Healing → option (A * Healing).

#[export] Instance heal_ret : MRet heal := λ A a w, Some (a, w).
#[export] Instance heal_bind : MBind heal := λ A B f m w,
  match m w with Some (a, w') => f a w' | None => None end.

Section Heal.
Context `{RC : RoomCodecs, JT : JsonText, SJ : SerdeJson, RU : Ruma, EC : EventCrypto}.
Context `{HR : Raft}.
Context `{!Codec (option LogId), !Codec StoredMembership, !Codec N}.
Context `{!Codec RuntimeCommand, !Codec RuntimeResponse}.
Context (sid : ShardId) (next_id : engine → LogId) (fuel : nat) (raft : nat → raft_outcome).
Context (fetcher : EventFetcher).

Abbreviation local e := {| r_shard := sid; r_engine := e |}.

(** *** Steps *)

Definition call {A} (f : EventFetcher → nat → A) : heal A := λ w,
  Some (f fetcher (hl_calls w),
        {| hl_engine := hl_engine w; hl_keys := hl_keys w; hl_calls := S (hl_calls w);
           hl_proposals := hl_proposals w |}).

Definition trusting (f : EventFetcher → nat → PublicKeyMap → PublicKeyMap) : heal () := λ w,
  Some ((), {| hl_engine := hl_engine w; hl_keys := f fetcher (hl_calls w) (hl_keys w);
               hl_calls := S (hl_calls w); hl_proposals := hl_proposals w |}).

Definition reading {A} (f : ReadCtx → A) : heal A := λ w, Some (f (local (hl_engine w)), w).

Definition verified (room_id : string) (events : list json_object) : heal bool := λ w,
  Some (forallb (verify_pdu (hl_keys w) (local (hl_engine w)) room_id) events, w).

(** The shard moved on by a proposal. *)
Definition proposed (e : engine) (w : Healing) : Healing :=
  {| hl_engine := e; hl_keys := hl_keys w; hl_calls := hl_calls w;
     hl_proposals := S (hl_proposals w) |}.

Definition ingesting (fl : Flags) (raw : json_object) : heal (result RoomError Outcome) := λ w,
  let '(r, e) := ingest sid next_id fuel (hl_keys w) (raft (hl_proposals w)) fl raw (hl_engine w) in
  Some (r, proposed e w).

Definition rejecting : Flags := {| f_relay := false; f_reject_missing_auth := true; f_txn := None |}.

Definition importing (gas : nat) (room_id : string) (state auth_chain chain : list json_object) :
    heal (result RoomError N) := λ w,
  match import_segment sid next_id gas (raft (hl_proposals w)) room_id state auth_chain chain (hl_engine w) with
  | Some (r, e) => Some (r, proposed e w)
  | None => None
  end.

(** *** Events by id

    [queue] is popped at its end; the list has that end first. *)

Fixpoint fetch_walk (budget : nat) (origin : string) (queue : list string) (retried : gset string)
    (ingested : bool) : heal bool :=
  match queue, budget with
  | [], _ => mret ingested
  | _, O => mret ingested
  | id :: queue, S budget =>
      r ← call (λ f n, ef_event f n origin id);
      match r with
      | Ok (Some obj) =>
          r ← ingesting no_flags obj;
          let again more := fetch_walk budget origin (rev more ++ id :: queue) ({[id]} ∪ retried) ingested in
          match r with
          | Ok _ => fetch_walk budget origin queue retried true
          | Err (MissingEvents more) =>
              if bool_decide (id ∉ retried) then again more
              else fetch_walk budget origin queue retried ingested
          | Err (MissingAuthEvents more) =>
              if bool_decide (id ∉ retried) then again more
              else
                r ← ingesting rejecting obj;
                fetch_walk budget origin queue retried
                  (match r with Ok _ => true | Err _ => ingested end)
          | _ => fetch_walk budget origin queue retried ingested
          end
      | _ => fetch_walk budget origin queue retried ingested
      end
  end.

Definition fetch_missing_by_id (origin : string) (missing : list string) : heal bool :=
  trusting (λ f n, ef_trust_origin_keys f n origin);;
  fetch_walk (N.to_nat GAP_FILL_LIMIT) origin (rev missing) ∅ false.

(** *** The timeline gap *)

(** The recovered events, oldest first: how many the pipeline took, and
    whether one still misses what it cites. *)
Fixpoint ingest_chain (chain : list json_object) (ingested : N) (still_missing : bool) :
    heal (N * bool) :=
  match chain with
  | [] => mret (ingested, still_missing)
  | obj :: chain =>
      r ← ingesting no_flags obj;
      match r with
      | Ok (Accepted _ _) | Ok (Duplicate _) => ingest_chain chain (ingested + 1) still_missing
      | Err (MissingEvents _) | Err (MissingAuthEvents _) => ingest_chain chain ingested true
      | _ => ingest_chain chain ingested still_missing
      end
  end.

(** An event that is stored and parses, or what the origin serves. *)
Definition held_object (id : string) (store : ReadCtx) : option json_object :=
  match event store id with
  | Ok (Some stored) =>
      v ← from_slice (se_raw stored);
      match canonicalize v with Ok o => Some o | Err _ => None end
  | _ => None
  end.

Fixpoint resolve_ids (origin : string) (ids : list string) (out : list json_object) :
    heal (list json_object) :=
  match ids with
  | [] => mret out
  | id :: ids =>
      held ← reading (held_object id);
      match held with
      | Some obj => resolve_ids origin ids (out ++ [obj])
      | None =>
          r ← call (λ f n, ef_event f n origin id);
          resolve_ids origin ids (match r with Ok (Some obj) => out ++ [obj] | _ => out end)
      end
  end.

Definition fetch_state_by_ids (origin room_id event_id : string) :
    heal (option (list json_object * list json_object)) :=
  r ← call (λ f n, ef_state_ids f n origin room_id event_id);
  match r with
  | Err _ => mret None
  | Ok ([], _) => mret None
  | Ok (pdu_ids, auth_chain_ids) =>
      state ← resolve_ids origin pdu_ids [];
      auth_chain ← resolve_ids origin auth_chain_ids [];
      mret (match state with [] => None | _ => Some (state, auth_chain) end)
  end.

(** The first of the oldest event's [prev_events]. *)
Definition anchor_prev (oldest : json_object) : option string :=
  match obj_get "prev_events" oldest with Some (JArray (v :: _)) => as_str v | _ => None end.

Definition holds (id : string) (store : ReadCtx) : bool :=
  match event store id with Ok (Some _) => true | _ => false end.

(** The event between the snapshot and the chain, put before the chain. *)
Definition with_breach_event (origin room_id prev : string) (chain : list json_object) :
    heal (list json_object) :=
  held ← reading (holds prev);
  if (held : bool) then mret chain
  else
    r ← call (λ f n, ef_event f n origin prev);
    match r with
    | Ok (Some obj) =>
        trusting (λ f n, ef_trust_event_servers f n [obj]);;
        ok ← verified room_id [obj];
        mret (if (ok : bool) then obj :: chain else chain)
    | _ => mret chain
    end.

(** The snapshot to anchor on, and the chain that goes on top of it. *)
Definition anchor_snapshot (origin room_id anchor : string) (oldest : json_object)
    (chain : list json_object) :
    heal (option (list json_object * list json_object) * list json_object) :=
  match anchor_prev oldest with
  | Some prev =>
      snapshot ← fetch_state_by_ids origin room_id prev;
      match snapshot with
      | Some s => chain ← with_breach_event origin room_id prev chain; mret (Some s, chain)
      | None =>
          r ← call (λ f n, ef_state f n origin room_id anchor);
          mret (match r with Ok s => Some s | Err _ => None end, chain)
      end
  | None =>
      r ← call (λ f n, ef_state f n origin room_id anchor);
      mret (match r with Ok s => Some s | Err _ => None end, chain)
  end.

(** The origin truncated its answer: the chain hangs off a state snapshot. *)
Definition anchor_gap (gas : nat) (origin room_id : string) (chain : list json_object)
    (progress : bool) : heal bool :=
  match chain with
  | [] => mret progress
  | oldest :: _ =>
      anchor ← reading (λ store, pdu_event_id store oldest);
      match anchor with
      | None => mret progress
      | Some anchor =>
          '(snapshot, chain) ← anchor_snapshot origin room_id anchor oldest chain;
          match snapshot with
          | None | Some ([], _) => mret progress
          | Some (state, auth_chain) =>
              trusting (λ f n, ef_trust_event_servers f n (state ++ auth_chain));;
              all_verified ← verified room_id (state ++ auth_chain);
              if negb all_verified then mret progress
              else
                r ← importing gas room_id state auth_chain chain;
                mret (match r with Ok appended => (0 <? appended) || progress | Err _ => progress end)
          end
      end
  end.

Definition heal_gap (gas : nat) (origin : string) (pdu : json_object) : heal bool :=
  id ← reading (λ store, pdu_event_id store pdu);
  match id, json_str pdu "room_id" with
  | Some pdu_id, Some room_id =>
      r ← reading (λ store, room_extremities store room_id);
      match r with
      | Err _ | Ok [] => mret false
      | Ok earliest =>
          trusting (λ f n, ef_trust_origin_keys f n origin);;
          r ← call (λ f n, ef_get_missing_events f n origin room_id earliest pdu_id GAP_FILL_LIMIT);
          match r with
          | Err _ => mret false
          | Ok chain =>
              '(ingested, still_missing) ← ingest_chain chain 0 false;
              if negb still_missing then mret (0 <? ingested)
              else anchor_gap gas origin room_id chain (0 <? ingested)
          end
      end
  | _, _ => mret false
  end.

(** *** The loop *)

Fixpoint heal_loop (tries gas : nat) (origin : string) (raw : json_object)
    (tried_gap tried_auth : bool) : heal (result RoomError Outcome) :=
  match tries with
  | O => λ _, None
  | S tries =>
      r ← ingesting no_flags raw;
      match r with
      | Err (MissingEvents missing) =>
          if tried_gap then mret r
          else
            healed ← heal_gap gas origin raw;
            healed ← if (healed : bool) then mret true else fetch_missing_by_id origin missing;
            if (healed : bool) then heal_loop tries gas origin raw true tried_auth else mret r
      | Err (MissingAuthEvents missing) =>
          if tried_auth then ingesting rejecting raw
          else
            fetch_missing_by_id origin missing;;
            heal_loop tries gas origin raw tried_gap true
      | _ => mret r
      end
  end.

Definition ingest_pdu_healing (gas : nat) (origin : string) (raw : json_object) :
    heal (result RoomError Outcome) :=
  heal_loop 3 gas origin raw false false.

(** ** Whatever the origin answers

    A step of the room server towards [origin]: a call, a load of keys, the
    pipeline's verdict on one event, or a segment.  Verdicts and the check of a
    segment's state use the keys trusted at that point. *)

Inductive peer_step (origin : string) : Healing → Healing → Prop :=
| step_call w :
    peer_step origin w {| hl_engine := hl_engine w; hl_keys := hl_keys w;
      hl_calls := S (hl_calls w); hl_proposals := hl_proposals w |}
| step_trust_origin w :
    peer_step origin w {| hl_engine := hl_engine w;
      hl_keys := ef_trust_origin_keys fetcher (hl_calls w) origin (hl_keys w);
      hl_calls := S (hl_calls w); hl_proposals := hl_proposals w |}
| step_trust_servers events w :
    peer_step origin w {| hl_engine := hl_engine w;
      hl_keys := ef_trust_event_servers fetcher (hl_calls w) events (hl_keys w);
      hl_calls := S (hl_calls w); hl_proposals := hl_proposals w |}
| step_ingest fl raw w :
    fl = no_flags ∨ fl = rejecting →
    peer_step origin w (proposed
      (ingest sid next_id fuel (hl_keys w) (raft (hl_proposals w)) fl raw (hl_engine w)).2 w)
| step_segment gas room_id state auth_chain chain w r :
    forallb (verify_pdu (hl_keys w) (local (hl_engine w)) room_id) (state ++ auth_chain) = true →
    state ≠ [] →
    import_segment sid next_id gas (raft (hl_proposals w)) room_id state auth_chain chain (hl_engine w)
      = Some r →
    peer_step origin w (proposed r.2 w).

Section Follows.
Context (origin : string).

Definition follows {A} (m : heal A) : Prop := ∀ w a w',
  m w = Some (a, w') → rtc (peer_step origin) w w'.

Lemma follows_ret {A} (a : A) : follows (mret a).
Proof. by intros w ? ? [= <- <-]. Qed.

Lemma follows_bind {A B} (m : heal A) (f : A → heal B) :
  follows m → (∀ a, follows (f a)) → follows (m ≫= f).
Proof.
  intros Hm Hf w b w'. unfold mbind, heal_bind. destruct (m w) as [[a w1]|] eqn:Hw; [|done].
  intros Hb. trans w1; [by eapply Hm|by eapply Hf].
Qed.

Lemma follows_call {A} (f : EventFetcher → nat → A) : follows (call f).
Proof. intros w ? ? [= _ <-]. apply rtc_once. constructor. Qed.

Lemma follows_trust_origin : follows (trusting (λ f n, ef_trust_origin_keys f n origin)).
Proof. intros w ? ? [= _ <-]. apply rtc_once. constructor. Qed.

Lemma follows_trust_servers events : follows (trusting (λ f n, ef_trust_event_servers f n events)).
Proof. intros w ? ? [= _ <-]. apply rtc_once. constructor. Qed.

Lemma follows_reading {A} (f : ReadCtx → A) : follows (reading f).
Proof. by intros w ? ? [= <- <-]. Qed.

Lemma follows_verified room_id events : follows (verified room_id events).
Proof. by intros w ? ? [= <- <-]. Qed.

Lemma follows_ingesting fl raw : fl = no_flags ∨ fl = rejecting → follows (ingesting fl raw).
Proof.
  intros Hfl w r w'. unfold ingesting. destruct (ingest _ _ _ _ _ _ _ _) as [r' e] eqn:He.
  intros [= _ <-]. apply rtc_once. change e with (r', e).2. rewrite <- He. by constructor.
Qed.

(** A segment is imported after its snapshot was verified, with nothing in
    between. *)
Lemma follows_importing gas room_id state auth_chain chain w a w' :
  forallb (verify_pdu (hl_keys w) (local (hl_engine w)) room_id) (state ++ auth_chain) = true →
  state ≠ [] → importing gas room_id state auth_chain chain w = Some (a, w') →
  rtc (peer_step origin) w w'.
Proof.
  intros Hv Hs. unfold importing. destruct (import_segment _ _ _ _ _ _ _ _ _) as [[r e]|] eqn:Hi; [|done].
  intros [= _ <-]. apply rtc_once. change e with (r, e).2. by eapply step_segment.
Qed.

Ltac follow_step :=
  lazymatch goal with
  | |- follows (mret _) => apply follows_ret
  | |- follows (_ ≫= _) => apply follows_bind; [|intros ?]
  | |- follows (call _) => apply follows_call
  | |- follows (trusting _) => first [apply follows_trust_origin | apply follows_trust_servers]
  | |- follows (reading _) => apply follows_reading
  | |- follows (verified _ _) => apply follows_verified
  | |- follows (ingesting _ _) => apply follows_ingesting; by auto
  | |- follows (match ?x with _ => _ end) => destruct x
  end.

Lemma follows_fetch_walk budget queue retried ingested :
  follows (fetch_walk budget origin queue retried ingested).
Proof.
  revert queue retried ingested. induction budget as [|budget IH]; intros [|id queue] retried ingested;
    cbn [fetch_walk]; repeat first [follow_step | apply IH].
Qed.

Lemma follows_ingest_chain chain ingested still : follows (ingest_chain chain ingested still).
Proof.
  revert ingested still. induction chain as [|obj chain IH]; intros ingested still; cbn [ingest_chain];
    repeat first [follow_step | apply IH].
Qed.

Lemma follows_resolve_ids ids out : follows (resolve_ids origin ids out).
Proof.
  revert out. induction ids as [|id ids IH]; intros out; cbn [resolve_ids];
    repeat first [follow_step | apply IH].
Qed.

Lemma follows_fetch_missing missing : follows (fetch_missing_by_id origin missing).
Proof. unfold fetch_missing_by_id. repeat first [follow_step | apply follows_fetch_walk]. Qed.

Lemma follows_anchor_snapshot room_id anchor oldest chain :
  follows (anchor_snapshot origin room_id anchor oldest chain).
Proof.
  unfold anchor_snapshot, fetch_state_by_ids, with_breach_event.
  repeat first [follow_step | apply follows_resolve_ids].
Qed.

Lemma follows_anchor_gap gas room_id chain progress :
  follows (anchor_gap gas origin room_id chain progress).
Proof.
  unfold anchor_gap. destruct chain as [|oldest rest]; [apply follows_ret|].
  follow_step; [follow_step|]. destruct a as [anchor|]; [|follow_step].
  follow_step; [apply follows_anchor_snapshot|]. destruct a as [[[state auth_chain]|] chain]; [|follow_step].
  destruct state as [|s state]; [follow_step|]. follow_step; [follow_step|].
  intros w b w'. unfold mbind at 1, heal_bind at 1, verified.
  destruct (forallb _ _) eqn:Hv; cbn [negb]; [|by intros [= <- <-]].
  unfold mbind, heal_bind. destruct (importing _ _ _ _ _ w) as [[r w1]|] eqn:Hi; [|done].
  intros [= _ <-]. eapply follows_importing; [exact Hv|done|exact Hi].
Qed.

Lemma follows_heal_gap gas pdu : follows (heal_gap gas origin pdu).
Proof.
  unfold heal_gap. repeat first [follow_step | apply follows_ingest_chain | apply follows_anchor_gap].
Qed.

Lemma follows_heal_loop tries gas raw tried_gap tried_auth :
  follows (heal_loop tries gas origin raw tried_gap tried_auth).
Proof.
  revert tried_gap tried_auth. induction tries as [|tries IH]; intros tried_gap tried_auth; cbn [heal_loop];
    [by intros w|]. repeat first [follow_step | apply IH | apply follows_heal_gap | apply follows_fetch_missing].
Qed.

End Follows.

(** ** Healing ends *)

(** With enough gas, a result that no longer depends on it. *)
Definition total {A} (m : nat → heal A) : Prop := ∀ w, ∃ n r, ∀ gas, (n ≤ gas)%nat → m gas w = Some r.

Lemma total_bind {A B} (m : nat → heal A) (f : nat → A → heal B) :
  total m → (∀ a, total (λ gas, f gas a)) → total (λ gas, m gas ≫= f gas).
Proof.
  intros Hm Hf w. destruct (Hm w) as (n & [a w1] & Hn). destruct (Hf a w1) as (n' & r & Hn').
  exists (n + n')%nat, r. intros gas Hg. unfold mbind, heal_bind. rewrite Hn by lia. apply Hn'. lia.
Qed.

Lemma total_step {A} (m : heal A) : (∀ w, is_Some (m w)) → total (λ _, m).
Proof. intros Hm w. destruct (Hm w) as [r Hr]. by exists 0%nat, r. Qed.

Lemma total_ingesting fl raw : total (λ _, ingesting fl raw).
Proof. apply total_step. intros w. unfold ingesting. destruct (ingest _ _ _ _ _ _ _ _). by eexists. Qed.

Lemma total_importing room_id state auth_chain chain :
  total (λ gas, importing gas room_id state auth_chain chain).
Proof.
  intros w. destruct (segment_screens_state (local (hl_engine w)) room_id state auth_chain chain)
    as (n & r & Hn & _).
  destruct (match r with
            | Err x => (Err x, hl_engine w)
            | Ok cmd => propose_for sid next_id (raft (hl_proposals w)) (ImportSegmentCmd cmd)
                (λ r, match r with RSegment n => Ok n | _ => Err CodecFailed end) (hl_engine w)
            end) as [x e] eqn:Hx.
  exists n, (x, proposed e w). intros gas Hg. unfold importing, import_segment. rewrite Hn by done.
  cbn [mbind option_bind]. by rewrite Hx.
Qed.

Ltac total_step :=
  lazymatch goal with
  | |- total (λ _, mret _) => apply total_step; intros; by eexists
  | |- total (λ _, call _) => apply total_step; intros; by eexists
  | |- total (λ _, trusting _) => apply total_step; intros; by eexists
  | |- total (λ _, reading _) => apply total_step; intros; by eexists
  | |- total (λ _, verified _ _) => apply total_step; intros; by eexists
  | |- total (λ _, ingesting _ _) => apply total_ingesting
  | |- total (λ _, importing _ _ _ _ _) => apply total_importing
  | |- total (λ gas, @mbind _ _ _ _ (@?f gas) (@?m gas)) => apply (total_bind m f); [|intros ?]
  | |- total (λ _, match ?x with _ => _ end) => destruct x
  end.

Lemma total_fetch_missing origin missing : total (λ _, fetch_missing_by_id origin missing).
Proof.
  unfold fetch_missing_by_id. total_step; [total_step|].
  generalize (N.to_nat GAP_FILL_LIMIT) as budget, (rev missing) as queue, (∅ : gset string) as retried, false as ingested.
  induction budget as [|budget IH]; intros [|id queue] retried ingested; cbn [fetch_walk];
    repeat first [total_step | apply IH].
Qed.

Lemma total_ingest_chain chain ingested still : total (λ _, ingest_chain chain ingested still).
Proof.
  revert ingested still. induction chain as [|obj chain IH]; intros ingested still; cbn [ingest_chain];
    repeat first [total_step | apply IH].
Qed.

Lemma total_resolve_ids origin ids out : total (λ _, resolve_ids origin ids out).
Proof.
  revert out. induction ids as [|id ids IH]; intros out; cbn [resolve_ids];
    repeat first [total_step | apply IH].
Qed.

Lemma total_anchor_snapshot origin room_id anchor oldest chain :
  total (λ _, anchor_snapshot origin room_id anchor oldest chain).
Proof.
  unfold anchor_snapshot, fetch_state_by_ids, with_breach_event.
  repeat first [total_step | apply total_resolve_ids].
Qed.

Lemma total_heal_gap origin pdu : total (λ gas, heal_gap gas origin pdu).
Proof.
  unfold heal_gap, anchor_gap.
  repeat first [total_step | apply total_ingest_chain | apply total_anchor_snapshot].
Qed.

(** Every retry uses up one of the two kinds of healing. *)
Lemma total_heal_loop tries origin raw (tried_gap tried_auth : bool) :
  ((if tried_gap then 0 else 1) + (if tried_auth then 0 else 1) < tries)%nat →
  total (λ gas, heal_loop tries gas origin raw tried_gap tried_auth).
Proof.
  revert tried_gap tried_auth. induction tries as [|tries IH]; intros tried_gap tried_auth Htries; [lia|].
  cbn [heal_loop]. destruct tried_gap, tried_auth; cbn in Htries;
    repeat first [total_step | apply total_heal_gap | apply total_fetch_missing | apply IH; cbn; lia].
Qed.

(** ** Settling missing auth events *)

Definition not_missing_auth {A} (r : result RoomError A) : Prop := ∀ ids, r ≠ Err (MissingAuthEvents ids).

Lemma nma_bind {A B} (r : result RoomError A) (f : A → result RoomError B) :
  not_missing_auth r → (∀ a, not_missing_auth (f a)) → not_missing_auth (let? a := r in f a).
Proof. intros Hr Hf. destruct r as [a|x]; [apply Hf|]. intros ids [= ->]. by apply (Hr ids). Qed.

Lemma nma_fold {A B} (f : B → A → result RoomError B) l b :
  (∀ b a, not_missing_auth (f b a)) → not_missing_auth (try_fold f b l).
Proof.
  intros Hf. revert b. induction l as [|a l IH]; intros b; [by intros ids|]. cbn [try_fold].
  pose proof (Hf b a) as H. destruct (f b a) as [b'|x]; [apply IH|]. intros ids [= ->]. by apply (H ids).
Qed.

Lemma nma_map_err {A E} (f : E → RoomError) (r : result E A) :
  (∀ e ids, f e ≠ MissingAuthEvents ids) → not_missing_auth (map_err f r).
Proof. intros Hf ids. destruct r as [a|e]; [done|]. intros [= H]. by apply (Hf e ids). Qed.

Ltac head_of t := lazymatch t with ?f _ => head_of f | _ => t end.

Ltac nma := repeat lazymatch goal with
  | |- not_missing_auth (Ok _) => by intros ?
  | |- not_missing_auth (Err _) => by intros ?
  | |- not_missing_auth (map_err _ _) => by apply nma_map_err
  | |- not_missing_auth (storage_err _) => by apply nma_map_err
  | |- not_missing_auth (ok_or ?o _) => destruct o; by intros ?
  | |- not_missing_auth (try_fold _ _ _) => let b := fresh in let a := fresh in apply nma_fold; intros b a;
      lazymatch type of b with prod _ _ => destruct b | _ => idtac end; cbv beta iota
  | |- not_missing_auth (match ?r with Ok _ => _ | Err e => Err e end) => apply nma_bind; [|intros ?]
  | |- not_missing_auth (match ?x with _ => _ end) => destruct x
  | |- not_missing_auth ?t =>
      first [ progress cbv beta zeta | let h := head_of t in unfold h; cbv beta zeta ]
  end.

Lemma advance_room_nma store room v is_create relay txn m ev raw groups :
  not_missing_auth (advance_room store fuel room v is_create relay txn m ev raw groups).
Proof. unfold advance_room. nma. Qed.

Lemma judge_nma store keys raw v room is_create :
  not_missing_auth (judge store fuel keys raw v room is_create rejecting).
Proof.
  unfold judge. change (f_reject_missing_auth rejecting) with true. cbv beta iota zeta.
  repeat first [apply advance_room_nma | progress nma].
Qed.

(** What is settled is never asked for again. *)
Lemma rejecting_settles keys o raw e :
  not_missing_auth (ingest sid next_id fuel keys o rejecting raw e).1.
Proof.
  unfold ingest. assert (not_missing_auth (classify (local e) raw)) as Hc by nma.
  unfold local_store. destruct (classify _ _) as [[[v room] is_create]|x].
  2: { intros ids [= ->]. by apply (Hc ids). }
  unfold process_inner, local_store. pose proof (judge_nma (local e) keys raw v room is_create) as Hj.
  destruct (judge _ _ _ _ _ _ _ _) as [[id|cmd txn]|x]; [by intros ids| |].
  2: { intros ids [= ->]. by apply (Hj ids). }
  unfold propose, propose_cmd.
  assert (∀ r, not_missing_auth (event_outcome r)) as Hr.
  { intros []; unfold event_outcome; cbv zeta; repeat case_match; by intros ids. }
  destruct o; [|by intros ids|]; (destruct (sm_apply _ _ _ _) as [[[e' [|b [|]]] pub]|]; try by intros ids).
  destruct (ok_or (dec b) CodecFailed) as [r|] eqn:Hb; [apply Hr|].
  intros ids. unfold ok_or in Hb. destruct (dec b); by simplify_eq/=.
Qed.

Lemma heal_loop_settles tries gas origin raw tried_gap tried_auth w r w' :
  heal_loop tries gas origin raw tried_gap tried_auth w = Some (r, w') → not_missing_auth r.
Proof.
  revert tried_gap tried_auth w. induction tries as [|tries IH]; intros tried_gap tried_auth w; [done|].
  cbn [heal_loop]. unfold mbind at 1, heal_bind at 1.
  destruct (ingesting no_flags raw w) as [[[out|x] w1]|]; [by intros [= <- <-]| |done].
  destruct x; try by intros [= <- <-].
  - destruct tried_gap; [by intros [= <- <-]|]. unfold mbind, heal_bind.
    destruct (heal_gap _ _ _ _) as [[[] w2]|]; [by apply IH| |done].
    destruct (fetch_missing_by_id _ _ _) as [[[] w3]|]; [by apply IH|by intros [= <- <-]|done].
  - destruct tried_auth.
    + unfold ingesting. pose proof (rejecting_settles (hl_keys w1) (raft (hl_proposals w1)) raw (hl_engine w1)) as Hs.
      destruct (ingest _ _ _ _ _ _ _ _) as [r' e]. by intros [= <- <-].
    + unfold mbind, heal_bind. destruct (fetch_missing_by_id _ _ _) as [[? w2]|]; [by apply IH|done].
Qed.

(** An event that misses nothing is judged at once. *)
Lemma healing_at_once gas origin raw w first e :
  ingest sid next_id fuel (hl_keys w) (raft (hl_proposals w)) no_flags raw (hl_engine w) = (first, e) →
  (∀ ids, first ≠ Err (MissingEvents ids) ∧ first ≠ Err (MissingAuthEvents ids)) →
  ingest_pdu_healing gas origin raw w = Some (first, proposed e w).
Proof.
  intros Hi Hmiss. unfold ingest_pdu_healing. cbn [heal_loop]. unfold mbind at 1, heal_bind at 1, ingesting at 1.
  rewrite Hi. destruct first as [out|x]; [done|]. destruct x; try done.
  - by destruct (Hmiss ids) as [[] _].
  - by destruct (Hmiss ids) as [_ []].
Qed.

(** C27 (termination): healing ends with a verdict, and the origin can only make
    the server judge.  However the origin answers and the proposals fare,
    ingesting an event with healing returns; a missing auth event is never what
    it returns, since one that cannot be fetched settles the event as rejected
    (the doc comment of [ingest_pdu_healing] still lists it among the errors);
    an event that misses nothing is judged at once, without a call to the
    origin.  What happens in between are steps of four kinds: a call; loading
    the keys of the origin, or those of the servers of fetched events, into the
    trusted set; the pipeline's verdict on one event under the keys trusted
    then; and the import of a segment onto a snapshot of the state every event
    of which is signed under the keys trusted then.  Of the events that a
    segment puts on top of its snapshot nothing is claimed. *)
Theorem healing_settles origin raw w :
  ∃ n r w', (∀ gas, (n ≤ gas)%nat → ingest_pdu_healing gas origin raw w = Some (r, w')) ∧
    (∀ ids, r ≠ Err (MissingAuthEvents ids)) ∧
    (∀ first e,
      ingest_pdu sid next_id fuel (hl_keys w) (raft (hl_proposals w)) raw (hl_engine w) = (first, e) →
      (∀ ids, first ≠ Err (MissingEvents ids) ∧ first ≠ Err (MissingAuthEvents ids)) →
      r = first ∧ w' = proposed e w) ∧
    rtc (peer_step origin) w w'.
Proof.
  destruct (total_heal_loop 3 origin raw false false) with (w := w) as (n & [r w'] & Hn); [cbn; lia|].
  exists n, r, w'. split; [exact Hn|]. specialize (Hn n (le_n n)).
  split_and!; [by eapply heal_loop_settles| |by eapply follows_heal_loop].
  intros first e Hi Hmiss. pose proof (healing_at_once n origin raw w first e Hi Hmiss) as H.
  unfold ingest_pdu_healing in H. rewrite Hn in H. by injection H as <- <-.
Qed.
End Heal.

(** ** Witnesses

    Bob's server sends an event behind a gap.  Asked for the gap, it answers
    with a message of Bob's that hangs in the air, and with one in Alice's
    name that her server never signed; asked for the state, it names the true
    one. *)

From S2P Require Import Demo RoomDemo AuthDemo PipelineDemo RoomServeDemo.

Definition p_stray : json_object :=
  demo_pdu "stray" "@bob:b" "m.room.message" None [("body", JString "so")]%string
    ["$c"; "$bob"]%string ["$lost"]%string 8.
Definition p_forged : json_object :=
  obj_insert "signatures" (JObject [("a", JObject [("ed25519:1", JString "kb")])])%string
    (demo_pdu "forged" alice "m.room.message" None [("body", JString "I resign")]%string
       ["$c"; "$alice"]%string ["$stray"]%string 9).
Definition p_after : json_object :=
  demo_pdu "after" "@bob:b" "m.room.message" None [("body", JString "well")]%string
    ["$c"; "$bob"]%string ["$forged"]%string 10.

Definition peopled_engine := run_pdus [p_create; p_alice; p_rules; p_bob] ∅.

Definition lying_peer : EventFetcher := {|
  ef_get_missing_events _ _ _ _ _ _ := Ok [p_stray; p_forged];
  ef_state_ids _ _ _ _ := Ok (["$c"; "$alice"; "$jr"; "$bob"], [])%string;
  ef_state _ _ _ _ := Err EmptyString;
  ef_event _ _ _ := Ok None;
  ef_trust_origin_keys _ _ keys := keys;
  ef_trust_event_servers _ _ keys := keys |}.

Definition at_peace : Healing :=
  {| hl_engine := peopled_engine; hl_keys := demo_keys; hl_calls := 0; hl_proposals := 0 |}.

Definition healed : option (result RoomError Outcome * Healing) :=
  ingest_pdu_healing demo_shard demo_next 64 (λ _, Done) lying_peer 64 "b" p_after at_peace.

Definition forged_check (r : option (result RoomError Outcome * Healing)) : bool :=
  match r with
  | Some (Ok (Accepted id _), w) =>
      bool_decide (id = "$after"%string) && bool_decide (hl_keys w = demo_keys) &&
      match event (ctx (hl_engine w)) "$forged" with
      | Ok (Some s) => on_timeline s && negb (is_some (se_rejected s)) &&
          match raw_bytes p_forged with Ok b => bool_decide (b = se_raw s) | Err _ => false end
      | _ => false
      end && negb (verify_pdu (hl_keys w) (ctx (hl_engine w)) demo_room p_forged)
  | _ => false
  end.

(** An origin can put an event on the timeline
    that nobody signed.  The snapshot that a gap is anchored on is verified,
    and so is the event fetched between the two, but the recovered chain is
    imported as the origin sent it: a message in the name of a user of another
    server, which the pipeline refuses for its signature, ends on the timeline
    unrejected, and the event that cites it is accepted. *)
Theorem forged_event_reaches_timeline :
  (step p_forged peopled_engine).1 = Err (Verification VerificationFailed) ∧
  ∃ n w' s, healed = Some (Ok (Accepted "$after" n), w') ∧ hl_keys w' = demo_keys ∧
    event (ctx (hl_engine w')) "$forged" = Ok (Some s) ∧ on_timeline s = true ∧
    se_rejected s = None ∧ raw_bytes p_forged = Ok (se_raw s) ∧
    verify_pdu demo_keys (ctx (hl_engine w')) demo_room p_forged = false.
Proof.
  split; [vm_compute; reflexivity|].
  assert (forged_check healed = true) as H by (vm_compute; reflexivity). revert H.
  generalize healed. intros r. unfold forged_check. destruct r as [[[[id n|id why|id]|x] w]|]; try done.
  rewrite !andb_true_iff, !bool_decide_eq_true. intros [[[-> Hk] Hev] Hv].
  destruct (event _ _) as [[s|]|] eqn:He; [|done..].
  destruct (raw_bytes p_forged) as [b|]; [|by rewrite andb_false_r in Hev].
  rewrite !andb_true_iff, !bool_decide_eq_true, !negb_true_iff in Hev. destruct Hev as [[Ht Hr] ->].
  rewrite negb_true_iff, Hk in Hv. exists n, w, s. rewrite <- Hk at 1.
  split_and!; try done. by destruct (se_rejected s).
Qed.

(** The origin was asked five times. *)
Example healing_asked :
  match healed with Some (_, w) => hl_calls w = 5%nat ∧ hl_proposals w = 5%nat | None => False end.
Proof. vm_compute. done. Qed.
