(* ===== verification/UserRead.v ===== *)
(** * Reading the user keyspace (saltator-userserver/src/machine.rs, [UserStore])

    The typed reads, with the split the code prepares for: the global half of
    the keyspace is always read from the local replica, the per-user half may
    be served by another shard through the read operations of
    saltator-shard/src/read.rs. *)

From Stdlib Require Import Ascii.
From S2P Require Import Prelude Bytes Store Codec Json Shard ShardFacts.
From S2P Require Import UserTypes UserMachine UserKeys UserQueues.
From stdpp Require Import options.
Set Warnings "-register-all".

Local Open Scope N_scope.

(** ** Remote reads (read.rs) *)

Inductive ReadOp : Type :=
| RGet (table : N) (key : bytes)
| RRange (table : N) (start stop : bytes)
| RScan (table : N) (start stop : bytes) (limit : N) (reverse : bool)
| RSeq
| RVoters.

Inductive ReadValue : Type :=
| RValue (v : option bytes)
| REntries (l : list (bytes * bytes))
| RSeqValue (n : N)
| RVotersValue (l : list N).

(** [execute]: no operation names a table of the runtime. *)
Definition execute_read (ctx : ReadCtx) (seq : N) (op : ReadOp) : result store_error ReadValue :=
  let table_of (t : N) : result store_error N :=
    if t <? APP_TABLE_MIN then Err (Engine "read op names runtime-reserved table") else Ok t in
  match op with
  | RGet table key => let? t := table_of table in Ok (RValue (read_get ctx t key))
  | RRange table start stop => let? t := table_of table in Ok (REntries (read_range ctx t start stop))
  | RScan table start stop limit reverse =>
      let? t := table_of table in Ok (REntries (read_scan ctx t start stop limit reverse))
  | RSeq => Ok (RSeqValue seq)
  | RVoters => Err (Engine "Voters is served by the RPC layer")
  end.

(** [RemoteReader]: an operation's answer, or an error of the transport. *)
Abbreviation remote_reader := (ReadOp → result store_error ReadValue) (only parsing).

(** ** The store *)

Record UserStore : Type := { us_read : ReadCtx; us_per_user : option remote_reader }.

Definition local_users (read : ReadCtx) : UserStore := {| us_read := read; us_per_user := None |}.

Definition u32_max : N := 4294967295.

(** One page of accounts and the next page's start. *)
Abbreviation account_page A := (list (string * A) * option string)%type (only parsing).

(** [for (k, v) in rows { out.push(..?) }] *)
Definition push_rows {A} (f : bytes → bytes → result store_error A) (rows : list (bytes * bytes)) :
    result store_error (list A) :=
  try_fold (λ out '(k, v), let? x := f k v in Ok (out ++ [x])) [] rows.

Section Reads.
Context `{UC : UserCodecs, UL : Utf8Lossy}.
Context (users : UserStore).

Definition user_get (table : N) (key : bytes) : result store_error (option bytes) :=
  match us_per_user users with
  | None => Ok (read_get (us_read users) table key)
  | Some r =>
      let? v := r (RGet table key) in
      match v with RValue v => Ok v | _ => Err (Engine "get returned") end
  end.

Definition user_range (table : N) (start stop : bytes) : result store_error (list (bytes * bytes)) :=
  match us_per_user users with
  | None => Ok (read_range (us_read users) table start stop)
  | Some r =>
      let? v := r (RRange table start stop) in
      match v with REntries e => Ok e | _ => Err (Engine "range returned") end
  end.

Definition user_scan (table : N) (start stop : bytes) (limit : N) (reverse : bool) :
    result store_error (list (bytes * bytes)) :=
  match us_per_user users with
  | None => Ok (read_scan (us_read users) table start stop limit reverse)
  | Some r =>
      let? v := r (RScan table start stop (N.min limit u32_max) reverse) in
      match v with REntries e => Ok e | _ => Err (Engine "scan returned") end
  end.

Definition user_typed {A} `{!Codec A} (what : string) (table : N) (key : bytes) :
    result store_error (option A) :=
  let? o := user_get table key in
  match o with
  | Some b => let? a := dec_or what b in Ok (Some a)
  | None => Ok None
  end.

(** [get_typed], from the local replica. *)
Definition local_typed {A} `{!Codec A} (what : string) (table : N) (key : bytes) :
    result store_error (option A) :=
  match read_get (us_read users) table key with
  | Some b => let? a := dec_or what b in Ok (Some a)
  | None => Ok None
  end.

(** The key of a row below [start]. *)
Definition key_rest (start k : bytes) : bytes := str_drop (String.length start) k.

(** [k[start.len()..].try_into()] as a big-endian number. *)
Definition seq_rest (what : string) (start k : bytes) : result store_error N :=
  ok_or (from_be64 (key_rest start k)) (Engine what).

(** *** Accounts and sessions *)

Definition account (user_id : string) : result store_error (option Account) :=
  user_typed (A := Account) "account decode" T_ACCOUNT user_id.

Definition username_reserved (user_id : string) : result store_error bool :=
  Ok (is_some (read_get (us_read users) T_USERNAME user_id)).

Definition txn_seen (user_id device_id scope txn_id : string) : result store_error bool :=
  Ok (is_some (read_get (us_read users) T_TXN_SEEN (txn_key user_id device_id scope txn_id))).

Fixpoint accounts_loop (limit : nat) (i : nat) (rows : list (bytes * bytes)) (out : list (string * Account)) :
    result store_error (account_page Account) :=
  match rows with
  | [] => Ok (out, None)
  | (k, v) :: rows =>
      let? user_id := from_utf8 "account key not UTF-8" k in
      if bool_decide (i = limit) then Ok (out, Some user_id)
      else
        let? a := dec_or (A := Account) "account decode" v in
        accounts_loop limit (S i) rows (out ++ [(user_id, a)])
  end.

Definition accounts (from : option string) (limit : N) : result store_error (account_page Account) :=
  let? rows := user_scan T_ACCOUNT (default EmptyString from) EmptyString (saturating_add64 limit 1) false in
  accounts_loop (N.to_nat limit) 0 rows [].

Definition login_token (token_hash : hash) : result store_error (option LoginTokenEntry) :=
  local_typed (A := LoginTokenEntry) "login token decode" T_LOGIN_TOKEN token_hash.

Definition uia_session (session_id : string) : result store_error (option UiaSession) :=
  local_typed (A := UiaSession) "uia session decode" T_UIA_SESSION session_id.

Definition registration_token (token : string) : result store_error (option RegToken) :=
  local_typed (A := RegToken) "reg token decode" T_REG_TOKEN token.

Definition registration_tokens : result store_error (list (string * RegToken)) :=
  push_rows (λ k v,
    let? token := from_utf8 "registration token not UTF-8" k in
    let? t := dec_or (A := RegToken) "reg token decode" v in
    Ok (token, t)) (read_range (us_read users) T_REG_TOKEN EmptyString EmptyString).

Definition notices_room (user_id : string) : result store_error (option string) :=
  user_typed (A := string) "notices room decode" T_NOTICES_ROOM user_id.

Definition blocked_room (room_id : string) : result store_error (option BlockedRoom) :=
  local_typed (A := BlockedRoom) "blocked room decode" T_ROOM_BLOCKED room_id.

Definition blocked_rooms : result store_error (list (string * BlockedRoom)) :=
  push_rows (λ k v,
    let? room_id := from_utf8 "blocked room id not UTF-8" k in
    let? b := dec_or (A := BlockedRoom) "blocked room decode" v in
    Ok (room_id, b)) (read_range (us_read users) T_ROOM_BLOCKED EmptyString EmptyString).

Definition external_id_owner (auth_provider external_id : string) : result store_error (option string) :=
  local_typed (A := string) "external id owner decode" T_EXTERNAL_ID
    (external_key auth_provider external_id).

Definition external_ids (user_id : string) : result store_error (list (string * string)) :=
  let start := user_key user_id EmptyString in
  push_rows (λ k v,
    let? provider := from_utf8 "auth provider not UTF-8" (key_rest start k) in
    let? id := dec_or (A := string) "external id decode" v in
    Ok (provider, id)) (read_range (us_read users) T_EXTERNAL_ID_USER start (user_end user_id)).

Definition profile (user_id : string) : result store_error (option Profile) :=
  user_typed (A := Profile) "profile decode" T_PROFILE user_id.

Definition token (token_hash : hash) : result store_error (option TokenEntry) :=
  local_typed (A := TokenEntry) "token decode" T_TOKEN token_hash.

Definition token_compat (token_hash : hash) : result store_error (option (TokenEntry * bool)) :=
  match read_get (us_read users) T_TOKEN token_hash with
  | None => Ok None
  | Some b => let? t := decode_token b in Ok (Some t)
  end.

(** *** Devices, keys and queues *)

Definition device (user_id device_id : string) : result store_error (option Device) :=
  user_typed (A := Device) "device decode" T_DEVICE (user_key user_id device_id).

Definition devices (user_id : string) : result store_error (list (string * Device)) :=
  let start := user_key user_id EmptyString in
  let? rows := user_range T_DEVICE start (user_end user_id) in
  push_rows (λ k v,
    let? device_id := from_utf8 "device id not UTF-8" (key_rest start k) in
    let? d := dec_or (A := Device) "device decode" v in
    Ok (device_id, d)) rows.

Definition device_keys (user_id : string) : result store_error (list (string * bytes)) :=
  let start := user_key user_id EmptyString in
  let? rows := user_range T_DEVICE_KEYS start (user_end user_id) in
  push_rows (λ k v,
    let? device_id := from_utf8 "device id not UTF-8" (key_rest start k) in Ok (device_id, v)) rows.

Definition to_device_events (user_id device_id : string) (since : N) :
    result store_error (list (N * bytes)) :=
  let prefix := device_scoped_key user_id device_id EmptyString in
  let start := prefix +:+ be64 (saturating_add64 since 1) in
  let? rows := user_range T_TO_DEVICE start (prefix_end prefix) in
  push_rows (λ k v, let? seq := seq_rest "to-device key shape" prefix k in Ok (seq, v)) rows.

Definition key_changes (since upto : N) : result store_error (list KeyChangeEntry) :=
  push_rows (λ _ v, dec_or (A := KeyChangeEntry) "key change decode" v)
    (read_range (us_read users) T_KEY_CHANGE (be64 (saturating_add64 since 1))
      (be64 (saturating_add64 upto 1))).

(** [[0xff; 256]] *)
Definition all_ones : bytes := str_of_list (repeat (byte_of 255) 256).

Definition edu_outbox_destinations : result store_error (list string) :=
  Ok (foldl (λ out '(k, _),
    let dest := from_utf8_lossy (split_once b0 k).1 in
    if bool_decide (head (rev out) = Some dest) then out else out ++ [dest])
    [] (read_range (us_read users) T_EDU_OUTBOX EmptyString all_ones)).

Definition edu_outbox_tail : result store_error N :=
  Ok (foldl (λ m '(k, _),
    if (8 <=? String.length k)%nat
    then N.max m (default 0 (from_be64 (str_drop (String.length k - 8) k))) else m)
    0 (read_range (us_read users) T_EDU_OUTBOX EmptyString EmptyString)).

Fixpoint edu_loop (limit : nat) (start : bytes) (rows : list (bytes * bytes)) (out : list (N * bytes)) :
    result store_error (list (N * bytes)) :=
  match rows with
  | [] => Ok out
  | (k, v) :: rows =>
      if (limit <=? length out)%nat then Ok out
      else let? seq := seq_rest "outbox key: bad seq" start k in
           edu_loop limit start rows (out ++ [(seq, v)])
  end.

Definition edu_outbox (destination : string) (limit : nat) : result store_error (list (N * bytes)) :=
  let start := user_key destination EmptyString in
  edu_loop limit start (read_range (us_read users) T_EDU_OUTBOX start (prefix_end start)) [].

Definition one_time_key_counts (user_id device_id : string) : result store_error (gmap string N) :=
  let prefix := device_scoped_key user_id device_id EmptyString in
  Ok (foldl (λ counts '(k, _),
    let key_id := from_utf8_lossy (key_rest prefix k) in
    let algo := algorithm_of key_id in
    <[algo := default 0 (counts !! algo) + 1]> counts)
    ∅ (read_range (us_read users) T_ONE_TIME_KEY prefix (prefix_end prefix))).

Definition cross_signing_key (user_id kind : string) : result store_error (option bytes) :=
  user_get T_CROSS_SIGNING (user_key user_id kind).

Definition unused_fallback_algorithms (user_id device_id : string) : result store_error (list string) :=
  let prefix := device_scoped_key user_id device_id EmptyString in
  try_fold (λ out '(k, v),
    let? entry := dec_or (A := FallbackEntry) "fallback decode" v in
    Ok (if fb_used entry then out else out ++ [from_utf8_lossy (key_rest prefix k)]))
    [] (read_range (us_read users) T_FALLBACK_KEY prefix (prefix_end prefix)).

(** *** Key backups, pushers *)

Definition latest_backup_version (user_id : string) :
    result store_error (option (N * BackupVersionMeta)) :=
  let start := user_key user_id EmptyString in
  try_fold (λ latest '(k, v),
    let? meta := dec_or (A := BackupVersionMeta) "backup meta decode" v in
    if bv_deleted meta then Ok latest
    else let? version := seq_rest "backup version key shape" start k in Ok (Some (version, meta)))
    None (read_range (us_read users) T_BACKUP_VERSION start (user_end user_id)).

Definition backup_version (user_id : string) (version : N) :
    result store_error (option BackupVersionMeta) :=
  let? o := local_typed (A := BackupVersionMeta) "backup meta decode" T_BACKUP_VERSION
              (backup_version_key user_id version) in
  Ok (m ← o; if bv_deleted m then None else Some m).

Definition backup_keys (user_id : string) (version : N) (room_id session_id : option string) :
    result store_error (list (string * string * bytes)) :=
  match room_id, session_id with
  | Some r, Some s =>
      let? o := user_get T_BACKUP_KEY (backup_key_prefix user_id version (Some r) (Some s)) in
      Ok (match o with Some v => [(r, s, v)] | None => [] end)
  | _, _ =>
      let base := backup_key_prefix user_id version None None in
      let prefix := backup_key_prefix user_id version room_id None in
      push_rows (λ k v,
        let rest := key_rest base k in
        let? sep := ok_or (position b0 rest) (Engine "backup key shape") in
        let? room := from_utf8 "room id not UTF-8" (str_take sep rest) in
        let? session := from_utf8 "session id not UTF-8" (str_drop (sep + 1) rest) in
        Ok (room, session, v))
        (read_range (us_read users) T_BACKUP_KEY prefix (prefix_end prefix))
  end.

Definition pushers (user_id : string) : result store_error (list bytes) :=
  let start := user_key user_id EmptyString in
  let? rows := user_range T_PUSHER start (user_end user_id) in
  Ok (rows.*2).

(** *** Account data, filters, memberships *)

Definition account_data (user_id room_id data_type : string) :
    result store_error (option AccountDataEntry) :=
  user_typed (A := AccountDataEntry) "account data decode" T_ACCOUNT_DATA
    (account_data_key user_id room_id data_type).

Definition account_data_all (user_id : string) :
    result store_error (list (string * string * AccountDataEntry)) :=
  let start := user_key user_id EmptyString in
  push_rows (λ k v,
    let rest := key_rest start k in
    let? sep := ok_or (position b0 rest) (Engine "account data key shape") in
    let? room_id := from_utf8 "room id not UTF-8" (str_take sep rest) in
    let? data_type := from_utf8 "data type not UTF-8" (str_drop (sep + 1) rest) in
    let? entry := dec_or (A := AccountDataEntry) "account data decode" v in
    Ok (room_id, data_type, entry))
    (read_range (us_read users) T_ACCOUNT_DATA start (user_end user_id)).

Definition filter_json (user_id filter_id : string) : result store_error (option bytes) :=
  user_get T_FILTER (user_key user_id filter_id).

Definition membership_of (user_id room_id : string) : result store_error (option MembershipEntry) :=
  user_typed (A := MembershipEntry) "membership decode" T_MEMBERSHIP (user_key user_id room_id).

Definition memberships (user_id : string) : result store_error (list (string * MembershipEntry)) :=
  let start := user_key user_id EmptyString in
  let? rows := user_range T_MEMBERSHIP start (user_end user_id) in
  push_rows (λ k v,
    let? room_id := from_utf8 "room id not UTF-8" (key_rest start k) in
    let? m := dec_or (A := MembershipEntry) "membership decode" v in
    Ok (room_id, m)) rows.

Definition invite_state (user_id room_id : string) : result store_error (option (list bytes)) :=
  let? o := user_get T_INVITE_STATE (user_key user_id room_id) in
  match o with
  | Some b => let? l := dec_or (A := list bytes) "invite state decode" b in Ok (Some l)
  | None => Ok None
  end.

(** *** Aliases, the directory, media *)

Definition alias (a : string) : result store_error (option AliasEntry) :=
  local_typed (A := AliasEntry) "alias decode" T_ALIAS a.

Definition aliases : result store_error (list (string * AliasEntry)) :=
  push_rows (λ k v,
    let? entry := dec_or (A := AliasEntry) "alias decode" v in Ok (from_utf8_lossy k, entry))
    (read_range (us_read users) T_ALIAS EmptyString EmptyString).

Definition room_is_public (room_id : string) : result store_error bool :=
  Ok (is_some (read_get (us_read users) T_DIRECTORY room_id)).

Definition public_rooms : result store_error (list string) :=
  push_rows (λ k _, from_utf8 "room id not UTF-8" k)
    (read_range (us_read users) T_DIRECTORY EmptyString EmptyString).

Definition room_aliases (room_id : string) : result store_error (list string) :=
  try_fold (λ out '(k, v),
    let? entry := dec_or (A := AliasEntry) "alias decode" v in
    if bool_decide (al_room_id entry = room_id)
    then let? a := from_utf8 "alias not UTF-8" k in Ok (out ++ [a]) else Ok out)
    [] (read_range (us_read users) T_ALIAS EmptyString EmptyString).

Definition media (media_id : string) : result store_error (option MediaMeta) :=
  local_typed (A := MediaMeta) "media decode" T_MEDIA media_id.

Definition media_blob_ids : result store_error (gset string) :=
  try_fold (λ out '(k, v),
    let? meta := dec_or (A := MediaMeta) "media decode" v in
    if mm_pending meta then Ok out
    else match mm_blob meta with
         | Some blob => Ok ({[blob]} ∪ out)
         | None => let? id := from_utf8 "media id not UTF-8" k in Ok ({[id]} ∪ out)
         end)
    ∅ (read_range (us_read users) T_MEDIA EmptyString EmptyString).
End Reads.
