(* ===== verification/UserFront.v ===== *)
(** * The user server's front (saltator-userserver/src/lib.rs)

    [UserServer]: what a request does with accounts and sessions.  Each method
    reads the applied state through [UserRead], proposes at most two commands
    of [UserApply] and says what it makes of the answers.  What a request
    draws, the clock and its random tokens, and what Raft makes of its
    proposals are arguments; a request reads the clock as one instant. *)

From Stdlib Require Import Ascii.
From S2P Require Import Prelude Bytes Store Codec Json Shard ShardFacts Track CoreEvent.
From S2P Require Import UserTypes UserMachine UserKeys UserQueues UserApply UserLog UserTerminal UserCells UserMirror.
From S2P Require Import RoomTypes RoomMachine RoomRead Projection UserRead Demo UserDemo AuthDemo.
From stdpp Require Import options.
Set Warnings "-register-all".

Local Open Scope N_scope.

Definition ACCESS_TOKEN_LIFETIME_MS : N := 60 * 60 * 1000.
Definition LOGIN_TOKEN_LIFETIME_MS : N := 2 * 60 * 1000.
Definition UIA_SESSION_TTL_MS : N := 15 * 60 * 1000.
Definition USERNAME_BACKFILL_VERSION : N := 6.
Definition MAX_PASSWORD_LEN : nat := N.to_nat 1024.

(** blake3 and Argon2 ([argon2_hash password salt]; verifying against a hash
    that does not parse is an error), ruma's [localpart], and lower case
    outside ASCII. *)
Class UserCrypto := {
  blake3_hash : string → hash;
  hex16 : hash → string;
  argon2_hash : string → string → option string;
  argon2_verify : string → string → option bool;
  user_localpart : string → string;
  lowercase_unicode : string → string;
}.

(** What a request draws. *)
Record Draw : Type := {
  dr_clock : N; dr_access : string; dr_refresh : string; dr_device : string; dr_salt : string }.

Record Session : Type := {
  ss_user_id : string; ss_device_id : string; ss_access_token : string;
  ss_refresh_token : option string; ss_expires_in_ms : option N }.

Record RegisterRequest : Type := {
  rq_localpart : string; rq_password : option string; rq_device_id : option string;
  rq_display_name : option string; rq_want_refresh : bool; rq_inhibit_login : bool;
  rq_registration_token : option string }.

Definition ascii_lower (c : ascii) : ascii :=
  if in_range 65 90 c then ascii_of_N (N_of_ascii c + 32) else c.

Fixpoint str_map (f : ascii → ascii) (s : string) : string :=
  match s with EmptyString => EmptyString | String c s => String (f c) (str_map f s) end.

(** [str::to_lowercase] *)
Definition to_lowercase `{UserCrypto} (s : string) : string :=
  if str_forallb (in_range 0 127) s then str_map ascii_lower s else lowercase_unicode s.

Definition localpart_char (c : ascii) : bool :=
  in_range 97 122 c || in_range 48 57 c
  || bool_decide (c ∈ ["."; "_"; "="; "-"; "/"; "+"]%char).

Section Front.
Context `{UC : UserCodecs, SJ : SerdeJson, UL : Utf8Lossy, RU : Ruma, CR : UserCrypto}.
Context `{HR : Raft}.
Context `{!Codec (option LogId), !Codec StoredMembership}.
Context `{!Codec RuntimeCommand, !Codec RuntimeResponse}.
Context (usid : ShardId) (next_id : engine → LogId) (server_name : string).

Definition token_hash (token : string) : hash := blake3_hash token.

(** [self.store()] *)
Definition store (e : engine) : UserStore := local_users (user_reads usid e).

(** *** Internals *)

Definition user_id_for (user : string) : result UserError string :=
  let user := to_lowercase user in
  if starts_with "@" user then
    if negb (user_id_ok user) then Err EInvalidUsername
    else if bool_decide (user_server user ≠ server_name) then Err EInvalidUsername
    else Ok user
  else if bool_decide (user = EmptyString) || negb (str_forallb localpart_char user) then Err EInvalidUsername
  else
    let id := "@" +:+ user +:+ ":" +:+ server_name in
    if user_id_ok id then Ok id else Err EInvalidUsername.

Definition canonical_user_id (user : string) : result UserError string := user_id_for user.

Definition hash_password (d : Draw) (password : string) : result UserError string :=
  if (MAX_PASSWORD_LEN <? String.length password)%nat then Err EInvalidPassword
  else ok_or (argon2_hash password (dr_salt d)) UInternal.

Definition verify_password (password phc : string) : result UserError bool :=
  if (MAX_PASSWORD_LEN <? String.length password)%nat then Ok false
  else ok_or (argon2_verify password phc) UInternal.

Definition new_session (d : Draw) (user_id : string) (device_id display_name : option string)
    (want_refresh : bool) : Session * SessionCmd :=
  let device_id := default (dr_device d) device_id in
  let refresh_token := if want_refresh then Some (dr_refresh d) else None in
  let expires_ts := if want_refresh then Some (add64 (dr_clock d) ACCESS_TOKEN_LIFETIME_MS) else None in
  ({| ss_user_id := user_id; ss_device_id := device_id; ss_access_token := dr_access d;
      ss_refresh_token := refresh_token;
      ss_expires_in_ms := if want_refresh then Some ACCESS_TOKEN_LIFETIME_MS else None |},
   {| sc_user_id := user_id; sc_device_id := device_id; sc_display_name := display_name;
      sc_token_hash := token_hash (dr_access d);
      sc_refresh_hash := token_hash <$> refresh_token; sc_expires_ts := expires_ts;
      sc_ts := dr_clock d |}).

(** Committed and applied alone; an apply error stops the state machine. *)
Definition propose (o : raft_outcome) (cmd : UserCommand) (e : engine) :
    result UserError UserResponse * engine :=
  match o with
  | Refused => (Err EShard, e)
  | _ =>
      match sm_apply usid UserApp [user_entry_of next_id e cmd] e with
      | Ok (e', [r], _) =>
          (match o with Done => ok_or (dec (A := UserResponse) r) UCodec | _ => Err EShard end, e')
      | _ => (Err EShard, e)
      end
  end.

(** A proposal and what the method makes of the answer. *)
Definition ask {A} (o : raft_outcome) (cmd : UserCommand) (answer : UserResponse → result UserError A)
    (e : engine) : result UserError A * engine :=
  let '(r, e') := propose o cmd e in ((let? resp := r in answer resp), e').

(** [other => Err(unexpected(other))] *)
Definition unexpected {A} : result UserError A := Err UInternal.

Definition only_ok (r : UserResponse) : result UserError () :=
  match r with UOk => Ok () | _ => unexpected end.

Definition ok_or_not_found (r : UserResponse) : result UserError () :=
  match r with UOk => Ok () | NotFound => Err ENotFound | _ => unexpected end.

Definition expect_ok (o : raft_outcome) (cmd : UserCommand) (e : engine) := ask o cmd only_ok e.

Definition lifecycle (o : raft_outcome) (cmd : UserCommand) (e : engine) :=
  ask o cmd (λ r, match r with
                  | UOk => Ok ()
                  | NotFound => Err ENotFound
                  | InvalidState => Err EInvalidState
                  | _ => unexpected
                  end) e.

(** *** Sessions *)

(** The accounts that may log in. *)
Definition login_account (user_id : string) (e : engine) : result UserError (option Account) :=
  let? o := storage_err (account (store e) user_id) in
  Ok (a ← o; if can_authenticate (ac_state a) then Some a else None).

(** The last step of every login. *)
Definition open_session (o : raft_outcome) (s : Session * SessionCmd) (e : engine) :
    result UserError Session * engine :=
  ask o (CreateSession s.2) (λ r, match r with
                                  | UOk => Ok s.1
                                  | NotFound => Err EForbidden
                                  | _ => unexpected
                                  end) e.

Definition login_password (o : raft_outcome) (d : Draw) (user password : string)
    (device_id display_name : option string) (want_refresh : bool) (e : engine) :
    result UserError Session * engine :=
  match (let? user_id := user_id_for user in
         let? account := login_account user_id e in
         match (a ← account; ac_password_hash a) with
         | None => Err EForbidden
         | Some hash =>
             let? good := verify_password password hash in
             if good then Ok user_id else Err EForbidden
         end) with
  | Err x => (Err x, e)
  | Ok user_id => open_session o (new_session d user_id device_id display_name want_refresh) e
  end.

Definition create_login_token (o : raft_outcome) (d : Draw) (user_id : string) (e : engine) :
    result UserError string * engine :=
  let token := dr_access d in
  ask o (CreateLoginToken (token_hash token) user_id (add64 (dr_clock d) LOGIN_TOKEN_LIFETIME_MS) (dr_clock d))
    (λ r, match r with
          | UOk => Ok token
          | NotFound => Err ENotFound
          | InvalidState => Err EInvalidState
          | _ => unexpected
          end) e.

(** Two proposals: the second may fare otherwise. *)
Definition login_with_token (o1 o2 : raft_outcome) (d : Draw) (token : string)
    (device_id display_name : option string) (want_refresh : bool) (e : engine) :
    result UserError Session * engine :=
  let '(r, e) := ask o1 (ConsumeLoginToken (token_hash token) (dr_clock d))
    (λ r, match r with
          | LoginTokenOwner user_id => if user_id_ok user_id then Ok user_id else Err UInternal
          | InvalidGrant => Err EForbidden
          | _ => unexpected
          end) e in
  match r with
  | Err x => (Err x, e)
  | Ok user_id => open_session o2 (new_session d user_id device_id display_name want_refresh) e
  end.

Definition login_appservice (o : raft_outcome) (d : Draw) (user : string)
    (device_id display_name : option string) (want_refresh : bool) (e : engine) :
    result UserError Session * engine :=
  match (let? user_id := user_id_for user in
         let? account := login_account user_id e in
         if is_some account then Ok user_id else Err EForbidden) with
  | Err x => (Err x, e)
  | Ok user_id => open_session o (new_session d user_id device_id display_name want_refresh) e
  end.

Definition verify_user_password (user_id password : string) (e : engine) : result UserError bool :=
  let? account := login_account user_id e in
  match (a ← account; ac_password_hash a) with
  | None => Ok false
  | Some hash => verify_password password hash
  end.

Definition refresh (o : raft_outcome) (d : Draw) (refresh_token : string) (e : engine) :
    result UserError Session * engine :=
  let old_hash := token_hash refresh_token in
  match (let? entry := storage_err (token (store e) old_hash) in
         let? entry := ok_or (t ← entry; if is_refresh (tk_kind t) then Some t else None) EInvalidGrant in
         if user_id_ok (tk_user_id entry) then Ok entry else Err UInternal) with
  | Err x => (Err x, e)
  | Ok entry =>
      let '(session, cmd) := new_session d (tk_user_id entry) (Some (tk_device_id entry)) None true in
      ask o (RefreshSession old_hash cmd) (λ r, match r with
                                                | UOk => Ok session
                                                | InvalidGrant => Err EInvalidGrant
                                                | _ => unexpected
                                                end) e
  end.

(** The user and device of an access token. *)
Definition authenticate (clock : N) (tok : string) (e : engine) :
    result UserError (option (string * string)) :=
  let? o := storage_err (token_compat (store e) (token_hash tok)) in
  match o with
  | None => Ok None
  | Some (entry, state_mirrored) =>
      if is_refresh (tk_kind entry) then Ok None
      else if default false ((λ t, t <=? clock) <$> tk_expires_ts entry) then Ok None
      else if negb (user_id_ok (tk_user_id entry)) then Err UInternal
      else
        let? permitted :=
          if (state_mirrored : bool) then Ok (can_authenticate (tk_state entry))
          else let? a := login_account (tk_user_id entry) e in Ok (is_some a) in
        Ok (if (permitted : bool) then Some (tk_user_id entry, tk_device_id entry) else None)
  end.

(** *** Devices and keys *)

Definition delete_device (o : raft_outcome) (user_id device_id : string) (e : engine) :=
  ask o (DeleteDevice user_id device_id) ok_or_not_found e.

Definition delete_all_devices (o : raft_outcome) (user_id : string) (e : engine) :=
  expect_ok o (DeleteAllDevices user_id) e.

Definition set_device_name (o : raft_outcome) (user_id device_id : string) (display_name : option string)
    (e : engine) :=
  ask o (SetDeviceName user_id device_id display_name) ok_or_not_found e.

Definition upsert_device (o : raft_outcome) (d : Draw) (user_id device_id : string)
    (display_name : option string) (e : engine) :=
  ask o (UpsertDevice user_id device_id display_name (dr_clock d)) only_ok e.

Definition upload_keys (o : raft_outcome) (user_id device_id : string) (device_keys : option bytes)
    (one_time_keys fallback_keys : list (string * bytes)) (e : engine) :=
  ask o (UploadKeys user_id device_id device_keys one_time_keys fallback_keys)
    (λ r, match r with OneTimeKeyCounts counts => Ok counts | _ => unexpected end) e.

Definition set_cross_signing_keys (o : raft_outcome) (user_id : string)
    (master self_signing user_signing : option bytes) (e : engine) :=
  expect_ok o (SetCrossSigningKeys user_id master self_signing user_signing) e.

Definition add_signatures (o : raft_outcome) (user_id : string) (targets : list (string * bytes))
    (e : engine) :=
  expect_ok o (AddSignatures user_id targets) e.

Definition claim_keys (o : raft_outcome) (claims : list ClaimRequest) (e : engine) :=
  ask o (ClaimKeys claims) (λ r, match r with ClaimedKeys keys => Ok keys | _ => unexpected end) e.

(** The schema the shard has reached, read from its cell. *)
Definition schema_at_least (e : engine) (target : N) : bool :=
  match stored_schema_version usid e with Ok v => target <=? v | Err _ => false end.

Definition username_taken (user_id : string) (e : engine) : result UserError bool :=
  let? reserved := storage_err (username_reserved (store e) user_id) in
  if (reserved : bool) then Ok true
  else if schema_at_least e USERNAME_BACKFILL_VERSION then Ok false
  else let? a := storage_err (account (store e) user_id) in Ok (is_some a).

Definition txn_records_available (e : engine) : bool := schema_at_least e 4.

Definition mark_txn (o : raft_outcome) (user_id device_id scope txn_id : string) (ts : N) (e : engine) :
    result UserError () * engine :=
  if negb (txn_records_available e) then (Ok (), e)
  else expect_ok o (MarkTxn user_id device_id scope txn_id ts) e.

(** *** Queues *)

Definition send_to_device (o : raft_outcome) (messages : list ToDeviceMessage) (e : engine) :
    result UserError () * engine :=
  match messages with [] => (Ok (), e) | _ => expect_ok o (SendToDevice messages) e end.

Definition apply_room_changes (o : raft_outcome) (source : string) (upto_seq : N)
    (changes : list MembershipChange) (e : engine) :=
  ask o (ApplyRoomChanges source upto_seq changes) changes_outcome e.

Definition ack_to_device (o : raft_outcome) (user_id device_id : string) (up_to : N) (e : engine) :=
  expect_ok o (AckToDevice user_id device_id up_to) e.

Definition record_key_change (o : raft_outcome) (user_id : string) (e : engine) :=
  expect_ok o (RecordKeyChange user_id) e.

Definition send_to_device_deduped (o : raft_outcome) (d : Draw) (origin message_id : string)
    (messages : list ToDeviceMessage) (e : engine) :=
  expect_ok o (SendToDeviceDeduped origin message_id (dr_clock d) messages) e.

Definition queue_outbound_edus (o : raft_outcome) (entries : list OutboundEdu) (e : engine) :
    result UserError () * engine :=
  match entries with [] => (Ok (), e) | _ => expect_ok o (QueueOutboundEdus entries) e end.

Definition ack_outbound_edus (o : raft_outcome) (destination : string) (up_to : N) (e : engine) :=
  expect_ok o (AckOutboundEdus destination up_to) e.

(** *** Passwords, backups, pushers *)

(** A command that takes the hash of a new password. *)
Definition with_password {A} (d : Draw) (password : string)
    (k : string → engine → result UserError A * engine) (e : engine) : result UserError A * engine :=
  match hash_password d password with
  | Err x => (Err x, e)
  | Ok password_hash => k password_hash e
  end.

Definition change_password (o : raft_outcome) (d : Draw) (user_id new_password : string)
    (logout_others : bool) (keep_device : string) (e : engine) : result UserError () * engine :=
  with_password d new_password (λ h,
    ask o (ChangePassword user_id h logout_others keep_device) ok_or_not_found) e.

Definition create_backup_version (o : raft_outcome) (user_id algorithm : string) (auth_data : bytes)
    (e : engine) :=
  ask o (CreateBackupVersion user_id algorithm auth_data)
    (λ r, match r with BackupVersion v => Ok v | _ => unexpected end) e.

Definition update_backup_version (o : raft_outcome) (user_id : string) (version : N) (algorithm : string)
    (auth_data : bytes) (e : engine) :=
  ask o (UpdateBackupVersion user_id version algorithm auth_data) ok_or_not_found e.

Definition delete_backup_version (o : raft_outcome) (user_id : string) (version : N) (e : engine) :=
  ask o (DeleteBackupVersion user_id version) ok_or_not_found e.

Definition backup_status (r : UserResponse) : result UserError (N * N) :=
  match r with
  | BackupStatus n etag => Ok (n, etag)
  | NotFound => Err ENotFound
  | _ => unexpected
  end.

Definition put_backup_keys (o : raft_outcome) (user_id : string) (version : N)
    (keys : list (string * string * bytes)) (e : engine) :=
  ask o (PutBackupKeys user_id version keys) backup_status e.

Definition delete_backup_keys (o : raft_outcome) (user_id : string) (version : N)
    (room_id session_id : option string) (e : engine) :=
  ask o (DeleteBackupKeys user_id version room_id session_id) backup_status e.

Definition set_pusher (o : raft_outcome) (user_id device_id app_id pushkey : string)
    (json : option bytes) (e : engine) :=
  expect_ok o (SetPusher user_id device_id app_id pushkey json) e.

Definition deactivate (o : raft_outcome) (user_id : string) (e : engine) :=
  ask o (Deactivate user_id) ok_or_not_found e.

(** *** Registration *)

Definition complete_uia_stage (o : raft_outcome) (d : Draw) (session_id : string) (request_hash : hash)
    (stage : string) (registration_token : option string) (e : engine) :=
  ask o (CompleteUiaStage session_id request_hash stage registration_token (dr_clock d)
           (saturating_sub64 (dr_clock d) UIA_SESSION_TTL_MS))
    (λ r, match r with
          | UiaCompleted completed tok => Ok (completed, tok)
          | UiaRequestMismatch => Err EUiaRequestMismatch
          | _ => unexpected
          end) e.

Definition set_profile (o : raft_outcome) (user_id : string) (displayname avatar_url : option (option string))
    (e : engine) :=
  expect_ok o (SetProfile user_id displayname avatar_url) e.

(** The account, then its profile: two proposals. *)
Definition register_with_token (o1 o2 : raft_outcome) (d : Draw) (req : RegisterRequest) (e : engine) :
    result UserError (string * option Session) * engine :=
  match (let? user_id := user_id_for (rq_localpart req) in
         let? password_hash := match rq_password req with
                               | Some p => let? h := hash_password d p in Ok (Some h)
                               | None => Ok None
                               end in
         Ok (user_id, password_hash)) with
  | Err x => (Err x, e)
  | Ok (user_id, password_hash) =>
      let session := if rq_inhibit_login req then None
                     else Some (new_session d user_id (rq_device_id req) (rq_display_name req)
                                  (rq_want_refresh req)) in
      let '(r, e) := ask o1 (RegisterWithToken user_id password_hash (dr_clock d) (snd <$> session)
                               (rq_registration_token req))
        (λ r, match r with
              | UOk => Ok ()
              | UserExists => Err EUserExists
              | InvalidToken => Err EInvalidToken
              | _ => unexpected
              end) e in
      match r with
      | Err x => (Err x, e)
      | Ok _ =>
          let '(r, e) := set_profile o2 user_id (Some (Some (user_localpart user_id))) None e in
          ((let? _ := r in Ok (user_id, fst <$> session)), e)
      end
  end.

Definition register (o1 o2 : raft_outcome) (d : Draw) (localpart : string)
    (password device_id display_name : option string) (want_refresh inhibit_login : bool) (e : engine) :=
  register_with_token o1 o2 d {| rq_localpart := localpart; rq_password := password;
    rq_device_id := device_id; rq_display_name := display_name; rq_want_refresh := want_refresh;
    rq_inhibit_login := inhibit_login; rq_registration_token := None |} e.

Definition create_registration_token (o : raft_outcome) (d : Draw) (token : string)
    (uses_allowed expiry_ts : option N) (e : engine) :=
  ask o (CreateRegistrationToken token uses_allowed expiry_ts (dr_clock d))
    (λ r, match r with UOk => Ok () | TokenExists => Err ETokenExists | _ => unexpected end) e.

Definition delete_registration_token (o : raft_outcome) (token : string) (e : engine) :=
  ask o (DeleteRegistrationToken token) ok_or_not_found e.

(** *** Administration *)

Definition set_locked (o : raft_outcome) (user_id : string) (locked : bool) (e : engine) :=
  lifecycle o (SetLocked user_id locked) e.

Definition set_admin (o : raft_outcome) (user_id : string) (admin : bool) (e : engine) :=
  lifecycle o (SetAdmin user_id admin) e.

Definition admin_set_password (o : raft_outcome) (d : Draw) (user_id new_password : string)
    (logout_devices : bool) (e : engine) : result UserError () * engine :=
  with_password d new_password (λ h, lifecycle o (AdminSetPassword user_id h logout_devices)) e.

Definition set_erased (o : raft_outcome) (user_id : string) (e : engine) :=
  lifecycle o (SetErased user_id) e.

Definition set_notices_room (o : raft_outcome) (user_id room_id : string) (e : engine) :=
  expect_ok o (SetNoticesRoom user_id room_id) e.

Definition set_room_blocked (o : raft_outcome) (d : Draw) (room_id : string) (blocked : bool)
    (by_admin : string) (e : engine) :=
  expect_ok o (SetRoomBlocked room_id blocked by_admin (dr_clock d)) e.

Definition link_external_id (o : raft_outcome) (user_id auth_provider external_id : string) (e : engine) :=
  ask o (LinkExternalId user_id auth_provider external_id)
    (λ r, match r with
          | UOk => Ok ()
          | NotFound => Err ENotFound
          | InvalidState => Err EInvalidState
          | ExternalIdInUse owner => Err (EExternalIdInUse owner)
          | _ => unexpected
          end) e.

Definition unlink_external_id (o : raft_outcome) (user_id auth_provider : string) (e : engine) :=
  ask o (UnlinkExternalId user_id auth_provider) ok_or_not_found e.

(** *** Account data, the directory, media, remote rooms *)

Definition put_account_data (o : raft_outcome) (user_id room_id data_type : string) (json : bytes)
    (e : engine) :=
  expect_ok o (PutAccountData user_id room_id data_type json) e.

Definition put_filter (o : raft_outcome) (user_id : string) (json : bytes) (e : engine) :
    result UserError string * engine :=
  let filter_id := hex16 (blake3_hash json) in
  let '(r, e) := expect_ok o (PutFilter user_id filter_id json) e in
  ((let? _ := r in Ok filter_id), e).

Definition set_room_visibility (o : raft_outcome) (room_id : string) (public : bool) (e : engine) :=
  ask o (SetRoomVisibility room_id public) only_ok e.

Definition create_alias (o : raft_outcome) (alias room_id creator : string) (e : engine) :=
  ask o (CreateAlias alias room_id creator)
    (λ r, match r with UOk => Ok () | AliasExists => Err EAliasExists | _ => unexpected end) e.

Definition delete_alias (o : raft_outcome) (alias : string) (e : engine) :=
  ask o (DeleteAlias alias) ok_or_not_found e.

Definition put_media (o : raft_outcome) (media_id : string) (m : MediaMeta) (e : engine) :=
  expect_ok o (PutMedia media_id m) e.

Definition record_remote_invite (o : raft_outcome) (user_id room_id sender event_id : string)
    (stripped_state : list bytes) (e : engine) :=
  expect_ok o (RecordRemoteInvite user_id room_id sender event_id stripped_state) e.

Definition record_remote_knock (o : raft_outcome) (user_id room_id sender event_id : string)
    (stripped_state : list bytes) (e : engine) :=
  expect_ok o (RecordRemoteKnock user_id room_id sender event_id stripped_state) e.

Definition record_remote_leave (o : raft_outcome) (user_id room_id : string) (e : engine) :=
  expect_ok o (RecordRemoteLeave user_id room_id) e.

Definition forget_room (o : raft_outcome) (user_id room_id : string) (e : engine) :=
  expect_ok o (ForgetRoom user_id room_id) e.

(** *** Reading rows *)

Abbreviation cells_of e := (eget usid e).

Lemma account_read user_id e :
  account (store e) user_id =
    match cells_of e T_ACCOUNT user_id with
    | Some b => let? a := dec_or "account decode" b in Ok (Some a)
    | None => Ok None
    end.
Proof using Type. reflexivity. Qed.

Lemma login_account_some user_id e a :
  login_account user_id e = Ok (Some a) →
  account_at (cells_of e) user_id = Some a ∧ ac_state a = Active.
Proof using Type.
  unfold login_account, account_at. rewrite account_read. destruct (cells_of e T_ACCOUNT user_id) as [b|]; [|done].
  cbn. unfold dec_or. destruct (dec b) as [a'|]; [|done]. cbn. destruct (ac_state a') eqn:Hst; cbn; [|done..].
  by intros [= <-].
Qed.

Lemma login_account_at user_id e a :
  account_at (cells_of e) user_id = Some a →
  login_account user_id e = Ok (if can_authenticate (ac_state a) then Some a else None).
Proof using Type.
  unfold login_account, account_at. rewrite account_read. destruct (cells_of e T_ACCOUNT user_id) as [b|]; [|done].
  cbn. unfold dec_or. by intros ->.
Qed.

(** Authentication as it was before token rows carried the state: the account
    is always asked. *)
Definition authenticate_by_account (clock : N) (tok : string) (e : engine) :
    result UserError (option (string * string)) :=
  let? o := storage_err (token_compat (store e) (token_hash tok)) in
  match o with
  | None => Ok None
  | Some (entry, _) =>
      if is_refresh (tk_kind entry) then Ok None
      else if default false ((λ t, t <=? clock) <$> tk_expires_ts entry) then Ok None
      else if negb (user_id_ok (tk_user_id entry)) then Err UInternal
      else
        let? a := login_account (tk_user_id entry) e in
        Ok (if is_some a then Some (tk_user_id entry, tk_device_id entry) else None)
  end.

(** C14 (equivalence): the state mirrored on a token row answers as the account
    would.  Where tokens mirror their accounts, which commands applied one by one keep,
    authenticating a request from the token row alone gives exactly what
    asking the account gives, errors included, whatever shape the row has;
    so a request is let through only for an account that exists and is
    active, and locking an account stops its tokens. *)
Theorem mirror_answers_as_account issued clock tok e :
  exact issued (cells_of e) →
  authenticate clock tok e = authenticate_by_account clock tok e ∧
  ∀ u dev, authenticate clock tok e = Ok (Some (u, dev)) →
    ∃ a, account_at (cells_of e) u = Some a ∧ ac_state a = Active.
Proof using Type.
  intros [_ HM].
  assert (authenticate clock tok e = authenticate_by_account clock tok e) as Heq.
  { unfold authenticate, authenticate_by_account. destruct (storage_err _) as [[[entry real]|]|] eqn:Htok; try done.
    destruct (is_refresh _); [done|]. destruct (default false _); [done|]. destruct (user_id_ok _); [|done].
    destruct real; cbn [negb]; [|by destruct (login_account _ _)].
    assert (token_at (cells_of e) (token_hash tok) = Some entry) as Hat.
    { revert Htok. unfold token_compat, token_at.
      change (read_get (us_read (store e)) T_TOKEN (token_hash tok)) with (cells_of e T_TOKEN (token_hash tok)).
      destruct (cells_of e T_TOKEN _) as [b|]; [|done]. unfold decode_token. cbn.
      destruct (dec b) as [t|]; [by intros [= ->]|]. by destruct (dec_or _ b). }
    destruct (HM _ _ Hat) as (a & Ha & ->). rewrite (login_account_at _ _ _ Ha).
    by destruct (can_authenticate (ac_state a)). }
  split; [done|]. intros u dev. rewrite Heq. unfold authenticate_by_account.
  destruct (storage_err _) as [[[entry real]|]|]; try done. destruct (is_refresh _); [done|].
  destruct (default false _); [done|]. destruct (user_id_ok _); [|done]. cbn [negb].
  destruct (login_account _ _) as [[a|]|] eqn:Ha; try done. intros [= <- <-].
  exists a. by apply login_account_some.
Qed.

(** *** Opening a session *)

Definition session_row (s : SessionCmd) (kind : TokenKind) (expires : option N) (st : AccountState) :
    TokenEntry := {|
  tk_user_id := sc_user_id s; tk_device_id := sc_device_id s; tk_kind := kind;
  tk_created_ts := sc_ts s; tk_expires_ts := expires; tk_state := st |}.

Lemma write_session_row s a env c :
  account_at (tget env c) (sc_user_id s) = Some a →
  (∀ rh, sc_refresh_hash s = Some rh → rh ≠ sc_token_hash s) →
  wp (write_session s) env (λ _ c',
    token_at (tget env c') (sc_token_hash s) = Some (session_row s Access (sc_expires_ts s) (ac_state a))) c.
Proof using Type.
  intros Ha Hne. unfold write_session, get_device. wp_step. apply wp_get_typed. intros prev _ _. wp_step.
  apply (wp_mono _ _ (λ _ c', ∀ t k, (t < 256)%N → t ≠ T_TOKEN → tget env c' t k = tget env c t k)).
  2: { destruct prev as [p|]; [|by wp_step].
       apply (wp_unit_tail _ _ env), delete_hashes_spec. intros c1 _ H2. by wp_step. }
  intros [] c1 O1. wp_step. apply wp_put. wp_step. unfold account_state, get_account. wp_step.
  apply wp_get_typed. intros oa Hoa _.
  match type of Hoa with tget env ?c2 _ _ ≫= _ = _ =>
    change (account_at (tget env c2) (sc_user_id s) = oa) in Hoa end.
  rewrite account_at_other in Hoa by done. unfold account_at in Hoa. rewrite O1 in Hoa by done.
  unfold account_at in Ha. rewrite Ha in Hoa. subst oa. wp_step. wp_step. apply wp_put.
  destruct (sc_refresh_hash s) as [rh|]; [apply wp_put|wp_step].
  - rewrite !token_at_put. rewrite decide_False by (by apply Hne). by rewrite decide_True.
  - rewrite token_at_put. by rewrite decide_True.
Qed.

Hypothesis Happ : ∀ cmd : UserCommand, app_command (enc cmd).

(** What a proposal that was answered wrote. *)
Lemma propose_spec o cmd e resp e' (Q : UserResponse → cells → Prop) :
  (∀ n, wp (user_command cmd) (apply_env usid e)
     (λ r c, Q r (tget (apply_env usid e) c)) (apply_init n)) →
  (∀ r f g, (∀ t k, (t < 256)%N → t ≠ T_SM_META → f t k = g t k) → Q r f → Q r g) →
  propose o cmd e = (Ok resp, e') → Q resp (cells_of e').
Proof using Happ.
  intros Hwp Hext Hp.
  pose proof (sm_apply_command usid UserApp (λ n r c, ∀ x, dec (A := UserResponse) r = Some x →
    Q x (tget (apply_env usid e) c)) (next_id e) (enc cmd) e (Happ cmd)) as Hsm.
  unfold propose, user_entry_of in Hp. destruct (sm_apply _ _ _ _) as [[[e1 rs] pub]|]; [|by destruct o].
  destruct Hsm as (n & r & c & _ & -> & HQ & _ & Hcells).
  - intros n. cbn [app_apply UserApp]. unfold user_apply. wp_step. apply wp_lift.
    intros cmd'. rewrite dec_or_enc. intros [= <-]. wp_step. eapply wp_mono; [|apply Hwp]. intros x c HQ. wp_step.
    intros x'. rewrite dec_enc. by intros [= <-].
  - destruct o; [|done..]. destruct (dec r) as [x|] eqn:Hx; [|done]. injection Hp as <- <-.
    eapply Hext; [|by apply HQ]. intros t k Ht Hne. symmetry. by apply Hcells.
Qed.

(** C13 (functional): a login that succeeds opens a session, and one that may
    not succeed does not.  The name resolves to an account of this server
    that exists, is active and whose password verifies; the access token the
    response carries then authenticates as that user on that device, at any
    time, or until the lifetime is over when a refresh token goes with it.
    An unknown name, a locked or deactivated account, one without a password
    and a wrong password are all refused alike, and nothing is proposed. *)
Theorem login_opens_session o d user password device name want e user_id :
  user_id_for user = Ok user_id →
  (want = true → token_hash (dr_refresh d) ≠ token_hash (dr_access d)) →
  (∀ session e', login_password o d user password device name want e = (Ok session, e') →
    (∃ a phc, account_at (cells_of e) user_id = Some a ∧ ac_state a = Active ∧
      ac_password_hash a = Some phc ∧ verify_password password phc = Ok true) ∧
    ∀ clock, (want = true → clock < add64 (dr_clock d) ACCESS_TOKEN_LIFETIME_MS) → user_id_ok user_id = true →
      authenticate clock (ss_access_token session) e' = Ok (Some (user_id, ss_device_id session))) ∧
  (∀ oa, login_account user_id e = Ok oa →
    match oa ≫= ac_password_hash with
    | Some phc => verify_password password phc = Ok false
    | None => True
    end → login_password o d user password device name want e = (Err EForbidden, e)).
Proof using Happ.
  intros Huser Hfresh. unfold login_password. rewrite Huser. split.
  2: { intros oa ->. destruct oa as [a|]; cbn [mbind option_bind]; [|done].
       destruct (ac_password_hash a) as [phc|]; [|done]. by intros ->. }
  intros session e'. destruct (login_account user_id e) as [[a|]|] eqn:Ha; cbn [mbind option_bind]; [|done..].
  apply login_account_some in Ha as [Ha Hact].
  destruct (ac_password_hash a) as [phc|] eqn:Hphc; [|done].
  destruct (verify_password password phc) as [[]|] eqn:Hv; [|done..]. intros Hopen.
  split; [by exists a, phc|]. intros clock Hclock Hok. unfold open_session, ask in Hopen.
  destruct (propose o _ e) as [[resp|] e1] eqn:Hp; [|done].
  set (s := (new_session d user_id device name want).2) in *.
  assert (resp = UOk ∧ session = (new_session d user_id device name want).1 ∧ e1 = e') as (-> & -> & ->)
    by (by destruct resp; injection Hopen).
  assert (token_at (cells_of e') (sc_token_hash s) = Some (session_row s Access (sc_expires_ts s) Active)) as Hrow.
  { apply (propose_spec o (CreateSession s) e UOk e' (λ r f, r = UOk →
      token_at f (sc_token_hash s) = Some (session_row s Access (sc_expires_ts s) Active))); [| |done|done].
    - intros n. cbn [user_command]. unfold create_session. wp_step. apply wp_get.
      destruct (tget _ _ _ _); cbn [is_some]; [|by wp_step]. wp_step.
      eapply wp_mono; [|apply (write_session_row s a); [done|]].
      + intros [] c H. wp_step. intros _. by rewrite Hact in H.
      + intros rh. unfold s. cbn. destruct want; [|done]. intros [= <-]. by apply Hfresh.
    - intros r f g Hfg Hr Hrok. rewrite <- (Hr Hrok). unfold token_at. by rewrite Hfg. }
  unfold authenticate, token_compat. cbn [ss_access_token].
  change (read_get (us_read (store e')) T_TOKEN ?h) with (cells_of e' T_TOKEN h).
  change (ss_access_token _) with (dr_access d). change (token_hash (dr_access d)) with (sc_token_hash s).
  unfold token_at in Hrow. destruct (cells_of e' T_TOKEN (sc_token_hash s)) as [b|]; [|done].
  cbn [mbind option_bind] in Hrow. unfold decode_token. rewrite Hrow. cbn [storage_err].
  cbn [session_row tk_kind tk_expires_ts tk_user_id tk_device_id tk_state is_refresh can_authenticate].
  change (sc_user_id s) with user_id. rewrite Hok. cbn [negb].
  replace (default false _) with false; [done|]. unfold s. cbn. destruct want; [|done]. cbn.
  symmetry. apply N.leb_gt. by apply Hclock.
Qed.

(** C15 (error): a session whose tokens have the row shape from before the
    state was mirrored cannot be refreshed, and asking for it is dangerous.
    [refresh] reads the row only in the new shape, so it fails with a storage
    error; the same command proposed by a server not yet upgraded makes every
    upgraded replica fail in apply, where the command cannot be retried away.
    An access token of that shape still works, by asking the account. *)
Theorem old_rows_cannot_refresh tok b old e :
  cells_of e T_TOKEN (token_hash tok) = Some b →
  dec (A := TokenEntry) b = None → dec (A := TokenEntryV4) b = Some old →
  (∀ o d, refresh o d tok e = (Err (UStorage (Engine "token decode")), e)) ∧
  (∀ s, match sm_apply usid UserApp [user_entry_of next_id e (RefreshSession (token_hash tok) s)] e with
        | Ok _ => False | Err _ => True end) ∧
  (∀ clock a, t4_kind old = Access → default false ((λ t, t <=? clock) <$> t4_expires_ts old) = false →
     user_id_ok (t4_user_id old) = true → account_at (cells_of e) (t4_user_id old) = Some a →
     authenticate clock tok e =
       Ok (if can_authenticate (ac_state a) then Some (t4_user_id old, t4_device_id old) else None)).
Proof using Happ.
  intros Hb Hnew Hold. split_and!.
  - intros o d. unfold refresh, token, local_typed.
    change (read_get (us_read (store e)) T_TOKEN (token_hash tok)) with (cells_of e T_TOKEN (token_hash tok)).
    rewrite Hb. cbn. unfold dec_or. by rewrite Hnew.
  - intros s. pose proof (sm_apply_command usid UserApp (λ _ _ _, False) (next_id e)
      (enc (RefreshSession (token_hash tok) s)) e (Happ _)) as Hsm. unfold user_entry_of.
    destruct (sm_apply _ _ _ _) as [[[e1 rs] pub]|]; [|done].
    destruct Hsm as (n & r & c & _ & _ & [] & _). intros n. cbn [app_apply UserApp].
    unfold user_apply. wp_step. apply wp_lift. intros cmd. rewrite dec_or_enc. intros [= <-].
    cbn [user_command]. unfold refresh_session. wp_step. wp_step. apply wp_get_typed. intros entry.
    rewrite eget_init, Hb. cbn. rewrite Hnew. intros <- [[? [=]]|[=]].
  - intros clock a Hk Hexp Hok Ha. unfold authenticate, token_compat.
    change (read_get (us_read (store e)) T_TOKEN (token_hash tok)) with (cells_of e T_TOKEN (token_hash tok)).
    rewrite Hb. unfold decode_token, dec_or. rewrite Hnew, Hold.
    cbn [ok_or storage_err token_v4_to_v5 tk_kind tk_expires_ts tk_user_id tk_device_id].
    rewrite Hk, Hexp, Hok. cbn [is_refresh negb]. rewrite (login_account_at _ _ _ Ha).
    by destruct (can_authenticate (ac_state a)).
Qed.
End Front.

(** ** Witnesses

    Hashing is the identity and a password its own hash; the shard's log is
    the one of [UserMirror]'s and a registration. *)

#[export] Instance demo_crypto : UserCrypto := {|
  blake3_hash s := s; hex16 h := h;
  argon2_hash password salt := Some password;
  argon2_verify password phc := Some (bool_decide (password = phc));
  user_localpart s := (split_once ":" (str_drop 1 s)).1;
  lowercase_unicode s := s |}.

Definition demo_next (e : engine) : @LogId demo_raft := 1.

Lemma demo_app_command (cmd : UserCommand) : app_command (enc cmd).
Proof.
  pose proof (demo_user_entry cmd) as He. unfold user_entry, user_cmd in He. cbn [payload] in He.
  unfold app_command. by destruct (enc cmd).
Qed.

Definition mirror_end : engine := demo_end (map (λ c, [c]) demo_mirror_cmds).

Lemma mirror_end_exact : exact demo_issued (eget user_shard mirror_end).
Proof.
  assert (user_log user_shard (λ l, (length l ≤ 1)%nat ∧ Forall (entry_ok (mirror_ok demo_issued)) l) ∅
    (zip demo_mirror_cmds (replicate 6 UOk)) mirror_end) as Hlog.
  { apply demo_log; [|vm_compute; reflexivity]. simpl.
    repeat (apply list.Forall_cons_2; [split; [simpl; lia|]; apply list.Forall_singleton;
      unfold entry_ok, user_cmd; cbn [payload]; rewrite dec_enc; intros ? [= <-]; simpl;
      unfold session_ok; simpl; naive_solver|]). done. }
  apply (log_exact demo_issued user_shard ∅ _ _ Hlog).
  split; [split|]; intros ??; try intros ?; by intros.
Qed.

Abbreviation fauth := (authenticate user_shard).

(** The token of a locked account is refused; the row, which says so, is the
    only one read. *)
Lemma mirror_answers_as_account_witness :
  exact demo_issued (eget user_shard mirror_end) ∧
  token_at (eget user_shard mirror_end) "ha" ≠ None ∧
  fauth 9 "ha" mirror_end = Ok None ∧
  authenticate_by_account user_shard 9 "ha" mirror_end = Ok None.
Proof.
  assert (authenticate_by_account user_shard 9 "ha" mirror_end = Ok None) as H by (vm_compute; reflexivity).
  destruct (mirror_answers_as_account user_shard demo_issued 9 "ha" mirror_end) as [Heq _].
  { apply mirror_end_exact. }
  split_and!; [apply mirror_end_exact| |by rewrite Heq|done].
  vm_compute. discriminate.
Defined.

(** Alice has an account, and logs in with a refresh token. *)
Definition alice_end : engine := demo_end [[Register "@alice:hs" (Some "secret") 1 None]]%string.

Definition alice_draw : Draw := {|
  dr_clock := 1000; dr_access := "access"; dr_refresh := "refresh"; dr_device := "DEV"; dr_salt := "s" |}.

Definition alice_login (password : string) : result UserError Session * engine :=
  login_password user_shard demo_next "hs" Done alice_draw "Alice" password None None true alice_end.

Lemma login_opens_session_witness :
  ∃ session e', alice_login "secret" = (Ok session, e') ∧
    fauth 2000 (ss_access_token session) e' = Ok (Some ("@alice:hs", "DEV"))%string ∧
    fauth 3601000 (ss_access_token session) e' = Ok None ∧
    alice_login "guess" = (Err EForbidden, alice_end).
Proof.
  destruct (login_opens_session user_shard demo_next "hs" demo_app_command Done alice_draw
    "Alice" "secret" None None true alice_end "@alice:hs") as [Hgood _].
  { vm_compute. reflexivity. }
  { intros _. vm_compute. discriminate. }
  destruct (login_opens_session user_shard demo_next "hs" demo_app_command Done alice_draw
    "Alice" "guess" None None true alice_end "@alice:hs") as [_ Hbad].
  { vm_compute. reflexivity. }
  { intros _. vm_compute. discriminate. }
  destruct (alice_login "secret") as [r e'] eqn:Hlogin.
  assert (ss_device_id <$> (match r with Ok s => Some s | Err _ => None end) = Some "DEV"%string) as Hdev.
  { change r with (r, e').1. rewrite <- Hlogin. vm_compute. reflexivity. }
  assert (match r with Ok s => fauth 3601000 (ss_access_token s) e' | Err _ => Err UInternal end = Ok None) as Hlate.
  { change r with (r, e').1. change e' with (r, e').2 at 2. rewrite <- Hlogin. vm_compute. reflexivity. }
  destruct r as [session|]; [|done]. injection Hdev as Hdev. exists session, e'.
  destruct (Hgood session e' Hlogin) as [_ Hauth]. split_and!; [done| |done|].
  - rewrite <- Hdev. apply Hauth; [|vm_compute; reflexivity]. intros _. by vm_compute.
  - apply (Hbad (match login_account user_shard "@alice:hs" alice_end with Ok oa => oa | Err _ => None end));
      vm_compute; reflexivity.
Defined.

(** Before the migration: Alice's tokens in the old shape. *)
Definition old_row (kind : TokenKind) : TokenEntryV4 := {|
  t4_user_id := "@alice:hs"; t4_device_id := "DEV"; t4_kind := kind; t4_created_ts := 5;
  t4_expires_ts := None |}.

Definition unmigrated_end : engine :=
  <[ctx_key user_shard T_TOKEN "access" := enc (old_row Access)]>
    (<[ctx_key user_shard T_TOKEN "refresh" := enc (old_row Refresh)]> alice_end).

Lemma old_rows_cannot_refresh_witness :
  refresh user_shard demo_next Done alice_draw "refresh" unmigrated_end
    = (Err (UStorage (Engine "token decode")), unmigrated_end) ∧
  match sm_apply user_shard UserApp
    [user_entry_of demo_next unmigrated_end (RefreshSession "refresh" (demo_session "@alice:hs" "DEV" "new"))]
    unmigrated_end with Ok _ => False | Err _ => True end ∧
  fauth 9 "access" unmigrated_end = Ok (Some ("@alice:hs", "DEV"))%string.
Proof.
  destruct (old_rows_cannot_refresh user_shard demo_next demo_app_command "refresh"
    (enc (old_row Refresh)) (old_row Refresh) unmigrated_end) as (Hr & Hs & _);
    [vm_compute; reflexivity..|].
  destruct (old_rows_cannot_refresh user_shard demo_next demo_app_command "access"
    (enc (old_row Access)) (old_row Access) unmigrated_end) as (_ & _ & Ha);
    [vm_compute; reflexivity..|].
  split_and!; [apply Hr|apply Hs|].
  destruct (account_at (eget user_shard unmigrated_end) "@alice:hs") as [a|] eqn:Hac;
    [|by vm_compute in Hac].
  assert (can_authenticate (ac_state a) = true) as Hst.
  { revert Hac. vm_compute. by intros [= <-]. }
  rewrite (Ha 9 a); [by rewrite Hst|done..|exact Hac].
Defined.
