(* ===== verification/ClientToken.v ===== *)
(** * The positions clients hold (saltator-cs-api)

    The sync tokens of routes/sync.rs ([SyncPos], [format_token],
    [parse_token_n]), the pagination tokens of routes/rooms/reads.rs
    ([parse_page_pos], [parse_topo_token], [PaginationBound]) and the type
    patterns of a sync filter ([type_matches]).  A token is text that leaves
    the server and comes back, so what is proved is that it comes back as the
    position it was minted for, and that no other cluster layout takes it. *)

From Stdlib Require Import Ascii.
From stdpp Require Import pretty.
From S2P Require Import Prelude.
From stdpp Require Import options.

Local Open Scope N_scope.

(** ** Errors (error.rs)

    An [ApiError] is its status and errcode; of the message only what names
    the cause is kept. *)
Inductive ApiError : Type :=
| Forbidden (message : string)
| NotFound (message : string)
| InvalidParam (message : string)
| BadJson (message : string)
| Internal.

(** [r.map_err(ApiError::internal)] *)
Definition internal {E A} (r : result E A) : result ApiError A :=
  match r with Ok a => Ok a | Err _ => Err Internal end.

(** ** Text *)

(** [s.split(c)]: at least one piece. *)
Fixpoint str_split (c : ascii) (s : string) : list string :=
  match s with
  | EmptyString => [EmptyString]
  | String a s =>
      if bool_decide (a = c) then EmptyString :: str_split c s
      else match str_split c s with
           | p :: ps => String a p :: ps
           | [] => []
           end
  end.

(** [s.strip_prefix(p)] *)
Fixpoint strip_prefix (p s : string) : option string :=
  match p, s with
  | EmptyString, _ => Some s
  | String a p, String b s => if bool_decide (a = b) then strip_prefix p s else None
  | String _ _, EmptyString => None
  end.

Definition is_digit (c : ascii) : bool := in_range 48 57 c.

(** The digits of [u64::from_str]: checked multiplication and addition. *)
Fixpoint u64_digits (acc : N) (s : string) : option N :=
  match s with
  | EmptyString => Some acc
  | String c s =>
      if is_digit c then
        let v := 10 * acc + (N_of_ascii c - 48) in
        if v <=? u64_max then u64_digits v s else None
      else None
  end.

(** [s.parse::<u64>()]: an optional [+] and at least one digit. *)
Definition parse_u64 (s : string) : option N :=
  match s with
  | EmptyString => None
  | String c s' =>
      if bool_decide (c = "+"%char) then
        match s' with EmptyString => None | _ => u64_digits 0 s' end
      else u64_digits 0 s
  end.

(** [n.to_string()] *)
Definition u64_to_string (n : N) : string := pretty n.

(** ** Sync positions *)

Record SyncPos : Type := { sp_room : list N; sp_user : N; sp_typing : N; sp_presence : N }.

#[export] Instance SyncPos_eq_dec : EqDecision SyncPos.
Proof. solve_decision. Defined.

(** [SyncPos::default()] *)
Definition sync_start : SyncPos :=
  {| sp_room := []; sp_user := 0; sp_typing := 0; sp_presence := 0 |}.

Definition room_at (p : SyncPos) (idx : N) : N := default 0 (sp_room p !! N.to_nat idx).

(** [rooms.join(".")] *)
Definition join (sep : string) (l : list string) : string := String.concat sep l.

Definition format_token (p : SyncPos) : string :=
  if (length (sp_room p) <=? 1)%nat then
    "s" +:+ u64_to_string (default 0 (head (sp_room p))) +:+ "_" +:+ u64_to_string (sp_user p)
      +:+ "_" +:+ u64_to_string (sp_typing p) +:+ "_" +:+ u64_to_string (sp_presence p)
  else
    "s" +:+ u64_to_string (sp_user p) +:+ "_" +:+ u64_to_string (sp_typing p)
      +:+ "_" +:+ u64_to_string (sp_presence p)
      +:+ "r" +:+ join "." (u64_to_string <$> sp_room p).

Definition invalid_sync : ApiError := InvalidParam "Invalid sync token".

Definition parse_token_n (s : string) (room_shards : option N) : result ApiError SyncPos :=
  match strip_prefix "s" s with
  | None => Err invalid_sync
  | Some body =>
      match split_once "r" body with
      | (head, Some rooms) =>
          match parse_u64 <$> str_split "_" head with
          | [Some user; Some typing; Some presence] =>
              match mapM parse_u64 (str_split "." rooms) with
              | None => Err invalid_sync
              | Some room =>
                  if default false ((λ n, negb (N.of_nat (length room) =? n)) <$> room_shards)
                  then Err invalid_sync
                  else Ok {| sp_room := room; sp_user := user; sp_typing := typing;
                             sp_presence := presence |}
              end
          | _ => Err invalid_sync
          end
      | (_, None) =>
          if default false ((λ n, 1 <? n) <$> room_shards) then Err invalid_sync
          else
            match parse_u64 <$> str_split "_" body with
            | [Some room; Some user; Some typing] =>
                Ok {| sp_room := [room]; sp_user := user; sp_typing := typing; sp_presence := 0 |}
            | [Some room; Some user; Some typing; Some presence] =>
                Ok {| sp_room := [room]; sp_user := user; sp_typing := typing;
                      sp_presence := presence |}
            | _ => Err invalid_sync
            end
      end
  end.

(** Both accept a token of any shard count. *)
Definition token_user_seq (s : string) : result ApiError N :=
  let? p := parse_token_n s None in Ok (sp_user p).

Definition token_room_seq (s : string) (shard_idx : N) : result ApiError N :=
  let? p := parse_token_n s None in Ok (room_at p shard_idx).

(** ** Pagination positions *)

Record PaginationBound : Type := { pb_seq : N; pb_at_event : bool; pb_stream : option N }.

Definition upper (b : PaginationBound) : N :=
  if pb_at_event b then saturating_sub64 (pb_seq b) 1 else pb_seq b.

Definition lower (b : PaginationBound) : N := pb_seq b.

Definition at_seq (b : PaginationBound) : N :=
  match pb_stream b with Some s => s | None => upper b end.

Inductive PagePos : Type :=
| PTimeline (b : PaginationBound)
| PHistory (idx : N).

Inductive RowPos : Type :=
| RTimeline (seq : N)
| RHistory (idx : N).

Definition invalid_page : ApiError := InvalidParam "Invalid pagination token".

Definition parse_topo_token (token : string) (shard_idx : N) : result ApiError PaginationBound :=
  if starts_with "s" token then
    let? seq := token_room_seq token shard_idx in
    Ok {| pb_seq := seq; pb_at_event := false; pb_stream := Some seq |}
  else
    let? body := ok_or (strip_prefix "t" token) invalid_page in
    let '(seq, stream) := split_once "_" body in
    let? seq := ok_or (parse_u64 seq) invalid_page in
    match stream with
    | None => Ok {| pb_seq := seq; pb_at_event := true; pb_stream := None |}
    | Some stream =>
        let? stream := ok_or (parse_u64 stream) invalid_page in
        Ok {| pb_seq := seq; pb_at_event := true; pb_stream := Some stream |}
    end.

Definition parse_page_pos (token : string) (shard_idx : N) : result ApiError PagePos :=
  match strip_prefix "h" token with
  | Some idx => let? i := ok_or (parse_u64 idx) invalid_page in Ok (PHistory i)
  | None => let? b := parse_topo_token token shard_idx in Ok (PTimeline b)
  end.

(** The tokens the server mints: [end] of a page of messages, and a sync
    response's [prev_batch]. *)
Definition row_token (p : RowPos) : string :=
  match p with
  | RTimeline s => "t" +:+ u64_to_string s
  | RHistory i => "h" +:+ u64_to_string i
  end.

Definition prev_batch_token (first_seq now : N) : string :=
  "t" +:+ u64_to_string first_seq +:+ "_" +:+ u64_to_string now.

(** ** Type patterns *)

(** [s.find(p)] *)
Fixpoint str_find (p s : string) : option nat :=
  if starts_with p s then Some 0%nat
  else match s with
       | EmptyString => None
       | String _ s => S <$> str_find p s
       end.

(** The middle segments, then the last one at the end. *)
Fixpoint glob_rest (segs : list string) (rest : string) : bool :=
  match segs with
  | [] => false
  | [last] => ends_with last rest
  | seg :: segs =>
      match str_find seg rest with
      | Some i => glob_rest segs (str_drop (i + String.length seg) rest)
      | None => false
      end
  end.

Definition glob (pat s : string) : bool :=
  if negb (str_existsb (λ c, bool_decide (c = "*"%char)) pat) then bool_decide (pat = s)
  else
    match str_split "*" pat with
    | first :: segs =>
        match strip_prefix first s with
        | Some rest => glob_rest segs rest
        | None => false
        end
    | [] => false
    end.

Definition type_matches (types : option (list string)) (not_types : list string) (ty : string) :
    bool :=
  if existsb (λ p, glob p ty) not_types then false
  else match types with
       | None => true
       | Some allow => existsb (λ p, glob p ty) allow
       end.

(** ** Facts about text *)

Lemma strip_prefix_iff p s t : strip_prefix p s = Some t ↔ s = p +:+ t.
Proof.
  revert s. induction p as [|a p IH]; intros s; simpl; [naive_solver|].
  destruct s as [|b s]; [done|]. case_bool_decide as Hab.
  - subst. rewrite IH. naive_solver.
  - split; [done|]. intros [= -> _]. done.
Qed.

Lemma str_forallb_app f a b : str_forallb f (a +:+ b) = str_forallb f a && str_forallb f b.
Proof. induction a as [|c a IH]; simpl; [done|]. by rewrite IH, andb_assoc. Qed.

Lemma digit_char d : d < 10 → is_digit (pretty_N_char d) = true ∧ N_of_ascii (pretty_N_char d) - 48 = d.
Proof.
  intros Hd. assert (d = 0 ∨ d = 1 ∨ d = 2 ∨ d = 3 ∨ d = 4 ∨ d = 5 ∨ d = 6 ∨ d = 7 ∨ d = 8 ∨ d = 9)
    as Hc by lia.
  destruct_or! Hc; subst; split; reflexivity.
Qed.

Lemma pretty_go_digits n s : str_forallb is_digit s = true → str_forallb is_digit (pretty_N_go n s) = true.
Proof.
  revert s. induction (N.lt_wf_0 n) as [n _ IH]; intros s Hs.
  destruct (decide (n = 0)) as [->|Hn]; [by rewrite pretty_N_go_0|].
  rewrite pretty_N_go_step by lia. apply IH; [by apply N.div_lt; lia|]. simpl.
  rewrite Hs. by destruct (digit_char (n mod 10)) as [-> _]; [apply N.mod_lt|].
Qed.

Lemma pretty_go_app n s : ∃ d, pretty_N_go n s = d +:+ s.
Proof.
  revert s. induction (N.lt_wf_0 n) as [n _ IH]; intros s.
  destruct (decide (n = 0)) as [->|Hn]; [by exists EmptyString|].
  rewrite pretty_N_go_step by lia.
  destruct (IH (n / 10) (N.div_lt n 10 ltac:(lia) ltac:(lia)) (String (pretty_N_char (n mod 10)) s))
    as [d ->].
  exists (d +:+ str1 (pretty_N_char (n mod 10))). by rewrite str_app_assoc.
Qed.

(** The digits of [n] read back as [n]. *)
Lemma u64_digits_go n s : n ≤ u64_max → u64_digits 0 (pretty_N_go n s) = u64_digits n s.
Proof.
  revert s. induction (N.lt_wf_0 n) as [n _ IH]; intros s Hn.
  destruct (decide (n = 0)) as [->|H0]; [by rewrite pretty_N_go_0|].
  assert (n / 10 < n) as Hlt by (by apply N.div_lt; lia).
  rewrite pretty_N_go_step by lia. rewrite IH by (done || lia). cbn [u64_digits].
  destruct (digit_char (n mod 10)) as [-> ->]; [by apply N.mod_lt|].
  replace (10 * (n / 10) + n mod 10) with n by (rewrite <- N.div_mod; lia).
  by rewrite (proj2 (N.leb_le n u64_max) Hn).
Qed.

Lemma to_string_digits n : str_forallb is_digit (u64_to_string n) = true.
Proof.
  unfold u64_to_string, pretty, pretty_N. case_decide; [done|]. by apply pretty_go_digits.
Qed.

Lemma to_string_nonempty n : u64_to_string n ≠ EmptyString.
Proof.
  unfold u64_to_string, pretty, pretty_N. case_decide; [done|].
  rewrite pretty_N_go_step by lia. destruct (pretty_go_app (n / 10) (str1 (pretty_N_char (n mod 10)))) as [d Hd].
  unfold str1 in Hd. rewrite Hd. by destruct d.
Qed.

Lemma parse_to_string n : n ≤ u64_max → parse_u64 (u64_to_string n) = Some n.
Proof.
  intros Hn. pose proof (to_string_digits n) as Hd. pose proof (to_string_nonempty n) as He.
  unfold parse_u64. destruct (u64_to_string n) as [|c s] eqn:Hs; [done|]. cbn [str_forallb] in Hd.
  rewrite bool_decide_false by (intros ->; done). rewrite <- Hs. clear Hs Hd He.
  unfold u64_to_string, pretty, pretty_N. case_decide as H0; [by subst|].
  by rewrite u64_digits_go.
Qed.

(** A piece without the separator is one piece. *)
Definition without (c : ascii) (s : string) : bool := str_forallb (λ a, negb (bool_decide (a = c))) s.

Lemma without_digits c s : is_digit c = false → str_forallb is_digit s = true → without c s = true.
Proof.
  intros Hc. unfold without. induction s as [|a s IH]; simpl; [done|].
  rewrite !andb_true_iff, negb_true_iff, bool_decide_eq_false. intros [Ha Hs].
  split; [|by apply IH]. by intros ->; rewrite Hc in Ha.
Qed.

Lemma split_nil c s : without c s = true → str_split c s = [s].
Proof.
  unfold without. induction s as [|a s IH]; simpl; [done|].
  rewrite andb_true_iff, negb_true_iff. intros [-> Hs]. by rewrite IH.
Qed.

Lemma split_cons c a s : without c a = true → str_split c (a +:+ String c s) = a :: str_split c s.
Proof.
  unfold without. induction a as [|b a IH]; simpl; [by rewrite bool_decide_true|].
  rewrite andb_true_iff, negb_true_iff. intros [-> Ha]. by rewrite IH.
Qed.

Lemma split_once_none c s : without c s = true → split_once c s = (s, None).
Proof.
  unfold without. induction s as [|a s IH]; simpl; [done|].
  rewrite andb_true_iff, negb_true_iff. intros [-> Hs]. by rewrite IH.
Qed.

Lemma split_once_some c a s : without c a = true → split_once c (a +:+ String c s) = (a, Some s).
Proof.
  unfold without. induction a as [|b a IH]; simpl; [by rewrite bool_decide_true|].
  rewrite andb_true_iff, negb_true_iff. intros [-> Ha]. by rewrite IH.
Qed.

Lemma without_app c a b : without c (a +:+ b) = without c a && without c b.
Proof. apply str_forallb_app. Qed.

Lemma without_number c n : is_digit c = false → without c (u64_to_string n) = true.
Proof. intros Hc. apply without_digits; [done|apply to_string_digits]. Qed.

#[local] Hint Rewrite @without_app @str_app_assoc : text.
#[local] Hint Resolve without_number : text.

Lemma join_cons sep a l : l ≠ [] → join sep (a :: l) = a +:+ sep +:+ join sep l.
Proof. by destruct l. Qed.

(** [a_b], [a_b_c], ... split into their numbers. *)
Lemma split_numbers sep l :
  is_digit sep = false → l ≠ [] → Forall (λ n, n ≤ u64_max) l →
  parse_u64 <$> str_split sep (join (str1 sep) (u64_to_string <$> l)) = Some <$> l.
Proof.
  intros Hs. induction l as [|n l IH]; intros Hl Hw; [done|].
  apply list.Forall_cons in Hw as [Hn Hw]. destruct l as [|m l].
  - cbn. rewrite split_nil by auto with text. cbn. by rewrite parse_to_string.
  - rewrite (fmap_cons u64_to_string n), join_cons by done.
    change (str1 sep +:+ ?s) with (String sep s).
    rewrite split_cons by auto with text. rewrite fmap_cons, parse_to_string, IH by done. done.
Qed.

Lemma without_numbers c sep l :
  is_digit c = false → without c sep = true → without c (join sep (u64_to_string <$> l)) = true.
Proof.
  intros Hc Hs. induction l as [|n [|m l] IH]; [done|by apply without_number|].
  rewrite (fmap_cons u64_to_string n), join_cons, !without_app by done.
  by rewrite without_number, Hs, IH.
Qed.

Lemma mapM_some {A B} (f : A → option B) l k : f <$> l = Some <$> k → mapM f l = Some k.
Proof.
  revert k. induction l as [|x l IH]; intros [|y k] H; try done.
  cbn in H. injection H as Hx Hl. cbn. by rewrite Hx, (IH k).
Qed.

(** ** Tokens come back *)

Definition pos_fits (p : SyncPos) : Prop :=
  Forall (λ n, n ≤ u64_max) (sp_user p :: sp_typing p :: sp_presence p :: sp_room p).

Definition numbers (sep : string) (l : list N) : string := join sep (u64_to_string <$> l).

Lemma single_token p r :
  sp_room p = [r] →
  format_token p = "s" +:+ numbers "_" [r; sp_user p; sp_typing p; sp_presence p].
Proof. unfold format_token. by intros ->. Qed.

Lemma multi_token p :
  (1 < length (sp_room p))%nat →
  format_token p = "s" +:+ (numbers "_" [sp_user p; sp_typing p; sp_presence p]
    +:+ String "r" (numbers "." (sp_room p))).
Proof.
  intros H. unfold format_token, numbers. rewrite (proj2 (Nat.leb_gt _ _) H).
  cbn [fmap list_fmap join String.concat]. by rewrite !str_app_assoc.
Qed.

Lemma without_joined c sep l :
  is_digit c = false → without c sep = true → without c (numbers sep l) = true.
Proof. apply without_numbers. Qed.

Lemma parse_body sep l :
  is_digit sep = false → l ≠ [] → Forall (λ n, n ≤ u64_max) l →
  parse_u64 <$> str_split sep (numbers (str1 sep) l) = Some <$> l.
Proof. apply split_numbers. Qed.

(** Three numbers are a token of before presence. *)
Lemma parse_single n r u t p o :
  Forall (λ n, n ≤ u64_max) (r :: u :: t :: from_option (λ p, [p]) [] p) →
  o = None ∨ o = Some n →
  parse_token_n ("s" +:+ numbers "_" (r :: u :: t :: from_option (λ p, [p]) [] p)) o =
    if default false ((λ n, 1 <? n) <$> o) then Err invalid_sync
    else Ok {| sp_room := [r]; sp_user := u; sp_typing := t; sp_presence := default 0 p |}.
Proof.
  intros Hw Ho. unfold parse_token_n.
  change (strip_prefix "s" ("s" +:+ ?b)) with (Some b). cbv iota beta.
  rewrite split_once_none by (by apply without_joined).
  destruct (default false _); [done|].
  rewrite (parse_body "_") by done. by destruct p.
Qed.

Lemma parse_multi p o :
  pos_fits p → sp_room p ≠ [] →
  parse_token_n ("s" +:+ (numbers "_" [sp_user p; sp_typing p; sp_presence p]
    +:+ String "r" (numbers "." (sp_room p)))) o =
    if default false ((λ n, negb (N.of_nat (length (sp_room p)) =? n)) <$> o) then Err invalid_sync
    else Ok p.
Proof.
  intros Hw Hne. unfold pos_fits in Hw. repeat setoid_rewrite list.Forall_cons in Hw.
  destruct Hw as (Hu & Ht & Hp & Hr). unfold parse_token_n.
  change (strip_prefix "s" ("s" +:+ ?b)) with (Some b). cbv iota beta.
  rewrite split_once_some by (by apply without_joined).
  rewrite (parse_body "_") by (done || by repeat constructor). cbn [fmap list_fmap].
  rewrite (mapM_some _ _ (sp_room p)) by (by apply (parse_body ".")).
  by destruct p.
Qed.

Lemma sync_token_parses p o :
  pos_fits p → sp_room p ≠ [] → o ≠ Some 0 →
  parse_token_n (format_token p) o =
    if default false ((λ n, negb (N.of_nat (length (sp_room p)) =? n)) <$> o) then Err invalid_sync
    else Ok p.
Proof.
  intros Hw Hne Ho. destruct (decide (length (sp_room p) ≤ 1)%nat) as [Hl|Hl].
  - destruct p as [[|r [|r' l]] u t pr]; cbn [sp_room length] in *; [done| |lia].
    rewrite (single_token _ r) by done. cbn [sp_user sp_typing sp_presence].
    unfold pos_fits in Hw. cbn in Hw. repeat setoid_rewrite list.Forall_cons in Hw.
    rewrite (parse_single (default 0 o) r u t (Some pr)).
    + cbn [from_option default sp_room length]. destruct o as [n|]; [|done].
      change ((if 1 <? n then Err invalid_sync else Ok {| sp_room := [r]; sp_user := u; sp_typing := t; sp_presence := pr |})
        = if negb (1 =? n) then Err invalid_sync else Ok {| sp_room := [r]; sp_user := u; sp_typing := t; sp_presence := pr |}).
      assert (n ≠ 0) by congruence. by destruct (N.ltb_spec 1 n), (N.eqb_spec 1 n); try lia.
    + cbn. repeat constructor; apply Hw.
    + destruct o; [by right|by left].
  - rewrite multi_token by lia. by apply parse_multi.
Qed.

Lemma page_of_sync p idx :
  pos_fits p → sp_room p ≠ [] →
  parse_page_pos (format_token p) idx =
    Ok (PTimeline {| pb_seq := room_at p idx; pb_at_event := false; pb_stream := Some (room_at p idx) |}).
Proof.
  intros Hw Hne. unfold parse_page_pos.
  assert (∃ b, format_token p = String "s" b) as [b Hb].
  { unfold format_token. case_match; by eexists. }
  assert (strip_prefix "h" (format_token p) = None) as -> by (by rewrite Hb).
  unfold parse_topo_token, token_room_seq.
  assert (starts_with "s" (format_token p) = true) as -> by (by rewrite Hb; cbn; rewrite bool_decide_true).
  by rewrite sync_token_parses.
Qed.

Lemma page_of_number n idx :
  n ≤ u64_max →
  parse_page_pos (row_token (RTimeline n)) idx =
    Ok (PTimeline {| pb_seq := n; pb_at_event := true; pb_stream := None |}) ∧
  parse_page_pos (row_token (RHistory n)) idx = Ok (PHistory n).
Proof.
  intros Hn. unfold parse_page_pos, row_token. split.
  - change (strip_prefix "h" ("t" +:+ ?b)) with (@None string). cbv iota.
    unfold parse_topo_token. change (starts_with "s" ("t" +:+ ?b)) with false. cbv iota.
    change (strip_prefix "t" ("t" +:+ ?b)) with (Some b). cbn [ok_or].
    rewrite split_once_none by auto with text. by rewrite parse_to_string.
  - change (strip_prefix "h" ("h" +:+ ?b)) with (Some b). cbv iota. by rewrite parse_to_string.
Qed.

Lemma page_of_prev_batch n now idx :
  n ≤ u64_max → now ≤ u64_max →
  parse_page_pos (prev_batch_token n now) idx =
    Ok (PTimeline {| pb_seq := n; pb_at_event := true; pb_stream := Some now |}).
Proof.
  intros Hn Hnow. unfold parse_page_pos, prev_batch_token.
  change (strip_prefix "h" ("t" +:+ ?b)) with (@None string). cbv iota.
  unfold parse_topo_token. change (starts_with "s" ("t" +:+ ?b)) with false. cbv iota.
  change (strip_prefix "t" ("t" +:+ ?b)) with (Some b). cbn [ok_or].
  change ("_" +:+ ?b) with (String "_" b). rewrite split_once_some by auto with text.
  by rewrite !parse_to_string.
Qed.

(** C34 (roundtrip): a token comes back as the position it was minted for.
    The position of a sync response, with one number per room shard, is what
    its token parses to, in [/sync] of a cluster with as many shards and in
    the reads that take a token of any cluster; a cluster with another number
    of shards refuses it.  Handed to [/messages], it is the position of the
    room's own shard, with the event at that position before it, while a
    [prev_batch] and the [end] of a page exclude the event they name; a
    [prev_batch] also keeps the stream position it was minted at.  A token
    of before presence reads with presence at the start. *)
Theorem tokens_return p count idx n now :
  pos_fits p → sp_room p ≠ [] → 0 < count → n ≤ u64_max → now ≤ u64_max →
  parse_token_n (format_token p) None = Ok p ∧
  parse_token_n (format_token p) (Some count) =
    (if N.of_nat (length (sp_room p)) =? count then Ok p else Err invalid_sync) ∧
  parse_page_pos (format_token p) idx =
    Ok (PTimeline {| pb_seq := room_at p idx; pb_at_event := false; pb_stream := Some (room_at p idx) |}) ∧
  parse_page_pos (row_token (RTimeline n)) idx =
    Ok (PTimeline {| pb_seq := n; pb_at_event := true; pb_stream := None |}) ∧
  parse_page_pos (row_token (RHistory n)) idx = Ok (PHistory n) ∧
  parse_page_pos (prev_batch_token n now) idx =
    Ok (PTimeline {| pb_seq := n; pb_at_event := true; pb_stream := Some now |}) ∧
  parse_token_n ("s" +:+ numbers "_" [n; sp_user p; sp_typing p]) (Some 1) =
    Ok {| sp_room := [n]; sp_user := sp_user p; sp_typing := sp_typing p; sp_presence := 0 |}.
Proof.
  intros Hw Hne Hc Hn Hnow. destruct (page_of_number n idx Hn) as [Ht Hh].
  rewrite !sync_token_parses by (done || (intros [= ->]; lia)). cbn [default fmap option_fmap option_map].
  split_and!; [done| |by apply page_of_sync|done|done|by apply page_of_prev_batch|].
  - by destruct (_ =? count).
  - rewrite (parse_single 1 n _ _ None); [done| |by right].
    unfold pos_fits in Hw. repeat setoid_rewrite list.Forall_cons in Hw. cbn. repeat constructor; naive_solver.
Qed.

(** ** What a pattern matches *)

(** [*] matches any sequence of characters, every other character itself. *)
Inductive pattern_matches : string → string → Prop :=
| pm_end : pattern_matches EmptyString EmptyString
| pm_char c p s : c ≠ "*"%char → pattern_matches p s → pattern_matches (String c p) (String c s)
| pm_none p s : pattern_matches p s → pattern_matches (String "*" p) s
| pm_more p c s : pattern_matches (String "*" p) s → pattern_matches (String "*" p) (String c s).

Lemma star_spec p s :
  pattern_matches (String "*" p) s ↔ ∃ a t, s = a +:+ t ∧ pattern_matches p t.
Proof.
  split.
  - intros H. remember (String "*" p) as q eqn:Hq. induction H as [|c ? ? Hc| |]; simplify_eq.
    + by exists EmptyString, s.
    + destruct IHpattern_matches as (a & t & -> & Ht); [done|]. by exists (String c a), t.
  - intros (a & t & -> & Ht). induction a as [|c a IH]; simpl; by constructor.
Qed.

Lemma star_more p a s : pattern_matches (String "*" p) s → pattern_matches (String "*" p) (a +:+ s).
Proof. intros H. induction a as [|c a IH]; [done|]. by apply pm_more. Qed.

Lemma literal_spec w p s :
  without "*" w = true →
  pattern_matches (w +:+ p) s ↔ ∃ t, s = w +:+ t ∧ pattern_matches p t.
Proof.
  revert s. unfold without. induction w as [|c w IH]; intros s; simpl.
  - intros _. split; [by exists s|by intros (t & -> & ?)].
  - rewrite andb_true_iff, negb_true_iff, bool_decide_eq_false. intros [Hc Hw]. split.
    + inversion 1; subst; try done.
      match goal with H : pattern_matches (w +:+ p) _ |- _ => apply IH in H as (t & -> & Ht) end; [|done].
      by exists t.
    + intros (t & -> & Ht). constructor; [done|]. apply IH; [done|]. by exists t.
Qed.

Lemma plain_spec w s : without "*" w = true → pattern_matches w s ↔ s = w.
Proof.
  intros Hw. rewrite <- (str_app_nil_r w) at 1. rewrite literal_spec by done. split.
  - intros (t & -> & Ht). inversion Ht. by rewrite str_app_nil_r.
  - intros ->. exists EmptyString. split; [by rewrite str_app_nil_r|constructor].
Qed.

Lemma star_cases p :
  without "*" p = true ∨ ∃ w q, p = w +:+ String "*" q ∧ without "*" w = true.
Proof.
  induction p as [|c p IH]; [by left|]. destruct (decide (c = "*"%char)) as [->|Hc].
  - right. by exists EmptyString, p.
  - destruct IH as [Hp|(w & q & -> & Hw)]; [left|right; exists (String c w), q; split; [done|]];
      unfold without in *; cbn; by rewrite bool_decide_false.
Qed.

Lemma str_app_split (a b c d : string) :
  a +:+ b = c +:+ d → (String.length a ≤ String.length c)%nat → ∃ x, c = a +:+ x ∧ b = x +:+ d.
Proof.
  revert c. induction a as [|y a IH]; intros [|z c] He Hl; simpl in *; try lia.
  - by exists EmptyString.
  - by exists (String z c).
  - injection He as -> He. destruct (IH c He) as (x & -> & ->); [lia|]. by exists x.
Qed.

Lemma find_sound p s i :
  str_find p s = Some i → ∃ a t, s = a +:+ p +:+ t ∧ String.length a = i.
Proof.
  revert i. induction s as [|c s IH]; intros i; cbn [str_find].
  - destruct (starts_with p "") eqn:Hp; [|done]. intros [= <-].
    apply starts_with_spec in Hp as [t Ht]. by exists EmptyString, t.
  - destruct (starts_with p (String c s)) eqn:Hp.
    + intros [= <-]. apply starts_with_spec in Hp as [t Ht]. by exists EmptyString, t.
    + rewrite fmap_Some. intros (j & Hj & ->). destruct (IH j Hj) as (a & t & -> & <-).
      by exists (String c a), t.
Qed.

Lemma find_first p a t : ∃ i, str_find p (a +:+ p +:+ t) = Some i ∧ (i ≤ String.length a)%nat.
Proof.
  induction a as [|c a IH]; cbn [String.app String.length].
  - exists 0%nat. split; [|lia]. destruct (p +:+ t) eqn:He; cbn [str_find]; rewrite <- He;
      by rewrite starts_with_app.
  - cbn [str_find]. destruct (starts_with _ _); [exists 0%nat; split; [done|lia]|].
    destruct IH as (i & -> & Hi). exists (S i). split; [done|lia].
Qed.

Lemma ends_with_spec p s : ends_with p s = true ↔ ∃ a, s = a +:+ p.
Proof.
  unfold ends_with. rewrite andb_true_iff, !bool_decide_eq_true. split.
  - intros [Hl Hd]. exists (str_take (String.length s - String.length p) s).
    rewrite <- Hd at 2. clear. generalize (String.length s - String.length p)%nat as n.
    induction s as [|c s IH]; intros [|n]; simpl; try done. by rewrite <- IH.
  - intros [a ->]. rewrite str_length_app. split; [lia|].
    replace (String.length a + String.length p - String.length p)%nat with (String.length a) by lia.
    apply str_drop_app.
Qed.

Lemma glob_rest_spec n p s :
  (String.length p < n)%nat →
  glob_rest (str_split "*" p) s = true ↔ pattern_matches (String "*" p) s.
Proof.
  revert p s. induction n as [|n IH]; intros p s Hn; [lia|].
  rewrite star_spec. destruct (star_cases p) as [Hp|(w & q & -> & Hw)].
  - rewrite split_nil by done. cbn [glob_rest]. rewrite ends_with_spec. split.
    + intros [a ->]. exists a, p. split; [done|]. by apply plain_spec.
    + intros (a & t & -> & Ht). apply plain_spec in Ht; [|done]. subst. by exists a.
  - rewrite split_cons by done. rewrite str_length_app in Hn. simpl in Hn.
    assert (∃ x xs, str_split "*" q = x :: xs) as (x & xs & Hx).
    { destruct q as [|c q]; cbn; [by eexists _, _|].
      destruct (bool_decide _); [by eexists _, _|].
      destruct (star_cases q) as [?|(? & ? & -> & ?)];
        [rewrite split_nil by done|rewrite split_cons by done]; by eexists _, _. }
    assert (glob_rest (w :: str_split "*" q) s = match str_find w s with
      | Some i => glob_rest (str_split "*" q) (str_drop (i + String.length w) s) | None => false end)
      as -> by (by rewrite Hx). split.
    + destruct (str_find w s) as [i|] eqn:Hf; [|done]. intros Hg.
      apply find_sound in Hf as (a & t & -> & <-).
      exists a, (w +:+ t). split; [done|]. apply literal_spec; [done|]. exists t. split; [done|].
      apply IH; [lia|]. rewrite <- str_length_app, <- str_app_assoc, str_drop_app in Hg. done.
    + intros (a & t & -> & (t' & -> & Ht)%literal_spec); [|done].
      destruct (find_first w a t') as (i & Hf & Hi). rewrite Hf.
      apply find_sound in Hf as (a' & t0 & He & Hl). rewrite He, <- Hl.
      rewrite <- str_length_app, <- (str_app_assoc a'), str_drop_app. apply IH; [lia|].
      rewrite <- !str_app_assoc in He. symmetry in He.
      apply str_app_split in He as (y & _ & ->); [|rewrite !str_length_app; lia].
      by apply star_more.
Qed.

Lemma glob_spec p ty : glob p ty = true ↔ pattern_matches p ty.
Proof.
  unfold glob. destruct (star_cases p) as [Hp|(w & q & -> & Hw)].
  - assert (str_existsb (λ c, bool_decide (c = "*"%char)) p = false) as ->.
    { revert Hp. unfold without. induction p as [|c p IH]; cbn; [done|].
      rewrite andb_true_iff, negb_true_iff. intros [-> Hp]. by rewrite IH. }
    cbn [negb]. rewrite bool_decide_eq_true, plain_spec by done. naive_solver.
  - assert (str_existsb (λ c, bool_decide (c = "*"%char)) (w +:+ String "*" q) = true) as ->.
    { induction w as [|c w IH]; cbn; [done|]. rewrite IH; [by rewrite orb_true_r|].
      unfold without in *. cbn in Hw. by apply andb_true_iff in Hw as [_ ?]. }
    cbn [negb]. rewrite split_cons, literal_spec by done. split.
    + destruct (strip_prefix w ty) as [t|] eqn:Ht; [|done]. intros Hg.
      apply strip_prefix_iff in Ht as ->. exists t. split; [done|].
      by apply (glob_rest_spec (S (String.length q))); [lia|].
    + intros (t & -> & Ht). rewrite (proj2 (strip_prefix_iff w (w +:+ t) t)) by done.
      by apply (glob_rest_spec (S (String.length q))); [lia|].
Qed.

(** C35 (equivalence): a pattern of a sync filter matches a type exactly when
    the type is the pattern with each [*] replaced by some text: looking for
    the segments between the stars from the left, as the code does, misses
    nothing and admits nothing else.  So an event is served when its type
    matches an allowed pattern, or there is no allow list, and it matches no
    forbidden one. *)
Theorem type_filter_exact types not_types ty :
  type_matches types not_types ty = true ↔
    (∀ p, p ∈ not_types → ¬ pattern_matches p ty) ∧
    (∀ allow, types = Some allow → ∃ p, p ∈ allow ∧ pattern_matches p ty).
Proof.
  assert (∀ l, existsb (λ p, glob p ty) l = true ↔ ∃ p, p ∈ l ∧ pattern_matches p ty) as Hex.
  { intros l. rewrite existsb_exists. setoid_rewrite glob_spec. by setoid_rewrite list_elem_of_In. }
  unfold type_matches. destruct (existsb _ not_types) eqn:Hn.
  - apply Hex in Hn as (p & Hp & Hm). split; [done|]. intros [H _]. by destruct (H p Hp).
  - assert (∀ p, p ∈ not_types → ¬ pattern_matches p ty) as Hno.
    { intros p Hp Hm. assert (existsb (λ p, glob p ty) not_types = true) by (apply Hex; by exists p).
      congruence. }
    destruct types as [allow|]; [rewrite Hex|]; naive_solver.
Qed.

(** ** Witnesses *)

Definition demo_pos : SyncPos := {| sp_room := [7; 9]; sp_user := 3; sp_typing := 1; sp_presence := 2 |}.

Example demo_token : format_token demo_pos = "s3_1_2r7.9".
Proof. reflexivity. Qed.

Lemma tokens_return_witness :
  parse_token_n "s3_1_2r7.9" (Some 2) = Ok demo_pos ∧
  parse_token_n "s3_1_2r7.9" (Some 4) = Err invalid_sync ∧
  parse_page_pos "t7_9" 1 =
    Ok (PTimeline {| pb_seq := 7; pb_at_event := true; pb_stream := Some 9 |}).
Proof.
  assert (pos_fits demo_pos) as Hw by (unfold pos_fits; cbn; repeat constructor; done).
  destruct (tokens_return demo_pos 2 1 7 9 Hw ltac:(done) ltac:(done) ltac:(done) ltac:(done))
    as (_ & H2 & _ & _ & _ & Hp & _).
  destruct (tokens_return demo_pos 4 1 7 9 Hw ltac:(done) ltac:(done) ltac:(done) ltac:(done))
    as (_ & H4 & _). by split_and!.
Defined.
