(* ===== verification/ClientRead.v ===== *)
(** * What a client may read of a room (saltator-cs-api)

    The shared reads of room_util.rs, the shard router of
    saltator-roomserver/src/shards.rs they go through, and the handlers of
    routes/rooms/reads.rs.  A request reads each shard as one state; only
    [/messages] may change one, when it backfills history. *)

From Stdlib Require Import Ascii.
From S2P Require Import Prelude Bytes Store Codec Json Shard RoomTypes RoomMachine RoomRead.
From S2P Require Import CoreEvent PowerLevels Auth StateRes Pdu Pipeline RoomServe RoomJoin Delivery.
From S2P Require Import UserTypes UserMachine UserKeys UserRead ClientToken.
From stdpp Require Import options.
Set Warnings "-register-all".

Local Open Scope N_scope.

(** ** The shard router *)

(** The first eight bytes of the blake3 digest, as a number. *)
Class Blake3 := { blake3_first8 : string → N }.

(** A server's handles of the room shards, by shard number. *)
Record RoomShards : Type := { rs_count : N; rs_slot : N → ReadCtx }.

Definition shard_of `{Blake3} (room_id : string) (count : N) : N :=
  if count <=? 1 then 0 else blake3_first8 room_id mod count.

Definition index_of `{Blake3} (rooms : RoomShards) (room_id : string) : N :=
  shard_of room_id (rs_count rooms).

Definition for_room `{Blake3} (rooms : RoomShards) (room_id : string) : ReadCtx :=
  rs_slot rooms (index_of rooms room_id).

(** The shard of a room after a command. *)
Definition with_shard `{Blake3} (rooms : RoomShards) (room_id : string) (e : engine) : RoomShards :=
  {| rs_count := rs_count rooms;
     rs_slot := λ i, if i =? index_of rooms room_id
                     then {| r_shard := r_shard (rs_slot rooms i); r_engine := e |}
                     else rs_slot rooms i |}.

(** ** Values

    [serde_json::Value::from(CanonicalJsonValue)]: the numbers are serde's. *)
Class ClientJson `{SerdeJson} := { num_of_int : Z → jnum }.

Section Values.
Context `{CJ : ClientJson}.

Fixpoint value_of (v : json) : jvalue jnum :=
  match v with
  | JNull => VNull
  | JBool b => VBool b
  | JInteger z => VNum (num_of_int z)
  | JString s => VStr s
  | JArray l => VArr (map value_of l)
  | JObject o => VObj (map (λ kv, (kv.1, value_of kv.2)) o)
  end.

(** [v.get(key).and_then(|v| v.as_str())] *)
Definition vstr_at (key : string) (v : jvalue jnum) : option string := x ← vget key v; vstr x.

(** [json!({..})] with keys in any order. *)
Definition vobj (l : list (string * jvalue jnum)) : jvalue jnum :=
  VObj (foldl (λ o kv, obj_insert kv.1 kv.2 o) [] l).

(** The keys of [raw] that it has, converted. *)
Definition pick (keys : list string) (raw : json_object) : list (string * jvalue jnum) :=
  omap (λ k, v ← obj_get k raw; Some (k, value_of v)) keys.

Definition to_client_format (raw : json_object) (room_id event_id : string) :
    list (string * jvalue jnum) :=
  obj_insert "event_id" (VStr event_id) (obj_insert "room_id" (VStr room_id)
    (foldl (λ o kv, obj_insert kv.1 kv.2 o) []
      (pick ["content"; "origin_server_ts"; "sender"; "state_key"; "type"; "unsigned"] raw))).

Definition stripped_event (raw : json_object) : jvalue jnum :=
  vobj (pick (if is_str "m.room.create" (str_prop raw "type")
              then ["content"; "sender"; "state_key"; "type"; "origin_server_ts"; "auth_events";
                    "depth"; "hashes"; "prev_events"; "signatures"]
              else ["content"; "sender"; "state_key"; "type"]) raw).
End Values.

Section Client.
Context `{RC : RoomCodecs, JT : JsonText, SJ : SerdeJson, RU : Ruma, EC : EventCrypto}.
Context `{CJ : !ClientJson, UC : UserCodecs, UL : Utf8Lossy, B3 : Blake3}.

(** ** room_util.rs *)

Section Rooms.
Context (rooms : RoomShards).

Definition room_meta (room_id : string) : result ApiError RoomMeta :=
  let? o := internal (meta (for_room rooms room_id) room_id) in ok_or o (NotFound "Unknown room").

Definition room_version (m : RoomMeta) : result ApiError RoomVersion :=
  ok_or (CoreEvent.parse (rm_version m)) Internal.

(** [store.resolve_group(..).map_err(internal)] *)
Definition group_state (room_id : string) (group : N) : result ApiError StateIds :=
  internal (room_state (for_room rooms room_id) room_id group).

Definition current_state (room_id : string) : result ApiError StateIds :=
  let? m := room_meta room_id in group_state room_id (rm_current_group m).

Definition member_key (user_id : string) : Key := ("m.room.member"%string, user_id).

(** On the shard [store], as the code has it. *)
Definition membership_in_shard (store : ReadCtx) (state : StateIds) (user_id : string) :
    result ApiError string :=
  match state !! member_key user_id with
  | None => Ok "leave"%string
  | Some event_id =>
      let? o := internal (event store event_id) in
      match o with
      | None => Ok "leave"%string
      | Some stored =>
          let? raw := ok_or (from_slice (se_raw stored)) Internal in
          Ok (default "leave"%string (c ← vget "content" raw; vstr_at "membership" c))
      end
  end.

Definition membership_in (room_id : string) (state : StateIds) (user_id : string) :
    result ApiError string :=
  membership_in_shard (for_room rooms room_id) state user_id.

Definition raw_event_shard (store : ReadCtx) (event_id : string) :
    result ApiError (option json_object) :=
  let? o := internal (event store event_id) in
  match o with
  | None => Ok None
  | Some stored =>
      if is_some (se_rejected stored) then Ok None
      else match json_parse (se_raw stored) with
           | Some (JObject o) => Ok (Some o)
           | _ => Err Internal
           end
  end.

Definition raw_event (room_id event_id : string) : result ApiError (option json_object) :=
  raw_event_shard (for_room rooms room_id) event_id.

Definition state_content_in_shard (store : ReadCtx) (state : StateIds) (event_type : string) :
    result ApiError (option (jvalue jnum)) :=
  match state !! (event_type, EmptyString) with
  | None => Ok None
  | Some event_id =>
      let? o := raw_event_shard store event_id in
      Ok (raw ← o; value_of <$> obj_get "content" raw)
  end.

Definition state_content_in (room_id : string) (state : StateIds) (event_type : string) :=
  state_content_in_shard (for_room rooms room_id) state event_type.

(** The view of a member, or the room as it was when the user left. *)
Definition member_view (room_id user_id : string) : result ApiError (StateIds * option N) :=
  let? current := current_state room_id in
  let store := for_room rooms room_id in
  let? membership := membership_in_shard store current user_id in
  if bool_decide (membership = "join"%string) then Ok (current, None)
  else if bool_decide (membership ∈ ["leave"; "ban"]%string) then
    let? event_id := ok_or (current !! member_key user_id) (Forbidden "You are not in this room") in
    let? o := internal (event store event_id) in
    let? stored := ok_or o (Forbidden "You are not in this room") in
    let? frozen := group_state room_id (se_state_group_after stored) in
    Ok (frozen, Some (se_seq stored))
  else Err (Forbidden "You are not joined to this room").

Definition state_at_seq (room_id : string) (at_ : N) : result ApiError StateIds :=
  let store := for_room rooms room_id in
  let? rows := internal (room_timeline store room_id 0 (Some at_) 1 true) in
  match rows with
  | [] => Ok ∅
  | (_, event_id) :: _ =>
      let? o := internal (event store event_id) in
      match o with
      | None => Ok ∅
      | Some stored => group_state room_id (se_state_group_after stored)
      end
  end.

Definition joined_member_ids (room_id : string) : result ApiError (list string) :=
  match current_state room_id with
  | Err _ => Ok []
  | Ok state =>
      try_fold (λ out '(event_type, state_key),
        if bool_decide (event_type = "m.room.member"%string) then
          let? m := membership_in room_id state state_key in
          Ok (if bool_decide (m = "join"%string) then out ++ [state_key] else out)
        else Ok out) [] (sorted_keys (dom state))
  end.

(** The state recorded with an event decides, with the room's own group
    numbers. *)
Definition user_can_see_event (room_id event_id user_id : string) : result ApiError bool :=
  let shard := for_room rooms room_id in
  let? o := internal (event shard event_id) in
  match o with
  | None => Ok false
  | Some stored =>
      if is_some (se_rejected stored) || (se_state_group_after stored =? 0) then Ok false
      else
        let? state_at := group_state room_id (se_state_group_after stored) in
        let? membership_at := membership_in_shard shard state_at user_id in
        if bool_decide (membership_at = "join"%string) then Ok true
        else
          let? content := state_content_in_shard shard state_at "m.room.history_visibility" in
          let visibility := default "shared"%string (c ← content; vstr_at "history_visibility" c) in
          if bool_decide (visibility = "world_readable"%string) then Ok true
          else if bool_decide (visibility = "shared"%string) then
            let? current := current_state room_id in
            let? m := membership_in_shard shard current user_id in
            Ok (bool_decide (m = "join"%string))
          else if bool_decide (visibility = "invited"%string)
          then Ok (bool_decide (membership_at = "invite"%string))
          else Ok false
  end.

Definition require_joined (room_id user_id : string) : result ApiError StateIds :=
  let? state := current_state room_id in
  let? m := membership_in room_id state user_id in
  if bool_decide (m ≠ "join"%string) then Err (Forbidden "You are not joined to this room")
  else Ok state.

(** [ev["unsigned"]["transaction_id"] = txn]: serde makes an object of a
    missing or null value and panics on anything else. *)
Definition stamp_unsigned (txn : string) (ev : list (string * jvalue jnum)) :
    option (list (string * jvalue jnum)) :=
  match default VNull (obj_get "unsigned" ev) with
  | VNull => Some (obj_insert "unsigned" (VObj [("transaction_id"%string, VStr txn)]) ev)
  | VObj u => Some (obj_insert "unsigned" (VObj (obj_insert "transaction_id" (VStr txn) u)) ev)
  | _ => None
  end.

(** [None] is the panic. *)
Definition stamp_echo (room_id : string) (ev : list (string * jvalue jnum)) (user_id device_id : string) :
    option (result ApiError (list (string * jvalue jnum))) :=
  if bool_decide (vstr_at "sender" (VObj ev) ≠ Some user_id) then Some (Ok ev)
  else match vstr_at "event_id" (VObj ev) with
       | None => Some (Ok ev)
       | Some event_id =>
           match txn_echo (for_room rooms room_id) event_id with
           | Err _ => Some (Err Internal)
           | Ok (Some (u, d, txn)) =>
               if bool_decide (u = user_id ∧ d = device_id) then Ok <$> stamp_unsigned txn ev
               else Some (Ok ev)
           | Ok None => Some (Ok ev)
           end
       end.

(** [as_object_mut()] on the event's [unsigned], made when missing. *)
Definition annotate (extra : list (string * jvalue jnum)) (ev : list (string * jvalue jnum)) :
    list (string * jvalue jnum) :=
  match default (VObj []) (obj_get "unsigned" ev) with
  | VObj u => obj_insert "unsigned" (VObj (foldl (λ o kv, obj_insert kv.1 kv.2 o) u extra)) ev
  | other => obj_insert "unsigned" other ev
  end.

(** [store.served_event(event_id, version)] *)
Definition served (store : ReadCtx) (v : RoomVersion) (event_id : string) :
    result ApiError (option json_object) :=
  internal (served_event store (λ raw, match redact raw v with Ok o => Some o | Err _ => None end)
    event_id).

Definition client_event (v : RoomVersion) (room_id event_id as_user : string) :
    result ApiError (option (list (string * jvalue jnum))) :=
  let store := for_room rooms room_id in
  let? raw := served store v event_id in
  match raw with
  | None => Ok None
  | Some raw =>
      let ev := to_client_format raw room_id event_id in
      let? o := internal (event store event_id) in
      match o with
      | None => Ok (Some ev)
      | Some stored =>
          if se_state_group_after stored =? 0 then Ok (Some ev)
          else
            let? state_at := group_state room_id (se_state_group_after stored) in
            let? membership := membership_in_shard store state_at as_user in
            let prev := if is_some (obj_get "state_key" raw)
                        then match prev_state_content store event_id with Ok o => o | Err _ => None end
                        else None in
            Ok (Some (annotate (("membership"%string, VStr membership) ::
              match prev with
              | Some (content, sender) =>
                  [("prev_content"%string, content); ("prev_sender"%string, VStr sender)]
              | None => []
              end) ev))
      end
  end.

(** [accepted_event_id] *)
Definition accepted_event_id (outcome : Outcome) : result ApiError (string * N) :=
  match outcome with
  | Accepted event_id seq => Ok (event_id, seq)
  | RejectedEvent _ reason => Err (Forbidden reason)
  | Duplicate event_id => Ok (event_id, 0)
  end.

Definition predecessor_of (room_id : string) : result ApiError (option string) :=
  match current_state room_id with
  | Err _ => Ok None
  | Ok state =>
      match state !! ("m.room.create"%string, EmptyString) with
      | None => Ok None
      | Some create_id =>
          let? o := raw_event room_id create_id in
          Ok (raw ← o; content ← obj_prop raw "content"; pred ← obj_prop content "predecessor";
              str_prop pred "room_id")
      end
  end.
End Rooms.

(** ** routes/rooms/reads.rs: single reads *)

Section Reads.
Context (rooms : RoomShards) (users : UserStore).

Abbreviation client_json := (list (string * jvalue jnum)) (only parsing).

Definition ensure_not_forgotten (user_id room_id : string) : result ApiError () :=
  let? o := internal (membership_of users user_id room_id) in
  if default false (me_forgotten <$> o) then Err (Forbidden "You aren't a member of the room")
  else Ok ().

(** [for id in ids { if let Some(ev) = client_event(..)? { out.push(ev) } }] *)
Definition client_events (v : RoomVersion) (room_id : string) (ids : list string) (user : string) :
    result ApiError (list client_json) :=
  try_fold (λ out id,
    let? o := client_event rooms v room_id id user in
    Ok (match o with Some ev => out ++ [ev] | None => out end)) [] ids.

Definition version_of (room_id : string) : result ApiError RoomVersion :=
  let? m := room_meta rooms room_id in room_version m.

Definition get_state_events (room_id user : string) : result ApiError (list client_json) :=
  let? _ := ensure_not_forgotten user room_id in
  let? (current, _) := member_view rooms room_id user in
  let? v := version_of room_id in
  client_events v room_id (state_values current) user.

(** The whole event, or its content. *)
Definition get_state_event (room_id user event_type state_key : string) (whole : bool) :
    result ApiError (jvalue jnum) :=
  let? _ := ensure_not_forgotten user room_id in
  let? (current, _) := member_view rooms room_id user in
  let? event_id := ok_or (current !! (event_type, state_key)) (NotFound "No state with this type/key") in
  if whole then
    let? v := version_of room_id in
    let? o := client_event rooms v room_id event_id user in
    let? ev := ok_or o (NotFound "State event missing") in
    Ok (VObj ev)
  else
    let? o := raw_event rooms room_id event_id in
    let? raw := ok_or o (NotFound "State event missing") in
    Ok (default (VObj []) (value_of <$> obj_get "content" raw)).

(** The guard against events of other rooms. *)
Definition of_room (room_id : string) (ev : client_json) : bool :=
  bool_decide (vstr_at "room_id" (VObj ev) = Some room_id).

(** [None] is the panic of [stamp_echo]. *)
Definition get_room_event (room_id event_id user device : string) :
    option (result ApiError client_json) :=
  match (let? v := version_of room_id in
         let? visible := user_can_see_event rooms room_id event_id user in
         if negb visible then Err (NotFound "Event not found")
         else
           let? o := client_event rooms v room_id event_id user in
           let? ev := ok_or o (NotFound "Event not found") in
           if of_room room_id ev then Ok ev else Err (NotFound "Event not found")) with
  | Err e => Some (Err e)
  | Ok ev => stamp_echo rooms room_id ev user device
  end.

Definition history_readable (room_id : string) : result ApiError bool :=
  let? current := current_state rooms room_id in
  let? content := state_content_in rooms room_id current "m.room.history_visibility" in
  let visibility := default "shared"%string (c ← content; vstr_at "history_visibility" c) in
  Ok (bool_decide (visibility ∈ ["shared"; "world_readable"]%string)).

Record Context_ : Type := {
  cx_start : string; cx_end : string; cx_before : list client_json; cx_event : client_json;
  cx_after : list client_json; cx_state : list client_json }.

(** The rows that can be served, and the number of the last one. *)
Definition serve_rows (v : RoomVersion) (room_id user : string) (from : N) (rows : list (N * string)) :
    result ApiError (N * list client_json) :=
  try_fold (λ '(at_, out) '(n, id),
    let? o := client_event rooms v room_id id user in
    Ok (match o with Some ev => (n, out ++ [ev]) | None => (at_, out) end)) (from, []) rows.

Definition state_events_at (v : RoomVersion) (room_id user : string) (at_ : N) :
    result ApiError (list client_json) :=
  let? state := state_at_seq rooms room_id at_ in
  client_events v room_id (state_values state) user.

Definition context_in_history (room_id user : string) (ev : client_json) (hidx : N)
    (ceiling : option N) (limit : N) : result ApiError Context_ :=
  let? v := version_of room_id in
  let store := for_room rooms room_id in
  let before_limit := limit / 2 + limit mod 2 in
  let after_limit := limit - before_limit in
  let? older := internal (room_history store room_id hidx None before_limit false) in
  let? (oldest, events_before) := serve_rows v room_id user hidx older in
  let? (newest_hist, events_after) :=
    if 1 <? hidx then
      let? newer := internal (room_history store room_id 0 (Some (hidx - 1)) after_limit true) in
      serve_rows v room_id user hidx newer
    else Ok (hidx, []) in
  let remaining := after_limit - N.of_nat (length events_after) in
  let? (newest_seq, events_after) :=
    if 0 <? remaining then
      let? rows := internal (room_timeline store room_id 0 ceiling remaining false) in
      try_fold (λ '(newest, out) '(seq, id),
        let? o := client_event rooms v room_id id user in
        Ok (match o with Some ev => (Some seq, out ++ [ev]) | None => (newest, out) end))
        (None, events_after) rows
    else Ok (None, events_after) in
  let? state_events := match newest_seq with
                       | Some seq => state_events_at v room_id user seq
                       | None => Ok []
                       end in
  Ok {| cx_start := row_token (RHistory oldest);
        cx_end := match newest_seq with
                  | Some seq => row_token (RTimeline seq)
                  | None => row_token (RHistory (saturating_sub64 newest_hist 1))
                  end;
        cx_before := events_before; cx_event := ev; cx_after := events_after;
        cx_state := state_events |}.

Definition get_context (room_id event_id user : string) (limit : N) : result ApiError Context_ :=
  let? (_, ceiling) := member_view rooms room_id user in
  let? v := version_of room_id in
  let store := for_room rooms room_id in
  let? o := internal (event store event_id) in
  let? target := ok_or o (NotFound "Event not found") in
  let? o := client_event rooms v room_id event_id user in
  let? ev := ok_or (ev ← o; if of_room room_id ev then Some ev else None) (NotFound "Event not found") in
  let total := N.min limit 100 in
  if se_seq target =? 0 then
    let? hidx := ok_or (se_history_idx target) (NotFound "Event not found") in
    let? readable := history_readable room_id in
    if negb readable then Err (NotFound "Event not found")
    else context_in_history room_id user ev hidx ceiling total
  else
    let? visible := user_can_see_event rooms room_id event_id user in
    if negb visible then Err (NotFound "Event not found")
    else
      let before_limit := total / 2 + total mod 2 in
      let after_limit := total - before_limit in
      let? older := internal (room_timeline store room_id 0
                      (Some (saturating_sub64 (se_seq target) 1)) before_limit true) in
      let? (oldest, events_before) := serve_rows v room_id user (se_seq target) older in
      let? newer := internal (room_timeline store room_id (se_seq target) ceiling after_limit false) in
      let? (newest, events_after) := serve_rows v room_id user (se_seq target) newer in
      let? state_events := state_events_at v room_id user newest in
      Ok {| cx_start := row_token (RTimeline (saturating_sub64 oldest 1));
            cx_end := row_token (RTimeline newest);
            cx_before := events_before; cx_event := ev; cx_after := events_after;
            cx_state := state_events |}.

Definition event_membership (ev : client_json) : string :=
  default "leave"%string (c ← vget "content" (VObj ev); vstr_at "membership" c).

Definition get_members (room_id user : string) (at_ membership not_membership : option string) :
    result ApiError (list client_json) :=
  let? _ := ensure_not_forgotten user room_id in
  let? (current, cap) := member_view rooms room_id user in
  let? current :=
    match at_ with
    | None => Ok current
    | Some at_ =>
        let? b := parse_topo_token at_ (index_of rooms room_id) in
        let seq := match cap with Some c => N.min (at_seq b) c | None => at_seq b end in
        state_at_seq rooms room_id seq
    end in
  let? v := version_of room_id in
  try_fold (λ chunk '(event_type, state_key),
    if bool_decide (event_type ≠ "m.room.member"%string) then Ok chunk
    else
      match current !! (event_type, state_key) with
      | None => Ok chunk
      | Some id =>
          let? o := client_event rooms v room_id id user in
          Ok (match o with
              | None => chunk
              | Some ev =>
                  let m := event_membership ev in
                  if default true ((λ want, bool_decide (m = want)) <$> membership)
                     && default true ((λ no, bool_decide (m ≠ no)) <$> not_membership)
                  then chunk ++ [ev] else chunk
              end)
      end) [] (sorted_keys (dom current)).

Definition get_joined_members (room_id user : string) :
    result ApiError (list (string * jvalue jnum)) :=
  let? current := require_joined rooms room_id user in
  try_fold (λ joined '(event_type, state_key),
    if bool_decide (event_type ≠ "m.room.member"%string) then Ok joined
    else
      match current !! (event_type, state_key) with
      | None => Ok joined
      | Some id =>
          let? o := raw_event rooms room_id id in
          Ok (match o with
              | None => joined
              | Some raw =>
                  let content := default VNull (vget "content" (stripped_event raw)) in
                  if bool_decide (vstr_at "membership" content ≠ Some "join"%string) then joined
                  else if negb (user_id_ok state_key) then joined
                  else obj_insert state_key
                    (vobj [("display_name"%string, default VNull (vget "displayname" content));
                           ("avatar_url"%string, default VNull (vget "avatar_url" content))]) joined
              end)
      end) [] (sorted_keys (dom current)).
End Reads.

(** ** routes/rooms/reads.rs: backfilling history *)

Section Messages.
Context `{HR : Raft}.
Context `{!Codec (option LogId), !Codec StoredMembership, !Codec N}.
Context `{!Codec RuntimeCommand, !Codec RuntimeResponse}.
Context (next_id : engine → LogId) (our_name : string) (users : UserStore).

(** The other servers, as far as these handlers ask them: what they answer to
    the [n]-th [/backfill] and [/timestamp_to_event] of the request, the keys
    known once the senders' servers were asked for theirs, and what Raft makes
    of the import. *)
Record Federation : Type := {
  fed_backfill : nat → string → string → list string → option (list json_object);
  fed_timestamp : string → string → N → bool → option (option (string * N));
  fed_keys : PublicKeyMap;
  fed_import : nat → raft_outcome;
}.

(** [resident_of_room] *)
Definition resident_of_room (room_id : string) : option string :=
  match (split_once ":" room_id).2 with
  | Some server => if bool_decide (server = EmptyString) then None else Some server
  | None => None
  end.

(** The resident first, then the servers in the room. *)
Definition server_candidates (rooms : RoomShards) (room_id : string) :
    result store_error (list string) :=
  let residents := match resident_of_room room_id with
                   | Some r => if bool_decide (r = our_name) then [] else [r]
                   | None => []
                   end in
  let? servers := remote_servers_in_room (for_room rooms room_id) room_id our_name in
  Ok (foldl (λ out s, if bool_decide (s ∈ out) then out else out ++ [s]) residents servers).

(** What the first server with verifiable events gave is imported. *)
Fixpoint fetch_from (fed : Federation) (n : nat) (room_id : string) (v : list string)
    (dests : list string) (rooms : RoomShards) : result ApiError N * RoomShards :=
  match dests with
  | [] => (Ok 0, rooms)
  | dest :: dests =>
      let verified := match fed_backfill fed n dest room_id v with
                      | Some pdus =>
                          List.filter (verify_pdu (fed_keys fed) (for_room rooms room_id) room_id) pdus
                      | None => []
                      end in
      match verified with
      | [] => fetch_from fed n room_id v dests rooms
      | _ =>
          let store := for_room rooms room_id in
          let '(r, e') := import_history (r_shard store) next_id (fed_import fed n) room_id verified
                            (r_engine store) in
          (let? (indexed, _) := internal r in Ok indexed, with_shard rooms room_id e')
      end
  end.

Definition fetch_history (fed : option Federation) (n : nat) (room_id : string)
    (frontier : list string) (rooms : RoomShards) : result ApiError N * RoomShards :=
  match fed with
  | None => (Ok 0, rooms)
  | Some fed =>
      match server_candidates rooms room_id with
      | Err _ => (Err Internal, rooms)
      | Ok dests => fetch_from fed n room_id (take 20 frontier) dests rooms
      end
  end.

(** ** routes/rooms/reads.rs: /messages *)

Inductive Direction : Type := Backward | Forward.

Abbreviation rows_found := (list (RowPos * string)) (only parsing).

(** The timeline part of a page towards the past. *)
Definition timeline_backward (rooms : RoomShards) (room_id : string) (from to : option PagePos)
    (limit ceiling : N) : result ApiError rows_found :=
  match from with
  | Some (PHistory _) => Ok []
  | _ =>
      let up := match from with Some (PTimeline b) => upper b | _ => u64_max end in
      let low := match to with Some (PTimeline b) => lower b | _ => 0 end in
      let? rows := internal (room_timeline (for_room rooms room_id) room_id low
                      (Some (N.min up ceiling)) limit true) in
      Ok ((λ r, (RTimeline r.1, r.2)) <$> rows)
  end.

(** The history part: [budget] is [max_fetches - fetches]. *)
Fixpoint history_loop (fed : option Federation) (budget : nat) (room_id : string)
    (limit : N) (until : option N) (cursor : N) (rows : rows_found) (rooms : RoomShards) :
    result ApiError (rows_found * bool) * RoomShards :=
  let need := limit - N.of_nat (length rows) in
  if need =? 0 then (Ok (rows, false), rooms)
  else
    match internal (room_history (for_room rooms room_id) room_id cursor until need false) with
    | Err x => (Err x, rooms)
    | Ok page =>
        let cursor := default cursor (fst <$> head (rev page)) in
        let rows := rows ++ ((λ r, (RHistory r.1, r.2)) <$> page) in
        if (limit <=? N.of_nat (length rows)) || is_some until then (Ok (rows, false), rooms)
        else
          match internal (history_frontier (for_room rooms room_id) room_id) with
          | Err x => (Err x, rooms)
          | Ok [] => (Ok (rows, false), rooms)
          | Ok frontier =>
              match budget with
              | O => (Ok (rows, true), rooms)
              | S budget =>
                  match fetch_history fed budget room_id frontier rooms with
                  | (Err x, rooms) => (Err x, rooms)
                  | (Ok n, rooms) =>
                      if n =? 0 then (Ok (rows, true), rooms)
                      else history_loop fed budget room_id limit until cursor rows rooms
                  end
              end
          end
    end.

Definition rows_backward (fed : option Federation) (room_id : string) (from to : option PagePos)
    (limit ceiling : N) (rooms : RoomShards) : result ApiError (rows_found * bool) * RoomShards :=
  match timeline_backward rooms room_id from to limit ceiling with
  | Err x => (Err x, rooms)
  | Ok rows =>
      let '(allow, until) := match to with
                             | None => (true, None)
                             | Some (PHistory idx) => (true, Some (saturating_sub64 idx 1))
                             | Some (PTimeline b) => (lower b =? 0, None)
                             end in
      if allow && (N.of_nat (length rows) <? limit) then
        match history_readable rooms room_id with
        | Err x => (Err x, rooms)
        | Ok false => (Ok (rows, false), rooms)
        | Ok true =>
            let cursor := match from with Some (PHistory idx) => idx | _ => 0 end in
            history_loop fed (N.to_nat (limit / 100 + 2)) room_id limit until cursor rows rooms
        end
      else (Ok (rows, false), rooms)
  end.

Definition rows_forward (rooms : RoomShards) (room_id : string) (from to : option PagePos)
    (limit ceiling : N) (cap : option N) : result ApiError rows_found :=
  let store := for_room rooms room_id in
  let? rows :=
    match from with
    | Some (PHistory idx) =>
        let after := match to with Some (PHistory t) => t | _ => 0 end in
        let? l := internal (room_history store room_id after (Some (saturating_sub64 idx 1)) limit true) in
        Ok ((λ r, (RHistory r.1, r.2)) <$> l)
    | _ => Ok []
    end in
  match to with
  | Some (PHistory _) => Ok rows
  | _ =>
      if N.of_nat (length rows) <? limit then
        let low := match from with Some (PTimeline b) => lower b | _ => 0 end in
        let up := match to with Some (PTimeline t) => Some (N.min (upper t) ceiling) | _ => cap end in
        let? l := internal (room_timeline store room_id low up (limit - N.of_nat (length rows)) false) in
        Ok (rows ++ ((λ r, (RTimeline r.1, r.2)) <$> l))
      else Ok rows
  end.

Abbreviation client_json := (list (string * jvalue jnum)) (only parsing).

(** One row: its event, when there is one and it passes [contains_url], and
    who sent it. *)
Definition render_step (rooms : RoomShards) (v : RoomVersion) (room_id user : string)
    (contains_url : option bool) (acc : list client_json * list string) (row : RowPos * string) :
    result ApiError (list client_json * list string) :=
  let '(chunk, senders) := acc in
  let? o := client_event rooms v room_id row.2 user in
  Ok (match o with
      | None => (chunk, senders)
      | Some ev =>
          let has_url := match c ← vget "content" (VObj ev); vget "url" c with
                         | Some (VStr _) => true
                         | _ => false
                         end in
          if default false ((λ want, negb (Bool.eqb has_url want)) <$> contains_url)
          then (chunk, senders)
          else (chunk ++ [ev],
                match vstr_at "sender" (VObj ev) with
                | Some s => if bool_decide (s ∈ senders) then senders else senders ++ [s]
                | None => senders
                end)
      end).

Definition render_rows (rooms : RoomShards) (v : RoomVersion) (room_id user : string)
    (contains_url : option bool) (rows : rows_found) :
    result ApiError (list client_json * list string) :=
  try_fold (render_step rooms v room_id user contains_url) ([], []) rows.

Definition timeline_seqs (rows : rows_found) : list N :=
  omap (λ r, match r.1 with RTimeline s => Some s | RHistory _ => None end) rows.

(** The member events of the senders, at the newest event returned. *)
Definition lazy_state (rooms : RoomShards) (v : RoomVersion) (room_id user : string)
    (rows : rows_found) (senders : list string) : result ApiError (list client_json) :=
  match list_max_opt (timeline_seqs rows) with
  | None => Ok []
  | Some at_ =>
      let? snapshot := state_at_seq rooms room_id at_ in
      client_events rooms v room_id (omap (λ s, snapshot !! member_key s) senders) user
  end.

Record Messages : Type := {
  ms_start : string; ms_end : option string; ms_chunk : list client_json; ms_state : list client_json }.

(** [end] stays while there may be more. *)
Definition end_token (rows : rows_found) (limit : N) (more chunk : bool) : option string :=
  if (N.of_nat (length rows) =? limit) || more || chunk
  then (λ r, row_token r.1) <$> head (rev rows) else None.

Record MessagesQuery : Type := {
  mq_dir : option string; mq_limit : option string; mq_from : option string; mq_to : option string;
  mq_filter : option string }.

Definition parse_dir (dir : option string) : result ApiError Direction :=
  match dir with
  | Some d => if bool_decide (d = "b"%string) then Ok Backward
              else if bool_decide (d = "f"%string) then Ok Forward
              else Err (InvalidParam "dir: unknown value")
  | None => Err (InvalidParam "dir: required parameter is missing")
  end.

(** [.clamp(1, 1000)] *)
Definition parse_limit (limit : option string) : result ApiError N :=
  let? l := match limit with
            | None => Ok 10
            | Some l => ok_or (parse_u64 l) (InvalidParam "limit: not an integer")
            end in
  Ok (N.min (N.max l 1) 1000).

(** [opt.map(f).transpose()] *)
Definition transpose {A B} (f : A → result ApiError B) (o : option A) : result ApiError (option B) :=
  match o with None => Ok None | Some a => let? b := f a in Ok (Some b) end.

Definition vbool_at (key : string) (v : jvalue jnum) : option bool :=
  x ← vget key v; match x with VBool b => Some b | _ => None end.

(** An unknown room is not told apart from a forbidden one. *)
Definition hide_unknown {A} (r : result ApiError A) : result ApiError A :=
  match r with
  | Err (NotFound _) => Err (Forbidden "You aren't a member of the room")
  | _ => r
  end.

Record Parsed : Type := {
  pq_dir : Direction; pq_limit : N; pq_from : option PagePos; pq_to : option PagePos;
  pq_contains_url : option bool; pq_lazy : bool }.

Definition parse_query (q : MessagesQuery) (idx : N) : result ApiError Parsed :=
  let? dir := parse_dir (mq_dir q) in
  let? limit := parse_limit (mq_limit q) in
  let? from := transpose (λ s, parse_page_pos s idx) (mq_from q) in
  let? to := transpose (λ s, parse_page_pos s idx) (mq_to q) in
  let? f := transpose (λ s, ok_or (from_slice s) (BadJson "filter")) (mq_filter q) in
  Ok {| pq_dir := dir; pq_limit := limit; pq_from := from; pq_to := to;
        pq_contains_url := f ← f; vbool_at "contains_url" f;
        pq_lazy := default false (f ← f; vbool_at "lazy_load_members" f) |}.

Definition page (fed : option Federation) (room_id : string) (p : Parsed) (cap : option N)
    (rooms : RoomShards) : result ApiError (rows_found * bool) * RoomShards :=
  let ceiling := default u64_max cap in
  match pq_dir p with
  | Backward => rows_backward fed room_id (pq_from p) (pq_to p) (pq_limit p) ceiling rooms
  | Forward =>
      (let? rows := rows_forward rooms room_id (pq_from p) (pq_to p) (pq_limit p) ceiling cap in
       Ok (rows, false), rooms)
  end.

(** Access is checked before the query is looked at. *)
Definition get_messages (fed : option Federation) (room_id user : string) (q : MessagesQuery)
    (rooms : RoomShards) : result ApiError Messages * RoomShards :=
  match (let? _ := ensure_not_forgotten users user room_id in
         let? (_, cap) := hide_unknown (member_view rooms room_id user) in
         let? v := version_of rooms room_id in
         let? p := parse_query q (index_of rooms room_id) in
         Ok (cap, v, p)) with
  | Err x => (Err x, rooms)
  | Ok (cap, v, p) =>
      let '(r, rooms') := page fed room_id p cap rooms in
      (let? (rows, more) := r in
       let? (chunk, senders) := render_rows rooms' v room_id user (pq_contains_url p) rows in
       let? state := if pq_lazy p then lazy_state rooms' v room_id user rows senders else Ok [] in
       Ok {| ms_start := default "t0"%string (mq_from q);
             ms_end := end_token rows (pq_limit p) more (negb (bool_decide (chunk = [])));
             ms_chunk := chunk; ms_state := state |}, rooms')
  end.

(** ** routes/rooms/reads.rs: /timestamp_to_event *)

(** The first server with an answer wins. *)
Definition remote_timestamp_to_event (fed : option Federation) (rooms : RoomShards)
    (room_id : string) (ts : N) (backward : bool) : option (string * N) :=
  fed ← fed;
  match server_candidates rooms room_id with
  | Err _ => None
  | Ok dests => head (omap (λ d, mjoin (fed_timestamp fed d room_id ts backward)) dests)
  end.

(** [for _ in 0..5] *)
Fixpoint backfill_until_present (fed : option Federation) (n : nat) (room_id event_id : string)
    (rooms : RoomShards) : RoomShards :=
  match n with
  | O => rooms
  | S n =>
      match event (for_room rooms room_id) event_id with
      | Ok None =>
          match history_frontier (for_room rooms room_id) room_id with
          | Ok [] | Err _ => rooms
          | Ok frontier =>
              match fetch_history fed n room_id frontier rooms with
              | (Ok k, rooms) =>
                  if 0 <? k then backfill_until_present fed n room_id event_id rooms else rooms
              | (Err _, rooms) => rooms
              end
          end
      | _ => rooms
      end
  end.

(** [a.abs_diff(b)] *)
Definition abs_diff (a b : N) : N := N.max a b - N.min a b.

Definition get_timestamp_to_event (fed : option Federation) (room_id user : string)
    (ts dir : option string) (rooms : RoomShards) : result ApiError (string * N) * RoomShards :=
  match (let? _ := require_joined rooms room_id user in
         let? ts := ok_or (ts ≫= parse_u64) (InvalidParam "ts: required integer (ms)") in
         let backward := bool_decide (dir = Some "b"%string) in
         let? history_ok := history_readable rooms room_id in
         let? local := internal (timestamp_to_event (for_room rooms room_id) room_id ts backward history_ok) in
         let? frontier := internal (history_frontier (for_room rooms room_id) room_id) in
         Ok (ts, local,
             if history_ok && negb (bool_decide (frontier = []))
             then remote_timestamp_to_event fed rooms room_id ts backward else None)) with
  | Err x => (Err x, rooms)
  | Ok (ts, local, remote) =>
      let here := (ok_or local (NotFound "No event found for the given timestamp"), rooms) in
      match remote with
      | None => here
      | Some (id, remote_ts) =>
          if match local with
             | None => true
             | Some (_, local_ts) => abs_diff remote_ts ts <? abs_diff local_ts ts
             end
          then (Ok (id, remote_ts), backfill_until_present fed 5 room_id id rooms)
          else here
      end
  end.
End Messages.
End Client.
