(* ===== verification/ClientReadSpec.v ===== *)
(** * Paging through a room, and the guard between rooms

    Following the [end] tokens of [/messages] towards the past visits every
    row of the room the caller may read, newest first, exactly once, and
    ends (a segment import can give an event two rows); and the event reads of routes/rooms/reads.rs do not tell an event of
    the room in the path from one of another room. *)

From Stdlib Require Import Ascii.
From S2P Require Import Prelude Bytes Store Codec Json Shard ShardFacts RoomTypes RoomMachine RoomRead RoomReadSpec.
From S2P Require Import CoreEvent PowerLevels Auth StateRes Pdu Pipeline RoomServe RoomJoin.
From S2P Require Import UserTypes UserMachine UserRead ClientToken ClientRead.
From stdpp Require Import options.
Set Warnings "-register-all".

Local Open Scope N_scope.

(** ** The rows of a room *)

Lemma sorted_same (l k : list (N * string)) :
  StronglySorted num_below l → StronglySorted num_below k →
  (∀ r, r ∈ l ↔ r ∈ k) → l = k.
Proof.
  assert (∀ l : list (N * string), StronglySorted num_below l → NoDup l) as Hnd.
  { induction 1 as [|x m _ IH Hx]; constructor; [|done]. intros Hin.
    eapply list.Forall_forall in Hx; [|done]. unfold num_below in Hx. lia. }
  intros Hl Hk He. apply (StronglySorted_unique_strong num_below); [|done..|].
  - intros x y _ _ H1 H2. unfold num_below in *. lia.
  - by apply NoDup_Permutation; [apply Hnd..|].
Qed.

Lemma sorted_cut (l k : list (N * string)) x :
  StronglySorted num_below (l ++ x :: k) →
  (∀ y, y ∈ l → y.1 < x.1) ∧ (∀ y, y ∈ k → x.1 < y.1).
Proof.
  induction l as [|z l IH]; cbn [app]; intros [Hs Hz]%StronglySorted_inv.
  - split; [by intros y ?%elem_of_nil|]. by rewrite list.Forall_forall in Hz.
  - destruct (IH Hs) as [Hl Hk]. split; [|done]. intros y [->|Hy]%elem_of_cons; [|by apply Hl].
    rewrite list.Forall_forall in Hz. apply Hz, elem_of_app. right. by left.
Qed.

Section Rows.
Context `{RC : RoomCodecs, JT : JsonText}.
Context (store : ReadCtx) (room : string).
Hypothesis Hroom : nul_free room = true.

(** The rows of the room in a numbered table, ascending. *)
Definition table_rows (t : N) (T : list (N * string)) : Prop :=
  StronglySorted num_below T ∧
  ∀ n id, (n, id) ∈ T ↔ 0 < n < u64_modulus ∧
    r_engine store !! ctx_key (r_shard store) t (room_u64_key room n) = Some id.

Lemma table_exists t :
  t < 255 → numbered_table (r_shard store) (r_engine store) t → ∃ T, table_rows t T.
Proof using Hroom.
  intros Ht Hwf. unfold table_rows. destruct store as [sid e].
  destruct (window_rows_spec sid e t room 0 None 0 false) as (T & _ & Hs & HT); try done.
  exists T. split; [done|]. intros n id. rewrite HT. unfold in_window. cbn [r_shard r_engine].
  naive_solver.
Qed.

Definition inside (after : N) (until : option N) (r : N * string) : bool :=
  (after <? r.1) && match until with Some u => r.1 <=? u | None => true end.

(** Any window is cut out of them. *)
Lemma sub_window t T after until limit reverse :
  t < 255 → numbered_table (r_shard store) (r_engine store) t → table_rows t T →
  after + 1 < u64_modulus → (∀ u, until = Some u → u < u64_modulus) →
  window_rows store t room after until limit reverse =
    Ok (take (N.to_nat limit)
      (let w := filter (λ r, inside after until r = true) T in if reverse then rev w else w)).
Proof using Hroom.
  unfold table_rows. intros Ht Hwf [Hs HT] Ha Hu. destruct store as [sid e]. cbn [r_shard r_engine] in *.
  destruct (window_rows_spec sid e t room after until limit reverse) as (l & -> & Hl & Hin); try done.
  assert (l = filter (λ r, inside after until r = true) T) as ->; [|done].
  apply sorted_same; [done|by apply sorted_filter|]. intros [n id]. cbn zeta.
  rewrite Hin, list_elem_of_filter, HT. unfold inside, in_window. cbn [fst].
  rewrite andb_true_iff, N.ltb_lt. destruct until as [u|]; [rewrite N.leb_le|].
  - split; [intros (? & [? ?] & ?)|intros ([? ?] & [? ?] & ?)]; split_and!; (done || lia).
  - split; [intros (? & [? _] & ?)|intros ([? _] & [? ?] & ?)]; split_and!; (done || lia).
Qed.

Lemma filter_tail T A x B :
  T = A ++ x :: B → StronglySorted num_below T →
  filter (λ r, inside x.1 None r = true) T = B.
Proof using Type.
  intros -> Hs. destruct (sorted_cut _ _ _ Hs) as [HA HB]. unfold inside.
  rewrite list.filter_app, filter_cons_False by (rewrite andb_true_r, N.ltb_lt; lia).
  rewrite (list_filter_all _ B) by (intros y Hy; rewrite andb_true_r, N.ltb_lt; by apply HB).
  enough (filter (λ r : N * string, (x.1 <? r.1) && true = true) A = []) as -> by done.
  clear Hs HB. induction A as [|y A IH]; [done|].
  rewrite filter_cons_False; [apply IH; intros z Hz; apply HA; by right|].
  rewrite andb_true_r, N.ltb_lt. assert (y.1 < x.1) by (apply HA; by left). lia.
Qed.

(** Below a row that was already seen. *)
Lemma filter_head T c A x B :
  rev (filter (λ r, inside 0 (Some c) r = true) T) = A ++ x :: B → StronglySorted num_below T →
  0 < x.1 →
  rev (filter (λ r, inside 0 (Some (N.min (x.1 - 1) c)) r = true) T) = B.
Proof using Type.
  intros He Hs Hx. set (T' := filter (λ r, inside 0 (Some c) r = true) T) in *.
  assert (T' = rev B ++ x :: rev A) as HT'.
  { rewrite <- (rev_involutive T'), He, rev_app_distr. cbn [rev]. by rewrite <- app_assoc. }
  assert (StronglySorted num_below T') as Hs' by (by apply sorted_filter).
  rewrite HT' in Hs'. destruct (sorted_cut _ _ _ Hs') as [HB HA].
  rewrite <- (rev_involutive B). f_equal. apply sorted_same; [by apply sorted_filter| |].
  - clear -Hs'. induction (rev B) as [|y l IH]; [constructor|]. cbn [app] in Hs'.
    apply StronglySorted_inv in Hs' as [H1 H2]. apply list.Forall_app in H2 as [H2 _].
    constructor; [by apply IH|done].
  - intros r. rewrite list_elem_of_filter. unfold inside. rewrite andb_true_iff, N.ltb_lt, N.leb_le.
    assert (r ∈ T' ↔ r ∈ T ∧ 0 < r.1 ∧ r.1 ≤ c) as Hr.
    { unfold T', inside. rewrite list_elem_of_filter, andb_true_iff, N.ltb_lt, N.leb_le. naive_solver. }
    rewrite HT', elem_of_app, elem_of_cons in Hr. split.
    + intros [Hb Hin]. assert (r ∈ rev B ∨ r = x ∨ r ∈ rev A) as [?|[->|HrA]]; [|done|lia|].
      * apply Hr. split; [done|lia].
      * specialize (HA _ HrA). lia.
    + intros HrB. specialize (HB _ HrB). destruct (proj1 Hr (or_introl HrB)) as (? & ? & ?).
      split; [lia|done].
Qed.
End Rows.

(** ** Events in the client format *)

Section Format.
Context `{RC : RoomCodecs, JT : JsonText, SJ : SerdeJson, RU : Ruma, EC : EventCrypto}.
Context `{CJ : !ClientJson, UC : UserCodecs, UL : Utf8Lossy, B3 : Blake3}.
Context (rooms : RoomShards) (room : string).

Lemma pick_get k keys (raw : json_object) o :
  obj_get k (foldl (λ o kv, obj_insert kv.1 kv.2 o) o (pick keys raw)) =
    if bool_decide (k ∈ keys)
    then match obj_get k raw with Some v => Some (value_of v) | None => obj_get k o end
    else obj_get k o.
Proof.
  revert o. induction keys as [|key keys IH]; intros o; [done|].
  unfold pick. cbn [omap list_omap]. fold (pick keys raw).
  destruct (obj_get key raw) as [w|] eqn:Hw; cbn [mbind option_bind].
  - cbn [foldl fst snd]. rewrite IH, obj_get_insert.
    destruct (decide (key = k)) as [->|Hk].
    + rewrite (bool_decide_true (k = k)), (bool_decide_true (k ∈ k :: keys)) by (done || by left).
      rewrite Hw. by case_bool_decide.
    + rewrite (bool_decide_false (key = k)) by done.
      rewrite (bool_decide_ext (k ∈ key :: keys) (k ∈ keys)); [done|]. rewrite elem_of_cons. naive_solver.
  - rewrite IH. destruct (decide (key = k)) as [->|Hk].
    + rewrite (bool_decide_true (k ∈ k :: keys)) by (by left). rewrite Hw. by case_bool_decide.
    + rewrite (bool_decide_ext (k ∈ key :: keys) (k ∈ keys)); [done|]. rewrite elem_of_cons. naive_solver.
Qed.

Lemma annotate_get k extra (ev : list (string * jvalue jnum)) :
  k ≠ "unsigned"%string → obj_get k (annotate extra ev) = obj_get k ev.
Proof.
  intros Hk. unfold annotate. destruct (default _ _); rewrite obj_get_insert, bool_decide_false; congruence.
Qed.

(** The client format is given the room it is asked for. *)
Lemma client_format_get (raw : json_object) id k :
  obj_get k (to_client_format raw room id) =
    if bool_decide (k = "event_id"%string) then Some (VStr id)
    else if bool_decide (k = "room_id"%string) then Some (VStr room)
    else if bool_decide (k ∈ ["content"; "origin_server_ts"; "sender"; "state_key"; "type"; "unsigned"]%string)
         then value_of <$> obj_get k raw else None.
Proof.
  unfold to_client_format. rewrite !obj_get_insert, pick_get.
  repeat case_bool_decide; subst; done || by destruct (obj_get k raw).
Qed.

Lemma client_event_get v id user ev :
  client_event rooms v room id user = Ok (Some ev) →
  ∃ raw, served (for_room rooms room) v id = Ok (Some raw) ∧
    ∀ k, k ≠ "unsigned"%string → obj_get k ev = obj_get k (to_client_format raw room id).
Proof.
  unfold client_event. destruct (served _ v id) as [[raw|]|]; try done. intros H. exists raw. split; [done|].
  intros k Hk. destruct (internal (event _ id)) as [[st|]|]; [|by injection H as <-|done].
  destruct (_ =? 0); [by injection H as <-|].
  destruct (group_state _ _ _) as [g|]; [|done]. destruct (membership_in_shard _ _ _) as [m|]; [|done].
  injection H as <-. by apply annotate_get.
Qed.

(** The id of an event in the client format. *)
Definition id_of (ev : list (string * jvalue jnum)) : option string := vstr_at "event_id" (VObj ev).

Lemma client_event_id v id user ev :
  client_event rooms v room id user = Ok (Some ev) → id_of ev = Some id.
Proof.
  intros (raw & _ & Hget)%client_event_get. unfold id_of, vstr_at. cbn [vget as_object mbind option_bind].
  rewrite Hget, client_format_get by done. reflexivity.
Qed.

(** Events shown of rows that name different events are different. *)
Lemma shown_once {P} v user (shown : string → option (list (string * jvalue jnum))) (rows : list (P * string)) :
  (∀ r, r ∈ rows → client_event rooms v room r.2 user = Ok (shown r.2)) →
  NoDup rows.*2 → NoDup (id_of <$> omap (λ r, shown r.2) rows).
Proof.
  induction rows as [|[p id] rows IH]; intros Hr Hd; [constructor|].
  cbn [fmap list_fmap omap list_omap snd] in *. apply list.NoDup_cons in Hd as [Hid Hd].
  assert (NoDup (id_of <$> omap (λ r, shown r.2) rows)) as Hrest by (apply IH; [intros; apply Hr; by right|done]).
  destruct (shown id) as [ev|] eqn:Hev; [|done]. cbn [fmap list_fmap]. apply list.NoDup_cons. split; [|done].
  pose proof (Hr (p, id) ltac:(by left)) as Hce. cbn [snd] in Hce. rewrite Hev in Hce.
  rewrite (client_event_id _ _ _ _ Hce). intros (ev' & Hev' & Hin)%list_elem_of_fmap.
  apply list_elem_of_omap in Hin as ([p' id'] & Hin & Hsh). cbn [snd] in Hsh.
  pose proof (Hr (p', id') ltac:(by right)) as Hce'. cbn [snd] in Hce'. rewrite Hsh in Hce'.
  rewrite (client_event_id _ _ _ _ Hce') in Hev'. injection Hev' as ->.
  apply Hid. apply list_elem_of_fmap. by exists (p', id').
Qed.
End Format.

(** ** Walking towards the past *)

Section Walk.
Context `{RC : RoomCodecs, JT : JsonText, SJ : SerdeJson, RU : Ruma, EC : EventCrypto}.
Context `{CJ : !ClientJson, UC : UserCodecs, UL : Utf8Lossy, B3 : Blake3}.
Context `{HR : Raft}.
Context `{!Codec (option LogId), !Codec StoredMembership, !Codec N}.
Context `{!Codec RuntimeCommand, !Codec RuntimeResponse}.
Context (next_id : engine → LogId) (our_name : string) (users : UserStore) (fed : option Federation).

Abbreviation client_json := (list (string * jvalue jnum)) (only parsing).

(** What a caller finds in a room: how far their view goes, whether history is
    readable, and the two tables of the room. *)
Record RoomSeen (rooms : RoomShards) (room user : string) : Type := {
  rs_version : RoomVersion;
  rs_cap : option N;
  rs_readable : bool;
  rs_timeline : list (N * string);
  rs_history : list (N * string);
  rs_shown : string → option client_json;
}.
Arguments rs_version {_ _ _} _. Arguments rs_cap {_ _ _} _. Arguments rs_readable {_ _ _} _.
Arguments rs_timeline {_ _ _} _. Arguments rs_history {_ _ _} _. Arguments rs_shown {_ _ _} _.

Record sees (rooms : RoomShards) (room user : string) (s : RoomSeen rooms room user) : Prop := {
  see_room : nul_free room = true;
  see_tables : ∀ t, t = T_ROOM_SEQ ∨ t = T_HISTORY →
    numbered_table (r_shard (for_room rooms room)) (r_engine (for_room rooms room)) t;
  see_timeline : table_rows (for_room rooms room) room T_ROOM_SEQ (rs_timeline s);
  see_history : table_rows (for_room rooms room) room T_HISTORY (rs_history s);
  see_bound : ∀ r, r ∈ rs_history s → r.1 < u64_max;
  see_member : ensure_not_forgotten users user room = Ok ();
  see_view : ∃ view, member_view rooms room user = Ok (view, rs_cap s);
  see_cap : ∀ c, rs_cap s = Some c → c < u64_modulus;
  see_version : version_of rooms room = Ok (rs_version s);
  see_readable : history_readable rooms room = Ok (rs_readable s);
  see_events : ∀ r, r ∈ rs_timeline s ++ rs_history s →
    client_event rooms (rs_version s) room r.2 user = Ok (rs_shown s r.2);
}.

(** Newest first: the timeline up to the caller's leave, then history. *)
Definition newest_first {rooms room user} (s : RoomSeen rooms room user) : list (RowPos * string) :=
  ((λ r, (RTimeline r.1, r.2)) <$>
     rev (filter (λ r, inside 0 (Some (default u64_max (rs_cap s))) r = true) (rs_timeline s)))
  ++ (if rs_readable s then (λ r, (RHistory r.1, r.2)) <$> rs_history s else []).

(** A client that follows the [end] tokens. *)
Fixpoint follow (fuel : nat) (room user : string) (q : MessagesQuery) (rooms : RoomShards) :
    option (list client_json) :=
  match fuel with
  | O => None
  | S fuel =>
      match get_messages next_id our_name users fed room user q rooms with
      | (Ok m, rooms) =>
          match ms_end m with
          | None => Some (ms_chunk m)
          | Some token =>
              rest ← follow fuel room user
                {| mq_dir := mq_dir q; mq_limit := mq_limit q; mq_from := Some token;
                   mq_to := mq_to q; mq_filter := mq_filter q |} rooms;
              Some (ms_chunk m ++ rest)
          end
      | (Err _, _) => None
      end
  end.

Section Room.
Context (rooms : RoomShards) (room user : string) (s : RoomSeen rooms room user).
Hypothesis Hs : sees rooms room user s.
Hypothesis Hfrontier : rs_readable s = true → history_frontier (for_room rooms room) room = Ok [].

Abbreviation store := (for_room rooms room).
Abbreviation ceiling := (default u64_max (rs_cap s)).
Abbreviation seen := (rev (filter (λ r, inside 0 (Some ceiling) r = true) (rs_timeline s))).

Lemma ceiling_bound : ceiling < u64_modulus.
Proof using Hs.
  destruct (rs_cap s) as [c|] eqn:Hc; [by apply (see_cap _ _ _ s Hs)|done].
Qed.

Lemma timeline_window u limit :
  u < u64_modulus →
  room_timeline store room 0 (Some u) limit true =
    Ok (take (N.to_nat limit) (rev (filter (λ r, inside 0 (Some u) r = true) (rs_timeline s)))).
Proof using Hs.
  intros Hu. unfold room_timeline.
  rewrite (sub_window store room (see_room _ _ _ s Hs) T_ROOM_SEQ (rs_timeline s)); try done.
  - apply (see_tables _ _ _ s Hs). by left.
  - apply (see_timeline _ _ _ s Hs).
  - by intros ? [= <-].
Qed.

Lemma history_window cursor limit :
  cursor < u64_max →
  room_history store room cursor None limit false =
    Ok (take (N.to_nat limit) (filter (λ r, inside cursor None r = true) (rs_history s))).
Proof using Hs.
  intros Hc. unfold room_history.
  rewrite (sub_window store room (see_room _ _ _ s Hs) T_HISTORY (rs_history s)); try done.
  - apply (see_tables _ _ _ s Hs). by right.
  - apply (see_history _ _ _ s Hs).
  - unfold u64_max, u64_modulus in *. lia.
Qed.

Lemma history_all : filter (λ r, inside 0 None r = true) (rs_history s) = rs_history s.
Proof using Hs.
  apply list_filter_all. intros [n id] Hin. apply (see_history _ _ _ s Hs) in Hin as [[Hn _] _].
  unfold inside. by rewrite andb_true_r, N.ltb_lt.
Qed.

Lemma seen_row x : x ∈ seen → 0 < x.1 ∧ x.1 ≤ ceiling ∧ x ∈ rs_timeline s.
Proof using Type.
  rewrite list_elem_of_In, <- in_rev, <- list_elem_of_In, list_elem_of_filter. unfold inside.
  rewrite andb_true_iff, N.ltb_lt, N.leb_le. naive_solver.
Qed.

(** The two parts of a page, when what is left of each is known. *)
Lemma page_rest from limit rest cursor rest_h :
  0 < limit → cursor < u64_max →
  timeline_backward rooms room from None limit ceiling =
    Ok ((λ r, (RTimeline r.1, r.2)) <$> take (N.to_nat limit) rest) →
  match from with Some (PHistory idx) => idx | _ => 0 end = cursor →
  filter (λ r, inside cursor None r = true) (rs_history s) = rest_h →
  rows_backward next_id our_name fed room from None limit ceiling rooms =
    (Ok (take (N.to_nat limit) (((λ r, (RTimeline r.1, r.2)) <$> rest)
       ++ (if rs_readable s then (λ r, (RHistory r.1, r.2)) <$> rest_h else [])), false), rooms).
Proof using Hs Hfrontier.
  intros Hl Hc Ht Hcur Hh. unfold rows_backward. rewrite Ht, fmap_take. cbn [andb].
  set (R := (λ r : N * string, (RTimeline r.1, r.2)) <$> rest).
  rewrite (see_readable _ _ _ s Hs), Hcur, take_app.
  assert (N.of_nat (length (take (N.to_nat limit) R)) = N.min limit (N.of_nat (length R))) as Hlen.
  { rewrite length_take. lia. }
  destruct (N.ltb_spec (N.of_nat (length (take (N.to_nat limit) R))) limit) as [Hlt|Hge].
  - destruct (rs_readable s) eqn:Hread; [|by rewrite take_nil, app_nil_r].
    destruct (N.to_nat (limit / 100 + 2)) as [|b]; cbn [history_loop];
      (replace (limit - _ =? 0) with false by (symmetry; apply N.eqb_neq; lia));
      rewrite history_window, Hh by done; cbn [internal];
      (replace (N.to_nat (limit - N.of_nat (length (take (N.to_nat limit) R))))
         with (N.to_nat limit - length R)%nat by lia); rewrite fmap_take;
      (destruct (_ || _); [done|]); by rewrite Hfrontier.
  - replace (N.to_nat limit - length R)%nat with 0%nat by lia. by rewrite take_0, app_nil_r.
Qed.

(** From the newest event, and from any event seen. *)
Lemma first_page limit :
  0 < limit →
  rows_backward next_id our_name fed room None None limit ceiling rooms =
    (Ok (take (N.to_nat limit) (newest_first s), false), rooms).
Proof using Hs Hfrontier.
  intros Hl. apply (page_rest None limit seen 0 (rs_history s)); try done.
  - cbn [timeline_backward]. rewrite N.min_r.
    + by rewrite timeline_window by apply ceiling_bound.
    + pose proof ceiling_bound. unfold u64_max, u64_modulus in *. lia.
  - apply history_all.
Qed.

Lemma next_in_timeline limit A x B :
  0 < limit → seen = A ++ x :: B →
  rows_backward next_id our_name fed room
    (Some (PTimeline {| pb_seq := x.1; pb_at_event := true; pb_stream := None |})) None limit ceiling rooms =
    (Ok (take (N.to_nat limit) (((λ r, (RTimeline r.1, r.2)) <$> B)
       ++ (if rs_readable s then (λ r, (RHistory r.1, r.2)) <$> rs_history s else [])), false), rooms).
Proof using Hs Hfrontier.
  intros Hl He. destruct (seen_row x) as (Hx & Hc & _); [rewrite He; apply elem_of_app; right; by left|].
  apply (page_rest _ limit B 0 (rs_history s)); try done; [|apply history_all].
  cbn [timeline_backward upper pb_at_event pb_seq]. unfold saturating_sub64.
  pose proof ceiling_bound. rewrite timeline_window by lia.
  by rewrite (filter_head (rs_timeline s) ceiling A x B He (proj1 (see_timeline _ _ _ s Hs)) Hx).
Qed.

Lemma next_in_history limit A x B :
  0 < limit → rs_history s = A ++ x :: B →
  rows_backward next_id our_name fed room (Some (PHistory x.1)) None limit ceiling rooms =
    (Ok (take (N.to_nat limit)
       (if rs_readable s then (λ r, (RHistory r.1, r.2)) <$> B else []), false), rooms).
Proof using Hs Hfrontier.
  intros Hl He. apply (page_rest _ limit [] x.1 B); try done.
  - apply (see_bound _ _ _ s Hs). rewrite He. apply elem_of_app. right. by left.
  - by rewrite take_nil.
  - by apply (filter_tail _ A), (see_history _ _ _ s Hs).
Qed.

(** Any event of the walk leads to the rest of it. *)
Lemma next_page limit A p B :
  0 < limit → newest_first s = A ++ p :: B →
  rows_backward next_id our_name fed room
    (Some match p.1 with
          | RTimeline n => PTimeline {| pb_seq := n; pb_at_event := true; pb_stream := None |}
          | RHistory i => PHistory i
          end) None limit ceiling rooms = (Ok (take (N.to_nat limit) B, false), rooms).
Proof using Hs Hfrontier.
  intros Hl He. unfold newest_first in He.
  assert (∀ k, (if rs_readable s then (λ r, (RHistory r.1, r.2)) <$> rs_history s else []) = k ++ p :: B →
    ∃ A x B', rs_readable s = true ∧ rs_history s = A ++ x :: B' ∧ p = (RHistory x.1, x.2) ∧
      B = (λ r : N * string, (RHistory r.1, r.2)) <$> B') as Hhist.
  { intros k Hk. destruct (rs_readable s); [|by destruct k].
    apply fmap_app_inv in Hk as (A0 & C & _ & HC & HA).
    symmetry in HC. apply fmap_cons_inv in HC as (x & B' & -> & -> & ->). by exists A0, x, B'. }
  destruct (app_eq_inv _ _ _ _ He) as [(l & Ht & Hh)|(l & Ht & Hh)];
    [destruct l as [|p' l]; cbn [app] in Hh|].
  1: destruct (Hhist [] (eq_sym Hh)) as (A0 & x & B' & Hr & HH & -> & ->).
  3: destruct (Hhist l Hh) as (A0 & x & B' & Hr & HH & -> & ->).
  1, 3: cbn [fst]; rewrite (next_in_history limit A0 x B') by done; by rewrite Hr.
  injection Hh as <- ->. apply fmap_app_inv in Ht as (A0 & C & _ & HC & HA).
  symmetry in HC. apply fmap_cons_inv in HC as (x & B' & -> & -> & ->).
  cbn [fst]. by rewrite (next_in_timeline limit A0 x B').
Qed.

Lemma newest_row r :
  r ∈ newest_first s →
  client_event rooms (rs_version s) room r.2 user = Ok (rs_shown s r.2) ∧
  match r.1 with RTimeline n | RHistory n => n ≤ u64_max end.
Proof using Hs.
  clear Hfrontier. unfold newest_first. rewrite elem_of_app. intros [Hr|Hr].
  - apply list_elem_of_fmap in Hr as (x & -> & Hx). apply seen_row in Hx as (_ & _ & Hx). cbn [fst snd].
    split; [apply (see_events _ _ _ s Hs), elem_of_app; by left|]. destruct x as [n id].
    apply (see_timeline _ _ _ s Hs) in Hx as [[_ Hn] _]. unfold u64_max, u64_modulus in *. cbn. lia.
  - destruct (rs_readable s); [|by apply elem_of_nil in Hr].
    apply list_elem_of_fmap in Hr as (x & -> & Hx). cbn [fst snd].
    split; [apply (see_events _ _ _ s Hs), elem_of_app; by right|].
    apply (see_bound _ _ _ s Hs) in Hx. lia.
Qed.

Lemma render_all rows chunk senders :
  (∀ r, r ∈ rows → client_event rooms (rs_version s) room r.2 user = Ok (rs_shown s r.2)) →
  ∃ senders', try_fold (render_step rooms (rs_version s) room user None) (chunk, senders) rows
    = Ok (E := ApiError) (chunk ++ omap (λ r : RowPos * string, rs_shown s r.2) rows, senders').
Proof using Type.
  revert chunk senders. induction rows as [|[p id] rows IH]; intros chunk senders Hr.
  - exists senders. by rewrite app_nil_r.
  - cbn [try_fold]. unfold render_step at 1. rewrite (Hr (p, id)) by (by left).
    cbn [omap list_omap snd]. destruct (rs_shown s id) as [ev|].
    + cbn [default fmap option_fmap option_map].
      edestruct IH as [senders' ->]; [intros; apply Hr; by right|]. exists senders'.
      by rewrite <- app_assoc.
    + edestruct IH as [senders' ->]; [intros; apply Hr; by right|]. by exists senders'.
Qed.

Definition walk_query (limit from to : option string) : MessagesQuery := {|
  mq_dir := Some "b"%string; mq_limit := limit; mq_from := from; mq_to := to; mq_filter := None |}.

(** One request of the walk. *)
Lemma get_page limit l from to pos pos_to rest :
  parse_limit limit = Ok l →
  (∀ r, r ∈ rest → client_event rooms (rs_version s) room r.2 user = Ok (rs_shown s r.2)) →
  transpose (λ t, parse_page_pos t (index_of rooms room)) from = Ok pos →
  transpose (λ t, parse_page_pos t (index_of rooms room)) to = Ok pos_to →
  rows_backward next_id our_name fed room pos pos_to l ceiling rooms =
    (Ok (take (N.to_nat l) rest, false), rooms) →
  let chunk := omap (λ r, rs_shown s r.2) (take (N.to_nat l) rest) in
  get_messages next_id our_name users fed room user (walk_query limit from to) rooms =
    (Ok {| ms_start := default "t0"%string from;
           ms_end := end_token (take (N.to_nat l) rest) l false (negb (bool_decide (chunk = [])));
           ms_chunk := chunk; ms_state := [] |}, rooms).
Proof using Hs.
  clear Hfrontier. intros Hlim HO Hfrom Hto Hpage chunk. unfold get_messages. rewrite (see_member _ _ _ s Hs).
  destruct (see_view _ _ _ s Hs) as [view Hview]. rewrite Hview. cbn [hide_unknown].
  rewrite (see_version _ _ _ s Hs). unfold parse_query. cbn [mq_dir mq_limit mq_from mq_to mq_filter walk_query].
  change (parse_dir (Some "b"%string)) with (@Ok ApiError _ Backward).
  rewrite Hlim, Hfrom, Hto. cbn [transpose]. cbv beta iota zeta. unfold page. cbn [pq_dir pq_from pq_to pq_limit pq_contains_url pq_lazy].
  rewrite Hpage. unfold render_rows. change (None ≫= ?f) with (@None bool).
  destruct (render_all (take (N.to_nat l) rest) [] []) as [senders Hr].
  { intros r Hr. by apply HO; apply elem_of_take in Hr as (? & ?%list_elem_of_lookup_2 & _). }
  rewrite Hr. done.
Qed.

Lemma parse_limit_range limit l : parse_limit limit = Ok l → 0 < l.
Proof using Type.
  unfold parse_limit. destruct limit as [t|]; cbn; [destruct (parse_u64 t); cbn; [|done]|]; intros [= <-]; lia.
Qed.

Lemma token_parses r idx :
  match r with RTimeline n | RHistory n => n ≤ u64_max end →
  parse_page_pos (row_token r) idx = Ok match r with
    | RTimeline n => PTimeline {| pb_seq := n; pb_at_event := true; pb_stream := None |}
    | RHistory i => PHistory i
    end.
Proof using Type. destruct r; intros H; by apply (page_of_number _ idx). Qed.

Lemma follow_rest limit l fuel : ∀ from pos rest A,
  parse_limit limit = Ok l → newest_first s = A ++ rest →
  transpose (λ t, parse_page_pos t (index_of rooms room)) from = Ok pos →
  rows_backward next_id our_name fed room pos None l ceiling rooms =
    (Ok (take (N.to_nat l) rest, false), rooms) →
  (length rest < fuel)%nat →
  follow fuel room user (walk_query limit from None) rooms = Some (omap (λ r, rs_shown s r.2) rest).
Proof using Hs Hfrontier.
  induction fuel as [|fuel IH]; intros from pos rest A Hlim HO Hfrom Hpage Hf; [lia|].
  pose proof (parse_limit_range _ _ Hlim) as Hl.
  cbn [follow]. rewrite (get_page _ _ _ None pos None rest Hlim); try done;
    [|intros r Hr; apply newest_row; rewrite HO; apply elem_of_app; by right].
  cbn [ms_end ms_chunk].
  set (rows := take (N.to_nat l) rest). unfold end_token.
  assert (rest = rows ++ drop (N.to_nat l) rest) as Hrest by (unfold rows; by rewrite take_drop).
  assert (omap (λ r, rs_shown s r.2) rest = omap (λ r, rs_shown s r.2) rows
    ++ omap (λ r, rs_shown s r.2) (drop (N.to_nat l) rest)) as -> by (by rewrite <- omap_app, <- Hrest).
  destruct (rev rows) as [|p before] eqn:Hrev.
  - assert (rows = []) as Hnil by (by rewrite <- (rev_involutive rows), Hrev).
    assert (rest = []) as -> by (apply (f_equal length) in Hnil; unfold rows in Hnil;
      rewrite length_take in Hnil; cbn in Hnil; destruct rest; [done|cbn in Hnil; lia]).
    rewrite Hnil, drop_nil. cbn [length omap]. by destruct (_ || _).
  - assert (rows = rev before ++ [p]) as Hrows by (by rewrite <- (rev_involutive rows), Hrev).
    destruct (_ || _ || _) eqn:Hmore.
    + cbn [head fmap option_fmap option_map].
      assert (newest_first s = (A ++ rev before) ++ p :: drop (N.to_nat l) rest) as HO'.
      { rewrite HO, Hrest at 1. rewrite Hrows, <- !app_assoc. done. }
      change (follow fuel room user _ rooms)
        with (follow fuel room user (walk_query limit (Some (row_token p.1)) None) rooms).
      erewrite (IH (Some (row_token p.1)) _ (drop (N.to_nat l) rest) ((A ++ rev before) ++ [p]) Hlim); [done| | | |].
      * by rewrite HO', <- !app_assoc.
      * cbn [transpose]. rewrite token_parses; [reflexivity|].
        apply newest_row. rewrite HO'. apply elem_of_app. right. by left.
      * by apply next_page with (A ++ rev before).
      * rewrite length_drop. assert (rest ≠ []) by (intros ->; unfold rows in Hrows; rewrite take_nil in Hrows; by destruct (rev before)).
        destruct rest; [done|]. cbn [length] in *. lia.
    + apply orb_false_iff in Hmore as [Hmore _]. rewrite orb_false_r in Hmore.
      apply N.eqb_neq in Hmore. rewrite drop_ge; [by rewrite app_nil_r|].
      unfold rows in Hmore. rewrite length_take in Hmore. lia.
Qed.
End Room.

(** C32 (termination): reading a room backwards visits everything and ends.
    In a room that the caller may look into, whose rows are well formed and
    render without an error ([sees]), and where nothing is left to backfill
    (the frontier is empty, or history may not be read), a client that asks
    [/messages] for the newest
    events and follows the [end] tokens, with any limit, goes through every
    row it may read exactly once, newest first: the rows of the timeline up to
    its leave if it left, then, when history is readable, those of the
    backfilled history from the newest on.  It gets the events of these rows
    that can be shown; the pages neither skip nor repeat a row where the
    timeline ends and history begins, and [end] disappears after at most as
    many requests as there are rows and one more.  Where no two of the rows
    name the same event, no event comes twice; the import of a segment can give
    a backfilled event a second row, on the timeline, and it then comes
    twice. *)
Theorem messages_visit_everything rooms room user (s : RoomSeen rooms room user) limit l fuel :
  sees rooms room user s →
  (rs_readable s = true → history_frontier (for_room rooms room) room = Ok []) →
  parse_limit limit = Ok l → (length (newest_first s) < fuel)%nat →
  let events := omap (λ r, rs_shown s r.2) (newest_first s) in
  follow fuel room user (walk_query limit None None) rooms = Some events ∧
  (NoDup (newest_first s).*2 → NoDup (id_of <$> events)).
Proof.
  intros Hs Hfr Hlim Hf events. split.
  - apply (follow_rest rooms room user s Hs Hfr limit l fuel None None _ []); try done.
    apply first_page; [done..|]. by apply parse_limit_range in Hlim.
  - intros Hnd. apply (shown_once rooms room (rs_version s) user); [|done]. intros r Hr.
    by apply (newest_row rooms room user s Hs).
Qed.
End Walk.

(** ** The guard between rooms *)

Section Guard.
Context `{RC : RoomCodecs, JT : JsonText, SJ : SerdeJson, RU : Ruma, EC : EventCrypto}.
Context `{CJ : !ClientJson, UC : UserCodecs, UL : Utf8Lossy, B3 : Blake3}.
Context (rooms : RoomShards) (room : string).

Lemma of_room_always v id user ev :
  client_event rooms v room id user = Ok (Some ev) → of_room room ev = true.
Proof.
  intros H. destruct (client_event_get rooms room _ _ _ _ H) as (raw & _ & Hget). unfold of_room, vstr_at.
  cbn [vget as_object mbind option_bind]. rewrite Hget, client_format_get by done.
  by rewrite bool_decide_true.
Qed.

(** Reading an event by id is not confined to the room in the
    path.  The check that the event belongs to that room compares the room
    with the [room_id] that the server itself has just written into the
    event, so it never fails; and visibility is judged with the state group
    that the event has in its own room, looked up among the groups of the
    room in the path.  So whoever is joined in the group of that number of
    some room on the same shard, their own for instance, is given an event
    of any other room there, one they cannot see when they ask with the
    right room. *)
Theorem other_rooms_events_served id user device v stored state raw other :
  version_of rooms room = Ok v →
  event (for_room rooms room) id = Ok (Some stored) →
  se_rejected stored = None → se_state_group_after stored ≠ 0 →
  group_state rooms room (se_state_group_after stored) = Ok state →
  membership_in_shard (for_room rooms room) state user = Ok "join"%string →
  served (for_room rooms room) v id = Ok (Some raw) →
  json_str raw "room_id" = Some other → other ≠ room →
  obj_get "sender" raw ≠ Some (JString user) →
  ∃ ev, get_room_event rooms room id user device = Some (Ok ev) ∧
    vget "content" (VObj ev) = value_of <$> obj_get "content" raw ∧
    vstr_at "room_id" (VObj ev) = Some room.
Proof.
  intros Hv He Hrej Hg Hstate Hm Hraw _ _ Hsender.
  assert (user_can_see_event rooms room id user = Ok true) as Hsee.
  { unfold user_can_see_event. rewrite He. cbn [internal]. rewrite Hrej.
    rewrite (proj2 (N.eqb_neq _ _) Hg). cbn [is_some orb]. by rewrite Hstate, Hm. }
  assert (∃ ev, client_event rooms v room id user = Ok (Some ev)) as [ev Hev].
  { unfold client_event. rewrite Hraw, He. cbn [internal].
    rewrite (proj2 (N.eqb_neq _ _) Hg), Hstate, Hm. by eexists. }
  destruct (client_event_get rooms room _ _ _ _ Hev) as (raw' & Hraw' & Hget).
  rewrite Hraw in Hraw'. injection Hraw' as <-.
  exists ev. unfold vstr_at. cbn [vget as_object mbind option_bind].
  rewrite !Hget, !client_format_get by done. split; [|done].
  unfold get_room_event. rewrite Hv, Hsee. cbn [negb]. rewrite Hev. cbn [ok_or].
  rewrite (of_room_always _ _ _ _ Hev). unfold stamp_echo, vstr_at. cbn [vget as_object mbind option_bind].
  rewrite Hget by done.
  assert (obj_get "sender" (to_client_format raw room id) = value_of <$> obj_get "sender" raw) as ->
    by (rewrite client_format_get; reflexivity).
  rewrite bool_decide_true; [done|].
  revert Hsender. cbn. destruct (obj_get "sender" raw) as [[]|]; cbn; congruence.
Qed.
End Guard.

(** ** Witnesses *)

From S2P Require Import Demo RoomDemo UserDemo AuthDemo PipelineDemo RoomServeDemo.

#[export] Instance demo_client_json : ClientJson (H := pipe_serde) := {| num_of_int := λ z : Z, z |}.
#[export] Instance demo_blake : Blake3 := {| blake3_first8 := λ _, 0 |}.

(** A server with one room shard. *)
Definition one_shard (e : engine) : RoomShards := {| rs_count := 1; rs_slot := λ _, ctx e |}.

Definition no_users : UserStore := local_users {| r_shard := demo_shard; r_engine := ∅ |}.

(** Every row of a table passes. *)
Definition table_check (f : bytes → bytes → bool) (e : engine) (t : N) : bool :=
  forallb (λ kv : bytes * bytes,
    negb (starts_with (ctx_key demo_shard t EmptyString) kv.1) || f (str_drop 4 kv.1) kv.2)
    (map_to_list e).

Lemma table_check_ok f e t k v :
  table_check f e t = true → e !! ctx_key demo_shard t k = Some v → f k v = true.
Proof.
  unfold table_check. rewrite forallb_forall. intros Hf Hk.
  specialize (Hf (ctx_key demo_shard t k, v)). cbn [fst snd] in Hf. rewrite strip_ctx_key in Hf.
  rewrite ctx_key_prefix, starts_with_app in Hf. apply Hf.
  rewrite <- list_elem_of_In, elem_of_map_to_list. by rewrite <- ctx_key_prefix.
Qed.

Definition numbered_row (k v : bytes) : bool :=
  let n := (String.length k - 9)%nat in
  match from_be64 (str_drop (n + 1) k) with
  | Some m => bool_decide (k = room_u64_key (str_take n k) m) && nul_free (str_take n k)
              && (m <? u64_modulus) && utf8_ok v
  | None => false
  end.

Lemma numbered_ok e t : table_check numbered_row e t = true → numbered_table demo_shard e t.
Proof.
  intros Hf k v Hk. apply (table_check_ok _ _ _ _ _ Hf) in Hk. unfold numbered_row in Hk.
  destruct (from_be64 _) as [m|]; [|done]. rewrite !andb_true_iff, bool_decide_eq_true, N.ltb_lt in Hk.
  destruct Hk as [[[Hk Hr] Hm] Hu]. by eexists _, m.
Qed.

(** A room read by a member. *)
Section Sample.
Context (e : engine).

Definition shown_to (id : string) : option (list (string * jvalue Z)) :=
  match client_event (one_shard e) V11 demo_room id alice with Ok o => o | Err _ => None end.

Definition walk_ok : bool :=
  table_check numbered_row e T_ROOM_SEQ && table_check numbered_row e T_HISTORY
  && table_check (λ _ id, is_ok (client_event (one_shard e) V11 demo_room id alice)) e T_ROOM_SEQ
  && table_check (λ _ id, is_ok (client_event (one_shard e) V11 demo_room id alice)) e T_HISTORY
  && table_check (λ k _, negb (bool_decide (k = room_u64_key demo_room u64_max))) e T_HISTORY
  && is_ok (ensure_not_forgotten no_users alice demo_room)
  && match member_view (one_shard e) demo_room alice with Ok (_, None) => true | _ => false end
  && match version_of (one_shard e) demo_room with Ok V11 => true | _ => false end
  && match history_readable (one_shard e) demo_room with Ok true => true | _ => false end.

Definition seen_in (T H : list (N * string)) : RoomSeen (one_shard e) demo_room alice :=
  Build_RoomSeen (one_shard e) demo_room alice V11 None true T H shown_to.

Lemma sees_sample : walk_ok = true → ∃ T H, sees no_users (one_shard e) demo_room alice (seen_in T H).
Proof using Type.
  unfold walk_ok. rewrite !andb_true_iff.
  intros [[[[[[[[Hseq Hhist] Hserv] Hserv'] Hmax] Hforg] Hview] Hver] Hread].
  apply numbered_ok in Hseq, Hhist.
  destruct (table_exists (ctx e) demo_room eq_refl T_ROOM_SEQ eq_refl Hseq) as [T HT].
  destruct (table_exists (ctx e) demo_room eq_refl T_HISTORY eq_refl Hhist) as [H HH].
  exists T, H. split; cbn [seen_in rs_timeline rs_history rs_cap rs_version rs_readable rs_shown].
  - done.
  - by intros t [-> | ->].
  - done.
  - done.
  - intros [n id] [[_ Hn] Hk]%HH. cbn [fst]. apply (table_check_ok _ _ _ _ _ Hmax) in Hk.
    rewrite negb_true_iff, bool_decide_eq_false in Hk.
    assert (n ≠ u64_max) by (by intros ->). unfold u64_max, u64_modulus in *. lia.
  - by destruct (ensure_not_forgotten _ _ _) as [[]|].
  - destruct (member_view _ _ _) as [[view [c|]]|]; try done. by exists view.
  - done.
  - by destruct (version_of _ _) as [[]|].
  - by destruct (history_readable _ _) as [[]|].
  - assert (∀ id, is_ok (client_event (one_shard e) V11 demo_room id alice) = true →
      client_event (one_shard e) V11 demo_room id alice = Ok (shown_to id)) as Hok.
    { intros id. unfold shown_to. by destruct (client_event _ _ _ _ _). }
    intros [n id]. rewrite elem_of_app. intros [[_ Hk]%HT|[_ Hk]%HH].
    + by apply (table_check_ok _ _ _ _ _ Hserv) in Hk; apply Hok.
    + by apply (table_check_ok _ _ _ _ _ Hserv') in Hk; apply Hok.
Qed.

(** What the guard's theorem asks of the event [$sx]. *)
Definition secret_ok : bool :=
  match event (ctx e) "$sx" with
  | Ok (Some stored) =>
      match group_state (one_shard e) demo_room (se_state_group_after stored),
            served (ctx e) V11 "$sx" with
      | Ok state, Ok (Some raw) =>
          negb (is_some (se_rejected stored)) && negb (se_state_group_after stored =? 0)
          && match membership_in_shard (ctx e) state alice with
             | Ok m => bool_decide (m = "join"%string) | Err _ => false end
          && bool_decide (json_str raw "room_id" = Some "!s:b"%string)
          && bool_decide (json_str raw "sender" = Some "@bob:b"%string)
          && match version_of (one_shard e) demo_room with Ok V11 => true | _ => false end
      | _, _ => false
      end
  | _ => false
  end.
End Sample.

Lemma retopic_walk : walk_ok retopic_engine = true.
Proof. vm_compute. reflexivity. Qed.

(** Two messages from before the room reached this server are backfilled. *)
Definition p_old (id : string) (prev : list string) (depth : Z) : json_object :=
  demo_pdu id alice "m.room.message" None [("body", JString id)]%string ["$c"]%string prev depth.

Definition backfilled_engine : engine :=
  (import_history demo_shard demo_next Done demo_room
     [p_old "old2" ["$old1"]%string 2; p_old "old1" [] 1] retopic_engine).2.

Definition backfilled_ok (e : engine) : bool :=
  walk_ok e && match history_frontier (ctx e) demo_room with Ok [] => true | _ => false end.

Lemma backfilled_walk : backfilled_ok backfilled_engine = true.
Proof. vm_compute. reflexivity. Qed.

Lemma messages_visit_everything_witness : ∃ T H,
  table_rows (ctx backfilled_engine) demo_room T_ROOM_SEQ T ∧
  table_rows (ctx backfilled_engine) demo_room T_HISTORY H ∧
  let rows := newest_first (seen_in backfilled_engine T H) in
  let events := omap (λ r, shown_to backfilled_engine r.2) rows in
  (∀ fuel, (length rows < fuel)%nat →
    follow demo_next "a" no_users None fuel demo_room alice (walk_query (Some "2"%string) None None)
      (one_shard backfilled_engine) = Some events) ∧
  (NoDup rows.*2 → NoDup (id_of <$> events)).
Proof.
  generalize backfilled_walk. generalize backfilled_engine as e. intros e Hok.
  apply andb_true_iff in Hok as [Hwalk Hfront].
  destruct (sees_sample e Hwalk) as (T & H & Hs).
  assert (history_frontier (ctx e) demo_room = Ok []) as Hf
    by (destruct (history_frontier (ctx e) demo_room) as [[]|]; done).
  exists T, H. split; [exact (see_timeline _ _ _ _ _ Hs)|]. split; [exact (see_history _ _ _ _ _ Hs)|].
  split; [intros fuel Hfuel|];
    [|pose (fuel := S (length (newest_first (seen_in e T H)))); assert (length (newest_first (seen_in e T H)) < fuel)%nat as Hfuel by (unfold fuel; lia)];
    apply (messages_visit_everything demo_next "a" no_users None (one_shard e) demo_room alice
      (seen_in e T H) (Some "2"%string) 2 fuel Hs (λ _, Hf) eq_refl Hfuel).
Defined.

(** Seven events in pages of two, across the boundary. *)
Definition paged_ids (e : engine) (limit : string) : option (list (option string)) :=
  match follow demo_next "a" no_users None 12 demo_room alice (walk_query (Some limit) None None)
          (one_shard e) with
  | Some chunk => Some (id_of <$> chunk)
  | None => None
  end.

Example backfilled_pages : paged_ids backfilled_engine "2" =
  Some (Some <$> ["$topic2"; "$topic"; "$jr"; "$alice"; "$c"; "$old2"; "$old1"])%string.
Proof. vm_compute. reflexivity. Qed.

(** A segment that brings a backfilled event puts it on the timeline too. *)
Definition doubled_engine : option engine :=
  '(_, e) ← import_segment demo_shard demo_next 64 Done demo_room
    [p_create; p_alice; p_rules] [] [p_old "old2" ["$old1"]%string 2] backfilled_engine;
  Some e.

Example doubled_pages : (doubled_engine ≫= λ e, paged_ids e "2") =
  Some (Some <$> ["$old2"; "$topic2"; "$topic"; "$jr"; "$alice"; "$c"; "$old2"; "$old1"])%string.
Proof. vm_compute. reflexivity. Qed.

(** Five events in pages of two, newest first. *)
Example demo_pages :
  match follow demo_next "a" no_users None 6 demo_room alice (walk_query (Some "2"%string) None None)
          (one_shard retopic_engine) with
  | Some chunk => bool_decide ((λ ev, vstr_at "event_id" (VObj ev)) <$> chunk =
      Some <$> ["$topic2"; "$topic"; "$jr"; "$alice"; "$c"]%string)
  | None => false
  end = true.
Proof. vm_compute. reflexivity. Qed.

(** Bob writes in a room of his own, on the shard where Alice has hers. *)
Definition bob : string := "@bob:b".
Definition two_rooms : engine := run_pdus
  ([p_create; p_alice] ++ (moved "!s:b" <$>
    [demo_pdu "sc" bob "m.room.create" (Some EmptyString) [("room_version", JString "11")]%string [] [] 1;
     demo_pdu "sb" bob "m.room.member" (Some bob) [("membership", JString "join")]%string
       ["$sc"]%string ["$sc"]%string 2;
     demo_pdu "sx" bob "m.room.message" None [("body", JString "secret")]%string
       ["$sc"; "$sb"]%string ["$sb"]%string 3])) ∅.

Definition body_of (o : option (result ApiError (list (string * jvalue Z)))) : option string :=
  match o with
  | Some (Ok ev) => match vget "content" (VObj ev) with Some c => vstr_at "body" c | None => None end
  | _ => None
  end.

Lemma secret_sample : secret_ok two_rooms = true.
Proof. vm_compute. reflexivity. Qed.

(** Alice cannot see the event in Bob's room, and reads it through hers. *)
Example secret_hidden :
  match get_room_event (one_shard two_rooms) "!s:b" "$sx" alice "D" with
  | Some (Err (NotFound _)) => true | _ => false end = true.
Proof. vm_compute. reflexivity. Qed.

Example secret_read : body_of (get_room_event (one_shard two_rooms) demo_room "$sx" alice "D") = Some "secret"%string.
Proof. vm_compute. reflexivity. Qed.

Lemma other_sender (raw : json_object) u w :
  json_str raw "sender" = Some u → u ≠ w → obj_get "sender" raw ≠ Some (JString w).
Proof. unfold json_str. intros Hu Hne Hw. rewrite Hw in Hu. by injection Hu as ->. Qed.

Lemma other_rooms_events_served_witness : ∃ ev,
  get_room_event (one_shard two_rooms) demo_room "$sx" alice "D" = Some (Ok ev) ∧
  vstr_at "room_id" (VObj ev) = Some demo_room.
Proof.
  generalize secret_sample. generalize two_rooms as e. intros e Hs. unfold secret_ok in Hs.
  destruct (event (ctx e) "$sx") as [[stored|]|] eqn:He; [|discriminate Hs..].
  destruct (group_state (one_shard e) demo_room (se_state_group_after stored)) as [state|] eqn:Hg;
    [|discriminate Hs].
  destruct (served (ctx e) V11 "$sx") as [[raw|]|] eqn:Hraw; [|discriminate Hs..].
  rewrite !andb_true_iff in Hs. destruct Hs as [[[[[Hrej Hn] Hm] Hr] Hsend] Hv].
  apply negb_true_iff in Hrej, Hn. apply N.eqb_neq in Hn.
  destruct (membership_in_shard _ _ _) as [m|] eqn:Hmem; [|discriminate Hm].
  apply bool_decide_eq_true in Hm, Hr, Hsend. subst m.
  assert (version_of (one_shard e) demo_room = Ok V11) as Hver by (by destruct (version_of _ _) as [[]|]).
  assert (se_rejected stored = None) as Hnr by (by destruct (se_rejected stored)).
  destruct (other_rooms_events_served (one_shard e) demo_room "$sx" alice "D" V11 stored state raw
    "!s:b" Hver He Hnr Hn Hg Hmem Hraw Hr ltac:(discriminate)
    (other_sender raw "@bob:b" alice Hsend ltac:(discriminate))) as (ev & Hev & _ & Hroom).
  exists ev. exact (conj Hev Hroom).
Defined.
