(* ===== verification/ClientSync.v ===== *)
(** * What a sync response says (saltator-cs-api)

    The response of routes/sync.rs ([build_sync] with the four kinds of rooms,
    account data, to-device messages, device lists and presence), from the
    reads it makes: room_util.rs in [ClientRead], the user keyspace in
    [UserRead], the in-memory maps of typing.rs and presence.rs, the device
    list deltas of services/e2ee.rs and the unread counts of push_eval.rs.
    The long poll around it, which waits for something to say, is not
    modelled; a response reads the clock as one instant. *)

From Stdlib Require Import Ascii.
From S2P Require Import Prelude Bytes Store Codec Json Shard ShardFacts RoomTypes RoomMachine RoomRead RoomReadSpec.
From S2P Require Import CoreEvent PowerLevels Auth StateRes Pdu Pipeline RoomServe RoomJoin.
From S2P Require Import UserTypes UserMachine UserKeys UserRead ClientToken ClientRead ClientReadSpec.
From stdpp Require Import options.
Set Warnings "-register-all".

Local Open Scope N_scope.

(** ** Outcomes

    A handler that may panic ([None]) or fail; the panics are those of
    [stamp_echo]. *)
Abbreviation outcome A := (option (result ApiError A)) (only parsing).

Notation "'let!' x ':=' m 'in' k" :=
  (match m with Some (Ok x) => k | Some (Err e) => Some (Err e) | None => None end)
  (at level 10, x pattern, m at level 100, k at level 200).

(** [for x in l { body }] *)
Fixpoint served_fold {A B} (f : B → A → outcome B) (b : B) (l : list A) : outcome B :=
  match l with
  | [] => Some (Ok b)
  | a :: l => let! b' := f b a in served_fold f b' l
  end.

(** ** Typing (typing.rs)

    Instants are milliseconds; users by their expiry. *)

Record RoomTyping : Type := { ty_users : gmap string N; ty_changed_at : N }.
Record TypingMap : Type := { tm_inner : gmap string RoomTyping; tm_gen : N }.

Definition MAX_TYPING_ROOMS : N := 50000.

Definition bump_gen (gen : N) : N := add64 gen 1.

(** The value at position [n] in ascending order. *)
Definition nth_smallest (n : N) (l : list N) : N := default 0 (merge_sort N.le l !! N.to_nat n).

Definition typing_set (clock : N) (room_id user_id : string) (typing : bool) (timeout : N)
    (m : TypingMap) : TypingMap :=
  let inner := tm_inner m in
  let inner :=
    if bool_decide (inner !! room_id = None) && (MAX_TYPING_ROOMS <=? N.of_nat (size inner)) then
      let evict := N.of_nat (size inner) - MAX_TYPING_ROOMS * 9 / 10 in
      let cutoff := nth_smallest evict (ty_changed_at ∘ snd <$> map_to_list inner) in
      filter (λ kv, cutoff < ty_changed_at kv.2) inner
    else inner in
  let room := default {| ty_users := ∅; ty_changed_at := 0 |} (inner !! room_id) in
  let changed := if typing then negb (is_some (ty_users room !! user_id))
                 else is_some (ty_users room !! user_id) in
  let users := if typing then <[user_id := clock + timeout]> (ty_users room)
               else delete user_id (ty_users room) in
  let gen := if changed then bump_gen (tm_gen m) else tm_gen m in
  {| tm_inner := <[room_id := {| ty_users := users;
                                ty_changed_at := if changed then gen else ty_changed_at room |}]> inner;
     tm_gen := gen |}.

(** Expiry counts as a change. *)
Definition typing_in (clock : N) (room_id : string) (m : TypingMap) : (list string * N) * TypingMap :=
  match tm_inner m !! room_id with
  | None => (([], 0), m)
  | Some room =>
      let users := filter (λ kv, clock < kv.2) (ty_users room) in
      let expired := negb (size users =? size (ty_users room))%nat in
      let gen := if expired then bump_gen (tm_gen m) else tm_gen m in
      let changed_at := if expired then gen else ty_changed_at room in
      ((btree (dom users), changed_at),
       {| tm_inner := <[room_id := {| ty_users := users; ty_changed_at := changed_at |}]> (tm_inner m);
          tm_gen := gen |})
  end.

(** ** Presence (presence.rs) *)

Record PresenceEntry : Type := {
  pe_presence : string; pe_status_msg : option string; pe_last_active : N; pe_changed_at : N }.
Record PresenceMap : Type := { pm_inner : gmap string PresenceEntry; pm_gen : N }.

Definition MAX_PRESENCE_USERS : N := 50000.

(** [status_msg]: outer [None] leaves the message as it is. *)
Definition presence_update (clock : N) (user_id presence : string)
    (status_msg : option (option string)) (m : PresenceMap) : PresenceMap :=
  let entry := default {| pe_presence := EmptyString; pe_status_msg := None;
                          pe_last_active := clock; pe_changed_at := 0 |} (pm_inner m !! user_id) in
  let c := bool_decide (pe_presence entry ≠ presence)
           || match status_msg with
              | Some msg => bool_decide (pe_status_msg entry ≠ msg)
              | None => false
              end in
  let gen := if c then bump_gen (pm_gen m) else pm_gen m in
  let inner := <[user_id := {| pe_presence := presence;
                               pe_status_msg := default (pe_status_msg entry) status_msg;
                               pe_last_active := clock;
                               pe_changed_at := if c then gen else pe_changed_at entry |}]>
                 (pm_inner m) in
  let inner :=
    if MAX_PRESENCE_USERS <? N.of_nat (size inner) then
      let evict := N.of_nat (size inner) - MAX_PRESENCE_USERS * 9 / 10 in
      let cutoff := nth_smallest evict (pe_last_active ∘ snd <$> map_to_list inner) in
      filter (λ kv, cutoff ≤ pe_last_active kv.2) inner
    else inner in
  {| pm_inner := inner; pm_gen := gen |}.

Definition presence_set (clock : N) (user_id presence : string) (status_msg : option string) :=
  presence_update clock user_id presence (Some status_msg).

Definition set_active (clock : N) (user_id presence : string) :=
  presence_update clock user_id presence None.

Definition presence_get (user_id : string) (m : PresenceMap) : option PresenceEntry :=
  pm_inner m !! user_id.

(** The order is that of a hash map, so any; here the map's own. *)
Definition changed_since (since_gen : N) (m : PresenceMap) : list (string * PresenceEntry) :=
  List.filter (λ kv, since_gen <? pe_changed_at kv.2) (map_to_list (pm_inner m)).

(** ** Filters *)

Record SyncFilter : Type := {
  sf_limit : N; sf_lazy : bool; sf_include_leave : bool; sf_unread_threads : bool;
  sf_timeline_types : option (list string); sf_timeline_not_types : list string;
  sf_state_types : option (list string); sf_state_not_types : list string }.

Definition default_filter : SyncFilter := {|
  sf_limit := 10; sf_lazy := false; sf_include_leave := false; sf_unread_threads := false;
  sf_timeline_types := None; sf_timeline_not_types := [];
  sf_state_types := None; sf_state_not_types := [] |}.

(** What the server reads of ruma's [FilterDefinition]. *)
Record FilterDefinition : Type := {
  fd_timeline_limit : option N; fd_lazy_load : bool; fd_include_leave : bool;
  fd_unread_threads : bool;
  fd_timeline_types : option (list string); fd_timeline_not_types : list string;
  fd_state_types : option (list string); fd_state_not_types : list string }.

Inductive Filter : Type :=
| FilterDef (def : FilterDefinition)
| FilterId (id : string)
| OtherFilter.

(** ruma's identifiers and the text of a filter. *)
Class RumaSync := {
  room_id_ok : string → bool;
  parse_filter : bytes → option FilterDefinition;
}.

(** ** Push rules (ruma's rulesets and their evaluator) *)

Inductive Action : Type :=
| Notify
| SetSound (sound : string)
| SetHighlight (on : bool)
| OtherAction.

Definition is_highlight (a : Action) : bool :=
  match a with SetHighlight b => b | _ => false end.

Definition is_notify (a : Action) : bool := match a with Notify => true | _ => false end.

Record PowerLevelsCtx : Type := {
  pc_users : gmap string Z; pc_users_default : Z; pc_room : Z }.

Record PushCtx : Type := {
  px_room_id : string; px_member_count : N; px_user_id : string; px_display_name : string;
  px_power_levels : option PowerLevelsCtx }.

Class RumaPush `{SerdeJson} := {
  Ruleset : Type;
  server_default : string → Ruleset;
  ruleset_from : jvalue jnum → option Ruleset;
  ruleset_value : Ruleset → jvalue jnum;
  override_ids : Ruleset → list string;
  content_ids : Ruleset → list string;
  (** An enabled default rule on the display name, or on a pattern. *)
  insert_override : string → list Action → Ruleset → Ruleset;
  insert_content : string → list Action → string → Ruleset → Ruleset;
  get_actions : Ruleset → jvalue jnum → PushCtx → list Action;
  localpart : string → string;
  (** [ruma::Int::new]: integers JavaScript can represent. *)
  int_new : Z → option Z;
}.

Record Counts : Type := { ct_notify : N; ct_highlight : N }.
Record RoomUnread : Type := {
  un_all : Counts; un_main : Counts; un_threads : gmap string Counts }.

Definition no_counts : Counts := {| ct_notify := 0; ct_highlight := 0 |}.

Definition SCAN_CAP : N := 512.

(** ** Rooms of a response *)

Section Response.
Context `{RC : RoomCodecs, JT : JsonText, SJ : SerdeJson, RU : Ruma, EC : EventCrypto}.
Context `{CJ : !ClientJson, UC : UserCodecs, UL : Utf8Lossy, B3 : Blake3}.
Context `{RS : RumaSync, !RumaPush}.

Abbreviation client_json := (list (string * jvalue jnum)) (only parsing).
(** [account_data_event] *)
Definition account_data_event (data_type : string) (content : bytes) : result ApiError (jvalue jnum) :=
  let? content := ok_or (from_slice content) Internal in
  Ok (vobj [("type"%string, VStr data_type); ("content"%string, content)]).

Section Rooms.
Context (rooms : RoomShards) (users : UserStore).

(** [state_at]: empty before the room existed. *)
Definition state_at (room_id : string) (at_ : N) : result ApiError StateIds :=
  let store := for_room rooms room_id in
  let? rows := internal (room_timeline store room_id 0 (Some at_) 1 true) in
  match head rows with
  | None => Ok ∅
  | Some (_, event_id) =>
      let? o := internal (event store event_id) in
      match o with
      | None => Ok ∅
      | Some stored => internal (room_state store room_id (se_state_group_after stored))
      end
  end.

(** *** Unread counts (push_eval.rs, routes/push.rs) *)

Definition load_ruleset (user_id : string) : result ApiError Ruleset :=
  let? o := internal (account_data users user_id EmptyString "m.push_rules") in
  Ok (default (server_default user_id)
    (entry ← o; c ← from_slice (ad_json entry); global ← vget "global" c; ruleset_from global)).

Definition mention_actions : list Action := [Notify; SetSound "default"; SetHighlight true].

Definition add_legacy_mention_rules (user_id : string) (r : Ruleset) : Ruleset :=
  let r := if bool_decide (".m.rule.contains_display_name"%string ∈ override_ids r) then r
           else insert_override ".m.rule.contains_display_name" mention_actions r in
  if bool_decide (".m.rule.contains_user_name"%string ∈ content_ids r) then r
  else insert_content ".m.rule.contains_user_name" mention_actions (localpart user_id) r.

Definition vint_at (key : string) (v : jvalue jnum) : option Z :=
  x ← vget key v; match x with VNum n => jnum_i64 n | _ => None end.

Definition power_levels_ctx (content : jvalue jnum) : option PowerLevelsCtx :=
  let users : gmap string Z :=
    match vget "users" content with
    | Some (VObj m) =>
        foldl (λ out '(k, v),
          match (if user_id_ok k
                 then n ← (match v with VNum n => jnum_i64 n | _ => None end); int_new n
                 else None) with
          | Some n => <[k := n]> out
          | None => out
          end) ∅ m
    | _ => ∅
    end in
  zero ← int_new 0;
  fifty ← int_new 50;
  Some {| pc_users := users;
          pc_users_default := default zero (vint_at "users_default" content ≫= int_new);
          pc_room := default fifty (n ← vget "notifications" content; vint_at "room" n ≫= int_new) |}.

Definition rule_inputs (user_id room_id : string) : result ApiError (Ruleset * PushCtx) :=
  let? ruleset := load_ruleset user_id in
  let ruleset := add_legacy_mention_rules user_id ruleset in
  let? members := joined_member_ids rooms room_id in
  let display_name := default (localpart user_id)
    (match profile users user_id with Ok o => p ← o; pf_displayname p | Err _ => None end) in
  let? current := current_state rooms room_id in
  let? content := state_content_in rooms room_id current "m.room.power_levels" in
  if room_id_ok room_id then
    Ok (ruleset, {| px_room_id := room_id; px_member_count := N.min (N.of_nat (length members)) u32_max;
                    px_user_id := user_id; px_display_name := display_name;
                    px_power_levels := content ≫= power_levels_ctx |})
  else Err Internal.

(** The root of the thread the event is in, or the main timeline. *)
Definition thread_of (ev : client_json) : string :=
  let rel := default VNull (c ← vget "content" (VObj ev); vget "m.relates_to" c) in
  if bool_decide (vstr_at "rel_type" rel = Some "m.thread"%string)
  then default "main"%string (vstr_at "event_id" rel)
  else "main"%string.

(** How far the user has read: everywhere, and per thread. *)
Definition read_step (room_id user_id : string) (acc : N * gmap string N)
    (r : string * string * ReceiptRecord) : N * gmap string N :=
  let '(user, receipt_type, record) := r in
  let '(unthreaded, thread_pos) := acc in
  if bool_decide (user ≠ user_id) || negb (bool_decide (receipt_type ∈ ["m.read"; "m.read.private"]%string))
  then acc
  else match event (for_room rooms room_id) (rr_event_id record) with
       | Ok (Some s) =>
           match rr_thread_id record with
           | None => (N.max unthreaded (se_seq s), thread_pos)
           | Some thread =>
               (unthreaded, <[thread := N.max (default 0 (thread_pos !! thread)) (se_seq s)]> thread_pos)
           end
       | _ => acc
       end.

Definition count (highlight : bool) (c : Counts) : Counts :=
  {| ct_notify := ct_notify c + 1;
     ct_highlight := if highlight then ct_highlight c + 1 else ct_highlight c |}.

(** One event of the scan. *)
Definition unread_step (v : RoomVersion) (room_id user_id : string) (inputs : Ruleset * PushCtx)
    (thread_pos : gmap string N) (out : RoomUnread) (row : N * string) : result ApiError RoomUnread :=
  let? o := client_event rooms v room_id row.2 user_id in
  Ok (match o with
      | None => out
      | Some ev =>
          if bool_decide (vstr_at "sender" (VObj ev) = Some user_id) then out
          else
            let thread := thread_of ev in
            if default false ((λ pos, row.1 <=? pos) <$> (thread_pos !! thread)) then out
            else
              let actions := get_actions inputs.1 (VObj ev) inputs.2 in
              if negb (existsb is_notify actions) then out
              else
                let highlight := existsb is_highlight actions in
                if bool_decide (thread = "main"%string) then
                  {| un_all := count highlight (un_all out); un_main := count highlight (un_main out);
                     un_threads := un_threads out |}
                else
                  {| un_all := count highlight (un_all out); un_main := un_main out;
                     un_threads := <[thread := count highlight
                       (default no_counts (un_threads out !! thread))]> (un_threads out) |}
      end).

Definition room_unread (user_id room_id : string) (upto : N) : result ApiError RoomUnread :=
  let store := for_room rooms room_id in
  let? rs := internal (receipts store room_id) in
  let '(unthreaded, thread_pos) := foldl (read_step room_id user_id) (0, ∅) rs in
  let? inputs := rule_inputs user_id room_id in
  let? m := room_meta rooms room_id in
  let? v := room_version m in
  let? rows := internal (room_timeline store room_id unthreaded (Some upto) SCAN_CAP false) in
  try_fold (unread_step v room_id user_id inputs thread_pos)
    {| un_all := no_counts; un_main := no_counts; un_threads := ∅ |} rows.

(** *** Joined rooms *)

Record JoinedRoom : Type := {
  jr_limited : bool; jr_prev_batch : option string; jr_timeline : list client_json;
  jr_state : list client_json; jr_ephemeral : list (jvalue jnum);
  jr_account_data : list (jvalue jnum);
  jr_joined_count : option N; jr_invited_count : option N;
  jr_unread : option Counts; jr_threads : list (string * Counts) }.

(** [v3::JoinedRoom::new()] *)
Definition empty_room : JoinedRoom := {|
  jr_limited := false; jr_prev_batch := None; jr_timeline := []; jr_state := [];
  jr_ephemeral := []; jr_account_data := []; jr_joined_count := None; jr_invited_count := None;
  jr_unread := None; jr_threads := [] |}.

(** The newest [limit] rows in [(since, now]], oldest first, and whether there
    are more. *)
Definition newest_window (room_id : string) (since now limit : N) :
    result ApiError (list (N * string) * bool) :=
  let? window := internal (room_timeline (for_room rooms room_id) room_id since (Some now) (limit + 1) true) in
  Ok (rev (take (N.to_nat limit) window), limit <? N.of_nat (length window)).

(** Only what follows the last gap is contiguous. *)
Definition cut_at_gap (gap_markers : list N) (since now : N) (window : list (N * string) * bool) :
    list (N * string) * bool :=
  match list_max_opt (List.filter (λ g, (since <? g) && (g <=? now)) gap_markers) with
  | Some gap => (List.filter (λ r, gap <=? r.1) window.1, true)
  | None => window
  end.

Definition joined_window (room_id : string) (gap_markers : list N) (since now limit : N)
    (initial : bool) : result ApiError (list (N * string) * bool) :=
  let? window := newest_window room_id since now limit in
  Ok (if initial then window else cut_at_gap gap_markers since now window).

Definition prev_batch (window : list (N * string)) (at_ : N) : option string :=
  (λ r, prev_batch_token r.1 at_) <$> head window.

(** One row of the timeline: its event, and who sent it. *)
Definition timeline_step (v : RoomVersion) (room_id user_id device_id : string) (filter : SyncFilter)
    (acc : list client_json * list string) (row : N * string) : outcome (list client_json * list string) :=
  let '(events, senders) := acc in
  let! o := Some (client_event rooms v room_id row.2 user_id) in
  match o with
  | None => Some (Ok acc)
  | Some ev =>
      let ty := default EmptyString (vstr_at "type" (VObj ev)) in
      if negb (type_matches (sf_timeline_types filter) (sf_timeline_not_types filter) ty) then Some (Ok acc)
      else
        let senders := match vstr_at "sender" (VObj ev) with
                       | Some s => senders ++ [s]
                       | None => senders
                       end in
        let! ev := stamp_echo rooms room_id ev user_id device_id in
        Some (Ok (events ++ [ev], senders))
  end.

Definition timeline_events (v : RoomVersion) (room_id user_id device_id : string) (filter : SyncFilter)
    (window : list (N * string)) : outcome (list client_json * list string) :=
  served_fold (timeline_step v room_id user_id device_id filter) ([], []) window.

(** The state before the timeline; before the first event of a room that was
    imported it is in that event's own group. *)
Definition start_state (room_id : string) (window : list (N * string)) (now : N) :
    result ApiError StateIds :=
  match window with
  | (first_seq, first_event_id) :: _ =>
      let? at_start := state_at room_id (saturating_sub64 first_seq 1) in
      if bool_decide (at_start = ∅) then
        let store := for_room rooms room_id in
        let? o := internal (event store first_event_id) in
        match o with
        | Some stored =>
            let? group := internal (room_state store room_id (se_state_group_after stored)) in
            Ok (filter (λ kv, kv.2 ≠ first_event_id) group)
        | None => Ok at_start
        end
      else Ok at_start
  | [] => state_at room_id now
  end.

(** The entries of [start] that [base] does not have, in key order; [lazy]
    names the senders whose member events are wanted. *)
Definition state_delta (filter : SyncFilter) (lazy : option (list string)) (start base : StateIds) :
    list string :=
  omap (λ key,
    id ← start !! key;
    if bool_decide (base !! key = Some id) then None
    else if negb (type_matches (sf_state_types filter) (sf_state_not_types filter) key.1) then None
    else if bool_decide (key.1 = "m.room.member"%string)
            && default false ((λ senders, negb (bool_decide (key.2 ∈ senders))) <$> lazy) then None
    else Some id) (sorted_keys (dom start)).

(** [receipt_content]: what the caller may see of the window's receipts. *)
Definition receipt_step (user_id : string) (initial : bool) (since now : N)
    (content : list (string * jvalue jnum)) (r : string * string * ReceiptRecord) :
    list (string * jvalue jnum) :=
  let '(user, receipt_type, record) := r in
  if negb initial && ((rr_seq record <=? since) || (now <? rr_seq record)) then content
  else if bool_decide (receipt_type = "m.read.private"%string) && bool_decide (user ≠ user_id) then content
  else
    let entry := match obj_get (rr_event_id record) content with Some (VObj o) => o | _ => [] end in
    let per_type := match obj_get receipt_type entry with Some (VObj o) => o | _ => [] end in
    if match obj_get user per_type with
       | Some (VObj o) => negb (is_some (obj_get "thread_id" o))
       | _ => false
       end then content
    else
      let value := vobj (("ts"%string, VNum (num_of_int (Z.of_N (rr_ts record)))) ::
                         match rr_thread_id record with
                         | Some thread => [("thread_id"%string, VStr thread)]
                         | None => []
                         end) in
      obj_insert (rr_event_id record)
        (VObj (obj_insert receipt_type (VObj (obj_insert user value per_type)) entry)) content.

Definition receipt_events (room_id user_id : string) (initial : bool) (since now : N) :
    result ApiError (list (jvalue jnum)) :=
  let? rs := internal (receipts (for_room rooms room_id) room_id) in
  let content := foldl (receipt_step user_id initial since now) [] rs in
  Ok (if bool_decide (length content = 0%nat) then []
      else [vobj [("type"%string, VStr "m.receipt"); ("content"%string, VObj content)]]).

Definition typing_events (initial : bool) (since now : N) (typing : list string * N) :
    list (jvalue jnum) :=
  let '(typing_users, typing_gen) := typing in
  let changed := (since <? typing_gen) && (typing_gen <=? now) in
  if (initial && negb (bool_decide (typing_users = []))) || (negb initial && changed)
  then [vobj [("type"%string, VStr "m.typing");
              ("content"%string, VObj [("user_ids"%string, VArr (VStr <$> typing_users))])]]
  else [].

(** Account data of one scope ([EmptyString] is the global one). *)
Definition account_data_events (user_id scope : string) (initial : bool) (since : N) :
    result ApiError (list (jvalue jnum)) :=
  let? rows := internal (account_data_all users user_id) in
  try_fold (λ out '(room, data_type, entry),
    if bool_decide (room ≠ scope) || (negb initial && (ad_seq entry <=? since)) then Ok out
    else let? ev := account_data_event data_type (ad_json entry) in Ok (out ++ [ev])) [] rows.

Definition member_counts (room_id : string) : result ApiError (N * N) :=
  match current_state rooms room_id with
  | Err _ => Ok (0, 0)
  | Ok current =>
      try_fold (λ '(joined, invited) '(event_type, state_key),
        if bool_decide (event_type ≠ "m.room.member"%string) then Ok (joined, invited)
        else
          let? m := membership_in_shard (for_room rooms room_id) current state_key in
          Ok (if bool_decide (m = "join"%string) then (joined + 1, invited)
              else if bool_decide (m = "invite"%string) then (joined, invited + 1)
              else (joined, invited))) (0, 0) (sorted_keys (dom current))
  end.

(** Up to the receipts: the timeline with its senders, and the state. *)
Definition joined_history (room_id user_id device_id : string) (m : RoomMeta) (since now : SyncPos)
    (filter : SyncFilter) (full_state initial : bool) : outcome JoinedRoom :=
  let idx := index_of rooms room_id in
  let! v := Some (room_version m) in
  let! (window, limited) := Some (joined_window room_id (rm_gap_markers m) (room_at since idx)
                                    (room_at now idx) (sf_limit filter) initial) in
  let! (events, senders) := timeline_events v room_id user_id device_id filter window in
  let! start := Some (start_state room_id window (room_at now idx)) in
  let! base := Some (if initial || full_state then Ok ∅ else state_at room_id (room_at since idx)) in
  let! state := Some (client_events rooms v room_id
      (state_delta filter (if sf_lazy filter then Some senders else None) start base) user_id) in
  Some (Ok {| jr_limited := limited; jr_prev_batch := prev_batch window (room_at now idx);
              jr_timeline := events; jr_state := state; jr_ephemeral := []; jr_account_data := [];
              jr_joined_count := None; jr_invited_count := None; jr_unread := None; jr_threads := [] |}).

Definition build_joined_room (clock : N) (user_id device_id room_id : string) (since now : SyncPos)
    (filter : SyncFilter) (full_state initial : bool) (typing : TypingMap) :
    outcome JoinedRoom * TypingMap :=
  let idx := index_of rooms room_id in
  match internal (meta (for_room rooms room_id) room_id) with
  | Err e => (Some (Err e), typing)
  | Ok None => (Some (Ok empty_room), typing)
  | Ok (Some m) =>
      match (let! room := joined_history room_id user_id device_id m since now filter full_state initial in
             let! rs := Some (receipt_events room_id user_id initial (room_at since idx) (room_at now idx)) in
             Some (Ok (room, rs))) with
      | None => (None, typing)
      | Some (Err e) => (Some (Err e), typing)
      | Some (Ok (room, rs)) =>
          let '(t, typing) := typing_in clock room_id typing in
          (let! data := Some (account_data_events user_id room_id initial (sp_user since)) in
           let! (joined, invited) := Some (member_counts room_id) in
           let! unread := Some (room_unread user_id room_id (room_at now idx)) in
           Some (Ok {| jr_limited := jr_limited room; jr_prev_batch := jr_prev_batch room;
                       jr_timeline := jr_timeline room; jr_state := jr_state room;
                       jr_ephemeral := rs ++ typing_events initial (sp_typing since) (sp_typing now) t;
                       jr_account_data := data;
                       jr_joined_count := Some joined; jr_invited_count := Some invited;
                       jr_unread := Some (if sf_unread_threads filter then un_main unread else un_all unread);
                       jr_threads :=
                         if sf_unread_threads filter
                         then List.filter (λ kv, event_id_ok kv.1) (map_to_list (un_threads unread))
                         else [] |}), typing)
      end
  end.


(** *** Rooms the caller left *)

Record LeftRoom : Type := {
  lr_limited : bool; lr_prev_batch : option string; lr_timeline : list client_json;
  lr_state : list client_json }.

(** The caller's leave of a room that is not hosted here. *)
Definition synthetic_leave (user_id room_id : string) (m : MembershipEntry) : client_json :=
  foldl (λ o kv, obj_insert kv.1 kv.2 o) []
    [("type"%string, VStr "m.room.member"); ("state_key"%string, VStr user_id);
     ("sender"%string, VStr (me_sender m));
     ("content"%string, VObj [("membership"%string, VStr (me_membership m))]);
     ("event_id"%string, VStr (me_event_id m)); ("room_id"%string, VStr room_id);
     ("origin_server_ts"%string, VNum (num_of_int 0))].

Definition left_start_state (room_id : string) (window : list (N * string)) (ceiling : N) :
    result ApiError StateIds :=
  state_at room_id (match window with
                    | (first_seq, _) :: _ => saturating_sub64 first_seq 1
                    | [] => ceiling
                    end).

(** Nothing the room did after the leave. *)
Definition build_left_room (user_id device_id room_id : string) (m : MembershipEntry)
    (since now : SyncPos) (filter : SyncFilter) (fresh : bool) : outcome LeftRoom :=
  let idx := index_of rooms room_id in
  let! o := Some (internal (meta (for_room rooms room_id) room_id)) in
  match o with
  | None =>
      Some (Ok {| lr_limited := false; lr_prev_batch := None;
                  lr_timeline := if bool_decide (me_membership m ∈ ["leave"; "ban"]%string)
                                 then [synthetic_leave user_id room_id m] else [];
                  lr_state := [] |})
  | Some meta =>
      let! v := Some (room_version meta) in
      let ceiling := N.min (me_room_seq m) (room_at now idx) in
      let window_start := if fresh then 0 else room_at since idx in
      let! (window, limited) := Some (newest_window room_id window_start ceiling (sf_limit filter)) in
      let! (events, _) := timeline_events v room_id user_id device_id filter window in
      let! start := Some (left_start_state room_id window ceiling) in
      let! base := Some (if fresh then Ok ∅ else state_at room_id (room_at since idx)) in
      let! state := Some (client_events rooms v room_id (state_delta filter None start base) user_id) in
      Some (Ok {| lr_limited := limited; lr_prev_batch := prev_batch window ceiling;
                  lr_timeline := events; lr_state := state |})
  end.

(** *** Invites and knocks *)

Definition INVITE_STATE_TYPES : list string :=
  ["m.room.create"; "m.room.join_rules"; "m.room.canonical_alias"; "m.room.name"; "m.room.avatar";
   "m.room.topic"; "m.room.encryption"]%string.

(** The stripped events of the entries [wanted]. *)
Definition stripped_entries (room_id : string) (current : StateIds) (wanted : list Key) :
    result ApiError (list (jvalue jnum)) :=
  try_fold (λ out key,
    match current !! key with
    | None => Ok out
    | Some event_id =>
        let? o := raw_event_shard (for_room rooms room_id) event_id in
        Ok (match o with Some raw => out ++ [stripped_event raw] | None => out end)
    end) [] wanted.

(** What a remote server sent of the room, when it is not hosted here. *)
Definition stored_stripped (user_id room_id : string) : result ApiError (list (jvalue jnum)) :=
  let? o := internal (invite_state users user_id room_id) in
  Ok (match o with Some l => omap from_slice l | None => [] end).

Definition pending_room (user_id room_id : string) (members : list string) :
    result ApiError (list (jvalue jnum)) :=
  let? o := internal (meta (for_room rooms room_id) room_id) in
  match o with
  | None => stored_stripped user_id room_id
  | Some m =>
      let? current := internal (room_state (for_room rooms room_id) room_id (rm_current_group m)) in
      stripped_entries room_id current
        (((λ t, (t, EmptyString)) <$> INVITE_STATE_TYPES) ++ (member_key <$> members))
  end.

Definition build_invited_room (user_id room_id : string) (m : MembershipEntry) :
    result ApiError (list (jvalue jnum)) :=
  pending_room user_id room_id [user_id; me_sender m].

Definition build_knocked_room (user_id room_id : string) : result ApiError (list (jvalue jnum)) :=
  pending_room user_id room_id [user_id].

(** ** Device lists (services/e2ee.rs) *)

Definition shares_room (my_joined_rooms : gset string) (other : string) : result ApiError bool :=
  let? ms := internal (memberships users other) in
  Ok (existsb (λ rm, bool_decide (me_membership rm.2 = "join"%string)
                     && bool_decide (rm.1 ∈ my_joined_rooms)) ms).

(** A change moves a user to one of the two sides. *)
Definition to_changed (acc : gset string * gset string) (user : string) : gset string * gset string :=
  (acc.1 ∪ {[user]}, acc.2 ∖ {[user]}).
Definition to_left (acc : gset string * gset string) (user : string) : gset string * gset string :=
  (acc.1 ∖ {[user]}, acc.2 ∪ {[user]}).

Definition delta_step (user_id : string) (my_joined_rooms : gset string)
    (acc : gset string * gset string) (entry : KeyChangeEntry) :
    result ApiError (gset string * gset string) :=
  let user := kc_user_id entry in
  match kc_membership entry with
  | None =>
      if bool_decide (user = user_id) then Ok (to_changed acc user)
      else let? s := shares_room my_joined_rooms user in Ok (if s then to_changed acc user else acc)
  | Some (room_id, true) =>
      if bool_decide (user = user_id) then
        let? members := joined_member_ids rooms room_id in Ok (foldl to_changed acc members)
      else Ok (if bool_decide (room_id ∈ my_joined_rooms) then to_changed acc user else acc)
  | Some (room_id, false) =>
      if bool_decide (user = user_id) then
        let? members := joined_member_ids rooms room_id in
        try_fold (λ acc member,
          if bool_decide (member = user_id) then Ok acc
          else let? s := shares_room my_joined_rooms member in
               Ok (if s then acc else to_left acc member)) acc members
      else if bool_decide (room_id ∈ my_joined_rooms) then
        let? s := shares_room my_joined_rooms user in Ok (if s then acc else to_left acc user)
      else Ok acc
  end.

Definition device_list_deltas (user_id : string) (my_joined_rooms : gset string) (since upto : N) :
    result ApiError (gset string * gset string) :=
  let? entries := internal (key_changes users since upto) in
  try_fold (delta_step user_id my_joined_rooms) (∅, ∅) entries.

(** ** The response *)

Definition load_filter (user_id : string) (filter : option Filter) : result ApiError SyncFilter :=
  let? definition :=
    match filter with
    | None | Some OtherFilter => Ok None
    | Some (FilterDef def) => Ok (Some def)
    | Some (FilterId id) =>
        let? o := internal (filter_json users user_id id) in
        let? json := ok_or o (InvalidParam "Unknown filter ID") in
        let? def := ok_or (parse_filter json) Internal in
        Ok (Some def)
    end in
  Ok (match definition with
      | None => default_filter
      | Some def =>
          {| sf_limit := N.min (default 10 (fd_timeline_limit def)) 100;
             sf_lazy := fd_lazy_load def; sf_include_leave := fd_include_leave def;
             sf_unread_threads := fd_unread_threads def;
             sf_timeline_types := fd_timeline_types def;
             sf_timeline_not_types := fd_timeline_not_types def;
             sf_state_types := fd_state_types def; sf_state_not_types := fd_state_not_types def |}
      end).

Record SyncRooms : Type := {
  sr_joined : gset string;
  sr_join : list (string * JoinedRoom); sr_invite : list (string * list (jvalue jnum));
  sr_knock : list (string * list (jvalue jnum)); sr_leave : list (string * LeftRoom) }.

Definition no_rooms : SyncRooms := {|
  sr_joined := ∅; sr_join := []; sr_invite := []; sr_knock := []; sr_leave := [] |}.

(** A joined room that has nothing to say. *)
Definition unchanged (room : JoinedRoom) : bool :=
  bool_decide (length (jr_timeline room) = 0%nat) && bool_decide (length (jr_state room) = 0%nat)
  && bool_decide (length (jr_ephemeral room) = 0%nat)
  && bool_decide (length (jr_account_data room) = 0%nat).

(** [m.ignored_user_list] *)
Definition ignored_users (user_id : string) : result ApiError (list string) :=
  let? o := internal (account_data users user_id EmptyString "m.ignored_user_list") in
  let list := entry ← o; v ← from_slice (ad_json entry); vget "ignored_users" v in
  Ok (match list with Some (VObj m) => fst <$> m | _ => [] end).

Section Build.
Context (clock : N) (user_id device_id : string) (since_token : option SyncPos) (now : SyncPos).
Context (filter : SyncFilter) (full_state : bool).

Definition initial_sync : bool := negb (is_some since_token).
Definition since : SyncPos := default sync_start since_token.

(** One membership: which part of the response it is in, if any. *)
Definition room_step (ignored : list string) (acc : SyncRooms * TypingMap)
    (row : string * MembershipEntry) : outcome SyncRooms * TypingMap :=
  let '(out, typing) := acc in
  let '(room_id, m) := row in
  let news := initial_sync || (sp_user since <? me_seq m) in
  if negb (room_id_ok room_id) then (Some (Ok out), typing)
  else if bool_decide (me_membership m = "join"%string) then
    let room_since := if news then sync_start else since in
    let '(r, typing) := build_joined_room clock user_id device_id room_id room_since now filter
                          full_state news typing in
    (let! joined := r in
     Some (Ok {| sr_joined := sr_joined out ∪ {[room_id]};
                 sr_join := if negb news && unchanged joined then sr_join out
                            else sr_join out ++ [(room_id, joined)];
                 sr_invite := sr_invite out; sr_knock := sr_knock out; sr_leave := sr_leave out |}),
     typing)
  else if bool_decide (me_membership m = "invite"%string) && news then
    (if bool_decide (me_sender m ∈ ignored) then Some (Ok out)
     else
       let! invited := Some (build_invited_room user_id room_id m) in
       Some (Ok {| sr_joined := sr_joined out; sr_join := sr_join out;
                   sr_invite := sr_invite out ++ [(room_id, invited)];
                   sr_knock := sr_knock out; sr_leave := sr_leave out |}), typing)
  else if bool_decide (me_membership m = "knock"%string) && news then
    (let! knocked := Some (build_knocked_room user_id room_id) in
     Some (Ok {| sr_joined := sr_joined out; sr_join := sr_join out; sr_invite := sr_invite out;
                 sr_knock := sr_knock out ++ [(room_id, knocked)]; sr_leave := sr_leave out |}), typing)
  else if bool_decide (me_membership m ∈ ["leave"; "ban"]%string)
          && ((negb initial_sync && (sp_user since <? me_seq m))
              || (negb (me_forgotten m) && (initial_sync || full_state)
                  && (sf_include_leave filter || bool_decide (me_membership m = "ban"%string)
                      || bool_decide (me_sender m ≠ user_id)))) then
    (let! gone := build_left_room user_id device_id room_id m since now filter
                    (initial_sync || full_state) in
     Some (Ok {| sr_joined := sr_joined out; sr_join := sr_join out; sr_invite := sr_invite out;
                 sr_knock := sr_knock out; sr_leave := sr_leave out ++ [(room_id, gone)] |}), typing)
  else (Some (Ok out), typing).

Fixpoint room_steps (ignored : list string) (out : SyncRooms) (typing : TypingMap)
    (rows : list (string * MembershipEntry)) : outcome SyncRooms * TypingMap :=
  match rows with
  | [] => (Some (Ok out), typing)
  | row :: rows =>
      match room_step ignored (out, typing) row with
      | (Some (Ok out), typing) => room_steps ignored out typing rows
      | failed => failed
      end
  end.

(** The rules of a user who never changed them ride the initial sync. *)
Definition default_push_rules : result ApiError (list (jvalue jnum)) :=
  if initial_sync then
    let? o := internal (account_data users user_id EmptyString "m.push_rules") in
    Ok (match o with
        | Some _ => []
        | None => [vobj [("type"%string, VStr "m.push_rules");
                         ("content"%string, VObj [("global"%string, ruleset_value (server_default user_id))])]]
        end)
  else Ok [].

(** Oldest first; rows past [now] wait for the next window. *)
Fixpoint to_device_loop (rows : list (N * bytes)) (out : list (jvalue jnum)) :
    result ApiError (list (jvalue jnum)) :=
  match rows with
  | [] => Ok out
  | (seq, json) :: rows =>
      if sp_user now <? seq then Ok out
      else let? ev := ok_or (from_slice json) Internal in to_device_loop rows (out ++ [ev])
  end.

Definition to_device : result ApiError (list (jvalue jnum)) :=
  let? rows := internal (to_device_events users user_id device_id
                           (if initial_sync then 0 else sp_user since)) in
  to_device_loop rows [].

Definition presence_event (sender : string) (entry : PresenceEntry) : jvalue jnum :=
  vobj [("type"%string, VStr "m.presence"); ("sender"%string, VStr sender);
        ("content"%string, vobj
           ([("presence"%string, VStr (pe_presence entry));
             ("last_active_ago"%string, VNum (num_of_int (Z.of_N (clock - pe_last_active entry))));
             ("currently_active"%string, VBool (bool_decide (pe_presence entry = "online"%string)))]
            ++ match pe_status_msg entry with
               | Some msg => [("status_msg"%string, VStr msg)]
               | None => []
               end))].

(** Users in the caller's rooms whose presence changed, then users that have
    just come into view. *)
Definition presence_events (joined newly_visible : gset string) (presence : PresenceMap) :
    result ApiError (list (jvalue jnum)) :=
  let? (events, seen) :=
    try_fold (λ '(events, seen) '(user, entry),
      let? visible := if bool_decide (user = user_id) then Ok true else shares_room joined user in
      Ok (if visible then (events ++ [presence_event user entry], seen ∪ {[user]})
          else (events, seen)))
      ([], ∅ : gset string) (changed_since (if initial_sync then 0 else sp_presence since) presence) in
  Ok (foldl (λ events user,
    if bool_decide (user = user_id) || bool_decide (user ∈ seen) then events
    else match presence_get user presence with
         | Some entry => events ++ [presence_event user entry]
         | None => events
         end) events (btree newly_visible)).

Record SyncResponse : Type := {
  ss_next_batch : string; ss_rooms : SyncRooms; ss_account_data : list (jvalue jnum);
  ss_to_device : list (jvalue jnum); ss_changed : list string; ss_left : list string;
  ss_key_counts : gmap string N; ss_fallback : list string; ss_presence : list (jvalue jnum) }.

Definition build_sync (presence : PresenceMap) (typing : TypingMap) : outcome SyncResponse * TypingMap :=
  match (let? ignored := ignored_users user_id in
         let? rows := internal (memberships users user_id) in Ok (ignored, rows)) with
  | Err e => (Some (Err e), typing)
  | Ok (ignored, rows) =>
      let '(r, typing) := room_steps ignored no_rooms typing rows in
      (let! out := r in
       let! data := Some (account_data_events user_id EmptyString initial_sync (sp_user since)) in
       let! rules := Some default_push_rules in
       let! inbox := Some to_device in
       let! (changed, gone) := Some (if initial_sync then Ok (∅, ∅)
           else device_list_deltas user_id (sr_joined out) (sp_user since) (sp_user now)) in
       let! counts := Some (internal (one_time_key_counts users user_id device_id)) in
       let! fallback := Some (internal (unused_fallback_algorithms users user_id device_id)) in
       let! present := Some (presence_events (sr_joined out) changed presence) in
       Some (Ok {| ss_next_batch := format_token now; ss_rooms := out; ss_account_data := data ++ rules;
                   ss_to_device := inbox;
                   ss_changed := List.filter user_id_ok (btree changed);
                   ss_left := List.filter user_id_ok (btree gone);
                   ss_key_counts := counts; ss_fallback := fallback; ss_presence := present |}), typing)
  end.
End Build.
End Rooms.
End Response.

(** ** Windows of a sync *)

Section Windows.
Context `{RC : RoomCodecs, JT : JsonText, SJ : SerdeJson, RU : Ruma, EC : EventCrypto}.
Context `{CJ : !ClientJson, UC : UserCodecs, UL : Utf8Lossy, B3 : Blake3}.
Context (rooms : RoomShards) (room : string) (T : list (N * string)).
Hypothesis Hroom : nul_free room = true.
Hypothesis Htable : numbered_table (r_shard (for_room rooms room)) (r_engine (for_room rooms room)) T_ROOM_SEQ.
Hypothesis Hrows : table_rows (for_room rooms room) room T_ROOM_SEQ T.

Abbreviation fresh since now := (filter (λ r, inside since (Some now) r = true) T).

(** The newest rows, and whether they are all. *)
Lemma newest_window_spec since now limit :
  since + 1 < u64_modulus → now < u64_modulus →
  ∃ missed window, fresh since now = missed ++ window ∧
    newest_window rooms room since now limit = Ok (window, negb (bool_decide (missed = []))).
Proof using All.
  intros Hs Hn. unfold newest_window, room_timeline.
  rewrite (sub_window (for_room rooms room) room Hroom T_ROOM_SEQ T) by (done || by intros ? [= <-]).
  cbn [internal]. cbv beta zeta iota. set (W := fresh since now).
  exists (take (length W - N.to_nat limit) W), (drop (length W - N.to_nat limit) W).
  split; [by rewrite take_drop|]. f_equal. f_equal.
  - rewrite take_take, Nat.min_l by lia.
    rewrite <- (take_drop (length W - N.to_nat limit) W) at 1. rewrite rev_app_distr.
    destruct (Nat.le_gt_cases (length W) (N.to_nat limit)).
    + replace (length W - N.to_nat limit)%nat with 0%nat by lia.
      rewrite take_0, drop_0, app_nil_r, take_ge by (rewrite length_rev; lia). apply rev_involutive.
    + rewrite take_app_le, take_ge by (rewrite length_rev, length_drop; lia). apply rev_involutive.
  - rewrite length_take, length_rev. case_bool_decide as Hnil.
    + apply (f_equal length) in Hnil. rewrite length_take in Hnil. apply N.ltb_ge. cbn in Hnil. lia.
    + apply N.ltb_lt. destruct (Nat.le_gt_cases (length W) (N.to_nat limit)); [|lia].
      exfalso. apply Hnil. by replace (length W - N.to_nat limit)%nat with 0%nat by lia.
Qed.

(** What a gap hides is at the front of the window. *)
Lemma sorted_split g (l : list (N * string)) :
  StronglySorted num_below l →
  l = filter (λ r, r.1 < g) l ++ List.filter (λ r, g <=? r.1) l.
Proof using Type.
  induction 1 as [|x l Hl IH Hx]; [done|]. rewrite filter_cons. cbn [List.filter].
  case_decide as Hg.
  - replace (g <=? x.1) with false by (symmetry; apply N.leb_gt; lia). exact (f_equal (cons x) IH).
  - replace (g <=? x.1) with true by (symmetry; apply N.leb_le; lia).
    assert (∀ y, y ∈ l → ¬ y.1 < g) as Hall.
    { intros y Hy. rewrite list.Forall_forall in Hx. specialize (Hx y Hy). unfold num_below in Hx. lia. }
    assert (filter (λ r : N * string, r.1 < g) l = []) as Hnil.
    { destruct (filter (λ r : N * string, r.1 < g) l) as [|y k] eqn:Hk; [done|]. exfalso.
      assert (y ∈ filter (λ r : N * string, r.1 < g) l) as [Hy Hin]%list_elem_of_filter by (rewrite Hk; by left).
      by apply (Hall y). }
    rewrite Hnil in IH |- *. exact (f_equal (cons x) IH).
Qed.

(** A joined room's window is a suffix of what is new, and all of it unless
    the response says so. *)
Lemma joined_window_spec gaps since now limit initial :
  since + 1 < u64_modulus → now < u64_modulus →
  ∃ missed window limited, fresh since now = missed ++ window ∧
    joined_window rooms room gaps since now limit initial = Ok (window, limited) ∧
    (limited = false → missed = []).
Proof using All.
  intros Hs Hn. destruct (newest_window_spec since now limit Hs Hn) as (missed & window & HW & Hw).
  unfold joined_window. rewrite Hw. destruct initial.
  { exists missed, window, (negb (bool_decide (missed = []))). split_and!; [done..|].
    by case_bool_decide. }
  unfold cut_at_gap. destruct (list_max_opt _) as [gap|]; cbn [fst].
  2:{ exists missed, window, (negb (bool_decide (missed = []))). split_and!; [done..|].
      by case_bool_decide. }
  assert (StronglySorted num_below window) as Hsorted.
  { assert (StronglySorted num_below (missed ++ window)) as Hall
      by (rewrite <- HW; apply sorted_filter, Hrows).
    clear -Hall. induction missed as [|x l IH]; [done|]. apply IH.
    by apply StronglySorted_inv in Hall as [? _]. }
  exists (missed ++ filter (λ r, r.1 < gap) window), (List.filter (λ r, gap <=? r.1) window), true.
  split_and!; [|done..]. rewrite HW, <- app_assoc. f_equal. by apply sorted_split.
Qed.

(** The rows between a window and the position before it. *)
Lemma fresh_before since now missed first window :
  fresh since now = missed ++ first :: window →
  filter (λ r, inside since (Some (N.min (first.1 - 1) u64_max)) r = true) T = missed.
Proof using Hrows.
  intros HW. assert (StronglySorted num_below (missed ++ first :: window)) as Hsorted
    by (rewrite <- HW; apply sorted_filter, Hrows).
  destruct (sorted_cut _ _ _ Hsorted) as [Hb Ha].
  apply sorted_same; [apply sorted_filter, Hrows| |].
  - clear -Hsorted. induction missed as [|x l IH]; [constructor|].
    apply StronglySorted_inv in Hsorted as [H1 H2]. apply list.Forall_app in H2 as [H2 _].
    constructor; [by apply IH|done].
  - assert (∀ r, inside since (Some now) r = true ∧ r ∈ T ↔ r ∈ missed ++ first :: window) as Hin
      by (intros r; by rewrite <- HW, list_elem_of_filter).
    assert (∀ r, r ∈ T → r.1 < u64_modulus) as HT by (intros [n id] Hr; by apply Hrows in Hr as [[_ ?] _]).
    unfold inside in *. intros r. rewrite list_elem_of_filter, andb_true_iff, N.ltb_lt, N.leb_le.
    specialize (Hin r) as Hr. rewrite elem_of_app, elem_of_cons, andb_true_iff, N.ltb_lt, N.leb_le in Hr.
    destruct (proj2 (Hin first)) as [Hf HfT]; [apply elem_of_app; right; by left|].
    rewrite andb_true_iff, N.ltb_lt, N.leb_le in Hf. specialize (HT first HfT).
    unfold u64_max, u64_modulus in *. split.
    + intros [[? ?] ?]. destruct (proj1 Hr) as [?|[->|Hw]]; [split; [lia|done]|done|lia|].
      specialize (Ha r Hw). lia.
    + intros Hm. specialize (Hb r Hm). destruct (proj2 Hr (or_introl Hm)) as [[? ?] ?]. split; [lia|done].
Qed.
End Windows.

(** ** State and counts *)

Section Facts.
Context `{RC : RoomCodecs, JT : JsonText, SJ : SerdeJson, RU : Ruma, EC : EventCrypto}.
Context `{CJ : !ClientJson, UC : UserCodecs, UL : Utf8Lossy, B3 : Blake3}.
Context `{RS : RumaSync, RP : !RumaPush}.

(** What a state delta lists. *)
Lemma elem_of_state_delta (filter : SyncFilter) (lazy : option (list string)) (start base : StateIds) (id : string) :
  id ∈ state_delta filter lazy start base ↔
    ∃ key, start !! key = Some id ∧ base !! key ≠ Some id ∧
      type_matches (sf_state_types filter) (sf_state_not_types filter) key.1 = true ∧
      (key.1 = "m.room.member"%string → ∀ senders, lazy = Some senders → key.2 ∈ senders).
Proof using Type.
  unfold state_delta. rewrite list_elem_of_omap. split.
  - intros (key & _ & H). exists key. destruct (start !! key) as [id'|]; [|done]. cbn [mbind option_bind] in H.
    case_bool_decide as Hb; [done|]. destruct (type_matches _ _ _) eqn:Ht; [|done]. cbn [negb] in H.
    destruct (bool_decide _ && _) eqn:Hl; [done|]. injection H as ->. split_and!; try done.
    intros Hk senders ->. rewrite bool_decide_true in Hl by done. cbn in Hl.
    apply negb_false_iff in Hl. by apply bool_decide_eq_true in Hl.
  - intros (key & Hs & Hb & Ht & Hl). exists key. split.
    { unfold sorted_keys. rewrite merge_sort_Permutation, elem_of_elements, elem_of_dom. by eexists. }
    rewrite Hs. cbn [mbind option_bind]. rewrite bool_decide_false, Ht by done. cbn [negb].
    destruct lazy as [senders|]; cbn; [|by rewrite andb_false_r].
    destruct (decide (key.1 = "m.room.member"%string)) as [Hk|]; [|by rewrite bool_decide_false].
    by rewrite (bool_decide_true (key.2 ∈ senders)), andb_false_r by (by apply Hl).
Qed.

(** An incremental sync with lazy members withholds the member event of a
    sender that was a member already when the client last synced, although
    the client was never given it. *)
Lemma lazy_member_withheld (filter : SyncFilter) (senders : list string) (start base : StateIds) (user id : string) :
  start !! member_key user = Some id → base !! member_key user = Some id →
  (∀ key, start !! key = Some id → key = member_key user) →
  id ∉ state_delta filter (Some senders) start base.
Proof using Type.
  intros Hs Hb Hkey (key & Hk & Hn & _)%elem_of_state_delta. by rewrite (Hkey _ Hk) in Hn.
Qed.

(** Counts over the threads. *)
Definition thread_sum (f : Counts → N) (m : gmap string Counts) : N :=
  map_fold (λ _ c n, f c + n) 0 m.

Lemma thread_sum_count f h m thread :
  f (count h (default no_counts (m !! thread))) = f (default no_counts (m !! thread)) + f (count h no_counts) →
  f no_counts = 0 →
  thread_sum f (<[thread := count h (default no_counts (m !! thread))]> m) = thread_sum f m + f (count h no_counts).
Proof using Type.
  intros Hf H0. unfold thread_sum.
  rewrite <- insert_delete_eq, map_fold_insert_L by (clear Hf; intros; lia || by rewrite lookup_delete_eq).
  rewrite Hf. destruct (m !! thread) as [c|] eqn:Hc; cbn.
  - rewrite (map_fold_delete_L _ _ thread c m) by (intros; lia || done). lia.
  - rewrite delete_id by done. lia.
Qed.

Definition counts_split (out : RoomUnread) : Prop :=
  ct_notify (un_all out) = ct_notify (un_main out) + thread_sum ct_notify (un_threads out) ∧
  ct_highlight (un_all out) = ct_highlight (un_main out) + thread_sum ct_highlight (un_threads out).

(** What push_eval.rs says of its counts: the unthreaded view is the main
    timeline and the threads together. *)
Lemma unread_split rooms users user room upto out :
  room_unread rooms users user room upto = Ok out → counts_split out.
Proof using Type.
  unfold room_unread. destruct (internal (receipts _ _)) as [rs|]; [|done].
  destruct (foldl _ _ _) as [unthreaded pos]. destruct (rule_inputs _ _ _ _) as [inputs|]; [|done].
  destruct (room_meta _ _) as [m|]; [|done]. destruct (room_version m) as [v|]; [|done].
  destruct (internal (room_timeline _ _ _ _ _ _)) as [rows|]; [|done].
  assert (counts_split {| un_all := no_counts; un_main := no_counts; un_threads := ∅ |}) as Hinit by done.
  revert Hinit. generalize ({| un_all := no_counts; un_main := no_counts; un_threads := ∅ |}) as acc.
  induction rows as [|row rows IH]; intros acc Hacc H; [by injection H as <-|].
  cbn [try_fold] in H. destruct (unread_step _ _ _ _ _ _ _ _) as [acc'|] eqn:Hstep; [|done].
  apply (IH acc'); [|done]. clear IH H. unfold unread_step in Hstep.
  destruct (client_event _ _ _ _ _) as [[ev|]|]; [|by injection Hstep as <-|done].
  injection Hstep as <-. repeat case_match; try done; unfold counts_split in *; cbn [un_all un_main un_threads].
  all: destruct Hacc as [Hn Hh]; generalize (existsb is_highlight (get_actions inputs.1 (VObj ev) inputs.2)); intros hl.
  - destruct hl; split; unfold count; cbn [ct_notify ct_highlight]; lia.
  - rewrite !thread_sum_count by (done || (destruct hl; unfold count; cbn [ct_notify ct_highlight no_counts]; lia)).
    destruct hl; split; unfold count; cbn [ct_notify ct_highlight no_counts]; lia.
Qed.
End Facts.

(** ** A limited sync and the gap it leaves *)

Section Gap.
Context `{RC : RoomCodecs, JT : JsonText, SJ : SerdeJson, RU : Ruma, EC : EventCrypto}.
Context `{CJ : !ClientJson, UC : UserCodecs, UL : Utf8Lossy, B3 : Blake3}.
Context `{RS : RumaSync, RP : !RumaPush}.

Abbreviation client_json := (list (string * jvalue jnum)) (only parsing).

Section Events.
Context (rooms : RoomShards) (room user device : string) (v : RoomVersion).
Context (filter : SyncFilter) (shown : string → option client_json).

(** The event of a row, when it is shown and passes the type filter. *)
Definition listed (r : N * string) : option string :=
  match shown r.2 with
  | Some ev => if type_matches (sf_timeline_types filter) (sf_timeline_not_types filter)
                    (default EmptyString (vstr_at "type" (VObj ev))) then Some r.2 else None
  | None => None
  end.

Lemma stamp_echo_get ev ev' k :
  stamp_echo rooms room ev user device = Some (Ok ev') → k ≠ "unsigned"%string →
  obj_get k ev' = obj_get k ev.
Proof using Type.
  unfold stamp_echo. intros H Hk. case_bool_decide; [by injection H as <-|].
  destruct (vstr_at _ _) as [id|]; [|by injection H as <-].
  destruct (txn_echo _ _) as [[[[u d] txn]|]|]; [|by injection H as <-|done].
  case_bool_decide; [|by injection H as <-].
  unfold stamp_unsigned in H. destruct (default VNull _); try done; cbn in H;
    injection H as <-; rewrite obj_get_insert, bool_decide_false; congruence.
Qed.

Lemma timeline_events_spec window events senders events' senders' :
  (∀ r, r ∈ window → client_event rooms v room r.2 user = Ok (shown r.2)) →
  served_fold (timeline_step rooms v room user device filter) (events, senders) window
    = Some (Ok (events', senders')) →
  id_of <$> events' = (id_of <$> events) ++ (Some <$> omap listed window).
Proof using Type.
  revert events senders. induction window as [|r window IH]; intros events senders Hshown H.
  - injection H as <- _. by rewrite app_nil_r.
  - cbn [served_fold] in H. unfold timeline_step at 1 in H.
    assert (client_event rooms v room r.2 user = Ok (shown r.2)) as Hr by (apply Hshown; by left).
    rewrite Hr in H. cbn [omap list_omap]. unfold listed at 1.
    assert (∀ r, r ∈ window → client_event rooms v room r.2 user = Ok (shown r.2)) as Hshown'
      by (intros; apply Hshown; by right).
    destruct (shown r.2) as [ev|]; [|by apply (IH _ _ Hshown') in H].
    destruct (type_matches _ _ _); cbn [negb] in H; [|by apply (IH _ _ Hshown') in H].
    destruct (stamp_echo _ _ ev _ _) as [[ev'|]|] eqn:Hstamp; [|done..].
    apply (IH _ _ Hshown') in H. rewrite H, fmap_app, <- app_assoc. cbn [fmap list_fmap app].
    apply client_event_id in Hr. unfold id_of in Hr |- *. unfold vstr_at in *.
    cbn [vget as_object mbind option_bind] in *. rewrite (stamp_echo_get _ _ _ Hstamp) by done.
    by rewrite Hr.
Qed.
End Events.

(** The timeline of the response is that of its history stage. *)
Lemma joined_room_history rooms users clock user device room since now filter full initial typing out typing' m :
  internal (meta (for_room rooms room) room) = Ok (E := ApiError) (Some m) →
  build_joined_room rooms users clock user device room since now filter full initial typing
    = (Some (Ok out), typing') →
  ∃ h, joined_history rooms room user device m since now filter full initial = Some (Ok h) ∧
    jr_limited out = jr_limited h ∧ jr_prev_batch out = jr_prev_batch h ∧ jr_timeline out = jr_timeline h.
Proof.
  intros Hm. unfold build_joined_room. rewrite Hm.
  destruct (joined_history _ _ _ _ _ _ _ _ _ _) as [[h|]|]; [|done..]. exists h. split; [done|].
  destruct (receipt_events _ _ _ _ _ _) as [rs|]; [|done].
  destruct (typing_in _ _ _) as [t typing1].
  destruct (account_data_events _ _ _ _ _) as [data|]; [|done].
  destruct (member_counts _ _) as [[j i]|]; [|done].
  destruct (room_unread _ _ _ _ _) as [unread|]; [|done].
  by injection H as <- _.
Qed.
End Gap.

(** ** What the gap theorem asks for *)

Arguments rs_version {_ _ _ _} _. Arguments rs_cap {_ _ _ _} _.
Arguments rs_timeline {_ _ _ _} _. Arguments rs_shown {_ _ _ _} _.

Section Limited.
Context `{RC : RoomCodecs, JT : JsonText, SJ : SerdeJson, RU : Ruma, EC : EventCrypto}.
Context `{CJ : !ClientJson, UC : UserCodecs, UL : Utf8Lossy, B3 : Blake3}.
Context `{RS : RumaSync, RP : !RumaPush}.
Context `{HR : Raft}.
Context `{!Codec (option LogId), !Codec StoredMembership, !Codec N}.
Context `{!Codec RuntimeCommand, !Codec RuntimeResponse}.
Context (next_id : engine → LogId) (our_name : string) (users : UserStore) (fed : option Federation).
Context (rooms : RoomShards) (room user : string) (s : RoomSeen rooms room user).
Hypothesis Hs : sees users rooms room user s.

Abbreviation idx := (index_of rooms room).

Lemma omap_fmap_rows {A} (f : string → option A) (l : list (N * string)) :
  omap (λ r, f r.2) ((λ r, (RTimeline r.1, r.2)) <$> l) = omap (λ r, f r.2) l.
Proof using Type. induction l as [|[n id] l IH]; [done|]. cbn. destruct (f id); by rewrite IH. Qed.

(** The page of [/messages] between a [prev_batch] and a sync token. *)
Lemma gap_page (since now : N) missed first window l :
  rs_cap s = None → 0 < since → since < now → now < u64_max →
  filter (λ r, inside since (Some now) r = true) (rs_timeline s) = missed ++ first :: window →
  rows_backward next_id our_name fed room
    (Some (PTimeline {| pb_seq := first.1; pb_at_event := true; pb_stream := Some now |}))
    (Some (PTimeline {| pb_seq := since; pb_at_event := false; pb_stream := Some since |}))
    l (default u64_max (rs_cap s)) rooms
  = (Ok ((λ r, (RTimeline r.1, r.2)) <$> take (N.to_nat l) (rev missed), false), rooms).
Proof using Hs.
  intros Hcap Hpos Hlt Hnow HW. unfold rows_backward, timeline_backward. rewrite Hcap.
  cbn [default from_option upper lower pb_at_event pb_seq]. unfold saturating_sub64.
  assert (since + 1 < u64_modulus) by (unfold u64_max, u64_modulus in *; lia).
  unfold room_timeline. rewrite (sub_window (for_room rooms room) room (see_room _ _ _ _ s Hs) T_ROOM_SEQ
    (rs_timeline s)); try done.
  - cbn [internal]. cbv beta zeta iota. rewrite (fresh_before rooms room (rs_timeline s) (see_timeline _ _ _ _ s Hs) since now missed first window HW).
    replace (since =? 0) with false by (symmetry; apply N.eqb_neq; lia). done.
  - apply (see_tables _ _ _ _ s Hs). by left.
  - apply (see_timeline _ _ _ _ s Hs).
  - intros u [= <-]. unfold u64_max, u64_modulus in *. lia.
Qed.

(** C33 (refinement): what a sync leaves out between two positions is named by it.
    In a room that the caller may look into, whose rows are well formed and
    render without an error ([sees]), let a joined client sync again from an
    earlier position of the room's shard.  The timeline it is given is the
    newest part of the rows the room got since that position, each row
    once and in order, less the events the client may not see or filtered out.
    Unless the response is marked [limited] nothing is missing.  A response
    with a window of rows carries a [prev_batch], and when rows are missing,
    because of the limit or of a gap in the room's own history, that token,
    handed to [/messages] together with the token the client synced from, gives
    exactly the events in between, newest first and up to the limit of the
    page, whether or not the room's history is complete.  A response with an empty window (under a
    limit of zero) carries none: then only [limited] tells of the missing
    rows. *)
Theorem limited_sync_gap clock device since now filter full out typing typing' :
  rs_cap s = None → pos_fits since → sp_room since ≠ [] →
  0 < room_at since idx → room_at since idx < room_at now idx → room_at now idx < u64_max →
  build_joined_room rooms users clock user device room since now filter full false typing
    = (Some (Ok out), typing') →
  ∃ missed window,
    base.filter (λ r, inside (room_at since idx) (Some (room_at now idx)) r = true) (rs_timeline s)
      = missed ++ window ∧
    id_of <$> jr_timeline out = Some <$> omap (listed filter (rs_shown s)) window ∧
    (jr_limited out = false → missed = []) ∧
    (is_Some (jr_prev_batch out) ↔ window ≠ []) ∧
    ∀ token limit l, jr_prev_batch out = Some token → parse_limit limit = Ok l →
      ∃ m, get_messages next_id our_name users fed room user
             (walk_query limit (Some token) (Some (format_token since))) rooms = (Ok m, rooms) ∧
        ms_chunk m = omap (λ r, rs_shown s r.2) (take (N.to_nat l) (rev missed)).
Proof using Hs UL.
  intros Hcap Hfits Hne Hpos Hlt Hnow Hbuild.
  pose proof (see_version _ _ _ _ s Hs) as Hv. unfold version_of, room_meta in Hv.
  destruct (internal (meta _ _)) as [[m|]|] eqn:Hm; cbn [ok_or] in Hv; [|done..].
  destruct (joined_room_history _ _ _ _ _ _ _ _ _ _ _ _ _ _ m Hm Hbuild) as (h & Hh & -> & -> & ->).
  clear Hbuild. unfold joined_history in Hh. rewrite Hv in Hh.
  destruct (joined_window_spec rooms room (rs_timeline s) (see_room _ _ _ _ s Hs)
    (see_tables _ _ _ _ s Hs _ (or_introl eq_refl)) (see_timeline _ _ _ _ s Hs) (rm_gap_markers m)
    (room_at since idx) (room_at now idx) (sf_limit filter) false)
    as (missed & window & limited & HW & Hw & Hl); [unfold u64_max, u64_modulus in *; lia..|].
  rewrite Hw in Hh.
  destruct (timeline_events _ _ _ _ _ _ _) as [[[events senders]|]|] eqn:Hev; [|done..].
  destruct (start_state _ _ _ _) as [start|]; [|done].
  destruct (if _ || _ then _ else _) as [base|]; [|done].
  destruct (client_events _ _ _ _ _) as [state|]; [|done]. injection Hh as <-.
  cbn [jr_limited jr_prev_batch jr_timeline].
  assert (∀ r, r ∈ missed ++ window → client_event rooms (rs_version s) room r.2 user = Ok (rs_shown s r.2))
    as Hshown.
  { intros r Hr. rewrite <- HW, list_elem_of_filter in Hr. apply (see_events _ _ _ _ s Hs), elem_of_app.
    left. apply Hr. }
  exists missed, window. split_and!; [done| |done| |].
  - apply (timeline_events_spec rooms room user device (rs_version s) filter (rs_shown s)) in Hev; [done|].
    intros r Hr. apply Hshown, elem_of_app. by right.
  - destruct window; cbn; [by split; [intros [? ?]|]|by split; [|intros _; eexists]].
  - intros token limit l Htok Hlim. destruct window as [|first window]; [done|]. injection Htok as <-.
    assert (first ∈ missed ++ first :: window) as Hfirst by (apply elem_of_app; right; by left).
    rewrite <- HW, list_elem_of_filter in Hfirst. destruct Hfirst as [_ Hfirst]. destruct first as [n id].
    apply (see_timeline _ _ _ _ s Hs) in Hfirst as [[_ Hn] _].
    eexists. split.
    + eapply (get_page next_id our_name users fed rooms room user s Hs limit l) with
        (rest := (λ r, (RTimeline r.1, r.2)) <$> rev missed); [done| | | |].
      * intros r (x & -> & Hx)%list_elem_of_fmap. apply Hshown, elem_of_app. left.
        by rewrite list_elem_of_In, <- in_rev, <- list_elem_of_In in Hx.
      * cbn [transpose]. rewrite page_of_prev_batch; [reflexivity| |]; unfold u64_max, u64_modulus in *;
          cbn [fst]; lia.
      * cbn [transpose]. by rewrite page_of_sync.
      * rewrite <- fmap_take. by apply (gap_page _ _ missed (n, id) window).
    + cbn [ms_chunk]. rewrite <- fmap_take. by rewrite omap_fmap_rows.
Qed.
End Limited.

(** ** Witness *)

From S2P Require Import RoomHeal Demo RoomDemo UserDemo AuthDemo PipelineDemo RoomServeDemo.

#[export] Instance demo_sync : RumaSync := {| room_id_ok := λ _, true; parse_filter := λ _, None |}.

(** Rules that notify of every event and highlight none. *)
#[export] Instance demo_push : RumaPush (H := pipe_serde) := {|
  Ruleset := unit; server_default := λ _, tt; ruleset_from := λ _, None; ruleset_value := λ _, VNull;
  override_ids := λ _, []; content_ids := λ _, []; insert_override := λ _ _ r, r;
  insert_content := λ _ _ _ r, r; get_actions := λ _ _ _, [Notify]; localpart := λ u, u;
  int_new := Some |}.

Definition pos_at (n : N) : SyncPos := {| sp_room := [n]; sp_user := 0; sp_typing := 0; sp_presence := 0 |}.

Definition no_typing : TypingMap := {| tm_inner := ∅; tm_gen := 0 |}.

Definition plain_filter (limit : N) : SyncFilter := {|
  sf_limit := limit; sf_lazy := false; sf_include_leave := false; sf_unread_threads := false;
  sf_timeline_types := None; sf_timeline_not_types := [];
  sf_state_types := None; sf_state_not_types := [] |}.

(** The room that was healed onto a snapshot: its timeline has a gap before
    position 5, and its history is not complete. *)
Definition gapped_engine : engine := match healed with Some (_, w) => hl_engine w | None => ∅ end.

(** Alice synced at position 2 and syncs at position 7. *)
Definition demo_joined (limit : N) (e : engine) : outcome JoinedRoom * TypingMap :=
  build_joined_room (one_shard e) no_users 0 alice "D" demo_room (pos_at 2) (pos_at 7) (plain_filter limit)
    false false no_typing.

Definition joined_ok (limit : N) (e : engine) (batch : option string) (ids : list string) : bool :=
  match (demo_joined limit e).1 with
  | Some (Ok out) =>
      jr_limited out && bool_decide (jr_prev_batch out = batch)
      && bool_decide (id_of <$> jr_timeline out = Some <$> ids)
  | _ => false
  end.

(** The limit would do; the gap cuts the window. *)
Lemma gapped_joined :
  joined_ok 10 gapped_engine (Some "t5_7"%string) ["$stray"; "$forged"; "$after"]%string = true.
Proof. vm_compute. reflexivity. Qed.

(** With a limit of zero there is no token. *)
Example unlisted_joined : joined_ok 0 gapped_engine None [] = true.
Proof. vm_compute. reflexivity. Qed.

Lemma gapped_walk : walk_ok gapped_engine = true.
Proof. vm_compute. reflexivity. Qed.

(** The two events in between, newest first. *)
Example gapped_page :
  match get_messages demo_next "a" no_users None demo_room alice
          (walk_query (Some "9"%string) (Some "t5_7"%string) (Some "s2_0_0_0"%string))
          (one_shard gapped_engine) with
  | (Ok m, _) => bool_decide (id_of <$> ms_chunk m = [Some "$bob"; Some "$jr"]%string)
  | _ => false
  end = true.
Proof. vm_compute. reflexivity. Qed.

Lemma limited_sync_gap_witness : ∃ T missed window m,
  table_rows (ctx gapped_engine) demo_room T_ROOM_SEQ T ∧
  filter (λ r, inside 2 (Some 7) r = true) T = missed ++ window ∧
  [Some "$stray"; Some "$forged"; Some "$after"]%string =
    Some <$> omap (listed (plain_filter 10) (shown_to gapped_engine)) window ∧
  get_messages demo_next "a" no_users None demo_room alice
    (walk_query (Some "9"%string) (Some "t5_7"%string) (Some (format_token (pos_at 2))))
    (one_shard gapped_engine) = (Ok m, one_shard gapped_engine) ∧
  ms_chunk m = omap (λ r, shown_to gapped_engine r.2) (take 9 (rev missed)).
Proof.
  generalize gapped_joined, gapped_walk. generalize gapped_engine as e. intros e Hj Hwalk.
  destruct (sees_sample e Hwalk) as (T & H & Hs). unfold joined_ok in Hj.
  destruct (demo_joined 10 e) as [[[out|]|] typing] eqn:Hbuild; [|discriminate Hj..]. cbn [fst] in Hj.
  rewrite !andb_true_iff, !bool_decide_eq_true in Hj. destruct Hj as [[_ Hprev] Hids].
  destruct (limited_sync_gap demo_next "a" no_users None (one_shard e) demo_room alice (seen_in e T H) Hs
    0 "D" (pos_at 2) (pos_at 7) (plain_filter 10) false out no_typing typing)
    as (missed & window & HW & Hlist & _ & _ & Hpage);
    [reflexivity|repeat constructor; discriminate|discriminate|reflexivity..|exact Hbuild|].
  destruct (Hpage "t5_7"%string (Some "9"%string) 9 Hprev eq_refl) as (m & Hm & Hchunk).
  exists T, missed, window, m. split_and!; [exact (see_timeline _ _ _ _ _ Hs)|exact HW| |exact Hm|exact Hchunk].
  change (Some <$> ["$stray"; "$forged"; "$after"]%string) with
    [Some "$stray"; Some "$forged"; Some "$after"]%string in Hids. rewrite <- Hids. exact Hlist.
Defined.
