(* ===== verification/FedIn.v ===== *)
(** * Inbound transactions (saltator-federation/src/transactions.rs)

    What [PUT /send] does with the PDUs and the EDUs of an authenticated
    origin: it composes the healing of [RoomHeal] on the shard of each room,
    the user server of [UserFront], receipts, and the maps of typing.rs and
    presence.rs; a repeated transaction gets the stored answer. *)

From Stdlib Require Import Ascii.
From S2P Require Import Prelude Bytes Store Codec Json Shard RoomTypes RoomMachine RoomRead.
From S2P Require Import CoreEvent PowerLevels Auth StateRes Pdu Pipeline RoomServe RoomJoin RoomHeal Delivery.
From S2P Require Import UserTypes UserMachine Projection UserRead UserFront ClientToken ClientRead ClientSync.
From stdpp Require Import options.
Set Warnings "-register-all".

Local Open Scope N_scope.

Definition MAX_PDUS : nat := 50.
Definition MAX_EDUS : nat := 100.

(** ** The replay cache (lib.rs, [TxnReplayCache]) *)

Definition CAP : nat := 1024.

Section Replay.
Context {V : Type}.

(** Answers by origin and transaction id, and the order they came in. *)
Record TxnReplayCache : Type := {
  tr_map : gmap (string * string) V; tr_order : list (string * string) }.

Definition replay_get (origin txn_id : string) (c : TxnReplayCache) : option V :=
  tr_map c !! (origin, txn_id).

Definition replay_put (origin txn_id : string) (response : V) (c : TxnReplayCache) : TxnReplayCache :=
  let key := (origin, txn_id) in
  let inserted := <[key := response]> (tr_map c) in
  match tr_map c !! key with
  | Some _ => {| tr_map := inserted; tr_order := tr_order c |}
  | None =>
      let order := tr_order c ++ [key] in
      match order with
      | old :: rest =>
          if (CAP <? length order)%nat then {| tr_map := delete old inserted; tr_order := rest |}
          else {| tr_map := inserted; tr_order := order |}
      | [] => {| tr_map := inserted; tr_order := order |}
      end
  end.

(** The queue lists each key of the map once, and no more than the cap. *)
Definition replay_ok (c : TxnReplayCache) : Prop :=
  NoDup (tr_order c) ∧ (∀ k, k ∈ tr_order c ↔ is_Some (tr_map c !! k)) ∧ (length (tr_order c) ≤ CAP)%nat.
(** It holds what it was given last. *)
Lemma replay_put_ok origin txn_id (v : V) c :
  replay_ok c → replay_ok (replay_put origin txn_id v c) ∧
    replay_get origin txn_id (replay_put origin txn_id v c) = Some v.
Proof.
  intros (Hd & Hin & Hlen). unfold replay_put, replay_get, replay_ok. set (key := (origin, txn_id)).
  destruct (tr_map c !! key) as [old|] eqn:Hkey; cbn [tr_map tr_order].
  - split; [|by rewrite lookup_insert_eq]. split_and!; [done| |done]. intros k. rewrite Hin.
    destruct (decide (k = key)) as [->|Hne]; [rewrite lookup_insert_eq, Hkey; split; by eexists|].
    by rewrite lookup_insert_ne.
  - assert (key ∉ tr_order c) as Hnew by (rewrite Hin, Hkey; by intros []).
    assert (NoDup (tr_order c ++ [key])) as Hd'.
    { apply list.NoDup_app. split_and!; [done| |apply NoDup_singleton]. intros k Hk ->%list_elem_of_singleton. done. }
    assert (∀ k, k ∈ tr_order c ++ [key] ↔ is_Some (<[key:=v]> (tr_map c) !! k)) as Hin'.
    { intros k. rewrite elem_of_app, Hin, list_elem_of_singleton. destruct (decide (k = key)) as [->|Hne].
      - rewrite lookup_insert_eq. split; [by eexists|by right].
      - rewrite lookup_insert_ne by done. split; [intros [?|?]; [done|congruence]|by left]. }
    assert (length (tr_order c ++ [key]) = S (length (tr_order c))) as Hl by (rewrite length_app; cbn; lia).
    destruct (tr_order c ++ [key]) as [|old rest] eqn:Ho; [by destruct (tr_order c)|].
    destruct (CAP <? length (old :: rest))%nat eqn:Hcap; cbn [tr_map tr_order].
    + apply Nat.ltb_lt in Hcap. apply list.NoDup_cons in Hd' as [Hold Hrest].
      assert (key ∈ old :: rest) as Hkr by (rewrite <- Ho, elem_of_app; right; by left).
      assert (key ∈ rest) as Hkrest.
      { apply elem_of_cons in Hkr as [->|?]; [|done]. exfalso.
        destruct (tr_order c) as [|x l]; [cbn in Hl, Hcap; unfold CAP in Hcap; lia|].
        injection Ho as -> _. apply Hnew. by left. }
      split; [|by rewrite lookup_delete_ne, lookup_insert_eq by (intros ->; done)].
      split_and!; [done| |cbn in Hl; lia]. intros k. destruct (decide (k = old)) as [->|Hne].
      * rewrite lookup_delete_eq. split; [done|by intros []].
      * rewrite lookup_delete_ne, <- Hin', elem_of_cons by done. split; [by right|by intros [?|?]].
    + apply Nat.ltb_ge in Hcap. split; [|by rewrite lookup_insert_eq]. by split_and!.
Qed.
End Replay.
Arguments TxnReplayCache : clear implicits.

(** [v.as_array()] and [v.as_bool()] *)
Definition as_array {num} (v : jvalue num) : option (list (jvalue num)) :=
  match v with VArr l => Some l | _ => None end.
Definition as_bool {num} (v : jvalue num) : option bool :=
  match v with VBool b => Some b | _ => None end.

(** What of the state is wired ([FedState]'s options). *)
Record FedConfig : Type := {
  fc_rooms : bool; fc_users : bool; fc_edu_sink : bool; fc_delivery_backoff : bool }.

Section FedIn.
Context `{RC : RoomCodecs, UC : UserCodecs, JT : JsonText, SJ : SerdeJson, RU : Ruma, EC : EventCrypto}.
Context `{UL : Utf8Lossy, B3 : Blake3}.
Context `{HR : Raft}.
Context `{!Codec (option LogId), !Codec StoredMembership, !Codec N}.
Context `{!Codec RuntimeCommand, !Codec RuntimeResponse}.
Context (next_id : engine → LogId) (fuel : nat) (raft : nat → raft_outcome) (fetcher : EventFetcher).
Context (usid : ShardId) (server_name : string) (config : FedConfig).
(** The text of an error. *)
Context (error_text : RoomError → string).

(** The shards of the rooms with the keys each trusts, the user shard, the
    maps in memory, and how many calls and proposals were made. *)
Record FedWorld : Type := {
  fw_rooms : RoomShards;
  fw_keys : N → PublicKeyMap;
  fw_users : engine;
  fw_typing : TypingMap;
  fw_presence : PresenceMap;
  fw_replay : TxnReplayCache (jvalue jnum);
  fw_backoff : gmap string (N * N);
  fw_calls : nat;
  fw_proposals : nat;
}.

Definition with_rooms (rooms : RoomShards) (n : nat) (w : FedWorld) : FedWorld := {|
  fw_rooms := rooms; fw_keys := fw_keys w; fw_users := fw_users w; fw_typing := fw_typing w;
  fw_presence := fw_presence w; fw_replay := fw_replay w; fw_backoff := fw_backoff w;
  fw_calls := fw_calls w; fw_proposals := n |}.
Definition with_keys (keys : N → PublicKeyMap) (n : nat) (w : FedWorld) : FedWorld := {|
  fw_rooms := fw_rooms w; fw_keys := keys; fw_users := fw_users w; fw_typing := fw_typing w;
  fw_presence := fw_presence w; fw_replay := fw_replay w; fw_backoff := fw_backoff w;
  fw_calls := n; fw_proposals := fw_proposals w |}.
Definition with_users (e : engine) (w : FedWorld) : FedWorld := {|
  fw_rooms := fw_rooms w; fw_keys := fw_keys w; fw_users := e; fw_typing := fw_typing w;
  fw_presence := fw_presence w; fw_replay := fw_replay w; fw_backoff := fw_backoff w;
  fw_calls := fw_calls w; fw_proposals := S (fw_proposals w) |}.
Definition with_typing (m : TypingMap) (w : FedWorld) : FedWorld := {|
  fw_rooms := fw_rooms w; fw_keys := fw_keys w; fw_users := fw_users w; fw_typing := m;
  fw_presence := fw_presence w; fw_replay := fw_replay w; fw_backoff := fw_backoff w;
  fw_calls := fw_calls w; fw_proposals := fw_proposals w |}.
Definition with_presence (m : PresenceMap) (w : FedWorld) : FedWorld := {|
  fw_rooms := fw_rooms w; fw_keys := fw_keys w; fw_users := fw_users w; fw_typing := fw_typing w;
  fw_presence := m; fw_replay := fw_replay w; fw_backoff := fw_backoff w;
  fw_calls := fw_calls w; fw_proposals := fw_proposals w |}.
Definition with_replay (c : TxnReplayCache (jvalue jnum)) (w : FedWorld) : FedWorld := {|
  fw_rooms := fw_rooms w; fw_keys := fw_keys w; fw_users := fw_users w; fw_typing := fw_typing w;
  fw_presence := fw_presence w; fw_replay := c; fw_backoff := fw_backoff w;
  fw_calls := fw_calls w; fw_proposals := fw_proposals w |}.
Definition with_backoff (b : gmap string (N * N)) (w : FedWorld) : FedWorld := {|
  fw_rooms := fw_rooms w; fw_keys := fw_keys w; fw_users := fw_users w; fw_typing := fw_typing w;
  fw_presence := fw_presence w; fw_replay := fw_replay w; fw_backoff := b;
  fw_calls := fw_calls w; fw_proposals := fw_proposals w |}.

(** [UserId::parse(user).map(|u| u.server_name() == server).unwrap_or(false)] *)
Definition lives_on (server user_id : string) : bool :=
  user_id_ok user_id && bool_decide (user_server user_id = server).

(** [v.get("content").and_then(|c| c.get(key))] *)
Definition content_at (key : string) (edu : jvalue jnum) : option (jvalue jnum) :=
  c ← vget "content" edu; vget key c.
Definition content_text (key : string) (edu : jvalue jnum) : option string :=
  v ← content_at key edu; vstr v.

(** ** EDUs

    Errors of what an EDU does are only logged. *)

(** A command of the user server. *)
Definition on_users {A} (f : raft_outcome → engine → result UserError A * engine) (w : FedWorld) : FedWorld :=
  with_users (f (raft (fw_proposals w)) (fw_users w)).2 w.

Definition apply_device_list_edu (origin : string) (edu : jvalue jnum) (w : FedWorld) : FedWorld :=
  match content_text "user_id" edu with
  | None => w
  | Some user_id =>
      if negb (lives_on origin user_id) then w
      else if default false (v ← content_at "org.saltator.replay" edu; as_bool v) then w
      else on_users (λ o, record_key_change usid next_id o user_id) w
  end.

(** A draw of which only the clock is read. *)
Definition at_clock (clock : N) : Draw := {|
  dr_clock := clock; dr_access := EmptyString; dr_refresh := EmptyString; dr_device := EmptyString;
  dr_salt := EmptyString |}.

(** The messages of an [m.direct_to_device] EDU for users of this server. *)
Definition to_device_batch (event_type sender : string)
    (messages : list (string * jvalue jnum)) : list ToDeviceMessage :=
  flat_map (λ '(user_id, per_device),
    match as_object per_device with
    | Some devices =>
        if lives_on server_name user_id then
          (λ '(device_id, message), {|
             td_user_id := user_id; td_device_id := device_id;
             td_json := to_vec (vobj [("type"%string, VStr event_type);
                                      ("sender"%string, VStr sender);
                                      ("content"%string, message)]) |}) <$> devices
        else []
    | None => []
    end) messages.

Definition apply_to_device_edu (clock : N) (origin : string) (edu : jvalue jnum) (w : FedWorld) : FedWorld :=
  match content_text "sender" edu, content_text "type" edu, (m ← content_at "messages" edu; as_object m) with
  | Some sender, Some event_type, Some messages =>
      if negb (lives_on origin sender) then w
      else
        let batch := to_device_batch event_type sender messages in
        match content_text "message_id" edu, batch with
        | Some mid, _ => on_users (λ o e,
            UserFront.send_to_device_deduped usid next_id o (at_clock clock) origin mid batch e) w
        | None, [] => w
        | None, _ => on_users (λ o, UserFront.send_to_device usid next_id o batch) w
        end
  | _, _, _ => w
  end.

(** [rooms.write_receipt(..)] on the shard of the room. *)
Definition run_receipt (cmd : ReceiptCmd) (w : FedWorld) : FedWorld :=
  let shard := for_room (fw_rooms w) (rc_room_id cmd) in
  let '(_, e) := write_receipt (r_shard shard) next_id (raft (fw_proposals w)) cmd (r_engine shard) in
  with_rooms (with_shard (fw_rooms w) (rc_room_id cmd) e) (S (fw_proposals w)) w.

Definition as_u64 (v : jvalue jnum) : option N := match v with VNum n => jnum_u64 n | _ => None end.

(** One user's receipts of a room. *)
Definition user_receipts (room_id user_id : string) (receipt : jvalue jnum) : list ReceiptCmd :=
  let data := vget "data" receipt in
  let ts := d ← data; v ← vget "ts" d; as_u64 v in
  let thread_id := d ← data; v ← vget "thread_id" d; vstr v in
  match e ← vget "event_ids" receipt; as_array e with
  | None => []
  | Some event_ids =>
      omap (λ ev : jvalue jnum, id ← vstr ev;
        if event_id_ok id then
          Some {| rc_room_id := room_id; rc_user_id := user_id; rc_receipt_type := "m.read";
                  rc_event_id := id; rc_thread_id := thread_id; rc_ts := default 0 ts |}
        else None) event_ids
  end.

(** The receipts of one room, of the origin's own users. *)
Definition room_receipts (origin room_id : string) (per_room : jvalue jnum) : list ReceiptCmd :=
  match r ← vget "m.read" per_room; as_object r with
  | None => []
  | Some reads =>
      flat_map (λ '(user_id, receipt),
        if lives_on origin user_id then user_receipts room_id user_id receipt else []) reads
  end.

(** [rooms.server_acl_denies(..)] *)
Definition acl_denies (room_id server : string) (w : FedWorld) : bool :=
  server_acl_denies (for_room (fw_rooms w) room_id) room_id server.

Definition apply_receipt_edu (origin : string) (edu : jvalue jnum) (w : FedWorld) : FedWorld :=
  match c ← vget "content" edu; as_object c with
  | None => w
  | Some content =>
      foldl (λ w '(room_id, per_room),
        if negb (Pdu.room_id_ok room_id) then w
        else if acl_denies room_id origin w then w
        else foldl (λ w cmd, run_receipt cmd w) w (room_receipts origin room_id per_room)) w content
  end.

(** [EphemeralEduSink]: typing expires after thirty seconds. *)
Definition sink_typing (clock : N) (room_id user_id : string) (typing : bool) (w : FedWorld) : FedWorld :=
  with_typing (typing_set clock room_id user_id typing 30000 (fw_typing w)) w.
Definition sink_presence (clock : N) (user_id presence : string) (status_msg : option string)
    (w : FedWorld) : FedWorld :=
  with_presence (presence_set clock user_id presence status_msg (fw_presence w)) w.

(** Typing and presence; other types are dropped. *)
Definition apply_edu (clock : N) (origin : string) (edu : jvalue jnum) (w : FedWorld) : FedWorld :=
  match vstr_at "edu_type" edu with
  | Some ty =>
      if bool_decide (ty = "m.typing"%string) then
        match content_text "room_id" edu, content_text "user_id" edu with
        | Some room_id, Some user_id =>
            if lives_on origin user_id
            then sink_typing clock room_id user_id (default false (v ← content_at "typing" edu; as_bool v)) w
            else w
        | _, _ => w
        end
      else if bool_decide (ty = "m.presence"%string) then
        match p ← content_at "push" edu; as_array p with
        | None => w
        | Some push =>
            foldl (λ w update,
              match vstr_at "user_id" update with
              | None => w
              | Some user_id =>
                  if negb (lives_on origin user_id) then w
                  else sink_presence clock user_id
                         (default "offline"%string (vstr_at "presence" update))
                         (vstr_at "status_msg" update) w
              end) w push
        end
      else w
  | None => w
  end.

(** One EDU of a transaction. *)
Definition dispatch_edu (clock : N) (origin : string) (w : FedWorld) (edu : jvalue jnum) : FedWorld :=
  let ty := vstr_at "edu_type" edu in
  if bool_decide (ty = Some "m.direct_to_device"%string) then
    if fc_users config then apply_to_device_edu clock origin edu w else w
  else if bool_decide (ty = Some "m.device_list_update"%string) then
    if fc_users config then apply_device_list_edu origin edu w else w
  else if bool_decide (ty = Some "m.receipt"%string) then apply_receipt_edu origin edu w
  else if bool_decide (ty = Some "m.typing"%string) then
    let denied := match content_text "room_id" edu with
                  | Some room_id => acl_denies room_id origin w
                  | None => false
                  end in
    if negb denied && fc_edu_sink config then apply_edu clock origin edu w else w
  else if fc_edu_sink config then apply_edu clock origin edu w else w.

(** ** PDUs *)

Definition error_result (msg : string) : jvalue jnum := vobj [("error"%string, VStr msg)].

(** shards.rs, [pdu_room_id] *)
Definition pdu_room_id (raw : json_object) : option string :=
  match json_str raw "room_id" with
  | Some room_id => Some room_id
  | None =>
      if is_str "m.room.create" (str_prop raw "type") && is_str EmptyString (str_prop raw "state_key") then
        content ← obj_prop raw "content"; s ← str_prop content "room_version"; v ← CoreEvent.parse s;
        if room_id_is_create_event_id v then room_id_for_create raw v else None
      else None
  end.

(** The healing of an event on the shard of a room. *)
Definition ingest_healing (gas : nat) (origin room_id : string) (raw : json_object) (w : FedWorld) :
    option (result RoomError Outcome * FedWorld) :=
  let shard := for_room (fw_rooms w) room_id in
  let idx := index_of (fw_rooms w) room_id in
  '(r, h) ← ingest_pdu_healing (r_shard shard) next_id fuel raft fetcher gas origin raw
    {| hl_engine := r_engine shard; hl_keys := fw_keys w idx; hl_calls := fw_calls w;
       hl_proposals := fw_proposals w |};
  Some (r, with_keys (λ i, if i =? idx then hl_keys h else fw_keys w i) (hl_calls h)
             (with_rooms (with_shard (fw_rooms w) room_id (hl_engine h)) (hl_proposals h) w)).

(** A leave or ban of a local user with a standing invite, by the inviter:
    the room and the user it concerns. *)
Definition out_of_band_leave (raw : json_object) (e : engine) : option (string * string) :=
  if is_str "m.room.member" (json_str raw "type") then
    content ← obj_prop raw "content"; membership ← str_prop content "membership";
    if bool_decide (membership = "leave" ∨ membership = "ban")%string then
      target ← json_str raw "state_key"; room_id ← json_str raw "room_id";
      if lives_on server_name target then
        match membership_of (store usid e) target room_id with
        | Ok (Some entry) =>
            if bool_decide (me_membership entry = "invite"%string)
               && bool_decide (json_str raw "sender" = Some (me_sender entry))
            then Some (target, room_id) else None
        | _ => None
        end
      else None
    else None
  else None.

Definition apply_out_of_band_leave (raw : json_object) (w : FedWorld) : bool * FedWorld :=
  if fc_users config then
    match out_of_band_leave raw (fw_users w) with
    | Some (target, room_id) =>
        let '(r, e) := UserFront.record_remote_leave usid next_id (raft (fw_proposals w)) target room_id (fw_users w) in
        (match r with Ok _ => true | Err _ => false end, with_users e w)
    | None => (false, w)
    end
  else (false, w).

(** [pdu_event_id] on the PDU's shard. *)
Definition precomputed_id (raw : json_object) (room_id : string) (w : FedWorld) : option string :=
  pdu_event_id (for_room (fw_rooms w) room_id) raw.

Definition process_pdu (gas : nat) (origin : string) (pdu : jvalue jnum) (w : FedWorld) :
    option (option string * jvalue jnum * FedWorld) :=
  match canonical jnum_i64 pdu with
  | Some (JObject raw) =>
      match pdu_room_id raw with
      | None => Some (None, error_result "PDU names no room", w)
      | Some routed =>
          let precomputed := precomputed_id raw routed w in
          let denied := match json_str raw "room_id" with
                        | Some room_id => acl_denies room_id origin w
                        | None => false
                        end in
          if (denied : bool) then Some (precomputed, error_result "denied by server ACL", w)
          else
            '(r, w) ← ingest_healing gas origin routed raw w;
            match r with
            | Ok o => Some (Some (outcome_event_id o), VObj [], w)
            | Err (MissingEvents _) => Some (precomputed, error_result "missing prev events", w)
            | Err (UnknownRoom _) =>
                let '(left_room, w) := apply_out_of_band_leave raw w in
                Some (precomputed, if (left_room : bool) then VObj [] else error_result "unknown room", w)
            | Err e => Some (precomputed, error_result (error_text e), w)
            end
      end
  | _ => Some (None, error_result "PDU is not a JSON object", w)
  end.

(** ** The transaction *)

(** Keys for every shard. *)
Definition trust_all (f : nat → PublicKeyMap → PublicKeyMap) (w : FedWorld) : FedWorld :=
  with_keys (λ i, f (fw_calls w) (fw_keys w i)) (S (fw_calls w)) w.

Definition pdu_objects (pdus : list (jvalue jnum)) : list json_object :=
  omap (λ p : jvalue jnum, match canonical jnum_i64 p with Some (JObject o) => Some o | _ => None end) pdus.

(** The PDUs one after another; results by event id. *)
Fixpoint process_pdus (gas : nat) (origin : string) (pdus : list (jvalue jnum))
    (results : list (string * jvalue jnum)) (w : FedWorld) :
    option (list (string * jvalue jnum) * FedWorld) :=
  match pdus with
  | [] => Some (results, w)
  | pdu :: pdus =>
      '(id, result, w) ← process_pdu gas origin pdu w;
      process_pdus gas origin pdus
        (match id with Some id => obj_insert id result results | None => results end) w
  end.

Definition apply_edus (clock : N) (origin : string) (body : jvalue jnum) (w : FedWorld) : FedWorld :=
  match e ← vget "edus" body; as_array e with
  | Some edus => foldl (dispatch_edu clock origin) w (take MAX_EDUS edus)
  | None => w
  end.

(** Why an inbound request is refused; a handler raises [RejBody] only. *)
Inductive AuthRejection : Type :=
| RejMissing | RejMalformed | RejBody | RejWrongDestination | RejBadSignature
| RejKeyFetch (e : string).

(** [auth.json()]: an empty body reads as an object without properties. *)
Definition auth_json (body : bytes) : result AuthRejection (jvalue jnum) :=
  if bool_decide (body = EmptyString) then Ok (VObj []) else ok_or (from_slice body) RejBody.

Definition send_transaction (gas : nat) (clock : N) (origin txn_id : string) (body : bytes) (w : FedWorld) :
    option (result AuthRejection (jvalue jnum) * FedWorld) :=
  if negb (fc_rooms config) then Some (Ok (vobj [("pdus"%string, VObj [])]), w)
  else
    let w := if fc_delivery_backoff config then with_backoff (success origin (fw_backoff w)) w else w in
    match replay_get origin txn_id (fw_replay w) with
    | Some cached => Some (Ok cached, w)
    | None =>
        match auth_json body with
        | Err x => Some (Err x, w)
        | Ok body =>
            let pdus := default [] (p ← vget "pdus" body; as_array p) in
            let w := match pdus with
                     | [] => w
                     | _ => trust_all (λ n, ef_trust_event_servers fetcher n (pdu_objects pdus))
                              (trust_all (λ n, ef_trust_origin_keys fetcher n origin) w)
                     end in
            '(results, w) ← process_pdus gas origin (take MAX_PDUS pdus) [] w;
            let w := apply_edus clock origin body w in
            let response := vobj [("pdus"%string, VObj results)] in
            Some (Ok response, with_replay (replay_put origin txn_id response (fw_replay w)) w)
        end
    end.

(** ** What an origin's EDUs may do *)

(** A message that the origin's user sends to a user of this server. *)
Definition message_from (sender : string) (m : ToDeviceMessage) : Prop :=
  lives_on server_name (td_user_id m) = true ∧
  ∃ event_type content, td_json m = to_vec (vobj [("type"%string, VStr event_type);
    ("sender"%string, VStr sender); ("content"%string, content)]).

Definition receipt_of (origin room_id : string) (cmd : ReceiptCmd) : Prop :=
  rc_room_id cmd = room_id ∧ lives_on origin (rc_user_id cmd) = true ∧ rc_receipt_type cmd = "m.read"%string.

Inductive edu_step (clock : N) (origin : string) : FedWorld → FedWorld → Prop :=
| es_typing room_id user_id typing w :
    lives_on origin user_id = true → acl_denies room_id origin w = false →
    edu_step clock origin w (sink_typing clock room_id user_id typing w)
| es_presence user_id presence status_msg w :
    lives_on origin user_id = true →
    edu_step clock origin w (sink_presence clock user_id presence status_msg w)
| es_key_change user_id w :
    lives_on origin user_id = true →
    edu_step clock origin w (on_users (λ o, record_key_change usid next_id o user_id) w)
| es_to_device sender mid batch w :
    lives_on origin sender = true → Forall (message_from sender) batch →
    edu_step clock origin w (on_users (λ o e,
      match mid with
      | Some mid => UserFront.send_to_device_deduped usid next_id o (at_clock clock) origin mid batch e
      | None => UserFront.send_to_device usid next_id o batch e
      end) w)
| es_receipts room_id cmds w :
    acl_denies room_id origin w = false → Forall (receipt_of origin room_id) cmds →
    edu_step clock origin w (foldl (λ w cmd, run_receipt cmd w) w cmds).

Lemma batch_from event_type sender messages :
  Forall (message_from sender) (to_device_batch event_type sender messages).
Proof.
  apply list.Forall_forall. intros m. unfold to_device_batch. rewrite list_elem_of_In, in_flat_map.
  intros ([user_id per_device] & _ & Hm). destruct (as_object per_device) as [devices|]; [|done].
  destruct (lives_on server_name user_id) eqn:Hl; [|done].
  apply list_elem_of_In, list_elem_of_fmap in Hm as ([device_id message] & -> & _).
  split; [done|]. by exists event_type, message.
Qed.

Lemma receipts_of origin room_id per_room :
  Forall (receipt_of origin room_id) (room_receipts origin room_id per_room).
Proof.
  apply list.Forall_forall. intros cmd. unfold room_receipts.
  destruct (r ← _; _) as [reads|]; [|by intros ?%elem_of_nil]. rewrite list_elem_of_In, in_flat_map.
  intros ([user_id receipt] & _ & Hc). destruct (lives_on origin user_id) eqn:Hl; [|done].
  unfold user_receipts in Hc. destruct (e ← _; _) as [ids|]; [|done].
  apply list_elem_of_In, list_elem_of_omap in Hc as (ev & _ & Hid).
  apply bind_Some in Hid as (id & _ & Hid). destruct (event_id_ok id); [|done]. by injection Hid as <-.
Qed.

(** A loop of steps. *)
Lemma rtc_foldl {A} (R : relation FedWorld) (f : FedWorld → A → FedWorld) l w :
  (∀ w a, rtc R w (f w a)) → rtc R w (foldl f w l).
Proof.
  intros Hf. revert w. induction l as [|a l IH]; intros w; [done|]. cbn [foldl]. etrans; [apply Hf|apply IH].
Qed.

Lemma receipt_edu_steps clock origin edu w : rtc (edu_step clock origin) w (apply_receipt_edu origin edu w).
Proof.
  unfold apply_receipt_edu. destruct (c ← _; _) as [content|]; [|done].
  apply rtc_foldl. clear w. intros w [room_id per_room].
  destruct (negb _); [done|]. destruct (acl_denies room_id origin w) eqn:Hd; [done|].
  apply rtc_once, (es_receipts clock origin room_id); [done|apply receipts_of].
Qed.

Lemma to_device_edu_steps clock origin edu w :
  rtc (edu_step clock origin) w (apply_to_device_edu clock origin edu w).
Proof.
  unfold apply_to_device_edu. destruct (content_text "sender" edu) as [sender|]; [|done].
  destruct (content_text "type" edu) as [ty|]; [|done]. destruct (m ← _; _) as [messages|]; [|done].
  destruct (lives_on origin sender) eqn:Hl; [|done]. cbn [negb].
  pose proof (batch_from ty sender messages) as Hb. set (batch := to_device_batch ty sender messages) in *.
  destruct (content_text "message_id" edu) as [mid|].
  - by apply rtc_once, (es_to_device clock origin sender (Some mid)).
  - destruct batch; [done|]. by apply rtc_once, (es_to_device clock origin sender None).
Qed.

Lemma edu_steps clock origin edu w :
  (∀ room_id, content_text "room_id" edu = Some room_id →
     vstr_at "edu_type" edu = Some "m.typing"%string → acl_denies room_id origin w = false) →
  rtc (edu_step clock origin) w (apply_edu clock origin edu w).
Proof.
  intros Hacl. unfold apply_edu. destruct (vstr_at "edu_type" edu) as [ty|]; [|done].
  case_bool_decide as Hty; [subst ty|case_bool_decide; [|done]].
  - destruct (content_text "room_id" edu) as [room_id|]; [|done].
    destruct (content_text "user_id" edu) as [user_id|]; [|done].
    destruct (lives_on origin user_id) eqn:Hl; [|done]. apply rtc_once, es_typing; [done|]. by apply Hacl.
  - destruct (p ← _; _) as [push|]; [|done]. apply rtc_foldl. clear. intros w update.
    destruct (vstr_at "user_id" update) as [user_id|]; [|done].
    destruct (lives_on origin user_id) eqn:Hl; [|done]. by apply rtc_once, es_presence.
Qed.

Lemma dispatch_steps clock origin w edu : rtc (edu_step clock origin) w (dispatch_edu clock origin w edu).
Proof.
  unfold dispatch_edu. case_bool_decide; [destruct (fc_users config); [apply to_device_edu_steps|done]|].
  case_bool_decide.
  { destruct (fc_users config); [|done]. unfold apply_device_list_edu.
    destruct (content_text "user_id" edu) as [user_id|]; [|done].
    destruct (lives_on origin user_id) eqn:Hl; [|done]. cbn [negb].
    destruct (default false _); [done|]. by apply rtc_once, es_key_change. }
  case_bool_decide; [apply receipt_edu_steps|].
  case_bool_decide as Hty.
  - destruct (content_text "room_id" edu) as [room_id|] eqn:Hr.
    + destruct (acl_denies room_id origin w) eqn:Hd; [done|]. cbn [negb andb].
      destruct (fc_edu_sink config); [|done]. apply edu_steps. intros r'. rewrite Hr. by intros [= <-].
    + cbn [negb andb]. destruct (fc_edu_sink config); [|done]. apply edu_steps. intros r'. by rewrite Hr.
  - destruct (fc_edu_sink config); [|done]. apply edu_steps. by intros r' _ Ht.
Qed.

Lemma edus_steps clock origin body w : rtc (edu_step clock origin) w (apply_edus clock origin body w).
Proof.
  unfold apply_edus. destruct (e ← _; _) as [edus|]; [|done]. apply rtc_foldl. intros. apply dispatch_steps.
Qed.

(** What the maps in memory show of a user. *)
Definition typing_entry (room_id user_id : string) (m : TypingMap) : option N :=
  t ← tm_inner m !! room_id; ty_users t !! user_id.

Lemma typing_set_other clock room_id user_id typing timeout m room u t :
  u ≠ user_id → typing_entry room u (typing_set clock room_id user_id typing timeout m) = Some t →
  typing_entry room u m = Some t.
Proof.
  intros Hu. unfold typing_entry, typing_set.
  set (inner := if _ && _ then _ else tm_inner m). cbn [tm_inner].
  assert (∀ r x, inner !! r = Some x → tm_inner m !! r = Some x) as Hsub.
  { intros r x. unfold inner. destruct (_ && _); [|done]. by intros [? _]%map_lookup_filter_Some. }
  destruct (decide (room = room_id)) as [->|Hr].
  - rewrite lookup_insert_eq. cbn [mbind option_bind ty_users]. intros Ht.
    assert (ty_users (default {| ty_users := ∅; ty_changed_at := 0 |} (inner !! room_id)) !! u = Some t) as Ht'.
    { destruct typing; [by rewrite lookup_insert_ne in Ht|by rewrite lookup_delete_ne in Ht]. }
    destruct (inner !! room_id) as [x|] eqn:Hx; [|done]. apply Hsub in Hx. by rewrite Hx.
  - rewrite lookup_insert_ne by done. destruct (inner !! room) as [x|] eqn:Hx; [|done].
    apply Hsub in Hx. by rewrite Hx.
Qed.

Lemma presence_set_other clock user_id presence status_msg m u e :
  u ≠ user_id → presence_get u (presence_set clock user_id presence status_msg m) = Some e →
  presence_get u m = Some e.
Proof.
  intros Hu. unfold presence_get, presence_set, presence_update. cbn [pm_inner].
  destruct (_ <? _); [intros [Hl _]%map_lookup_filter_Some|intros Hl]; by rewrite lookup_insert_ne in Hl.
Qed.

Lemma receipts_frame cmds w :
  let w' := foldl (λ w cmd, run_receipt cmd w) w cmds in
  fw_typing w' = fw_typing w ∧ fw_presence w' = fw_presence w ∧ fw_replay w' = fw_replay w.
Proof.
  cbn zeta. revert w. induction cmds as [|cmd cmds IH]; intros w; [done|]. cbn [foldl].
  destruct (IH (run_receipt cmd w)) as (-> & -> & ->). unfold run_receipt. by destruct (write_receipt _ _ _ _ _).
Qed.

Lemma edu_step_frame clock origin w w' :
  edu_step clock origin w w' → fw_replay w' = fw_replay w ∧
  ∀ u, lives_on origin u = false →
    (∀ e, presence_get u (fw_presence w') = Some e → presence_get u (fw_presence w) = Some e) ∧
    (∀ room_id t, typing_entry room_id u (fw_typing w') = Some t → typing_entry room_id u (fw_typing w) = Some t).
Proof.
  intros Hs. destruct Hs as [room_id user_id typing w Hl|user_id presence status_msg w Hl|user_id w Hl
    |sender mid batch w Hl|room_id cmds w _].
  - split; [done|]. intros u Hu. split; [done|]. intros room t. apply typing_set_other. intros ->. congruence.
  - split; [done|]. intros u Hu. split; [|done]. intros e. apply presence_set_other. intros ->. congruence.
  - done.
  - done.
  - destruct (receipts_frame cmds w) as (-> & -> & ->). done.
Qed.

(** C28 (safety): the EDUs of a transaction act for the origin's own users and
    nobody else.  Whatever the body, what it does is a sequence of steps of
    five kinds: typing of one of its users, in a room whose ACL admits the
    origin; presence of one; a mark that the device list of one changed;
    messages from one, under its own name, to the devices of users of this
    server; and read receipts of its users, room by room and only where the
    ACL admits the origin.  So the presence and the typing of everybody else
    are as they were, or were evicted. *)
Theorem edus_confined_to_origin clock origin body w :
  let w' := apply_edus clock origin body w in
  rtc (edu_step clock origin) w w' ∧
  ∀ u, lives_on origin u = false →
    (∀ e, presence_get u (fw_presence w') = Some e → presence_get u (fw_presence w) = Some e) ∧
    (∀ room_id t, typing_entry room_id u (fw_typing w') = Some t → typing_entry room_id u (fw_typing w) = Some t).
Proof.
  cbn zeta. split; [apply edus_steps|]. intros u Hu. pose proof (edus_steps clock origin body w) as Hs.
  induction Hs as [w|w1 w2 w3 H12 _ [IH1 IH2]]; [done|].
  destruct (edu_step_frame _ _ _ _ H12) as [_ H]. destruct (H u Hu) as [Hp Ht].
  split; [by intros e ?%IH1%Hp|by intros room_id t ?%IH2%Ht].
Qed.

(** ** Answers are kept *)

Lemma process_pdu_replay gas origin pdu w id result w' :
  process_pdu gas origin pdu w = Some (id, result, w') → fw_replay w' = fw_replay w.
Proof.
  unfold process_pdu. destruct (canonical jnum_i64 pdu) as [[| | | | |raw]|]; try by intros [= <- <- <-].
  destruct (pdu_room_id raw) as [routed|]; [|by intros [= <- <- <-]].
  destruct (match json_str raw "room_id" with Some _ => _ | None => _ end); [by intros [= <- <- <-]|].
  unfold ingest_healing. destruct (ingest_pdu_healing _ _ _ _ _ _ _ _ _) as [[r h]|]; [|done].
  cbn [mbind option_bind]. set (w1 := with_keys _ _ _).
  assert (fw_replay w1 = fw_replay w) as Hw1 by done. clearbody w1.
  destruct r as [o|x]; [by intros [= _ _ <-]|]. destruct x; try by intros [= _ _ <-].
  unfold apply_out_of_band_leave. destruct (fc_users config); [|by intros [= _ _ <-]].
  destruct (out_of_band_leave _ _) as [[target left_room]|]; [|by intros [= _ _ <-]].
  destruct (UserFront.record_remote_leave _ _ _ _ _ _). by intros [= _ _ <-].
Qed.

Lemma process_pdus_replay gas origin pdus results w results' w' :
  process_pdus gas origin pdus results w = Some (results', w') → fw_replay w' = fw_replay w.
Proof.
  revert results w. induction pdus as [|pdu pdus IH]; intros results w; cbn [process_pdus].
  { by intros [= _ <-]. }
  destruct (process_pdu gas origin pdu w) as [[[id result] w1]|] eqn:Hp; [|done]. cbn.
  intros H. rewrite (IH _ _ H). by eapply process_pdu_replay.
Qed.

Lemma edus_replay clock origin body w : fw_replay (apply_edus clock origin body w) = fw_replay w.
Proof.
  pose proof (edus_steps clock origin body w) as Hs. induction Hs as [|w1 w2 w3 H12 _ IH]; [done|].
  destruct (edu_step_frame _ _ _ _ H12) as [H _]. congruence.
Qed.

(** A transaction that was answered is answered alike when it is sent again,
    whatever its body, and nothing is done, except that the origin counts as
    alive. *)
Lemma replayed_transaction_is_inert gas clock gas' clock' origin txn_id body body' w response w' :
  fc_rooms config = true → replay_ok (fw_replay w) →
  send_transaction gas clock origin txn_id body w = Some (Ok response, w') →
  replay_ok (fw_replay w') ∧
  send_transaction gas' clock' origin txn_id body' w' =
    Some (Ok response,
      if fc_delivery_backoff config then with_backoff (success origin (fw_backoff w')) w' else w').
Proof.
  intros Hrooms Hok Hsend.
  assert (replay_ok (fw_replay w') ∧ replay_get origin txn_id (fw_replay w') = Some response) as [Hok' Hget].
  { revert Hsend. unfold send_transaction. rewrite Hrooms. cbn [negb].
    set (w1 := if fc_delivery_backoff config then _ else w).
    assert (fw_replay w1 = fw_replay w) as Hw1 by (unfold w1; by destruct (fc_delivery_backoff config)).
    destruct (replay_get origin txn_id (fw_replay w1)) as [cached|] eqn:Hc.
    { intros [= <- <-]. by rewrite Hw1 in *. }
    destruct (auth_json body) as [v|]; [|done]. set (w2 := match default [] _ with [] => w1 | _ => _ end).
    assert (fw_replay w2 = fw_replay w) as Hw2 by (unfold w2; by destruct (default [] _)).
    destruct (process_pdus _ _ _ _ _) as [[results w3]|] eqn:Hp; [|done]. apply process_pdus_replay in Hp.
    cbn [mbind option_bind]. intros [= <- <-]. cbn [with_replay fw_replay].
    rewrite edus_replay, Hp, Hw2. by apply replay_put_ok. }
  split; [done|]. unfold send_transaction. rewrite Hrooms. cbn [negb].
  assert (fw_replay (if fc_delivery_backoff config then with_backoff (success origin (fw_backoff w')) w' else w')
    = fw_replay w') as -> by (by destruct (fc_delivery_backoff config)).
  by rewrite Hget.
Qed.

(** ** A leave for a room this server is not in *)

Lemma str_of_json raw key s : json_str raw key = Some s → str_of raw key = Ok s.
Proof. unfold json_str, str_of. by destruct (obj_get key raw) as [[]|]; cbn; try done; intros [= ->]. Qed.

(** C29 (safety, where it ends): any server can revoke anybody's invite.  The
    invite of a user of this server, to a room the server is not in, is
    dropped by a PDU that claims to be the inviter's leave: its room is
    unknown, so it is never validated; the sender is compared with the inviter
    as the PDU states it, and neither a signature nor the origin is looked
    at. *)
Theorem unsigned_leave_revokes_invite gas origin pdu raw content membership target room_id entry w e' :
  canonical jnum_i64 pdu = Some (JObject raw) →
  json_str raw "type" = Some "m.room.member"%string → json_str raw "room_id" = Some room_id →
  json_str raw "state_key" = Some target → json_str raw "sender" = Some (me_sender entry) →
  obj_prop raw "content" = Some content → str_prop content "membership" = Some membership →
  membership = "leave"%string ∨ membership = "ban"%string →
  fc_users config = true → Pdu.room_id_ok room_id = true → lives_on server_name target = true →
  meta (for_room (fw_rooms w) room_id) room_id = Ok None →
  membership_of (store usid (fw_users w)) target room_id = Ok (Some entry) →
  me_membership entry = "invite"%string →
  UserFront.record_remote_leave usid next_id (raft (S (fw_proposals w))) target room_id (fw_users w)
    = (Ok (), e') →
  ∃ id w', process_pdu gas origin pdu w = Some (id, VObj [], w') ∧ fw_users w' = e'.
Proof.
  intros Hpdu Hty Hroom Hkey Hsender Hcontent Hm Hlb Husers Hok Hlocal Hmeta Hentry Hinv Hleave.
  unfold process_pdu. rewrite Hpdu. assert (pdu_room_id raw = Some room_id) as ->.
  { unfold pdu_room_id. by rewrite Hroom. }
  rewrite Hroom. assert (acl_denies room_id origin w = false) as ->.
  { unfold acl_denies, server_acl_denies, server_acl. by rewrite Hmeta. }
  assert (classify (local_store (r_shard (for_room (fw_rooms w) room_id)) (r_engine (for_room (fw_rooms w) room_id)))
    raw = Err (UnknownRoom room_id)) as Hunknown.
  { unfold classify, room_id_of. rewrite (str_of_json _ _ _ Hty), (str_of_json _ _ _ Hroom). cbn. rewrite Hok.
    revert Hmeta. destruct (for_room (fw_rooms w) room_id) as [s e]. intros Hmeta.
    unfold local_store. cbn [r_shard r_engine]. by rewrite Hmeta. }
  unfold ingest_healing.
  rewrite (healing_at_once _ _ _ _ _ gas origin raw _ (Err (UnknownRoom room_id)) (r_engine (for_room (fw_rooms w) room_id)));
    [|unfold ingest; cbn [hl_engine]; by rewrite Hunknown|done].
  cbn [mbind option_bind proposed hl_engine hl_keys hl_calls hl_proposals]. unfold apply_out_of_band_leave, out_of_band_leave.
  cbn [with_keys with_rooms fw_users fw_proposals].
  rewrite Husers, Hty. unfold is_str. rewrite bool_decide_true by done. rewrite Hcontent. cbn [mbind option_bind].
  rewrite Hm. cbn [mbind option_bind]. rewrite bool_decide_true by done. rewrite Hkey, Hroom. cbn [mbind option_bind].
  rewrite Hlocal, Hentry, Hinv, Hsender, !bool_decide_true by done. cbn [andb].
  rewrite Hleave. by eexists _, _.
Qed.
End FedIn.

(** ** Witnesses

    Carol invited Alice to a room that Alice's server is not in; a server that
    has nothing to do with either sends a leave in Carol's name, unsigned. *)

From S2P Require Import Demo RoomDemo UserDemo AuthDemo PipelineDemo RoomServeDemo.

Definition far_room : string := "!far:c".

Definition invited_end : engine :=
  demo_end [[RecordRemoteInvite alice far_room carol "$invite" []]].

#[local] Instance one_shard : Blake3 := {| blake3_first8 _ := 0 |}.

Definition quiet_world : FedWorld := {|
  fw_rooms := {| rs_count := 1; rs_slot := λ _, ctx ∅ |};
  fw_keys := λ _, ∅; fw_users := invited_end;
  fw_typing := {| tm_inner := ∅; tm_gen := 0 |};
  fw_presence := {| pm_inner := ∅; pm_gen := 0 |};
  fw_replay := {| tr_map := ∅; tr_order := [] |};
  fw_backoff := ∅; fw_calls := 0; fw_proposals := 0 |}.

Definition all_wired : FedConfig := {|
  fc_rooms := true; fc_users := true; fc_edu_sink := true; fc_delivery_backoff := true |}.

Definition p_revoke : json_object :=
  object_of [("type", JString "m.room.member"); ("room_id", JString far_room);
             ("sender", JString carol); ("state_key", JString alice);
             ("content", JObject [("membership", JString "leave")])]%string.

Definition alice_membership (e : engine) : option string :=
  match membership_of (store user_shard e) alice far_room with
  | Ok (Some entry) => Some (me_membership entry)
  | _ => None
  end.

Definition revoked : result UserError () * engine :=
  UserFront.record_remote_leave user_shard demo_next Done alice far_room (fw_users quiet_world).

Lemma unsigned_leave_revokes_invite_witness :
  alice_membership (fw_users quiet_world) = Some "invite"%string ∧
  ∃ id w', process_pdu demo_next 64 (λ _, Done) lying_peer user_shard "a" all_wired (λ _, EmptyString) 64
      "evil" (json_value (JObject p_revoke)) quiet_world = Some (id, VObj [], w') ∧
    alice_membership (fw_users w') = Some "leave"%string.
Proof.
  split; [vm_compute; reflexivity|].
  destruct (membership_of (store user_shard (fw_users quiet_world)) alice far_room) as [[entry|]|] eqn:Hentry;
    [|by vm_compute in Hentry..].
  assert (me_membership entry = "invite"%string ∧ me_sender entry = carol) as [Hinv Hcarol].
  { revert Hentry. vm_compute. by intros [= <-]. }
  assert (revoked.1 = Ok ()) as Hok by (vm_compute; reflexivity).
  assert (revoked = (Ok (), revoked.2)) as Hleave by (rewrite <- Hok; apply surjective_pairing).
  destruct (unsigned_leave_revokes_invite (SJ := pipe_serde) demo_next 64 (λ _, Done) lying_peer user_shard "a" all_wired
    (λ _, EmptyString) 64 "evil" (json_value (JObject p_revoke)) p_revoke [("membership", JString "leave")]%string
    "leave" alice far_room entry quiet_world revoked.2) as (id & w' & Hp & Hu);
    [vm_compute; reflexivity|vm_compute; reflexivity|vm_compute; reflexivity|vm_compute; reflexivity|rewrite Hcarol; vm_compute; reflexivity|vm_compute; reflexivity|vm_compute; reflexivity|by left
    |vm_compute; reflexivity|vm_compute; reflexivity|vm_compute; reflexivity|vm_compute; reflexivity|exact Hentry|exact Hinv|exact Hleave|].
  exists id, w'. split; [exact Hp|]. rewrite Hu. vm_compute. reflexivity.
Defined.
